(* ===== verification/_CoqProject ===== *)
-Q . S2P
Prelude.v
Transition.v
PriorityQueue.v
HuffmanTree.v
HuffmanBase.v
HuffmanFixed.v
Binary64.v
HuffmanGeneric.v
HuffmanDecode.v
Compression.v
StdMap.v
Streams.v
IniParser.v
IniFile.v
IniDisk.v
Concurrent.v
LockFreeQueue.v
DoubleBufferQueue.v
ArgParser.v
ArgSpec.v
ArgAccess.v
SocketErrors.v
Packet.v
TcpSocket.v
TcpConnection.v
UdpSocket.v
AsyncWriter.v
TcpClose.v
TcpSystem.v
TcpApi.v
UdpApi.v
UdpSystem.v
UdpStream.v
