(* ===== verification/Prelude.v ===== *)
(** * clockUtils: a verified model

    clockUtils is a C++ library of five independent modules: compression,
    iniParser, container, argParser and sockets. This development models them,
    file by file, and proves what makes them correct. Everything is executable
    unless it is a relation between the states of concurrent threads; a result
    [None] or [Undefined] is undefined behaviour of the code.

    ** Shared files

    - [Prelude]: the error codes of [include/clockUtils/errors.h], machine
      integers with their wrap-around, bytes and their bits, big-endian lengths,
      and the tactics and lemmas that all files share.
    - [PriorityQueue], [StdMap], [Streams], [Binary64]: the parts of the C++
      standard library that the code uses. [std::priority_queue] is an interface
      (a class with its laws, and a list implementation); [std::map] is a sorted
      association list; [Streamable] is the interface of a type with stream
      operators; [double] is IEEE binary64.
    - [Transition]: runs of transition systems: what their steps keep, simulate or
      decrease.
    - [Concurrent]: threads that interleave, the specification of a queue by what its
      calls do at one point and what they have seen at an earlier one,
      and the simulation theorem by which an implementation refines it.

    ** Compression ([libs/compression], [include/clockUtils/compression])

    - [HuffmanTree]: [HuffmanBase::buildTree]. Its leaves are the nonzero entries
      of the header, and its cost is minimal among all trees with these leaves.
    - [HuffmanBase]: [generateMapping], [getChar] and the bit writer; decoding
      inverts encoding for the same tree.
    - [HuffmanFixed], [HuffmanGeneric]: [compress], [decompress], [convert] and
      [calcFrequencies]; [decompress] inverts [compress].
    - [HuffmanDecode]: the decoders on arbitrary data. A reference decoder on the
      list of bits is equivalent to [getChar]; the two [decompress] functions
      accept exactly the codings of a text with one to eight bits of padding.
    - [Compression]: the class template. [Algorithm] is the interface of its
      argument, [AlgorithmSpec] the contract, which both codecs implement.
    Fuel: [combine] gets the size of the queue, which every round decreases; the
    growing of the output gets the number of bytes needed. Allocation failure is
    the parameter [alloc].

    ** IniParser ([libs/iniParser], [include/clockUtils/iniParser])

    - [IniParser]: the state ([_data], [_allLines]), [load], [save], [getValue],
      [setValue], [removeEntry] and the queries, with the invariant [ini_ok].
      A file is its content; whether it can be opened is an argument.
    - [IniFile]: the texts that [load] accepts and that [save] writes: loading
      and saving permutes the sections, saving and loading gives the values back,
      also after [setValue].
    - [IniDisk]: files by name, and sessions that load one, set and remove values
      and save it. On the texts and for the edits that survive [save] a file is a
      persistent map, over any number of sessions.

    ** Container ([include/clockUtils/container])

    - [LockFreeQueue], [DoubleBufferQueue]: every operation as a sequence of
      accesses to shared memory, run by any number of threads under every
      interleaving (sequentially consistent, as the default order of the atomics
      is). Both refine a FIFO queue with all their calls, as long as
      the callers keep apart what the code does not ([may_overlap]): in the first
      one [clear] and other consumers, in the second one [empty] and [size] and
      everything else, and with [consumer = false] two consumers. In the first one
      [push], [pop], [front] and [poll] are atomic; [empty], [size] and [clear] look
      twice, and the specification says what they return or remove in terms of the
      queue at both points. In the second one all but [clear] are atomic, which
      removes elements one by one. Calls that run alone return, the double buffer cannot deadlock,
      and no two threads access a slot or a buffer at the same time.
      Bound: fewer than [2 ^ 64] steps, so that the indices do not wrap.

    ** ArgParser ([libs/argParser], [include/clockUtils/argParser])

    - [ArgParser]: the variables, the registry with its pointers, the whole of
      [parseArguments], help texts and the registration macro. With all
      registered objects alive the parser is defined, its result does not depend
      on earlier calls, and it assigns what the command line says.
    - [ArgSpec]: the meaning of a command line as a list of items, found with
      the declarations of the variables alone, and the theorem that
      [parseArguments] computes it on every input, errors included.
    - [ArgAccess]: the macros, the values as a program reads them, the
      [ArgumentList] and the text of the help.

    ** Sockets ([libs/sockets], [include/clockUtils/sockets])

    - [SocketErrors]: [getLastError] of both sockets on both platforms.
    - [Packet]: the packet format and the round of [receivePacket] that cuts a
      packet out of the data.
    - [TcpSocket]: sending and receiving against scripts of the results of [send]
      and [recv]: packets arrive in order however the stream is cut.
    - [TcpConnection]: [listen], [connect], [close] and the listen thread as a
      state machine over descriptors and threads: the socket loses none of its own
      descriptors and closes none twice, an accepted client goes to the callback
      unless the destructor has begun, failed calls leave no trace.
    - [TcpClose]: [close] and the thread of [receiveCallback] as two threads that
      share the socket: the callback gets whole packets up to the end, [close]
      returns, and what it leaves is what [TcpConnection.close] leaves.
    - [UdpSocket]: datagrams, the buffer of each peer, [bind] and [close]:
      packets of any number of interleaved peers arrive.
    - [AsyncWriter]: the worker thread, the queues and the condition variable of
      both sockets under every interleaving: FIFO, no lost wake-up, and
      everything is written before the destructor returns.
    - [TcpSystem]: two connected sockets, until one of them is destroyed. The
      writer, the framing, a stream of bytes, the receiver and the destructor as
      one system under every interleaving; it refines a first-in first-out channel
      that may be closed, everything that was pushed arrives, and the end of the
      stream comes behind the last packet.
    - [UdpSystem]: any number of [UdpSocket]s that send to one, over a network that
      loses, repeats and reorders datagrams. For packets of one datagram the
      whole refines an unreliable channel, and over a network that only reorders
      everything arrives once.
    - [UdpStream]: the same sockets over a network that keeps the order of each
      sender's datagrams. Packets of several datagrams are put together again; the
      whole refines a bundle of first-in first-out streams, one for each sender,
      everything arrives in order, and the destructors lose nothing.
    - [TcpApi], [UdpApi]: the rest of the two interfaces: overloads,
      asynchronous writes as callers see them, stream operators for
      enumerations, addresses, the callback thread of [UdpSocket]; packets of
      one datagram do not depend on others.
    Fuel: the receive loops get the length of the script of answers; every round
    takes one. The worker's run is bounded by [AsyncWriter.steps_left], the end of
    the callback thread by [TcpClose.work_left].

    ** Flaws

    Where the code does not do what it means to, a theorem states what it does
    instead: [HuffmanFixed.fixed_empty], [HuffmanGeneric.generic_empty_undefined],
    [HuffmanGeneric.generic_zero_header_undefined],
    [IniParser.removeEntry_stale_index], [IniParser.removeEntry_twice_undefined],
    [IniFile.global_entries_move], [IniFile.setValue_global_unloadable],
    [IniFile.setValue_global_undefined], [IniDisk.unwritable_session],
    [LockFreeQueue.lockfree_clear_race],
    [DoubleBufferQueue.dbq_empty_clear_race], [ArgParser.delete_dangling],
    [ArgParser.parse_silent_errors], [SocketErrors.unreachable_branch_dead],
    [TcpSocket.receive_error_desyncs], [TcpSocket.partial_write_desyncs],
    [TcpConnection.listener_ends], [TcpConnection.callback_thread_leaks],
    [TcpConnection.accept_leaks], [TcpConnection.reconnect_keeps_buffer],
    [TcpClose.close_reads_other_file],
    [UdpSocket.udp_full_packet_error], [UdpSocket.udp_leftover_waits],
    [TcpApi.listening_has_no_peer], [UdpApi.udp_invalid_ip_broadcasts],
    [UdpApi.udp_lost_datagram_corrupts].

    ** Not modelled

    What the operating system does: the answers of its calls are arguments, and
    [inet_addr], [inet_ntoa] and the resolver are parameters. Weak memory: the
    atomics have their default order. [close] of a [UdpSocket] while its callback
    thread receives: whether [recvfrom] returns then is up to the system. The
    Windows version of the constructor, destructor and [close] of [UdpSocket],
    which differs from the Linux one by the initialization of the socket library
    and by the missing [shutdown]. The platform headers, which only have macros,
    and the tests. *)

From Stdlib Require Export ZArith Lia Bool.
From stdpp Require Export base numbers list option strings sets.

Local Open Scope Z_scope.

(** * Error codes: [include/clockUtils/errors.h] *)

(** [enum class ClockError], in the order of the source. *)
Inductive ClockError : Type :=
  | SUCCESS
  | NOT_READY
  | TIMEOUT
  | INVALID_ARGUMENT
  | INVALID_USAGE
  | IN_PROGRESS
  | WRONG_TYPE
  | WRONG_SYNTAX
  | FILENOTFOUND
  | OUT_OF_MEMORY
  | INVALID_IP
  | INVALID_PORT
  | ADDRESS_INUSE
  | CONNECTION_FAILED
  | NOT_CONNECTED
  | VALUE_NOTFOUND
  | NO_ELEMENT
  | NO_SPACE_AVAILABLE
  | UNKNOWN
  | ERROR_COUNT.

#[export] Instance ClockError_eq_dec : EqDecision ClockError.
Proof. solve_decision. Defined.

(** * Machine integers *)

(** Conversion to the unsigned types of 8, 16, 32 and 64 bits: reduction
    modulo [2 ^ w]. *)
Definition u8 (x : Z) : Z := x mod 2 ^ 8.
Definition u16 (x : Z) : Z := x mod 2 ^ 16.
Definition u32 (x : Z) : Z := x mod 2 ^ 32.
Definition u64 (x : Z) : Z := x mod 2 ^ 64.

(** A value that fits in a [uint8_t]; a [std::string] or a
    [std::vector<uint8_t>] of raw data is a list of such values. *)
Definition is_u8 (x : Z) : Prop := 0 <= x < 2 ^ 8.
Notation bytes := (list Z).

(** [std::string::length()], [std::vector::size()], as a [size_t]. *)
Notation size l := (Z.of_nat (length l)).

(** * Tactics *)

(** Turns the boolean comparisons of the code into propositions. *)
Ltac bool_to_prop :=
  repeat match goal with
  | H : _ && _ = true |- _ => apply andb_true_iff in H; destruct H
  | H : _ || _ = false |- _ => apply orb_false_iff in H; destruct H
  | H : negb _ = true |- _ => apply negb_true_iff in H
  | H : negb _ = false |- _ => apply negb_false_iff in H
  | H : (_ =? _) = true |- _ => apply Z.eqb_eq in H
  | H : (_ =? _) = false |- _ => apply Z.eqb_neq in H
  | H : (_ <? _) = true |- _ => apply Z.ltb_lt in H
  | H : (_ <? _) = false |- _ => apply Z.ltb_ge in H
  | H : (_ <=? _) = true |- _ => apply Z.leb_le in H
  | H : (_ <=? _) = false |- _ => apply Z.leb_gt in H
  | H : (_ >? _) = _ |- _ => rewrite Z.gtb_ltb in H
  | H : (_ >=? _) = _ |- _ => rewrite Z.geb_leb in H
  | H : (_ =? _)%nat = true |- _ => apply Nat.eqb_eq in H
  | H : (_ =? _)%nat = false |- _ => apply Nat.eqb_neq in H
  | H : (_ <? _)%nat = true |- _ => apply Nat.ltb_lt in H
  | H : (_ <? _)%nat = false |- _ => apply Nat.ltb_ge in H
  | H : (_ <=? _)%nat = true |- _ => apply Nat.leb_le in H
  | H : (_ <=? _)%nat = false |- _ => apply Nat.leb_gt in H
  end.

(** Case analysis on the next [if] of the goal, keeping the condition in
    propositional form. *)
Ltac case_if :=
  match goal with
  | |- context [if ?b then _ else _] =>
      let E := fresh "E" in destruct b eqn:E; bool_to_prop
  end.

Ltac case_if_in H :=
  match type of H with
  | context [if ?b then _ else _] =>
      let E := fresh "E" in destruct b eqn:E; bool_to_prop
  end.

(** * Arithmetic of the machine integers *)

Create HintDb clock.

Lemma u8_small x : is_u8 x → u8 x = x.
Proof. unfold is_u8, u8. intros. by apply Z.mod_small. Qed.

Lemma u32_small x : 0 <= x < 2 ^ 32 → u32 x = x.
Proof. unfold u32. intros. by apply Z.mod_small. Qed.

Lemma u64_small x : 0 <= x < 2 ^ 64 → u64 x = x.
Proof. unfold u64. intros. by apply Z.mod_small. Qed.

Lemma u8_range x : is_u8 (u8 x).
Proof. unfold is_u8, u8. apply Z.mod_pos_bound. lia. Qed.

Lemma u32_range x : 0 <= u32 x < 2 ^ 32.
Proof. unfold u32. apply Z.mod_pos_bound. lia. Qed.

Lemma u64_range x : 0 <= u64 x < 2 ^ 64.
Proof. unfold u64. apply Z.mod_pos_bound. lia. Qed.

#[export] Hint Resolve u8_range u32_range u64_range : clock.

(** * Lists *)

(** A list that is extended to itself is extended by nothing. *)
Lemma app_same {A} (l k : list A) : l = l ++ k → k = [].
Proof. rewrite <- (app_nil_r l) at 1. intros H%app_inv_head. by symmetry. Qed.

(** * Bits of a byte string *)

(** The bits of a byte, the most significant one first, and of a string. *)
Definition byte_bits (x : Z) : list bool :=
  Z.testbit x <$> [7; 6; 5; 4; 3; 2; 1; 0].

Definition bits_of (l : bytes) : list bool := mjoin (byte_bits <$> l).

Lemma length_byte_bits x : length (byte_bits x) = 8%nat.
Proof. done. Qed.

Lemma bits_of_cons x l : bits_of (x :: l) = byte_bits x ++ bits_of l.
Proof. done. Qed.

Lemma bits_of_app l k : bits_of (l ++ k) = bits_of l ++ bits_of k.
Proof. unfold bits_of. by rewrite fmap_app, join_app. Qed.

Lemma length_bits_of l : length (bits_of l) = (8 * length l)%nat.
Proof. induction l as [|x l IH]; [done|]. rewrite bits_of_cons, length_app, IH. simpl. lia. Qed.

Lemma byte_bits_0 : byte_bits 0 = replicate 8 false.
Proof. reflexivity. Qed.

Lemma bits_of_zeros n : bits_of (replicate n 0) = replicate (8 * n) false.
Proof.
  induction n as [|n IH]; [done|].
  replace (8 * S n)%nat with (8 + 8 * n)%nat by lia.
  rewrite replicate_add, <- IH. done.
Qed.

(** The bit at offset [k] of a byte is the bit [7 - k] of its value. *)
Lemma byte_bits_lookup x (k : nat) :
  (k < 8)%nat → byte_bits x !! k = Some (Z.testbit x (7 - Z.of_nat k)).
Proof. intros Hk. do 8 (destruct k as [|k]; [done|]). lia. Qed.

Lemma bits_of_lookup l (i k : nat) x :
  l !! i = Some x → (k < 8)%nat →
  bits_of l !! (8 * i + k)%nat = Some (Z.testbit x (7 - Z.of_nat k)).
Proof.
  revert i. induction l as [|y l IH]; intros i Hx Hk; [done|].
  rewrite bits_of_cons. destruct i as [|i]; simpl in Hx.
  - simplify_eq. rewrite lookup_app_l by (rewrite length_byte_bits; lia).
    rewrite Nat.mul_0_r. by apply byte_bits_lookup.
  - rewrite lookup_app_r by (rewrite length_byte_bits; lia).
    rewrite length_byte_bits, <- (IH i) by done. f_equal. lia.
Qed.

(** [x & (1 << i)] tests the bit [i]. *)
Lemma land_shiftl_1 x i : 0 <= i → (Z.land x (Z.shiftl 1 i) =? 0) = negb (Z.testbit x i).
Proof.
  intros Hi. destruct (Z.testbit x i) eqn:E; simpl.
  - apply Z.eqb_neq. intros H0.
    apply (f_equal (fun z => Z.testbit z i)) in H0.
    rewrite Z.land_spec, E, Z.shiftl_spec, Z.sub_diag, Z.bits_0 in H0 by lia. done.
  - apply Z.eqb_eq, Z.bits_inj'. intros n Hn.
    rewrite Z.land_spec, Z.shiftl_spec, Z.bits_0 by lia.
    destruct (decide (n = i)) as [->|Hne]; [by rewrite E|].
    destruct (Z.testbit 1 (n - i)) eqn:E1; [|by rewrite andb_false_r].
    destruct (decide (n < i)); [by rewrite Z.testbit_neg_r in E1 by lia|].
    by rewrite Z.bits_above_log2 in E1 by (simpl; lia).
Qed.

Lemma bits_of_drop l (n : nat) : bits_of (drop n l) = drop (8 * n) (bits_of l).
Proof.
  revert n. induction l as [|x l IH]; intros [|n]; try done.
  simpl drop at 1. rewrite IH, bits_of_cons, drop_app_ge by (rewrite length_byte_bits; lia).
  f_equal. rewrite length_byte_bits. lia.
Qed.

(** * Big-endian lengths *)

(** The four bytes of a 32-bit length, the most significant one first. *)
Definition be32 (n : Z) : bytes :=
  (λ i, u8 (Z.land (Z.shiftr n (8 * (4 - 1 - i))) 0xFF)) <$> [0; 1; 2; 3].

(** Reading them back with [len *= 0x100; len += byte], in 32-bit arithmetic. *)
Definition read_be32 (l : bytes) : Z := foldl (λ len b, u32 (u32 (len * 0x100) + b)) 0 l.

Lemma be32_div n : be32 n = [u8 (n / 2 ^ 24); u8 (n / 2 ^ 16); u8 (n / 2 ^ 8); u8 n].
Proof.
  assert (H : ∀ k, 0 <= k → u8 (Z.land (Z.shiftr n k) 0xFF) = u8 (n / 2 ^ k)).
  { intros k Hk. unfold u8. change 0xFF with (Z.ones 8).
    rewrite Z.land_ones, Z.shiftr_div_pow2, Zmod_mod by lia. done. }
  unfold be32. csimpl. rewrite !H by lia. simpl (_ * _). by rewrite Z.div_1_r.
Qed.

Lemma read_be32_be32 n : 0 <= n < 2 ^ 32 → read_be32 (be32 n) = n.
Proof.
  intros Hn. rewrite be32_div. unfold read_be32, u8, u32. simpl foldl.
  change (2 ^ 24) with (2 ^ 8 * 2 ^ 8 * 2 ^ 8). change (2 ^ 16) with (2 ^ 8 * 2 ^ 8).
  rewrite <- !Z.div_div by lia. change (2 ^ 32) with (256 * 256 * 256 * 256) in *.
  change (2 ^ 8) with 256. change 0x100 with 256.
  Z.to_euclidean_division_equations. lia.
Qed.

Lemma length_be32 n : length (be32 n) = 4%nat.
Proof. done. Qed.

Lemma be32_bytes n : Forall is_u8 (be32 n).
Proof. unfold be32. repeat constructor; apply u8_range. Qed.
