(* ===== verification/Transition.v ===== *)
(** Runs of transition systems: invariants, simulations and measures.

    The systems of threads are relations between states. What their single steps
    keep, simulate or decrease, whole runs keep, simulate or decrease. *)

From stdpp Require Import relations.
From S2P Require Import Prelude.

Section Transition.
Context {X : Type} (R : relation X) (I : X → Prop) (keeps : ∀ x y, R x y → I x → I y).

(** What holds in the beginning and is kept holds always. *)
Lemma rtc_invariant x y : I x → rtc R x y → I y.
Proof.
  intros Hx Hr. induction Hr as [|x1 x2 x3 Hstep _ IH]; [done|]. by apply IH, (keeps x1).
Qed.

(** If every step is a step of the specification or changes nothing of it, a run
    is a run of the specification. *)
Lemma rtc_simulates {A} (R' : relation A) (f : X → A) x y :
  (∀ x y, I x → R x y → f y = f x ∨ R' (f x) (f y)) → I x → rtc R x y → rtc R' (f x) (f y).
Proof.
  intros Hsim Hx Hr. induction Hr as [|x1 x2 x3 Hstep _ IH]; [done|].
  specialize (IH (keeps _ _ Hstep Hx)).
  destruct (Hsim _ _ Hx Hstep) as [E|E]; [by rewrite <- E|by eapply rtc_l].
Qed.

(** A run is not longer than a measure that every step decreases. *)
Lemma nsteps_bounded (m : X → nat) k x y :
  (∀ x y, I x → R x y → (m y < m x)%nat) → I x → nsteps R k x y → (k <= m x)%nat.
Proof.
  intros Hm Hx Hr. induction Hr as [|k x1 x2 x3 Hstep _ IH]; [lia|].
  specialize (IH (keeps _ _ Hstep Hx)). specialize (Hm _ _ Hx Hstep). lia.
Qed.
End Transition.
