(* ===== verification/PriorityQueue.v ===== *)
(** [std::priority_queue], as the compression library uses it.

    The C++ standard fixes which elements a priority queue holds and that
    [top()] is an element that no other one beats; it leaves open which of
    several equivalent elements is on top.  The queue is therefore an
    interface: [PriorityQueue] has the operations, [PriorityQueueSpec] the
    laws, and the theorems on the Huffman trees hold for every implementation.
    [ListQueue] is one implementation, used to evaluate the code on concrete
    inputs. *)

From S2P Require Import Prelude.
From Stdlib Require Import Permutation.

Local Open Scope nat_scope.

(** [cmp a b] is the third template argument: [a] is to be served after [b]. *)
Class PriorityQueue (A : Type) (cmp : A → A → bool) := {
  pq : Type;
  pq_empty : pq;
  pq_push : A → pq → pq;
  pq_top : pq → option A;
  pq_pop : pq → pq;
  pq_size : pq → nat
}.

Arguments pq {A} cmp {_}.
Arguments pq_empty {A cmp _}.

(** The laws: the elements are a multiset, [top()] is undefined on the empty
    queue and otherwise an element that [cmp] puts after no other one, [pop()]
    removes exactly that element. *)
Class PriorityQueueSpec {A : Type} {cmp : A → A → bool}
    (PQ : PriorityQueue A cmp) := {
  pq_elems : pq cmp → list A;
  pq_elems_empty : pq_elems pq_empty = [];
  pq_elems_push x q : pq_elems (pq_push x q) ≡ₚ x :: pq_elems q;
  pq_top_none q : pq_top q = None ↔ pq_elems q = [];
  pq_top_best q x y : pq_top q = Some x → y ∈ pq_elems q → cmp x y = false;
  pq_elems_pop q x : pq_top q = Some x → pq_elems q ≡ₚ x :: pq_elems (pq_pop q);
  pq_size_elems q : pq_size q = length (pq_elems q)
}.

Section Laws.
Context {A : Type} {cmp : A → A → bool}.
Context {PQ : PriorityQueue A cmp} {SPEC : PriorityQueueSpec PQ}.

Lemma pq_top_some (q : pq cmp) :
  0 < pq_size q → ∃ x, pq_top q = Some x.
Proof.
  rewrite pq_size_elems. intros Hsz.
  destruct (pq_top q) as [x|] eqn:E; [by exists x|].
  apply pq_top_none in E. rewrite E in Hsz. simpl in Hsz. lia.
Qed.

Lemma pq_size_push (x : A) (q : pq cmp) : pq_size (pq_push x q) = S (pq_size q).
Proof. by rewrite !pq_size_elems, pq_elems_push. Qed.

Lemma pq_size_pop (q : pq cmp) x :
  pq_top q = Some x → pq_size q = S (pq_size (pq_pop q)).
Proof.
  intros Ht. rewrite !pq_size_elems. by rewrite (pq_elems_pop q x Ht).
Qed.

Lemma pq_size_empty : pq_size (pq_empty : pq cmp) = 0.
Proof. by rewrite pq_size_elems, pq_elems_empty. Qed.
End Laws.

(** * An implementation: linear selection of the best element *)

(** What the standard asks of the comparison ([Compare] of [alg.sorting]):
    "is served no later than" is a total preorder. *)
Class StrictWeakOrder {A : Type} (cmp : A → A → bool) : Prop := {
  swo_irrefl x : cmp x x = false;
  swo_asym x y : cmp x y = true → cmp y x = false;
  swo_trans x y z : cmp x y = false → cmp y z = false → cmp x z = false
}.

Section ListQueue.
Context {A : Type} (cmp : A → A → bool).

(** The best element of [x :: l] and the others, in their order of arrival;
    the earlier of two equivalent elements wins. *)
Fixpoint select (x : A) (l : list A) : A * list A :=
  match l with
  | [] => (x, [])
  | y :: l' =>
      let '(b, r) := select y l' in
      if cmp x b then (b, x :: r) else (x, y :: l')
  end.

Definition list_top (l : list A) : option A :=
  match l with [] => None | x :: l' => Some (fst (select x l')) end.

Definition list_pop (l : list A) : list A :=
  match l with [] => [] | x :: l' => snd (select x l') end.

#[export] Instance ListQueue : PriorityQueue A cmp := {
  pq := list A;
  pq_empty := [];
  pq_push x l := l ++ [x];
  pq_top := list_top;
  pq_pop := list_pop;
  pq_size := length
}.

Lemma select_perm x l b r : select x l = (b, r) → x :: l ≡ₚ b :: r.
Proof.
  revert x b r. induction l as [|y l IH]; simpl; intros x b r E; [by simplify_eq|].
  destruct (select y l) as [b' r'] eqn:Es.
  destruct (cmp x b'); simplify_eq; [|done].
  rewrite (IH _ _ _ Es). apply Permutation_swap.
Qed.

Context {SWO : StrictWeakOrder cmp}.

Lemma select_best x l b r y : select x l = (b, r) → y ∈ x :: l → cmp b y = false.
Proof.
  revert x b r. induction l as [|z l IH]; simpl; intros x b r E Hy.
  { simplify_eq. apply list_elem_of_singleton in Hy as ->. apply swo_irrefl. }
  destruct (select z l) as [b' r'] eqn:Es.
  pose proof (IH _ _ _ Es) as Hb.
  destruct (cmp x b') eqn:Ec; simplify_eq.
  - apply elem_of_cons in Hy as [->|Hy]; [by apply swo_asym|auto].
  - apply elem_of_cons in Hy as [->|Hy]; [apply swo_irrefl|].
    eapply swo_trans; eauto.
Qed.

#[export] Program Instance ListQueueSpec : PriorityQueueSpec ListQueue := {
  pq_elems q := q
}.
Next Obligation. done. Qed.
Next Obligation. intros x q. simpl. by rewrite Permutation_app_comm. Qed.
Next Obligation. intros [|x l]; simpl; split; done. Qed.
Next Obligation.
  intros [|x l] b y E Hy; simplify_eq/=.
  destruct (select x l) as [b r] eqn:Es. eapply select_best; eauto.
Qed.
Next Obligation.
  intros [|x l] b E; simplify_eq/=.
  destruct (select x l) as [b r] eqn:Es. by apply select_perm.
Qed.
Next Obligation. done. Qed.
End ListQueue.
