(* ===== verification/HuffmanTree.v ===== *)
(** The Huffman trees of the compression library:
    [HuffmanBase::buildTree] of
    [libs/compression/src/algorithm/HuffmanBase.cpp].

    The tree has exactly one leaf per byte of nonzero frequency, and no tree
    over the same leaves has a smaller weighted path length, whatever the
    priority queue does with equal frequencies. *)

From S2P Require Import Prelude PriorityQueue.

Local Open Scope Z_scope.

(** * Model *)

(** [HuffmanBase::Node].  [left] and [right] are both null or both not null in
    every node the library builds; [c] is only meaningful in a leaf. *)
Inductive Node : Type :=
  | Leaf (value c : Z)
  | Inner (value : Z) (left right : Node).

Definition value (n : Node) : Z :=
  match n with Leaf v _ => v | Inner v _ _ => v end.

(** [struct compare] of [buildTree]. *)
Definition compare (a b : Node) : bool := value a >? value b.

#[export] Instance compare_swo : StrictWeakOrder compare.
Proof. split; unfold compare; intros *; lia. Qed.

(** The values of [i] in [for (size_t i = 0; i < 256; i++)]. *)
Definition byte_indices : list nat := seq 0 256.

Lemma length_byte_indices : (length byte_indices <= 256)%nat.
Proof. unfold byte_indices. by rewrite length_seq. Qed.

Lemma elem_of_byte_indices i : i ∈ byte_indices ↔ (i < 256)%nat.
Proof. unfold byte_indices. rewrite elem_of_seq. lia. Qed.

Section BuildTree.
Context {PQ : PriorityQueue Node compare}.

(** One iteration of the loop over the 256 bytes. *)
Definition push_leaf (header : bytes) (queue : pq compare) (i : nat) : pq compare :=
  if nth i header 0 =? 0 then queue
  else pq_push (Leaf (nth i header 0) (u8 (Z.of_nat i))) queue.

(** [while (queue.size() >= 2)].  Every iteration shrinks the queue by one
    element, so its initial size is enough fuel. *)
Fixpoint combine (fuel : nat) (queue : pq compare) : pq compare :=
  match fuel with
  | O => queue
  | S fuel' =>
      if (2 <=? pq_size queue)%nat then
        match pq_top queue, pq_top (pq_pop queue) with
        | Some l, Some r =>
            combine fuel'
              (pq_push (Inner (u32 (value l + value r)) l r)
                       (pq_pop (pq_pop queue)))
        | _, _ => queue
        end
      else queue
  end.

(** [buildTree]; [None] is the undefined behaviour of [top()] on an empty
    queue. *)
Definition buildTree (header : bytes) : option Node :=
  let queue := fold_left (push_leaf header) byte_indices pq_empty in
  pq_top (combine (pq_size queue) queue).
End BuildTree.

#[global] Opaque byte_indices.

(** * The leaves of a tree *)

Fixpoint leaves (t : Node) : list (Z * Z) :=
  match t with
  | Leaf v c => [(c, v)]
  | Inner _ l r => leaves l ++ leaves r
  end.

Definition forest_leaves (f : list Node) : list (Z * Z) := mjoin (leaves <$> f).

(** The weight of a tree: the sum of the frequencies of its leaves. *)
Fixpoint weight (t : Node) : Z :=
  match t with
  | Leaf v _ => v
  | Inner _ l r => weight l + weight r
  end.

Definition forest_weight (f : list Node) : Z := foldr Z.add 0 (weight <$> f).

(** The leaves the header asks for: a byte and its frequency, where nonzero. *)
Definition header_leaf (header : bytes) (i : nat) : list (Z * Z) :=
  if nth i header 0 =? 0 then [] else [(u8 (Z.of_nat i), nth i header 0)].

Definition header_leaves (header : bytes) : list (Z * Z) :=
  mjoin (header_leaf header <$> byte_indices).

(** There is at most one for each byte. *)
Lemma length_header_leaves header : (length (header_leaves header) <= 256)%nat.
Proof.
  unfold header_leaves. etransitivity; [|apply length_byte_indices].
  induction byte_indices as [|i l IH]; csimpl; [lia|].
  rewrite length_app. unfold header_leaf at 1. destruct (_ =? 0); simpl; lia.
Qed.

(** Every [value] field is the weight of its tree. *)
Definition weighted (t : Node) : Prop := value t = weight t.

#[export] Instance forest_leaves_perm : Proper ((≡ₚ) ==> (≡ₚ)) forest_leaves.
Proof. intros f g H. unfold forest_leaves. by rewrite H. Qed.

#[export] Instance forest_weight_perm : Proper ((≡ₚ) ==> (=)) forest_weight.
Proof.
  intros f g. unfold forest_weight. induction 1; csimpl in *; lia || congruence.
Qed.

Lemma forest_weight_cons t f : forest_weight (t :: f) = weight t + forest_weight f.
Proof. done. Qed.

Lemma forest_weight_nonneg f : Forall (λ t, 0 <= weight t) f → 0 <= forest_weight f.
Proof. induction 1; [done|]. rewrite forest_weight_cons. lia. Qed.

Lemma weight_pos t : Forall (λ cv, 0 < cv.2) (leaves t) → 0 < weight t.
Proof.
  induction t as [v c|v l IHl r IHr]; simpl; intros H.
  - by inversion H.
  - apply Forall_app in H as [H1 H2]. specialize (IHl H1). specialize (IHr H2). lia.
Qed.

(** The node the loop makes of two nodes. *)
Definition merged (l r : Node) : Node := Inner (u32 (value l + value r)) l r.

(** A forest whose [value] fields are the weights and whose total weight is
    representable in a [len_t]. *)
Definition forest_ok (f : list Node) : Prop :=
  Forall weighted f ∧ Forall (λ t, 0 <= weight t) f ∧ forest_weight f < 2 ^ 32.

#[export] Instance forest_ok_perm : Proper ((≡ₚ) ==> iff) forest_ok.
Proof. intros f g H. unfold forest_ok. by rewrite H. Qed.

Lemma forest_ok_merge l r f : forest_ok (l :: r :: f) → forest_ok (merged l r :: f).
Proof.
  intros (Hw & Hp & Hs). rewrite !forest_weight_cons in Hs.
  apply Forall_cons in Hw as [Hwl [Hwr Hw]%Forall_cons].
  apply Forall_cons in Hp as [Hpl [Hpr Hp]%Forall_cons].
  pose proof (forest_weight_nonneg _ Hp). unfold weighted in Hwl, Hwr.
  split_and!; [constructor; [|done]|constructor; [simpl; lia|done]|].
  - unfold weighted; simpl. rewrite u32_small; lia.
  - rewrite forest_weight_cons. simpl. lia.
Qed.

(** * The loop of [buildTree] *)

Section Combine.
Context {PQ : PriorityQueue Node compare} {SPEC : PriorityQueueSpec PQ}.
Implicit Types q : pq compare.

(** The two nodes the loop takes are lighter than all the others. *)
Lemma pop_two q :
  (2 <= pq_size q)%nat →
  ∃ l r, pq_top q = Some l ∧ pq_top (pq_pop q) = Some r ∧
         pq_elems q ≡ₚ l :: r :: pq_elems (pq_pop (pq_pop q)) ∧
         value l <= value r ∧
         Forall (λ n, value r <= value n) (pq_elems (pq_pop (pq_pop q))).
Proof.
  intros Hsz. destruct (pq_top_some q) as [l Hl]; [lia|].
  pose proof (pq_size_pop q l Hl) as Hs.
  destruct (pq_top_some (pq_pop q)) as [r Hr]; [lia|].
  pose proof (pq_elems_pop q l Hl) as P1. pose proof (pq_elems_pop _ r Hr) as P2.
  assert (Hbl : ∀ n, n ∈ pq_elems q → value l <= value n).
  { intros n Hn. pose proof (pq_top_best q l n Hl Hn) as Hb. unfold compare in Hb. lia. }
  exists l, r. split_and!; auto.
  - by rewrite P1, P2.
  - apply Hbl. rewrite P1, P2. set_solver.
  - apply Forall_forall. intros n Hn.
    assert (Hn' : n ∈ pq_elems (pq_pop q)) by (rewrite P2; set_solver).
    pose proof (pq_top_best _ r n Hr Hn') as Hb. unfold compare in Hb. lia.
Qed.

(** Induction on the run of the loop. *)
Lemma combine_ind (P : pq compare → pq compare → Prop) :
  (∀ q, (pq_size q < 2)%nat → P q q) →
  (∀ q q' l r rest,
     pq_elems q ≡ₚ l :: r :: rest →
     pq_elems (pq_push (merged l r) (pq_pop (pq_pop q))) ≡ₚ merged l r :: rest →
     value l <= value r → Forall (λ n, value r <= value n) rest →
     P (pq_push (merged l r) (pq_pop (pq_pop q))) q' → P q q') →
  ∀ fuel q, (pq_size q <= fuel)%nat → P q (combine fuel q).
Proof.
  intros Hbase Hstep. induction fuel as [|fuel IH]; intros q Hf.
  { apply Hbase. simpl. lia. }
  cbn [combine]. destruct (2 <=? pq_size q)%nat eqn:E; bool_to_prop; [|apply Hbase; lia].
  destruct (pop_two q E) as (l & r & Hl & Hr & Hp & Hlr & Hmin).
  rewrite Hl, Hr. eapply Hstep; eauto.
  - apply pq_elems_push.
  - apply IH. rewrite pq_size_push.
    pose proof (pq_size_pop _ _ Hl). pose proof (pq_size_pop _ _ Hr). lia.
Qed.

Lemma combine_leaves fuel q :
  (pq_size q <= fuel)%nat →
  forest_leaves (pq_elems (combine fuel q)) ≡ₚ forest_leaves (pq_elems q).
Proof.
  revert fuel q. apply (combine_ind (λ q q',
    forest_leaves (pq_elems q') ≡ₚ forest_leaves (pq_elems q))); [done|].
  intros q q' l r rest Hq Hp _ _ ->. rewrite Hp, Hq.
  unfold forest_leaves. simpl. by rewrite <- app_assoc.
Qed.

(** The loop ends with a single tree. *)
Lemma combine_size fuel q :
  (pq_size q <= fuel)%nat → (0 < pq_size q)%nat → pq_size (combine fuel q) = 1%nat.
Proof.
  revert fuel q.
  apply (combine_ind (λ q q', (0 < pq_size q)%nat → pq_size q' = 1%nat)); [intros; lia|].
  intros q q' l r rest _ _ _ _ IH _. apply IH. rewrite pq_size_push. lia.
Qed.

(** The [value] fields stay the weights, because the total fits. *)
Lemma combine_forest_ok fuel q :
  (pq_size q <= fuel)%nat → forest_ok (pq_elems q) → forest_ok (pq_elems (combine fuel q)).
Proof.
  revert fuel q.
  apply (combine_ind (λ q q', forest_ok (pq_elems q) → forest_ok (pq_elems q'))); [done|].
  intros q q' l r rest Hq Hp _ _ IH Hok. apply IH. rewrite Hp.
  apply forest_ok_merge. by rewrite <- Hq.
Qed.
End Combine.

(** * Optimality *)

(** The depths of the leaves, left to right. *)
Fixpoint depths (t : Node) : list Z :=
  match t with
  | Leaf _ _ => [0]
  | Inner _ l r => (Z.succ <$> depths l) ++ (Z.succ <$> depths r)
  end.

(** The weighted path length: the sum over the leaves of depth times
    frequency, that is, the length in bits of a text with these frequencies. *)
Fixpoint cost (t : Node) : Z :=
  match t with
  | Leaf _ _ => 0
  | Inner _ l r => cost l + cost r + weight l + weight r
  end.

(** [plan_cost] of a list of (depth, weight) pairs. *)
Definition plan_cost (P : list (Z * Z)) : Z := foldr Z.add 0 ((λ p, p.1 * p.2) <$> P).

Lemma plan_cost_cons d w P : plan_cost ((d, w) :: P) = d * w + plan_cost P.
Proof. done. Qed.

Lemma plan_cost_app P Q : plan_cost (P ++ Q) = plan_cost P + plan_cost Q.
Proof.
  induction P as [|[d w] P IH]; [done|]. csimpl. rewrite !plan_cost_cons, IH. lia.
Qed.

#[export] Instance plan_cost_perm : Proper ((≡ₚ) ==> (=)) plan_cost.
Proof. intros f g. unfold plan_cost. induction 1; csimpl in *; lia || congruence. Qed.

Definition plan (t : Node) : list (Z * Z) := zip (depths t) (leaves t).*2.

Lemma length_depths t : length (depths t) = length (leaves t).
Proof.
  induction t as [|v l IHl r IHr]; [done|]. simpl. by rewrite !length_app, !length_fmap, IHl, IHr.
Qed.

Lemma plan_cost_succ ds ws :
  length ds = length ws →
  plan_cost (zip (Z.succ <$> ds) ws) = plan_cost (zip ds ws) + foldr Z.add 0 ws.
Proof.
  revert ws. induction ds as [|d ds IH]; intros [|w ws] H; simplify_eq/=; [done|].
  rewrite !plan_cost_cons. unfold fmap in IH. rewrite IH by done. lia.
Qed.

Lemma weight_leaves t : weight t = foldr Z.add 0 (leaves t).*2.
Proof.
  assert (Happ : ∀ l k, foldr Z.add 0 (l ++ k) = foldr Z.add 0 l + foldr Z.add 0 k).
  { intros l k. induction l as [|x l IH]; simpl; lia. }
  induction t as [|v l IHl r IHr]; csimpl; [lia|]. rewrite fmap_app, Happ. lia.
Qed.

Lemma cost_plan t : cost t = plan_cost (plan t).
Proof.
  unfold plan. induction t as [|v l IHl r IHr]; [done|]. csimpl.
  rewrite fmap_app, zip_with_app by (by rewrite !length_fmap, length_depths).
  rewrite plan_cost_app, !plan_cost_succ by (by rewrite !length_fmap, length_depths).
  rewrite <- !weight_leaves. lia.
Qed.

Lemma depths_nonneg t : Forall (λ d, 0 <= d) (depths t).
Proof.
  induction t as [|v l IHl r IHr]; simpl; [by repeat constructor|].
  apply Forall_app; split; apply Forall_fmap; eapply Forall_impl; eauto; simpl; lia.
Qed.

Lemma Forall_succ_le D E (l : list Z) :
  Forall (λ d, d <= D) l → D < E → Forall (λ d, d <= E) (Z.succ <$> l).
Proof. intros H HDE. apply Forall_fmap. eapply Forall_impl; eauto. simpl. lia. Qed.

(** Two siblings of [t] are leaves of maximal depth [d + 1]; with their parent
    replaced by a leaf, the depths are the others and [d]. *)
Definition shrinks (t : Node) (d : Z) : Prop :=
  0 <= d ∧ Forall (λ e, e <= d + 1) (depths t) ∧
  ∃ t' R, depths t ≡ₚ (d + 1) :: (d + 1) :: R ∧ depths t' ≡ₚ d :: R.

Lemma shrinks_left v l r d :
  shrinks l d → Forall (λ e, e <= d + 1) (depths r) → shrinks (Inner v l r) (d + 1).
Proof.
  intros (Hd & Hm & l' & R & P1 & P2) Hr. split_and!; [lia| |].
  - simpl. apply Forall_app; split; eapply Forall_succ_le; eauto; lia.
  - exists (Inner v l' r), ((Z.succ <$> R) ++ (Z.succ <$> depths r)).
    simpl. by rewrite P1, P2.
Qed.

Lemma shrinks_right v l r d :
  shrinks r d → Forall (λ e, e <= d + 1) (depths l) → shrinks (Inner v l r) (d + 1).
Proof.
  intros Hr Hl. destruct (shrinks_left v r l d Hr Hl) as (Hd & Hm & t' & R & P1 & P2).
  assert (Hsw : depths (Inner v l r) ≡ₚ depths (Inner v r l)) by apply Permutation_app_comm.
  split_and!; [done|by rewrite Hsw|]. exists t', R. by rewrite Hsw.
Qed.

Lemma leaf_or_shrinks t : (∃ v c, t = Leaf v c) ∨ ∃ d, shrinks t d.
Proof.
  induction t as [v c|v l IHl r IHr]; [eauto|right].
  assert (H0 : ∀ d, 0 <= d → Forall (λ e, e <= d + 1) [0]) by (repeat constructor; lia).
  destruct IHl as [(w & c & ->)|(dl & Hl)], IHr as [(w' & c' & ->)|(dr & Hr)].
  - exists 0. split_and!; [done|repeat constructor; lia|]. by exists (Leaf w c), [].
  - exists (dr + 1). apply shrinks_right; [done|]. apply H0, Hr.
  - exists (dl + 1). apply shrinks_left; [done|]. apply H0, Hl.
  - pose proof Hl as (_ & Hml & _). pose proof Hr as (_ & Hmr & _).
    destruct (decide (dr <= dl)).
    + exists (dl + 1). apply shrinks_left; [done|].
      eapply Forall_impl; [exact Hmr|]. simpl. lia.
    + exists (dr + 1). apply shrinks_right; [done|].
      eapply Forall_impl; [exact Hml|]. simpl. lia.
Qed.

(** Exchange: among weights [a <= x], giving the smaller one the greater depth
    [D] costs no more. *)
Lemma exchange (Q : list (Z * Z)) D x a W :
  Forall (λ e, 0 <= e <= D) Q.*1 → x :: Q.*2 ≡ₚ a :: W → a <= x →
  ∃ Q', Q'.*1 ≡ₚ Q.*1 ∧ Q'.*2 ≡ₚ W ∧ plan_cost Q' + D * a <= plan_cost Q + D * x.
Proof.
  intros HD HP Hax. destruct (decide (x = a)) as [->|Hne].
  { exists Q. split_and!; [done|by apply Permutation_cons_inv in HP|lia]. }
  assert (Hin : a ∈ Q.*2) by (assert (a ∈ x :: Q.*2) by (rewrite HP; set_solver); set_solver).
  apply list_elem_of_fmap in Hin as ([e a'] & Ha & Hin). simpl in Ha. subst a'.
  apply elem_of_Permutation in Hin as [Q0 HQ].
  rewrite HQ in HD, HP. csimpl in *. apply Forall_cons in HD as [He _].
  exists ((e, x) :: Q0). csimpl. split_and!.
  - by rewrite HQ.
  - apply (Permutation_cons_inv (a := a)). by rewrite <- HP, Permutation_swap.
  - rewrite HQ, !plan_cost_cons. nia.
Qed.

(** Merging the two lightest weights of a plan: some tree over the merged
    weights is cheaper by at least the merged weight. *)
Lemma merge_plan (P : list (Z * Z)) t a b W :
  P.*1 ≡ₚ depths t → P.*2 ≡ₚ a :: b :: W → a <= b → Forall (λ w, b <= w) W →
  ∃ P' t', P'.*1 ≡ₚ depths t' ∧ P'.*2 ≡ₚ (a + b) :: W ∧
           plan_cost P' + (a + b) <= plan_cost P.
Proof.
  intros HP1 HP2 Hab HW.
  destruct (leaf_or_shrinks t) as [(v & c & ->)|(d & Hd & Hm & t' & R & Ht & Ht')].
  { apply Permutation_length in HP1, HP2. rewrite !length_fmap in *. simpl in *. lia. }
  pose proof (depths_nonneg t) as Hnn. rewrite <- HP1 in Hm, Hnn. rewrite Ht in HP1.
  assert (Hpick : ∀ (Q : list (Z * Z)) k K, Q.*1 ≡ₚ k :: K →
            ∃ x Q', Q ≡ₚ (k, x) :: Q' ∧ Q'.*1 ≡ₚ K).
  { intros Q k K HQ. assert (Hk : k ∈ Q.*1) by (rewrite HQ; set_solver).
    apply list_elem_of_fmap in Hk as ([k' x] & -> & Hin). simpl in *.
    apply elem_of_Permutation in Hin as [Q' HQ']. exists x, Q'. split; [done|].
    rewrite HQ' in HQ. csimpl in HQ. by apply Permutation_cons_inv in HQ. }
  assert (Hsmall : Forall (λ w, a <= w) (a :: b :: W)).
  { repeat (constructor; [lia|]). eapply Forall_impl; eauto. simpl. lia. }
  destruct (Hpick P _ _ HP1) as (x & Q & HQ & HQ1).
  rewrite HQ in HP2, Hm, Hnn. csimpl in *.
  apply Forall_cons in Hm as [_ Hm]. apply Forall_cons in Hnn as [_ Hnn].
  rewrite <- HP2 in Hsmall. apply Forall_cons in Hsmall as [Hax _].
  destruct (exchange Q (d + 1) x a (b :: W)) as (Q1 & E1 & E2 & E3); [|done..|].
  { apply Forall_and. split; done. }
  rewrite <- E1 in HQ1, Hm, Hnn. destruct (Hpick Q1 _ _ HQ1) as (y & Q2 & HQ2 & HQ21).
  rewrite HQ2 in E2, Hm, Hnn. csimpl in *.
  apply Forall_cons in Hm as [_ Hm]. apply Forall_cons in Hnn as [_ Hnn].
  assert (Hby : b <= y).
  { assert (Hy : y ∈ b :: W) by (rewrite <- E2; set_solver).
    apply elem_of_cons in Hy as [->|Hy]; [done|]. by eapply Forall_forall in HW. }
  destruct (exchange Q2 (d + 1) y b W) as (Q3 & F1 & F2 & F3); [|done..|].
  { apply Forall_and. split; done. }
  exists ((d, a + b) :: Q3), t'. csimpl. split_and!.
  - by rewrite Ht', F1, HQ21.
  - by rewrite F2.
  - rewrite HQ, plan_cost_cons. rewrite HQ2, plan_cost_cons in E3. rewrite plan_cost_cons. lia.
Qed.

Definition forest_cost (f : list Node) : Z := foldr Z.add 0 (cost <$> f).

Lemma forest_cost_cons t f : forest_cost (t :: f) = cost t + forest_cost f.
Proof. done. Qed.

#[export] Instance forest_cost_perm : Proper ((≡ₚ) ==> (=)) forest_cost.
Proof. intros f g. unfold forest_cost. induction 1; csimpl in *; lia || congruence. Qed.

Lemma plan_cost_nonneg P :
  Forall (λ d, 0 <= d) P.*1 → Forall (λ w, 0 <= w) P.*2 → 0 <= plan_cost P.
Proof.
  induction P as [|[d w] P IH]; csimpl; intros H1 H2; [done|].
  apply Forall_cons in H1 as [??]. apply Forall_cons in H2 as [??].
  rewrite plan_cost_cons. specialize (IH ltac:(done) ltac:(done)). nia.
Qed.

Section Optimal.
Context {PQ : PriorityQueue Node compare} {SPEC : PriorityQueueSpec PQ}.

(** The loop spends at most what any tree over the same weights costs. *)
Lemma combine_cost fuel (q : pq compare) :
  (pq_size q <= fuel)%nat → forest_ok (pq_elems q) →
  ∀ P t, P.*1 ≡ₚ depths t → P.*2 ≡ₚ weight <$> pq_elems q →
  forest_cost (pq_elems (combine fuel q)) <= forest_cost (pq_elems q) + plan_cost P.
Proof.
  revert fuel q. apply (combine_ind (λ q q', forest_ok (pq_elems q) →
    ∀ P t, P.*1 ≡ₚ depths t → P.*2 ≡ₚ weight <$> pq_elems q →
    forest_cost (pq_elems q') <= forest_cost (pq_elems q) + plan_cost P)).
  { intros q _ (_ & Hp & _) P t H1 H2.
    enough (0 <= plan_cost P) by lia. apply plan_cost_nonneg.
    - rewrite H1. apply depths_nonneg.
    - rewrite H2. by apply Forall_fmap. }
  intros q q' l r rest Hq Hp Hlr Hmin IH Hok P t H1 H2.
  rewrite Hq in Hok, H2. pose proof Hok as (Hw & _ & _).
  apply Forall_cons in Hw as [Hwl [Hwr Hw]%Forall_cons].
  destruct (merge_plan P t (weight l) (weight r) (weight <$> rest))
    as (P' & t' & E1 & E2 & E3); [done|done|unfold weighted in *; lia| |].
  { apply Forall_fmap, Forall_forall. intros n Hn.
    eapply Forall_forall in Hmin, Hw; eauto. simpl. unfold weighted in *. lia. }
  assert (Hok' := forest_ok_merge _ _ _ Hok).
  rewrite <- Hp in Hok'. specialize (IH Hok' P' t' E1). rewrite Hp in IH.
  specialize (IH E2). rewrite Hq, !forest_cost_cons in *. simpl in IH. lia.
Qed.
End Optimal.

(** * [buildTree] *)

Section BuildTreeSpec.
Context {PQ : PriorityQueue Node compare} {SPEC : PriorityQueueSpec PQ}.
Implicit Types header : bytes.

(** The nodes the first loop pushes. *)
Definition leaf_nodes header (idx : list nat) : list Node :=
  (λ cv : Z * Z, Leaf cv.2 cv.1) <$> mjoin (header_leaf header <$> idx).

Lemma push_leaves_elems header idx (q : pq compare) :
  pq_elems (fold_left (push_leaf header) idx q) ≡ₚ leaf_nodes header idx ++ pq_elems q.
Proof.
  revert q. induction idx as [|i idx IH]; intros q; [done|]. simpl. rewrite IH.
  unfold leaf_nodes, push_leaf. csimpl. rewrite fmap_app. unfold header_leaf at 2.
  destruct (nth i header 0 =? 0); [done|]. rewrite pq_elems_push. csimpl.
  by rewrite Permutation_middle.
Qed.

Lemma leaf_nodes_leaves header idx :
  forest_leaves (leaf_nodes header idx) = mjoin (header_leaf header <$> idx).
Proof.
  unfold leaf_nodes, forest_leaves.
  induction (mjoin (header_leaf header <$> idx)) as [|[c v] l IH]; [done|]. csimpl. by f_equal.
Qed.

Lemma header_leaves_bounds header idx :
  Forall is_u8 header →
  Forall (λ cv, 0 < cv.2 < 256) (mjoin (header_leaf header <$> idx)) ∧
  (length (mjoin (header_leaf header <$> idx)) <= length idx)%nat.
Proof.
  intros Hh. induction idx as [|i idx [IH1 IH2]]; [done|]. csimpl. rewrite length_app.
  assert (Hi : is_u8 (nth i header 0)).
  { destruct (nth_in_or_default i header 0) as [Hin| ->]; [|by unfold is_u8].
    eapply Forall_forall; [done|]. by apply list_elem_of_In. }
  unfold is_u8 in Hi. unfold header_leaf at 1 3.
  destruct (nth i header 0 =? 0) eqn:E; bool_to_prop; simpl; [split; [done|lia]|].
  split; [|lia]. constructor; [simpl; lia|done].
Qed.

Lemma leaf_nodes_ok header idx :
  Forall is_u8 header → (length idx <= 256)%nat → forest_ok (leaf_nodes header idx).
Proof.
  intros Hh Hlen. destruct (header_leaves_bounds header idx Hh) as [Hb Hl].
  unfold leaf_nodes.
  assert (Hsum : ∀ L : list (Z * Z), Forall (λ cv, 0 < cv.2 < 256) L →
    0 <= forest_weight ((λ cv : Z * Z, Leaf cv.2 cv.1) <$> L) <= 256 * Z.of_nat (length L)).
  { induction 1; csimpl; [done|]. rewrite forest_weight_cons. simpl weight. lia. }
  specialize (Hsum _ Hb). split_and!.
  - apply Forall_fmap, Forall_true. done.
  - apply Forall_fmap. eapply Forall_impl; [exact Hb|]. simpl. lia.
  - lia.
Qed.

Lemma leaf_nodes_weights header idx :
  weight <$> leaf_nodes header idx = (forest_leaves (leaf_nodes header idx)).*2 ∧
  forest_cost (leaf_nodes header idx) = 0.
Proof.
  rewrite leaf_nodes_leaves. unfold leaf_nodes.
  induction (mjoin (header_leaf header <$> idx)) as [|[c v] L [IH1 IH2]]; [done|].
  csimpl. rewrite forest_cost_cons, IH2. split; [by f_equal|done].
Qed.

Lemma buildTree_empty header : header_leaves header = [] → buildTree header = None.
Proof.
  intros H. unfold buildTree.
  set (q := fold_left (push_leaf header) byte_indices pq_empty).
  assert (Hq : pq_elems q = []).
  { apply Permutation_nil_r. unfold q. rewrite push_leaves_elems, pq_elems_empty.
    unfold leaf_nodes. fold (header_leaves header). by rewrite H. }
  rewrite pq_size_elems, Hq. simpl. by apply pq_top_none.
Qed.

(** What [buildTree] returns, from the nodes of its first loop. *)
Lemma buildTree_unfold header :
  header_leaves header ≠ [] →
  ∃ t q, buildTree header = Some t ∧
         pq_elems q ≡ₚ leaf_nodes header byte_indices ∧
         pq_elems (combine (pq_size q) q) = [t].
Proof.
  intros Hne. unfold buildTree.
  set (q := fold_left (push_leaf header) byte_indices pq_empty).
  assert (Hq : pq_elems q ≡ₚ leaf_nodes header byte_indices).
  { unfold q. rewrite push_leaves_elems, pq_elems_empty. by rewrite app_nil_r. }
  assert (Hs : pq_size (combine (pq_size q) q) = 1%nat).
  { apply combine_size; [done|]. rewrite pq_size_elems, Hq. unfold leaf_nodes.
    rewrite length_fmap. fold (header_leaves header).
    destruct (header_leaves header); simpl; [done|lia]. }
  destruct (pq_top_some (combine (pq_size q) q)) as [t Ht]; [lia|].
  exists t, q. split_and!; [done..|].
  pose proof (pq_elems_pop _ _ Ht) as Hp.
  rewrite pq_size_elems in Hs. destruct (pq_elems (combine (pq_size q) q)) as [|u [|]];
    simpl in Hs; try lia.
  pose proof (Permutation_length Hp) as Hlen. simpl in Hlen.
  destruct (pq_elems (pq_pop _)); simpl in Hlen; [|lia].
  f_equal. by apply Permutation_singleton_inj in Hp.
Qed.

Lemma buildTree_some header :
  header_leaves header ≠ [] →
  ∃ t, buildTree header = Some t ∧ leaves t ≡ₚ header_leaves header.
Proof.
  intros Hne. destruct (buildTree_unfold header Hne) as (t & q & Ht & Hq & Hc).
  exists t. split; [done|].
  pose proof (combine_leaves (pq_size q) q (Nat.le_refl _)) as Hl.
  rewrite Hc, Hq, leaf_nodes_leaves in Hl. unfold forest_leaves in Hl. csimpl in Hl.
  by rewrite app_nil_r in Hl.
Qed.

(** [buildTree] returns a tree exactly when some frequency of the header
    is nonzero (otherwise it calls [top()] on an empty queue), and then the
    leaves are the bytes of nonzero frequency, each once and with its
    frequency. *)
Theorem buildTree_leaves header :
  match buildTree header with
  | Some t => leaves t ≡ₚ header_leaves header
  | None => header_leaves header = []
  end.
Proof.
  destruct (decide (header_leaves header = [])) as [Hnil|Hne].
  - by rewrite (buildTree_empty header Hnil).
  - by destruct (buildTree_some header Hne) as (t & -> & Ht).
Qed.

(** C14: the tree of [buildTree] is optimal: no tree with the same leaves has
    a smaller weighted path length, however the priority queue orders equal
    frequencies. *)
Theorem buildTree_optimal header t :
  Forall is_u8 header → buildTree header = Some t →
  ∀ u, leaves u ≡ₚ leaves t → cost t <= cost u.
Proof.
  intros Hh Ht u Hu.
  destruct (decide (header_leaves header = [])) as [Hnil|Hne].
  { apply buildTree_empty in Hnil. congruence. }
  destruct (buildTree_unfold header Hne) as (t' & q & Ht' & Hq & Hc). simplify_eq.
  assert (Hok : forest_ok (pq_elems q)).
  { rewrite Hq. by apply leaf_nodes_ok, length_byte_indices. }
  pose proof (combine_leaves (pq_size q) q (Nat.le_refl _)) as Hl.
  rewrite Hc in Hl. unfold forest_leaves at 1 in Hl. csimpl in Hl. rewrite app_nil_r in Hl.
  pose proof (combine_cost (pq_size q) q (Nat.le_refl _) Hok (plan u) u) as Hopt.
  rewrite Hc, <- cost_plan in Hopt. unfold plan in Hopt.
  rewrite fst_zip, snd_zip in Hopt by (rewrite length_fmap, length_depths; lia).
  destruct (leaf_nodes_weights header byte_indices) as [Hlw H0].
  rewrite <- Hq in H0. rewrite H0, forest_cost_cons in Hopt.
  unfold forest_cost in Hopt. simpl in Hopt.
  assert (Hperm : (leaves u).*2 ≡ₚ weight <$> pq_elems q) by (by rewrite Hu, Hl, Hq, Hlw).
  specialize (Hopt ltac:(done) Hperm). lia.
Qed.

End BuildTreeSpec.

(** * The bytes of a header *)

Lemma header_leaves_elem header c :
  c ∈ (header_leaves header).*1 ↔
  ∃ i : nat, (i < 256)%nat ∧ c = Z.of_nat i ∧ nth i header 0 ≠ 0.
Proof.
  unfold header_leaves. rewrite list_elem_of_fmap. setoid_rewrite list_elem_of_join.
  split.
  - intros ([c' v] & -> & l & Hl & (i & -> & Hi)%list_elem_of_fmap).
    apply elem_of_byte_indices in Hi. exists i. unfold header_leaf in Hl.
    destruct (nth i header 0 =? 0) eqn:E; bool_to_prop; [by apply not_elem_of_nil in Hl|].
    apply list_elem_of_singleton in Hl. simplify_eq/=.
    rewrite u8_small by (unfold is_u8; lia). split_and!; [lia|done|done].
  - intros (i & Hi & -> & Hne). exists (Z.of_nat i, nth i header 0). split; [done|].
    exists (header_leaf header i). split.
    + unfold header_leaf. rewrite (proj2 (Z.eqb_neq _ _) Hne).
      rewrite u8_small by (unfold is_u8; lia). by apply list_elem_of_singleton.
    + by apply list_elem_of_fmap_2, elem_of_byte_indices.
Qed.

(** * Evaluation *)

Lemma buildTree_optimal_witness :
  buildTree (PQ := ListQueue compare) [5; 2; 1]
    = Some (Inner 8 (Inner 3 (Leaf 1 2) (Leaf 2 1)) (Leaf 5 0)) ∧
  cost (Inner 8 (Inner 3 (Leaf 1 2) (Leaf 2 1)) (Leaf 5 0))
    <= cost (Inner 8 (Inner 7 (Leaf 5 0) (Leaf 2 1)) (Leaf 1 2)).
Proof.
  split; [vm_compute; reflexivity|].
  apply (buildTree_optimal (PQ := ListQueue compare) [5; 2; 1]).
  - unfold is_u8. repeat constructor; lia.
  - vm_compute. reflexivity.
  - simpl. solve_Permutation.
Defined.
