(* ===== verification/HuffmanBase.v ===== *)
(** [HuffmanBase::generateMapping] and [HuffmanBase::getChar] of
    [libs/compression/src/algorithm/HuffmanBase.cpp], and the bit writer that
    [HuffmanFixed::convert] and [HuffmanGeneric::convert] share.

    The decoder inverts the encoder: [getChar] on the bits of a text, written
    with the mapping of the same tree, gives back the text. *)

From S2P Require Import Prelude PriorityQueue HuffmanTree.

Local Open Scope Z_scope.

(** * Model *)

(** [std::vector<std::vector<bool>> mapping] of 256 bit sequences. *)
Notation mapping := (list (list bool)).

(** [generateMapping]: [true] is the way to the left child. *)
Fixpoint generateMapping (node : Node) (bitSeq : list bool) (m : mapping) : mapping :=
  match node with
  | Leaf _ c => <[Z.to_nat c := bitSeq]> m
  | Inner _ l r =>
      let m := generateMapping l (bitSeq ++ [true]) m in
      generateMapping r (bitSeq ++ [false]) m
  end.

(** The local variables of [getChar] that say where it reads. *)
Record cursor : Type := Cursor {
  bitIndex : Z;
  byteIndex : Z;
  currentChar : Z;
  endReached : bool
}.

Definition start (compressed : bytes) : cursor :=
  {| bitIndex := 0; byteIndex := 0; currentChar := nth 0 compressed 0; endReached := false |}.

(** [bitIndex++] and what follows it in the inner loop. *)
Definition advance (compressed : bytes) (p : cursor) : cursor :=
  let b := u8 (bitIndex p + 1) in
  if b =? 8 then
    let i := u32 (byteIndex p + 1) in
    if size compressed <=? i then
      {| bitIndex := 0; byteIndex := i; currentChar := currentChar p; endReached := true |}
    else
      {| bitIndex := 0; byteIndex := i; currentChar := nth (Z.to_nat i) compressed 0;
         endReached := endReached p |}
  else
    {| bitIndex := b; byteIndex := byteIndex p; currentChar := currentChar p;
       endReached := endReached p |}.

(** [currentChar & (1 << (7 - bitIndex))] *)
Definition current_bit (p : cursor) : bool :=
  negb (Z.land (currentChar p) (Z.shiftl 1 (7 - bitIndex p)) =? 0).

(** The inner loop, which walks down the tree; [None] is the early
    [return ClockError::INVALID_ARGUMENT]. *)
Fixpoint walk (compressed : bytes) (node : Node) (p : cursor) : option (Z * cursor) :=
  match node with
  | Leaf _ c => Some (c, p)
  | Inner _ l r =>
      if endReached p then None
      else if current_bit p then walk compressed l (advance compressed p)
      else walk compressed r (advance compressed p)
  end.

(** The outer loop, for [i] from [i] on with [n] characters to go. *)
Fixpoint getChar_loop (compressed : bytes) (root : Node) (n i : nat) (p : cursor)
    (result : bytes) : ClockError * bytes :=
  match n with
  | O =>
      (if byteIndex p =? u64 (size compressed - 1) then SUCCESS else INVALID_ARGUMENT, result)
  | S n' =>
      match walk compressed root p with
      | None => (INVALID_ARGUMENT, result)
      | Some (c, p') => getChar_loop compressed root n' (S i) p' (<[i := c]> result)
      end
  end.

Definition getChar (compressed : bytes) (root : Node) (len : Z) (result : bytes)
    : ClockError * bytes :=
  getChar_loop compressed root (Z.to_nat len) 0 (start compressed) result.

(** [result += char(0)] until the string has [n] bytes:
    [while ((index + len) / 8 + 1 > result.size())].  [n] steps are enough. *)
Fixpoint grow (fuel n : nat) (result : bytes) : bytes :=
  match fuel with
  | O => result
  | S fuel' => if (length result <? n)%nat then grow fuel' n (result ++ [0]) else result
  end.

(** [result[pos / 8] |= bit ? (1 << (7 - pos % 8)) : 0] *)
Definition set_bit (result : bytes) (pos : nat) (b : bool) : bytes :=
  alter (λ x, u8 (Z.lor x (if b then Z.shiftl 1 (7 - Z.of_nat (pos mod 8)) else 0)))
        (pos / 8)%nat result.

(** [for (size_t i = 0; i < len; i++)], writing [bs] from [index] on. *)
Fixpoint put_bits (bs : list bool) (index : nat) (result : bytes) : bytes :=
  match bs with
  | [] => result
  | b :: bs' => put_bits bs' (S index) (set_bit result index b)
  end.

(** The body of [convert]: one iteration per byte of the text. *)
Fixpoint convert_loop (m : mapping) (text : bytes) (index : nat) (result : bytes) : bytes :=
  match text with
  | [] => result
  | c :: text' =>
      let code := nth (Z.to_nat c) m [] in
      let n := ((index + length code) / 8 + 1)%nat in
      let result := grow n n result in
      convert_loop m text' (index + length code)%nat (put_bits code index result)
  end.

(** * The bit writer *)

Lemma grow_zeros fuel n result :
  (n - length result <= fuel)%nat →
  grow fuel n result = result ++ replicate (n - length result) 0.
Proof.
  revert result. induction fuel as [|fuel IH]; intros result Hf; cbn [grow].
  - replace (n - length result)%nat with 0%nat by lia. by rewrite app_nil_r.
  - destruct (length result <? n)%nat eqn:E; bool_to_prop.
    + rewrite IH by (rewrite length_app; simpl; lia). rewrite length_app, <- app_assoc.
      f_equal. simpl. replace (n - length result)%nat with (S (n - (length result + 1))) by lia.
      done.
    + replace (n - length result)%nat with 0%nat by lia. by rewrite app_nil_r.
Qed.

Lemma length_set_bit result pos b : length (set_bit result pos b) = length result.
Proof. apply length_alter. Qed.

Lemma testbit_set x (b : bool) (i j : Z) :
  0 <= i < 8 → 0 <= j < 8 →
  Z.testbit (u8 (Z.lor x (if b then Z.shiftl 1 i else 0))) j =
  if decide (i = j) then b || Z.testbit x j else Z.testbit x j.
Proof.
  intros Hi Hj. unfold u8. rewrite Z.mod_pow2_bits_low, Z.lor_spec by lia.
  assert (H1 : Z.testbit (if b then Z.shiftl 1 i else 0) j = if decide (i = j) then b else false).
  { destruct b; [|rewrite Z.bits_0; by case_decide].
    rewrite Z.shiftl_spec by lia. case_decide as Hd.
    - subst. by rewrite Z.sub_diag.
    - destruct (decide (j < i)); [by apply Z.testbit_neg_r; lia|].
      apply Z.bits_above_log2; simpl; lia. }
  rewrite H1. case_decide; [apply orb_comm|by rewrite orb_false_r].
Qed.

(** A position that holds [false] is overwritten, nothing else changes. *)
Lemma bits_of_set_bit result pos b :
  (pos < 8 * length result)%nat → bits_of result !! pos = Some false →
  bits_of (set_bit result pos b) = <[pos := b]> (bits_of result).
Proof.
  intros Hpos H0. apply list_eq_same_length with (n := (8 * length result)%nat).
  { by rewrite length_insert, length_bits_of. }
  { by rewrite length_bits_of, length_set_bit. }
  intros j x y Hj Hx Hy.
  pose proof (Nat.div_mod_eq j 8) as Hdj. pose proof (Nat.mod_upper_bound j 8 ltac:(lia)).
  pose proof (Nat.div_mod_eq pos 8) as Hdp. pose proof (Nat.mod_upper_bound pos 8 ltac:(lia)).
  destruct (lookup_lt_is_Some_2 result (j / 8)%nat) as [z Hz]; [lia|].
  assert (Hold : bits_of result !! j = Some (Z.testbit z (7 - Z.of_nat (j mod 8)))).
  { rewrite Hdj at 1. by apply bits_of_lookup. }
  assert (Hnew : set_bit result pos b !! (j / 8)%nat = Some (
      if decide (pos / 8 = j / 8)%nat
      then u8 (Z.lor z (if b then Z.shiftl 1 (7 - Z.of_nat (pos mod 8)) else 0)) else z)).
  { unfold set_bit. rewrite list_lookup_alter. case_decide as Hd; rewrite ?Hd; by rewrite Hz. }
  rewrite Hdj, (bits_of_lookup _ _ _ _ Hnew) in Hx by lia.
  rewrite list_lookup_insert in Hy. rewrite length_bits_of in Hy.
  destruct (decide (pos = j)) as [->|Hne].
  - rewrite decide_True in Hx by lia. rewrite decide_True in Hy by lia. rewrite testbit_set in Hx by lia.
    rewrite decide_True in Hx by lia. rewrite Hold in H0. simplify_eq.
    rewrite H0. by rewrite orb_false_r.
  - rewrite decide_False in Hy by lia. rewrite Hold in Hy.
    case_decide; [|by simplify_eq]. rewrite testbit_set in Hx by lia.
    rewrite decide_False in Hx by lia. by simplify_eq.
Qed.

Lemma length_put_bits bs index result : length (put_bits bs index result) = length result.
Proof.
  revert index result. induction bs as [|b bs IH]; intros; [done|].
  simpl. by rewrite IH, length_set_bit.
Qed.

Lemma bits_of_put_bits bs A k result :
  bits_of result = A ++ replicate k false → (length bs <= k)%nat →
  bits_of (put_bits bs (length A) result) = A ++ bs ++ replicate (k - length bs) false.
Proof.
  revert A k result. induction bs as [|b bs IH]; intros A k result HA Hk; simpl in *.
  { by rewrite Nat.sub_0_r. }
  destruct k as [|k]; [lia|].
  assert (Hlen : (8 * length result = length A + S k)%nat).
  { by rewrite <- length_bits_of, HA, length_app, length_replicate. }
  assert (Hs : bits_of (set_bit result (length A) b) = (A ++ [b]) ++ replicate k false).
  { rewrite bits_of_set_bit, HA; [|lia|].
    - rewrite insert_app_r_alt, Nat.sub_diag by lia. by rewrite <- app_assoc.
    - by rewrite HA, lookup_app_r, Nat.sub_diag by lia. }
  replace (S (length A)) with (length (A ++ [b])) by (rewrite length_app; simpl; lia).
  rewrite (IH _ k _ Hs) by lia. by rewrite <- app_assoc.
Qed.

(** * [convert] *)

(** The bits of a text under a mapping. *)
Definition code_of (m : mapping) (c : Z) : list bool := nth (Z.to_nat c) m [].
Definition encode (m : mapping) (text : bytes) : list bool := mjoin (code_of m <$> text).

Lemma encode_cons m c text : encode m (c :: text) = code_of m c ++ encode m text.
Proof. done. Qed.

(** [convert] appends the code of every byte, padded with zero bits. *)
Lemma bits_of_convert_loop m text A k result :
  bits_of result = A ++ replicate k false →
  ∃ k', bits_of (convert_loop m text (length A) result)
        = A ++ encode m text ++ replicate k' false.
Proof.
  revert A k result. induction text as [|c text IH]; intros A k result HA.
  { by exists k. }
  cbn [convert_loop]. fold (code_of m c).
  set (n := ((length A + length (code_of m c)) / 8 + 1)%nat).
  rewrite grow_zeros by lia.
  set (result1 := result ++ replicate (n - length result) 0).
  assert (H1 : bits_of result1 =
    A ++ replicate (k + 8 * (n - length result)) false).
  { unfold result1. by rewrite bits_of_app, bits_of_zeros, HA, <- app_assoc, <- replicate_add. }
  assert (Hlen : (8 * length result1 = length A + (k + 8 * (n - length result)))%nat).
  { by rewrite <- length_bits_of, H1, length_app, length_replicate. }
  assert (Hn : (length A + length (code_of m c) < 8 * n)%nat).
  { unfold n. pose proof (Nat.div_mod_eq (length A + length (code_of m c)) 8).
    pose proof (Nat.mod_upper_bound (length A + length (code_of m c)) 8). lia. }
  assert (Hl1 : (n <= length result1)%nat).
  { unfold result1. rewrite length_app, length_replicate. lia. }
  assert (H2 := bits_of_put_bits (code_of m c) A _ _ H1 ltac:(lia)).
  rewrite app_assoc in H2. destruct (IH _ _ _ H2) as [k' Hk']. exists k'.
  rewrite length_app in Hk'. by rewrite Hk', encode_cons, <- !app_assoc.
Qed.

(** After the last byte the string has room for one more bit than it uses. *)
Lemma length_convert_loop m text index result :
  text ≠ [] → (length result <= (index + length (encode m text)) / 8 + 1)%nat →
  length (convert_loop m text index result)
  = ((index + length (encode m text)) / 8 + 1)%nat.
Proof.
  revert index result. induction text as [|c text IH]; intros index result Hne Hr; [done|].
  cbn [convert_loop]. fold (code_of m c).
  rewrite grow_zeros by lia. set (n := ((index + length (code_of m c)) / 8 + 1)%nat).
  assert (Hlen : length (encode m (c :: text)) = (length (code_of m c) + length (encode m text))%nat).
  { by rewrite encode_cons, length_app. }
  rewrite Hlen, Nat.add_assoc in *.
  assert (Hmono : (n <= (index + length (code_of m c) + length (encode m text)) / 8 + 1)%nat).
  { unfold n. apply Nat.add_le_mono_r, Nat.Div0.div_le_mono. lia. }
  destruct text as [|c' text].
  - simpl convert_loop. rewrite length_put_bits, length_app, length_replicate.
    unfold encode in *. csimpl in *. rewrite !Nat.add_0_r in *. fold n in Hr |- *. lia.
  - apply IH; [done|]. rewrite length_put_bits, length_app, length_replicate. lia.
Qed.

(** * Codes are paths of the tree *)

Inductive path : Node → list bool → Z → Prop :=
  | path_leaf v c : path (Leaf v c) [] c
  | path_left v l r bs c : path l bs c → path (Inner v l r) (true :: bs) c
  | path_right v l r bs c : path r bs c → path (Inner v l r) (false :: bs) c.
#[export] Hint Constructors path : clock.

Lemma length_generateMapping t bs m : length (generateMapping t bs m) = length m.
Proof.
  revert bs m. induction t as [|v l IHl r IHr]; intros; simpl; [apply length_insert|].
  by rewrite IHr, IHl.
Qed.

Lemma generateMapping_other t bs m (i : nat) :
  i ∉ Z.to_nat <$> (leaves t).*1 → generateMapping t bs m !! i = m !! i.
Proof.
  revert bs m. induction t as [v c|v l IHl r IHr]; intros bs m Hi; simpl.
  - apply list_lookup_insert_ne. csimpl in *. set_solver.
  - csimpl in Hi. rewrite !fmap_app in Hi. rewrite IHr, IHl; set_solver.
Qed.

(** Every leaf is mapped to a path that leads to it. *)
Lemma generateMapping_path t bs m (i : nat) :
  length m = 256%nat → Forall (λ c, 0 <= c < 256) (leaves t).*1 →
  i ∈ Z.to_nat <$> (leaves t).*1 →
  ∃ p, generateMapping t bs m !! i = Some (bs ++ p) ∧ path t p (Z.of_nat i).
Proof.
  revert bs m. induction t as [v c|v l IHl r IHr]; intros bs m Hm Hb Hi; csimpl in *.
  - apply Forall_cons in Hb as [Hc _]. apply list_elem_of_singleton in Hi as ->.
    exists []. rewrite list_lookup_insert_eq, app_nil_r by lia. split; [done|].
    rewrite Z2Nat.id by lia. constructor.
  - rewrite !fmap_app in *. apply Forall_app in Hb as [Hbl Hbr].
    destruct (decide (i ∈ Z.to_nat <$> (leaves r).*1)) as [Hr|Hr].
    + destruct (IHr (bs ++ [false]) (generateMapping l (bs ++ [true]) m)) as (p & E & Hp); auto.
      { by rewrite length_generateMapping. }
      exists (false :: p). rewrite E, <- app_assoc. split; [done|by constructor].
    + rewrite generateMapping_other by done.
      destruct (IHl (bs ++ [true]) m) as (p & E & Hp); [done..|set_solver|].
      exists (true :: p). rewrite E, <- app_assoc. split; [done|by constructor].
Qed.

(** * The cursor of [getChar] *)

Section Decode.
Context (compressed : bytes) (Hsize : size compressed < 2 ^ 32).

(** [p] stands at the bit [pos] of the stream; the end flag is set exactly
    when the last byte is used up. *)
Definition at_bit (p : cursor) (pos : nat) : Prop :=
  bitIndex p = Z.of_nat (pos mod 8) ∧ byteIndex p = Z.of_nat (pos / 8) ∧
  (pos <= 8 * length compressed)%nat ∧
  endReached p = bool_decide (pos = 8 * length compressed)%nat ∧
  ((pos < 8 * length compressed)%nat → currentChar p = nth (pos / 8) compressed 0).

Lemma at_bit_start : compressed ≠ [] → at_bit (start compressed) 0.
Proof.
  intros Hne. destruct compressed as [|x l] eqn:E; [done|].
  unfold at_bit. split_and!; [done|done|lia| |by rewrite E]. rewrite E.
  symmetry. apply bool_decide_eq_false_2. simpl. lia.
Qed.

Lemma at_bit_advance p pos :
  at_bit p pos → (pos < 8 * length compressed)%nat → at_bit (advance compressed p) (S pos).
Proof.
  intros (Hb & Hi & _ & He & Hc) Hlt. unfold at_bit, advance. rewrite Hb, Hi, He.
  pose proof (Nat.div_mod_eq pos 8) as Hd. pose proof (Nat.mod_upper_bound pos 8 ltac:(lia)).
  pose proof (Nat.div_mod_eq (S pos) 8) as Hd'.
  pose proof (Nat.mod_upper_bound (S pos) 8 ltac:(lia)).
  rewrite u8_small by (unfold is_u8; lia).
  destruct (Z.of_nat (pos mod 8) + 1 =? 8) eqn:E8; bool_to_prop.
  - rewrite u32_small by lia.
    destruct (size compressed <=? Z.of_nat (pos / 8) + 1) eqn:E; bool_to_prop;
      cbn [bitIndex byteIndex currentChar endReached];
      (split_and!; [lia|lia|lia|case_bool_decide; try case_bool_decide; lia || done|intros]).
    + lia.
    + f_equal. lia.
  - cbn [bitIndex byteIndex currentChar endReached].
    split_and!; [lia|lia|lia|case_bool_decide; case_bool_decide; lia || done|].
    intros. rewrite Hc by lia. f_equal. lia.
Qed.

Lemma at_bit_current p pos b :
  at_bit p pos → bits_of compressed !! pos = Some b → current_bit p = b ∧ endReached p = false.
Proof.
  intros (Hb & Hi & _ & He & Hc) Hbit.
  assert (Hlt : (pos < 8 * length compressed)%nat).
  { rewrite <- length_bits_of. by eapply lookup_lt_Some. }
  pose proof (Nat.div_mod_eq pos 8) as Hd. pose proof (Nat.mod_upper_bound pos 8 ltac:(lia)).
  destruct (lookup_lt_is_Some_2 compressed (pos / 8)%nat) as [z Hz]; [lia|].
  rewrite Hd, (bits_of_lookup _ _ _ _ Hz) in Hbit by lia. simplify_eq.
  unfold current_bit. rewrite Hb, Hc, land_shiftl_1 by lia.
  rewrite negb_involutive. split; [|rewrite He; by apply bool_decide_eq_false_2; lia].
  by rewrite (nth_lookup_Some _ _ _ _ Hz).
Qed.

(** Walking down the tree along a code reads exactly that code. *)
Lemma walk_path t bs c p pos rest :
  path t bs c → at_bit p pos → drop pos (bits_of compressed) = bs ++ rest →
  ∃ p', walk compressed t p = Some (c, p') ∧ at_bit p' (pos + length bs) ∧
        drop (pos + length bs) (bits_of compressed) = rest.
Proof.
  intros Hpath. revert p pos.
  induction Hpath as [v c|v l r bs c Hp IH|v l r bs c Hp IH]; intros p pos Hat Hdrop; simpl.
  { exists p. rewrite Nat.add_0_r. done. }
  all: assert (Hbit := f_equal (.!! 0%nat) Hdrop); rewrite lookup_drop, Nat.add_0_r in Hbit;
    simpl in Hbit; destruct (at_bit_current p pos _ Hat Hbit) as [-> ->];
    assert (Hlt : (pos < 8 * length compressed)%nat)
      by (rewrite <- length_bits_of; by eapply lookup_lt_Some);
    replace (pos + S (length bs))%nat with (S pos + length bs)%nat by lia;
    apply IH; [by apply at_bit_advance|];
    change (S pos) with (1 + pos)%nat; rewrite (Nat.add_comm 1), <- drop_drop, Hdrop; done.
Qed.

(** Decoding a text: every byte is read back, in order. *)
Lemma getChar_loop_text t m text i p pos rest result :
  Forall (λ c, path t (code_of m c) c) text →
  at_bit p pos → drop pos (bits_of compressed) = encode m text ++ rest →
  (i + length text <= length result)%nat →
  ((pos + length (encode m text)) / 8 = length compressed - 1)%nat →
  compressed ≠ [] →
  getChar_loop compressed t (length text) i p result
  = (SUCCESS, take i result ++ text ++ drop (i + length text) result).
Proof.
  intros Hpath. revert i p pos result.
  induction Hpath as [|c text Hc _ IH]; intros i p pos result Hat Hdrop Hi Hend Hne.
  { replace (pos + length (encode m []))%nat with pos in Hend by (simpl; lia).
    destruct Hat as (_ & Hbyte & _). cbn [length getChar_loop]. rewrite Hbyte, Hend.
    assert (length compressed ≠ 0%nat) by (by destruct compressed).
    rewrite u64_small, (proj2 (Z.eqb_eq _ _)) by lia.
    by rewrite Nat.add_0_r, app_nil_l, take_drop. }
  cbn [length getChar_loop]. rewrite encode_cons in Hdrop, Hend.
  rewrite <- app_assoc in Hdrop. rewrite length_app in Hend.
  destruct (walk_path t _ c p pos _ Hc Hat Hdrop) as (p' & -> & Hat' & Hdrop').
  simpl in Hi. rewrite (IH _ _ _ _ Hat' Hdrop'); [|rewrite length_insert; lia| |done].
  - f_equal. rewrite (take_S_r _ _ c) by (by apply list_lookup_insert_eq; lia).
    rewrite take_insert_ge, drop_insert_lt by lia.
    rewrite <- app_assoc. simpl. do 3 f_equal. f_equal. lia.
  - rewrite <- Hend. f_equal. lia.
Qed.
End Decode.

(** * The decoder inverts the encoder *)

Lemma take_put_bits bs index result h :
  (8 * h <= index)%nat → take h (put_bits bs index result) = take h result.
Proof.
  revert index result. induction bs as [|b bs IH]; intros index result Hh; [done|].
  simpl. rewrite IH by lia. unfold set_bit. apply take_alter_ge.
  pose proof (Nat.div_mod_eq index 8). pose proof (Nat.mod_upper_bound index 8). lia.
Qed.

(** The bytes before [index] are kept. *)
Lemma take_convert_loop m text index result h :
  (8 * h <= index)%nat → (h <= length result)%nat →
  take h (convert_loop m text index result) = take h result.
Proof.
  revert index result. induction text as [|c text IH]; intros index result Hh Hr; [done|].
  cbn [convert_loop]. rewrite IH; [|lia|].
  - rewrite take_put_bits, grow_zeros by lia. by rewrite take_app_le by lia.
  - rewrite length_put_bits, grow_zeros, length_app by lia. lia.
Qed.

(** An empty [mappings] vector, [std::vector<std::vector<bool>>(256)]. *)
Definition no_mappings : mapping := replicate 256 [].

(** The mapping of a tree over bytes sends each byte of the tree to a path. *)
Lemma code_of_path t c :
  Forall (λ c, 0 <= c < 256) (leaves t).*1 → c ∈ (leaves t).*1 →
  path t (code_of (generateMapping t [] no_mappings) c) c.
Proof.
  intros Hb Hc.
  destruct (generateMapping_path t [] no_mappings (Z.to_nat c)) as (p & Hp & Hpath).
  { apply length_replicate. }
  { done. }
  { by apply list_elem_of_fmap_2. }
  unfold code_of. rewrite (nth_lookup_Some _ _ _ _ Hp). simpl.
  eapply Forall_forall in Hb; [|done]. by rewrite Z2Nat.id in Hpath by lia.
Qed.

(** A code is shorter than the number of leaves. *)
Lemma leaves_pos t : (0 < length (leaves t))%nat.
Proof. induction t; simpl; rewrite ?length_app; lia. Qed.

Lemma path_length t bs c : path t bs c → (length bs < length (leaves t))%nat.
Proof.
  induction 1 as [|v l r bs c _ IH|v l r bs c _ IH]; simpl; rewrite ?length_app; [lia|..].
  - pose proof (leaves_pos r). lia.
  - pose proof (leaves_pos l). lia.
Qed.

Lemma length_encode t text :
  Forall (λ c, 0 <= c < 256) (leaves t).*1 → Forall (λ c, c ∈ (leaves t).*1) text →
  (length (leaves t) <= 256)%nat →
  (length (encode (generateMapping t [] no_mappings) text) <= 255 * length text)%nat.
Proof.
  intros Hb Ht Hl. induction Ht as [|c text Hc _ IH]; [done|].
  rewrite encode_cons, length_app. pose proof (path_length _ _ _ (code_of_path t c Hb Hc)).
  simpl length. lia.
Qed.

(** The length of what [convert] makes of a text behind a header: the whole bytes
    that the codes need, and one byte more. *)
Lemma convert_size t text (header : bytes) :
  Forall (λ c, 0 <= c < 256) (leaves t).*1 → Forall (λ c, c ∈ (leaves t).*1) text →
  (length (leaves t) <= 256)%nat → text ≠ [] →
  let m := generateMapping t [] no_mappings in
  let c := convert_loop m text (8 * length header) header in
  size c = size header + 1 + size (encode m text) / 8 ∧
  size c <= size header + 1 + 255 * size text / 8.
Proof.
  intros Hb Ht Hl Hne m c. pose proof (length_encode t text Hb Ht Hl) as He. fold m in He.
  assert (Hc : length c = (length header + length (encode m text) / 8 + 1)%nat).
  { unfold c. rewrite length_convert_loop; [|done|]; rewrite Nat.mul_comm, Nat.div_add_l by lia; lia. }
  assert (Hd : size (encode m text) / 8 <= 255 * size text / 8) by (apply Z.div_le_mono; lia).
  rewrite Hc, !Nat2Z.inj_add, Nat2Z.inj_div.
  change (Z.of_nat 8) with 8. lia.
Qed.

Lemma getChar_convert t text header :
  Forall (λ c, 0 <= c < 256) (leaves t).*1 → Forall (λ c, c ∈ (leaves t).*1) text →
  text ≠ [] →
  let m := generateMapping t [] no_mappings in
  let realText := drop (length header) (convert_loop m text (8 * length header) header) in
  size realText < 2 ^ 32 →
  getChar realText t (size text) (replicate (length text) 0) = (SUCCESS, text).
Proof.
  intros Hb Ht Hne m realText Hsz.
  destruct (bits_of_convert_loop m text (bits_of header) 0 header) as [k Hk].
  { by rewrite app_nil_r. }
  rewrite length_bits_of in Hk.
  assert (Hbits : bits_of realText = encode m text ++ replicate k false).
  { unfold realText. by rewrite bits_of_drop, Hk, <- length_bits_of, drop_app_length. }
  assert (Hlen : length realText = (length (encode m text) / 8 + 1)%nat).
  { unfold realText. rewrite length_drop, length_convert_loop; [|done|].
    - rewrite Nat.mul_comm, Nat.div_add_l by lia. lia.
    - rewrite Nat.mul_comm, Nat.div_add_l by lia. lia. }
  unfold getChar. rewrite Nat2Z.id.
  assert (Hne' : realText ≠ []) by (by intros E; rewrite E in Hlen; simpl in Hlen; lia).
  rewrite (getChar_loop_text realText Hsz t m text 0 _ 0 (replicate k false)); auto.
  - by rewrite drop_replicate, Nat.sub_diag, app_nil_r.
  - eapply Forall_impl; [exact Ht|]. intros c Hc. by apply code_of_path.
  - by apply at_bit_start.
  - rewrite length_replicate. lia.
  - rewrite Nat.add_0_l. lia.
Qed.
