(* ===== verification/HuffmanFixed.v ===== *)
(** [HuffmanFixed]: Huffman compression with a fixed dictionary,
    [libs/compression/src/algorithm/HuffmanFixed.cpp].

    The static members [root] and [mappings] are the state: [root] is built
    once, [mappings] is a cache that the first call of [convert] fills.
    [decompress] inverts [compress] for every nonempty string whose compressed
    form has fewer than [2 ^ 32] bytes. *)

From S2P Require Import Prelude PriorityQueue HuffmanTree HuffmanBase.

Local Open Scope Z_scope.

(** * Model *)

Definition preVec : bytes :=
  [1; 1; 1; 1; 1; 1; 1; 1; 1; 1;
    7; 1; 1; 1; 1; 1; 1; 1; 1; 1;
    1; 1; 1; 1; 1; 1; 1; 1; 1; 1;
    1; 1; 255; 1; 1; 1; 1; 1; 1; 3;
    4; 4; 1; 1; 10; 2; 10; 1; 1; 1;
    1; 1; 1; 1; 1; 1; 1; 1; 1; 1;
    1; 1; 1; 1; 1; 2; 1; 1; 1; 1;
    1; 1; 2; 1; 1; 1; 1; 1; 1; 1;
    1; 1; 1; 1; 3; 1; 1; 1; 1; 1;
    1; 1; 1; 1; 1; 1; 1; 74; 24; 30;
    40; 179; 24; 23; 67; 95; 1; 3; 50; 33;
    94; 88; 20; 8; 66; 69; 111; 33; 7; 21;
    2; 21; 2; 1; 1; 1; 1; 1; 1; 1;
    1; 1; 1; 1; 1; 1; 1; 1; 1; 1;
    1; 1; 1; 1; 1; 1; 1; 1; 1; 1;
    1; 1; 1; 1; 1; 1; 1; 1; 1; 1;
    1; 1; 1; 1; 1; 1; 1; 1; 1; 1;
    1; 1; 1; 1; 1; 1; 1; 1; 1; 1;
    1; 1; 1; 1; 1; 1; 1; 1; 1; 1;
    1; 1; 1; 1; 1; 1; 1; 1; 1; 1;
    1; 1; 1; 1; 1; 1; 1; 1; 1; 1;
    1; 1; 1; 1; 1; 1; 1; 1; 1; 1;
    1; 1; 1; 1; 1; 1; 1; 1; 1; 1;
    1; 1; 1; 1; 1; 1; 1; 1; 1; 1;
    1; 1; 1; 1; 1; 1; 1; 1; 1; 1;
    1; 1; 1; 1; 1; 1].

Section HuffmanFixed.
Context {PQ : PriorityQueue Node compare}.
(** Whether [std::string(n, 0x0)] succeeds or throws [std::bad_alloc]. *)
Context (alloc : Z → bool).

(** [HuffmanFixed::root = buildTree(preVec)] *)
Definition root : option Node := buildTree preVec.

(** [convert]: fills the cache if its first entry is empty, then writes the
    codes.  The result is the new value of [mappings] and the string. *)
Definition convert (mappings : mapping) (t : Node) (text : bytes) (index : nat)
    (result : bytes) : mapping * bytes :=
  let mappings :=
    if (length (nth 0 mappings []) =? 0)%nat then generateMapping t [] mappings
    else mappings in
  (mappings, convert_loop mappings text index result).

(** [compress]; the arguments are the cache, the text and the old value of
    the output string. *)
Definition compress (mappings : mapping) (uncompressed compressed : bytes)
    : option (mapping * ClockError * bytes) :=
  match root with
  | None => None
  | Some t =>
      if size uncompressed >? 2 ^ 32 - 1 then
        Some (mappings, INVALID_ARGUMENT, compressed)
      else if negb (alloc 4) then Some (mappings, OUT_OF_MEMORY, compressed)
      else
        let len := u32 (size uncompressed) in
        let '(mappings, compressed) := convert mappings t uncompressed (4 * 8) (be32 len) in
        Some (mappings, SUCCESS, compressed)
  end.

Definition decompress (compressed decompressed : bytes) : option (ClockError * bytes) :=
  match root with
  | None => None
  | Some t =>
      if size compressed <? 4 then Some (INVALID_ARGUMENT, decompressed)
      else
        let realText := drop 4 compressed in
        let len := read_be32 (take 4 compressed) in
        if negb (alloc len) then Some (OUT_OF_MEMORY, decompressed)
        else Some (getChar realText t len (replicate (Z.to_nat len) 0))
  end.
End HuffmanFixed.

(** * Every byte has a code *)

Lemma preVec_leaves :
  (header_leaves preVec).*1 = Z.of_nat <$> seq 0 256.
Proof. vm_compute. reflexivity. Qed.

Lemma byte_in_preVec c : is_u8 c → c ∈ (header_leaves preVec).*1.
Proof.
  intros Hc. unfold is_u8 in Hc. rewrite preVec_leaves. apply list_elem_of_fmap.
  exists (Z.to_nat c). split; [lia|]. apply elem_of_seq. lia.
Qed.

Section Roundtrip.
Context {PQ : PriorityQueue Node compare} {SPEC : PriorityQueueSpec PQ}.
Context (alloc : Z → bool).

(** The static [root] exists, is not a leaf and has all bytes as leaves. *)
Lemma root_tree :
  ∃ v l r, root = Some (Inner v l r) ∧ (leaves (Inner v l r)).*1 ≡ₚ (header_leaves preVec).*1.
Proof.
  destruct (buildTree_some preVec) as (t & Ht & Hl).
  { intros H. pose proof preVec_leaves as Hp. by rewrite H in Hp. }
  destruct t as [v c|v l r]; [|exists v, l, r; split; [done|by rewrite Hl]].
  apply (fmap_Permutation fst), Permutation_length in Hl.
  by rewrite preVec_leaves in Hl.
Qed.

(** The values the cache [mappings] can have: its initial value, or the
    mapping of the tree. *)
Definition cache_ok (m : mapping) : Prop :=
  m = no_mappings ∨ ∃ t, root = Some t ∧ m = generateMapping t [] no_mappings.

Lemma convert_cache v l r m text index result :
  root = Some (Inner v l r) →
  (leaves (Inner v l r)).*1 ≡ₚ (header_leaves preVec).*1 →
  cache_ok m →
  convert m (Inner v l r) text index result =
  (generateMapping (Inner v l r) [] no_mappings,
   convert_loop (generateMapping (Inner v l r) [] no_mappings) text index result).
Proof.
  intros Hroot Hl [->|(t & Ht & ->)]; [done|]. rewrite Hroot in Ht. simplify_eq.
  unfold convert.
  destruct (_ =? 0)%nat eqn:E; [|done]. bool_to_prop. exfalso.
  assert (Hp : path (Inner v l r)
    (code_of (generateMapping (Inner v l r) [] no_mappings) 0) 0).
  { apply code_of_path; rewrite Hl.
    - apply Forall_forall. intros c. rewrite preVec_leaves.
      intros (n & -> & Hn%elem_of_seq)%list_elem_of_fmap. lia.
    - apply byte_in_preVec. by unfold is_u8. }
  unfold code_of in Hp. change (Z.to_nat 0) with 0%nat in Hp.
  apply length_zero_iff_nil in E. rewrite E in Hp. inversion Hp.
Qed.

Lemma root_bytes t :
  (leaves t).*1 ≡ₚ (header_leaves preVec).*1 → Forall (λ c, 0 <= c < 256) (leaves t).*1.
Proof.
  intros Hl. rewrite Hl, preVec_leaves. apply Forall_fmap, Forall_forall.
  intros n Hn%elem_of_seq. simpl. lia.
Qed.

Lemma fixed_inverse m text old :
  cache_ok m →
  Forall is_u8 text → text ≠ [] → size text < 2 ^ 32 →
  alloc 4 = true → alloc (size text) = true →
  ∃ m' c, compress alloc m text old = Some (m', SUCCESS, c) ∧ cache_ok m' ∧
          size c <= 5 + 255 * size text / 8 ∧
          (size c - 4 < 2 ^ 32 → ∀ old', decompress alloc c old' = Some (SUCCESS, text)).
Proof.
  intros Hm Hb Hne Hsz Ha4 Han. destruct root_tree as (v & l & r & Ht & Hl).
  unfold compress. rewrite Ht.
  replace (size text >? 2 ^ 32 - 1) with false by lia. rewrite Ha4. simpl negb.
  rewrite u32_small by lia. rewrite convert_cache by done. eexists _, _.
  assert (Htext : Forall (λ x, x ∈ (leaves (Inner v l r)).*1) text).
  { eapply Forall_impl; [exact Hb|]. intros x Hx. rewrite Hl. by apply byte_in_preVec. }
  split; [done|]. split; [by right; eauto|]. split.
  { apply (convert_size (Inner v l r) text (be32 (size text))); [by apply root_bytes|done| |done].
    apply Permutation_length in Hl. rewrite !length_fmap in Hl. rewrite Hl. apply length_header_leaves. }
  intros Hc old'.
  set (c := convert_loop _ _ _ _) in *.
  assert (Hc4 : take 4 c = be32 (size text)).
  { unfold c. rewrite take_convert_loop by (rewrite ?length_be32; lia). done. }
  assert (Hcl : (4 <= length c)%nat).
  { apply (f_equal length) in Hc4. rewrite length_take, length_be32 in Hc4. lia. }
  unfold decompress. rewrite Ht. replace (size c <? 4) with false by lia.
  rewrite Hc4, read_be32_be32, Han by lia. simpl negb. rewrite Nat2Z.id. f_equal.
  apply (getChar_convert _ text (be32 (size text))); [by apply root_bytes|done..|].
  change (size (drop 4 c) < 2 ^ 32). rewrite length_drop. lia.
Qed.

(** C21: [HuffmanFixed::decompress] inverts [HuffmanFixed::compress]: a
    nonempty string of at most [2 ^ 32 - 1] bytes is compressed successfully,
    and decompressing the result, as long as its payload has fewer than
    [2 ^ 32] bytes, succeeds and gives the string back, whatever calls filled
    the cache before. No character needs more than 255 bits, so that this is the
    case for every string below 128 MiB. *)
Theorem fixed_roundtrip m text old :
  cache_ok m →
  Forall is_u8 text → text ≠ [] → size text < 2 ^ 32 →
  alloc 4 = true → alloc (size text) = true →
  ∃ m' c, compress alloc m text old = Some (m', SUCCESS, c) ∧ cache_ok m' ∧
          size c <= 5 + 255 * size text / 8 ∧
          (size c - 4 < 2 ^ 32 → ∀ old', decompress alloc c old' = Some (SUCCESS, text)).
Proof. apply fixed_inverse. Qed.

(** The empty string does not survive: [compress] accepts it, but
    [decompress] rejects the four bytes it produced. *)
Theorem fixed_empty m old :
  alloc 4 = true → alloc 0 = true →
  ∃ m' c, compress alloc m [] old = Some (m', SUCCESS, c) ∧
          ∀ old', decompress alloc c old' = Some (INVALID_ARGUMENT, []).
Proof.
  intros Ha4 Ha0. destruct root_tree as (v & l & r & Ht & _). unfold compress. rewrite Ht, Ha4. eexists _, (be32 0).
  split; [done|]. intros old'. unfold decompress. rewrite Ht.
  change (read_be32 (take 4 (be32 0))) with 0. by rewrite Ha0.
Qed.
End Roundtrip.

(** * Evaluation *)

Lemma fixed_roundtrip_witness :
  ∃ m c, compress (PQ := ListQueue compare) (λ _, true) no_mappings [104; 101; 108; 108; 111] []
           = Some (m, SUCCESS, c) ∧
         decompress (PQ := ListQueue compare) (λ _, true) c [] = Some (SUCCESS, [104; 101; 108; 108; 111]).
Proof.
  destruct (fixed_roundtrip (PQ := ListQueue compare) (λ _, true) no_mappings
    [104; 101; 108; 108; 111] []) as (m & c & Hc & _ & Hsz & Hd);
    [by left|unfold is_u8; repeat constructor; lia|done|done..|].
  exists m, c. split; [exact Hc|]. apply Hd.
  change (5 + 255 * size [104; 101; 108; 108; 111] / 8) with 164 in Hsz. lia.
Defined.

Lemma fixed_empty_witness :
  ∃ m c, compress (PQ := ListQueue compare) (λ _, true) no_mappings [] [] = Some (m, SUCCESS, c) ∧
         decompress (PQ := ListQueue compare) (λ _, true) c [] = Some (INVALID_ARGUMENT, []).
Proof.
  destruct (fixed_empty (PQ := ListQueue compare) (λ _, true) no_mappings []) as (m & c & Hc & Hd);
    [done..|].
  exists m, c. split; [exact Hc|]. apply Hd.
Defined.
