(* ===== verification/Binary64.v ===== *)
(** The [double] arithmetic of [HuffmanGeneric::calcFrequencies].

    [SpecFloat] of the standard library specifies IEEE 754 arithmetic with
    rounding to nearest; binary64 is precision 53 and exponent bound 1024.
    The conversion of a [double] to [uint8_t] truncates and is undefined where
    the truncated value does not fit.  The main fact: for counters
    [x <= max], the scaled value [x / double(max) * 255.0] always fits. *)

From S2P Require Import Prelude.
From Stdlib Require Import SpecFloat.

Local Open Scope Z_scope.

Notation double_div := (SFdiv 53 1024).
Notation double_mul := (SFmul 53 1024).

(** [double(z)] *)
Definition double (z : Z) : spec_float := binary_normalize 53 1024 z 0 false.

(** [uint8_t(f)]; [None] where it is undefined. *)
Definition to_uint8 (f : spec_float) : option Z :=
  match f with
  | S754_zero _ => Some 0
  | S754_finite s m e =>
      let t := if 0 <=? e then Zpos m * 2 ^ e else Zpos m / 2 ^ (- e) in
      let v := if s then - t else t in
      if (0 <=? v) && (v <? 256) then Some v else None
  | _ => None
  end.

(** * Shifting and rounding *)

Lemma Zdigits2_log2 z : 0 < z → Zdigits2 z = Z.log2 z + 1.
Proof.
  destruct z as [|p|p]; try lia. intros _. cbn [Zdigits2].
  induction p as [p IH|p IH|]; [| |done]; cbn [digits2_pos]; rewrite Pos2Z.inj_succ, IH.
  - rewrite Pos2Z.inj_xI, Z.log2_succ_double by lia. lia.
  - rewrite Pos2Z.inj_xO, Z.log2_double by lia. lia.
Qed.

(** The remainder lost by shifting [m] right by [n] bits is kept in the round
    and sticky bits: their location is exact iff nothing was lost. *)
Definition rest_zero (r : shr_record) : Prop := shr_r r = false ∧ shr_s r = false.

Lemma shr_1_spec r :
  0 <= shr_m r →
  shr_m (shr_1 r) = shr_m r / 2 ^ 1 ∧
  (rest_zero (shr_1 r) ↔ rest_zero r ∧ shr_m r mod 2 ^ 1 = 0).
Proof.
  change (2 ^ 1) with 2.
  destruct r as [m rb sb]. unfold rest_zero; simpl. intros Hm.
  destruct m as [|[p|p|]|]; simpl; try lia.
  - split; [done|]. rewrite orb_false_iff. tauto.
  - rewrite Pos2Z.inj_xI. split; [|split; [by intros [? _]|]].
    + Z.to_euclidean_division_equations. lia.
    + intros [_ H]. Z.to_euclidean_division_equations. lia.
  - rewrite Pos2Z.inj_xO, Z.mul_comm, Z.div_mul, Z_mod_mult by lia.
    rewrite orb_false_iff. tauto.
  - split; [done|]. split; [by intros [? _]|by intros [_ ?]].
Qed.

Lemma iter_shr p r :
  0 <= shr_m r →
  shr_m (iter_pos shr_1 p r) = shr_m r / 2 ^ Zpos p ∧
  (rest_zero (iter_pos shr_1 p r) ↔ rest_zero r ∧ shr_m r mod 2 ^ Zpos p = 0).
Proof.
  assert (Hcomb : ∀ m a b, 0 <= a → 0 <= b →
    (m mod 2 ^ a = 0 ∧ (m / 2 ^ a) mod 2 ^ b = 0) ↔ m mod 2 ^ (a + b) = 0).
  { intros m a b Ha Hb. rewrite Z.pow_add_r by lia.
    rewrite (Z.rem_mul_r m (2 ^ a) (2 ^ b)) by lia.
    pose proof (Z.mod_pos_bound m (2 ^ a) ltac:(lia)).
    pose proof (Z.mod_pos_bound (m / 2 ^ a) (2 ^ b) ltac:(lia)). split; nia. }
  assert (Hdiv : ∀ m a b, 0 <= a → 0 <= b → m / 2 ^ a / 2 ^ b = m / 2 ^ (a + b)).
  { intros m a b Ha Hb. rewrite Z.pow_add_r, Z.div_div by lia. done. }
  revert r. induction p as [p IH|p IH|]; intros r Hr; simpl iter_pos.
  - destruct (shr_1_spec r Hr) as [E1 Z1].
    assert (H1 : 0 <= shr_m (shr_1 r)) by (rewrite E1; apply Z.div_pos; lia).
    destruct (IH _ H1) as [E2 Z2].
    assert (H2 : 0 <= shr_m (iter_pos shr_1 p (shr_1 r))) by (rewrite E2; apply Z.div_pos; lia).
    destruct (IH _ H2) as [E3 Z3]. rewrite E3, Z3, E2, Z2, Z1, E1.
    replace (Zpos p~1) with (1 + Zpos p + Zpos p) by lia.
    split; [by rewrite !Hdiv, ?Z.add_assoc by lia|].
    rewrite <- !Hcomb, !Hdiv by lia. tauto.
  - destruct (IH _ Hr) as [E2 Z2].
    assert (H2 : 0 <= shr_m (iter_pos shr_1 p r)) by (rewrite E2; apply Z.div_pos; lia).
    destruct (IH _ H2) as [E3 Z3]. rewrite E3, Z3, E2, Z2, Hdiv by lia.
    replace (Zpos p~0) with (Zpos p + Zpos p) by lia. split; [done|].
    rewrite <- Hcomb by lia. tauto.
  - by apply shr_1_spec.
Qed.

Lemma shr_fexp_spec m e l r e' :
  0 <= m → shr_fexp 53 1024 m e l = (r, e') →
  e' = Z.max e (fexp 53 1024 (Zdigits2 m + e)) ∧ shr_m r = m / 2 ^ (e' - e) ∧
  (rest_zero r ↔ l = loc_Exact ∧ m mod 2 ^ (e' - e) = 0).
Proof.
  intros Hm. unfold shr_fexp, shr.
  assert (Hl : shr_m (shr_record_of_loc m l) = m ∧ (rest_zero (shr_record_of_loc m l) ↔ l = loc_Exact)).
  { unfold rest_zero. destruct l as [|[]]; simpl; intuition congruence. }
  destruct Hl as [Hl1 Hl2]. set (f := fexp 53 1024 (Zdigits2 m + e)).
  destruct (f - e) as [|p|p] eqn:En; intros [= <- <-].
  - rewrite Z.sub_diag, Z.div_1_r, Z.mod_1_r, Hl1, Hl2. split_and!; [lia|done|tauto].
  - destruct (iter_shr p (shr_record_of_loc m l)) as [E Hz]; [lia|].
    replace (e + Z.pos p - e) with (Z.pos p) by lia.
    rewrite E, Hz, Hl1, Hl2. split_and!; [lia|done|tauto].
  - rewrite Z.sub_diag, Z.div_1_r, Z.mod_1_r, Hl1, Hl2. split_and!; [lia|done|tauto].
Qed.

Lemma round_nearest_even_bound m r :
  shr_m r = m →
  round_nearest_even m (loc_of_shr_record r) = m ∨
  (round_nearest_even m (loc_of_shr_record r) = m + 1 ∧ ¬ rest_zero r).
Proof.
  destruct r as [m' [] []]; unfold rest_zero; simpl; intros <-; try (by left).
  - right. split; [done|]. by intros [? ?].
  - destruct (Z.even m'); [by left|right]. split; [done|]. by intros [? ?].
Qed.

(** A finite number between 0 and the integer [B], with a nonpositive exponent. *)
Definition within (f : spec_float) (B : Z) : Prop :=
  match f with
  | S754_zero _ => True
  | S754_finite false m e => e <= 0 ∧ Zpos m <= B * 2 ^ (- e)
  | _ => False
  end.

Lemma fexp_neg m e B :
  0 <= m → e <= 0 → 0 < B < 2 ^ 40 → m <= B * 2 ^ (- e) → fexp 53 1024 (Zdigits2 m + e) <= 0.
Proof.
  intros Hm He HB Hle. unfold fexp, emin.
  enough (Zdigits2 m + e <= 40) by lia.
  destruct (decide (m = 0)) as [->|Hne]; [simpl; lia|].
  rewrite Zdigits2_log2 by lia.
  enough (Z.log2 m < 40 - e) by lia. apply Z.log2_lt_pow2; [lia|].
  replace (40 - e) with (40 + - e) by lia. rewrite Z.pow_add_r by lia. nia.
Qed.

(** Rounding does not cross an integer bound. *)
Lemma round_within mx ex lx B :
  0 <= mx → ex <= 0 → 0 < B < 2 ^ 40 →
  mx <= B * 2 ^ (- ex) → (lx ≠ loc_Exact → mx < B * 2 ^ (- ex)) →
  within (binary_round_aux 53 1024 false mx ex lx) B.
Proof.
  intros Hmx Hex HB Hle Hlt. unfold binary_round_aux.
  destruct (shr_fexp 53 1024 mx ex lx) as [r1 e1] eqn:S1.
  destruct (shr_fexp_spec _ _ _ _ _ Hmx S1) as (He1 & Hm1 & Hz1).
  pose proof (fexp_neg mx ex B Hmx Hex HB Hle) as Hf1.
  set (M := round_nearest_even (shr_m r1) (loc_of_shr_record r1)).
  assert (HK : B * 2 ^ (- ex) = B * 2 ^ (- e1) * 2 ^ (e1 - ex)).
  { rewrite <- Z.mul_assoc, <- Z.pow_add_r by lia. do 2 f_equal. lia. }
  pose proof (Z.div_mod mx (2 ^ (e1 - ex)) ltac:(lia)) as Hdm.
  pose proof (Z.mod_pos_bound mx (2 ^ (e1 - ex)) ltac:(lia)) as Hmod.
  assert (HM : 0 <= M <= B * 2 ^ (- e1)).
  { assert (0 <= shr_m r1 <= B * 2 ^ (- e1)) by (rewrite Hm1; split; [apply Z.div_pos; lia|nia]).
    destruct (round_nearest_even_bound (shr_m r1) r1 eq_refl) as [E|[E Hnz]]; fold M in E; [lia|].
    enough (shr_m r1 < B * 2 ^ (- e1)) by lia. rewrite Hm1 in *.
    assert (Hlx : lx = loc_Exact ∨ lx ≠ loc_Exact) by (destruct lx; [by left|by right]).
    destruct Hlx as [->|Hlx]; [|specialize (Hlt Hlx); nia].
    assert (mx mod 2 ^ (e1 - ex) ≠ 0) by (intros H0; apply Hnz, Hz1; done). nia. }
  destruct (shr_fexp 53 1024 M e1 loc_Exact) as [r2 e2] eqn:S2.
  destruct (shr_fexp_spec _ _ _ _ _ (proj1 HM) S2) as (He2 & Hm2 & _).
  pose proof (fexp_neg M e1 B ltac:(lia) ltac:(lia) HB ltac:(lia)) as Hf2.
  assert (HK2 : B * 2 ^ (- e1) = B * 2 ^ (- e2) * 2 ^ (e2 - e1)).
  { rewrite <- Z.mul_assoc, <- Z.pow_add_r by lia. do 2 f_equal. lia. }
  assert (H2 : 0 <= shr_m r2 <= B * 2 ^ (- e2)).
  { rewrite Hm2. split; [apply Z.div_pos; lia|].
    apply Z.div_le_upper_bound; [lia|]. lia. }
  destruct (shr_m r2) as [|p|p]; [done| |lia].
  replace (e2 <=? 1024 - 53) with true by lia. split; lia.
Qed.

(** * Conversion, division, multiplication *)

Lemma iter_xO p k : Zpos (Pos.iter xO p k) = Zpos p * 2 ^ Zpos k.
Proof.
  induction k as [|k IH] using Pos.peano_ind; [cbn; lia|].
  rewrite Pos.iter_succ, Pos2Z.inj_xO, IH, Pos2Z.inj_succ, Z.pow_succ_r by lia. lia.
Qed.

(** A number of 53 digits whose exponent is in range is left alone. *)
Lemma round_exact m e :
  0 < m → fexp 53 1024 (Zdigits2 m + e) = e → e <= 0 →
  binary_round_aux 53 1024 false m e loc_Exact = S754_finite false (Z.to_pos m) e.
Proof.
  intros Hm Hf He. unfold binary_round_aux.
  destruct (shr_fexp 53 1024 m e loc_Exact) as [r e1] eqn:S1.
  destruct (shr_fexp_spec _ _ _ _ _ (Z.lt_le_incl _ _ Hm) S1) as (He1 & Hm1 & Hz1).
  assert (e1 = e) as -> by lia. rewrite Z.sub_diag, Z.div_1_r, Z.mod_1_r in *.
  assert (Hrz : rest_zero r) by tauto. rewrite Hm1.
  destruct (round_nearest_even_bound m r Hm1) as [->|[_ ?]]; [|done].
  rewrite S1, Hm1. destruct m as [|p|p]; try lia.
  by replace (e <=? 1024 - 53) with true by lia.
Qed.

(** A [uint32_t] converts exactly. *)
Lemma double_exact z :
  0 < z < 2 ^ 40 →
  ∃ m e, double z = S754_finite false m e ∧ -53 <= e <= 0 ∧ Zpos m = z * 2 ^ (- e).
Proof.
  intros Hz. destruct z as [|p|p]; try lia. unfold double, binary_normalize, binary_round.
  assert (Hd : Zpos (digits2_pos p) = Z.log2 (Zpos p) + 1) by (by apply (Zdigits2_log2 (Zpos p))).
  assert (Hlog : 0 <= Z.log2 (Zpos p) < 40).
  { split; [apply Z.log2_nonneg|]. apply Z.log2_lt_pow2; lia. }
  assert (Hf : fexp 53 1024 (Zpos (digits2_pos p) + 0) = Zpos (digits2_pos p) - 53)
    by (unfold fexp, emin; lia).
  unfold shl_align. rewrite Hf, Z.sub_0_r.
  destruct (Zpos (digits2_pos p) - 53) as [|k|k] eqn:Ek; [lia|lia|].
  exists (Pos.iter xO p k), (Z.neg k). split_and!; [|lia|lia|apply iter_xO].
  rewrite round_exact; [done|lia| |lia]. rewrite Zdigits2_log2, iter_xO by lia.
  rewrite Z.log2_mul_pow2 by lia. unfold fexp, emin. lia.
Qed.

Lemma digits_le m1 e1 m2 e2 :
  0 < m1 → 0 < m2 → e1 <= 0 → e2 <= 0 → m1 * 2 ^ (- e2) <= m2 * 2 ^ (- e1) →
  Zdigits2 m1 + e1 <= Zdigits2 m2 + e2.
Proof.
  intros H1 H2 He1 He2 Hle. rewrite !Zdigits2_log2 by lia.
  apply Z.log2_le_mono in Hle. rewrite !Z.log2_mul_pow2 in Hle by lia. lia.
Qed.

Lemma div_within x y :
  0 <= x <= y → 0 < y < 2 ^ 40 → within (double_div (double x) (double y)) 1.
Proof.
  intros Hx Hy. destruct (double_exact y) as (my & ey & -> & Hey & Hmy); [lia|].
  destruct (decide (x = 0)) as [->|Hne]; [done|].
  destruct (double_exact x) as (mx & ex & -> & Hex & Hmx); [lia|].
  unfold SFdiv, SFdiv_core_binary.
  set (e' := Z.min (fexp 53 1024 _) (ex - ey)).
  assert (Hle : Zpos mx * 2 ^ (- ey) <= Zpos my * 2 ^ (- ex)) by (rewrite Hmx, Hmy; nia).
  assert (He' : e' <= 0).
  { pose proof (digits_le (Zpos mx) ex (Zpos my) ey ltac:(lia) ltac:(lia) ltac:(lia) ltac:(lia) Hle).
    unfold e', fexp, emin. lia. }
  assert (Hs : ∀ s, 0 <= s → (match s with Z.pos _ => Z.shiftl (Zpos mx) s | 0 => Zpos mx
                              | Z.neg _ => 0 end) = Zpos mx * 2 ^ s).
  { intros [|p|p] Hs; [simpl; lia|by rewrite Z.shiftl_mul_pow2 by lia|lia]. }
  rewrite Hs by lia. destruct (Z.div_eucl _ (Zpos my)) as [q r] eqn:Eq.
  pose proof (Z_div_mod (Zpos mx * 2 ^ (ex - ey - e')) (Zpos my) ltac:(lia)) as Hqr.
  rewrite Eq in Hqr. destruct Hqr as [Hqr Hr].
  assert (Hb : Zpos mx * 2 ^ (ex - ey - e') <= Zpos my * 2 ^ (- e')).
  { enough (Zpos mx * 2 ^ (ex - ey - e') * 2 ^ (- ex) <= Zpos my * 2 ^ (- e') * 2 ^ (- ex)) by nia.
    rewrite <- Z.mul_assoc, <- Z.pow_add_r by lia.
    replace (ex - ey - e' + - ex) with (- ey + - e') by lia. rewrite Z.pow_add_r by lia. nia. }
  simpl xorb. apply round_within; [nia|lia|lia|nia|].
  intros Hloc. assert (r ≠ 0). { intros ->. apply Hloc. unfold new_location. by destruct (Z.even _). }
  nia.
Qed.

Lemma mul_within f x :
  within f 1 → 0 < x < 2 ^ 40 → within (double_mul f (double x)) x.
Proof.
  intros Hf Hx. destruct (double_exact x) as (mx & ex & -> & Hex & Hmx); [lia|].
  destruct f as [s| | |[] m e]; try done. destruct Hf as [He Hm].
  unfold SFmul. simpl xorb. apply round_within; [lia|lia|lia| |done].
  rewrite Pos2Z.inj_mul, Hmx. replace (- (e + ex)) with (- e + - ex) by lia.
  rewrite Z.pow_add_r by lia. nia.
Qed.

Lemma within_to_uint8 f B :
  within f B → 0 <= B < 256 → ∃ v, to_uint8 f = Some v ∧ 0 <= v <= B.
Proof.
  destruct f as [s| | |[] m e]; try done; intros Hf HB.
  { exists 0. split; [done|lia]. }
  destruct Hf as [He Hm]. simpl.
  assert (Hv : (if 0 <=? e then Zpos m * 2 ^ e else Zpos m / 2 ^ (- e)) = Zpos m / 2 ^ (- e)).
  { destruct (0 <=? e) eqn:E; bool_to_prop; [|done]. assert (e = 0) as -> by lia.
    simpl. by rewrite Z.div_1_r, Z.mul_1_r. }
  rewrite Hv. assert (0 <= Zpos m / 2 ^ (- e) <= B).
  { split; [apply Z.div_pos; lia|]. apply Z.div_le_upper_bound; lia. }
  exists (Zpos m / 2 ^ (- e)). rewrite (proj2 (Z.leb_le _ _)), (proj2 (Z.ltb_lt _ _)) by lia.
  done.
Qed.

(** [x / double(max) * 255.0] fits in a [uint8_t]. *)
Lemma scaled_defined x y :
  0 <= x <= y → 0 < y < 2 ^ 40 →
  ∃ v, to_uint8 (double_mul (double_div (double x) (double y)) (double 255)) = Some v ∧
       0 <= v <= 255.
Proof.
  intros Hx Hy. apply within_to_uint8; [|lia]. apply mul_within; [|lia]. by apply div_within.
Qed.
