(* ===== verification/HuffmanGeneric.v ===== *)
(** [HuffmanGeneric]: Huffman compression with a dictionary made from the text,
    [libs/compression/src/algorithm/HuffmanGeneric.cpp].

    The 256 frequencies, scaled to one byte each, are the header of the
    compressed string.  A byte has a nonzero frequency exactly when it occurs,
    so [decompress] inverts [compress] on every nonempty string whose
    compressed form has fewer than [2 ^ 32] payload bytes.  [None] is undefined
    behaviour: compressing the empty string, decompressing a zero header. *)

From S2P Require Import Prelude PriorityQueue HuffmanTree HuffmanBase Binary64.

Local Open Scope Z_scope.

(** * Model *)

(** One iteration of the counting loop of [calcFrequencies]. *)
Definition count_step (st : list Z * Z) (c : Z) : list Z * Z :=
  let '(header, max) := st in
  let h := u32 (nth (Z.to_nat c) header 0 + 1) in
  (<[Z.to_nat c := h]> header, if h >? max then h else max).

(** One entry of [charHeader]. *)
Definition scale (max h : Z) : option Z :=
  match to_uint8 (double_mul (double_div (double h) (double max)) (double 255)) with
  | None => None
  | Some v => Some (if (h >? 0) && (v =? 0) then 1 else v)
  end.

Definition calcFrequencies (text : bytes) : option bytes :=
  let '(header, max) := foldl count_step (replicate 256 0, 0) text in
  mapM (scale max) header.

Section HuffmanGeneric.
Context {PQ : PriorityQueue Node compare}.
Context (alloc : Z → bool).

(** [convert] with its local [mappings(256)]. *)
Definition convert (text : bytes) (t : Node) (index : nat) (result : bytes) : bytes :=
  convert_loop (generateMapping t [] no_mappings) text index result.

Definition compress (uncompressed compressed : bytes) : option (ClockError * bytes) :=
  if size uncompressed >? 2 ^ 32 - 1 then Some (INVALID_ARGUMENT, compressed)
  else
    match calcFrequencies uncompressed with
    | None => None
    | Some header =>
        let len := u32 (size uncompressed) in
        match buildTree header with
        | None => None
        | Some t =>
            Some (SUCCESS, convert uncompressed t ((256 + 4) * 8) (header ++ be32 len))
        end
    end.

Definition decompress (compressed decompressed : bytes) : option (ClockError * bytes) :=
  if size compressed <? 256 + 4 then Some (INVALID_ARGUMENT, decompressed)
  else
    let header := take 256 compressed in
    match buildTree header with
    | None => None
    | Some t =>
        let realText := drop (256 + 4) compressed in
        let len := read_be32 (take 4 (drop 256 compressed)) in
        if negb (alloc len) then Some (OUT_OF_MEMORY, decompressed)
        else Some (getChar realText t len (replicate (Z.to_nat len) 0))
    end.
End HuffmanGeneric.

(** * The frequencies *)

(** What the counting loop knows after the bytes [done]. *)
Definition counted (done : bytes) (st : list Z * Z) : Prop :=
  length st.1 = 256%nat ∧ Forall (λ h, 0 <= h <= st.2) st.1 ∧ 0 <= st.2 <= size done ∧
  (done ≠ [] → 0 < st.2) ∧
  ∀ i : nat, (i < 256)%nat → (0 < nth i st.1 0 ↔ Z.of_nat i ∈ done).

Lemma counted_step text st c :
  counted text st → is_u8 c → size text + 1 < 2 ^ 32 → counted (text ++ [c]) (count_step st c).
Proof.
  destruct st as [header max]. intros (Hl & Hb & Hm & _ & Hi) Hc Hsz. unfold is_u8 in Hc.
  assert (Hh : 0 <= nth (Z.to_nat c) header 0 <= max).
  { simpl in *. eapply Forall_forall in Hb; [exact Hb|]. apply list_elem_of_In, nth_In. lia. }
  simpl in *. unfold counted, count_step. rewrite u32_small by lia. cbn [fst snd].
  set (h := nth (Z.to_nat c) header 0 + 1) in *.
  assert (Hmax : max <= (if h >? max then h else max) ∧ h <= (if h >? max then h else max) ∧
                 (if h >? max then h else max) <= size text + 1).
  { destruct (h >? max) eqn:E; bool_to_prop; lia. }
  rewrite length_app. simpl length. split_and!; [by rewrite length_insert| |lia|lia|lia|].
  - apply Forall_insert; [|lia]. eapply Forall_impl; [exact Hb|]. simpl. lia.
  - intros i Hlt. rewrite elem_of_app, list_elem_of_singleton, <- (Hi i Hlt).
    rewrite !nth_lookup, list_lookup_insert. case_decide as Hd; simpl.
    + split; [intros _; right; lia|lia].
    + split; [by left|]. intros [H|H]; [done|lia].
Qed.

Lemma counted_all text :
  Forall is_u8 text → size text < 2 ^ 32 →
  counted text (foldl count_step (replicate 256 0, 0) text).
Proof.
  induction text as [|c text IH] using rev_ind; intros Hb Hsz.
  { unfold counted. cbn [foldl fst snd].
    split_and!; [done|by apply Forall_replicate|done|done|done|]. intros i Hi. rewrite nth_lookup, lookup_replicate_2 by done.
    split; [done|]. by intros ?%not_elem_of_nil. }
  apply Forall_app in Hb as [Hb [Hc _]%Forall_cons]. rewrite length_app in Hsz; simpl in Hsz.
  rewrite foldl_app. apply counted_step; [apply IH; [done|lia]|done|lia].
Qed.

(** The scaled entry is a byte, and zero only for a zero counter. *)
Lemma scale_defined max h :
  0 <= h <= max → 0 < max < 2 ^ 32 → ∃ v, scale max h = Some v ∧ is_u8 v ∧ (0 < v ↔ 0 < h).
Proof.
  intros Hh Hm. unfold scale. destruct (decide (h = 0)) as [->|Hne].
  { destruct (scaled_defined max max) as (v & _); [lia..|].
    exists 0. change (double 0) with (SpecFloat.S754_zero false).
    destruct (double_exact max) as (m & e & -> & _); [lia|].
    destruct (double_exact 255) as (m' & e' & -> & _); [lia|]. split; [done|].
    unfold is_u8. split; lia. }
  destruct (scaled_defined h max) as (v & -> & Hv); [lia..|].
  exists (if (h >? 0) && (v =? 0) then 1 else v). split; [done|]. unfold is_u8.
  destruct (h >? 0) eqn:E1, (v =? 0) eqn:E2; simpl; bool_to_prop; split; lia.
Qed.

Lemma mapM_scale max header :
  Forall (λ h, 0 <= h <= max) header → 0 < max < 2 ^ 32 →
  ∃ l, mapM (scale max) header = Some l ∧ length l = length header ∧ Forall is_u8 l ∧
       ∀ i, 0 < nth i l 0 ↔ 0 < nth i header 0.
Proof.
  intros Hh Hm. induction Hh as [|h header Hh _ IH]; [by exists []|].
  destruct IH as (l & Hl & Hlen & Hb & Hi). destruct (scale_defined max h Hh Hm) as (v & Hv & Hvb & Hv0).
  exists (v :: l). simpl. rewrite Hv, Hl. simpl. split_and!; [done|by rewrite Hlen|by constructor|].
  intros [|i]; simpl; auto.
Qed.

Lemma calcFrequencies_spec text :
  Forall is_u8 text → text ≠ [] → size text < 2 ^ 32 →
  ∃ header, calcFrequencies text = Some header ∧ length header = 256%nat ∧
            Forall is_u8 header ∧
            ∀ i : nat, (i < 256)%nat → (0 < nth i header 0 ↔ Z.of_nat i ∈ text).
Proof.
  intros Hb Hne Hsz. unfold calcFrequencies.
  pose proof (counted_all text Hb Hsz) as Hc. destruct (foldl _ _ _) as [header max].
  destruct Hc as (Hl & Hh & Hm & Hm0 & Hi). simpl in *.
  destruct (mapM_scale max header Hh) as (l & -> & Hlen & Hlb & Hli); [specialize (Hm0 Hne); lia|].
  exists l. split_and!; [done|lia|done|]. intros i Hlt. rewrite Hli. by apply Hi.
Qed.

Section Roundtrip.
Context {PQ : PriorityQueue Node compare} {SPEC : PriorityQueueSpec PQ}.
Context (alloc : Z → bool).

(** [calcFrequencies] on a nonempty text never leaves the range of the
    conversion to [uint8_t], and the byte it stores for a character is zero
    exactly when the character does not occur. *)
Theorem calcFrequencies_occurs text :
  Forall is_u8 text → text ≠ [] → size text < 2 ^ 32 →
  ∃ header, calcFrequencies text = Some header ∧ length header = 256%nat ∧
            Forall is_u8 header ∧
            ∀ i : nat, (i < 256)%nat → (0 < nth i header 0 ↔ Z.of_nat i ∈ text).
Proof. apply calcFrequencies_spec. Qed.

(** The tree that [compress] builds from the frequencies of its text. *)
Lemma text_tree text header :
  Forall is_u8 text → text ≠ [] → Forall is_u8 header →
  (∀ i : nat, (i < 256)%nat → (0 < nth i header 0 ↔ Z.of_nat i ∈ text)) →
  ∃ t, buildTree header = Some t ∧ Forall (λ c, 0 <= c < 256) (leaves t).*1 ∧
       Forall (λ c, c ∈ (leaves t).*1) text ∧ (length (leaves t) <= 256)%nat.
Proof.
  intros Hb Hne Hh Hi.
  assert (Hin : ∀ c, c ∈ text → c ∈ (header_leaves header).*1).
  { intros c Hc. eapply Forall_forall in Hb; [|exact Hc]. unfold is_u8 in Hb.
    apply header_leaves_elem. exists (Z.to_nat c).
    assert (0 < nth (Z.to_nat c) header 0) by (apply Hi; [lia|by rewrite Z2Nat.id by lia]).
    split_and!; lia. }
  destruct (buildTree_some header) as (t & Ht & Hl).
  { destruct text as [|c text]; [done|]. specialize (Hin c ltac:(by left)).
    intros E. rewrite E in Hin. by apply not_elem_of_nil in Hin. }
  exists t. split_and!; [done|rewrite Hl| |rewrite Hl; apply length_header_leaves].
  - apply Forall_forall. intros c (i & ? & -> & _)%header_leaves_elem. lia.
  - apply Forall_forall. intros c Hc. rewrite Hl. by apply Hin.
Qed.

Lemma generic_inverse text old :
  Forall is_u8 text → text ≠ [] → size text < 2 ^ 32 → alloc (size text) = true →
  ∃ c, compress text old = Some (SUCCESS, c) ∧ size c <= 261 + 255 * size text / 8 ∧
       (size c - 260 < 2 ^ 32 → ∀ old', decompress alloc c old' = Some (SUCCESS, text)).
Proof.
  intros Hb Hne Hsz Han. unfold compress.
  replace (size text >? 2 ^ 32 - 1) with false by lia.
  destruct (calcFrequencies_spec text Hb Hne Hsz) as (header & -> & Hlen & Hh & Hi).
  destruct (text_tree text header Hb Hne Hh Hi) as (t & Ht & Htb & Htt & Htl).
  rewrite Ht, u32_small by lia. eexists. split; [done|].
  set (h := header ++ be32 (size text)) in *.
  assert (Hlh : length h = 260%nat) by (unfold h; by rewrite length_app, Hlen).
  change ((256 + 4) * 8)%nat with (8 * 260)%nat in *. rewrite <- Hlh in *. split.
  { replace 261 with (size h + 1) by lia. by apply (convert_size t text h). }
  intros Hc old'. set (c := convert _ _ _ _) in *.
  assert (Hc260 : take 260 c = h).
  { unfold c, convert. rewrite take_convert_loop by lia. by rewrite take_ge by lia. }
  assert (Hcl : (260 <= length c)%nat).
  { apply (f_equal length) in Hc260. rewrite length_take in Hc260. lia. }
  assert (Hc256 : take 256 c = header).
  { replace 256%nat with (256 `min` 260)%nat by lia. rewrite <- take_take, Hc260.
    unfold h. by rewrite <- Hlen, take_app_length. }
  assert (Hc4 : take 4 (drop 256 c) = be32 (size text)).
  { rewrite take_drop_commute. change (256 + 4)%nat with 260%nat. rewrite Hc260.
    unfold h. by rewrite <- Hlen, drop_app_length. }
  unfold decompress. replace (size c <? 256 + 4) with false by lia.
  rewrite Hc256, Ht, Hc4, read_be32_be32, Han by lia. simpl negb. rewrite Nat2Z.id. f_equal.
  change (256 + 4)%nat with 260%nat. unfold c, convert. rewrite <- Hlh at 1.
  apply getChar_convert; [done..|].
  change (size (drop (length h) c) < 2 ^ 32). rewrite length_drop, Hlh. lia.
Qed.

(** C4: [HuffmanGeneric::decompress] inverts [HuffmanGeneric::compress]: a
    nonempty string of at most [2 ^ 32 - 1] bytes is compressed without
    undefined behaviour, and decompressing the result, as long as its payload
    has fewer than [2 ^ 32] bytes, succeeds and gives the string back. No
    character needs more than 255 bits, so that this is the case for every
    string below 128 MiB. *)
Theorem generic_roundtrip text old :
  Forall is_u8 text → text ≠ [] → size text < 2 ^ 32 → alloc (size text) = true →
  ∃ c, compress text old = Some (SUCCESS, c) ∧ size c <= 261 + 255 * size text / 8 ∧
       (size c - 260 < 2 ^ 32 → ∀ old', decompress alloc c old' = Some (SUCCESS, text)).
Proof. apply generic_inverse. Qed.

(** Compressing the empty string is undefined: the scaling divides zero
    by zero and converts the result, which is not a number, to [uint8_t]. *)
Theorem generic_empty_undefined old : compress (PQ := PQ) [] old = None.
Proof. reflexivity. Qed.

(** [decompress] does not check the header: with 256 zero frequencies it
    builds the tree of an empty queue, which is undefined. *)
Theorem generic_zero_header_undefined rest old :
  4 <= size rest → decompress alloc (replicate 256 0 ++ rest) old = None.
Proof.
  intros Hr. unfold decompress.
  rewrite (proj2 (Z.ltb_ge _ _)) by (rewrite length_app, length_replicate; lia).
  rewrite take_app_length' by (by rewrite length_replicate).
  rewrite buildTree_empty; [done|].
  assert (H : ∀ c, c ∉ (header_leaves (replicate 256 0)).*1).
  { intros c (i & Hi & _ & Hn)%header_leaves_elem.
    rewrite nth_lookup, lookup_replicate_2 in Hn by done. done. }
  destruct (header_leaves _) as [|[c v] l]; [done|]. exfalso. apply (H c). by left.
Qed.
End Roundtrip.

(** * Evaluation *)

Lemma calcFrequencies_occurs_witness :
  ∃ header, calcFrequencies [97; 97; 98] = Some header ∧
            (0 < nth 98 header 0 ↔ 98 ∈ [97; 97; 98]).
Proof.
  destruct (calcFrequencies_occurs [97; 97; 98]) as (header & Hh & _ & _ & Hi);
    [unfold is_u8; repeat constructor; lia|done|done|].
  exists header. split; [exact Hh|]. apply (Hi 98%nat). lia.
Defined.

Lemma generic_roundtrip_witness :
  ∃ c, compress (PQ := ListQueue compare) [1; 1; 0; 1; 2] [] = Some (SUCCESS, c) ∧
       decompress (PQ := ListQueue compare) (λ _, true) c [] = Some (SUCCESS, [1; 1; 0; 1; 2]).
Proof.
  destruct (generic_roundtrip (PQ := ListQueue compare) (λ _, true) [1; 1; 0; 1; 2] [])
    as (c & Hc & Hsz & Hd); [unfold is_u8; repeat constructor; lia|done..|].
  exists c. split; [exact Hc|]. apply Hd.
  change (261 + 255 * size [1; 1; 0; 1; 2] / 8) with 420 in Hsz. lia.
Defined.

Lemma generic_zero_header_undefined_witness :
  decompress (PQ := ListQueue compare) (λ _, true) (replicate 256 0 ++ [0; 0; 0; 1; 7]) [] = None.
Proof. apply generic_zero_header_undefined. done. Defined.
