(* ===== verification/HuffmanDecode.v ===== *)
(** What the decoder does with arbitrary data: [HuffmanBase::getChar] and the two
    [decompress] functions on any input, well formed or not.

    The reference decoder reads a list of bits. [getChar] computes the same
    characters and the same error on every nonempty input below [2 ^ 32] bytes
    (the byte index has 32 bits); it accepts exactly
    the codings of a text with one to eight bits of padding. *)

From S2P Require Import Prelude PriorityQueue HuffmanTree HuffmanBase.
From S2P Require HuffmanFixed HuffmanGeneric.

Local Open Scope Z_scope.

(** * The reference decoder *)

(** One character, [None] if there are not enough bits. *)
Fixpoint decode_one (t : Node) (bs : list bool) : option (Z * list bool) :=
  match t with
  | Leaf _ c => Some (c, bs)
  | Inner _ l r =>
      match bs with
      | [] => None
      | b :: bs' => if b then decode_one l bs' else decode_one r bs'
      end
  end.

(** [n] characters, or those up to the end of the bits; the bits that are left,
    [None] if there were not enough. *)
Fixpoint decode (t : Node) (n : nat) (bs : list bool) : bytes * option (list bool) :=
  match n with
  | O => ([], Some bs)
  | S n' =>
      match decode_one t bs with
      | None => ([], None)
      | Some (c, bs') => let '(text, rest) := decode t n' bs' in (c :: text, rest)
      end
  end.

(** The bits left have to be in the last byte, and there has to be one. *)
Definition verdict (rest : option (list bool)) : ClockError :=
  match rest with
  | None => INVALID_ARGUMENT
  | Some bs => if (1 <=? length bs)%nat && (length bs <=? 8)%nat then SUCCESS else INVALID_ARGUMENT
  end.

Definition decode_bytes (t : Node) (n : nat) (compressed result : bytes) : ClockError * bytes :=
  let '(text, rest) := decode t n (bits_of compressed) in
  (verdict rest, text ++ drop (length text) result).

(** * Equivalence *)

Section Reference.
Context (compressed : bytes) (Hsize : size compressed < 2 ^ 32).
Notation bits := (bits_of compressed).

Lemma walk_decode t : ∀ p pos,
  at_bit compressed p pos →
  match decode_one t (drop pos bits) with
  | None => walk compressed t p = None
  | Some (c, rest) =>
      ∃ p' pos', walk compressed t p = Some (c, p') ∧ at_bit compressed p' pos' ∧
                 rest = drop pos' bits
  end.
Proof.
  induction t as [v c|v l IHl r IHr]; intros p pos Hat; simpl; [eauto|].
  destruct (drop pos bits) as [|b bs] eqn:E.
  - destruct Hat as (_ & _ & Hle & -> & _). rewrite bool_decide_eq_true_2; [done|].
    apply (f_equal length) in E. rewrite length_drop, length_bits_of in E. simpl in E. lia.
  - assert (Hbit : bits !! pos = Some b).
    { rewrite <- (Nat.add_0_r pos), <- lookup_drop, E. done. }
    destruct (at_bit_current compressed p pos b Hat Hbit) as [-> ->].
    assert (Hlt : (pos < 8 * length compressed)%nat)
      by (rewrite <- length_bits_of; by eapply lookup_lt_Some).
    pose proof (at_bit_advance compressed Hsize p pos Hat Hlt) as Hat'.
    assert (Hbs : bs = drop (S pos) bits).
    { rewrite <- Nat.add_1_r, <- drop_drop, E. done. }
    rewrite Hbs. destruct b; [by apply IHl|by apply IHr].
Qed.

Lemma verdict_position p pos :
  at_bit compressed p pos → compressed ≠ [] →
  (if byteIndex p =? u64 (size compressed - 1) then SUCCESS else INVALID_ARGUMENT) =
  verdict (Some (drop pos bits)).
Proof.
  intros (_ & Hi & Hle & _) Hne. unfold verdict. rewrite Hi, length_drop, length_bits_of.
  assert (0 < length compressed)%nat by (destruct compressed; [done|simpl; lia]).
  rewrite u64_small by lia.
  pose proof (Nat.div_mod_eq pos 8). pose proof (Nat.mod_upper_bound pos 8 ltac:(lia)).
  destruct (_ =? _) eqn:E1, (1 <=? _)%nat eqn:E2, (_ <=? 8)%nat eqn:E3; cbn [andb];
    bool_to_prop; try done; lia.
Qed.

Lemma getChar_loop_decode t n : ∀ i p pos result,
  compressed ≠ [] → at_bit compressed p pos → (i + n <= length result)%nat →
  getChar_loop compressed t n i p result =
  let '(text, rest) := decode t n (drop pos bits) in
  (verdict rest, take i result ++ text ++ drop (i + length text) result).
Proof.
  induction n as [|n IH]; intros i p pos result Hne Hat Hi; cbn [getChar_loop decode].
  { rewrite (verdict_position p pos Hat Hne), Nat.add_0_r. simpl. by rewrite take_drop. }
  pose proof (walk_decode t p pos Hat) as Hw.
  destruct (decode_one t (drop pos bits)) as [[c rest]|].
  - destruct Hw as (p' & pos' & -> & Hat' & ->).
    rewrite (IH _ _ _ _ Hne Hat') by (rewrite length_insert; lia).
    destruct (decode t n (drop pos' bits)) as [text rest]. f_equal.
    rewrite (take_S_r _ _ c) by (apply list_lookup_insert_eq; lia).
    rewrite take_insert_ge, drop_insert_lt, <- app_assoc by lia.
    simpl. do 3 f_equal. f_equal. lia.
  - rewrite Hw. simpl. by rewrite Nat.add_0_r, take_drop.
Qed.
End Reference.

Lemma getChar_decode_bytes compressed t len result :
  compressed ≠ [] → size compressed < 2 ^ 32 → 0 <= len <= size result →
  getChar compressed t len result = decode_bytes t (Z.to_nat len) compressed result.
Proof.
  intros Hne Hsz Hlen. unfold getChar, decode_bytes.
  rewrite (getChar_loop_decode compressed Hsz t _ 0 _ 0 result Hne); [done|by apply at_bit_start|lia].
Qed.

(** On an empty string, which has no last byte, the decoder always fails. *)
Lemma walk_empty t : ∀ p c p',
  0 <= byteIndex p < 2 ^ 32 → walk [] t p = Some (c, p') → 0 <= byteIndex p' < 2 ^ 32.
Proof.
  assert (Hadv : ∀ p, 0 <= byteIndex p < 2 ^ 32 → 0 <= byteIndex (advance [] p) < 2 ^ 32).
  { intros p Hp. unfold advance. destruct (_ =? 8); [|done].
    destruct (_ <=? _); apply u32_range. }
  induction t as [v c|v l IHl r IHr]; intros p c' p' Hp; simpl; [by intros [= <- <-]|].
  destruct (endReached p); [done|].
  destruct (current_bit p); [apply IHl|apply IHr]; by apply Hadv.
Qed.

Lemma getChar_empty t len result : (getChar [] t len result).1 ≠ SUCCESS.
Proof.
  unfold getChar. generalize (Z.to_nat len) as n. intros n.
  assert (Hp : 0 <= byteIndex (start []) < 2 ^ 32) by done. revert Hp.
  generalize (start []) as p. generalize 0%nat as i. revert result.
  induction n as [|n IH]; intros result i p Hp; cbn [getChar_loop].
  - change (u64 (size (@nil Z) - 1)) with (2 ^ 64 - 1).
    by rewrite (proj2 (Z.eqb_neq _ _)) by lia.
  - destruct (walk [] t p) as [[c p']|] eqn:Hw; [|done].
    apply IH. by eapply walk_empty.
Qed.

(** * What is accepted *)

(** The bits of a text, character by character. *)
Inductive spells (t : Node) : bytes → list bool → Prop :=
| spells_nil : spells t [] []
| spells_cons c p text bs : path t p c → spells t text bs → spells t (c :: text) (p ++ bs).

Lemma decode_one_path t : ∀ bs c rest,
  decode_one t bs = Some (c, rest) ↔ ∃ p, path t p c ∧ bs = p ++ rest.
Proof.
  induction t as [v c|v l IHl r IHr]; intros bs c' rest; simpl.
  - split; [intros [= <- <-]; exists []; by auto with clock|].
    intros (p & Hp & ->). by inversion Hp.
  - destruct bs as [|b bs].
    + split; [done|]. intros (p & Hp & E). by inversion Hp; subst.
    + destruct b; rewrite ?IHl, ?IHr; split.
      * intros (p & Hp & ->). exists (true :: p). by auto with clock.
      * intros (p & Hp & E). inversion Hp; subst; simplify_eq/=; eauto.
      * intros (p & Hp & ->). exists (false :: p). by auto with clock.
      * intros (p & Hp & E). inversion Hp; subst; simplify_eq/=; eauto.
Qed.

Lemma decode_spells t n : ∀ bs text rest,
  decode t n bs = (text, Some rest) ↔ length text = n ∧ ∃ b, spells t text b ∧ bs = b ++ rest.
Proof.
  induction n as [|n IH]; intros bs text rest; cbn [decode].
  - split; [intros [= <- <-]; split; [done|]; exists []; by split; [constructor|]|].
    intros (Hl & b & Hs & ->). apply nil_length_inv in Hl as ->. by inversion Hs.
  - destruct (decode_one t bs) as [[c bs']|] eqn:E.
    + apply decode_one_path in E as (p & Hp & ->).
      destruct (decode t n bs') as [text' rest'] eqn:E'. split.
      * intros [= <- ->]. apply IH in E' as (Hl & b & Hs & ->). simpl. split; [lia|].
        exists (p ++ b). split; [by constructor|by rewrite app_assoc].
      * intros (Hl & b & Hs & Eb). inversion Hs as [|c1 p1 text1 b1 Hp1 Hs1]; subst; [done|].
        rewrite <- app_assoc in Eb.
        assert (H1 : decode_one t (p ++ bs') = Some (c, bs')) by (apply decode_one_path; eauto).
        assert (H2 : decode_one t (p ++ bs') = Some (c1, b1 ++ rest))
          by (apply decode_one_path; eauto).
        rewrite H1 in H2. injection H2 as -> ->.
        assert (H3 : decode t n (b1 ++ rest) = (text1, Some rest)).
        { apply IH. simpl in Hl. split; [lia|]. eauto. }
        rewrite E' in H3. by injection H3 as -> ->.
    + split; [done|]. intros (Hl & b & Hs & ->).
      inversion Hs as [|c1 p1 text1 b1 Hp1 Hs1]; subst; [done|].
      assert (H2 : decode_one t ((p1 ++ b1) ++ rest) = Some (c1, b1 ++ rest)).
      { apply decode_one_path. exists p1. by rewrite app_assoc. }
      by rewrite E in H2.
Qed.

(** The bits of [text], then padding that begins in the last byte. *)
Definition codes (t : Node) (text realText : bytes) : Prop :=
  ∃ bs rest, spells t text bs ∧ bits_of realText = bs ++ rest ∧ (1 <= length rest <= 8)%nat.

Lemma getChar_accepts compressed t len text :
  size compressed < 2 ^ 32 → 0 <= len →
  getChar compressed t len (replicate (Z.to_nat len) 0) = (SUCCESS, text) ↔
  size text = len ∧ codes t text compressed.
Proof.
  intros Hsz Hlen. destruct compressed as [|x l] eqn:Ec.
  { split; [intros H; by destruct (getChar_empty t len (replicate (Z.to_nat len) 0)); rewrite H|].
    intros (_ & bs & rest & _ & E & Hr). apply (f_equal length) in E.
    rewrite length_app in E. simpl in E. lia. }
  rewrite <- Ec in *. rewrite getChar_decode_bytes; [|by subst|done|rewrite length_replicate, Z2Nat.id by lia; lia].
  unfold decode_bytes. destruct (decode t (Z.to_nat len) (bits_of compressed)) as [out rest] eqn:E.
  split.
  - intros [= Hv <-]. destruct rest as [rest|]; [|done]. unfold verdict in Hv.
    destruct (_ && _) eqn:Hb; [|done]. apply andb_true_iff in Hb as [Hb1 Hb2]. bool_to_prop.
    apply decode_spells in E as (Hl & b & Hs & Eb).
    rewrite drop_ge by (rewrite length_replicate; lia). rewrite app_nil_r.
    split; [lia|]. exists b, rest. split_and!; [done..|lia|lia].
  - intros (Hl & b & rest' & Hs & Eb & Hr).
    assert (E' : decode t (Z.to_nat len) (bits_of compressed) = (text, Some rest')).
    { apply decode_spells. split; [lia|]. eauto. }
    rewrite E in E'. injection E' as -> ->. f_equal.
    + unfold verdict. by rewrite !(proj2 (Nat.leb_le _ _)) by lia.
    + rewrite drop_ge, app_nil_r by (rewrite length_replicate; lia). done.
Qed.

(** A four byte header holds one number below [2 ^ 32]. *)
Lemma be32_read_be32 l : length l = 4%nat → Forall is_u8 l → be32 (read_be32 l) = l.
Proof.
  destruct l as [|a [|b [|c [|d [|]]]]]; try done. intros _ Hl.
  repeat (apply Forall_cons in Hl as [? Hl]). unfold is_u8 in *.
  assert (E : read_be32 [a; b; c; d] = a * 2 ^ 24 + b * 2 ^ 16 + c * 2 ^ 8 + d).
  { assert (Hstep : ∀ x b, 0 <= x < 2 ^ 24 → 0 <= b < 2 ^ 8 →
      u32 (u32 (x * 0x100) + b) = x * 0x100 + b).
    { intros x b' Hx Hb'. rewrite (u32_small (x * 0x100)) by lia. apply u32_small. lia. }
    unfold read_be32. cbn [foldl]. rewrite (Hstep 0), (Hstep (0 * 0x100 + a)) by lia.
    rewrite (Hstep ((0 * 0x100 + a) * 0x100 + b)) by lia.
    rewrite (Hstep (((0 * 0x100 + a) * 0x100 + b) * 0x100 + c)) by lia. lia. }
  rewrite E, be32_div. unfold u8. repeat f_equal; Z.div_mod_to_equations; lia.
Qed.

Lemma read_be32_range l : l ≠ [] → 0 <= read_be32 l < 2 ^ 32.
Proof.
  intros Hl. destruct l as [|x l _] using rev_ind; [done|].
  unfold read_be32. rewrite foldl_app. apply u32_range.
Qed.

(** What both [decompress] functions do with a header and a payload. *)
Definition read_payload (alloc : Z → bool) (t : Node) (header payload old : bytes)
    : ClockError * bytes :=
  let len := read_be32 header in
  if negb (alloc len) then (OUT_OF_MEMORY, old)
  else getChar payload t len (replicate (Z.to_nat len) 0).

Lemma read_payload_accepts alloc t header payload old text :
  length header = 4%nat → Forall is_u8 header → size payload < 2 ^ 32 →
  read_payload alloc t header payload old = (SUCCESS, text) ↔
  alloc (size text) = true ∧ header = be32 (size text) ∧ size text < 2 ^ 32 ∧
  codes t text payload.
Proof.
  intros Hl Hb Hsz. unfold read_payload.
  pose proof (be32_read_be32 header Hl Hb) as Hr.
  assert (Hn : 0 <= read_be32 header < 2 ^ 32) by (apply read_be32_range; by destruct header).
  destruct (alloc (read_be32 header)) eqn:Ha; simpl negb; cbv iota.
  - rewrite getChar_accepts by lia. split.
    + intros (E & Hc). rewrite E. split_and!; [done..|lia|done].
    + intros (_ & E & Hs & Hc). split; [|done].
      by rewrite E, read_be32_be32 by lia.
  - split; [done|]. intros (Ha' & E & Hs & _).
    rewrite E, read_be32_be32 in Ha by lia. by rewrite Ha in Ha'.
Qed.

(** * Properties *)

(** C15: on every nonempty input of less than [2 ^ 32] bytes, for every tree, and
    for every number [len] of characters up to the length of the output string,
    [getChar] computes what the reference decoder computes on the list of all bits:
    the same characters up to the end of the data, the rest of the output untouched,
    and SUCCESS exactly when all characters were read and one to eight bits are
    left. *)
Theorem getChar_reference compressed t len result :
  compressed ≠ [] → size compressed < 2 ^ 32 → 0 <= len <= size result →
  getChar compressed t len result = decode_bytes t (Z.to_nat len) compressed result.
Proof. apply getChar_decode_bytes. Qed.

(** A header has no tree if and only if its 256 frequencies are zero. *)
Lemma buildTree_none {PQ : PriorityQueue Node compare} {SPEC : PriorityQueueSpec PQ} header :
  length header = 256%nat → buildTree header = None ↔ header = replicate 256 0.
Proof.
  intros Hl. split.
  - intros Hn. destruct (decide (header_leaves header = [])) as [Hnil|Hne].
    + apply list_eq_same_length with (n := 256%nat); [done..|]. intros i x y Hi Hx Hy.
      rewrite lookup_replicate_2 in Hy by done. injection Hy as <-.
      destruct (decide (x = 0)) as [|Hx0]; [done|]. exfalso.
      assert (Hin : Z.of_nat i ∈ (header_leaves header).*1).
      { apply header_leaves_elem. exists i. split_and!; [done..|].
        by rewrite (nth_lookup_Some _ _ _ _ Hx). }
      rewrite Hnil in Hin. by apply not_elem_of_nil in Hin.
    + destruct (buildTree_some header Hne) as (t & Ht & _). by rewrite Ht in Hn.
  - intros ->. apply buildTree_empty. vm_compute. reflexivity.
Qed.

Section Accepts.
Context {PQ : PriorityQueue Node compare} {SPEC : PriorityQueueSpec PQ}.
Context (alloc : Z → bool) (compressed old : bytes).

(** C23: on every input whose payload, what follows the four header bytes, has less
    than [2 ^ 32] bytes, [HuffmanFixed::decompress] is defined. It answers
    SUCCESS with [text] exactly when the input has its four header bytes, these
    are the size of [text], a string of that size can be allocated and the
    payload is a coding of [text] followed by one to eight more bits. *)
Theorem fixed_accepts :
  Forall is_u8 compressed → size compressed - 4 < 2 ^ 32 →
  ∃ t res, HuffmanFixed.root = Some t ∧
    HuffmanFixed.decompress alloc compressed old = Some res ∧
    ∀ text, res = (SUCCESS, text) ↔
      4 <= size compressed ∧ take 4 compressed = be32 (size text) ∧ size text < 2 ^ 32 ∧
      alloc (size text) = true ∧ codes t text (drop 4 compressed).
Proof.
  intros Hb Hsz. destruct HuffmanFixed.root_tree as (v & l & r & Ht & _).
  unfold HuffmanFixed.decompress. rewrite Ht.
  destruct (size compressed <? 4) eqn:E; bool_to_prop.
  { eexists _, _. split_and!; [done..|]. intros text. split; [done|lia]. }
  exists (Inner v l r), (read_payload alloc (Inner v l r) (take 4 compressed) (drop 4 compressed) old).
  split_and!; [done|by unfold read_payload; destruct (alloc _)|].
  intros text. rewrite read_payload_accepts; [naive_solver| |by apply Forall_take|].
  - rewrite length_take. lia.
  - rewrite length_drop. lia.
Qed.

(** C22: on every input of bytes, of which less than [2 ^ 32] follow the first 260,
    [HuffmanGeneric::decompress] is undefined if and only if the input has at
    least 260 bytes and the first 256, the frequencies, are all zero. It answers
    SUCCESS with [text] if and only if the input has at least 260 bytes, the four after
    the frequencies are the size of [text], which is below [2 ^ 32], a string of that
    size can be allocated, and the payload is a coding of [text], with the tree of the
    frequencies, followed by one to eight more bits. *)
Theorem generic_accepts :
  Forall is_u8 compressed → size compressed - 260 < 2 ^ 32 →
  (HuffmanGeneric.decompress alloc compressed old = None ↔
     260 <= size compressed ∧ take 256 compressed = replicate 256 0) ∧
  ∀ text, HuffmanGeneric.decompress alloc compressed old = Some (SUCCESS, text) ↔
    260 <= size compressed ∧ take 4 (drop 256 compressed) = be32 (size text) ∧
    size text < 2 ^ 32 ∧ alloc (size text) = true ∧
    ∃ t, buildTree (take 256 compressed) = Some t ∧ codes t text (drop 260 compressed).
Proof.
  intros Hb Hsz. unfold HuffmanGeneric.decompress.
  destruct (size compressed <? 256 + 4) eqn:E; bool_to_prop.
  { split; [split; [done|lia]|]. intros text. split; [done|lia]. }
  assert (Hl : length (take 256 compressed) = 256%nat) by (rewrite length_take; lia).
  pose proof (buildTree_none (take 256 compressed) Hl) as Hnone.
  destruct (buildTree (take 256 compressed)) as [t|] eqn:Ht.
  2: { split; [split; [by intros _; split; [lia|apply Hnone]|done]|].
       intros text. split; [done|]. by intros (_ & _ & _ & _ & t & ? & _). }
  change (256 + 4)%nat with 260%nat.
  set (header := take 4 (drop 256 compressed)).
  assert (Hr : ∀ text, read_payload alloc t header (drop 260 compressed) old = (SUCCESS, text) ↔ _)
    by (intros text; apply read_payload_accepts;
        [unfold header; rewrite length_take, length_drop; lia
        |by apply Forall_take, Forall_drop|rewrite length_drop; lia]).
  unfold read_payload in Hr. split.
  { destruct (negb _); (split; [done|]); by intros [_ ?%Hnone]. }
  destruct (negb _); intros text; rewrite (inj_iff Some), Hr; naive_solver.
Qed.
End Accepts.

(** * Evaluation *)

(** The payload [0xa0] with the tree of two one-bit codes: three characters,
    then five bits of padding. *)
Lemma getChar_reference_witness :
  getChar [160] (Inner 2 (Leaf 1 7) (Leaf 1 9)) 3 [0; 0; 0] = (SUCCESS, [7; 9; 7]).
Proof.
  rewrite (getChar_reference [160] (Inner 2 (Leaf 1 7) (Leaf 1 9)) 3 [0; 0; 0]);
    [vm_compute; reflexivity|done|done|by split].
Defined.

(** The compressed form of [hello] is accepted as [hello]. *)
Lemma fixed_accepts_witness :
  ∃ t, HuffmanFixed.root (PQ := ListQueue compare) = Some t ∧
       codes t [104; 101; 108; 108; 111] [22; 123; 236].
Proof.
  destruct (fixed_accepts (PQ := ListQueue compare) (λ _, true) [0; 0; 0; 5; 22; 123; 236] [])
    as (t & res & Ht & Hd & Hiff); [unfold is_u8; repeat constructor; lia|done|].
  exists t. split; [exact Ht|].
  assert (Hr : Some res = Some (SUCCESS, [104; 101; 108; 108; 111]))
    by (rewrite <- Hd; vm_compute; reflexivity).
  injection Hr as Hr. apply Hiff in Hr as (_ & _ & _ & _ & Hc). exact Hc.
Defined.

(** Two characters of frequency one: the payload byte [64] codes [b a]. Without
    frequencies there is no tree. *)
Lemma generic_accepts_witness :
  let c := replicate 97 0 ++ [1; 1] ++ replicate 157 0 ++ [0; 0; 0; 2; 64] in
  (∃ t, buildTree (PQ := ListQueue compare) (take 256 c) = Some t ∧ codes t [98; 97] [64]) ∧
  HuffmanGeneric.decompress (PQ := ListQueue compare) (λ _, true) (replicate 260 0) [] = None.
Proof.
  intros c. split.
  - destruct (generic_accepts (PQ := ListQueue compare) (λ _, true) c []) as [_ H];
      [unfold c, is_u8; repeat constructor; lia|done|].
    destruct (proj1 (H [98; 97])) as (_ & _ & _ & _ & t & Ht & Hp); [vm_compute; reflexivity|].
    by exists t.
  - destruct (generic_accepts (PQ := ListQueue compare) (λ _, true) (replicate 260 0) [])
      as [H _]; [unfold is_u8; repeat constructor; lia|done|].
    by apply H.
Defined.
