(* ===== verification/Compression.v ===== *)
(** The class template [Compression<Algorithm>] of
    [include/clockUtils/compression/Compression.h].

    The template argument is an interface with two operations; [Algorithm] has
    them, together with the static data of the algorithm, and [AlgorithmSpec]
    what an algorithm promises: its texts are compressed whatever was compressed
    before, and decompressing gives them back. The two Huffman algorithms
    implement it ([FixedSpec], [GenericSpec]). *)

From S2P Require Import Prelude PriorityQueue HuffmanTree HuffmanBase.
From S2P Require Import HuffmanFixed HuffmanGeneric.

Local Open Scope Z_scope.

(** The operations of an algorithm; [alg_state] is its static data, [None] is
    undefined behaviour. *)
Class Algorithm := {
  alg_state : Type;
  alg_init : alg_state;
  alg_compress : alg_state → bytes → bytes → option (alg_state * ClockError * bytes);
  alg_decompress : bytes → bytes → option (ClockError * bytes)
}.

Section Compression.
Context {A : Algorithm}.

(** [Compression<Algorithm>::compress] and [decompress] *)
Definition compress (s : alg_state) (uncompressed compressed : bytes)
    : option (alg_state * ClockError * bytes) := alg_compress s uncompressed compressed.

Definition decompress (compressed decompressed : bytes) : option (ClockError * bytes) :=
  alg_decompress compressed decompressed.

End Compression.

(** What an algorithm promises: on every text of its domain, from every state
    it can be in, [compress] succeeds and [decompress] inverts it. *)
Class AlgorithmSpec (A : Algorithm) := {
  alg_valid : alg_state → Prop;
  alg_domain : bytes → Prop;
  alg_output : bytes → Prop;
  alg_init_valid : alg_valid alg_init;
  alg_roundtrip s text old :
    alg_valid s → alg_domain text →
    ∃ s' c, alg_compress s text old = Some (s', SUCCESS, c) ∧ alg_valid s' ∧
            (size text < 2 ^ 27 → alg_output c) ∧
            (alg_output c → ∀ old', alg_decompress c old' = Some (SUCCESS, text))
}.

(** * The Huffman algorithms *)

Section Instances.
Context {PQ : PriorityQueue Node HuffmanTree.compare} {SPEC : PriorityQueueSpec PQ}.
Context (alloc : Z → bool).

(** A nonempty byte string of at most [2 ^ 32 - 1] bytes for which there is
    memory. *)
Definition text_ok (text : bytes) : Prop :=
  Forall is_u8 text ∧ text ≠ [] ∧ size text < 2 ^ 32 ∧
  alloc 4 = true ∧ alloc (size text) = true.

Instance Fixed : Algorithm := {
  alg_state := mapping;
  alg_init := no_mappings;
  alg_compress := HuffmanFixed.compress alloc;
  alg_decompress := HuffmanFixed.decompress alloc
}.

#[export] Program Instance FixedSpec : AlgorithmSpec Fixed := {
  alg_valid := HuffmanFixed.cache_ok;
  alg_domain := text_ok;
  alg_output c := size c - 4 < 2 ^ 32
}.
Next Obligation. by left. Qed.
Next Obligation.
  intros m text old Hm (Hb & Hne & Hsz & Ha4 & Ha).
  destruct (HuffmanFixed.fixed_inverse alloc m text old) as (m' & c & Hc & Hm' & Hle & Hd); [done..|].
  exists m', c. simpl. split_and!; [done|done| |done]. intros Hs.
  assert (H := Z.div_le_mono (255 * size text) (255 * 2 ^ 27) 8 ltac:(lia) ltac:(lia)).
  change (255 * 2 ^ 27 / 8) with 4278190080 in H. lia.
Qed.

Instance Generic : Algorithm := {
  alg_state := unit;
  alg_init := ();
  alg_compress _ text old :=
    match HuffmanGeneric.compress text old with
    | None => None
    | Some (e, c) => Some ((), e, c)
    end;
  alg_decompress := HuffmanGeneric.decompress alloc
}.

#[export] Program Instance GenericSpec : AlgorithmSpec Generic := {
  alg_valid _ := True;
  alg_domain := text_ok;
  alg_output c := size c - 260 < 2 ^ 32
}.
Next Obligation. done. Qed.
Next Obligation.
  intros [] text old _ (Hb & Hne & Hsz & Ha4 & Ha).
  destruct (HuffmanGeneric.generic_inverse alloc text old) as (c & Hc & Hle & Hd); [done..|].
  exists (), c. simpl. rewrite Hc. split_and!; [done|done| |done]. intros Hs.
  assert (H := Z.div_le_mono (255 * size text) (255 * 2 ^ 27) 8 ltac:(lia) ltac:(lia)).
  change (255 * 2 ^ 27 / 8) with 4278190080 in H. lia.
Qed.
End Instances.
