(* ===== verification/StdMap.v ===== *)
(** [std::map] and [std::string] keys.

    [std::map<K, V>] is modelled as the list of its entries in iteration order,
    strictly increasing in the key order, so that [for (auto & p : m)] visits
    the list from left to right and maps with the same content are equal.
    [KeyOrder] is the interface of the order; [std::string] (lexicographic on
    unsigned characters) and pairs implement it. *)

From S2P Require Import Prelude.
From stdpp Require Export sorting.
From Stdlib Require Export Ascii.

Local Open Scope Z_scope.

(** * Ordered keys *)

Class KeyOrder (K : Type) := {
  klt : K → K → bool;
  klt_irrefl k : klt k k = false;
  klt_trans k1 k2 k3 : klt k1 k2 = true → klt k2 k3 = true → klt k1 k3 = true;
  klt_total k1 k2 : klt k1 k2 = false → klt k2 k1 = false → k1 = k2
}.

Lemma klt_asym `{KeyOrder K} k1 k2 : klt k1 k2 = true → klt k2 k1 = false.
Proof.
  intros H12. destruct (klt k2 k1) eqn:H21; [|done].
  pose proof (klt_trans _ _ _ H12 H21) as Hr. by rewrite klt_irrefl in Hr.
Qed.

Lemma klt_ne `{KeyOrder K} k1 k2 : klt k1 k2 = true → k1 ≠ k2.
Proof. intros H12 ->. by rewrite klt_irrefl in H12. Qed.

Lemma key_cases `{KeyOrder K} (k1 k2 : K) : k1 = k2 ∨ k1 ≠ k2.
Proof.
  destruct (klt k1 k2) eqn:E1; [right; by apply klt_ne|].
  destruct (klt k2 k1) eqn:E2; [right; by apply not_eq_sym, klt_ne|].
  left. by apply klt_total.
Qed.

(** * Maps *)

Section Map.
Context `{KO : KeyOrder K} {V : Type}.
Notation smap := (list (K * V)).
Implicit Types m : smap.

(** [m.find(k)] *)
Fixpoint find (m : smap) (k : K) : option V :=
  match m with
  | [] => None
  | (k', v) :: m' => if klt k k' then None else if klt k' k then find m' k else Some v
  end.

(** [m[k] = v] *)
Fixpoint set (m : smap) (k : K) (v : V) : smap :=
  match m with
  | [] => [(k, v)]
  | (k', v') :: m' =>
      if klt k k' then (k, v) :: m
      else if klt k' k then (k', v') :: set m' k v
      else (k, v) :: m'
  end.

(** [m.erase(k)] *)
Fixpoint erase (m : smap) (k : K) : smap :=
  match m with
  | [] => []
  | (k', v') :: m' =>
      if klt k k' then m else if klt k' k then (k', v') :: erase m' k else m'
  end.

(** [m[k]] as a statement of its own: inserts [d] if there is no entry. *)
Definition touch (m : smap) (k : K) (d : V) : smap :=
  match find m k with Some _ => m | None => set m k d end.

(** [m[k]] as a value, after [touch]. *)
Definition get (m : smap) (k : K) (d : V) : V := default d (find m k).

(** The invariant: strictly increasing keys. *)
Definition key_lt (p q : K * V) : Prop := klt p.1 q.1 = true.
Definition sorted (m : smap) : Prop := StronglySorted key_lt m.

Lemma sorted_cons k v m :
  sorted ((k, v) :: m) ↔ sorted m ∧ Forall (λ p, klt k p.1 = true) m.
Proof.
  split; [intros H; by inversion H|]. intros [? ?]. by constructor.
Qed.

Lemma find_lt_None k m : Forall (λ p, klt k p.1 = true) m → find m k = None.
Proof. intros H. destruct m as [|[k' v] m]; [done|]. inversion H; simpl in *. by case_match. Qed.

Lemma find_gt_None k m : Forall (λ p, klt p.1 k = true) m → find m k = None.
Proof.
  induction 1 as [|[k' v] m Hk _ IH]; [done|]. simpl in *.
  by rewrite (klt_asym _ _ Hk), Hk.
Qed.

Lemma find_cons_eq k v m : find ((k, v) :: m) k = Some v.
Proof. simpl. by rewrite klt_irrefl. Qed.

Lemma find_cons_ne k k' v m :
  sorted ((k', v) :: m) → k ≠ k' → find ((k', v) :: m) k = find m k.
Proof.
  intros [Hs Hlt]%sorted_cons Hne. simpl. destruct (klt k k') eqn:E1.
  - symmetry. apply find_lt_None. eapply Forall_impl; [exact Hlt|]. simpl. intros p Hp.
    by eapply klt_trans.
  - destruct (klt k' k) eqn:E2; [done|]. by pose proof (klt_total _ _ E1 E2).
Qed.

(** [find] agrees with membership. *)
Lemma find_Some m k v : sorted m → (find m k = Some v ↔ (k, v) ∈ m).
Proof.
  induction m as [|[k' v'] m IH]; intros Hs.
  { simpl. split; [done|]. by intros ?%not_elem_of_nil. }
  pose proof Hs as [Hs' Hlt]%sorted_cons. rewrite elem_of_cons, <- (IH Hs').
  destruct (key_cases k k') as [->|Hne].
  - rewrite find_cons_eq, (find_lt_None k' m Hlt).
    split; [intros; simplify_eq; by left|]. by intros [?|?]; simplify_eq.
  - rewrite find_cons_ne by done. split; [by right|]. by intros [?|?]; simplify_eq.
Qed.

Lemma find_set_eq m k v : find (set m k v) k = Some v.
Proof.
  induction m as [|[k' v'] m IH]; simpl; [by rewrite klt_irrefl|].
  destruct (klt k k') eqn:E1; [by rewrite find_cons_eq|].
  destruct (klt k' k) eqn:E2; simpl; [by rewrite E1, E2|by rewrite klt_irrefl].
Qed.

Lemma find_set_ne m k k' v : k' ≠ k → find (set m k v) k' = find m k'.
Proof.
  intros Hne. induction m as [|[k1 v1] m IH]; simpl.
  { destruct (klt k' k) eqn:E1; [done|]. destruct (klt k k') eqn:E2; [done|].
    by pose proof (klt_total _ _ E1 E2). }
  destruct (klt k k1) eqn:E1; [|destruct (klt k1 k) eqn:E2]; simpl.
  - destruct (klt k' k) eqn:E3; [by rewrite (klt_trans _ _ _ E3 E1)|].
    destruct (klt k k') eqn:E4; [done|]. by pose proof (klt_total _ _ E3 E4).
  - by rewrite IH.
  - assert (k = k1) as -> by (by apply klt_total).
    destruct (klt k' k1) eqn:E3; [done|]. destruct (klt k1 k') eqn:E4; [done|].
    by pose proof (klt_total _ _ E3 E4).
Qed.

Lemma Forall_key_set (P : K → Prop) m k v :
  Forall (λ p, P p.1) m → P k → Forall (λ p, P p.1) (set m k v).
Proof.
  intros Hm Hk. induction Hm as [|[k' v'] m Hk' Hm IH]; simpl; [by repeat constructor|].
  destruct (klt k k'); [by repeat constructor|]. destruct (klt k' k); by constructor.
Qed.

Lemma sorted_set m k v : sorted m → sorted (set m k v).
Proof.
  induction m as [|[k' v'] m IH]; intros Hs; simpl; [by repeat constructor|].
  pose proof Hs as [Hs' Hlt]%sorted_cons.
  destruct (klt k k') eqn:E1; [|destruct (klt k' k) eqn:E2].
  - apply sorted_cons. split; [done|]. constructor; [done|].
    eapply Forall_impl; [exact Hlt|]. simpl. intros p Hp. by eapply klt_trans.
  - apply sorted_cons. split; [by apply IH|]. by apply (Forall_key_set (λ x, klt k' x = true)).
  - assert (k = k') as -> by (by apply klt_total). by apply sorted_cons.
Qed.

Lemma Forall_erase (P : K * V → Prop) m k : Forall P m → Forall P (erase m k).
Proof.
  induction 1 as [|[k' v'] m Hk' Hm IH]; simpl; [done|].
  destruct (klt k k'); [by constructor|]. destruct (klt k' k); [by constructor|done].
Qed.

Lemma sorted_erase m k : sorted m → sorted (erase m k).
Proof.
  induction m as [|[k' v'] m IH]; intros Hs; [done|]. simpl.
  pose proof Hs as [Hs' Hlt]%sorted_cons. destruct (klt k k'); [done|].
  destruct (klt k' k); [|done]. apply sorted_cons. split; [by apply IH|by apply Forall_erase].
Qed.

Lemma find_erase_eq m k : sorted m → find (erase m k) k = None.
Proof.
  induction m as [|[k' v'] m IH]; intros Hs; [done|]. simpl.
  pose proof Hs as [Hs' Hlt]%sorted_cons.
  destruct (klt k k') eqn:E1; [|destruct (klt k' k) eqn:E2].
  - simpl. by rewrite E1.
  - simpl. rewrite E1, E2. by apply IH.
  - assert (k = k') as -> by (by apply klt_total). by apply find_lt_None.
Qed.

Lemma find_erase_ne m k k' : sorted m → k' ≠ k → find (erase m k) k' = find m k'.
Proof.
  intros Hs Hne. induction m as [|[k1 v1] m IH]; [done|].
  pose proof Hs as [Hs' Hlt]%sorted_cons. simpl erase.
  destruct (klt k k1) eqn:E1; [done|]. destruct (klt k1 k) eqn:E2.
  - simpl. by rewrite (IH Hs').
  - assert (k = k1) as -> by (by apply klt_total). by rewrite find_cons_ne.
Qed.

Lemma set_set m k v w : set (set m k v) k w = set m k w.
Proof.
  induction m as [|[k' v'] m IH]; simpl; [by rewrite klt_irrefl|].
  destruct (klt k k') eqn:E1; [by simpl; rewrite klt_irrefl|].
  destruct (klt k' k) eqn:E2; simpl; [by rewrite E1, E2, IH|by rewrite klt_irrefl].
Qed.

Lemma erase_set_same m k v : sorted m → erase (set m k v) k = erase m k.
Proof.
  induction m as [|[k' v'] m IH]; intros Hs; simpl; [by rewrite klt_irrefl|].
  pose proof Hs as [Hs' _]%sorted_cons.
  destruct (klt k k') eqn:E1; [by simpl; rewrite klt_irrefl|].
  destruct (klt k' k) eqn:E2; simpl; [by rewrite E1, E2, IH|by rewrite klt_irrefl].
Qed.

Lemma erase_set m k v : find m k = None → erase (set m k v) k = m.
Proof.
  induction m as [|[k' v'] m IH]; simpl; [by rewrite klt_irrefl|].
  destruct (klt k k') eqn:E1; [by intros _; simpl; rewrite klt_irrefl|].
  destruct (klt k' k) eqn:E2; intros Hf; [|done]. simpl. by rewrite E1, E2, IH.
Qed.

Lemma set_same m k v : find m k = Some v → set m k v = m.
Proof.
  induction m as [|[k' v'] m IH]; simpl; [done|].
  destruct (klt k k') eqn:E1; [done|]. destruct (klt k' k) eqn:E2; intros Hf.
  - by rewrite IH.
  - by rewrite (klt_total _ _ E1 E2); simplify_eq.
Qed.

Lemma get_set_eq m k v d : get (set m k v) k d = v.
Proof. unfold get. by rewrite find_set_eq. Qed.

Lemma get_set_ne m k k' v d : k' ≠ k → get (set m k v) k' d = get m k' d.
Proof. intros. unfold get. by rewrite find_set_ne. Qed.

Lemma touch_same m k d v : find m k = Some v → touch m k d = m.
Proof. unfold touch. by intros ->. Qed.

Lemma find_touch_eq m k d : find (touch m k d) k = Some (get m k d).
Proof. unfold touch, get. destruct (find m k) eqn:E; [done|]. by rewrite find_set_eq. Qed.

Lemma find_touch_ne m k k' d : k' ≠ k → find (touch m k d) k' = find m k'.
Proof. intros. unfold touch. destruct (find m k); [done|]. by rewrite find_set_ne. Qed.

Lemma get_erase m k k' d : sorted m → k' ≠ k → get (erase m k) k' d = get m k' d.
Proof. intros. unfold get. by rewrite find_erase_ne. Qed.

Lemma get_erase_eq m k d : sorted m → get (erase m k) k d = d.
Proof. intros. unfold get. by rewrite find_erase_eq. Qed.

Lemma get_touch m k k' d : get (touch m k d) k' d = get m k' d.
Proof.
  destruct (key_cases k' k) as [->|Hne]; unfold get; [by rewrite find_touch_eq|].
  by rewrite find_touch_ne.
Qed.

Lemma set_touch m k d v : set (touch m k d) k v = set m k v.
Proof. unfold touch. destruct (find m k); [done|apply set_set]. Qed.

Lemma sorted_touch m k d : sorted m → sorted (touch m k d).
Proof. intros. unfold touch. destruct (find m k); [done|by apply sorted_set]. Qed.

(** A key above all the others is appended. *)
Lemma set_append m k v : Forall (λ p, klt p.1 k = true) m → set m k v = m ++ [(k, v)].
Proof.
  induction 1 as [|[k' v'] m Hk _ IH]; [done|]. simpl in *.
  by rewrite (klt_asym _ _ Hk), Hk, IH.
Qed.

(** A new key is inserted somewhere. *)
Lemma set_perm m k v : find m k = None → set m k v ≡ₚ (k, v) :: m.
Proof.
  induction m as [|[k' v'] m IH]; simpl; intros Hf; [done|].
  destruct (klt k k') eqn:E1; [done|]. destruct (klt k' k) eqn:E2; [|done].
  rewrite IH by done. apply Permutation_swap.
Qed.

(** Sorted maps with the same content are equal. *)
Lemma sorted_perm_eq m1 m2 : sorted m1 → sorted m2 → m1 ≡ₚ m2 → m1 = m2.
Proof.
  intros H1 H2 Hp. eapply StronglySorted_unique_strong; [|exact H1|exact H2|exact Hp].
  unfold key_lt. intros p q _ _ Hpq Hqp. by rewrite (klt_asym _ _ Hpq) in Hqp.
Qed.

End Map.

Arguments sorted {K KO V} m.
#[export] Hint Resolve sorted_set sorted_erase sorted_touch : clock.
#[export] Hint Rewrite @find_set_eq @get_set_eq @find_touch_eq @get_touch @set_touch @set_set
  : stdmap.
#[export] Hint Rewrite @find_set_ne @get_set_ne @find_touch_ne using done : stdmap.

(** * [std::string] *)

(** A [std::string] of text is the list of its characters. *)
Notation str := (list ascii).

(** A string literal of the source. *)
Definition lit (s : string) : str := Stdlib.Strings.String.list_ascii_of_string s.

(** [char_traits<char>::lt] compares as [unsigned char]. *)
Definition char_lt (a b : ascii) : bool := (N_of_ascii a <? N_of_ascii b)%N.

(** [operator<] of [std::string]. *)
Fixpoint str_lt (s t : str) : bool :=
  match s, t with
  | [], [] => false
  | [], _ :: _ => true
  | _ :: _, [] => false
  | a :: s', b :: t' =>
      if char_lt a b then true else if char_lt b a then false else str_lt s' t'
  end.

Lemma char_lt_total a b : char_lt a b = false → char_lt b a = false → a = b.
Proof.
  unfold char_lt. rewrite !N.ltb_ge. intros H1 H2.
  rewrite <- (ascii_N_embedding a), <- (ascii_N_embedding b). f_equal. lia.
Qed.

Lemma char_lt_irrefl a : char_lt a a = false.
Proof. unfold char_lt. apply N.ltb_ge. lia. Qed.

Lemma char_lt_trans a b c : char_lt a b = true → char_lt b c = true → char_lt a c = true.
Proof. unfold char_lt. rewrite !N.ltb_lt. lia. Qed.

#[export] Program Instance str_order : KeyOrder str := { klt := str_lt }.
Next Obligation.
  intros s. induction s as [|a s IH]; [done|]. simpl. by rewrite char_lt_irrefl.
Qed.
Next Obligation.
  intros s. induction s as [|a s IH]; intros [|b t] [|c u] H1 H2; simpl in *; try done.
  destruct (char_lt a b) eqn:Eab.
  - destruct (char_lt b c) eqn:Ebc; [by rewrite (char_lt_trans _ _ _ Eab Ebc)|].
    destruct (char_lt c b) eqn:Ecb; [done|].
    by rewrite <- (char_lt_total _ _ Ebc Ecb), Eab.
  - destruct (char_lt b a) eqn:Eba; [done|].
    rewrite (char_lt_total _ _ Eab Eba). destruct (char_lt b c); [done|].
    destruct (char_lt c b); [done|]. by eapply IH.
Qed.
Next Obligation.
  intros s. induction s as [|a s IH]; intros [|b t] H1 H2; simpl in *; try done.
  destruct (char_lt a b) eqn:Eab; [done|]. destruct (char_lt b a) eqn:Eba; [done|].
  f_equal; [by apply char_lt_total|by apply IH].
Qed.

(** [operator<] of [std::pair]. *)
Definition pair_lt `{KeyOrder A} `{KeyOrder B} (p q : A * B) : bool :=
  if klt p.1 q.1 then true else if klt q.1 p.1 then false else klt p.2 q.2.

#[export] Program Instance pair_order `{KeyOrder A} `{KeyOrder B} : KeyOrder (A * B) :=
  { klt := pair_lt }.
Next Obligation. intros A ? B ? [a b]. unfold pair_lt; simpl. by rewrite !klt_irrefl. Qed.
Next Obligation.
  intros A ? B ? [a1 b1] [a2 b2] [a3 b3]. unfold pair_lt; simpl. intros H1 H2.
  destruct (klt a1 a2) eqn:E12.
  - destruct (klt a2 a3) eqn:E23; [by rewrite (klt_trans _ _ _ E12 E23)|].
    destruct (klt a3 a2) eqn:E32; [done|]. by rewrite <- (klt_total _ _ E23 E32), E12.
  - destruct (klt a2 a1) eqn:E21; [done|]. rewrite (klt_total _ _ E12 E21).
    destruct (klt a2 a3); [done|]. destruct (klt a3 a2); [done|]. by eapply klt_trans.
Qed.
Next Obligation.
  intros A ? B ? [a1 b1] [a2 b2]. unfold pair_lt; simpl. intros H1 H2.
  destruct (klt a1 a2) eqn:E12; [done|]. destruct (klt a2 a1) eqn:E21; [done|].
  f_equal; by apply klt_total.
Qed.

(** Integer keys. *)
#[export] Program Instance Z_order : KeyOrder Z := { klt := Z.ltb }.
Next Obligation. intros; lia. Qed.
Next Obligation. intros; lia. Qed.
Next Obligation. intros; lia. Qed.
