(* ===== verification/Streams.v ===== *)
(** The part of [std::stringstream] that the libraries use on user values.

    [Streamable T] is the interface of a type with [operator>>] and
    [operator<<]: the extraction returns the new value and the state of the
    stream ([fail()] and [eof()]), the insertion the characters written.
    [StreamableSpec] is the round trip a type may promise.  The instances are
    the integer types in the classic locale, in base ten. *)

From S2P Require Import Prelude StdMap.

Local Open Scope Z_scope.

(** * The interface *)

Record stream_state : Type := { failed : bool; ateof : bool }.

Class Streamable (T : Type) := {
  extract : str → T → T * stream_state;
  insert_text : T → str
}.

(** Reading back what was written gives the value and exhausts the stream. *)
Class StreamableSpec (T : Type) {S : Streamable T} := {
  stream_ok : T → Prop;
  extract_insert x old :
    stream_ok x → extract (insert_text x) old = (x, {| failed := false; ateof := true |})
}.

(** [(ss >> value).fail() || !ss.eof()] *)
Definition bad_extract (s : stream_state) : bool := failed s || negb (ateof s).

(** * Integers *)

(** [isspace] in the classic locale. *)
Definition is_space (c : ascii) : bool :=
  let n := N_of_ascii c in ((9 <=? n) && (n <=? 13) || (n =? 32))%N.

Definition is_digit (c : ascii) : bool :=
  let n := N_of_ascii c in ((48 <=? n) && (n <=? 57))%N.

Definition digit_value (c : ascii) : Z := Z.of_N (N_of_ascii c) - 48.
Definition digit_char (d : Z) : ascii := ascii_of_N (Z.to_N (d + 48)).

Fixpoint skip_ws (s : str) : str :=
  match s with
  | [] => []
  | c :: s' => if is_space c then skip_ws s' else s
  end.

(** The longest prefix of digits and the rest. *)
Fixpoint span_digits (s : str) : str * str :=
  match s with
  | [] => ([], [])
  | c :: s' =>
      if is_digit c then let '(d, r) := span_digits s' in (c :: d, r) else ([], s)
  end.

Definition digits_value (d : str) : Z := foldl (λ n c, 10 * n + digit_value c) 0 d.

(** [num_get] on an integer type with values from [lo] to [hi]: no digits
    store zero, an overflow the nearest bound, both with [failbit]; an empty
    field leaves the value. *)
Definition extract_int (lo hi : Z) (s : str) (old : Z) : Z * stream_state :=
  match skip_ws s with
  | [] => (old, {| failed := true; ateof := true |})
  | c :: s' =>
      let neg := (c =? "-")%char in
      let '(d, r) := span_digits (if (neg || (c =? "+")%char)%bool then s' else c :: s') in
      let eof := match r with [] => true | _ => false end in
      match d with
      | [] => (0, {| failed := true; ateof := eof |})
      | _ =>
          let v := if neg then - digits_value d else digits_value d in
          if v >? hi then (hi, {| failed := true; ateof := eof |})
          else if v <? lo then (lo, {| failed := true; ateof := eof |})
          else (v, {| failed := false; ateof := eof |})
      end
  end.

(** Decimal digits of [n >= 0], most significant first; [fuel] digits are
    enough for [n < 10 ^ fuel]. *)
Fixpoint dec_digits (fuel : nat) (n : Z) : str :=
  match fuel with
  | O => []
  | S fuel' =>
      if n <? 10 then [digit_char n]
      else dec_digits fuel' (n / 10) ++ [digit_char (n mod 10)]
  end.

(** [operator<<] on an integer of at most 64 bits. *)
Definition print_int (z : Z) : str :=
  if z <? 0 then "-"%char :: dec_digits 20 (- z) else dec_digits 20 z.

(** [int] and [unsigned int] of 32 bits. *)
Definition int32 : Type := Z.
Definition uint32 : Type := Z.

#[export] Instance int32_streamable : Streamable int32 := {
  extract := extract_int (- 2 ^ 31) (2 ^ 31 - 1);
  insert_text := print_int
}.

(** * Round trip *)

Lemma digit_char_spec d :
  0 <= d < 10 → is_digit (digit_char d) = true ∧ digit_value (digit_char d) = d ∧
                is_space (digit_char d) = false ∧
                (digit_char d =? "-")%char = false ∧ (digit_char d =? "+")%char = false.
Proof.
  intros Hd. assert (H : d = 0 ∨ d = 1 ∨ d = 2 ∨ d = 3 ∨ d = 4 ∨ d = 5 ∨ d = 6 ∨ d = 7 ∨ d = 8 ∨ d = 9)
    by lia.
  by destruct H as [->|[->|[->|[->|[->|[->|[->|[->|[-> | ->]]]]]]]]].
Qed.

Lemma span_digits_all s : Forall (λ c, is_digit c = true) s → span_digits s = (s, []).
Proof. induction 1 as [|c s Hc _ IH]; [done|]. simpl. by rewrite Hc, IH. Qed.

Lemma dec_digits_spec fuel n :
  0 <= n < 10 ^ Z.of_nat fuel → (0 < fuel)%nat →
  Forall (λ c, is_digit c = true) (dec_digits fuel n) ∧ digits_value (dec_digits fuel n) = n ∧
  ∃ d s, 0 <= d < 10 ∧ dec_digits fuel n = digit_char d :: s.
Proof.
  revert n. induction fuel as [|fuel IH]; intros n Hn Hf; [lia|]. cbn [dec_digits].
  destruct (n <? 10) eqn:E; bool_to_prop.
  { destruct (digit_char_spec n) as (Hd & Hv & _); [lia|].
    split_and!; [by constructor|unfold digits_value; simpl; lia|]. exists n, []. split; [lia|done]. }
  rewrite Nat2Z.inj_succ, Z.pow_succ_r in Hn by lia.
  assert (Hq : 0 <= n / 10 < 10 ^ Z.of_nat fuel).
  { split; [apply Z.div_pos; lia|]. apply Z.div_lt_upper_bound; lia. }
  assert (Hr := Z.mod_pos_bound n 10 ltac:(lia)).
  assert (0 < fuel)%nat.
  { destruct fuel; [|lia]. simpl in Hq. pose proof (Z.div_le_lower_bound n 10 1). lia. }
  destruct (IH (n / 10) Hq) as (H1 & H2 & d & s & Hd & H3); [done|].
  destruct (digit_char_spec (n mod 10) Hr) as (Hd1 & Hv & _).
  split_and!.
  - apply Forall_app. by repeat constructor.
  - unfold digits_value in *. rewrite foldl_app, H2. simpl. rewrite Hv.
    pose proof (Z.div_mod n 10). lia.
  - exists d, (s ++ [digit_char (n mod 10)]). by rewrite H3.
Qed.

Lemma extract_print lo hi z old :
  lo <= z <= hi → Z.abs z < 10 ^ 20 →
  extract_int lo hi (print_int z) old = (z, {| failed := false; ateof := true |}).
Proof.
  intros Hz Habs. unfold print_int.
  assert (H20 : Z.of_nat 20 = 20) by done. set (fuel := 20%nat) in *.
  assert (Hf : (0 < fuel)%nat) by (unfold fuel; lia). clearbody fuel.
  destruct (z <? 0) eqn:E; bool_to_prop.
  - destruct (dec_digits_spec fuel (- z)) as (H1 & H2 & d & s & Hd & H3);
      [rewrite H20; lia|done|].
    unfold extract_int. change (skip_ws ("-"%char :: ?l)) with ("-"%char :: l). cbv iota beta.
    change (("-" =? "-")%char) with true. cbn [orb]. rewrite span_digits_all, H2 by done.
    rewrite H3, Z.opp_involutive. replace (z >? hi) with false by lia.
    by replace (z <? lo) with false by lia.
  - destruct (dec_digits_spec fuel z) as (H1 & H2 & d & s & Hd & H3); [rewrite H20; lia|done|].
    destruct (digit_char_spec d Hd) as (_ & _ & Hsp & Hm & Hp). unfold extract_int.
    rewrite H3 in *. cbn [skip_ws]. rewrite Hsp, Hm, Hp. cbn [orb].
    rewrite span_digits_all, H2 by done.
    replace (z >? hi) with false by lia. by replace (z <? lo) with false by lia.
Qed.

#[export] Program Instance int32_stream_spec : StreamableSpec int32 := {
  stream_ok z := - 2 ^ 31 <= z <= 2 ^ 31 - 1
}.
Next Obligation. intros x old Hx. unfold int32 in x. cbv beta in Hx. apply extract_print; lia. Qed.
