(* ===== verification/IniParser.v ===== *)
(** [IniParser]: [include/clockUtils/iniParser/iniParser.h] and
    [libs/iniParser/src/iniParser.cpp].

    A parser keeps, per section, the lines of the file ([_allLines]) and the
    entries found in them ([_data]), an entry knowing the index of its line.
    The content of a file is a character list; an operation that would read
    outside of a vector is [None].

    Loading a file and saving it writes the sections in key order, so the text
    is kept exactly when the file has its sections in that order; setting a
    value is seen by [getValue] and survives saving and loading. *)

From S2P Require Import Prelude StdMap Streams.

Local Open Scope Z_scope.

(** * Model *)

(** The tuples of [_data]; the projections are named after [enum Fields]. *)
Record entry : Type := Entry {
  SECTION : str;
  FIELD : str;
  INDEX : nat;
  VALUE : str
}.

Record IniParser : Type := Ini {
  _data : list (str * list entry);
  _allLines : list (str * list str)
}.

(** The constructor. *)
Definition IniParser_new : IniParser := {| _data := []; _allLines := [] |}.

Definition newline : ascii := "010"%char.

(** [m[k].push_back(x)] *)
Definition push_back {A} (m : list (str * list A)) (k : str) (x : A) : list (str * list A) :=
  set m k (get m k [] ++ [x]).

(** The lines that [while (fs.good()) getline(fs, line)] reads: the pieces
    between the line ends, the last one possibly empty. *)
Fixpoint read_lines (s : str) : list str :=
  match s with
  | [] => [[]]
  | c :: s' =>
      if (c =? newline)%char then [] :: read_lines s'
      else match read_lines s' with
           | l :: ls => (c :: l) :: ls
           | [] => [[c]]
           end
  end.

(** [line.find("=")] *)
Fixpoint find_char (c : ascii) (s : str) : option nat :=
  match s with
  | [] => None
  | a :: s' => if (a =? c)%char then Some 0%nat else S <$> find_char c s'
  end.

Definition str_eqb (s t : str) : bool := bool_decide (s = t).

(** [line.empty() || line.length() == 1 || line.at(0) == ';'] *)
Definition no_entry (line : str) : bool :=
  match line with
  | [] => true
  | [_] => true
  | c :: _ => (c =? ";")%char
  end.

Definition starts_section (line : str) : bool :=
  match line with c :: _ => (c =? "[")%char | [] => false end.

Definition ends_section (line : str) : bool :=
  match last line with Some c => (c =? "]")%char | None => false end.

(** One iteration of the loop of [load]: an error with the state it leaves, or
    the current section and the state. *)
Definition load_line (currentSection line : str) (st : IniParser)
    : (ClockError * IniParser) + (str * IniParser) :=
  if no_entry line then
    inr (currentSection,
         {| _data := _data st; _allLines := push_back (_allLines st) currentSection line |})
  else if starts_section line then
    if negb (ends_section line) then inl (WRONG_SYNTAX, st)
    else
      let currentSection := take (length line - 2) (drop 1 line) in
      match find (_allLines st) currentSection with
      | Some _ => inl (WRONG_SYNTAX, st)
      | None =>
          inr (currentSection,
               {| _data := _data st; _allLines := push_back (_allLines st) currentSection line |})
      end
  else
    match find_char "="%char line with
    | None => inl (WRONG_SYNTAX, st)
    | Some n =>
        let key := take n line in
        let data := touch (_data st) currentSection [] in
        if existsb (λ t, str_eqb (FIELD t) key) (get data currentSection []) then
          inl (WRONG_SYNTAX, {| _data := data; _allLines := _allLines st |})
        else
          let t := {| SECTION := currentSection; FIELD := key;
                      INDEX := length (get (_allLines st) currentSection []);
                      VALUE := take (length line - n - 1) (drop (n + 1) line) |} in
          inr (currentSection,
               {| _data := push_back data currentSection t;
                  _allLines := push_back (_allLines st) currentSection line |})
    end.

Fixpoint load_lines (currentSection : str) (lines : list str) (st : IniParser)
    : ClockError * IniParser :=
  match lines with
  | [] => (SUCCESS, st)
  | line :: lines' =>
      match load_line currentSection line st with
      | inl err => err
      | inr (currentSection, st) => load_lines currentSection lines' st
      end
  end.

Definition global : str := lit "global".

(** [load]; the argument is the content of the file, [None] if it cannot be
    opened. *)
Definition load (file : option str) (st : IniParser) : ClockError * IniParser :=
  match file with
  | None => (FILENOTFOUND, st)
  | Some content =>
      load_lines global (read_lines content)
        {| _data := touch [] global []; _allLines := touch [] global [] |}
  end.

(** The inner loop of [save], from line [i] and entry [nextEntry] on. *)
Fixpoint save_section (data : list entry) (i nextEntry : nat) (lines : list str) : str :=
  match lines with
  | [] => []
  | line :: lines' =>
      match data !! nextEntry with
      | Some t =>
          if (i =? INDEX t)%nat then
            (FIELD t ++ "="%char :: VALUE t ++ [newline])
              ++ save_section data (S i) (S nextEntry) lines'
          else (line ++ [newline]) ++ save_section data (S i) nextEntry lines'
      | None => (line ++ [newline]) ++ save_section data (S i) nextEntry lines'
      end
  end.

(** The state bits of the [std::fstream] after [open(file, out)]. *)
Record open_state : Type := { failbit : bool; badbit : bool }.
Definition open_out (writable : bool) : open_state :=
  {| failbit := negb writable; badbit := false |}.

(** [save]: the error, what the file holds afterwards ([None] if nothing could
    be written), and the state, in which [_data[p.first]] has added empty
    entries for the sections it looked up. *)
Definition save (writable : bool) (st : IniParser) : ClockError * option str * IniParser :=
  let fs := open_out writable in
  if badbit fs then (FILENOTFOUND, None, st)
  else
    let ss := mjoin ((λ p, save_section (get (_data st) p.1 []) 0 0 p.2) <$> _allLines st) in
    let data :=
      foldl (λ d p, match p.2 with [] => d | _ => touch d p.1 [] end)
            (_data st) (_allLines st) in
    (SUCCESS,
     if failbit fs then None else Some (take (length ss - 1) ss),
     {| _data := data; _allLines := _allLines st |}).

(** The loops [for (t : it->second) if (SECTION == section && FIELD == field)]. *)
Fixpoint find_entry (section field : str) (l : list entry) : option entry :=
  match l with
  | [] => None
  | t :: l' =>
      if str_eqb (SECTION t) section && str_eqb (FIELD t) field then Some t
      else find_entry section field l'
  end.

(** [getValue<std::string>]: the error and the new value. *)
Definition getValue_string (section field : str) (st : IniParser) : ClockError * str :=
  match find (_data st) section with
  | None => (VALUE_NOTFOUND, [])
  | Some l =>
      match find_entry section field l with
      | Some t => (SUCCESS, VALUE t)
      | None => (VALUE_NOTFOUND, [])
      end
  end.

(** [getValue<T>] for a streamable type that is not an enumeration. *)
Definition getValue {T} `{Streamable T} (section field : str) (value : T) (st : IniParser)
    : ClockError * T :=
  match find (_data st) section with
  | None => (VALUE_NOTFOUND, value)
  | Some l =>
      match find_entry section field l with
      | Some t =>
          let '(v, s) := extract (VALUE t) value in
          (if bad_extract s then WRONG_TYPE else SUCCESS, v)
      | None => (VALUE_NOTFOUND, value)
      end
  end.

(** [getValue<T>] for an enumeration, [T(v)] being [of_int]; the local [int v]
    starts uninitialised with some value [junk]. *)
Definition getValue_enum {T} (of_int : Z → T) (junk : Z) (section field : str) (value : T)
    (st : IniParser) : ClockError * T :=
  match find (_data st) section with
  | None => (VALUE_NOTFOUND, value)
  | Some l =>
      match find_entry section field l with
      | Some t =>
          let '(v, s) := extract (T := int32) (VALUE t) junk in
          if bad_extract s then (WRONG_TYPE, value) else (SUCCESS, of_int v)
      | None => (VALUE_NOTFOUND, value)
      end
  end.

(** The assignment in the loop of [setValue]; [None] if no entry matches. *)
Fixpoint assign_value (section field value : str) (l : list entry) : option (list entry) :=
  match l with
  | [] => None
  | t :: l' =>
      if str_eqb (SECTION t) section && str_eqb (FIELD t) field then
        Some ({| SECTION := SECTION t; FIELD := FIELD t; INDEX := INDEX t; VALUE := value |} :: l')
      else cons t <$> assign_value section field value l'
  end.

(** [setValue(const std::string &, const std::string &, const std::string &)];
    [None] is [back()] on an empty vector. *)
Definition setValue_string (section field value : str) (st : IniParser) : option IniParser :=
  match find (_data st) section with
  | None =>
      let lines := push_back (_allLines st) section ("["%char :: section ++ ["]"%char]) in
      Some {| _data := push_back (_data st) section
                         {| SECTION := section; FIELD := field; INDEX := 1; VALUE := value |};
              _allLines := push_back lines section [] |}
  | Some l =>
      match assign_value section field value l with
      | Some l' => Some {| _data := set (_data st) section l'; _allLines := _allLines st |}
      | None =>
          let lines := touch (_allLines st) section [] in
          let n := length (get lines section []) in
          match last (get lines section []) with
          | None => None
          | Some back =>
              let insert i :=
                Some {| _data := push_back (_data st) section
                          {| SECTION := section; FIELD := field; INDEX := i; VALUE := value |};
                        _allLines := push_back lines section [] |} in
              if str_eqb back [] then
                match last l with
                | None => None
                | Some t => if negb (INDEX t =? n - 1)%nat then insert (n - 1)%nat else insert n
                end
              else insert n
          end
      end
  end.

(** [setValue<T>], for a streamable type and for an enumeration. *)
Definition setValue {T} `{Streamable T} (section field : str) (value : T) (st : IniParser)
    : option IniParser := setValue_string section field (insert_text value) st.

Definition setValue_enum {T} (to_int : T → Z) (section field : str) (value : T)
    (st : IniParser) : option IniParser :=
  setValue_string section field (insert_text (T := int32) (to_int value)) st.

Definition getAllSections (st : IniParser) : list str := (_allLines st).*1.

Definition getAllEntries (section : str) (st : IniParser) : list str :=
  match find (_data st) section with
  | None => []
  | Some l => FIELD <$> l
  end.

(** The position of the entry that [removeEntry] finds. *)
Fixpoint entry_position (section field : str) (l : list entry) : option nat :=
  match l with
  | [] => None
  | t :: l' =>
      if str_eqb (SECTION t) section && str_eqb (FIELD t) field then Some 0%nat
      else S <$> entry_position section field l'
  end.

(** [removeEntry]; [None] is [erase] at or after the end of the vector. *)
Definition removeEntry (section field : str) (st : IniParser) : option IniParser :=
  let data := touch (_data st) section [] in
  let l := get data section [] in
  let removed :=
    match entry_position section field l with
    | None => Some {| _data := data; _allLines := _allLines st |}
    | Some k =>
        let lines := touch (_allLines st) section [] in
        let ls := get lines section [] in
        match l !! k with
        | None => None
        | Some t =>
            if (INDEX t <? length ls)%nat then
              Some {| _data := set data section (delete k l);
                      _allLines := set lines section (delete (INDEX t) ls) |}
            else None
        end
    end in
  match removed with
  | None => None
  | Some st =>
      match get (_data st) section [] with
      | [] => Some {| _data := erase (_data st) section; _allLines := erase (_allLines st) section |}
      | _ => Some st
      end
  end.

(** * Setting and getting values *)

Lemma str_eqb_eq s t : str_eqb s t = true ↔ s = t.
Proof. apply bool_decide_eq_true. Qed.

Lemma str_eqb_refl s : str_eqb s s = true.
Proof. by apply str_eqb_eq. Qed.

Lemma str_eqb_ne s t : s ≠ t → str_eqb s t = false.
Proof. intros. by apply bool_decide_eq_false. Qed.

(** [getValue] only looks at the entries of the section. *)
Lemma getValue_string_get section field st :
  getValue_string section field st =
  match find_entry section field (get (_data st) section []) with
  | Some t => (SUCCESS, VALUE t)
  | None => (VALUE_NOTFOUND, [])
  end.
Proof. unfold getValue_string, get. by destruct (find (_data st) section). Qed.

Lemma getValue_get {T} `{Streamable T} section field value st :
  getValue section field value st =
  match find_entry section field (get (_data st) section []) with
  | Some t =>
      let '(v, s) := extract (VALUE t) value in
      (if bad_extract s then WRONG_TYPE else SUCCESS, v)
  | None => (VALUE_NOTFOUND, value)
  end.
Proof. unfold getValue, get. by destruct (find (_data st) section). Qed.

Lemma find_entry_app section field l t :
  find_entry section field l = None →
  find_entry section field (l ++ [t]) =
  if str_eqb (SECTION t) section && str_eqb (FIELD t) field then Some t else None.
Proof.
  induction l as [|u l IH]; simpl; [done|]. intros H. by case_match; [|apply IH].
Qed.

Lemma assign_value_None section field value l :
  assign_value section field value l = None ↔ find_entry section field l = None.
Proof.
  induction l as [|t l IH]; simpl; [done|]. case_match; [done|].
  by rewrite fmap_None.
Qed.

Lemma assign_value_entry section field value l l' :
  assign_value section field value l = Some l' →
  ∃ t, find_entry section field l' = Some t ∧ VALUE t = value.
Proof.
  revert l'. induction l as [|t l IH]; simpl; intros l' Hl; [done|].
  destruct (str_eqb (SECTION t) section && _) eqn:E.
  - simplify_eq. simpl. rewrite E. by eexists.
  - apply fmap_Some in Hl as (l1 & Hl1 & ->). simpl. rewrite E. by apply IH.
Qed.

Lemma assign_value_other section field value l l' field' :
  field' ≠ field → assign_value section field value l = Some l' →
  find_entry section field' l' = find_entry section field' l.
Proof.
  intros Hne. revert l'. induction l as [|t l IH]; simpl; intros l' Hl; [done|].
  destruct (str_eqb (SECTION t) section) eqn:E1, (str_eqb (FIELD t) field) eqn:E2;
    simpl in Hl; simplify_eq; simpl; rewrite ?E1.
  - apply str_eqb_eq in E2. by rewrite str_eqb_ne by congruence.
  - apply fmap_Some in Hl as (l1 & Hl1 & ->). simpl. by rewrite E1, (IH _ Hl1).
  - apply fmap_Some in Hl as (l1 & Hl1 & ->). simpl. by rewrite E1, (IH _ Hl1).
  - apply fmap_Some in Hl as (l1 & Hl1 & ->). simpl. by rewrite E1, (IH _ Hl1).
Qed.

(** What [setValue] does to the entries: it assigns or appends. *)
Lemma setValue_string_data section field value st st' :
  setValue_string section field value st = Some st' →
  (∃ l', assign_value section field value (get (_data st) section []) = Some l' ∧
         _data st' = set (_data st) section l' ∧ _allLines st' = _allLines st) ∨
  (find_entry section field (get (_data st) section []) = None ∧
   ∃ i, _data st' = push_back (_data st) section
                      {| SECTION := section; FIELD := field; INDEX := i; VALUE := value |}).
Proof.
  unfold setValue_string, get. destruct (find (_data st) section) as [l|]; simpl; intros H.
  - destruct (assign_value section field value l) as [l'|] eqn:Ea.
    + simplify_eq. left. by exists l'.
    + apply assign_value_None in Ea. right. split; [done|].
      repeat case_match; simplify_eq; by eexists.
  - simplify_eq. right. split; [done|]. by eexists.
Qed.

Lemma setValue_string_finds section field value st st' :
  setValue_string section field value st = Some st' →
  ∃ t, find_entry section field (get (_data st') section []) = Some t ∧ VALUE t = value.
Proof.
  intros [(l' & Ha & -> & _)|(Hn & i & ->)]%setValue_string_data.
  - rewrite get_set_eq. by eapply assign_value_entry.
  - unfold push_back. rewrite get_set_eq, find_entry_app by done. simpl.
    rewrite !str_eqb_refl. by eexists.
Qed.

(** After [setValue] the string version of [getValue] finds the field with
    the new value, in every state. *)
Theorem setValue_getValue section field value st st' :
  setValue_string section field value st = Some st' →
  getValue_string section field st' = (SUCCESS, value).
Proof.
  intros (t & Ht & Hv)%setValue_string_finds.
  by rewrite getValue_string_get, Ht, Hv.
Qed.

(** C38: for a type whose insertion and extraction round-trip (the integers are
    an instance), [setValue<T>] followed by [getValue<T>] succeeds with the
    same value. *)
Theorem setValue_getValue_typed {T} `{StreamableSpec T} section field (value old : T) st st' :
  stream_ok value → setValue section field value st = Some st' →
  getValue section field old st' = (SUCCESS, value).
Proof.
  intros Hok (t & Ht & Hv)%setValue_string_finds.
  rewrite getValue_get, Ht, Hv, extract_insert by done. done.
Qed.

(** [setValue] leaves the value of every other field, of the same or of
    another section, as it was, also when that field does not exist. *)
Theorem setValue_other section field value st st' section' field' :
  setValue_string section field value st = Some st' →
  (section', field') ≠ (section, field) →
  getValue_string section' field' st' = getValue_string section' field' st.
Proof.
  intros Hst Hne. rewrite !getValue_string_get.
  destruct (decide (section' = section)) as [->|Hs].
  - assert (Hf : field' ≠ field) by congruence.
    apply setValue_string_data in Hst as [(l' & Ha & -> & _)|(Hn & i & ->)].
    + by rewrite get_set_eq, (assign_value_other _ _ _ _ _ _ Hf Ha).
    + unfold push_back. rewrite get_set_eq.
      destruct (find_entry section field' (get (_data st) section [])) as [t|] eqn:E.
      * induction (get (_data st) section []) as [|u l IH]; [done|]. simpl in *.
        repeat case_match; simplify_eq; auto.
      * rewrite find_entry_app by done. simpl. by rewrite str_eqb_refl, str_eqb_ne by congruence.
  - apply setValue_string_data in Hst as [(l' & Ha & -> & _)|(Hn & i & ->)];
      unfold push_back; by rewrite get_set_ne.
Qed.

(** * The invariant of a parser *)

(** The entries of a section of [n] lines: they carry the name of the section,
    their fields are distinct, their lines increase and exist. *)
Definition entries_ok (section : str) (n : nat) (l : list entry) : Prop :=
  Forall (λ t, SECTION t = section) l ∧ NoDup (FIELD <$> l) ∧
  StronglySorted lt (INDEX <$> l) ∧ Forall (λ t, (INDEX t < n)%nat) l.

Record ini_ok (st : IniParser) : Prop := {
  ok_data_sorted : sorted (_data st);
  ok_lines_sorted : sorted (_allLines st);
  ok_entries section :
    entries_ok section (length (get (_allLines st) section [])) (get (_data st) section [])
}.

Lemma entries_ok_nil section n : entries_ok section n [].
Proof. repeat split; constructor. Qed.

Lemma entries_ok_mono section n n' l :
  entries_ok section n l → (n <= n')%nat → entries_ok section n' l.
Proof.
  intros (H1 & H2 & H3 & H4) Hn. split_and!; [done..|].
  eapply Forall_impl; [exact H4|]. simpl. lia.
Qed.

Lemma StronglySorted_snoc (l : list nat) x :
  StronglySorted lt l → Forall (λ y, (y < x)%nat) l → StronglySorted lt (l ++ [x]).
Proof.
  induction 1 as [|y l Hl IH Hy]; intros Hx; [by repeat constructor|].
  apply Forall_cons in Hx as [Hyx Hx]. constructor; [by apply IH|].
  apply Forall_app. by repeat constructor.
Qed.

Lemma StronglySorted_snoc_inv (l : list nat) x :
  StronglySorted lt (l ++ [x]) → StronglySorted lt l ∧ Forall (λ y, (y < x)%nat) l.
Proof.
  induction l as [|y l IH]; simpl; [by repeat constructor|].
  intros [[Hs Hx]%IH Hall]%StronglySorted_inv. apply Forall_app in Hall as [Hall [Hy _]%Forall_cons].
  split; by constructor.
Qed.

Lemma entries_ok_snoc section n l t :
  entries_ok section n l → SECTION t = section → FIELD t ∉ FIELD <$> l →
  Forall (λ u, (INDEX u < INDEX t)%nat) l → (INDEX t <= n)%nat →
  entries_ok section (S n) (l ++ [t]).
Proof.
  intros (H1 & H2 & H3 & H4) Hs Hf Hi Hn. split_and!.
  - apply Forall_app. by repeat constructor.
  - rewrite fmap_app. apply NoDup_app. split_and!; [done| |apply NoDup_singleton].
    intros x Hx ->%list_elem_of_singleton. done.
  - rewrite fmap_app. apply StronglySorted_snoc; [done|]. by apply Forall_fmap.
  - apply Forall_app. split; [|constructor; [lia|constructor]].
    eapply Forall_impl; [exact H4|]. simpl. lia.
Qed.

Lemma find_entry_None section field n l :
  entries_ok section n l → (find_entry section field l = None ↔ field ∉ FIELD <$> l).
Proof.
  intros (H1 & _). induction H1 as [|t l Ht _ IH]; simpl.
  { split; [intros _; by apply not_elem_of_nil|done]. }
  rewrite Ht, str_eqb_refl, not_elem_of_cons. simpl. destruct (str_eqb (FIELD t) field) eqn:E.
  - apply str_eqb_eq in E. split; [done|]. intros [Hne _]. by symmetry in E.
  - rewrite IH. split; [|by intros [_ ?]]. intros Hf. split; [|done].
    intros ->. by rewrite str_eqb_refl in E.
Qed.

(** Entries that only differ in their values. *)
Lemma assign_value_shape section field value l l' :
  assign_value section field value l = Some l' →
  (SECTION <$> l') = (SECTION <$> l) ∧ (FIELD <$> l') = (FIELD <$> l) ∧
  (INDEX <$> l') = (INDEX <$> l).
Proof.
  revert l'. induction l as [|t l IH]; simpl; intros l' H; [done|].
  case_match; simplify_eq; [done|]. apply fmap_Some in H as (l1 & H1 & ->).
  destruct (IH _ H1) as (E1 & E2 & E3). csimpl. by rewrite E1, E2, E3.
Qed.

Lemma Forall_shape {B} (f : entry → B) (P : B → Prop) l l' :
  (f <$> l') = (f <$> l) → Forall (λ t, P (f t)) l → Forall (λ t, P (f t)) l'.
Proof. intros E H. apply Forall_fmap. rewrite E. by apply Forall_fmap. Qed.

Lemma entries_ok_shape section n l l' :
  (SECTION <$> l') = (SECTION <$> l) → (FIELD <$> l') = (FIELD <$> l) →
  (INDEX <$> l') = (INDEX <$> l) → entries_ok section n l → entries_ok section n l'.
Proof.
  intros E1 E2 E3 (H1 & H2 & H3 & H4). unfold entries_ok. rewrite E2, E3.
  split_and!; [|done|done|].
  - by apply (Forall_shape SECTION (λ s, s = section) l).
  - by apply (Forall_shape INDEX (λ i, (i < n)%nat) l).
Qed.

(** Replacing the entries and the lines of one section. *)
Lemma ini_ok_update section l ls st :
  ini_ok st → entries_ok section (length ls) l →
  ini_ok {| _data := set (_data st) section l; _allLines := set (_allLines st) section ls |}.
Proof.
  intros [Hd Hl He] Hok. split; simpl; [auto with clock..|]. intros s.
  destruct (decide (s = section)) as [->|Hne]; [by rewrite !get_set_eq|].
  by rewrite !get_set_ne.
Qed.

Lemma ini_ok_new : ini_ok IniParser_new.
Proof. split; [constructor..|]. intros s. apply entries_ok_nil. Qed.

(** The last entry of a section has the greatest line. *)
Lemma last_index l t :
  StronglySorted lt (INDEX <$> l) → last l = Some t →
  Forall (λ u, (INDEX u <= INDEX t)%nat) l.
Proof.
  intros Hs Hl. apply last_Some in Hl as [l' ->]. rewrite fmap_app in Hs.
  apply StronglySorted_app in Hs as (Hs & _ & _). apply Forall_app.
  split; [|by repeat constructor]. apply Forall_forall. intros u Hu.
  specialize (Hs (INDEX u) (INDEX t)). apply Nat.lt_le_incl, Hs.
  - by apply list_elem_of_fmap_2.
  - by left.
Qed.

Lemma setValue_string_ok section field value st st' :
  ini_ok st → setValue_string section field value st = Some st' → ini_ok st'.
Proof.
  intros Hok. pose proof (ok_entries _ Hok section) as He. unfold setValue_string.
  destruct (find (_data st) section) as [l|] eqn:Ef; intros Hst.
  2: { simplify_eq. unfold push_back. rewrite get_set_eq, set_set.
       unfold get in He. rewrite Ef in He. unfold get at 1. rewrite Ef. simpl.
       apply (ini_ok_update section _ _ st Hok). rewrite !length_app. simpl.
       repeat split; repeat constructor; simpl; try lia. apply not_elem_of_nil. }
  assert (Hl : get (_data st) section [] = l) by (unfold get; by rewrite Ef). rewrite Hl in He.
  destruct (assign_value section field value l) as [l'|] eqn:Ea.
  { simplify_eq. destruct (assign_value_shape _ _ _ _ _ Ea) as (E1 & E2 & E3).
    destruct Hok as [Hd Hls Hen]. split; simpl; [auto with clock..|]. intros s.
    destruct (decide (s = section)) as [->|Hne]; [|by rewrite get_set_ne].
    rewrite get_set_eq. by eapply entries_ok_shape. }
  apply assign_value_None, (find_entry_None _ _ _ _ He) in Ea.
  pose proof He as (_ & _ & Hs & Hi). rewrite get_touch in Hst.
  destruct (last (get (_allLines st) section [])) as [back|] eqn:Elast; [|done].
  assert (Hn : (0 < length (get (_allLines st) section []))%nat)
    by (destruct (get (_allLines st) section []); simpl in *; [done|lia]).
  assert (Hins : ∀ i, Forall (λ u, (INDEX u < i)%nat) l →
    (i <= length (get (_allLines st) section []))%nat →
    ini_ok {| _data := push_back (_data st) section
                {| SECTION := section; FIELD := field; INDEX := i; VALUE := value |};
              _allLines := push_back (touch (_allLines st) section []) section [] |}).
  { intros i Hlt Hle. unfold push_back. rewrite get_touch, set_touch, Hl.
    apply ini_ok_update; [done|]. rewrite length_app, Nat.add_1_r. by apply entries_ok_snoc. }
  destruct (str_eqb back []); [|simplify_eq; by apply Hins].
  destruct (last l) as [t|] eqn:El; [|done]. pose proof (last_index _ _ Hs El) as Hmax.
  assert (Ht : (INDEX t < length (get (_allLines st) section []))%nat).
  { apply last_Some in El as [l0 ->]. apply Forall_app in Hi as [_ Hi]. by inversion Hi. }
  destruct (negb _) eqn:En; bool_to_prop; simplify_eq; [|by apply Hins].
  apply Hins; [|lia]. eapply Forall_impl; [exact Hmax|]. simpl. lia.
Qed.

(** [setValue] preserves the invariant: in every section the entries carry
    its name, have distinct fields, and sit on increasing lines that exist. *)
Theorem setValue_ok section field value st st' :
  ini_ok st → setValue_string section field value st = Some st' → ini_ok st'.
Proof. apply setValue_string_ok. Qed.

(** In a section that is new or has an entry, [setValue] never calls
    [back()] on an empty vector. *)
Theorem setValue_defined section field value st :
  ini_ok st →
  find (_data st) section = None ∨ get (_data st) section [] ≠ [] →
  ∃ st', setValue_string section field value st = Some st'.
Proof.
  intros Hok Hne. pose proof (ok_entries _ Hok section) as (_ & _ & _ & Hi).
  unfold setValue_string. destruct (find (_data st) section) as [l|] eqn:Ef; [|by eexists].
  assert (Hl : get (_data st) section [] = l) by (unfold get; by rewrite Ef).
  rewrite Hl in *. destruct Hne as [?|Hne]; [done|].
  destruct (assign_value section field value l); [by eexists|]. rewrite get_touch.
  destruct (last l) as [t|] eqn:El; [|by apply last_None in El].
  destruct (last (get (_allLines st) section [])) as [back|] eqn:E.
  - repeat case_match; by eexists.
  - apply last_None in E. rewrite E in Hi. destruct l as [|u l]; [done|].
    inversion Hi; simpl in *; lia.
Qed.

(** * Removing entries *)

Lemma entry_position_Some section field l k :
  entry_position section field l = Some k →
  ∃ t, l !! k = Some t ∧ SECTION t = section ∧ FIELD t = field.
Proof.
  revert k. induction l as [|t l IH]; simpl; intros k Hk; [done|].
  destruct (str_eqb (SECTION t) section && _) eqn:E.
  - simplify_eq. apply andb_true_iff in E as [E1%str_eqb_eq E2%str_eqb_eq]. by exists t.
  - apply fmap_Some in Hk as (k' & Hk & ->). by apply IH.
Qed.

(** The entries of a section but for [field]. *)
Definition remaining (field : str) (l : list entry) : list entry :=
  filter (λ t, FIELD t ≠ field) l.

Lemma find_entry_remaining section field l : find_entry section field (remaining field l) = None.
Proof.
  unfold remaining. induction l as [|t l IH]; [done|]. rewrite filter_cons.
  destruct (decide (FIELD t ≠ field)) as [Hne|]; [|done]. simpl.
  by rewrite (str_eqb_ne _ _ Hne), andb_false_r.
Qed.

Lemma find_entry_remaining_ne section field f l :
  f ≠ field → find_entry section f (remaining field l) = find_entry section f l.
Proof.
  intros Hf. unfold remaining. induction l as [|t l IH]; [done|]. rewrite filter_cons.
  destruct (decide (FIELD t ≠ field)) as [Hne|Heq]; simpl; [by rewrite IH|].
  assert (Hft : FIELD t ≠ f) by (intros <-; by apply Heq).
  by rewrite (str_eqb_ne _ _ Hft), andb_false_r.
Qed.

Lemma remaining_absent field l : Forall (λ t, FIELD t ≠ field) l → remaining field l = l.
Proof.
  unfold remaining. induction 1 as [|t l Ht _ IH]; [done|]. by rewrite filter_cons_True, IH.
Qed.

(** The loop finds the only entry with the field, if there is one. *)
Lemma entry_position_fields section field l :
  Forall (λ t, SECTION t = section) l → entry_position section field l = None →
  Forall (λ t, FIELD t ≠ field) l.
Proof.
  induction 1 as [|t l <- _ IH]; simpl; intros Hp; [done|]. rewrite str_eqb_refl in Hp. simpl in Hp.
  destruct (str_eqb (FIELD t) field) eqn:E; [done|]. apply fmap_None in Hp.
  constructor; [|by apply IH].
  intros Ef. by rewrite Ef, str_eqb_refl in E.
Qed.

Lemma delete_remaining section field l k :
  NoDup (FIELD <$> l) → entry_position section field l = Some k →
  ∃ t, l !! k = Some t ∧ FIELD t = field ∧ delete k l = remaining field l ∧
       ∀ u, u ∈ l → FIELD u = field → u = t.
Proof.
  intros Hnd (t & Hk & _ & <-)%entry_position_Some. exists t.
  assert (Hrest : delete k l = remaining (FIELD t) l).
  { revert k Hk Hnd. induction l as [|u l IH]; csimpl; intros k Hk Hnd; [done|].
    apply NoDup_cons in Hnd as [Hu Hnd]. unfold remaining in *. rewrite filter_cons.
    destruct k as [|k]; simplify_eq/=.
    - rewrite decide_False by naive_solver. symmetry. apply remaining_absent, Forall_forall.
      intros v Hv E. apply Hu. rewrite <- E. by apply list_elem_of_fmap_2.
    - rewrite decide_True, (IH k); [done..|]. intros E. apply Hu. rewrite E.
      apply list_elem_of_fmap_2. by eapply list_elem_of_lookup_2. }
  split_and!; [done..|]. intros u [j Hj]%list_elem_of_lookup Hf.
  assert (j = k); [|naive_solver].
  apply (NoDup_lookup (FIELD <$> l) j k (FIELD t)); [done|by rewrite list_lookup_fmap, Hj; simpl; rewrite Hf|].
  by rewrite list_lookup_fmap, Hk.
Qed.

(** The part of [removeEntry] after the loop. *)
Definition drop_empty (section : str) (st : IniParser) : IniParser :=
  match get (_data st) section [] with
  | [] => {| _data := erase (_data st) section; _allLines := erase (_allLines st) section |}
  | _ => st
  end.

Lemma drop_empty_fold section st :
  match get (_data st) section [] with
  | [] => Some {| _data := erase (_data st) section; _allLines := erase (_allLines st) section |}
  | _ => Some st
  end = Some (drop_empty section st).
Proof. unfold drop_empty. by destruct (get (_data st) section []). Qed.

(** The whole of [removeEntry]: the entries [rest] and the lines [ls] of the section
    are stored, or the section is erased. *)
Definition stored (section : str) (rest : list entry) (ls : list str) (st st' : IniParser) : Prop :=
  (∀ s, s ≠ section → find (_data st') s = find (_data st) s ∧
                      find (_allLines st') s = find (_allLines st) s) ∧
  match rest with
  | [] => find (_data st') section = None ∧ find (_allLines st') section = None
  | _ => find (_data st') section = Some rest ∧ find (_allLines st') section = Some ls
  end.

Lemma drop_empty_stored section rest ls st st1 :
  sorted (_data st1) → sorted (_allLines st1) →
  (∀ s, s ≠ section → find (_data st1) s = find (_data st) s ∧
                      find (_allLines st1) s = find (_allLines st) s) →
  find (_data st1) section = Some rest →
  (rest ≠ [] → find (_allLines st1) section = Some ls) →
  stored section rest ls st (drop_empty section st1).
Proof.
  intros Hd Hl Ho Hr Hls. unfold drop_empty, get. rewrite Hr. simpl.
  destruct rest as [|t rest]; (split; [|auto]); simpl.
  - intros s Hne. rewrite !find_erase_ne by done. by apply Ho.
  - by rewrite !find_erase_eq.
  - done.
Qed.

(** [removeEntry] in a state that satisfies the invariant. *)
Lemma removeEntry_some section field st :
  ini_ok st →
  let l := get (_data st) section [] in let ls := get (_allLines st) section [] in
  ∃ st' ls', removeEntry section field st = Some st' ∧
    stored section (remaining field l) ls' st st' ∧
    (∀ t, t ∈ l → FIELD t = field → ls' = delete (INDEX t) ls) ∧
    (Forall (λ t, FIELD t ≠ field) l → ls' = ls).
Proof.
  intros [Hd Hl He] l ls. destruct (He section) as (Hsec & Hnd & _ & Hi). fold l ls in Hsec, Hnd, Hi.
  unfold removeEntry. rewrite !get_touch. fold l ls.
  destruct (entry_position section field l) as [k|] eqn:Ek.
  - destruct (delete_remaining section field l k Hnd Ek) as (t & Hk & Hf & Hrest & Hu). rewrite Hk.
    rewrite Forall_lookup in Hi. specialize (Hi k t Hk).
    rewrite (proj2 (Nat.ltb_lt _ _) Hi), !set_touch, Hrest. eexists _, (delete (INDEX t) ls).
    split; [apply drop_empty_fold|]. split_and!.
    + apply drop_empty_stored; simpl; [by auto with clock..| |by rewrite find_set_eq|by rewrite find_set_eq].
      intros s Hne. by rewrite !find_set_ne.
    + intros u Hin Hfu. by rewrite (Hu u Hin Hfu).
    + intros Hall. rewrite Forall_lookup in Hall. by destruct (Hall k t Hk).
  - pose proof (entry_position_fields section field l Hsec Ek) as Hall. eexists _, ls.
    split; [apply drop_empty_fold|]. rewrite remaining_absent by done. split_and!; [|  |done].
    + apply drop_empty_stored; simpl; [by auto with clock|done| |by rewrite find_touch_eq|].
      * intros s Hne. by rewrite find_touch_ne.
      * intros Hne. destruct l as [|t l0] eqn:El; [done|]. apply Forall_cons in Hi as [Hi _].
        unfold ls, get in *. destruct (find (_allLines st) section); [done|simpl in Hi; lia].
    + intros t Hin Hf. rewrite Forall_forall in Hall. by destruct (Hall t Hin).
Qed.

Lemma stored_get section rest ls st st' :
  stored section rest ls st st' → get (_data st') section [] = rest ∧
  ∀ s, s ≠ section → get (_data st') s [] = get (_data st) s [].
Proof.
  intros [Ho Hs]. unfold get. split; [by destruct rest, Hs as [-> _]|].
  intros s Hne. by destruct (Ho s Hne) as [-> _].
Qed.

Lemma removeEntry_effect section field st :
  ini_ok st →
  ∃ st', removeEntry section field st = Some st' ∧
    getValue_string section field st' = (VALUE_NOTFOUND, []) ∧
    (∀ s f, (s, f) ≠ (section, field) → getValue_string s f st' = getValue_string s f st).
Proof.
  intros (st' & ls & Hr & (Hg & Ho)%stored_get & _)%(removeEntry_some section field).
  exists st'. split_and!; [done|by rewrite getValue_string_get, Hg, find_entry_remaining|].
  intros s f Hne. rewrite !getValue_string_get. destruct (key_cases s section) as [->|Hs].
  - rewrite Hg, find_entry_remaining_ne by congruence. done.
  - by rewrite Ho.
Qed.

(** C39: in a state that satisfies the invariant, [removeEntry] never erases outside
    of its vectors. Afterwards the entry is not found and every other entry of every
    section has its value. The entries and lines of the other sections are untouched.
    If no other entry is left in the section, it is gone from [_data] and from
    [_allLines], all its lines included; otherwise its other entries stay, in order
    and unchanged, and of its lines exactly the one of the removed entry is deleted
    (none, if the entry did not exist). *)
Theorem removeEntry_removes section field st :
  ini_ok st →
  let l := get (_data st) section [] in let ls := get (_allLines st) section [] in
  let rest := filter (λ t, FIELD t ≠ field) l in
  ∃ st', removeEntry section field st = Some st' ∧
    getValue_string section field st' = (VALUE_NOTFOUND, []) ∧
    (∀ s f, (s, f) ≠ (section, field) → getValue_string s f st' = getValue_string s f st) ∧
    (∀ s, s ≠ section → find (_data st') s = find (_data st) s ∧
                        find (_allLines st') s = find (_allLines st) s) ∧
    (rest = [] → find (_data st') section = None ∧ find (_allLines st') section = None) ∧
    (rest ≠ [] → find (_data st') section = Some rest ∧
      (∀ t, t ∈ l → FIELD t = field →
         find (_allLines st') section = Some (delete (INDEX t) ls)) ∧
      ((∀ t, t ∈ l → FIELD t ≠ field) → find (_allLines st') section = Some ls)).
Proof.
  intros Hok l ls rest.
  destruct (removeEntry_effect section field st Hok) as (st1 & Hr1 & Hn & Hv).
  destruct (removeEntry_some section field st Hok) as (st' & ls' & Hr & [Ho Hs] & Hd & Hk).
  rewrite Hr in Hr1. injection Hr1 as <-. fold l ls in Hs, Hd, Hk.
  change (remaining field l) with rest in Hs. exists st'.
  split_and!; [done..|by intros E; rewrite E in Hs|]. intros Hne.
  assert (Hs' : find (_data st') section = Some rest ∧ find (_allLines st') section = Some ls')
    by (by destruct rest).
  destruct Hs' as [-> ->]. split_and!; [done| |].
  - intros t Ht Hf. by rewrite (Hd t Ht Hf).
  - intros Hall. by rewrite Hk by by apply Forall_forall.
Qed.

(** * Concrete states *)

(** A parser with the section [[s]] and the lines [a=1], [b=2] and an empty one. *)
Definition demo : IniParser :=
  {| _data := [(lit "s", [Entry (lit "s") (lit "a") 1 (lit "1");
                          Entry (lit "s") (lit "b") 2 (lit "2")])];
     _allLines := [(lit "s", [lit "[s]"; lit "a=1"; lit "b=2"; []])] |}.

Lemma demo_ok : ini_ok demo.
Proof.
  apply (ini_ok_update (lit "s") _ _ IniParser_new ini_ok_new).
  split_and!; [by repeat constructor| |repeat constructor..].
  by apply (bool_decide_eq_true (NoDup [lit "a"; lit "b"])).
Qed.

Lemma setValue_getValue_witness :
  ∃ st', setValue_string (lit "s") (lit "c") (lit "x=y") demo = Some st' ∧
         getValue_string (lit "s") (lit "c") st' = (SUCCESS, lit "x=y").
Proof. eexists. split; [reflexivity|]. by eapply (setValue_getValue _ _ _ demo). Defined.

Lemma setValue_getValue_typed_witness :
  ∃ st', setValue (T := int32) (lit "t") (lit "n") (-17) IniParser_new = Some st' ∧
         getValue (T := int32) (lit "t") (lit "n") 0 st' = (SUCCESS, -17).
Proof.
  eexists. split; [reflexivity|].
  by apply (setValue_getValue_typed (T := int32) (lit "t") (lit "n") (-17) 0 IniParser_new).
Defined.

Lemma setValue_other_witness :
  ∃ st', setValue_string (lit "s") (lit "a") (lit "9") demo = Some st' ∧
         getValue_string (lit "s") (lit "b") st' = getValue_string (lit "s") (lit "b") demo.
Proof.
  eexists. split; [reflexivity|].
  by apply (setValue_other (lit "s") (lit "a") (lit "9") demo).
Defined.

Lemma setValue_ok_witness :
  ∃ st', setValue_string (lit "s") (lit "c") (lit "3") demo = Some st' ∧ ini_ok st'.
Proof.
  eexists. split; [reflexivity|]. by apply (setValue_ok (lit "s") (lit "c") (lit "3") demo _ demo_ok).
Defined.

Lemma setValue_defined_witness :
  ini_ok demo ∧ ∃ st', setValue_string (lit "s") (lit "c") (lit "3") demo = Some st'.
Proof.
  split; [apply demo_ok|]. apply (setValue_defined _ _ _ _ demo_ok). by right.
Defined.

(** Removing the entry [a] of [demo], and removing the only entry of a section. *)
Definition single : IniParser :=
  {| _data := [(lit "s", [Entry (lit "s") (lit "a") 1 (lit "1")]);
               (lit "t", [Entry (lit "t") (lit "b") 1 (lit "2")])];
     _allLines := [(lit "s", [lit "[s]"; lit "a=1"; []]); (lit "t", [lit "[t]"; lit "b=2"])] |}.

Lemma single_ok : ini_ok single.
Proof.
  apply (ini_ok_update (lit "s") [Entry (lit "s") (lit "a") 1 (lit "1")] [lit "[s]"; lit "a=1"; []]
    {| _data := [(lit "t", [Entry (lit "t") (lit "b") 1 (lit "2")])];
       _allLines := [(lit "t", [lit "[t]"; lit "b=2"])] |});
    [|split_and!; [by repeat constructor|by apply (bool_decide_eq_true (NoDup [lit "a"]))|repeat constructor..]].
  apply (ini_ok_update (lit "t") _ _ IniParser_new ini_ok_new).
  split_and!; [by repeat constructor|by apply (bool_decide_eq_true (NoDup [lit "b"]))|repeat constructor..].
Qed.

Lemma removeEntry_removes_witness :
  (∃ st', removeEntry (lit "s") (lit "a") demo = Some st' ∧
     getValue_string (lit "s") (lit "a") st' = (VALUE_NOTFOUND, []) ∧
     find (_data st') (lit "s") = Some [Entry (lit "s") (lit "b") 2 (lit "2")] ∧
     find (_allLines st') (lit "s") = Some [lit "[s]"; lit "b=2"; []]) ∧
  (∃ st', removeEntry (lit "s") (lit "a") single = Some st' ∧
     find (_data st') (lit "s") = None ∧ find (_allLines st') (lit "s") = None ∧
     find (_allLines st') (lit "t") = Some [lit "[t]"; lit "b=2"]).
Proof.
  split.
  - destruct (removeEntry_removes (lit "s") (lit "a") demo demo_ok)
      as (st' & H & Hn & _ & _ & _ & Hk). exists st'.
    destruct Hk as (Hd & Hls & _); [by vm_compute|]. split_and!; [exact H|exact Hn|exact Hd|].
    apply (Hls (Entry (lit "s") (lit "a") 1 (lit "1"))); [by left|reflexivity].
  - destruct (removeEntry_removes (lit "s") (lit "a") single single_ok)
      as (st' & H & _ & _ & Ho & He & _). exists st'.
    destruct He as [Hd Hls]; [by vm_compute|]. split_and!; [exact H|exact Hd|exact Hls|].
    destruct (Ho (lit "t")) as [_ ->]; [done|reflexivity].
Defined.

(** The indices of the later entries keep pointing to the lines before the
    removal, so saving can write both the line and the entry, and the file
    that a successful [save] wrote does not load. *)
Theorem removeEntry_stale_index :
  ∃ st' file, removeEntry (lit "s") (lit "a") demo = Some st' ∧
    save true st' = (SUCCESS, Some file, st') ∧ (load (Some file) st').1 = WRONG_SYNTAX.
Proof. do 2 eexists. split_and!; reflexivity. Qed.

(** Removing two entries in a row can erase behind the end of the lines
    of the section. *)
Theorem removeEntry_twice_undefined :
  ∃ st st', ini_ok st ∧ removeEntry (lit "s") (lit "a") st = Some st' ∧
    removeEntry (lit "s") (lit "b") st' = None.
Proof.
  exists {| _data := _data demo; _allLines := [(lit "s", [lit "[s]"; lit "a=1"; lit "b=2"])] |}.
  eexists. split_and!; [|reflexivity|reflexivity].
  apply (ini_ok_update (lit "s") _ _ IniParser_new ini_ok_new).
  split_and!; [by repeat constructor| |repeat constructor..].
  by apply (bool_decide_eq_true (NoDup [lit "a"; lit "b"])).
Qed.
