(* ===== verification/IniFile.v ===== *)
(** The files of [IniParser]: what [load] accepts and finds in a text, what
    [save] writes, and how the two compose.

    A text is cut at its section lines into chunks. [load] accepts it exactly
    when its lines are well formed, no section comes twice and no field comes
    twice in a section; the parser then holds the chunks. [save] writes them in
    key order, so it returns the text that was loaded when its sections are in
    this order, and otherwise the [global] lines end up in another section. A
    state whose lines are read as they are meant and whose [global] lines, if any,
    come first ([saveable]) survives saving and loading. *)

From S2P Require Import Prelude StdMap Streams IniParser.

Local Open Scope Z_scope.

(** * Lines and texts *)

(** Every line with a line end. *)
Definition text_of (lines : list str) : str := mjoin ((λ l, l ++ [newline]) <$> lines).

Definition one_line (s : str) : Prop := newline ∉ s.

Lemma text_of_app l1 l2 : text_of (l1 ++ l2) = text_of l1 ++ text_of l2.
Proof. unfold text_of. by rewrite fmap_app, join_app. Qed.

Lemma read_lines_text s : text_of (read_lines s) = s ++ [newline].
Proof.
  induction s as [|c s IH]; [done|]. cbn [read_lines].
  destruct (c =? newline)%char eqn:E.
  - apply Ascii.eqb_eq in E as ->. unfold text_of in *. csimpl. by rewrite IH.
  - unfold text_of in *. destruct (read_lines s) as [|l ls]; [|csimpl in *; by rewrite IH].
    csimpl in *. by destruct s.
Qed.

Lemma read_lines_one_line s : Forall one_line (read_lines s).
Proof.
  induction s as [|c s IH]; cbn [read_lines]; [repeat constructor; apply not_elem_of_nil|].
  destruct (c =? newline)%char eqn:E; [constructor; [apply not_elem_of_nil|done]|].
  assert (Hc : newline ≠ c) by (intros <-; by rewrite Ascii.eqb_refl in E).
  destruct (read_lines s) as [|l ls].
  - repeat constructor. by intros ?%list_elem_of_singleton.
  - apply Forall_cons in IH as [Hl Hls]. constructor; [|done]. by apply not_elem_of_cons.
Qed.

Lemma line_end_inj (l1 l2 : str) t1 t2 :
  one_line l1 → one_line l2 →
  l1 ++ newline :: t1 = l2 ++ newline :: t2 → l1 = l2 ∧ t1 = t2.
Proof.
  unfold one_line. revert l2.
  induction l1 as [|c l1 IH]; intros [|d l2] H1 H2 E; simpl in E.
  - by injection E.
  - injection E as <- _. apply not_elem_of_cons in H2 as [? _]. done.
  - injection E as -> _. apply not_elem_of_cons in H1 as [? _]. done.
  - injection E as <- E. apply not_elem_of_cons in H1 as [_ H1], H2 as [_ H2].
    destruct (IH l2 H1 H2 E) as [-> ->]. done.
Qed.

Lemma text_of_inj ls1 ls2 :
  Forall one_line ls1 → Forall one_line ls2 → text_of ls1 = text_of ls2 → ls1 = ls2.
Proof.
  unfold text_of. intros H1. revert ls2.
  induction H1 as [|l1 ls1 Hl1 H1 IH]; intros ls2 H2 E; destruct H2 as [|l2 ls2 Hl2 H2];
    csimpl in E; [done|by destruct l2|by destruct l1|].
  rewrite <- !app_assoc in E. apply line_end_inj in E as [-> E]; [|done..].
  f_equal. by apply IH.
Qed.

(** What [save] writes for at least one line, without the last line end. *)
Lemma text_of_last lines :
  lines ≠ [] → text_of lines = take (length (text_of lines) - 1) (text_of lines) ++ [newline].
Proof.
  destruct lines as [|l lines _] using rev_ind; [done|]. intros _.
  rewrite text_of_app. unfold text_of at 2 4 6. csimpl.
  rewrite app_nil_r, app_assoc, length_app. simpl. rewrite Nat.add_sub. by rewrite take_app_length.
Qed.

Lemma read_lines_of_text lines :
  lines ≠ [] → Forall one_line lines →
  read_lines (take (length (text_of lines) - 1) (text_of lines)) = lines.
Proof.
  intros Hne Hl. apply text_of_inj; [apply read_lines_one_line|done|].
  by rewrite read_lines_text, <- text_of_last.
Qed.

(** * Chunks *)

(** The section that a line opens. *)
Definition section_header (line : str) : option str :=
  if no_entry line then None
  else if starts_section line then Some (take (length line - 2) (drop 1 line)) else None.

(** The lines before the first section line, and the sections with their lines. *)
Fixpoint chunks (lines : list str) : list str * list (str * list str) :=
  match lines with
  | [] => ([], [])
  | line :: lines' =>
      let '(l0, rest) := chunks lines' in
      match section_header line with
      | None => (line :: l0, rest)
      | Some s => ([], (s, line :: l0) :: rest)
      end
  end.

(** The sections of a file: the first lines belong to [global]. *)
Definition file_chunks (content : str) : list (str * list str) :=
  let '(l0, rest) := chunks (read_lines content) in (global, l0) :: rest.

(** The entry that line [i] of a section holds. *)
Definition line_entry (sec : str) (i : nat) (line : str) : list entry :=
  if no_entry line || starts_section line then []
  else match find_char "="%char line with
       | None => []
       | Some n => [Entry sec (take n line) i (take (length line - n - 1) (drop (n + 1) line))]
       end.

Fixpoint chunk_entries (sec : str) (i : nat) (lines : list str) : list entry :=
  match lines with
  | [] => []
  | line :: lines' => line_entry sec i line ++ chunk_entries sec (S i) lines'
  end.

(** A line is empty, has one character, is a comment, a closed section line or
    has a [=]. *)
Definition line_ok (line : str) : bool :=
  no_entry line ||
  (if starts_section line then ends_section line
   else match find_char "="%char line with Some _ => true | None => false end).

Definition fields (p : str * list str) : list str := FIELD <$> chunk_entries p.1 0 p.2.

(** What [load] accepts. *)
Definition file_ok (content : str) : Prop :=
  Forall (λ l, line_ok l = true) (read_lines content) ∧
  NoDup (file_chunks content).*1 ∧
  Forall (λ p, NoDup (fields p)) (file_chunks content).

Lemma chunk_entries_app sec i l1 l2 :
  chunk_entries sec i (l1 ++ l2) =
  chunk_entries sec i l1 ++ chunk_entries sec (i + length l1) l2.
Proof.
  revert i. induction l1 as [|l l1 IH]; intros i; simpl; [by rewrite Nat.add_0_r|].
  rewrite IH, <- app_assoc. by replace (S i + length l1)%nat with (i + S (length l1))%nat by lia.
Qed.

Lemma line_entry_In sec i line t :
  t ∈ line_entry sec i line → SECTION t = sec ∧ INDEX t = i.
Proof.
  unfold line_entry. destruct (_ || _); [by intros ?%not_elem_of_nil|].
  destruct (find_char _ _); [|by intros ?%not_elem_of_nil].
  by intros ->%list_elem_of_singleton.
Qed.

Lemma chunk_entries_In sec i ls t :
  t ∈ chunk_entries sec i ls →
  SECTION t = sec ∧ (i <= INDEX t < i + length ls)%nat.
Proof.
  revert i. induction ls as [|l ls IH]; simpl; intros i; [by intros ?%not_elem_of_nil|].
  intros [[-> ->]%line_entry_In|[-> ?]%IH]%elem_of_app; (split; [done|lia]).
Qed.

Lemma chunk_entries_sorted sec i ls : StronglySorted lt (INDEX <$> chunk_entries sec i ls).
Proof.
  revert i. induction ls as [|l ls IH]; intros i; simpl; [constructor|].
  rewrite fmap_app. apply StronglySorted_app. split_and!; [|..|apply IH].
  - intros x y [t [-> Ht]]%list_elem_of_fmap [u [-> Hu]]%list_elem_of_fmap.
    apply line_entry_In in Ht as [_ ->]. apply chunk_entries_In in Hu as [_ ?]. lia.
  - unfold line_entry. destruct (_ || _); [constructor|].
    destruct (find_char _ _); repeat constructor.
Qed.

Lemma chunk_entries_ok sec ls :
  NoDup (fields (sec, ls)) → entries_ok sec (length ls) (chunk_entries sec 0 ls).
Proof.
  intros Hnd. split_and!; [|done|apply chunk_entries_sorted|];
    apply Forall_forall; intros t [? ?]%chunk_entries_In; [done|lia].
Qed.

(** * What [load] does *)

(** The states between two lines. *)
Record loaded (st : IniParser) : Prop := {
  ld_data_sorted : sorted (_data st);
  ld_lines_sorted : sorted (_allLines st);
  ld_entries s : get (_data st) s [] = chunk_entries s 0 (get (_allLines st) s []);
  ld_fields s : NoDup (fields (s, get (_allLines st) s []))
}.

Lemma loaded_ok st : loaded st → ini_ok st.
Proof.
  intros [H1 H2 H3 H4]. split; [done..|]. intros s. rewrite H3. by apply chunk_entries_ok.
Qed.

(** The new lines of a section, with the entries they hold. *)
Lemma loaded_set st data s ls :
  loaded st → NoDup (fields (s, ls)) → sorted data →
  (∀ s', s' ≠ s → get data s' [] = get (_data st) s' []) →
  get data s [] = chunk_entries s 0 ls →
  loaded {| _data := data; _allLines := set (_allLines st) s ls |}.
Proof.
  intros [H1 H2 H3 H4] Hnd Hs Hne Heq. split; simpl; [done|auto with clock|..]; intros s';
    (destruct (key_cases s' s) as [->|Hss]; [by rewrite get_set_eq|rewrite get_set_ne by done]);
    [by rewrite Hne, H3|apply H4].
Qed.

Lemma field_check key l :
  existsb (λ t, str_eqb (FIELD t) key) l = true ↔ key ∈ FIELD <$> l.
Proof.
  rewrite existsb_exists, list_elem_of_fmap. split.
  - intros (t & Ht & E%str_eqb_eq). exists t. by rewrite list_elem_of_In.
  - intros (t & -> & Ht). exists t. by rewrite <- list_elem_of_In, str_eqb_refl.
Qed.

Lemma loaded_touch st s : loaded st → loaded {| _data := touch (_data st) s []; _allLines := _allLines st |}.
Proof.
  intros [H1 H2 H3 H4]. split; simpl; [auto with clock|done| |done].
  intros s'. by rewrite get_touch.
Qed.

(** A section line. *)
Lemma load_line_header cur line s st :
  section_header line = Some s →
  load_line cur line st =
  if ends_section line then
    match find (_allLines st) s with
    | Some _ => inl (WRONG_SYNTAX, st)
    | None => inr (s, {| _data := _data st; _allLines := push_back (_allLines st) s line |})
    end
  else inl (WRONG_SYNTAX, st).
Proof.
  unfold section_header, load_line. destruct (no_entry line); [done|].
  destruct (starts_section line); [|done]. intros [= <-]. by destruct (ends_section line).
Qed.

Lemma header_no_entry sec i line s : section_header line = Some s → line_entry sec i line = [].
Proof.
  unfold section_header, line_entry. destruct (no_entry line); [done|].
  by destruct (starts_section line).
Qed.

(** Another line: it is well formed and brings no field again, or it is an error. *)
Definition body_ok (cur : str) (L : list str) (line : str) : Prop :=
  line_ok line = true ∧ NoDup (fields (cur, L ++ [line])).

Lemma load_line_body cur line st L :
  section_header line = None → loaded st → find (_allLines st) cur = Some L →
  (body_ok cur L line ∧
   ∃ st', load_line cur line st = inr (cur, st') ∧ loaded st' ∧
          _allLines st' = set (_allLines st) cur (L ++ [line])) ∨
  (¬ body_ok cur L line ∧ ∃ st', load_line cur line st = inl (WRONG_SYNTAX, st') ∧ loaded st').
Proof.
  intros Hh Hst Hf. unfold body_ok, load_line, line_ok, fields.
  pose proof (ld_entries _ Hst cur) as He. pose proof (ld_fields _ Hst cur) as Hnd.
  assert (HL : get (_allLines st) cur [] = L) by (unfold get; by rewrite Hf).
  rewrite HL in He, Hnd. unfold fields in Hnd. simpl in Hnd |- *.
  unfold section_header in Hh. rewrite chunk_entries_app, fmap_app. simpl.
  rewrite app_nil_r. unfold line_entry.
  destruct (no_entry line) eqn:En; simpl.
  { left. rewrite app_nil_r. split; [done|]. eexists. split; [done|]. simpl. unfold push_back.
    rewrite HL. split; [|done]. apply loaded_set; [done| | |done|].
    - unfold fields. simpl. rewrite chunk_entries_app. simpl. unfold line_entry.
      by rewrite En, !app_nil_r.
    - apply Hst.
    - rewrite He, chunk_entries_app. simpl. unfold line_entry. by rewrite En, !app_nil_r. }
  destruct (starts_section line) eqn:Es; [done|]. simpl.
  destruct (find_char "="%char line) as [n|] eqn:Ef.
  2: { right. split; [by intros [? _]|]. by eexists. }
  rewrite get_touch, He.
  assert (Hkey : NoDup ((FIELD <$> chunk_entries cur 0 L) ++ [take n line]) ↔
                 take n line ∉ FIELD <$> chunk_entries cur 0 L).
  { rewrite NoDup_app. split.
    - intros (_ & Hd & _) Hin. apply (Hd _ Hin). by left.
    - intros Hin. split_and!; [done| |apply NoDup_singleton].
      by intros x Hx ->%list_elem_of_singleton. }
  destruct (existsb _ _) eqn:Ex.
  - apply field_check in Ex. right. split; [intros [_ H]; by apply Hkey in H|].
    eexists. split; [done|]. by apply loaded_touch.
  - assert (Hin : take n line ∉ FIELD <$> chunk_entries cur 0 L)
      by (intros ?%field_check; congruence).
    left. split; [split; [done|by apply Hkey]|]. eexists. split; [done|]. simpl.
    unfold push_back. rewrite HL, get_touch, set_touch. split; [|done].
    assert (HE : chunk_entries cur 0 (L ++ [line]) = chunk_entries cur 0 L ++
      [Entry cur (take n line) (length L) (take (length line - n - 1) (drop (n + 1) line))]).
    { rewrite chunk_entries_app. simpl. unfold line_entry. by rewrite En, Es, Ef. }
    apply loaded_set; [done|unfold fields; simpl; rewrite HE, fmap_app; by apply Hkey
                      |apply sorted_set, Hst|intros; by rewrite get_set_ne|].
    by rewrite get_set_eq, He, HE.
Qed.

(** What the remaining lines must satisfy, in section [cur] with lines [L] and
    the other sections in [m]. *)
Definition rest_ok (m : list (str * list str)) (cur : str) (L ls : list str) : Prop :=
  Forall (λ l, line_ok l = true) ls ∧ NoDup (chunks ls).2.*1 ∧
  Forall (λ p, find m p.1 = None) (chunks ls).2 ∧
  NoDup (fields (cur, L ++ (chunks ls).1)) ∧ Forall (λ p, NoDup (fields p)) (chunks ls).2.

Definition set_all (m cs : list (str * list str)) : list (str * list str) :=
  foldl (λ m p, set m p.1 p.2) m cs.

Lemma fields_prefix s L1 L2 : NoDup (fields (s, L1 ++ L2)) → NoDup (fields (s, L1)).
Proof. unfold fields. simpl. rewrite chunk_entries_app, fmap_app. by intros [? _]%NoDup_app. Qed.

Lemma rest_ok_body m cur L line ls :
  section_header line = None → find m cur = Some L →
  rest_ok m cur L (line :: ls) ↔
  body_ok cur L line ∧ rest_ok (set m cur (L ++ [line])) cur (L ++ [line]) ls.
Proof.
  intros Hh Hf. unfold rest_ok, body_ok. simpl. rewrite Hh. destruct (chunks ls) as [l0 rest].
  simpl. rewrite Forall_cons, <- app_assoc. simpl.
  assert (Hm : Forall (λ p, find m p.1 = None) rest ↔
               Forall (λ p, find (set m cur (L ++ [line])) p.1 = None) rest).
  { apply Forall_proper; [|done]. intros p. simpl. destruct (key_cases p.1 cur) as [->|Hne].
    - by rewrite find_set_eq, Hf.
    - by rewrite find_set_ne. }
  rewrite <- Hm.
  assert (Hp : NoDup (fields (cur, L ++ line :: l0)) → NoDup (fields (cur, L ++ [line]))).
  { intros H. apply (fields_prefix _ _ l0). by rewrite <- app_assoc. }
  naive_solver.
Qed.

Lemma rest_ok_header m cur L s line ls :
  section_header line = Some s → NoDup (fields (cur, L)) →
  rest_ok m cur L (line :: ls) ↔
  ends_section line = true ∧ find m s = None ∧ rest_ok (set m s [line]) s [line] ls.
Proof.
  intros Hh Hnd. unfold rest_ok. simpl. rewrite Hh. destruct (chunks ls) as [l0 rest].
  csimpl. rewrite !Forall_cons, NoDup_cons, app_nil_r. simpl.
  assert (Hl : line_ok line = ends_section line).
  { unfold line_ok, section_header in *. destruct (no_entry line); [done|].
    by destruct (starts_section line). }
  rewrite Hl.
  assert (Hm : Forall (λ p, find (set m s [line]) p.1 = None) rest ↔
               s ∉ rest.*1 ∧ Forall (λ p, find m p.1 = None) rest).
  { clear. induction rest as [|p rest IH]; csimpl; [split; [split; [apply not_elem_of_nil|done]|done]|].
    rewrite !Forall_cons, IH, not_elem_of_cons. destruct (key_cases p.1 s) as [->|Hne].
    - rewrite find_set_eq. naive_solver.
    - rewrite find_set_ne by done. naive_solver. }
  rewrite Hm. naive_solver.
Qed.

(** [load_lines] succeeds exactly on such lines, and then holds their chunks. *)
Lemma load_lines_spec ls cur st L :
  loaded st → find (_allLines st) cur = Some L →
  ∃ st', loaded st' ∧
    (rest_ok (_allLines st) cur L ls ∧ load_lines cur ls st = (SUCCESS, st') ∧
     _allLines st' = set_all (_allLines st) ((cur, L ++ (chunks ls).1) :: (chunks ls).2) ∨
     ¬ rest_ok (_allLines st) cur L ls ∧ load_lines cur ls st = (WRONG_SYNTAX, st')).
Proof.
  revert cur st L. induction ls as [|line ls IH]; intros cur st L Hst Hf; cbn [load_lines].
  { exists st. split; [done|]. left. unfold rest_ok. simpl. rewrite app_nil_r.
    split; [|by rewrite set_same]. split_and!; [constructor|constructor|constructor| |constructor].
    pose proof (ld_fields _ Hst cur) as Hnd. unfold get in Hnd. by rewrite Hf in Hnd. }
  destruct (section_header line) as [s|] eqn:Hh.
  - assert (Hnd : NoDup (fields (cur, L))).
    { pose proof (ld_fields _ Hst cur) as Hnd. unfold get in Hnd. by rewrite Hf in Hnd. }
    rewrite (load_line_header _ _ _ _ Hh).
    setoid_rewrite (rest_ok_header _ _ _ _ _ _ Hh Hnd).
    destruct (ends_section line); [|exists st; split; [done|right; naive_solver]].
    destruct (find (_allLines st) s) as [L'|] eqn:Es; [exists st; split; [done|right; naive_solver]|].
    assert (Hp : push_back (_allLines st) s line = set (_allLines st) s [line])
      by (unfold push_back, get; by rewrite Es).
    rewrite Hp. edestruct (IH s {| _data := _data st; _allLines := set (_allLines st) s [line] |} [line])
      as (st' & Hst' & HIH).
    { apply loaded_set; [done| |apply Hst|done|].
      - unfold fields. simpl. rewrite (header_no_entry _ _ _ _ Hh). constructor.
      - rewrite (ld_entries _ Hst). unfold get. rewrite Es. simpl.
        by rewrite (header_no_entry _ _ _ _ Hh). }
    { apply find_set_eq. }
    exists st'. split; [done|]. unfold set_all in HIH |- *. simpl in HIH |- *. rewrite Hh.
    destruct (chunks ls) as [l0 rest]. simpl in HIH |- *.
    rewrite app_nil_r, (set_same (_allLines st) cur) by done. rewrite set_set in HIH. naive_solver.
  - setoid_rewrite (rest_ok_body _ _ _ _ _ Hh Hf).
    destruct (load_line_body cur line st L Hh Hst Hf) as
      [(Hb & st1 & -> & Hst1 & El)|(Hb & st1 & -> & Hst1)];
      [|exists st1; split; [done|right; naive_solver]].
    destruct (IH cur st1 (L ++ [line]) Hst1) as (st' & Hst' & HIH);
      [by rewrite El, find_set_eq|].
    exists st'. split; [done|]. rewrite El in HIH. simpl in HIH |- *. rewrite Hh.
    destruct (chunks ls) as [l0 rest]. simpl in HIH |- *.
    rewrite set_set, <- app_assoc in HIH. naive_solver.
Qed.

Lemma sorted_set_all m cs : sorted m → sorted (set_all m cs).
Proof. revert m. unfold set_all. induction cs; simpl; auto with clock. Qed.

Lemma set_all_perm cs m :
  NoDup cs.*1 → Forall (λ p, find m p.1 = None) cs → set_all m cs ≡ₚ cs ++ m.
Proof.
  unfold set_all. revert m. induction cs as [|[k v] cs IH]; csimpl; intros m Hnd Hm; [done|].
  apply NoDup_cons in Hnd as [Hk Hnd]. apply Forall_cons in Hm as [Hf Hm]. simpl in Hf.
  rewrite IH; [|done|].
  - by rewrite (set_perm _ _ _ Hf), Permutation_middle.
  - apply Forall_forall. intros p Hp. rewrite Forall_forall in Hm. rewrite find_set_ne; [by apply Hm|].
    intros <-. apply Hk. by apply list_elem_of_fmap_2.
Qed.

Lemma initial_loaded :
  loaded {| _data := touch [] global []; _allLines := touch [] global [] |}.
Proof.
  assert (H : ∀ A s, get (touch ([] : list (str * list A)) global []) s [] = [])
    by (intros; by rewrite get_touch).
  split; simpl; [repeat constructor..| |]; intros s; rewrite !H; [done|constructor].
Qed.

Lemma rest_ok_file content :
  rest_ok (touch [] global []) global [] (read_lines content) ↔ file_ok content.
Proof.
  assert (Ht : ∀ k, find (touch ([] : list (str * list str)) global []) k = None ↔ k ≠ global).
  { intros k. destruct (key_cases k global) as [->|Hne]; [by rewrite find_touch_eq|].
    by rewrite find_touch_ne. }
  unfold rest_ok, file_ok, file_chunks. revert Ht. generalize (touch ([] : list (str * list str)) global []).
  intros m Ht. destruct (chunks _) as [l0 rest]. csimpl. rewrite NoDup_cons, Forall_cons.
  assert (Hm : Forall (λ p, find m p.1 = None) rest ↔ global ∉ rest.*1).
  { induction rest as [|p rest IH]; csimpl; [split; [intros _; apply not_elem_of_nil|done]|].
    rewrite Forall_cons, not_elem_of_cons, IH, Ht. naive_solver. }
  rewrite Hm. naive_solver.
Qed.

Lemma load_spec content st :
  ∃ st', loaded st' ∧
    (file_ok content ∧ load (Some content) st = (SUCCESS, st') ∧
     _allLines st' = set_all [] (file_chunks content) ∨
     ¬ file_ok content ∧ load (Some content) st = (WRONG_SYNTAX, st')).
Proof.
  destruct (load_lines_spec (read_lines content) global _ [] initial_loaded)
    as (st' & Hst' & HS); [done|].
  exists st'. split; [done|]. rewrite rest_ok_file in HS.
  destruct HS as [(Hok & HS & E)|(Hok & HS)]; [left|by right].
  split_and!; [done|done|]. rewrite E. unfold file_chunks. by destruct (chunks _).
Qed.

Lemma load_success content st st' :
  load (Some content) st = (SUCCESS, st') →
  file_ok content ∧ loaded st' ∧ sorted (_allLines st') ∧ _allLines st' ≡ₚ file_chunks content.
Proof.
  destruct (load_spec content st) as (st1 & Hl & [(Hok & -> & E)|(Hok & ->)]); intros; simplify_eq.
  split_and!; [done|done|apply Hl|]. rewrite E.
  rewrite set_all_perm, app_nil_r; [done|apply Hok|]. by apply Forall_true.
Qed.

(** C37: [load] terminates and accepts exactly the texts whose lines are empty,
    have a single character (whatever it is), are comments (begin with a semicolon),
    closed section lines (begin with an opening and end with a closing bracket) or do
    not begin with an opening bracket and have a [=], where no section comes twice
    (nor [global] as a section line) and no field twice in its section; it then
    holds the lines of every section, in key order, and for every section the
    entries of these lines in their order. Any other text is WRONG_SYNTAX. *)
Theorem load_accepts content st :
  (file_ok content →
   ∃ st', load (Some content) st = (SUCCESS, st') ∧
     sorted (_allLines st') ∧ _allLines st' ≡ₚ file_chunks content ∧
     ∀ s, get (_data st') s [] = chunk_entries s 0 (get (_allLines st') s [])) ∧
  (¬ file_ok content → (load (Some content) st).1 = WRONG_SYNTAX).
Proof.
  destruct (load_spec content st) as (st' & Hl & [(Hok & HS & E)|(Hok & HS)]);
    (split; [intros H|intros H; try done]); [|done|by rewrite HS].
  exists st'. destruct (load_success _ _ _ HS) as (_ & _ & Hs & Hp).
  split_and!; [done..|apply Hl].
Qed.

(** Whatever the file is, also one with an error or none at all, [load]
    leaves the parser in a state that satisfies the invariant. *)
Theorem load_ok file st : ini_ok st → ini_ok (load file st).2.
Proof.
  intros Hok. destruct file as [content|]; [|done].
  destruct (load_spec content st) as (st' & Hl & [(_ & -> & _)|(_ & ->)]); by apply loaded_ok.
Qed.

Lemma load_ok_witness :
  ini_ok IniParser_new ∧ ini_ok (load (Some (lit "a=1")) IniParser_new).2.
Proof. split; [apply ini_ok_new|apply (load_ok _ _ ini_ok_new)]. Defined.

(** * What [save] writes *)

(** The line that [save] writes for line [i]. *)
Fixpoint saved_lines (data : list entry) (i : nat) (lines : list str) : list str :=
  match lines with
  | [] => []
  | line :: lines' =>
      match data with
      | t :: data' =>
          if (i =? INDEX t)%nat then (FIELD t ++ "="%char :: VALUE t) :: saved_lines data' (S i) lines'
          else line :: saved_lines data (S i) lines'
      | [] => line :: saved_lines data (S i) lines'
      end
  end.

Lemma save_section_lines data i next lines :
  save_section data i next lines = text_of (saved_lines (drop next data) i lines).
Proof.
  unfold text_of. revert i next. induction lines as [|line lines IH]; intros i next; [done|].
  cbn [save_section saved_lines]. destruct (data !! next) as [t|] eqn:E.
  - rewrite (drop_S _ _ _ E). destruct (i =? INDEX t)%nat; csimpl; rewrite IH; [|by rewrite (drop_S _ _ _ E)].
    rewrite <- !app_assoc. simpl. by rewrite <- !app_assoc.
  - apply lookup_ge_None in E. rewrite drop_ge by done. csimpl. by rewrite IH, drop_ge.
Qed.

(** All lines that [save] writes. *)
Definition output_lines (st : IniParser) : list str :=
  mjoin ((λ p, saved_lines (get (_data st) p.1 []) 0 p.2) <$> _allLines st).

Lemma save_output st :
  (save true st).1 =
  (SUCCESS, Some (take (length (text_of (output_lines st)) - 1) (text_of (output_lines st)))).
Proof.
  assert (E : mjoin ((λ p, save_section (get (_data st) p.1 []) 0 0 p.2) <$> _allLines st) =
              text_of (output_lines st)).
  { unfold output_lines. induction (_allLines st) as [|p m IH]; csimpl; [done|].
    by rewrite IH, save_section_lines, drop_0, text_of_app. }
  unfold save. simpl. by rewrite E.
Qed.

(** The entries of a line are that line. *)
Lemma find_char_split c s n :
  find_char c s = Some n → s = take n s ++ c :: drop (n + 1) s.
Proof.
  revert n. induction s as [|a s IH]; simpl; intros n H; [done|].
  destruct (a =? c)%char eqn:E.
  - apply Ascii.eqb_eq in E as ->. by simplify_eq.
  - apply fmap_Some in H as (n' & H & ->). simpl. f_equal. by apply IH.
Qed.

Lemma saved_lines_skip data i line lines :
  Forall (λ t, (i < INDEX t)%nat) data →
  saved_lines data i (line :: lines) = line :: saved_lines data (S i) lines.
Proof.
  intros Hd. simpl. destruct Hd as [|t data Ht _]; [done|].
  by case_match; bool_to_prop; [lia|].
Qed.

Lemma saved_lines_entry t data i line lines :
  INDEX t = i →
  saved_lines (t :: data) i (line :: lines) =
  (FIELD t ++ "="%char :: VALUE t) :: saved_lines data (S i) lines.
Proof. intros <-. simpl. by rewrite Nat.eqb_refl. Qed.

Lemma chunk_entries_after s i lines : Forall (λ t, (i < INDEX t)%nat) (chunk_entries s (S i) lines).
Proof. apply Forall_forall. intros t [_ ?]%chunk_entries_In. lia. Qed.

Lemma saved_lines_loaded s i lines : saved_lines (chunk_entries s i lines) i lines = lines.
Proof.
  revert i. induction lines as [|line lines IH]; intros i; [done|]. cbn [chunk_entries].
  assert (Hskip : saved_lines (chunk_entries s (S i) lines) i (line :: lines) = line :: lines)
    by (by rewrite saved_lines_skip, IH by apply chunk_entries_after).
  unfold line_entry. destruct (_ || _); [done|].
  destruct (find_char "="%char line) as [n|] eqn:En; [|done].
  apply find_char_split in En. cbn [app]. rewrite saved_lines_entry, IH by done. cbn [FIELD VALUE].
  rewrite (take_ge (drop _ _)) by (rewrite length_drop; lia). by rewrite <- En.
Qed.

Lemma output_lines_loaded st :
  loaded st → output_lines st = mjoin (_allLines st).*2.
Proof.
  intros [_ Hs He _]. unfold output_lines. f_equal.
  apply list_eq. intros i. rewrite !list_lookup_fmap.
  destruct (_allLines st !! i) as [[s ls]|] eqn:E; [|done]. simpl.
  apply list_elem_of_lookup_2, (find_Some _ _ _ Hs) in E.
  rewrite He. unfold get. rewrite E. simpl. by rewrite saved_lines_loaded.
Qed.

(** C24: loading a text and saving writes exactly the lines of the text, section
    by section in key order. *)
Theorem load_save_permutes content st st' :
  load (Some content) st = (SUCCESS, st') →
  ∃ m, sorted m ∧ m ≡ₚ file_chunks content ∧
    (save true st').1 =
    (SUCCESS, Some (take (length (text_of (mjoin m.*2)) - 1) (text_of (mjoin m.*2)))).
Proof.
  intros (_ & Hl & Hs & Hp)%load_success. exists (_allLines st'). split_and!; [done..|].
  by rewrite save_output, output_lines_loaded.
Qed.

(** The chunks that have lines. *)
Definition with_lines (m : list (str * list str)) : list (str * list str) :=
  filter (λ p, p.2 ≠ []) m.

Lemma join_with_lines m : mjoin (with_lines m).*2 = mjoin m.*2.
Proof.
  unfold with_lines. induction m as [|[s ls] m IH]; csimpl; [done|].
  destruct ls as [|l ls]; [by rewrite filter_cons_False by naive_solver|].
  rewrite filter_cons_True by done. csimpl. by rewrite IH.
Qed.

Lemma sorted_with_lines m : sorted m → sorted (with_lines m).
Proof.
  unfold sorted, with_lines. induction 1 as [|p m Hm IH Hp]; [constructor|].
  rewrite filter_cons. case_decide; [|done]. constructor; [done|].
  apply Forall_forall. intros q [_ Hq]%list_elem_of_filter. rewrite Forall_forall in Hp. by apply Hp.
Qed.

Lemma join_file_chunks content : mjoin (file_chunks content).*2 = read_lines content.
Proof.
  unfold file_chunks. destruct (chunks (read_lines content)) as [l0 rest] eqn:E.
  revert l0 rest E. induction (read_lines content) as [|line ls IH]; simpl; intros l0 rest E; simplify_eq.
  - done.
  - destruct (chunks ls) as [l1 rest1]. destruct (section_header line); simplify_eq; csimpl;
      rewrite <- (IH _ _ eq_refl); done.
Qed.

(** Loading a text whose sections come in key order, and saving, gives
    back the text: comments, empty lines and the order of the entries included. *)
Theorem load_save_identity content st st' :
  load (Some content) st = (SUCCESS, st') →
  sorted (with_lines (file_chunks content)) →
  (save true st').1 = (SUCCESS, Some content).
Proof.
  intros (_ & Hl & Hs & Hp)%load_success Hsorted.
  rewrite save_output, output_lines_loaded by done.
  assert (E : mjoin (_allLines st').*2 = read_lines content).
  { rewrite <- join_file_chunks, <- join_with_lines, <- (join_with_lines (file_chunks content)).
    do 2 f_equal. apply sorted_perm_eq; [by apply sorted_with_lines|done|].
    unfold with_lines. by rewrite Hp. }
  rewrite E, read_lines_text. do 3 f_equal. rewrite length_app. simpl.
  by rewrite Nat.add_sub, take_app_length.
Qed.

(** * Saving and loading *)

(** A field and a value that [load] finds again in a line [field=value]. *)
Record entry_fits (t : entry) : Prop := {
  ef_field : one_line (FIELD t);
  ef_value : one_line (VALUE t);
  ef_key : "="%char ∉ FIELD t;
  ef_line : no_entry (FIELD t ++ "="%char :: VALUE t) = false;
  ef_start : starts_section (FIELD t ++ "="%char :: VALUE t) = false
}.

Definition header_of (s : str) : str := "["%char :: s ++ ["]"%char].

(** The lines from line [i] on that hold no entry are empty, have one character
    or are comments. *)
Definition plain_lines (data : list entry) (i : nat) (lines : list str) : Prop :=
  ∀ j line, lines !! j = Some line → (i + j)%nat ∉ INDEX <$> data →
    no_entry line = true ∧ one_line line.

(** A parser whose text loads again. *)
Record saveable (st : IniParser) : Prop := {
  sv_ok : ini_ok st;
  sv_entries s : Forall entry_fits (get (_data st) s []);
  sv_global : plain_lines (get (_data st) global []) 0 (get (_allLines st) global []);
  sv_sections s ls : find (_allLines st) s = Some ls → s ≠ global →
    one_line s ∧ Forall (λ t, (0 < INDEX t)%nat) (get (_data st) s []) ∧
    ∃ ls', ls = header_of s :: ls' ∧ plain_lines (get (_data st) s []) 1 ls';
  sv_first : get (_allLines st) global [] = [] ∨
    Forall (λ p, klt p.1 global = false) (_allLines st)
}.

Definition body_line (l : str) : Prop :=
  one_line l ∧ section_header l = None ∧ line_ok l = true.

(** The entries of section [s] in lines [i] to [i + n]. *)
Definition entries_in (s : str) (i n : nat) (data : list entry) : Prop :=
  Forall (λ t, SECTION t = s ∧ entry_fits t ∧ (i <= INDEX t < i + n)%nat) data ∧
  StronglySorted lt (INDEX <$> data).

Lemma find_char_app f v : "="%char ∉ f → find_char "="%char (f ++ "="%char :: v) = Some (length f).
Proof.
  induction f as [|c f IH]; simpl; [done|]. intros [Hc Hf]%not_elem_of_cons.
  destruct (c =? "=")%char eqn:E; [by apply Ascii.eqb_eq in E as ->|]. by rewrite IH.
Qed.

Lemma entry_line s i t :
  entry_fits t → SECTION t = s → INDEX t = i →
  line_entry s i (FIELD t ++ "="%char :: VALUE t) = [t] ∧
  body_line (FIELD t ++ "="%char :: VALUE t).
Proof.
  intros [H1 H2 H3 H4 H5] <- <-. unfold line_entry, body_line, section_header, line_ok.
  rewrite H4, H5, find_char_app by done. simpl. split; [|split_and!; [|done..]].
  - rewrite take_app_length, drop_app_ge, length_app by lia.
    replace (length (FIELD t) + 1 - length (FIELD t))%nat with 1%nat by lia. simpl.
    rewrite drop_0, take_ge by lia. by destruct t.
  - unfold one_line. rewrite elem_of_app, elem_of_cons. by intros [?|[?|?]].
Qed.

Lemma plain_line s i l :
  no_entry l = true → one_line l → line_entry s i l = [] ∧ body_line l.
Proof.
  intros H ?. unfold line_entry, body_line, section_header, line_ok. by rewrite H.
Qed.

Lemma plain_tail data i line lines :
  plain_lines data i (line :: lines) → plain_lines data (S i) lines.
Proof.
  intros Hp j l Hj Hd. apply (Hp (S j) l Hj).
  by replace (i + S j)%nat with (S i + j)%nat by lia.
Qed.

(** What [save] writes for a section is read back as its entries. *)
Lemma saved_lines_body s i lines data :
  entries_in s i (length lines) data → plain_lines data i lines →
  chunk_entries s i (saved_lines data i lines) = data ∧
  Forall body_line (saved_lines data i lines).
Proof.
  revert i data. induction lines as [|line lines IH]; intros i data [Hd Hs] Hp.
  { destruct Hd as [|t data (_ & _ & Ht) _]; [done|]. simpl in Ht. lia. }
  destruct (decide (i ∈ INDEX <$> data)) as [Hin|Hin].
  - destruct data as [|t data]; [by apply not_elem_of_nil in Hin|]. csimpl in *.
    apply Forall_cons in Hd as [(Hts & Htf & Hti) Hd].
    apply StronglySorted_inv in Hs as [Hs Hlt]. rewrite Forall_fmap in Hlt.
    assert (Hi : INDEX t = i).
    { apply elem_of_cons in Hin as [Hi|(u & -> & Hu)%list_elem_of_fmap]; [done|].
      rewrite Forall_forall in Hlt, Hd. specialize (Hlt u Hu). specialize (Hd u Hu). simpl in *. lia. }
    destruct (entry_line s i t Htf Hts Hi) as [He Hb].
    rewrite Hi, Nat.eqb_refl. cbn [chunk_entries]. rewrite He.
    destruct (IH (S i) data) as [-> HF].
    + split; [|done]. apply Forall_forall. intros u Hu. rewrite Forall_forall in Hlt, Hd.
      specialize (Hlt u Hu). destruct (Hd u Hu) as (? & ? & ?). split_and!; [done..| |]; simpl in *; lia.
    + intros j l Hj Hn. apply (Hp (S j) l Hj). simpl. intros [?|Hx]%elem_of_cons; [lia|].
      apply Hn. by replace (S i + j)%nat with (i + S j)%nat by lia.
    + split; [done|]. by constructor.
  - assert (Hlt : Forall (λ t, (i < INDEX t)%nat) data).
    { apply Forall_forall. intros t Ht. rewrite Forall_forall in Hd.
      destruct (Hd t Ht) as (_ & _ & ?). destruct (decide (INDEX t = i)) as [<-|]; [|lia].
      destruct Hin. by apply list_elem_of_fmap_2. }
    rewrite (saved_lines_skip _ _ _ _ Hlt). cbn [chunk_entries].
    destruct (Hp 0%nat line eq_refl) as [Hn Ho]; [by rewrite Nat.add_0_r|].
    destruct (plain_line s i line Hn Ho) as [-> Hb].
    destruct (IH (S i) data) as [-> HF].
    + split; [|done]. apply Forall_forall. intros u Hu. rewrite Forall_forall in Hlt, Hd.
      specialize (Hlt u Hu). destruct (Hd u Hu) as (? & ? & ?). split_and!; [done..| |]; simpl in *; lia.
    + by eapply plain_tail.
    + split; [done|]. by constructor.
Qed.

(** The output of one section, and of all but [global]. *)
Definition output (st : IniParser) (p : str * list str) : str * list str :=
  (p.1, saved_lines (get (_data st) p.1 []) 0 p.2).

Definition sections (st : IniParser) : list (str * list str) :=
  filter (λ p, p.1 ≠ global) (_allLines st).

Lemma header_line s :
  one_line s → section_header (header_of s) = Some s ∧ line_ok (header_of s) = true ∧
  one_line (header_of s).
Proof.
  intros Hs. assert (Hn : no_entry (header_of s) = false) by (by destruct s).
  assert (Hb : starts_section (header_of s) = true) by done.
  assert (He : ends_section (header_of s) = true).
  { unfold ends_section. change (header_of s) with (("["%char :: s) ++ ["]"%char]).
    by rewrite last_snoc. }
  unfold section_header, line_ok. rewrite Hn, Hb, He. unfold header_of, one_line. cbn [length drop].
  rewrite length_app, drop_0. split_and!; [|done|].
  - f_equal. simpl. replace (length s + 1 - 1)%nat with (length s) by lia. by rewrite take_app_length.
  - rewrite elem_of_cons, elem_of_app, elem_of_cons. intros [?|[?|[?|?%not_elem_of_nil]]]; done.
Qed.

Lemma entries_in_ok st s :
  saveable st → entries_in s 0 (length (get (_allLines st) s [])) (get (_data st) s []).
Proof.
  intros Hst. destruct (ok_entries _ (sv_ok _ Hst) s) as (H1 & _ & H3 & H4).
  split; [|done]. apply Forall_forall. intros t Ht.
  pose proof (sv_entries _ Hst s) as H5. rewrite Forall_forall in H1, H4, H5.
  split_and!; [by apply H1|by apply H5|lia|by apply H4].
Qed.

Lemma global_output st :
  saveable st →
  chunk_entries global 0 (output st (global, get (_allLines st) global [])).2 =
    get (_data st) global [] ∧
  Forall body_line (output st (global, get (_allLines st) global [])).2.
Proof. intros Hst. apply saved_lines_body; [by apply entries_in_ok|apply Hst]. Qed.

Lemma section_output st s ls :
  saveable st → find (_allLines st) s = Some ls → s ≠ global →
  chunk_entries s 0 (output st (s, ls)).2 = get (_data st) s [] ∧
  ∃ body, (output st (s, ls)).2 = header_of s :: body ∧ Forall body_line body ∧ one_line s.
Proof.
  intros Hst Hf Hne. destruct (sv_sections _ Hst s ls Hf Hne) as (Hs & H0 & ls' & -> & Hp).
  destruct (header_line s Hs) as (Hh & _ & _). unfold output. simpl.
  assert (Hskip := saved_lines_skip _ 0 (header_of s) ls' H0). simpl in Hskip. rewrite Hskip.
  cbn [chunk_entries]. rewrite (header_no_entry s 0 _ _ Hh). cbn [app].
  pose proof (entries_in_ok st s Hst) as [He Hsort]. unfold get at 1 in He. rewrite Hf in He.
  destruct (saved_lines_body s 1 ls' (get (_data st) s [])) as [-> HF]; [|done|].
  - split; [|done]. apply Forall_forall. intros t Ht. rewrite Forall_forall in He, H0.
    specialize (H0 t Ht). destruct (He t Ht) as (? & ? & ?). simpl in *. split_and!; [done..| |]; lia.
  - split; [done|]. by eexists.
Qed.

Lemma chunks_body body rest :
  Forall body_line body → chunks (body ++ rest) = (body ++ (chunks rest).1, (chunks rest).2).
Proof.
  induction 1 as [|l body (_ & Hl & _) _ IH]; simpl; [by destruct (chunks rest)|].
  by rewrite IH, Hl.
Qed.

(** A section as [save] writes it. *)
Definition section_chunk (p : str * list str) : Prop :=
  ∃ body, p.2 = header_of p.1 :: body ∧ Forall body_line body ∧ one_line p.1.

Lemma chunks_sections cs : Forall section_chunk cs → chunks (mjoin cs.*2) = ([], cs).
Proof.
  induction 1 as [|[s ls] cs (body & E & Hb & Hs) _ IH]; [done|].
  simpl in E, Hs. subst ls. csimpl. rewrite chunks_body, IH by done.
  destruct (header_line s Hs) as (-> & _). simpl. by rewrite app_nil_r.
Qed.

Lemma section_chunk_lines p :
  section_chunk p → Forall one_line p.2 ∧ Forall (λ l, line_ok l = true) p.2.
Proof.
  intros (body & -> & Hb & Hs). destruct (header_line p.1 Hs) as (_ & ? & ?).
  rewrite !Forall_cons. split; (split; [done|]);
    (eapply Forall_impl; [exact Hb|]); by intros l (? & _ & ?).
Qed.

Lemma sections_output st :
  saveable st → Forall section_chunk (output st <$> sections st).
Proof.
  intros Hst. apply Forall_fmap, Forall_forall. intros [s ls] [Hne Hin]%list_elem_of_filter.
  apply (find_Some _ _ _ (ok_lines_sorted _ (sv_ok _ Hst))) in Hin.
  destruct (section_output st s ls Hst Hin Hne) as (_ & body & E & Hb & Hs).
  by exists body.
Qed.

Lemma filter_id {A} (P : A → Prop) `{!∀ x, Decision (P x)} l : Forall P l → filter P l = l.
Proof. induction 1 as [|x l Hx _ IH]; [done|]. by rewrite filter_cons_True, IH. Qed.

(** The lines of [global] come first. *)
Lemma output_lines_split st :
  saveable st →
  output_lines st = (output st (global, get (_allLines st) global [])).2 ++
                    mjoin (output st <$> sections st).*2.
Proof.
  intros Hst. pose proof (ok_lines_sorted _ (sv_ok _ Hst)) as Hs.
  pose proof (sv_first _ Hst) as Hg. unfold output_lines, sections.
  assert (E : ∀ m, mjoin ((λ p, saved_lines (get (_data st) p.1 []) 0 p.2) <$> m) =
                   mjoin (output st <$> m).*2) by (intros m; by rewrite <- list_fmap_compose).
  rewrite E. clear E. induction (_allLines st) as [|[k v] m IH]; [done|].
  pose proof Hs as [Hs' Hlt]%sorted_cons. destruct (key_cases k global) as [->|Hne].
  - assert (Hget : get ((global, v) :: m) global [] = v) by (unfold get; by rewrite find_cons_eq).
    rewrite filter_cons_False by naive_solver. rewrite Hget. csimpl. do 4 f_equal.
    symmetry. apply filter_id. eapply Forall_impl; [exact Hlt|].
    intros p Hp. by apply not_eq_sym, klt_ne.
  - rewrite filter_cons_True by done.
    assert (Hnil : get m global [] = []).
    { destruct Hg as [Hg|Hg].
      - unfold get in Hg |- *. by rewrite find_cons_ne in Hg by done.
      - apply Forall_cons in Hg as [Hg _]. cbn [fst] in Hg.
        destruct (klt global k) eqn:Ek; [|by pose proof (klt_total _ _ Hg Ek)].
        unfold get. rewrite find_lt_None; [done|].
        eapply Forall_impl; [exact Hlt|]. intros p Hp. by eapply klt_trans. }
    assert (Hget : get ((k, v) :: m) global [] = get m global [])
      by (unfold get; by rewrite find_cons_ne).
    csimpl. rewrite Hget, IH, Hnil; [done|done|by left].
Qed.

Lemma file_chunks_output st content :
  saveable st → (save true st).1 = (SUCCESS, Some content) →
  ∃ gl, file_chunks content = (global, gl) :: (output st <$> sections st) ∧
    chunk_entries global 0 gl = get (_data st) global [] ∧ Forall body_line gl ∧
    Forall (λ l, line_ok l = true) (read_lines content) ∧
    (output_lines st ≠ [] → gl = (output st (global, get (_allLines st) global [])).2).
Proof.
  intros Hst. rewrite save_output. intros [= <-].
  destruct (global_output st Hst) as [Hgd Hgb].
  pose proof (sections_output st Hst) as Hcs.
  assert (Hlines : Forall (λ l, one_line l ∧ line_ok l = true) (output_lines st)).
  { rewrite (output_lines_split st Hst). apply Forall_app. split.
    - eapply Forall_impl; [exact Hgb|]. by intros l (? & _ & ?).
    - clear -Hcs. induction Hcs as [|p cs Hp Hcs IH]; [constructor|]. csimpl.
      apply Forall_app. split; [|done]. by apply Forall_and, section_chunk_lines. }
  apply Forall_and in Hlines as [Ho Hl].
  destruct (decide (output_lines st = [])) as [E|E].
  - exists [[]]. rewrite E. simpl. rewrite (output_lines_split st Hst) in E.
    apply app_nil in E as [E1 E2]. rewrite E1 in Hgd.
    assert (Hnil : output st <$> sections st = []).
    { destruct (output st <$> sections st) as [|p cs]; [done|].
      apply Forall_cons in Hcs as [(body & Hp & _) _]. csimpl in E2. by rewrite Hp in E2. }
    rewrite Hnil. split_and!; [done|done| |by repeat constructor|done].
    repeat constructor. apply not_elem_of_nil.
  - exists (output st (global, get (_allLines st) global [])).2.
    unfold file_chunks. rewrite read_lines_of_text by done.
    split_and!; [|done..]. rewrite (output_lines_split st Hst), chunks_body by done.
    rewrite chunks_sections by done. cbn [fst snd]. by rewrite app_nil_r.
Qed.

Lemma section_keys st : (output st <$> sections st).*1 = (sections st).*1.
Proof. rewrite <- list_fmap_compose. by apply list_fmap_ext. Qed.

Lemma sorted_keys_NoDup {V} (m : list (str * V)) : sorted m → NoDup m.*1.
Proof.
  induction m as [|[k v] m IH]; intros Hs; csimpl; [constructor|].
  apply sorted_cons in Hs as [Hs Hlt]. apply NoDup_cons. split; [|by apply IH].
  intros (p & -> & Hp)%list_elem_of_fmap. rewrite Forall_forall in Hlt.
  specialize (Hlt p Hp). cbv beta in Hlt. by rewrite klt_irrefl in Hlt.
Qed.

(** The sections of the text, as [load] finds them. *)
Lemma saved_file_ok st content :
  saveable st → (save true st).1 = (SUCCESS, Some content) → file_ok content.
Proof.
  intros Hst Hc. destruct (file_chunks_output st content Hst Hc) as (gl & E & Hg & Hb & Hl & _).
  pose proof (ok_lines_sorted _ (sv_ok _ Hst)) as Hs.
  split; [done|]. rewrite E. csimpl. split.
  - rewrite section_keys. apply NoDup_cons. split.
    + intros (p & Hp & [Hne _]%list_elem_of_filter)%list_elem_of_fmap. done.
    + apply sorted_keys_NoDup. unfold sections. revert Hs. unfold sorted.
      induction 1 as [|p m Hm IH Hp]; [constructor|]. rewrite filter_cons.
      case_decide; [|done]. constructor; [done|]. apply Forall_forall.
      intros q [_ Hq]%list_elem_of_filter. rewrite Forall_forall in Hp. by apply Hp.
  - constructor.
    + unfold fields. simpl. rewrite Hg. apply (ok_entries _ (sv_ok _ Hst)).
    + apply Forall_fmap, Forall_forall. intros [s ls] [Hne Hin]%list_elem_of_filter.
      apply (find_Some _ _ _ Hs) in Hin. unfold fields. simpl.
      destruct (section_output st s ls Hst Hin Hne) as [He _]. simpl in He. rewrite He.
      apply (ok_entries _ (sv_ok _ Hst)).
Qed.

Lemma load_saved st content st0 :
  saveable st → (save true st).1 = (SUCCESS, Some content) →
  ∃ st', load (Some content) st0 = (SUCCESS, st') ∧
    ∀ s, get (_data st') s [] = get (_data st) s [].
Proof.
  intros Hst Hc. pose proof (saved_file_ok st content Hst Hc) as Hok.
  destruct (load_spec content st0) as (st' & Hld & [(_ & HS & _)|(? & _)]); [|done].
  exists st'. split; [done|]. destruct (load_success _ _ _ HS) as (_ & _ & Hs' & Hp).
  destruct (file_chunks_output st content Hst Hc) as (gl & E & Hg & _ & _). rewrite E in Hp.
  pose proof (ok_lines_sorted _ (sv_ok _ Hst)) as Hs.
  intros s. rewrite (ld_entries _ Hld).
  assert (Hget : ∀ ls, (s, ls) ∈ (global, gl) :: (output st <$> sections st) →
                 get (_allLines st') s [] = ls).
  { intros ls Hin. rewrite <- Hp in Hin. apply (find_Some _ _ _ Hs') in Hin.
    unfold get. by rewrite Hin. }
  destruct (key_cases s global) as [->|Hne]; [by rewrite (Hget gl) by left|].
  destruct (find (_allLines st) s) as [ls|] eqn:Ef.
  - destruct (section_output st s ls Hst Ef Hne) as [He _]. rewrite <- He. f_equal. apply Hget.
    right. apply list_elem_of_fmap. exists (s, ls). split; [done|].
    apply list_elem_of_filter. split; [done|]. by apply find_Some.
  - destruct (find (_allLines st') s) as [ls|] eqn:Ef'.
    + apply (find_Some _ _ _ Hs') in Ef'. rewrite Hp in Ef'.
      apply elem_of_cons in Ef' as [?|([s' ls'] & H & [_ Hin]%list_elem_of_filter)%list_elem_of_fmap];
        [congruence|]. injection H as Hss _. simpl in Hss. subst s'.
      apply (find_Some _ _ _ Hs) in Hin. congruence.
    + unfold get at 1. rewrite Ef'. simpl. symmetry.
      pose proof (ok_entries _ (sv_ok _ Hst) s) as (_ & _ & _ & Hi). unfold get at 1 in Hi.
      rewrite Ef in Hi. destruct Hi as [|t l Ht _]; [done|]. simpl in Ht. lia.
Qed.

(** C20: a parser that is [saveable] survives saving and loading, if the file can
    be opened: the text that [save] writes loads successfully, and the parser then has
    the same entries, with the same line numbers, in every section. [saveable] means
    that the state satisfies the invariant; that every field and value contains no line
    end and the field no [=], and the line [field=value] is not taken for a comment or
    a section, that is, has at least two characters and begins neither with a
    semicolon nor with an opening bracket; that every line without an entry is empty,
    has one character or is a comment, and contains no line end; that every section but [global] has a name on
    one line and begins with its section line, the name in brackets, with its entries
    below; and that either
    [global] has no lines or it sorts before all other sections. (Without the last
    condition the entries of [global] move to another section, see
    [global_entries_move].) *)
Theorem save_load st content st0 :
  saveable st → (save true st).1 = (SUCCESS, Some content) →
  ∃ st', load (Some content) st0 = (SUCCESS, st') ∧
    ∀ s, get (_data st') s [] = get (_data st) s [].
Proof. apply load_saved. Qed.

(** * Setting values keeps a state saveable *)

Lemma plain_snoc data i lines t :
  plain_lines data i lines → plain_lines (data ++ [t]) i (lines ++ [[]]).
Proof.
  intros Hp j l Hj Hn. rewrite fmap_app, not_elem_of_app in Hn. destruct Hn as [Hn _].
  apply lookup_app_Some in Hj as [Hj|[_ Hj]]; [by eapply Hp|].
  apply list_elem_of_lookup_2, list_elem_of_singleton in Hj as ->. split; [done|apply not_elem_of_nil].
Qed.

Lemma plain_shape data data' i lines :
  (INDEX <$> data') = (INDEX <$> data) → plain_lines data i lines → plain_lines data' i lines.
Proof. unfold plain_lines. by intros ->. Qed.

Lemma assign_value_fits section field value l l' :
  (∀ t, FIELD t = field → VALUE t = value → entry_fits t) →
  assign_value section field value l = Some l' → Forall entry_fits l → Forall entry_fits l'.
Proof.
  intros Hfit. revert l'. induction l as [|t l IH]; simpl; intros l' Ha Hl; [done|].
  apply Forall_cons in Hl as [Ht Hl]. destruct (str_eqb (SECTION t) section && _) eqn:E.
  - simplify_eq. apply andb_true_iff in E as [_ E%str_eqb_eq]. constructor; [by apply Hfit|done].
  - apply fmap_Some in Ha as (l1 & Ha & ->). constructor; [done|by apply IH].
Qed.

(** A field that can be set: in a new section of a parser without [global]
    lines, or not before them, or in a section that has entries. *)
Definition settable (section : str) (st : IniParser) : Prop :=
  find (_data st) section = None →
  find (_allLines st) section = None ∧ section ≠ global ∧ one_line section ∧
  (get (_allLines st) global [] = [] ∨ klt section global = false).

(** The entries and the lines of [section] become those of an insertion. *)
Lemma saveable_insert section l' ls' st st' :
  saveable st → ini_ok st' → section ≠ global → one_line section →
  _data st' = set (_data st) section l' → _allLines st' = set (_allLines st) section ls' →
  Forall entry_fits l' → Forall (λ t, (0 < INDEX t)%nat) l' →
  (∃ b, ls' = header_of section :: b ∧ plain_lines l' 1 b) →
  (get (_allLines st) global [] = [] ∨ klt section global = false) →
  saveable st'.
Proof.
  intros [Hok He Hg Hs Hf] Hok' Hne Ho Ed El Hfit Hpos Hb Hord.
  split; [done|..]; rewrite ?Ed, ?El.
  - intros s. destruct (key_cases s section) as [->|Hss]; [by rewrite get_set_eq|by rewrite get_set_ne].
  - by rewrite !get_set_ne by done.
  - intros s ls. destruct (key_cases s section) as [->|Hss].
    + rewrite find_set_eq, get_set_eq. intros [= <-] _. by split_and!.
    + rewrite find_set_ne, get_set_ne by done. apply Hs.
  - rewrite get_set_ne by done. destruct Hf as [Hf|Hf]; [by left|].
    destruct Hord as [Hord|Hord]; [by left|right].
    by apply (Forall_key_set (λ k, klt k global = false)).
Qed.

Lemma saveable_insert_global l' ls' st st' :
  saveable st → ini_ok st' → get (_allLines st) global [] ≠ [] →
  _data st' = set (_data st) global l' → _allLines st' = set (_allLines st) global ls' →
  Forall entry_fits l' → plain_lines l' 0 ls' → saveable st'.
Proof.
  intros [Hok He Hg Hs Hf] Hok' Hne Ed El Hfit Hb.
  split; [done|..]; rewrite ?Ed, ?El.
  - intros s. destruct (key_cases s global) as [->|Hss]; [by rewrite get_set_eq|by rewrite get_set_ne].
  - by rewrite !get_set_eq.
  - intros s ls. destruct (key_cases s global) as [->|Hss]; [done|].
    rewrite find_set_ne, get_set_ne by done. apply Hs.
  - destruct Hf as [Hf|Hf]; [done|right].
    apply (Forall_key_set (λ k, klt k global = false)); [done|apply klt_irrefl].
Qed.

Lemma klt_total_false {A} `{KeyOrder K} (m : list (K * A)) k k' v :
  Forall (λ p, klt p.1 k' = false) m → sorted m → find m k = Some v → klt k k' = false.
Proof.
  intros Hm Hs Hf. apply (find_Some _ _ _ Hs) in Hf. rewrite Forall_forall in Hm.
  apply (Hm _ Hf).
Qed.

(** The insertion of a value that was not there. *)
Lemma saveable_append section field value i st st' :
  saveable st → ini_ok st' → entry_fits (Entry section field i value) →
  get (_allLines st) section [] ≠ [] → (i = 0 → section = global)%nat →
  _data st' = set (_data st) section (get (_data st) section [] ++ [Entry section field i value]) →
  _allLines st' = set (_allLines st) section (get (_allLines st) section [] ++ [[]]) →
  saveable st'.
Proof.
  intros Hst Hok' Hfit Hne Hi Ed El.
  assert (Hfits : Forall entry_fits (get (_data st) section [] ++ [Entry section field i value])).
  { apply Forall_app. split; [apply Hst|constructor; [done|constructor]]. }
  destruct (key_cases section global) as [->|Hng].
  - eapply (saveable_insert_global _ _ _ _ Hst Hok' Hne Ed El); [done|].
    apply plain_snoc, Hst.
  - destruct (find (_allLines st) section) as [ls|] eqn:Ef; [|by unfold get in Hne; rewrite Ef in Hne].
    destruct (sv_sections _ Hst section ls Ef Hng) as (Ho & Hpos & b & -> & Hp).
    eapply (saveable_insert section _ _ st _ Hst Hok' Hng Ho Ed El); [done| | |].
    + apply Forall_app. split; [done|]. repeat constructor. simpl.
      destruct i; [by destruct Hng; apply Hi|lia].
    + exists (b ++ [[]]). unfold get at 1. rewrite Ef. split; [done|by apply plain_snoc].
    + destruct (sv_first _ Hst) as [?|Hf]; [by left|right].
      eapply klt_total_false; [exact Hf|apply (sv_ok _ Hst)|exact Ef].
Qed.

(** Assigning an existing entry. *)
Lemma saveable_assign section field value l l' st :
  saveable st → get (_data st) section [] = l → assign_value section field value l = Some l' →
  (∀ t, FIELD t = field → VALUE t = value → entry_fits t) →
  ini_ok {| _data := set (_data st) section l'; _allLines := _allLines st |} →
  saveable {| _data := set (_data st) section l'; _allLines := _allLines st |}.
Proof.
  intros Hst Hl Ea Hfit Hok'. destruct (assign_value_shape _ _ _ _ _ Ea) as (_ & _ & E3).
  pose proof (sv_entries _ Hst section) as He. rewrite Hl in He.
  pose proof (assign_value_fits _ _ _ _ _ Hfit Ea He) as Hfits.
  destruct Hst as [Hok He' Hg Hs Hf]. split; simpl in *; [done|..|done].
  - intros s. destruct (key_cases s section) as [->|Hss]; [by rewrite get_set_eq|by rewrite get_set_ne].
  - destruct (key_cases global section) as [<-|Hss]; [|by rewrite get_set_ne].
    rewrite get_set_eq. eapply plain_shape; [exact E3|by rewrite Hl in Hg].
  - intros s ls Hfs Hne. destruct (Hs s ls Hfs Hne) as (Ho & Hpos & b & -> & Hp).
    destruct (key_cases s section) as [->|Hss]; [|rewrite get_set_ne by done; by eauto 6].
    rewrite get_set_eq. rewrite Hl in Hpos, Hp. split_and!; [done| |].
    + by apply (Forall_shape INDEX (λ i, (0 < i)%nat) l).
    + exists b. split; [done|]. by eapply plain_shape.
Qed.

Lemma setValue_saveable section field value st st' :
  saveable st → settable section st →
  (∀ t, FIELD t = field → VALUE t = value → entry_fits t) →
  setValue_string section field value st = Some st' → saveable st'.
Proof.
  intros Hst Hset Hfit Hst'. pose proof (setValue_string_ok _ _ _ _ _ (sv_ok _ Hst) Hst') as Hok'.
  unfold setValue_string in Hst'. destruct (find (_data st) section) as [l|] eqn:Ef.
  2: { destruct (Hset Ef) as (El & Hne & Ho & Hord). simplify_eq. unfold push_back in *.
    rewrite get_set_eq, set_set in *. unfold get in *. rewrite Ef, El in *. simpl in *.
    eapply (saveable_insert section _ _ st _ Hst Hok' Hne Ho eq_refl eq_refl); [| | |done].
    - constructor; [by apply Hfit|constructor].
    - repeat constructor.
    - eexists. split; [done|]. intros [|j] line Hj; simpl in Hj; [|done].
      simplify_eq. intros []. by left. }
  assert (Hl : get (_data st) section [] = l) by (unfold get; by rewrite Ef).
  destruct (assign_value section field value l) as [l'|] eqn:Ea.
  { injection Hst' as <-. by apply (saveable_assign section field value l). }
  rewrite get_touch in Hst'.
  destruct (last (get (_allLines st) section [])) as [back|] eqn:Eb; [|done].
  assert (Hlines : get (_allLines st) section [] ≠ []) by (intros E; by rewrite E in Eb).
  assert (Hins : ∀ i, (i = 0 → section = global)%nat →
    Some {| _data := push_back (_data st) section (Entry section field i value);
            _allLines := push_back (touch (_allLines st) section []) section [] |} = Some st' →
    saveable st').
  { intros i Hi [= <-]. eapply (saveable_append section field value i st _ Hst Hok'); [|done..| |].
    - by apply Hfit.
    - done.
    - simpl. unfold push_back. by rewrite get_touch, set_touch. }
  assert (Hlong : section ≠ global →
    ∃ b, get (_allLines st) section [] = header_of section :: b).
  { intros Hne. unfold get in Hlines |- *.
    destruct (find (_allLines st) section) as [ls|] eqn:Els; [|done].
    destruct (sv_sections _ Hst section ls Els Hne) as (_ & _ & b & -> & _). by exists b. }
  assert (Hn : length (get (_allLines st) section []) = 0%nat → section = global).
  { intros H0%nil_length_inv. done. }
  destruct (str_eqb back []) eqn:E0; [|by eapply Hins].
  destruct (last l) as [t|]; [|done]. destruct (negb _); [|by eapply Hins].
  eapply Hins; [|exact Hst']. intros Hi. destruct (key_cases section global) as [?|Hne]; [done|].
  destruct (Hlong Hne) as [b Hb]. rewrite Hb in Eb, Hi. apply str_eqb_eq in E0 as ->.
  destruct b; [by simplify_eq|simpl in Hi; lia].
Qed.

(** A value set in a saveable state, in a section and under a name that fit
    on a line, survives: the state is saveable again, and after saving it and
    loading the text a parser finds the value, and every other value. *)
Theorem setValue_save_load section field value st st' content st0 :
  saveable st → settable section st →
  (∀ t, FIELD t = field → VALUE t = value → entry_fits t) →
  setValue_string section field value st = Some st' →
  (save true st').1 = (SUCCESS, Some content) →
  saveable st' ∧
  ∃ st'', load (Some content) st0 = (SUCCESS, st'') ∧
    getValue_string section field st'' = (SUCCESS, value) ∧
    ∀ s f, getValue_string s f st'' = getValue_string s f st'.
Proof.
  intros Hst Hset Hfit Hs Hc.
  pose proof (setValue_saveable _ _ _ _ _ Hst Hset Hfit Hs) as Hst'. split; [done|].
  destruct (load_saved st' content st0 Hst' Hc) as (st'' & Hl & Hd).
  exists st''. split; [done|]. destruct (setValue_string_finds _ _ _ _ _ Hs) as (t & Ht & Hv).
  split; [|intros; rewrite !getValue_string_get]; rewrite ?getValue_string_get, Hd; [|done].
  by rewrite Ht, Hv.
Qed.

(** * Concrete files *)

Definition lines_text (ls : list string) : str :=
  let s := text_of (lit <$> ls) in take (length s - 1) s.

Lemma fits_by_computation t :
  bool_decide (newline ∉ FIELD t ∧ newline ∉ VALUE t ∧ "="%char ∉ FIELD t ∧
    no_entry (FIELD t ++ "="%char :: VALUE t) = false ∧
    starts_section (FIELD t ++ "="%char :: VALUE t) = false) = true → entry_fits t.
Proof. intros (? & ? & ? & ? & ?)%bool_decide_eq_true. by split. Qed.

Lemma demo_saveable : saveable demo.
Proof.
  assert (Hne : ∀ s, s ≠ lit "s" → get (_data demo) s [] = []).
  { intros s Hs. exact (get_set_ne [] (lit "s") s (get (_data demo) (lit "s") []) [] Hs). }
  assert (Hg : lit "s" ≠ global) by by apply (bool_decide_eq_true (lit "s" ≠ global)).
  split; [apply demo_ok|..].
  - intros s. destruct (key_cases s (lit "s")) as [->|Hs]; [|by rewrite Hne].
    repeat constructor; by apply fits_by_computation.
  - intros [|j] l Hj; discriminate Hj.
  - intros s ls. destruct (key_cases s (lit "s")) as [->|Hs].
    + intros [= <-] _. split_and!; [by apply (bool_decide_eq_true (newline ∉ lit "s"))|repeat constructor|].
      eexists. split; [reflexivity|]. intros [|[|[|j]]] l Hj Hn; simplify_eq/=; [by destruct Hn; left| |].
      * destruct Hn. right. by left.
      * split; [done|apply not_elem_of_nil].
    + intros Hf.
      pose proof (find_set_ne [] (lit "s") s (get (_allLines demo) (lit "s") []) Hs) as Hn.
      change (find (_allLines demo) s = None) in Hn. congruence.
  - by left.
Qed.

Definition sorted_file : str := lines_text ["[a]"; "; a comment"; "x=1"; ""; "y=2=3"; "[b]"; "x=4"].
Definition unsorted_file : str := lines_text ["[b]"; "x=1"; "[a]"; "y=2"].

Lemma load_save_permutes_witness :
  ∃ st' m, load (Some unsorted_file) IniParser_new = (SUCCESS, st') ∧
    m ≡ₚ file_chunks unsorted_file ∧
    (save true st').1 =
    (SUCCESS, Some (take (length (text_of (mjoin m.*2)) - 1) (text_of (mjoin m.*2)))).
Proof.
  eexists. destruct (load_save_permutes unsorted_file IniParser_new _ eq_refl) as (m & _ & Hm & Hs).
  exists m. by split_and!.
Defined.

Lemma load_save_identity_witness :
  ∃ st', load (Some sorted_file) IniParser_new = (SUCCESS, st') ∧
         (save true st').1 = (SUCCESS, Some sorted_file).
Proof.
  eexists. split; [reflexivity|]. apply (load_save_identity _ IniParser_new); [reflexivity|].
  unfold sorted, key_lt. repeat constructor.
Defined.

Lemma save_load_witness :
  saveable demo ∧ ∃ content st', (save true demo).1 = (SUCCESS, Some content) ∧
    load (Some content) IniParser_new = (SUCCESS, st') ∧
    ∀ s, get (_data st') s [] = get (_data demo) s [].
Proof.
  split; [apply demo_saveable|].
  destruct (save_load demo _ IniParser_new demo_saveable eq_refl) as (st' & Hl & Hd).
  eexists _, st'. split_and!; [reflexivity|exact Hl|exact Hd].
Defined.

Definition demo_set : IniParser := default demo (setValue_string (lit "s") (lit "c") (lit "v") demo).
Definition demo_text : str := default [] (save true demo_set).1.2.

Lemma setValue_save_load_witness :
  setValue_string (lit "s") (lit "c") (lit "v") demo = Some demo_set ∧
  (save true demo_set).1 = (SUCCESS, Some demo_text) ∧
  ∃ st'', load (Some demo_text) IniParser_new = (SUCCESS, st'') ∧
    getValue_string (lit "s") (lit "c") st'' = (SUCCESS, lit "v").
Proof.
  split; [reflexivity|]. split; [reflexivity|].
  destruct (setValue_save_load (lit "s") (lit "c") (lit "v") demo demo_set demo_text IniParser_new)
    as (_ & st'' & Hl & Hv & _); [apply demo_saveable|done| |reflexivity|reflexivity|].
  - intros [s f i v] Hf Hv. simpl in Hf, Hv. subst. by apply fits_by_computation.
  - exists st''. split; [exact Hl|exact Hv].
Defined.

(** Entries before the first section do not survive loading and saving when
    a section sorts before [global]: the written text puts them into the last
    such section. *)
Theorem global_entries_move :
  ∃ st file st', load (Some (lines_text ["x=1"; "[a]"; "y=2"])) IniParser_new = (SUCCESS, st) ∧
    getValue_string global (lit "x") st = (SUCCESS, lit "1") ∧
    (save true st).1 = (SUCCESS, Some file) ∧ load (Some file) IniParser_new = (SUCCESS, st') ∧
    getValue_string global (lit "x") st' = (VALUE_NOTFOUND, []) ∧
    getValue_string (lit "a") (lit "x") st' = (SUCCESS, lit "1").
Proof. do 3 eexists. split_and!; reflexivity. Qed.

(** Setting a value in section [global] of a new parser, or in a section
    that only has comments, gives a parser whose saved text does not load. *)
Theorem setValue_global_unloadable :
  (∃ st file, setValue_string global (lit "x") (lit "1") IniParser_new = Some st ∧
     (save true st).1 = (SUCCESS, Some file) ∧ (load (Some file) IniParser_new).1 = WRONG_SYNTAX) ∧
  (∃ st st' file, load (Some (lines_text ["[a]"; "; x"])) IniParser_new = (SUCCESS, st) ∧
     setValue_string (lit "a") (lit "x") (lit "1") st = Some st' ∧
     (save true st').1 = (SUCCESS, Some file) ∧ (load (Some file) IniParser_new).1 = WRONG_SYNTAX).
Proof. split; repeat eexists. Qed.

(** After loading a text without entries before the first section, setting
    a value in section [global] calls [back()] on an empty vector. *)
Theorem setValue_global_undefined :
  ∃ st, load (Some (lines_text ["[a]"; "x=1"])) IniParser_new = (SUCCESS, st) ∧
    setValue_string global (lit "x") (lit "1") st = None.
Proof. eexists. split; reflexivity. Qed.
