(* ===== verification/IniDisk.v ===== *)
(** Files that parsers load, edit and save again, one after the other.

    [IniFile.v] says what one call of [load] and [save] does. Here a disk has
    files by name, and a session is what a program does with a configuration: it
    loads a file, sets and removes values and saves. On the texts that [editable]
    describes, those without lines before the first section or with no section that
    sorts before [global], and for the edits that [supported] describes, a file is a
    persistent map: whoever loads it later finds the values last set, and otherwise
    what was there before. *)

From stdpp Require Import gmap.
From S2P Require Import Prelude StdMap Streams IniParser IniFile.

Local Open Scope Z_scope.

(** * Model *)

(** The readable files with their content, and the names that can be opened for
    writing. *)
Record disk : Type := Disk { files : gmap str str; can_write : str → bool }.

(** [load(file)] and [save(file)]. *)
Definition load_file (name : str) (d : disk) (st : IniParser) : ClockError * IniParser :=
  load (files d !! name) st.
Definition save_file (name : str) (d : disk) (st : IniParser) : ClockError * disk * IniParser :=
  let '(error, out, st) := save (can_write d name) st in
  (error,
   match out with
   | Some content => Disk (<[name := content]> (files d)) (can_write d)
   | None => d
   end, st).

(** A call of [setValue] or [removeEntry]. *)
Inductive edit : Type := SetValue (section field value : str) | RemoveEntry (section field : str).

Definition apply_edit (e : edit) (st : IniParser) : option IniParser :=
  match e with
  | SetValue section field value => setValue_string section field value st
  | RemoveEntry section field => removeEntry section field st
  end.

Fixpoint apply_edits (edits : list edit) (st : IniParser) : option IniParser :=
  match edits with
  | [] => Some st
  | e :: edits' =>
      match apply_edit e st with
      | None => None
      | Some st => apply_edits edits' st
      end
  end.

(** A program that edits a file; [None] is undefined behaviour of an edit. *)
Definition session (name : str) (edits : list edit) (d : disk) : option (ClockError * disk) :=
  let '(error, st) := load_file name d IniParser_new in
  if decide (error = SUCCESS) then
    match apply_edits edits st with
    | None => None
    | Some st => Some (save_file name d st).1
    end
  else Some (error, d).

Fixpoint sessions (name : str) (ss : list (list edit)) (d : disk) : option (ClockError * disk) :=
  match ss with
  | [] => Some (SUCCESS, d)
  | edits :: ss' =>
      match session name edits d with
      | None => None
      | Some (error, d) => if decide (error = SUCCESS) then sessions name ss' d else Some (error, d)
      end
  end.

(** * Specification: a map from sections and fields to values *)

(** What a new parser finds in a text. *)
Definition parsed (content : str) : IniParser := (load (Some content) IniParser_new).2.
Definition stored (content : str) (s f : str) : ClockError * str :=
  getValue_string s f (parsed content).

Definition edited (e : edit) (g : str → str → ClockError * str) (s f : str) : ClockError * str :=
  match e with
  | SetValue section field value =>
      if str_eqb s section && str_eqb f field then (SUCCESS, value) else g s f
  | RemoveEntry section field =>
      if str_eqb s section && str_eqb f field then (VALUE_NOTFOUND, []) else g s f
  end.
Definition all_edited (edits : list edit) (g : str → str → ClockError * str) :=
  foldl (λ g e, edited e g) g edits.

(** Texts that survive [save]: accepted by [load], and nothing would move
    behind another section. *)
Definition in_front (lines : list (str * list str)) : Prop :=
  get lines global [] = [] ∨ Forall (λ p, klt p.1 global = false) lines.
Definition editable (content : str) : Prop := file_ok content ∧ in_front (file_chunks content).

(** The edits that survive [save]. A value may be set in a section that has an
    entry, or in a new one; names and values fit on a line. An entry may be removed
    that is the last one of its section, if another line of the file is left, or
    that does not exist. *)
Definition supported (st : IniParser) (e : edit) : Prop :=
  match e with
  | SetValue section field value =>
      section ≠ global ∧ one_line section ∧
      (∀ t, FIELD t = field → VALUE t = value → entry_fits t) ∧
      (get (_data st) section [] ≠ [] ∨
       find (_allLines st) section = None ∧
       (get (_allLines st) global [] = [] ∨ klt section global = false))
  | RemoveEntry section field =>
      section ≠ global ∧ get (_data st) section [] ≠ [] ∧
      (find_entry section field (get (_data st) section []) = None ∨
       ∃ l t, get (_data st) section [] = l ++ [t] ∧ FIELD t = field ∧
         (l ≠ [] ∨ Exists (λ p, p.1 ≠ section ∧ p.2 ≠ []) (_allLines st)))
  end.

(** Every edit is supported when it is made. *)
Fixpoint all_supported (edits : list edit) (st : IniParser) : Prop :=
  match edits with
  | [] => True
  | e :: edits' => supported st e ∧ ∀ st', apply_edit e st = Some st' → all_supported edits' st'
  end.

Fixpoint sessions_supported (name : str) (ss : list (list edit)) (d : disk) : Prop :=
  match ss with
  | [] => True
  | edits :: ss' =>
      (∀ content, files d !! name = Some content → all_supported edits (parsed content)) ∧
      ∀ d', session name edits d = Some (SUCCESS, d') → sessions_supported name ss' d'
  end.

(** * A loaded parser can be saved *)

(** A section line of an accepted text. *)
Lemma header_inv line s :
  section_header line = Some s → line_ok line = true → line = header_of s.
Proof.
  unfold section_header, line_ok. destruct (no_entry line) eqn:En; [done|].
  destruct (starts_section line) eqn:Es; [|done]. intros [= <-] He. simpl in He.
  destruct line as [|c line]; [done|]. simpl in Es. apply Ascii.eqb_eq in Es as ->.
  unfold ends_section in He. destruct (last ("["%char :: line)) as [b|] eqn:El; [|done].
  apply Ascii.eqb_eq in He as ->. destruct line as [|x line] using rev_ind; [done|].
  change ("["%char :: line ++ [x]) with (("["%char :: line) ++ [x]) in El.
  rewrite last_snoc in El. injection El as ->. unfold header_of. simpl. f_equal.
  rewrite length_app, drop_0. simpl.
  replace (length line + 1 - 1)%nat with (length line) by lia. by rewrite take_app_length.
Qed.

Lemma header_one_line s : one_line (header_of s) → one_line s.
Proof. unfold one_line, header_of. set_solver. Qed.

(** The chunks of an accepted text are sections as [save] writes them. *)
Lemma chunks_shape lines :
  Forall (λ l, one_line l ∧ line_ok l = true) lines →
  Forall body_line (chunks lines).1 ∧ Forall section_chunk (chunks lines).2.
Proof.
  induction 1 as [|line lines [Ho Hl] _ [IH1 IH2]]; simpl; [done|].
  destruct (chunks lines) as [l0 rest]. simpl in *.
  destruct (section_header line) as [s|] eqn:Eh; simpl.
  - split; [done|]. constructor; [|done]. pose proof (header_inv line s Eh Hl) as ->.
    exists l0. split_and!; [done|done|]. by apply header_one_line.
  - split; [|done]. constructor; [|done]. done.
Qed.

(** The entry of a line fits on it. *)
Lemma line_entry_fits s i line : body_line line → Forall entry_fits (line_entry s i line).
Proof.
  intros (Ho & Hh & Hl). unfold line_entry. unfold section_header in Hh.
  destruct (no_entry line) eqn:En; [done|]. destruct (starts_section line) eqn:Es; [done|]. simpl.
  destruct (find_char "="%char line) as [n|] eqn:Ef; [|done]. apply Forall_singleton.
  pose proof (find_char_split _ _ _ Ef) as E.
  assert (Ev : take (length line - n - 1) (drop (n + 1) line) = drop (n + 1) line)
    by (apply take_ge; rewrite length_drop; lia).
  rewrite Ev. split; cbn [FIELD VALUE]; rewrite <- ?E; try done.
  - intros Hin. apply Ho. rewrite <- (take_drop n line). set_solver.
  - intros Hin. apply Ho. rewrite <- (take_drop (n + 1) line). set_solver.
  - clear -Ef. revert n Ef. induction line as [|c line IH]; simpl; intros n Ef; [done|].
    destruct (c =? "=")%char eqn:E; simplify_eq; [apply not_elem_of_nil|].
    apply fmap_Some in Ef as (m & Hm & ->). simpl. apply not_elem_of_cons. split; [|by apply IH].
    intros <-. by rewrite Ascii.eqb_refl in E.
Qed.

(** The lines without an entry are plain. *)
Lemma chunk_plain s i lines :
  Forall body_line lines →
  Forall entry_fits (chunk_entries s i lines) ∧ plain_lines (chunk_entries s i lines) i lines.
Proof.
  intros Hl. revert i. induction Hl as [|line lines Hb _ IH]; intros i; simpl; [done|].
  destruct (IH (S i)) as [IHf IHp]. split; [apply Forall_app; by split; [apply line_entry_fits|]|].
  intros [|j] l Hj Hn; rewrite fmap_app, not_elem_of_app in Hn; destruct Hn as [Hn Hn']; simpl in Hj.
  - injection Hj as <-. destruct Hb as (Ho & Hh & Hok). split; [|done].
    unfold line_entry, section_header, line_ok in *. rewrite Nat.add_0_r in Hn.
    destruct (no_entry line); [done|]. destruct (starts_section line); [done|]. simpl in *.
    destruct (find_char "="%char line); [|done]. exfalso. apply Hn. by left.
  - apply (IHp j l Hj). by replace (S i + j)%nat with (i + S j)%nat by lia.
Qed.

(** Where the chunks of a text are in the parser that has loaded it. *)
Lemma loaded_lines content st0 st :
  load (Some content) st0 = (SUCCESS, st) →
  get (_allLines st) global [] = get (file_chunks content) global [] ∧
  ∀ s ls, s ≠ global → find (_allLines st) s = Some ls → section_chunk (s, ls).
Proof.
  intros (Hok & _ & Hs & Hp)%load_success. unfold file_chunks in Hp |- *.
  assert (Hlines : Forall (λ l, one_line l ∧ line_ok l = true) (read_lines content))
    by (apply Forall_and; split; [apply read_lines_one_line|apply Hok]).
  destruct (chunks_shape _ Hlines) as [_ Hc]. destruct (chunks (read_lines content)) as [l0 rest].
  split.
  - assert (Hin : (global, l0) ∈ _allLines st) by (rewrite Hp; by left).
    apply (find_Some _ _ _ Hs) in Hin. unfold get. by rewrite Hin, find_cons_eq.
  - intros s ls Hne Hf. apply (find_Some _ _ _ Hs) in Hf. rewrite Hp in Hf.
    apply elem_of_cons in Hf as [?|Hf]; [congruence|]. rewrite Forall_forall in Hc. by apply Hc.
Qed.

Lemma global_body content :
  file_ok content → Forall body_line (get (file_chunks content) global []).
Proof.
  intros Hok. assert (Hlines : Forall (λ l, one_line l ∧ line_ok l = true) (read_lines content))
    by (apply Forall_and; split; [apply read_lines_one_line|apply Hok]).
  destruct (chunks_shape _ Hlines) as [Hb _]. unfold file_chunks.
  destruct (chunks (read_lines content)) as [l0 rest]. unfold get. by rewrite find_cons_eq.
Qed.

Lemma in_front_perm m m' :
  get m' global [] = get m global [] → m' ≡ₚ m → in_front m → in_front m'.
Proof. unfold in_front. intros -> Hp [?|H]; [by left|right]. by rewrite Hp. Qed.

Lemma loaded_saveable content st0 st :
  load (Some content) st0 = (SUCCESS, st) → in_front (file_chunks content) → saveable st.
Proof.
  intros Hload Hfront. destruct (loaded_lines _ _ _ Hload) as [Hg Hs].
  destruct (load_success _ _ _ Hload) as (Hok & Hld & Hsort & Hp).
  assert (Hsec : ∀ s ls, find (_allLines st) s = Some ls → s ≠ global → one_line s ∧
    Forall (λ t, (0 < INDEX t)%nat) (get (_data st) s []) ∧ Forall entry_fits (get (_data st) s []) ∧
    ∃ ls', ls = header_of s :: ls' ∧ plain_lines (get (_data st) s []) 1 ls').
  { intros s ls Hf Hne. destruct (Hs s ls Hne Hf) as (body & E & Hb & Ho). simpl in E, Ho.
    destruct (header_line s Ho) as (Hh & _ & _). destruct (chunk_plain s 1 body Hb) as [Hfit Hpl].
    rewrite (ld_entries _ Hld). unfold get. rewrite Hf, E. simpl.
    rewrite (header_no_entry s 0 _ _ Hh). split_and!; [done|apply chunk_entries_after|done|].
    by exists body. }
  destruct (chunk_plain global 0 _ (global_body content Hok)) as [Hgf Hgp]. rewrite <- Hg in Hgf, Hgp.
  rewrite <- (ld_entries _ Hld) in Hgf, Hgp.
  split; [by apply loaded_ok| |done| |].
  - intros s. destruct (key_cases s global) as [->|Hne]; [done|].
    destruct (find (_allLines st) s) as [ls|] eqn:Hf; [by apply (Hsec s ls)|].
    rewrite (ld_entries _ Hld). unfold get. by rewrite Hf.
  - intros s ls Hf Hne. destruct (Hsec s ls Hf Hne) as (? & ? & _ & ?). done.
  - eapply in_front_perm; [|exact Hp|exact Hfront]. exact Hg.
Qed.

(** * Edits keep a parser in order *)

(** Every section but [global] that has a list of entries has an entry, and
    there is a line. *)
Record tidy (st : IniParser) : Prop := {
  td_save : saveable st;
  td_entries s : s ≠ global → find (_data st) s ≠ Some [];
  td_lines : Exists (λ p, p.2 ≠ []) (_allLines st)
}.

Lemma load_lines_entries lines cur st st' :
  load_lines cur lines st = (SUCCESS, st') →
  (∀ s, s ≠ global → find (_data st) s ≠ Some []) → ∀ s, s ≠ global → find (_data st') s ≠ Some [].
Proof.
  revert cur st. induction lines as [|line lines IH]; cbn [load_lines]; intros cur st Hl Hst;
    [by simplify_eq|].
  destruct (load_line cur line st) as [[e st1]|[cur1 st1]] eqn:E.
  { simplify_eq. unfold load_line in E. repeat case_match; simplify_eq. }
  apply (IH _ _ Hl). intros s Hs. unfold load_line in E.
  repeat case_match; simplify_eq; simpl; try by apply Hst.
  unfold push_back. destruct (key_cases s cur1) as [->|Hne].
  - rewrite find_set_eq. intros [= Hn]. by apply app_nil in Hn as [_ ?].
  - rewrite find_set_ne, find_touch_ne by done. by apply Hst.
Qed.

(** A text has at least one line, if only an empty one. *)
Lemma file_chunks_line content : ∃ p, p ∈ file_chunks content ∧ p.2 ≠ [].
Proof.
  pose proof (join_file_chunks content) as Hj. pose proof (read_lines_text content) as Ht.
  rewrite <- Hj in Ht. clear Hj. induction (file_chunks content) as [|[s ls] m IH]; csimpl in *.
  - by destruct content.
  - destruct ls as [|l ls]; [|exists (s, l :: ls); split; [by left|done]].
    destruct (IH Ht) as (p & Hp & Hne). exists p. split; [by right|done].
Qed.

Lemma editable_tidy content st0 :
  editable content → ∃ st, load (Some content) st0 = (SUCCESS, st) ∧ tidy st.
Proof.
  intros [Hok Hf]. destruct (load_spec content st0) as (st & _ & [(_ & Hl & _)|(? & _)]); [|done].
  exists st. split; [done|]. split.
  - by eapply loaded_saveable.
  - apply (load_lines_entries _ _ _ _ Hl). intros s Hs. cbn [_data]. by rewrite find_touch_ne.
  - destruct (load_success _ _ _ Hl) as (_ & _ & _ & Hp). rewrite Hp.
    destruct (file_chunks_line content) as (p & Hin & Hne). apply Exists_exists. by exists p.
Qed.

(** What [setValue] does to the lines: nothing, or it appends to the section. *)
Lemma setValue_lines section field value st st' :
  setValue_string section field value st = Some st' →
  _allLines st' = _allLines st ∨
  (∃ ls, find (_allLines st') section = Some (ls ++ [[]])) ∧
  ∀ s, s ≠ section → find (_allLines st') s = find (_allLines st) s.
Proof.
  intros Hst. assert (H : _allLines st' = _allLines st ∨
    ∃ m, _allLines st' = push_back m section [] ∧
         ∀ s, s ≠ section → find m s = find (_allLines st) s).
  { unfold setValue_string in Hst. destruct (find (_data st) section) as [l|].
    - destruct (assign_value section field value l); [left; by simplify_eq|right].
      exists (touch (_allLines st) section []). split; [by repeat case_match; simplify_eq|].
      intros s Hs. by apply find_touch_ne.
    - right. eexists. split; [by simplify_eq|]. intros s Hs. unfold push_back. by apply find_set_ne. }
  destruct H as [?|(m & -> & Hm)]; [by left|right]. unfold push_back. split.
  - eexists. apply find_set_eq.
  - intros s Hs. rewrite find_set_ne by done. by apply Hm.
Qed.

(** What [setValue] does to the lists of entries. *)
Lemma setValue_entries section field value st st' :
  setValue_string section field value st = Some st' →
  (∃ l, l ≠ [] ∧ find (_data st') section = Some l) ∧
  ∀ s, s ≠ section → find (_data st') s = find (_data st) s.
Proof.
  intros Hst. destruct (setValue_string_data _ _ _ _ _ Hst) as [(l & Hl & -> & _)|(_ & i & ->)];
    unfold push_back; (split; [|intros s Hs; by apply find_set_ne]); eexists; (split; [|apply find_set_eq]).
  - intros ->. destruct (get (_data st) section []); simpl in Hl; [done|].
    case_match; [done|]. by apply fmap_Some in Hl as (? & _ & ?).
  - by intros [_ ?]%app_nil.
Qed.

Lemma supported_settable st section field value :
  tidy st → supported st (SetValue section field value) →
  settable section st ∧ (find (_data st) section = None ∨ get (_data st) section [] ≠ []).
Proof.
  intros [Hsv Ht _] (Hne & Ho & _ & Hor). unfold settable.
  destruct Hor as [Hd|(Hl & Hg)].
  - split; [|by right]. intros Hn. unfold get in Hd. by rewrite Hn in Hd.
  - split; [by intros _|]. left.
    pose proof (ok_entries _ (sv_ok _ Hsv) section) as (_ & _ & _ & Hi).
    specialize (Ht section Hne). unfold get in Hi. rewrite Hl in Hi. simpl in Hi.
    destruct (find (_data st) section) as [[|t l]|] eqn:Ed; [done| |done].
    simpl in Hi. apply Forall_cons in Hi as [? _]. lia.
Qed.

Lemma set_step section field value st :
  tidy st → supported st (SetValue section field value) →
  ∃ st', setValue_string section field value st = Some st' ∧ tidy st'.
Proof.
  intros Ht Hs. destruct (supported_settable st section field value Ht Hs) as [Hset Hdef].
  destruct Hs as (Hne & Ho & Hfit & _). destruct Ht as [Hsv Hent Hlines].
  destruct (setValue_defined section field value st (sv_ok _ Hsv) Hdef) as [st' Hst].
  exists st'. split; [done|].
  destruct (setValue_entries _ _ _ _ _ Hst) as [(l & Hl & Hd) Hd'].
  pose proof (setValue_saveable _ _ _ _ _ Hsv Hset Hfit Hst) as Hsv'. split; [done|..].
  - intros s Hs. destruct (key_cases s section) as [->|Hn]; [rewrite Hd; congruence|].
    rewrite Hd' by done. by apply Hent.
  - destruct (setValue_lines _ _ _ _ _ Hst) as [->|[(ls & Hf) _]]; [done|]. apply Exists_exists.
    apply (find_Some _ _ _ (ok_lines_sorted _ (sv_ok _ Hsv'))) in Hf.
    eexists. split; [exact Hf|]. simpl. by intros [_ ?]%app_nil.
Qed.

(** ** Removing an entry *)

Lemma entry_position_absent section field l :
  find_entry section field l = None → entry_position section field l = None.
Proof.
  induction l as [|t l IH]; simpl; [done|]. case_match; [done|]. intros Hf. by rewrite IH.
Qed.

Lemma entry_position_last section field l t n :
  entries_ok section n (l ++ [t]) → FIELD t = field →
  entry_position section field (l ++ [t]) = Some (length l).
Proof.
  intros (Hs & Hnd & _) <-. rewrite fmap_app in Hnd. apply NoDup_app in Hnd as (_ & Hnd & _).
  apply Forall_app in Hs as [_ [Hs _]%Forall_cons].
  induction l as [|u l IH]; simpl; [by rewrite Hs, !str_eqb_refl|].
  rewrite (str_eqb_ne (FIELD u)), andb_false_r.
  - rewrite IH; [done|]. intros x Hx. apply Hnd. by right.
  - intros E. apply (Hnd (FIELD u)); [by left|]. rewrite E. by left.
Qed.

Lemma removeEntry_absent section field st :
  get (_data st) section [] ≠ [] → find_entry section field (get (_data st) section []) = None →
  removeEntry section field st = Some st.
Proof.
  intros Hne Hf. unfold removeEntry. rewrite get_touch, entry_position_absent by done.
  unfold get in Hne. destruct (find (_data st) section) as [l|] eqn:E; [|done].
  rewrite (touch_same _ _ _ l) by done. simpl. unfold get. rewrite E. simpl in Hne |- *.
  destruct st. by destruct l.
Qed.

(** Without its last entry a section is one entry and one line shorter, or gone. *)
Definition without_last (section : str) (l : list entry) (t : entry) (st : IniParser) : IniParser :=
  match l with
  | [] => {| _data := erase (_data st) section; _allLines := erase (_allLines st) section |}
  | _ => {| _data := set (_data st) section l;
            _allLines := set (_allLines st) section
              (delete (INDEX t) (get (_allLines st) section [])) |}
  end.

Lemma removeEntry_last section field l t st :
  ini_ok st → get (_data st) section [] = l ++ [t] → FIELD t = field →
  removeEntry section field st = Some (without_last section l t st).
Proof.
  intros Hok El Hf. pose proof (ok_entries _ Hok section) as He. rewrite El in He.
  unfold removeEntry. rewrite !get_touch, El, (entry_position_last _ _ _ _ _ He Hf).
  rewrite list_lookup_middle by done. destruct He as (_ & _ & _ & Hi).
  apply Forall_app in Hi as [_ [Hi _]%Forall_cons].
  rewrite (proj2 (Nat.ltb_lt _ _) Hi). rewrite !set_touch, delete_middle, app_nil_r.
  simpl. rewrite get_set_eq. destruct l as [|u l]; [|done].
  by rewrite !erase_set_same by apply Hok.
Qed.

Lemma erase_saveable section st :
  saveable st → section ≠ global →
  saveable {| _data := erase (_data st) section; _allLines := erase (_allLines st) section |}.
Proof.
  intros [[Hd Hl He] Hfit Hg Hs Hf] Hne.
  assert (Hcase : ∀ s, get (erase (_data st) section) s [] = get (_data st) s [] ∨
    get (erase (_data st) section) s [] = []).
  { intros s. destruct (key_cases s section) as [->|Hn]; [right; by apply get_erase_eq|].
    left. by apply get_erase. }
  split; simpl.
  - split; simpl; [by apply sorted_erase|by apply sorted_erase|]. intros s.
    destruct (key_cases s section) as [->|Hn]; [|by rewrite !get_erase].
    rewrite (get_erase_eq (_data st)) by done. apply entries_ok_nil.
  - intros s. destruct (Hcase s) as [-> | ->]; [done|constructor].
  - by rewrite !get_erase by done.
  - intros s ls. destruct (key_cases s section) as [->|Hn]; [by rewrite find_erase_eq|].
    rewrite find_erase_ne, get_erase by done. apply Hs.
  - rewrite get_erase by done. destruct Hf as [Hf|Hf]; [by left|right]. by apply Forall_erase.
Qed.

(** Of the lines behind the last entry none holds an entry. *)
Lemma plain_delete l t i b :
  StronglySorted lt (INDEX <$> (l ++ [t])) → INDEX t = (1 + i)%nat →
  plain_lines (l ++ [t]) 1 b → plain_lines l 1 (delete i b).
Proof.
  intros Hsort Hi Hp j line Hj Hnot. rewrite fmap_app in Hsort.
  apply StronglySorted_snoc_inv in Hsort as [_ Hlt].
  destruct (decide (j < i)%nat).
  - rewrite list_lookup_delete_lt in Hj by done. apply (Hp j line Hj).
    rewrite fmap_app, not_elem_of_app. split; [done|]. intros ?%list_elem_of_singleton. simpl in *. lia.
  - rewrite list_lookup_delete_ge in Hj by lia. apply (Hp (S j) line Hj).
    rewrite fmap_app, not_elem_of_app. split; [|intros ?%list_elem_of_singleton; simpl in *; lia].
    intros Hin. rewrite Forall_forall in Hlt. specialize (Hlt _ Hin). lia.
Qed.

Lemma without_last_ok section l t st :
  ini_ok st → get (_data st) section [] = l ++ [t] → l ≠ [] → ini_ok (without_last section l t st).
Proof.
  intros [Hd Hl He] El Hne. destruct l as [|u l0] eqn:Ell; [done|]. rewrite <- Ell in *. clear Hne.
  assert (E : without_last section l t st = {| _data := set (_data st) section l;
    _allLines := set (_allLines st) section (delete (INDEX t) (get (_allLines st) section [])) |})
    by (by rewrite Ell). rewrite E. clear E Ell.
  split; simpl; [by apply sorted_set|by apply sorted_set|]. intros s.
  destruct (key_cases s section) as [->|Hn]; [|by rewrite !get_set_ne].
  rewrite !get_set_eq. specialize (He section). rewrite El in He. destruct He as (H1 & H2 & H3 & H4).
  rewrite fmap_app in H2. rewrite fmap_app in H3.
  apply Forall_app in H1 as [H1 _], H4 as [H4 [Ht _]%Forall_cons].
  apply NoDup_app in H2 as [H2 _]. apply StronglySorted_snoc_inv in H3 as [H3 Hlt].
  split_and!; [done..|]. rewrite length_delete by (by apply lookup_lt_is_Some).
  rewrite Forall_fmap in Hlt. eapply Forall_impl; [exact Hlt|]. simpl. lia.
Qed.

Lemma without_last_tidy section l t st :
  tidy st → section ≠ global → get (_data st) section [] = l ++ [t] →
  l ≠ [] ∨ Exists (λ p, p.1 ≠ section ∧ p.2 ≠ []) (_allLines st) →
  tidy (without_last section l t st).
Proof.
  intros [Hsv Ht Hlines] Hne El Hleft. pose proof (sv_ok _ Hsv) as Hok.
  destruct (decide (l = [])) as [->|Hl].
  - destruct Hleft as [?|Hleft]; [done|]. split; simpl.
    + by apply erase_saveable.
    + intros s Hs. destruct (key_cases s section) as [->|Hn].
      * by rewrite find_erase_eq by apply Hok.
      * rewrite find_erase_ne by (done || apply Hok). by apply Ht.
    + apply Exists_exists in Hleft as ([s ls] & Hin & Hs & Hls). apply Exists_exists.
      exists (s, ls). split; [|done]. apply find_Some; [apply sorted_erase, Hok|].
      rewrite find_erase_ne by (done || apply Hok). by apply find_Some; [apply Hok|].
  - pose proof (without_last_ok section l t st Hok El Hl) as Hok'.
    pose proof (ok_entries _ Hok section) as (_ & _ & Hsort & Hi). rewrite El in Hsort, Hi.
    apply Forall_app in Hi as [_ [Hi _]%Forall_cons].
    destruct (find (_allLines st) section) as [ls|] eqn:Els;
      [|unfold get in Hi; rewrite Els in Hi; simpl in Hi; lia].
    destruct (sv_sections _ Hsv section ls Els Hne) as (Ho & Hpos & b & -> & Hb).
    rewrite El in Hpos, Hb. pose proof Hpos as [Hpos' [Ht0 _]%Forall_cons]%Forall_app.
    assert (Eg : get (_allLines st) section [] = header_of section :: b) by (unfold get; by rewrite Els).
    destruct (INDEX t) as [|i] eqn:Ei; [lia|].
    assert (Ed : _data (without_last section l t st) = set (_data st) section l) by (by destruct l).
    assert (EL : _allLines (without_last section l t st) =
      set (_allLines st) section (header_of section :: delete i b)).
    { destruct l; [done|]. simpl. by rewrite Ei, Eg. }
    split.
    + apply (saveable_insert section l (header_of section :: delete i b) st); try done.
      * pose proof (sv_entries _ Hsv section) as Hf. rewrite El in Hf. by apply Forall_app in Hf as [? _].
      * eexists. split; [done|]. by apply (plain_delete l t i b).
      * destruct (sv_first _ Hsv) as [?|Hf]; [by left|right].
        apply find_Some in Els; [|apply Hok]. rewrite Forall_forall in Hf. exact (Hf _ Els).
    + intros s Hs. rewrite Ed. destruct (key_cases s section) as [->|Hn].
      * rewrite find_set_eq. by intros [= ->].
      * rewrite find_set_ne by done. by apply Ht.
    + rewrite EL. apply Exists_exists. exists (section, header_of section :: delete i b). split; [|done].
      apply find_Some; [apply sorted_set, Hok|]. apply find_set_eq.
Qed.

Lemma remove_step section field st :
  tidy st → supported st (RemoveEntry section field) →
  ∃ st', removeEntry section field st = Some st' ∧ tidy st'.
Proof.
  intros Ht (Hne & Hd & [Hf|(l & t & El & Hf & Hleft)]).
  - exists st. split; [by apply removeEntry_absent|done].
  - exists (without_last section l t st). split; [|by apply without_last_tidy].
    apply removeEntry_last; [apply Ht|done..].
Qed.

(** ** Edits one after the other *)

Lemma edit_step e st :
  tidy st → supported st e →
  ∃ st', apply_edit e st = Some st' ∧ tidy st' ∧
    ∀ s f, getValue_string s f st' = edited e (λ s f, getValue_string s f st) s f.
Proof.
  assert (Hother : ∀ s f section field,
    str_eqb s section && str_eqb f field = false → (s, f) ≠ (section, field)).
  { intros s f section field E [= -> ->]. by rewrite !str_eqb_refl in E. }
  intros Ht Hs. destruct e as [section field value|section field]; simpl.
  - destruct (set_step section field value st Ht Hs) as (st' & Hst & Ht').
    exists st'. split_and!; [done..|]. intros s f.
    destruct (str_eqb s _ && str_eqb f _) eqn:E; [|eapply setValue_other; [done|by apply Hother]].
    apply andb_true_iff in E as [->%str_eqb_eq ->%str_eqb_eq]. by eapply setValue_getValue.
  - destruct (remove_step section field st Ht Hs) as (st' & Hst & Ht').
    destruct (removeEntry_effect section field st (sv_ok _ (td_save _ Ht))) as (st1 & Hst1 & Hv & Ho).
    rewrite Hst in Hst1. injection Hst1 as <-. exists st'. split_and!; [done..|]. intros s f.
    destruct (str_eqb s _ && str_eqb f _) eqn:E; [|by apply Ho, Hother].
    by apply andb_true_iff in E as [->%str_eqb_eq ->%str_eqb_eq].
Qed.

Lemma all_edited_ext edits g g' :
  (∀ s f, g s f = g' s f) → ∀ s f, all_edited edits g s f = all_edited edits g' s f.
Proof.
  revert g g'. induction edits as [|e edits IH]; intros g g' Hg; [done|]. apply IH.
  intros s f. unfold edited. destruct e; by case_match.
Qed.

Lemma apply_edits_tidy edits st :
  tidy st → all_supported edits st →
  ∃ st', apply_edits edits st = Some st' ∧ tidy st' ∧
    ∀ s f, getValue_string s f st' = all_edited edits (λ s f, getValue_string s f st) s f.
Proof.
  revert st. induction edits as [|e edits IH]; intros st Ht Hs; [by exists st|].
  destruct Hs as [He Hs]. destruct (edit_step e st Ht He) as (st1 & E & Ht1 & Hv1).
  simpl. rewrite E. destruct (IH st1 Ht1 (Hs st1 E)) as (st' & -> & Ht' & Hv').
  exists st'. split_and!; [done..|]. intros s f. rewrite Hv'. simpl. apply all_edited_ext.
  intros s' f'. apply Hv1.
Qed.

(** The text that a tidy parser writes is editable again. *)
Lemma output_lines_nonempty st : tidy st → output_lines st ≠ [].
Proof.
  intros [_ _ Hl] E. apply Exists_exists in Hl as (p & Hp & Hne). apply Hne, length_zero_iff_nil.
  assert (Hlen : ∀ data i lines, length (saved_lines data i lines) = length lines).
  { intros data i lines. revert data i. induction lines as [|l lines IH]; intros data i; [done|].
    simpl. destruct data as [|t data]; [|case_match]; simpl; by rewrite IH. }
  rewrite <- (Hlen (get (_data st) p.1 []) 0%nat). apply length_zero_iff_nil.
  apply list_elem_of_split in Hp as (l1 & l2 & Em). unfold output_lines in E.
  rewrite Em, fmap_app, join_app in E. apply app_nil in E as [_ E]. csimpl in E.
  by apply app_nil in E as [E _].
Qed.

Lemma saved_editable st content :
  tidy st → (save true st).1 = (SUCCESS, Some content) →
  editable content ∧ ∀ s f, stored content s f = getValue_string s f st.
Proof.
  intros Ht Hc. pose proof (td_save _ Ht) as Hsv.
  destruct (file_chunks_output st content Hsv Hc) as (gl & E & _ & _ & _ & Hgl).
  specialize (Hgl (output_lines_nonempty st Ht)).
  destruct (load_saved st content IniParser_new Hsv Hc) as (st1 & Hload & Hd).
  assert (Hp : parsed content = st1) by (unfold parsed; by rewrite Hload).
  destruct (load_success _ _ _ Hload) as (Hok & _). split.
  - split; [done|]. destruct (sv_first _ Hsv) as [Hg|Hg]; [left|right].
    + rewrite E. unfold get. rewrite find_cons_eq. simpl. rewrite Hgl. simpl. by rewrite Hg.
    + rewrite E. constructor; [done|].
      apply Forall_fmap, Forall_forall. intros p [_ Hin]%list_elem_of_filter.
      rewrite Forall_forall in Hg. exact (Hg p Hin).
  - intros s f. unfold stored. rewrite Hp, !getValue_string_get. by rewrite Hd.
Qed.

(** * Sessions *)

Lemma session_edits name edits d content :
  files d !! name = Some content → can_write d name = true → editable content →
  all_supported edits (parsed content) →
  ∃ content', session name edits d = Some (SUCCESS, Disk (<[name := content']> (files d)) (can_write d)) ∧
    editable content' ∧ ∀ s f, stored content' s f = all_edited edits (stored content) s f.
Proof.
  intros Hfile Hw He Hs. destruct (editable_tidy content IniParser_new He) as (st & Hload & Ht).
  assert (Hp : parsed content = st) by (unfold parsed; by rewrite Hload). rewrite Hp in Hs.
  destruct (apply_edits_tidy edits st Ht Hs) as (st' & Happ & Ht' & Hv).
  destruct (saved_editable st' _ Ht' (save_output st')) as (He' & Hv').
  eexists. split; [|split; [exact He'|]].
  - unfold session, load_file. rewrite Hfile, Hload, decide_True, Happ by done.
    unfold save_file. rewrite Hw. pose proof (save_output st') as Hout.
    destruct (save true st') as [[error out] st1]. simpl in Hout. by injection Hout as -> ->.
  - intros s f. rewrite Hv', Hv. unfold stored. by rewrite Hp.
Qed.

(** C13: a file is a persistent map. After any number of sessions that load an
    editable file, set and remove values and save it, where every edit is supported
    by the file when it is made, no session is undefined or reports an error, the
    other files are as before, the file is editable again, and any parser finds in
    it the value last set for every field that was not removed since, and otherwise
    what was there before the first session. *)
Theorem sessions_persist name ss d content :
  files d !! name = Some content → can_write d name = true → editable content →
  sessions_supported name ss d →
  ∃ content', sessions name ss d = Some (SUCCESS, Disk (<[name := content']> (files d)) (can_write d)) ∧
    editable content' ∧
    ∀ st0, ∃ st, load (Some content') st0 = (SUCCESS, st) ∧
      ∀ s f, getValue_string s f st = all_edited (mjoin ss) (stored content) s f.
Proof.
  intros Hfile Hw He Hs. assert (H : ∃ content', sessions name ss d =
      Some (SUCCESS, Disk (<[name := content']> (files d)) (can_write d)) ∧ editable content' ∧
      ∀ s f, stored content' s f = all_edited (mjoin ss) (stored content) s f).
  { revert d content Hfile Hw He Hs. induction ss as [|edits ss IH]; intros d content Hfile Hw He Hs.
    - exists content. split; [|done]. simpl. rewrite insert_id by done. by destruct d.
    - destruct Hs as [Hs Hss].
      destruct (session_edits name edits d content Hfile Hw He (Hs content Hfile)) as (c1 & E & He1 & Hv1).
      destruct (IH (Disk (<[name := c1]> (files d)) (can_write d)) c1) as (c' & E' & He' & Hv').
      + apply lookup_insert_eq.
      + done.
      + done.
      + by apply Hss.
      + exists c'. split_and!; [|done|].
        * simpl. rewrite E, decide_True, E' by done. simpl. by rewrite insert_insert_eq.
        * intros s f. rewrite Hv'. csimpl. unfold all_edited at 2. rewrite foldl_app.
          by apply all_edited_ext. }
  destruct H as (content' & E & He' & Hv). exists content'. split_and!; [done..|].
  intros st0. destruct (editable_tidy content' st0 He') as (st & Hl & _). exists st. split; [done|].
  intros s f. rewrite <- Hv. unfold stored, parsed.
  change (load (Some content') IniParser_new) with (load (Some content') st0). by rewrite Hl.
Qed.

(** A file that cannot be written is not noticed: the session reports SUCCESS and
    the edits are lost. *)
Theorem unwritable_session name edits d content :
  files d !! name = Some content → can_write d name = false → editable content →
  all_supported edits (parsed content) → session name edits d = Some (SUCCESS, d).
Proof.
  intros Hfile Hw He Hs. destruct (editable_tidy content IniParser_new He) as (st & Hload & Ht).
  assert (Hp : parsed content = st) by (unfold parsed; by rewrite Hload). rewrite Hp in Hs.
  destruct (apply_edits_tidy edits st Ht Hs) as (st' & Happ & _).
  unfold session, load_file. rewrite Hfile, Hload, decide_True, Happ by done.
  unfold save_file. by rewrite Hw.
Qed.

(** * Evaluation *)

Definition demo_name : str := lit "app.ini".
Definition demo_content : str := lines_text ["[a]"; "; a comment"; "x=1"; "z=0"].
Definition demo_disk : disk := Disk {[demo_name := demo_content]} (λ _, true).

(** Two sessions, and the text between them. *)
Definition demo_first : list edit :=
  [SetValue (lit "a") (lit "x") (lit "2"); SetValue (lit "b") (lit "y") (lit "3")].
Definition demo_second : list edit :=
  [RemoveEntry (lit "a") (lit "z"); SetValue (lit "a") (lit "x") (lit "4")].
Definition demo_between : str :=
  lines_text ["[a]"; "; a comment"; "x=2"; "z=0"; "[b]"; "y=3"].

Lemma demo_editable : editable demo_content.
Proof.
  split; [|by left]. assert (Hl : load (Some demo_content) IniParser_new = (SUCCESS, parsed demo_content))
    by (vm_compute; reflexivity). by apply load_success in Hl as [? _].
Qed.

Lemma fits_edit f v :
  bool_decide (newline ∉ f ∧ newline ∉ v ∧ "="%char ∉ f ∧
    no_entry (f ++ "="%char :: v) = false ∧ starts_section (f ++ "="%char :: v) = false) = true →
  ∀ t, FIELD t = f → VALUE t = v → entry_fits t.
Proof. intros H [s f' i v'] Hf Hv. simpl in Hf, Hv. subst. by apply fits_by_computation. Qed.

Lemma section_named s : bool_decide (s ≠ global ∧ newline ∉ s) = true → s ≠ global ∧ one_line s.
Proof. apply bool_decide_eq_true. Qed.

Lemma demo_first_supported : all_supported demo_first (parsed demo_content).
Proof.
  split; [|intros st Hst; vm_compute in Hst; injection Hst as <-; split; [|done]].
  - destruct (section_named (lit "a") eq_refl). split_and!; [done..|by apply fits_edit|].
    left. vm_compute. discriminate.
  - destruct (section_named (lit "b") eq_refl). split_and!; [done..|by apply fits_edit|].
    right. split; [reflexivity|left; reflexivity].
Qed.

Lemma demo_second_supported : all_supported demo_second (parsed demo_between).
Proof.
  destruct (section_named (lit "a") eq_refl).
  split; [|intros st Hst; vm_compute in Hst; injection Hst as <-; split; [|done]].
  - split_and!; [done|vm_compute; discriminate|]. right.
    exists [Entry (lit "a") (lit "x") 2 (lit "2")], (Entry (lit "a") (lit "z") 3 (lit "0")).
    split_and!; [vm_compute; reflexivity|reflexivity|by left].
  - split_and!; [done..|by apply fits_edit|]. left. vm_compute. discriminate.
Qed.

Lemma demo_first_session :
  session demo_name demo_first demo_disk =
    Some (SUCCESS, Disk (<[demo_name := demo_between]> (files demo_disk)) (λ _, true)).
Proof. vm_compute. reflexivity. Qed.

Lemma demo_supported : sessions_supported demo_name [demo_first; demo_second] demo_disk.
Proof.
  split; [|intros d Hd; rewrite demo_first_session in Hd; injection Hd as <-; split; [|done]].
  - intros content Hc. replace content with demo_content; [exact demo_first_supported|].
    unfold demo_disk in Hc. cbn [files] in Hc. rewrite lookup_singleton_eq in Hc. congruence.
  - intros content Hc. cbn [files] in Hc. rewrite lookup_insert_eq in Hc.
    replace content with demo_between by congruence. exact demo_second_supported.
Qed.

Lemma sessions_persist_witness :
  ∃ content', sessions demo_name [demo_first; demo_second] demo_disk =
    Some (SUCCESS, Disk (<[demo_name := content']> (files demo_disk)) (λ _, true)) ∧
  ∃ st, load (Some content') IniParser_new = (SUCCESS, st) ∧
    getValue_string (lit "a") (lit "x") st = (SUCCESS, lit "4") ∧
    getValue_string (lit "b") (lit "y") st = (SUCCESS, lit "3") ∧
    getValue_string (lit "a") (lit "z") st = (VALUE_NOTFOUND, []).
Proof.
  destruct (sessions_persist demo_name [demo_first; demo_second] demo_disk demo_content)
    as (content' & Hs & _ & Hl).
  - apply lookup_singleton_eq.
  - reflexivity.
  - exact demo_editable.
  - exact demo_supported.
  - exists content'. split; [exact Hs|]. destruct (Hl IniParser_new) as (st & Hst & Hv).
    exists st. split; [exact Hst|]. rewrite !Hv. split_and!; vm_compute; reflexivity.
Defined.

Lemma unwritable_session_witness :
  session demo_name demo_first (Disk {[demo_name := demo_content]} (λ _, false)) =
  Some (SUCCESS, Disk {[demo_name := demo_content]} (λ _, false)).
Proof.
  apply (unwritable_session _ _ _ demo_content).
  - apply lookup_singleton_eq.
  - reflexivity.
  - exact demo_editable.
  - exact demo_first_supported.
Defined.
