(* ===== verification/Concurrent.v ===== *)
(** Linearizability for the queues.

    A concurrent object is a [machine]: threads at program counters share a
    memory, and one step is one atomic access. Its specification is an atomic
    object whose calls take effect at one point between call and return
    ([astep]). A call that is not atomic may look at the object at an earlier
    point and remember a number ([look]), or change it before that point in steps
    that its specification allows ([within]). Some calls may only be made
    while no other thread is in certain calls: executions are those in which all
    threads are [legal]. [proof_of] collects what a component shows of single
    thread steps; [machine_simulates] turns this into a forward simulation of
    whole executions, with any number of threads. *)

From S2P Require Import Prelude.

(** * The interface of a queue *)

Inductive op {T : Type} : Type := Push (v : T) | Pop | Front | Poll | Empty | Size | Clear.
Arguments op T : clear implicits.

(** What a call returns; a value parameter that is not assigned is [None]. *)
Inductive result {T : Type} : Type :=
| RErr (err : ClockError)
| RVal (err : ClockError) (value : option T)
| RBool (b : bool)
| RSize (n : Z)
| RVoid.
Arguments result T : clear implicits.

Inductive label {T : Type} : Type := Call (i : nat) (o : op T) | Ret (i : nat) (r : result T).
Arguments label T : clear implicits.

(** A thread of the specification; [seen] is what its call remembers. *)
Inductive call {T : Type} : Type :=
| AIdle
| APending (o : op T) (seen : option Z)
| ADone (r : result T).
Arguments call T : clear implicits.

(** * Machines *)

Record machine (T M P : Type) : Type := Machine {
  idle : P;
  start : op T → P;
  thread_step : P → M → option (P * M * option (result T))
}.
Arguments idle {T M P}.
Arguments start {T M P}.
Arguments thread_step {T M P}.

Record state {M P : Type} : Type := St { mem : M; threads : list P }.
Arguments state M P : clear implicits.
Arguments St {M P}.
Arguments mem {M P}.
Arguments threads {M P}.

Section Machine.
Context {T M P : Type} (mach : machine T M P).

(** One step of some thread; calls and returns are visible. *)
Inductive step : state M P → list (label T) → state M P → Prop :=
| step_call i o m ts :
    ts !! i = Some (idle mach) → step (St m ts) [Call i o] (St m (<[i := start mach o]> ts))
| step_run i p p' m m' ts :
    ts !! i = Some p → thread_step mach p m = Some (p', m', None) →
    step (St m ts) [] (St m' (<[i := p']> ts))
| step_ret i p p' m m' ts r :
    ts !! i = Some p → thread_step mach p m = Some (p', m', Some r) →
    step (St m ts) [Ret i r] (St m' (<[i := p']> ts)).

(** Executions, with the number of steps and the visible labels; no step is made
    where the threads are not [legal]. *)
Inductive steps (legal : list P → bool) : nat → state M P → list (label T) → state M P → Prop :=
| steps_refl s : steps legal 0 s [] s
| steps_snoc n s s' s'' t l :
    steps legal n s t s' → legal (threads s') = true → step s' l s'' →
    steps legal (S n) s (t ++ l) s''.

(** Executions in which the callers respect nothing. *)
Definition anything (ts : list P) : bool := true.

(** A call that runs without interruption. *)
Fixpoint run_alone (fuel : nat) (p : P) (m : M) : option (M * result T) :=
  match fuel with
  | 0%nat => None
  | S fuel =>
      match thread_step mach p m with
      | Some (p, m, None) => run_alone fuel p m
      | Some (_, m, Some r) => Some (m, r)
      | None => None
      end
  end.

Lemma run_alone_more fuel fuel' p m x :
  run_alone fuel p m = Some x → (fuel <= fuel')%nat → run_alone fuel' p m = Some x.
Proof.
  revert fuel' p m. induction fuel as [|fuel IH]; intros fuel' p m Hr Hf; [done|].
  destruct fuel' as [|fuel']; [lia|]. simpl in *.
  destruct (thread_step mach p m) as [[[p' m'] [r|]]|]; [done| |done]. apply IH; [done|lia].
Qed.

Lemma run_alone_S fuel p m :
  run_alone (S fuel) p m =
  match thread_step mach p m with
  | Some (p, m, None) => run_alone fuel p m
  | Some (_, m, Some r) => Some (m, r)
  | None => None
  end.
Proof. done. Qed.

(** A schedule names the thread of every step, with the call that the step
    makes ([Some]) or without ([None]). *)
Definition sched_step (i : nat) (o : option (op T)) (s : state M P)
    : option (list (label T) * state M P) :=
  match threads s !! i, o with
  | None, _ => None
  | Some p, None =>
      match thread_step mach p (mem s) with
      | None => None
      | Some (p', m', None) => Some ([], St m' (<[i := p']> (threads s)))
      | Some (p', m', Some r) => Some ([Ret i r], St m' (<[i := p']> (threads s)))
      end
  | Some p, Some o => Some ([Call i o], St (mem s) (<[i := start mach o]> (threads s)))
  end.

(** The calls of the schedule are made by idle threads, its steps by legal ones. *)
Fixpoint run_sched (legal : list P → bool) (is_idle : P → bool) (sch : list (nat * option (op T)))
    (t : list (label T)) (s : state M P) : option (list (label T) * state M P) :=
  match sch with
  | [] => Some (t, s)
  | (i, o) :: sch' =>
      if legal (threads s) then
        match o, is_idle <$> threads s !! i with
        | Some _, Some false => None
        | _, _ =>
            match sched_step i o s with
            | None => None
            | Some (l, s') => run_sched legal is_idle sch' (t ++ l) s'
            end
        end
      else None
  end.

Lemma run_sched_steps legal is_idle n sch s0 s t t' s' :
  (∀ p, is_idle p = true → p = idle mach) →
  steps legal n s0 t s → run_sched legal is_idle sch t s = Some (t', s') →
  steps legal (n + length sch) s0 t' s'.
Proof.
  intros Hidle. revert n t s. induction sch as [|[i o] sch IH]; simpl; intros n t s Hs Hr.
  { simplify_eq. by rewrite Nat.add_0_r. }
  rewrite <- Nat.add_succ_comm.
  destruct (legal (threads s)) eqn:Hleg; [|done].
  assert (Hok : ∃ l s1, step s l s1 ∧ run_sched legal is_idle sch (t ++ l) s1 = Some (t', s')).
  { destruct s as [m ts]. unfold sched_step in Hr. simpl in Hr.
    destruct (ts !! i) as [p|] eqn:Hi; [|by destruct o]. simpl in Hr. destruct o as [o|].
    - destruct (is_idle p) eqn:Hp; [|done]. apply Hidle in Hp as ->.
      eexists _, _. split; [by apply step_call|done].
    - destruct (thread_step mach p m) as [[[p' m'] [r|]]|] eqn:E; [| |done];
        eexists _, _; (split; [|exact Hr]); [by eapply step_ret|by eapply step_run]. }
  destruct Hok as (l & s1 & Hst & Hr1). eapply IH; [by eapply steps_snoc|done].
Qed.

End Machine.

(** Executions in which each thread makes only the calls that are allowed to it. *)
Section Allowed.
Context {T M P : Type} (mach : machine T M P).
Context (allowed : nat → op T → bool) (within_allowed : nat → P → bool).
Context (allowed_idle : ∀ i, within_allowed i (idle mach) = true).
Context (allowed_start : ∀ i o, allowed i o = true → within_allowed i (start mach o) = true).
Context (allowed_step : ∀ i p m p' m' r,
  thread_step mach p m = Some (p', m', r) → within_allowed i p = true → within_allowed i p' = true).

Definition all_allowed (t : list (label T)) : Prop := ∀ i o, Call i o ∈ t → allowed i o = true.

(** If the threads are legal as long as each is in a call that is allowed to it,
    these executions need not be checked for it. *)
Lemma allowed_legal legal n m k t s :
  (∀ ts, (∀ i p, ts !! i = Some p → within_allowed i p = true) → legal ts = true) →
  steps mach anything n (St m (replicate k (idle mach))) t s → all_allowed t →
  steps mach legal n (St m (replicate k (idle mach))) t s ∧
  ∀ i p, threads s !! i = Some p → within_allowed i p = true.
Proof.
  intros Hlegal Hs. remember (St m (replicate k (idle mach))) as s0 eqn:E0.
  induction Hs as [s|n s s' s'' t l Hs IH _ Hst]; intros Ho; subst.
  { split; [constructor|]. simpl. by intros i p [-> _]%lookup_replicate. }
  destruct IH as [Hl Hr]; [done| |].
  { intros i o Hi. apply Ho, elem_of_app. by left. }
  split; [eapply steps_snoc; [done|by apply Hlegal|done]|].
  intros j q Hj.
  destruct Hst as [i o m1 ts Hi|i p p' m1 m2 ts Hi Ht|i p p' m1 m2 ts r Hi Ht]; simpl in *;
    apply list_lookup_insert_Some in Hj as [(-> & <- & _)|[_ Hj]]; try by eapply Hr.
  - apply allowed_start, Ho, elem_of_app. right. by left.
  - eapply allowed_step; [done|]. by eapply Hr.
  - eapply allowed_step; [done|]. by eapply Hr.
Qed.
End Allowed.

(** [n] steps of thread [i], the first of them its call [o]. *)
Definition turn {T} (i : nat) (o : op T) (n : nat) : list (nat * option (op T)) :=
  (i, Some o) :: replicate n (i, None).
Definition more {T} (i n : nat) : list (nat * option (op T)) := replicate n (i, None).

(** * The atomic specification *)

Record astate {T A : Type} : Type := ASt { object : A; calls : list (call T) }.
Arguments astate T A : clear implicits.
Arguments ASt {T A}.
Arguments object {T A}.
Arguments calls {T A}.

(** The specification of an object whose calls look and change at one point. *)
Definition no_look {T A} (o : op T) (a : A) : option Z := None.
Definition unseen {T A} (spec : op T → A → A → result T → Prop) (o : op T) (seen : option Z)
    : A → A → result T → Prop := spec o.
Definition atomic {T A} (o : op T) (a a' : A) : Prop := False.

Section Spec.
Context {T A : Type} (spec : op T → option Z → A → A → result T → Prop).
Context (look : op T → A → option Z) (within : op T → A → A → Prop).

Inductive astep : astate T A → list (label T) → astate T A → Prop :=
| astep_call i o a cs :
    cs !! i = Some AIdle → astep (ASt a cs) [Call i o] (ASt a (<[i := APending o None]> cs))
| astep_look i o k a cs :
    cs !! i = Some (APending o None) → look o a = Some k →
    astep (ASt a cs) [] (ASt a (<[i := APending o (Some k)]> cs))
| astep_effect i o seen r a a' cs :
    cs !! i = Some (APending o seen) → spec o seen a a' r →
    astep (ASt a cs) [] (ASt a' (<[i := ADone r]> cs))
| astep_within i o seen a a' cs :
    cs !! i = Some (APending o seen) → within o a a' → astep (ASt a cs) [] (ASt a' cs)
| astep_ret i r a cs :
    cs !! i = Some (ADone r) → astep (ASt a cs) [Ret i r] (ASt a (<[i := AIdle]> cs)).

Inductive asteps : astate T A → list (label T) → astate T A → Prop :=
| asteps_refl s : asteps s [] s
| asteps_snoc s s' s'' t l : asteps s t s' → astep s' l s'' → asteps s (t ++ l) s''.

Lemma asteps_one s l s' : astep s l s' → asteps s l s'.
Proof. intros H. apply (asteps_snoc s s s' [] l); [constructor|done]. Qed.

Lemma asteps_two s l s' l' s'' : astep s l s' → astep s' l' s'' → asteps s (l ++ l') s''.
Proof. intros H1 H2. eapply asteps_snoc; [by apply asteps_one|done]. Qed.

Lemma asteps_app s1 t1 s2 t2 s3 : asteps s1 t1 s2 → asteps s2 t2 s3 → asteps s1 (t1 ++ t2) s3.
Proof.
  intros H1 H2. induction H2 as [s2|s2 s3 s4 t l _ IH Hs]; [by rewrite app_nil_r|].
  rewrite app_assoc. eapply asteps_snoc; [by apply IH|done].
Qed.

End Spec.

(** * Critical sections *)

Section Critical.
Context {P : Type}.

(** At most one thread is in the critical section, one if the flag is set. *)
Definition excludes (crit : P → bool) (flag : bool) (ts : list P) : Prop :=
  length (filter (λ p, crit p = true) ts) = (if flag then 1 else 0)%nat.

(** A step stays outside or inside, enters a free section, or leaves it. *)
Definition flag_step (crit crit' flag flag' : bool) : Prop :=
  (crit' = crit ∧ flag' = flag) ∨
  (crit = false ∧ flag = false ∧ crit' = true ∧ flag' = true) ∨
  (crit = true ∧ crit' = false ∧ flag' = false).

Definition count (crit : P → bool) (ts : list P) : nat :=
  length (filter (λ p, crit p = true) ts).

Lemma count_cons crit p ts : count crit (p :: ts) = (Nat.b2n (crit p) + count crit ts)%nat.
Proof.
  unfold count. destruct (crit p) eqn:E; simpl.
  - by rewrite filter_cons_True.
  - by rewrite filter_cons_False by congruence.
Qed.

Lemma count_insert crit ts i p p' :
  ts !! i = Some p →
  (count crit (<[i := p']> ts) + Nat.b2n (crit p) = count crit ts + Nat.b2n (crit p'))%nat.
Proof.
  revert i. induction ts as [|q ts IH]; intros [|i] Hi; simplify_eq/=; rewrite !count_cons; [lia|].
  specialize (IH i Hi). lia.
Qed.

Lemma count_pos crit ts i p :
  ts !! i = Some p → crit p = true → (0 < count crit ts)%nat.
Proof.
  revert i. induction ts as [|q ts IH]; intros [|i] Hi Hc; simplify_eq/=; rewrite count_cons.
  - rewrite Hc. simpl. lia.
  - specialize (IH i Hi Hc). lia.
Qed.

Lemma excludes_other crit flag ts i j p q :
  excludes crit flag ts → ts !! i = Some p → ts !! j = Some q → i ≠ j →
  crit p = true → crit q = false.
Proof.
  intros He Hi Hj Hne Hp. destruct (crit q) eqn:Hq; [|done].
  change (count crit ts = (if flag then 1 else 0)%nat) in He.
  revert i j flag He Hi Hj Hne. induction ts as [|x ts IH]; intros i j flag He Hi Hj Hne; [done|].
  rewrite count_cons in He. destruct i as [|i], j as [|j]; simplify_eq/=.
  - pose proof (count_pos _ _ _ _ Hj Hq). rewrite Hp in He. simpl in He. destruct flag; lia.
  - pose proof (count_pos _ _ _ _ Hi Hp). rewrite Hq in He. simpl in He. destruct flag; lia.
  - pose proof (count_pos _ _ _ _ Hi Hp). destruct (crit x); simpl in He; [destruct flag; lia|].
    eapply (IH i j flag); [done..|lia].
Qed.

Lemma excludes_step crit flag flag' ts i p p' :
  excludes crit flag ts → ts !! i = Some p → flag_step (crit p) (crit p') flag flag' →
  excludes crit flag' (<[i := p']> ts).
Proof.
  unfold excludes. intros He Hi Hf. pose proof (count_insert crit ts i p p' Hi) as Hc.
  pose proof (count_pos crit ts i p Hi) as Hp. unfold count in *.
  destruct Hf as [[E ->]|[(E1 & -> & E2 & ->)|(E1 & E2 & ->)]].
  - rewrite E in Hc. lia.
  - rewrite E1, E2 in Hc. simpl in Hc. lia.
  - rewrite E1, E2 in Hc. specialize (Hp E1). destruct flag; simpl in Hc; lia.
Qed.

(** A flag that is set has an owner. *)
Lemma excludes_holder crit ts :
  excludes crit true ts → ∃ i p, ts !! i = Some p ∧ crit p = true.
Proof.
  unfold excludes. intros H. destruct (filter _ ts) as [|p l] eqn:E; [done|].
  assert (Hp : p ∈ filter (λ p, crit p = true) ts) by (rewrite E; by left).
  apply list_elem_of_filter in Hp as [Hc [i Hi]%list_elem_of_lookup]. by exists i, p.
Qed.

Lemma excludes_idle crit p k : crit p = false → excludes crit false (replicate k p).
Proof.
  intros E. unfold excludes. induction k as [|k IH]; [done|]. simpl.
  by rewrite filter_cons_False by congruence.
Qed.

End Critical.

(** * Discipline *)

Section Discipline.
Context {P : Type} (apart : P → P → bool).

(** Any two threads are where they may be at the same time. *)
Fixpoint all_apart (ts : list P) : bool :=
  match ts with
  | [] => true
  | p :: ts' => forallb (λ q, apart p q && apart q p) ts' && all_apart ts'
  end.

Lemma all_apart_lookup ts : ∀ i j p q,
  all_apart ts = true → i ≠ j → ts !! i = Some p → ts !! j = Some q → apart p q = true.
Proof.
  induction ts as [|x ts IH]; intros i j p q Ha Hne Hi Hj; [done|].
  simpl in Ha. apply andb_true_iff in Ha as [Hx Ha].
  assert (Hin : ∀ j y, ts !! j = Some y → apart x y = true ∧ apart y x = true).
  { intros k y Hk. apply andb_true_iff. apply (proj1 (forallb_forall _ _) Hx).
    by apply list_elem_of_In, (list_elem_of_lookup_2 _ k). }
  destruct i as [|i], j as [|j]; simplify_eq/=; [by eapply Hin..|].
  eapply (IH i j); [done|lia|done|done].
Qed.

Lemma all_apart_true ts :
  (∀ i j p q, i ≠ j → ts !! i = Some p → ts !! j = Some q → apart p q = true) →
  all_apart ts = true.
Proof.
  induction ts as [|x ts IH]; intros H; [done|]. simpl. apply andb_true_iff. split.
  - apply forallb_forall. intros y [j Hj]%list_elem_of_In%list_elem_of_lookup.
    apply andb_true_iff. split; [by apply (H 0%nat (S j))|by apply (H (S j) 0%nat)].
  - apply IH. intros i j p q Hne Hi Hj. by apply (H (S i) (S j)); [lia|..].
Qed.
End Discipline.

(** * Simulation *)

(** What a component says of its machine: the locks [L] with their critical
    sections, which threads may be at which places at the same time, the
    invariant of the memory after [n] steps and of a thread, what one step leaves
    to the other threads, and the abstraction. *)
Record proof_data (T A M P L : Type) : Type := {
  crit : L → P → bool;
  flag : L → M → bool;
  apart : P → P → bool;
  mem_ok : nat → M → Prop;
  local_ok : M → P → Prop;
  frame : P → M → M → Prop;
  fits : nat → Prop;
  content : M → A;
  status : M → P → call T
}.
Arguments crit {T A M P L}.
Arguments flag {T A M P L}.
Arguments apart {T A M P L}.
Arguments mem_ok {T A M P L}.
Arguments local_ok {T A M P L}.
Arguments frame {T A M P L}.
Arguments fits {T A M P L}.
Arguments content {T A M P L}.
Arguments status {T A M P L}.

Section Simulation.
Context {T A M P L : Type} (mach : machine T M P).
Context (spec : op T → option Z → A → A → result T → Prop).
Context (look : op T → A → option Z) (within : op T → A → A → Prop).
Context (pd : proof_data T A M P L).

(** How a step shows in the specification. *)
Definition effect (m : M) (p : P) (m' : M) (p' : P) (res : option (result T)) : Prop :=
  match res with
  | None =>
      (status pd m' p' = status pd m p ∧ content pd m' = content pd m) ∨
      (∃ o seen r, status pd m p = APending o seen ∧ status pd m' p' = ADone r ∧
                   spec o seen (content pd m) (content pd m') r) ∨
      (∃ o seen, status pd m p = APending o seen ∧ status pd m' p' = APending o seen ∧
                 within o (content pd m) (content pd m')) ∨
      (∃ o k, status pd m p = APending o None ∧ status pd m' p' = APending o (Some k) ∧
              look o (content pd m) = Some k ∧ content pd m' = content pd m)
  | Some r =>
      p' = idle mach ∧
      ((status pd m p = ADone r ∧ content pd m' = content pd m) ∨
       (∃ o seen, status pd m p = APending o seen ∧ spec o seen (content pd m) (content pd m') r))
  end.

Record good_step (n : nat) (p : P) (m : M) (p' : P) (m' : M) (res : option (result T)) : Prop := {
  gs_mem : mem_ok pd (S n) m';
  gs_local : local_ok pd m' p';
  gs_frame : frame pd p m m';
  gs_flags l : flag_step (crit pd l p) (crit pd l p') (flag pd l m) (flag pd l m');
  gs_effect : effect m p m' p' res
}.

(** The obligations of a component. *)
Record proof_of : Prop := {
  po_thread n p m p' m' res :
    mem_ok pd n m → local_ok pd m p → fits pd (S n) →
    thread_step mach p m = Some (p', m', res) → good_step n p m p' m' res;
  po_stable p m m' q :
    frame pd p m m' → (∀ l, crit pd l p = true → crit pd l q = false) → apart pd p q = true →
    local_ok pd m q → local_ok pd m' q ∧ status pd m' q = status pd m q;
  po_start o m :
    local_ok pd m (start mach o) ∧ status pd m (start mach o) = APending o None ∧
    ∀ l, crit pd l (start mach o) = false;
  po_idle m :
    local_ok pd m (idle mach) ∧ status pd m (idle mach) = AIdle ∧ ∀ l, crit pd l (idle mach) = false;
  po_mem n m : mem_ok pd n m → mem_ok pd (S n) m;
  po_fits n : fits pd (S n) → fits pd n
}.

Context (po : proof_of).

Record inv (n : nat) (s : state M P) : Prop := {
  inv_mem : mem_ok pd n (mem s);
  inv_flags l : excludes (crit pd l) (flag pd l (mem s)) (threads s);
  inv_local i p : threads s !! i = Some p → local_ok pd (mem s) p
}.

Definition abstraction (s : state M P) : astate T A :=
  ASt (content pd (mem s)) (status pd (mem s) <$> threads s).

(** The other threads, and the calls of all of them, after a step. *)
Lemma others_ok n m ts i p p' m' res :
  inv n (St m ts) → all_apart (apart pd) ts = true → ts !! i = Some p →
  good_step n p m p' m' res →
  inv (S n) (St m' (<[i := p']> ts)) ∧
  status pd m' <$> <[i := p']> ts = <[i := status pd m' p']> (status pd m <$> ts).
Proof.
  intros [Hm Hf Hl] Ha Hi [Gm Gl Gfr Gfl _]. simpl in *.
  assert (Ho : ∀ j q, j ≠ i → ts !! j = Some q →
    local_ok pd m' q ∧ status pd m' q = status pd m q).
  { intros j q Hne Hj. apply (po_stable po p); [done| | |by eapply Hl].
    - intros l. by apply (excludes_other _ _ _ i j _ _ (Hf l)).
    - by apply (all_apart_lookup _ ts i j). }
  split.
  - split; simpl; [done|intros l; by eapply excludes_step|].
    intros j q Hj. apply list_lookup_insert_Some in Hj as [(-> & -> & _)|[Hne Hj]]; [done|].
    by eapply Ho.
  - rewrite list_fmap_insert. apply list_eq. intros j.
    destruct (decide (j = i)) as [->|Hne].
    + apply lookup_lt_Some in Hi. by rewrite !list_lookup_insert_eq by (by rewrite length_fmap).
    + rewrite !list_lookup_insert_ne, !list_lookup_fmap by done.
      destruct (ts !! j) as [q|] eqn:Hj; [|done]. simpl. f_equal. by eapply Ho.
Qed.

(** The effect of a step, in the specification. *)
Lemma effect_asteps m ts i p p' m' res :
  ts !! i = Some p → effect m p m' p' res →
  asteps spec look within (ASt (content pd m) (status pd m <$> ts))
         (match res with Some r => [Ret i r] | None => [] end)
         (ASt (content pd m') (<[i := status pd m' p']> (status pd m <$> ts))).
Proof.
  intros Hi Heff.
  assert (Hci : (status pd m <$> ts) !! i = Some (status pd m p)) by (by rewrite list_lookup_fmap, Hi).
  unfold effect in Heff. destruct res as [r|].
  - destruct Heff as [-> Heff]. destruct (po_idle po m') as (_ & Eidle & _). rewrite Eidle.
    destruct Heff as [[Es Hc]|(o & seen & Es & Hsp)]; rewrite Es in Hci.
    + rewrite Hc. by apply asteps_one, astep_ret.
    + apply (asteps_two _ _ _ _ [] (ASt (content pd m') (<[i := ADone r]> (status pd m <$> ts)))).
      * by eapply astep_effect.
      * rewrite <- (list_insert_insert_eq (status pd m <$> ts) i AIdle (ADone r)).
        apply astep_ret. apply list_lookup_insert_eq. by eapply lookup_lt_Some.
  - destruct Heff as [[Es Hc]|[(o & seen & r & Es & Es' & Hsp)
      |[(o & seen & Es & Es' & Hw)|(o & k & Es & Es' & Hk & Hc)]]].
    + rewrite Es, Hc, list_insert_id by done. constructor.
    + rewrite Es'. apply asteps_one. eapply astep_effect; [|done]. by rewrite <- Es.
    + rewrite Es', list_insert_id by (by rewrite <- Es).
      apply asteps_one. eapply astep_within; [|done]. by rewrite <- Es.
    + rewrite Es', Hc. apply asteps_one, astep_look; [|done]. by rewrite <- Es.
Qed.

(** Forward simulation: a step is zero, one or two steps of the specification. *)
Lemma step_simulates n s l s' :
  inv n s → all_apart (apart pd) (threads s) = true → fits pd (S n) →
  step mach s l s' →
  inv (S n) s' ∧ asteps spec look within (abstraction s) l (abstraction s').
Proof.
  intros Hinv Hap Hn Hs. destruct Hs as [i o m ts Hi|i p p' m m' ts Hi Ht|i p p' m m' ts r Hi Ht].
  - destruct (po_start po o m) as (Hlo & Hso & Hco).
    destruct (po_idle po m) as (_ & Hsi & Hci). destruct Hinv as [Hm Hf Hl]. simpl in *. split.
    + split; simpl; [by apply (po_mem po)|..].
      * intros l. eapply excludes_step; [done..|]. left. by rewrite Hco, Hci.
      * intros j q Hj.
        apply list_lookup_insert_Some in Hj as [(-> & <- & _)|[Hne Hj]]; [done|by eapply Hl].
    + unfold abstraction. cbn [mem threads]. rewrite list_fmap_insert, Hso.
      apply asteps_one, astep_call. by rewrite list_lookup_fmap, Hi, <- Hsi.
  - pose proof (po_thread po n p m p' m' None (inv_mem _ _ Hinv) (inv_local _ _ Hinv i p Hi) Hn Ht) as Hg.
    destruct (others_ok _ _ _ _ _ _ _ _ Hinv Hap Hi Hg) as [Hinv' E]. split; [done|].
    unfold abstraction. simpl. rewrite E. by apply (effect_asteps m ts i p p' m' None), Hg.
  - pose proof (po_thread po n p m p' m' (Some r) (inv_mem _ _ Hinv) (inv_local _ _ Hinv i p Hi) Hn Ht) as Hg.
    destruct (others_ok _ _ _ _ _ _ _ _ Hinv Hap Hi Hg) as [Hinv' E]. split; [done|].
    unfold abstraction. simpl. rewrite E. by apply (effect_asteps m ts i p p' m' (Some r)), Hg.
Qed.

Lemma inv_init m k :
  mem_ok pd 0 m → (∀ l, flag pd l m = false) → inv 0 (St m (replicate k (idle mach))).
Proof.
  intros Hm Hf. destruct (po_idle po m) as (Hl & _ & Hc). split; simpl; [done| |].
  - intros l. rewrite Hf. by apply excludes_idle.
  - by intros i p [-> _]%lookup_replicate.
Qed.

Lemma abstraction_init m k :
  abstraction (St m (replicate k (idle mach))) = ASt (content pd m) (replicate k AIdle).
Proof.
  unfold abstraction. simpl. rewrite fmap_replicate.
  by destruct (po_idle po m) as (_ & -> & _).
Qed.

(** Executions from a quiescent state, by callers that keep to the discipline. *)
Lemma machine_simulates n m k t s :
  mem_ok pd 0 m → (∀ l, flag pd l m = false) →
  steps mach (all_apart (apart pd)) n (St m (replicate k (idle mach))) t s → fits pd n →
  inv n s ∧ asteps spec look within (ASt (content pd m) (replicate k AIdle)) t (abstraction s).
Proof.
  intros Hm Hf. rewrite <- abstraction_init.
  remember (St m (replicate k (idle mach))) as s0 eqn:E0.
  induction 1 as [s|n s s' s'' t l Hss IH Hap Hs]; subst; intros Hn.
  - split; [by apply inv_init|constructor].
  - destruct IH as [Hinv Ha]; [done|by apply (po_fits po)|].
    destruct (step_simulates _ _ _ _ Hinv Hap Hn Hs) as [Hinv' Ha'].
    split; [done|]. by eapply asteps_app.
Qed.

(** A call that is not interrupted returns, if every step brings it closer to
    its end and it does not wait for a lock; here the calls are atomic. *)
Lemma run_alone_some (steps_left : P → nat) (waits : P → M → bool) fuel n p m :
  (∀ o a a', ¬ within o a a') →
  (∀ n p m, mem_ok pd n m → local_ok pd m p → p ≠ idle mach → thread_step mach p m ≠ None) →
  (∀ p m p' m', thread_step mach p m = Some (p', m', None) → waits p m = false →
     (steps_left p' < steps_left p)%nat ∧ waits p' m' = false ∧ p' ≠ idle mach) →
  (∀ p, p ≠ idle mach → (0 < steps_left p)%nat) →
  mem_ok pd n m → local_ok pd m p → fits pd (n + fuel) → p ≠ idle mach → waits p m = false →
  (steps_left p <= fuel)%nat →
  ∃ m' r, run_alone mach fuel p m = Some (m', r) ∧
    (status pd m p = ADone r ∧ content pd m' = content pd m ∨
     ∃ o seen seen', status pd m p = APending o seen ∧ spec o seen' (content pd m) (content pd m') r ∧
       (seen' = seen ∨ seen = None ∧ seen' = look o (content pd m))).
Proof.
  intros Hat Hdef Hprog Hpos. revert n p m.
  induction fuel as [|fuel IH]; intros n p m Hm Hl Hn Hp Hw Hf; [specialize (Hpos p Hp); lia|].
  assert (Hn' : fits pd (S n)).
  { clear -Hn po. rewrite <- Nat.add_succ_comm in Hn.
    induction fuel as [|fuel IHf]; [by rewrite Nat.add_0_r in Hn|].
    apply IHf, (po_fits po). by rewrite <- Nat.add_succ_r. }
  specialize (Hdef n p m Hm Hl Hp). simpl.
  destruct (thread_step mach p m) as [[[p' m'] res]|] eqn:Hs; [|done].
  pose proof (po_thread po n p m p' m' res Hm Hl Hn' Hs) as [Gm Gl _ _ Ge].
  destruct res as [r|]; simpl in Ge.
  { exists m', r. split; [done|]. destruct Ge as [_ [?|(o & seen & ? & ?)]]; [by left|].
    right. exists o, seen, seen. auto. }
  destruct (Hprog _ _ _ _ Hs Hw) as (Hlt & Hw' & Hp').
  destruct (IH (S n) p' m' Gm Gl) as (m2 & r & Hr & Hsp);
    [by rewrite Nat.add_succ_comm|done|done|lia|].
  exists m2, r. split; [done|].
  destruct Ge as [[Es Ec]|[(o & seen & r' & Es & Es' & Hspec)
    |[(o & seen & _ & _ & Hin)|(o & k & Es & Es' & Hk & Ec)]]]; [| |by apply Hat in Hin|].
  - by rewrite <- Es, <- Ec.
  - right. exists o, seen, seen.
    destruct Hsp as [[Ed Ec]|(o' & ? & ? & Ep & _)]; [|congruence].
    rewrite Ec. split_and!; [done| |by left]. congruence.
  - right. exists o, None. destruct Hsp as [[Ed _]|(o' & seen & seen' & Ep & Hspec & Hseen)]; [congruence|].
    rewrite Es' in Ep. injection Ep as <- <-. rewrite Ec in *. exists seen'.
    destruct Hseen as [->|[? _]]; [|done]. split_and!; [done..|]. right. by rewrite Hk.
Qed.

End Simulation.
