(* ===== verification/LockFreeQueue.v ===== *)
(** [LockFreeQueue<T, SIZE>]: [include/clockUtils/container/LockFreeQueue.h].

    The operations run in threads that interleave at every access to shared
    memory: an access of an atomic member or of [_data] is one step
    ([pc_step]), a state is the shared memory with a program counter per
    thread. The calls and returns of every execution are those of a bounded FIFO
    queue, as long as no [clear] runs while another consumer holds the lock or
    clears, too; for instance if one thread makes all calls that remove elements.
    [push], [pop], [front] and [poll] are atomic; [empty], [size] and [clear] take no
    lock and look at the queue at two points. *)

From S2P Require Import Prelude Concurrent.

Local Open Scope Z_scope.

Section Queue.
Context {T : Type} (SIZE : Z).

(** * Model *)

Record shared : Type := Shared {
  _readIndex : Z;
  _writeIndex : Z;
  _enqueuing : bool;
  _dequeuing : bool;
  _data : list T
}.

(** Where a thread is in its call, with its local variables. *)
Inductive pc : Type :=
| Idle
| PushCAS (v : T) | PushLoadR (v : T) | PushLoadW (v : T) (readIndex : Z)
| PushTest (v : T) (readIndex writeIndex : Z) | PushStore (v : T) (writeIndex : Z)
| PushAdd (v : T) | PushDone (err : ClockError)
| PopCAS | PopLoadW | PopTest (writeIndex : Z) | PopAdd | PopDone (err : ClockError)
| FrontCAS | FrontLoadW | FrontLoadR (writeIndex : Z) | FrontTest (writeIndex readIndex : Z)
| FrontRead (readIndex : Z) | FrontDone (err : ClockError) (value : option T)
| PollCAS | PollLoadW | PollLoadR (writeIndex : Z) | PollTest (writeIndex readIndex : Z)
| PollRead (readIndex : Z) | PollAdd (value : T) | PollDone (err : ClockError) (value : option T)
| EmptyLoadR | EmptyLoadW (readIdx : Z)
| SizeLoadR | SizeLoadW (readIdx : Z)
| ClearLoad | ClearStore (writeIndex : Z).

Definition first_pc (o : op T) : pc :=
  match o with
  | Push v => PushCAS v
  | Pop => PopCAS
  | Front => FrontCAS
  | Poll => PollCAS
  | Empty => EmptyLoadR
  | Size => SizeLoadR
  | Clear => ClearLoad
  end.

Definition set_R (m : shared) (r : Z) : shared :=
  Shared r (_writeIndex m) (_enqueuing m) (_dequeuing m) (_data m).
Definition set_W (m : shared) (w : Z) : shared :=
  Shared (_readIndex m) w (_enqueuing m) (_dequeuing m) (_data m).
Definition set_enq (m : shared) (b : bool) : shared :=
  Shared (_readIndex m) (_writeIndex m) b (_dequeuing m) (_data m).
Definition set_deq (m : shared) (b : bool) : shared :=
  Shared (_readIndex m) (_writeIndex m) (_enqueuing m) b (_data m).
Definition set_data (m : shared) (d : list T) : shared :=
  Shared (_readIndex m) (_writeIndex m) (_enqueuing m) (_dequeuing m) d.

(** [_data[i % SIZE]] *)
Definition slot (i : Z) : nat := Z.to_nat (i mod SIZE).

Definition step_result : Type := pc * shared * option (result T).
Definition go (p : pc) (m : shared) : option step_result := Some (p, m, None).
Definition return_ (r : result T) (m : shared) : option step_result := Some (Idle, m, Some r).

Definition push_step (p : pc) (m : shared) : option step_result :=
  match p with
  | PushCAS v => if _enqueuing m then go (PushCAS v) m else go (PushLoadR v) (set_enq m true)
  | PushLoadR v => go (PushLoadW v (_readIndex m)) m
  | PushLoadW v r => go (PushTest v r (_writeIndex m)) m
  | PushTest v r w =>
      if (u64 (w - r) <? SIZE) || (w <? r) then go (PushStore v w) m
      else go (PushDone NO_SPACE_AVAILABLE) m
  | PushStore v w =>
      if (slot w <? length (_data m))%nat then go (PushAdd v) (set_data m (<[slot w := v]> (_data m)))
      else None
  | PushAdd v => go (PushDone SUCCESS) (set_W m (u64 (_writeIndex m + 1)))
  | PushDone err => return_ (RErr err) (set_enq m false)
  | _ => None
  end.

Definition pop_step (p : pc) (m : shared) : option step_result :=
  match p with
  | PopCAS => if _dequeuing m then go PopCAS m else go PopLoadW (set_deq m true)
  | PopLoadW => go (PopTest (_writeIndex m)) m
  | PopTest w => if w <=? _readIndex m then go (PopDone NO_ELEMENT) m else go PopAdd m
  | PopAdd => go (PopDone SUCCESS) (set_R m (u64 (_readIndex m + 1)))
  | PopDone err => return_ (RErr err) (set_deq m false)
  | _ => None
  end.

Definition front_step (p : pc) (m : shared) : option step_result :=
  match p with
  | FrontCAS => if _dequeuing m then go FrontCAS m else go FrontLoadW (set_deq m true)
  | FrontLoadW => go (FrontLoadR (_writeIndex m)) m
  | FrontLoadR w => go (FrontTest w (_readIndex m)) m
  | FrontTest w r => if r <? w then go (FrontRead r) m else go (FrontDone NO_ELEMENT None) m
  | FrontRead r =>
      match _data m !! slot r with Some v => go (FrontDone SUCCESS (Some v)) m | None => None end
  | FrontDone err v => return_ (RVal err v) (set_deq m false)
  | _ => None
  end.

Definition poll_step (p : pc) (m : shared) : option step_result :=
  match p with
  | PollCAS => if _dequeuing m then go PollCAS m else go PollLoadW (set_deq m true)
  | PollLoadW => go (PollLoadR (_writeIndex m)) m
  | PollLoadR w => go (PollTest w (_readIndex m)) m
  | PollTest w r => if r <? w then go (PollRead r) m else go (PollDone NO_ELEMENT None) m
  | PollRead r =>
      match _data m !! slot r with Some v => go (PollAdd v) m | None => None end
  | PollAdd v => go (PollDone SUCCESS (Some v)) (set_R m (u64 (_readIndex m + 1)))
  | PollDone err v => return_ (RVal err v) (set_deq m false)
  | _ => None
  end.

Definition empty_step (p : pc) (m : shared) : option step_result :=
  match p with
  | EmptyLoadR => go (EmptyLoadW (_readIndex m)) m
  | EmptyLoadW r => return_ (RBool (r =? _writeIndex m)) m
  | _ => None
  end.

Definition size_step (p : pc) (m : shared) : option step_result :=
  match p with
  | SizeLoadR => go (SizeLoadW (_readIndex m)) m
  | SizeLoadW r => return_ (RSize (u64 (_writeIndex m - r))) m
  | _ => None
  end.

Definition clear_step (p : pc) (m : shared) : option step_result :=
  match p with
  | ClearLoad => go (ClearStore (_writeIndex m)) m
  | ClearStore w => return_ RVoid (set_R m w)
  | _ => None
  end.

Definition pc_step (p : pc) (m : shared) : option step_result :=
  match p with
  | Idle => None
  | PushCAS _ | PushLoadR _ | PushLoadW _ _ | PushTest _ _ _ | PushStore _ _ | PushAdd _
  | PushDone _ => push_step p m
  | PopCAS | PopLoadW | PopTest _ | PopAdd | PopDone _ => pop_step p m
  | FrontCAS | FrontLoadW | FrontLoadR _ | FrontTest _ _ | FrontRead _ | FrontDone _ _ =>
      front_step p m
  | PollCAS | PollLoadW | PollLoadR _ | PollTest _ _ | PollRead _ | PollAdd _ | PollDone _ _ =>
      poll_step p m
  | EmptyLoadR | EmptyLoadW _ => empty_step p m
  | SizeLoadR | SizeLoadW _ => size_step p m
  | ClearLoad | ClearStore _ => clear_step p m
  end.

(** The queue as a machine. *)
Definition LockFreeQueue : machine T shared pc := Machine T shared pc Idle first_pc pc_step.

(** The constructor, with [n] threads that use the queue and [T()] as [dflt]. *)
Definition LockFreeQueue_new (dflt : T) (n : nat) : state shared pc :=
  St (Shared 0 0 false false (replicate (Z.to_nat SIZE) dflt)) (replicate n Idle).

(** * Specification: a bounded FIFO queue *)

(** The state of the queue: its content, and how many elements have been removed
    from it. [push], [pop], [front] and [poll] are atomic. [empty], [size] and
    [clear] take no lock and look twice; what they remember from the first time is
    how many elements had been removed ([empty] and [size]) or added ([clear]). *)
Definition look (o : op T) (a : list T * Z) : option Z :=
  match o with
  | Empty | Size => Some a.2
  | Clear => Some (a.2 + size a.1)
  | _ => None
  end.

(** What a call does and returns when it takes effect. The size is the number of
    elements and of those removed since the first look; [clear] removes what is left
    of the elements that it has seen. *)
Inductive spec : op T → option Z → list T * Z → list T * Z → result T → Prop :=
| spec_push v q k :
    size q < SIZE → spec (Push v) None (q, k) (q ++ [v], k) (RErr SUCCESS)
| spec_push_full v q k :
    SIZE <= size q → spec (Push v) None (q, k) (q, k) (RErr NO_SPACE_AVAILABLE)
| spec_pop v q k : spec Pop None (v :: q, k) (q, k + 1) (RErr SUCCESS)
| spec_pop_none k : spec Pop None ([], k) ([], k) (RErr NO_ELEMENT)
| spec_front v q k : spec Front None (v :: q, k) (v :: q, k) (RVal SUCCESS (Some v))
| spec_front_none k : spec Front None ([], k) ([], k) (RVal NO_ELEMENT None)
| spec_poll v q k : spec Poll None (v :: q, k) (q, k + 1) (RVal SUCCESS (Some v))
| spec_poll_none k : spec Poll None ([], k) ([], k) (RVal NO_ELEMENT None)
| spec_empty q k k0 :
    spec Empty (Some k0) (q, k) (q, k) (RBool (size q + (k - k0) =? 0))
| spec_size q k k0 :
    spec Size (Some k0) (q, k) (q, k) (RSize (size q + (k - k0)))
| spec_clear q q' k :
    spec Clear (Some (k + size q)) (q ++ q', k) (q', k + size q) RVoid.

(** * The abstraction *)

(** The element at index [i], if the queue has one. *)
Definition elems (m : shared) : list (option T) :=
  (λ i, _data m !! slot i) <$> seqZ (_readIndex m) (_writeIndex m - _readIndex m).

Definition contents (m : shared) : list T := omap id (elems m).

(** The state in the specification. *)
Definition view (m : shared) : list T * Z := (contents m, _readIndex m).

(** The state of a call: whether it has taken effect, and with which result. *)
Definition call_status (m : shared) (p : pc) : call T :=
  match p with
  | Idle => AIdle
  | PushCAS v | PushLoadR v | PushStore v _ | PushAdd v => APending (Push v) None
  | PushLoadW v r =>
      if _writeIndex m - r <? SIZE then APending (Push v) None else ADone (RErr NO_SPACE_AVAILABLE)
  | PushTest v r w =>
      if w - r <? SIZE then APending (Push v) None else ADone (RErr NO_SPACE_AVAILABLE)
  | PushDone err | PopDone err => ADone (RErr err)
  | PopCAS | PopLoadW | PopAdd => APending Pop None
  | PopTest w => if w <=? _readIndex m then ADone (RErr NO_ELEMENT) else APending Pop None
  | FrontCAS | FrontLoadW => APending Front None
  | FrontLoadR w =>
      ADone (if _readIndex m <? w then RVal SUCCESS (_data m !! slot (_readIndex m))
             else RVal NO_ELEMENT None)
  | FrontTest w r =>
      ADone (if r <? w then RVal SUCCESS (_data m !! slot r) else RVal NO_ELEMENT None)
  | FrontRead r => ADone (RVal SUCCESS (_data m !! slot r))
  | FrontDone err v | PollDone err v => ADone (RVal err v)
  | PollCAS | PollLoadW | PollRead _ | PollAdd _ => APending Poll None
  | PollLoadR w => if _readIndex m <? w then APending Poll None else ADone (RVal NO_ELEMENT None)
  | PollTest w r => if r <? w then APending Poll None else ADone (RVal NO_ELEMENT None)
  | EmptyLoadR => APending Empty None
  | EmptyLoadW r => APending Empty (Some r)
  | SizeLoadR => APending Size None
  | SizeLoadW r => APending Size (Some r)
  | ClearLoad => APending Clear None
  | ClearStore w => APending Clear (Some w)
  end.

(** * The invariant *)

(** The critical sections of the two spin locks. *)
Definition in_enq (p : pc) : bool :=
  match p with
  | PushLoadR _ | PushLoadW _ _ | PushTest _ _ _ | PushStore _ _ | PushAdd _ | PushDone _ => true
  | _ => false
  end.

Definition in_deq (p : pc) : bool :=
  match p with
  | PopLoadW | PopTest _ | PopAdd | PopDone _
  | FrontLoadW | FrontLoadR _ | FrontTest _ _ | FrontRead _ | FrontDone _ _
  | PollLoadW | PollLoadR _ | PollTest _ _ | PollRead _ | PollAdd _ | PollDone _ _ => true
  | _ => false
  end.

Definition in_clear (p : pc) : bool :=
  match p with ClearLoad | ClearStore _ => true | _ => false end.
Definition consumes (p : pc) : bool := in_deq p || in_clear p.

(** [clear] takes no lock: the callers have to keep it away from the critical
    section of [_dequeuing] and from another [clear]. *)
Definition may_overlap (p q : pc) : bool :=
  negb (in_clear p && consumes q || in_clear q && consumes p).

(** What the local variables of a thread say of the memory. *)
Definition locals_ok (m : shared) (p : pc) : Prop :=
  let R := _readIndex m in let W := _writeIndex m in
  match p with
  | PushLoadW _ r => 0 <= r <= R
  | PushTest _ r w => 0 <= r <= R ∧ w = W
  | PushStore _ w => w = W ∧ W - R < SIZE
  | PushAdd v => W - R < SIZE ∧ _data m !! slot W = Some v
  | PopTest w => w <= W
  | PopAdd => R < W
  | FrontLoadR w | PollLoadR w => w <= W
  | FrontTest w r | PollTest w r => w <= W ∧ r = R
  | FrontRead r | PollRead r => r = R ∧ R < W
  | PollAdd v => R < W ∧ _data m !! slot R = Some v
  | EmptyLoadW r | SizeLoadW r => 0 <= r <= R
  | ClearStore w => R <= w <= W
  | _ => True
  end.

(** The memory after at most [n] steps. *)
Record shared_ok (n : nat) (m : shared) : Prop := {
  mo_bounds : 0 <= _readIndex m <= _writeIndex m;
  mo_space : _writeIndex m - _readIndex m <= SIZE;
  mo_steps : _writeIndex m <= Z.of_nat n;
  mo_data : length (_data m) = Z.to_nat SIZE
}.

(** What a step of a thread at [p] leaves to the other threads. *)
Record step_frame (p : pc) (m m' : shared) : Prop := {
  fr_R : _readIndex m <= _readIndex m';
  fr_W : _writeIndex m <= _writeIndex m';
  fr_deq : consumes p = false → _readIndex m' = _readIndex m;
  fr_enq : in_enq p = false → _writeIndex m' = _writeIndex m ∧ _data m' = _data m;
  fr_slots i : _readIndex m <= i < _writeIndex m → _data m' !! slot i = _data m !! slot i
}.

(** The two spin locks are named by a bool, [true] for [_enqueuing]. *)
Definition queue_proof : proof_data T (list T * Z) shared pc bool := {|
  crit l p := if l : bool then in_enq p else in_deq p;
  flag l m := if l : bool then _enqueuing m else _dequeuing m;
  apart := may_overlap;
  mem_ok := shared_ok;
  local_ok := locals_ok;
  frame := step_frame;
  fits n := Z.of_nat n < 2 ^ 64;
  content := view;
  status := call_status
|}.

(** * Slots and content *)

Section Proofs.
Hypothesis SIZE_pos : 0 < SIZE.
Notation good := (good_step LockFreeQueue spec look atomic queue_proof).
Notation eff := (effect LockFreeQueue spec look atomic queue_proof).

Lemma slot_lt i : (slot i < Z.to_nat SIZE)%nat.
Proof. unfold slot. pose proof (Z.mod_pos_bound i SIZE SIZE_pos). lia. Qed.

Lemma slot_ne i j : i < j < i + SIZE → slot i ≠ slot j.
Proof.
  unfold slot. intros H E. pose proof (Z.mod_pos_bound i SIZE SIZE_pos).
  pose proof (Z.mod_pos_bound j SIZE SIZE_pos).
  assert (Em : i mod SIZE = j mod SIZE) by lia.
  pose proof (Z.div_mod i SIZE ltac:(lia)). pose proof (Z.div_mod j SIZE ltac:(lia)).
  assert (Hd : j - i = SIZE * (j / SIZE - i / SIZE)) by lia.
  destruct (Z_lt_le_dec 0 (j / SIZE - i / SIZE)); nia.
Qed.

Lemma slot_some n m i : shared_ok n m → ∃ v, _data m !! slot i = Some v.
Proof.
  intros [_ _ _ Hd]. apply lookup_lt_is_Some. rewrite Hd. apply slot_lt.
Qed.

Lemma content_empty m : _writeIndex m <= _readIndex m → contents m = [].
Proof. intros H. unfold contents, elems. by rewrite seqZ_nil by lia. Qed.

Lemma content_cons m v :
  _readIndex m < _writeIndex m → _data m !! slot (_readIndex m) = Some v →
  contents m = v :: contents (set_R m (_readIndex m + 1)).
Proof.
  intros Hlt Hv. unfold contents, elems. rewrite seqZ_cons by lia. simpl. rewrite Hv. simpl.
  replace (Z.pred (_writeIndex m - _readIndex m)) with (_writeIndex m - (_readIndex m + 1)) by lia.
  by rewrite Z.add_1_r.
Qed.

Lemma content_snoc m v :
  _readIndex m <= _writeIndex m → _data m !! slot (_writeIndex m) = Some v →
  contents (set_W m (_writeIndex m + 1)) = contents m ++ [v].
Proof.
  intros Hle Hv. unfold contents, elems. simpl.
  replace (_writeIndex m + 1 - _readIndex m) with ((_writeIndex m - _readIndex m) + 1) by lia.
  rewrite seqZ_app by lia. rewrite fmap_app, omap_app.
  replace (_readIndex m + (_writeIndex m - _readIndex m)) with (_writeIndex m) by lia.
  rewrite (seqZ_cons (_writeIndex m)), (seqZ_nil (Z.succ _)) by lia. simpl. by rewrite Hv.
Qed.

(** The content only depends on the slots in use. *)
Lemma content_ext m m' :
  _readIndex m' = _readIndex m → _writeIndex m' = _writeIndex m →
  (∀ i, _readIndex m <= i < _writeIndex m → _data m' !! slot i = _data m !! slot i) →
  contents m' = contents m.
Proof.
  intros ER EW Hd. unfold contents, elems. rewrite ER, EW. f_equal.
  apply list_fmap_ext. intros j i Hi. apply Hd.
  apply lookup_seqZ in Hi as [-> ?]. lia.
Qed.

Lemma content_size n m : shared_ok n m → size (contents m) = _writeIndex m - _readIndex m.
Proof.
  intros Hm. pose proof (mo_bounds _ _ Hm). unfold contents, elems.
  assert (E : ∀ l : list Z, length (omap id ((λ i, _data m !! slot i) <$> l)) = length l).
  { induction l as [|i l IH]; [done|].
    destruct (slot_some n m i Hm) as [v Hv]. rewrite fmap_cons, Hv. csimpl. by f_equal. }
  rewrite E, length_seqZ. lia.
Qed.

(** * The steps of one thread *)

Lemma frame_stable p m m' p2 :
  step_frame p m m' → (in_enq p = true → in_enq p2 = false) →
  (consumes p = true → consumes p2 = false) →
  locals_ok m p2 → locals_ok m' p2 ∧ call_status m' p2 = call_status m p2.
Proof.
  intros [HR HW Hdeq Henq Hslots] Hxe Hxd Hl.
  assert (He : in_enq p2 = true → _writeIndex m' = _writeIndex m ∧ _data m' = _data m).
  { intros E. apply Henq. destruct (in_enq p); [|done]. by rewrite Hxe in E. }
  assert (Hd : consumes p2 = true → _readIndex m' = _readIndex m).
  { intros E. apply Hdeq. destruct (consumes p); [|done]. by rewrite Hxd in E. }
  assert (Hhead : _readIndex m < _writeIndex m →
    _data m' !! slot (_readIndex m) = _data m !! slot (_readIndex m)) by (intros ?; apply Hslots; lia).
  clear Hslots. destruct p2; cbn [in_enq in_deq in_clear consumes orb locals_ok call_status] in *; try done;
    try (destruct (He eq_refl) as [EW ED]); try (rewrite EW, ?ED);
    try (rewrite (Hd eq_refl)); (split; [try done; try lia|try done]).
  all: try (destruct Hl as [? Hl]; split; [lia|]; subst; rewrite ?Hhead; done || lia).
  - destruct (_ <? _) eqn:E; [|done]. apply Z.ltb_lt in E. by rewrite Hhead by lia.
  - destruct (_ <? _) eqn:E; [|done]. apply Z.ltb_lt in E. destruct Hl as [? ->].
    by rewrite Hhead by lia.
  - destruct Hl as [-> ?]. by rewrite Hhead.
Qed.

Lemma shared_ok_S n m : shared_ok n m → shared_ok (S n) m.
Proof. intros []. split; [done..|lia|done]. Qed.

Lemma shared_ok_flags n m m' :
  _readIndex m' = _readIndex m → _writeIndex m' = _writeIndex m →
  length (_data m') = length (_data m) → shared_ok n m → shared_ok (S n) m'.
Proof. intros ER EW ED []. split; rewrite ?ER, ?EW, ?ED; (done || lia). Qed.

(** A step that writes no index and no slot. *)
Lemma step_frame_flags p m m' :
  _readIndex m' = _readIndex m → _writeIndex m' = _writeIndex m → _data m' = _data m → step_frame p m m'.
Proof. intros ER EW ED. split; rewrite ?ER, ?EW, ?ED; (done || lia). Qed.

Lemma view_flags m m' :
  _readIndex m' = _readIndex m → _writeIndex m' = _writeIndex m → _data m' = _data m →
  view m' = view m.
Proof. intros ER EW ED. unfold view. rewrite ER. f_equal. apply content_ext; [done..|]. by rewrite ED. Qed.

Lemma view_empty m : _writeIndex m <= _readIndex m → view m = ([], _readIndex m).
Proof. intros H. unfold view. by rewrite content_empty. Qed.

Lemma good_flags n p m p' m' res :
  shared_ok n m → _readIndex m' = _readIndex m → _writeIndex m' = _writeIndex m →
  _data m' = _data m → locals_ok m' p' →
  flag_step (in_enq p) (in_enq p') (_enqueuing m) (_enqueuing m') →
  flag_step (in_deq p) (in_deq p') (_dequeuing m) (_dequeuing m') →
  (view m' = view m → eff m p m' p' res) →
  good n p m p' m' res.
Proof.
  intros Hm ER EW ED Hl He Hd Heff. split; [|done| |by intros []|].
  - eapply shared_ok_flags; [..|done]; by rewrite ?ED.
  - by apply step_frame_flags.
  - by apply Heff, view_flags.
Qed.

Ltac flag_case :=
  match goal with |- flag_step _ _ _ _ => unfold flag_step; simpl; intuition congruence end.
Ltac flags := apply good_flags; try done; try flag_case;
  try match goal with |- locals_ok _ _ => simpl; lia end.
Ltac unchanged := intros ?; by left.

(** The steps of [push]. *)
Lemma push_good n p m p' m' res :
  shared_ok n m → locals_ok m p → Z.of_nat n + 1 < 2 ^ 64 →
  push_step p m = Some (p', m', res) → good n p m p' m' res.
Proof.
  intros Hm Hl Hn Hs. pose proof (mo_bounds _ _ Hm) as HRW. pose proof (mo_steps _ _ Hm) as HWn.
  pose proof (content_size _ _ Hm) as Hsize.
  destruct p; try done; cbn [push_step locals_ok] in *; unfold go, return_ in Hs.
  - destruct (_enqueuing m) eqn:E; simplify_eq/=; flags; unchanged.
  - simplify_eq/=. flags. intros Hc.
    simpl. destruct (_ <? _) eqn:E; [by left|right; left]. apply Z.ltb_ge in E.
    eexists _, _, _. split_and!; [done..|]. apply spec_push_full. lia.
  - simplify_eq/=. flags. unchanged.
  - destruct Hl as [Hr ->]. rewrite u64_small in Hs by lia.
    assert (Hwr : (_writeIndex m <? readIndex) = false) by (apply Z.ltb_ge; lia).
    rewrite Hwr, orb_false_r in Hs. destruct (_ <? SIZE) eqn:E; simplify_eq/=;
      flags; intros _; left; simpl; by rewrite E.
  - destruct Hl as [-> Hsp]. destruct (_ <? _)%nat eqn:E; simplify_eq/=. apply Nat.ltb_lt in E.
    assert (Hne : ∀ i, _readIndex m <= i < _writeIndex m →
      <[slot (_writeIndex m):=v]> (_data m) !! slot i = _data m !! slot i).
    { intros i Hi. apply list_lookup_insert_ne, not_eq_sym, slot_ne. lia. }
    split; [|simpl| |intros []; flag_case|left; split; [done|]].
    + by eapply shared_ok_flags; [..|exact Hm]; simpl; rewrite ?length_insert.
    + split; [done|]. by apply list_lookup_insert_eq.
    + split; simpl; [lia|lia|done|done|exact Hne].
    + cbn [content queue_proof]. unfold view. f_equal. by apply content_ext.
  - simplify_eq/=. destruct Hl as [Hsp Hv]. rewrite u64_small by lia.
    split; [|done| |intros []; flag_case|right; left].
    + destruct Hm. split; simpl; [lia|lia|lia|done].
    + split; simpl; [lia|lia|done|done|done].
    + eexists _, _, _. split_and!; [done..|]. cbn [content queue_proof]. unfold view.
      rewrite (content_snoc m v) by (done || lia). apply spec_push. lia.
  - simplify_eq/=. flags. intros Hc. split; [done|by left].
Qed.

(** The head of a queue that is not empty. *)
Lemma content_head n m :
  shared_ok n m → _readIndex m < _writeIndex m →
  ∃ v, _data m !! slot (_readIndex m) = Some v ∧
       contents m = v :: contents (set_R m (_readIndex m + 1)).
Proof.
  intros Hm Hlt. destruct (slot_some n m (_readIndex m) Hm) as [v Hv].
  exists v. split; [done|]. by apply content_cons.
Qed.

(** The last step of [pop] and [poll]: the first element is gone. *)
Lemma remove_good n p m p' o r :
  shared_ok n m → Z.of_nat n + 1 < 2 ^ 64 → _readIndex m < _writeIndex m →
  in_enq p = false → in_enq p' = false → in_deq p = true → in_deq p' = true →
  locals_ok (set_R m (u64 (_readIndex m + 1))) p' →
  call_status m p = APending o None → call_status (set_R m (u64 (_readIndex m + 1))) p' = ADone r →
  (∀ v, _data m !! slot (_readIndex m) = Some v → ∀ q k, spec o None (v :: q, k) (q, k + 1) r) →
  good n p m p' (set_R m (u64 (_readIndex m + 1))) None.
Proof.
  intros Hm Hn Hlt He He' Hd Hd' Hl Hs Hs' Hspec.
  pose proof (mo_bounds _ _ Hm). pose proof (mo_steps _ _ Hm).
  destruct (content_head n m Hm Hlt) as (v & Hv & Hc).
  rewrite u64_small in * by lia. split; [|done| |intros []; cbn [crit flag queue_proof]|right; left].
  - destruct Hm. split; simpl; [lia|lia|lia|done].
  - split; simpl; [lia|lia| |done|done]. unfold consumes. by rewrite Hd.
  - rewrite He, He'. flag_case.
  - rewrite Hd, Hd'. flag_case.
  - eexists _, _, _. split_and!; [done..|]. cbn [content queue_proof]. unfold view. rewrite Hc.
    by apply Hspec.
Qed.

Lemma pop_good n p m p' m' res :
  shared_ok n m → locals_ok m p → Z.of_nat n + 1 < 2 ^ 64 →
  pop_step p m = Some (p', m', res) → good n p m p' m' res.
Proof.
  intros Hm Hl Hn Hs. destruct p; try done; cbn [pop_step locals_ok] in *; unfold go, return_ in Hs.
  - destruct (_dequeuing m) eqn:E; simplify_eq/=; flags; unchanged.
  - simplify_eq/=. flags. intros _. simpl. destruct (_ <=? _) eqn:E; [right; left|by left].
    apply Z.leb_le in E. eexists _, _, _. split_and!; [done..|]. cbn [content queue_proof].
    rewrite view_empty by done. constructor.
  - destruct (_ <=? _) eqn:E; simplify_eq/=; flags;
      intros _; left; simpl; by rewrite E.
  - simplify_eq/=. eapply remove_good; try done. constructor.
  - simplify_eq/=. flags. intros Hc. split; [done|by left].
Qed.

Lemma front_good n p m p' m' res :
  shared_ok n m → locals_ok m p →
  front_step p m = Some (p', m', res) → good n p m p' m' res.
Proof.
  intros Hm Hl Hs. destruct p; try done; cbn [front_step locals_ok] in *; unfold go, return_ in Hs.
  - destruct (_dequeuing m) eqn:E; simplify_eq/=; flags; unchanged.
  - simplify_eq/=. flags. intros _. right; left. eexists _, _, _. split_and!; [done..|]. cbn [content queue_proof].
    destruct (_ <? _) eqn:E; [apply Z.ltb_lt in E|apply Z.ltb_ge in E].
    + destruct (content_head n _ Hm E) as (v & Hv & Hc). unfold view. rewrite Hc, Hv. constructor.
    + rewrite view_empty by done. constructor.
  - simplify_eq/=. flags. unchanged.
  - destruct Hl as [Hw ->]. destruct (_ <? _) eqn:E; simplify_eq/=;
      flags; intros _; left; simpl; by rewrite E.
  - destruct Hl as [-> Hlt]. destruct (_ !! _) as [v|] eqn:E; simplify_eq/=. flags.
    intros _. left. simpl. by rewrite E.
  - simplify_eq/=. flags. intros Hc. split; [done|by left].
Qed.

Lemma poll_good n p m p' m' res :
  shared_ok n m → locals_ok m p → Z.of_nat n + 1 < 2 ^ 64 →
  poll_step p m = Some (p', m', res) → good n p m p' m' res.
Proof.
  intros Hm Hl Hn Hs. destruct p; try done; cbn [poll_step locals_ok] in *; unfold go, return_ in Hs.
  - destruct (_dequeuing m) eqn:E; simplify_eq/=; flags; unchanged.
  - simplify_eq/=. flags. intros _. simpl. destruct (_ <? _) eqn:E; [by left|right; left].
    apply Z.ltb_ge in E. eexists _, _, _. split_and!; [done..|]. cbn [content queue_proof].
    rewrite view_empty by done. constructor.
  - simplify_eq/=. flags. unchanged.
  - destruct Hl as [Hw ->]. destruct (_ <? _) eqn:E; simplify_eq/=;
      flags; intros _; left; simpl; by rewrite E.
  - destruct Hl as [-> Hlt]. destruct (_ !! _) as [v|] eqn:E; simplify_eq/=. flags. unchanged.
  - simplify_eq/=. destruct Hl as [Hlt Hv]. eapply remove_good; try done.
    intros w Hw q k. simplify_eq. constructor.
  - simplify_eq/=. flags. intros Hc. split; [done|by left].
Qed.

(** The first step of [empty], [size] and [clear]. *)
Lemma look_good n m p p' o k :
  shared_ok n m → locals_ok m p' → in_enq p = false → in_enq p' = false →
  in_deq p = false → in_deq p' = false →
  call_status m p = APending o None → call_status m p' = APending o (Some k) →
  look o (view m) = Some k → good n p m p' m None.
Proof.
  intros Hm Hl He He' Hd Hd' Hs Hs' Hk.
  apply good_flags; [done..| | |]; [left; by rewrite He, He'|left; by rewrite Hd, Hd'|].
  intros _. right; right; right. by exists o, k.
Qed.

(** [empty] and [size] see a write index that is not before their read index. *)
Lemma observe_good n p m p' m' res :
  shared_ok n m → locals_ok m p → Z.of_nat n + 1 < 2 ^ 64 →
  empty_step p m = Some (p', m', res) ∨ size_step p m = Some (p', m', res) →
  good n p m p' m' res.
Proof.
  intros Hm Hl Hn Hs. pose proof (mo_bounds _ _ Hm). pose proof (mo_steps _ _ Hm).
  assert (Hsize : ∀ r, size (contents m) + (_readIndex m - r) = _writeIndex m - r)
    by (intros r; rewrite (content_size n _ Hm); lia).
  assert (Hempty : ∀ r, (r =? _writeIndex m) = (size (contents m) + (_readIndex m - r) =? 0)).
  { intros r. rewrite Hsize.
    destruct (Z.eqb_spec r (_writeIndex m)), (Z.eqb_spec (_writeIndex m - r) 0); done || lia. }
  destruct p; try (by destruct Hs); cbn [empty_step size_step locals_ok] in *;
    unfold go, return_ in Hs; destruct Hs as [Hs|Hs]; simplify_eq/=.
  1, 3: by eapply look_good; simpl; [done|lia|done..].
  all: flags; intros _; (split; [done|right]); eexists _, _; (split; [done|]);
    cbn [content queue_proof]; unfold view.
  - rewrite Hempty. constructor.
  - rewrite u64_small, <- Hsize by lia. constructor.
Qed.

(** The elements up to the index [w] are the first ones. *)
Lemma content_split m w :
  _readIndex m <= w <= _writeIndex m →
  contents m = omap id ((λ i, _data m !! slot i) <$> seqZ (_readIndex m) (w - _readIndex m)) ++
               contents (set_R m w).
Proof.
  intros Hw. unfold contents, elems. simpl.
  replace (_writeIndex m - _readIndex m) with ((w - _readIndex m) + (_writeIndex m - w)) by lia.
  rewrite seqZ_app by lia. rewrite fmap_app, omap_app.
  by replace (_readIndex m + (w - _readIndex m)) with w by lia.
Qed.

Lemma clear_good n p m p' m' res :
  shared_ok n m → locals_ok m p →
  clear_step p m = Some (p', m', res) → good n p m p' m' res.
Proof.
  intros Hm Hl Hs. pose proof (mo_bounds _ _ Hm). destruct p; try done;
    cbn [clear_step locals_ok] in *; unfold go, return_ in Hs; simplify_eq/=.
  - pose proof (content_size n _ Hm). eapply look_good; try done; [simpl; lia|].
    unfold look, view. cbn [fst snd]. f_equal. lia.
  - pose proof (content_size n m Hm) as Hsz.
    assert (Hok : shared_ok (S n) (set_R m writeIndex)) by (destruct Hm; split; simpl; done || lia).
    split; [done|done| |intros []; flag_case|]; [split; simpl; done || lia|].
    split; [done|right]. exists Clear, (Some writeIndex). split; [done|].
    cbn [content queue_proof]. unfold view. cbn [_readIndex set_R].
    pose proof (content_size _ _ Hok) as Hsz'. rewrite (content_split m writeIndex Hl) in Hsz |- *.
    set (q := omap _ _) in *. rewrite length_app, Nat2Z.inj_add, Hsz' in Hsz. simpl in Hsz.
    assert (Ew : writeIndex = _readIndex m + size q) by lia.
    generalize dependent (contents (set_R m writeIndex)). intros q' _.
    clearbody q. subst. constructor.
Qed.

Lemma thread_good n p m p' m' res :
  shared_ok n m → locals_ok m p → Z.of_nat n + 1 < 2 ^ 64 →
  pc_step p m = Some (p', m', res) → good n p m p' m' res.
Proof.
  intros Hm Hl Hn Hs. destruct p; try done;
    solve [by apply push_good|by apply pop_good|by apply front_good|by apply poll_good
          |by apply clear_good|apply observe_good; auto].
Qed.

(** A thread in a call can make its next step. *)
Lemma step_defined n p m :
  shared_ok n m → locals_ok m p → p ≠ Idle → pc_step p m ≠ None.
Proof.
  intros Hm Hl Hp. assert (Hs : ∀ i, _data m !! slot i ≠ None)
    by (intros i; by destruct (slot_some n m i Hm) as [? ->]).
  destruct p; try done; simpl in *; unfold go, return_; repeat case_match; try done; bool_to_prop.
  - pose proof (slot_lt writeIndex). rewrite (mo_data _ _ Hm) in *. lia.
  - by destruct (Hs readIndex).
  - by destruct (Hs readIndex).
Qed.

(** The obligations of the interface. *)
Lemma queue_proof_of : proof_of LockFreeQueue spec look atomic queue_proof.
Proof.
  split; simpl.
  - intros n p m p' m' res Hm Hl Hn Hs. apply thread_good; [done..|lia|done].
  - intros p m m' q Hf Hx Ha. apply (frame_stable p); [done|apply (Hx true)|].
    specialize (Hx false). simpl in Hx. unfold may_overlap, consumes in *.
    destruct (in_deq p), (in_deq q), (in_clear p), (in_clear q); simpl in *; try done; auto.
  - intros o m. by destruct o; (split_and!; [done..|intros []]).
  - intros m. by split_and!; [..|intros []].
  - apply shared_ok_S.
  - lia.
Qed.

Lemma new_ok dflt k : shared_ok 0 (mem (LockFreeQueue_new dflt k)).
Proof. split; simpl; [lia|lia|lia|by rewrite length_replicate]. Qed.

(** Executions of a new queue in which [clear] is kept apart. *)
Definition runs (n : nat) (dflt : T) (k : nat) (t : list (label T)) (s : state shared pc) : Prop :=
  steps LockFreeQueue (all_apart may_overlap) n (LockFreeQueue_new dflt k) t s ∧ Z.of_nat n < 2 ^ 64.

Lemma runs_simulates n dflt k t s :
  runs n dflt k t s →
  inv queue_proof n s ∧
  asteps spec look atomic (ASt ([], 0) (replicate k AIdle)) t (abstraction queue_proof s).
Proof.
  intros (Hs & Hn).
  change ([], 0) with (view (mem (LockFreeQueue_new dflt k))).
  eapply (machine_simulates LockFreeQueue spec look atomic queue_proof queue_proof_of);
    [apply (new_ok dflt k)|by intros []|exact Hs|done].
Qed.

(** ** One consumer *)

(** The calls of a consumer, and where a thread is in one of them. *)
Definition consumer_call (o : op T) : bool :=
  match o with Pop | Front | Poll | Clear => true | _ => false end.
Definition in_consumer_call (p : pc) : bool :=
  match p with PopCAS | FrontCAS | PollCAS => true | _ => consumes p end.

(** Thread [c] makes any calls, the others make no calls of a consumer. *)
Definition one_consumer (c i : nat) (o : op T) : bool := (i =? c)%nat || negb (consumer_call o).
Definition one_consumer_pc (c i : nat) (p : pc) : bool := (i =? c)%nat || negb (in_consumer_call p).

Lemma consumer_call_step p m p' m' r :
  pc_step p m = Some (p', m', r) → in_consumer_call p' = true → in_consumer_call p = true.
Proof.
  destruct p; simpl; unfold go, return_; intros Hs; repeat case_match; simplify_eq; done.
Qed.

(** If only one thread calls [pop], [front], [poll] and [clear], nothing else has
    to be respected. *)
Lemma one_consumer_runs c n dflt k t s :
  steps LockFreeQueue anything n (LockFreeQueue_new dflt k) t s → Z.of_nat n < 2 ^ 64 →
  all_allowed (one_consumer c) t → runs n dflt k t s.
Proof.
  intros Hs Hn Ho. split; [|done].
  apply (allowed_legal LockFreeQueue (one_consumer c) (one_consumer_pc c))
    with (legal := all_apart may_overlap) in Hs as [Hs _]; [done|..|done].
  - intros i. apply orb_true_r.
  - intros i o H. unfold one_consumer, one_consumer_pc in *. by destruct (i =? c)%nat, o.
  - intros i p m p' m' r Hp H. unfold one_consumer_pc in *. destruct (i =? c)%nat; [done|].
    pose proof (consumer_call_step _ _ _ _ _ Hp).
    destruct (in_consumer_call p'), (in_consumer_call p); simpl in *; try done; auto.
  - intros ts Hr. apply all_apart_true. intros i j p q Hne Hi Hj. unfold may_overlap.
    apply Hr in Hi, Hj. unfold one_consumer_pc in *.
    destruct (i =? c)%nat eqn:Ei, (j =? c)%nat eqn:Ej; simpl in *.
    { apply Nat.eqb_eq in Ei, Ej. congruence. }
    all: by destruct p, q.
Qed.

(** ** What [clear] removes *)

(** The steps of the other threads while [i] is about to write the index [w]: the
    elements at the indices before [w] stay. *)
Record clearing (i : nat) (w : Z) (m0 : shared) (s : state shared pc) : Prop := {
  cl_thread : threads s !! i = Some (ClearStore w);
  cl_read : _readIndex (mem s) = _readIndex m0;
  cl_slots j : _readIndex m0 <= j < w → _data (mem s) !! slot j = _data m0 !! slot j
}.

Lemma clearing_step n i w m0 s l s' :
  inv queue_proof n s → all_apart may_overlap (threads s) = true → Z.of_nat n + 1 < 2 ^ 64 →
  clearing i w m0 s → (∀ r, Ret i r ∉ l) → step LockFreeQueue s l s' → clearing i w m0 s'.
Proof.
  intros Hinv Hap Hn [Ht Hr Hd] Hret Hs. pose proof (inv_local _ _ _ Hinv i _ Ht) as Hw. simpl in Hw.
  assert (Hrun : ∀ j p p' m m' ts res, s = St m ts → ts !! j = Some p →
    pc_step p m = Some (p', m', res) → j ≠ i →
    clearing i w m0 (St m' (<[j := p']> ts))).
  { intros j p p' m m' ts res -> Hj Hp Hne. simpl in *.
    destruct (gs_frame _ _ _ _ _ _ _ _ _ _ _
      (thread_good n p m p' m' res (inv_mem _ _ _ Hinv) (inv_local _ _ _ Hinv j p Hj) Hn Hp))
      as [_ _ Hdeq _ Hslots].
    assert (Hout : consumes p = false).
    { assert (Ha : may_overlap p (ClearStore w) = true) by by eapply (all_apart_lookup _ ts j i).
      unfold may_overlap in Ha. simpl in Ha. rewrite andb_true_r in Ha.
      unfold consumes in *. by destruct (in_deq p), (in_clear p). }
    split; simpl; [by rewrite list_lookup_insert_ne|by rewrite Hdeq|].
    intros x Hx. rewrite Hslots by lia. by apply Hd. }
  destruct Hs as [j o m ts Hj|j p p' m m' ts Hj Hp|j p p' m m' ts r Hj Hp].
  - split; [|done..]. simpl in *. rewrite list_lookup_insert_ne; [done|]. intros ->. congruence.
  - apply (Hrun j p p' m m' ts None); try done. intros ->. by simplify_eq/=.
  - apply (Hrun j p p' m m' ts (Some r)); try done. intros ->. apply (Hret r). by left.
Qed.

Lemma clearing_steps n i w m0 s n' t s' :
  inv queue_proof n s → clearing i w m0 s → Z.of_nat (n + n') < 2 ^ 64 → (∀ r, Ret i r ∉ t) →
  steps LockFreeQueue (all_apart may_overlap) n' s t s' →
  inv queue_proof (n + n') s' ∧ clearing i w m0 s'.
Proof.
  intros Hinv Hcl Hn Ht Hs. induction Hs as [s|n' s s' s'' t l Hs IH Hap Hstep].
  { by rewrite Nat.add_0_r. }
  destruct IH as [Hinv' Hcl']; [done|done|lia| |].
  { intros r Hr. apply (Ht r), elem_of_app. by left. }
  rewrite Nat.add_succ_r. split.
  - eapply (step_simulates LockFreeQueue spec look atomic queue_proof queue_proof_of);
      [done|done|simpl; lia|done].
  - apply (clearing_step (n + n') i w m0 s' l); try done; [lia|].
    intros r Hr. apply (Ht r), elem_of_app. by right.
Qed.

(** * Properties *)

(** C2: refinement of a bounded FIFO queue. Whatever the interleaving of the
    threads, the calls and returns of an execution of less than [2 ^ 64] steps, in
    which no thread is in [clear] while another one clears or is inside of the
    critical section of [pop], [front] or [poll], are those of a bounded FIFO queue
    with these operations. [push], [pop], [front] and [poll] take effect at one point
    between call and return. [empty], [size] and [clear] look at the queue at two
    points between call and return: [size] returns the number of elements at the
    second point and of those removed between the two, [empty] returns true if and only
    if that number is 0, and [clear] removes at the second point exactly those elements
    that were in the queue at the first point and still are. The slots between the two
    indices are the content of the queue, and the read index counts the removed
    elements. *)
Theorem lockfree_linearizable n dflt k t s :
  runs n dflt k t s →
  ∃ a, asteps spec look atomic (ASt ([], 0) (replicate k AIdle)) t a ∧
       object a = (contents (mem s), _readIndex (mem s)).
Proof.
  intros [_ Ha]%runs_simulates. by exists (abstraction queue_proof s).
Qed.

(** C30: in every execution in which [clear] is kept apart from other
    consumers, each thread in a call can make its next step,
    so no slot outside of [_data] is accessed; the slot that a [push] writes is
    never one that another thread writes, or that a [front] or [poll] reads. *)
Theorem lockfree_no_data_race n dflt k t s :
  runs n dflt k t s →
  (∀ i p, threads s !! i = Some p → p ≠ Idle → pc_step p (mem s) ≠ None) ∧
  (∀ i j v w q, threads s !! i = Some (PushStore v w) → threads s !! j = Some q → i ≠ j →
    match q with
    | PushStore _ _ => False
    | FrontRead r | PollRead r => slot w ≠ slot r
    | _ => True
    end).
Proof.
  intros [[Hm Hf Hl] _]%runs_simulates. split.
  - intros i p Hi. eapply step_defined; [done|by eapply Hl].
  - intros i j v w q Hi Hj Hne. pose proof (Hl i _ Hi) as [-> Hsp]. pose proof (Hl j q Hj) as Hq.
    destruct q; try done.
    + by pose proof (excludes_other _ _ _ _ _ _ _ (Hf true) Hi Hj Hne eq_refl).
    + destruct Hq as [-> ?]. apply not_eq_sym, slot_ne. lia.
    + destruct Hq as [-> ?]. apply not_eq_sym, slot_ne. lia.
Qed.

(** C31: The queue never holds more than [SIZE] elements and the read index
    never passes the write index, in any execution in which [clear] is kept apart from
    other consumers. *)
Theorem lockfree_capacity n dflt k t s :
  runs n dflt k t s →
  size (contents (mem s)) = _writeIndex (mem s) - _readIndex (mem s) ∧
  0 <= _writeIndex (mem s) - _readIndex (mem s) <= SIZE.
Proof.
  intros [[Hm _ _] _]%runs_simulates. rewrite (content_size n _ Hm). destruct Hm. lia.
Qed.

(** C29: [clear] removes exactly what was in the queue when it read the write
    index: if, while no other consumer is in its critical section or clears,
    thread [i] does so in a state [s] and then, after
    any steps of the others, is about to return in [s'], the queue has still all
    the elements that it had in [s], followed by those pushed since; the last step
    of [clear] removes the former and keeps the latter. *)
Theorem lockfree_clear_removes n dflt k t s i l s1 n' t' s' :
  runs n dflt k t s → threads s !! i = Some ClearLoad →
  all_apart may_overlap (threads s) = true →
  step LockFreeQueue s l s1 → threads s1 !! i ≠ Some ClearLoad →
  steps LockFreeQueue (all_apart may_overlap) n' s1 t' s' → (∀ r, Ret i r ∉ t') →
  Z.of_nat (n + 1 + n') < 2 ^ 64 →
  ∃ w pushed m', threads s' !! i = Some (ClearStore w) ∧
    contents (mem s') = contents (mem s) ++ pushed ∧
    pc_step (ClearStore w) (mem s') = Some (Idle, m', Some RVoid) ∧ contents m' = pushed.
Proof.
  intros Hruns Hi Hap Hstep Hi1 Hs Hret Hn. destruct (runs_simulates n dflt k t s Hruns) as [Hinv _].
  destruct (step_simulates LockFreeQueue spec look atomic queue_proof queue_proof_of n s l s1)
    as [Hinv1 _]; [done|done|simpl; lia|done|].
  assert (Hcl : clearing i (_writeIndex (mem s)) (mem s) s1).
  { destruct Hstep as [j o m ts Hj|j p p' m m' ts Hj Hp|j p p' m m' ts r Hj Hp]; simpl in *;
      (destruct (decide (j = i)) as [->|Hne]; [|by rewrite list_lookup_insert_ne in Hi1]);
      simplify_eq; simpl in Hp; unfold go in Hp; simplify_eq.
    split; [|done..]. by eapply list_lookup_insert_eq, lookup_lt_Some. }
  destruct (clearing_steps (S n) i (_writeIndex (mem s)) (mem s) s1 n' t' s')
    as [Hinv' [Ht Hr Hd]]; [done|done|lia|done|done|].
  pose proof (inv_local _ _ _ Hinv' i _ Ht) as Hw. simpl in Hw.
  exists (_writeIndex (mem s)), (contents (set_R (mem s') (_writeIndex (mem s)))),
    (set_R (mem s') (_writeIndex (mem s))).
  split_and!; [done| |done|done]. rewrite (content_split (mem s') _ Hw). f_equal.
  unfold contents, elems. rewrite Hr. f_equal. apply list_fmap_ext. intros j x Hx. apply Hd.
  apply lookup_seqZ in Hx as [-> ?]. lia.
Qed.

(** How many steps a call still needs. *)
Definition steps_left (p : pc) : nat :=
  match p with
  | Idle => 0
  | PushCAS _ => 7 | PushLoadR _ => 6 | PushLoadW _ _ => 5 | PushTest _ _ _ => 4
  | PushStore _ _ => 3 | PushAdd _ => 2 | PushDone _ => 1
  | PopCAS => 5 | PopLoadW => 4 | PopTest _ => 3 | PopAdd => 2 | PopDone _ => 1
  | FrontCAS => 6 | FrontLoadW => 5 | FrontLoadR _ => 4 | FrontTest _ _ => 3
  | FrontRead _ => 2 | FrontDone _ _ => 1
  | PollCAS => 7 | PollLoadW => 6 | PollLoadR _ => 5 | PollTest _ _ => 4
  | PollRead _ => 3 | PollAdd _ => 2 | PollDone _ _ => 1
  | EmptyLoadR | SizeLoadR | ClearLoad => 2
  | EmptyLoadW _ | SizeLoadW _ | ClearStore _ => 1
  end.

Definition waits (p : pc) (m : shared) : bool :=
  match p with
  | PushCAS _ => _enqueuing m
  | PopCAS | FrontCAS | PollCAS => _dequeuing m
  | _ => false
  end.

Lemma step_progress p m p' m' :
  pc_step p m = Some (p', m', None) → waits p m = false →
  (steps_left p' < steps_left p)%nat ∧ waits p' m' = false ∧ p' ≠ Idle.
Proof.
  destruct p; simpl; unfold go, return_; intros Hs Hw; rewrite ?Hw in Hs;
    repeat case_match; simplify_eq; simpl; (split_and!; [lia|done|done]).
Qed.

(** A call that is not interrupted, and finds no other thread in its
    critical section, returns within seven steps, with the result and the
    content of the atomic queue. *)
Theorem lockfree_call_returns n o m :
  shared_ok n m → Z.of_nat (n + 7) < 2 ^ 64 → _enqueuing m = false → _dequeuing m = false →
  ∃ m' r, run_alone LockFreeQueue 7 (first_pc o) m = Some (m', r) ∧
          ∃ seen, spec o seen (view m) (view m') r ∧ (seen = None ∨ seen = look o (view m)).
Proof.
  intros Hm Hn He Hd.
  destruct (run_alone_some LockFreeQueue spec look atomic queue_proof queue_proof_of steps_left waits 7 n
              (first_pc o) m) as (m' & r & Hr & Hsp); try done.
  - by intros ? ? ? [].
  - apply step_defined.
  - apply step_progress.
  - intros [] ?; simpl; (done || lia).
  - by destruct o.
  - by destruct o.
  - by destruct o.
  - destruct o; simpl; lia.
  - exists m', r. split; [done|]. destruct Hsp as [[E _]|(o' & s0 & seen & E & Hsp & Hseen)]; [by destruct o|].
    assert (Eo : o' = o ∧ s0 = None) by (destruct o; simpl in E; naive_solver).
    destruct Eo as [-> ->]. exists seen. split; [done|]. destruct Hseen as [->|[_ ->]]; auto.
Qed.

(** An uninterrupted [clear] empties the queue. *)
Theorem lockfree_clear_alone m :
  ∃ m', run_alone LockFreeQueue 2 (first_pc Clear) m = Some (m', RVoid) ∧ contents m' = [].
Proof. eexists. split; [done|]. apply content_empty. simpl. lia. Qed.

End Proofs.
End Queue.

(** * Concrete executions *)

Arguments Idle {T}.

Definition is_idle {T} (p : pc (T := T)) : bool := match p with Idle => true | _ => false end.

Lemma is_idle_spec {T} SIZE (p : pc (T := T)) : is_idle p = true → p = idle (LockFreeQueue SIZE).
Proof. by destruct p. Qed.

Definition race : list (nat * option (op Z)) :=
  turn 0 (Push 5) 7 ++ turn 1 Poll 5 ++ turn 0 Clear 2 ++ more 1 2 ++
  turn 0 Size 2 ++ turn 0 (Push 7) 7 ++ turn 0 Poll 5.

Definition race_trace : list (label Z) :=
  [Call 0 (Push 5); Ret 0 (RErr SUCCESS);
   Call 1 Poll; Call 0 Clear; Ret 0 RVoid; Ret 1 (RVal SUCCESS (Some 5));
   Call 0 Size; Ret 0 (RSize (2 ^ 64 - 1));
   Call 0 (Push 7); Ret 0 (RErr SUCCESS); Call 0 Poll; Ret 0 (RVal NO_ELEMENT None)].

Lemma race_run :
  run_sched (LockFreeQueue 2) anything is_idle race [] (LockFreeQueue_new 2 0 2) =
  Some (race_trace, St (Shared 2 2 false false [5; 7]) [Idle; Idle]).
Proof. vm_compute. reflexivity. Qed.

(** [clear] takes no lock. Between the read and the increment of a [poll]
    it makes the read index pass the write index: [size] is then [2 ^ 64 - 1],
    and an element that is pushed successfully is never found. *)
Theorem lockfree_clear_race :
  steps (LockFreeQueue 2) anything 36 (LockFreeQueue_new 2 0 2)
    [Call 0 (Push 5); Ret 0 (RErr SUCCESS);
     Call 1 Poll; Call 0 Clear; Ret 0 RVoid; Ret 1 (RVal SUCCESS (Some 5));
     Call 0 Size; Ret 0 (RSize (2 ^ 64 - 1));
     Call 0 (Push 7); Ret 0 (RErr SUCCESS); Call 0 Poll; Ret 0 (RVal NO_ELEMENT None)]
    (St (Shared 2 2 false false [5; 7]) [Idle; Idle]).
Proof.
  exact (run_sched_steps _ _ is_idle 0 race _ _ [] _ _ (is_idle_spec 2) (steps_refl _ _ _) race_run).
Qed.

(** An execution in which a [push] and a [poll] overlap. *)
Definition overlap : list (nat * option (op Z)) :=
  turn 0 (Push 5) 3 ++ turn 1 Poll 1 ++ more 0 3 ++ more 1 4 ++ more 0 1.

Definition overlap_trace : list (label Z) :=
  [Call 0 (Push 5); Call 1 Poll; Ret 0 (RErr SUCCESS)].

Definition overlap_state : state shared pc :=
  St (Shared 0 1 false true [5; 0]) [Idle; PollAdd 5].

Lemma overlap_run :
  run_sched (LockFreeQueue 2) (all_apart may_overlap) is_idle overlap [] (LockFreeQueue_new 2 0 2) =
  Some (overlap_trace, overlap_state).
Proof. vm_compute. reflexivity. Qed.

Lemma overlap_runs : runs 2 14 0 2 overlap_trace overlap_state.
Proof.
  split; [|done].
  exact (run_sched_steps _ _ is_idle 0 overlap _ _ [] _ _ (is_idle_spec 2) (steps_refl _ _ _) overlap_run).
Qed.

Lemma lockfree_linearizable_witness :
  runs 2 14 0 2 overlap_trace overlap_state ∧
  ∃ a, asteps (spec 2) look atomic (ASt ([], 0) [AIdle; AIdle]) overlap_trace a ∧ object a = ([5], 0).
Proof.
  split; [apply overlap_runs|].
  destruct (lockfree_linearizable 2 eq_refl 14 0 2 _ _ overlap_runs) as (a & Ha & Hq).
  by exists a.
Defined.

Lemma lockfree_no_data_race_witness : pc_step 2 (PollAdd 5) (mem overlap_state) ≠ None.
Proof.
  destruct (lockfree_no_data_race 2 eq_refl 14 0 2 _ _ overlap_runs) as [H _].
  by apply (H 1%nat).
Defined.

Lemma lockfree_capacity_witness : size (contents 2 (mem overlap_state)) = 1.
Proof.
  destruct (lockfree_capacity 2 eq_refl 14 0 2 _ _ overlap_runs) as [H _]. exact H.
Defined.

Lemma lockfree_call_returns_witness :
  ∃ m' r, run_alone (LockFreeQueue 2) 7 (first_pc (Push 9)) (Shared 0 1 false false [5; 0]) =
    Some (m', r) ∧ ∃ seen, spec 2 (Push 9) seen ([5], 0) (view 2 m') r ∧
      (seen = None ∨ seen = look (Push 9) ([5], 0)).
Proof.
  apply (lockfree_call_returns 2 eq_refl 1 (Push 9) (Shared 0 1 false false [5; 0])); done.
Defined.

(** A [push] while a [clear] is running. *)
Definition clear_start : list (nat * option (op Z)) := turn 0 (Push 5) 7 ++ turn 1 Clear 0.
Definition clear_start_trace : list (label Z) :=
  [Call 0 (Push 5); Ret 0 (RErr SUCCESS); Call 1 Clear].
Definition clear_start_state : state shared (pc (T := Z)) :=
  St (Shared 0 1 false false [5; 0]) [Idle; ClearLoad].
Definition clear_loaded : state shared (pc (T := Z)) :=
  St (Shared 0 1 false false [5; 0]) [Idle; ClearStore 1].
Definition clear_pushed : state shared (pc (T := Z)) :=
  St (Shared 0 2 false false [5; 6]) [Idle; ClearStore 1].

Lemma clear_start_runs : runs 2 9 0 2 clear_start_trace clear_start_state.
Proof.
  split; [|done].
  refine (run_sched_steps _ _ is_idle 0 clear_start _ _ [] _ _ (is_idle_spec 2) (steps_refl _ _ _) _).
  vm_compute. reflexivity.
Qed.

Lemma clear_pushes :
  steps (LockFreeQueue 2) (all_apart may_overlap) 8 clear_loaded
    [Call 0 (Push 6); Ret 0 (RErr SUCCESS)] clear_pushed.
Proof.
  refine (run_sched_steps _ _ is_idle 0 (turn 0 (Push 6) 7) _ _ [] _ _ (is_idle_spec 2) (steps_refl _ _ _) _).
  vm_compute. reflexivity.
Qed.

Lemma lockfree_clear_removes_witness :
  ∃ w pushed m', threads clear_pushed !! 1%nat = Some (ClearStore w) ∧
    contents 2 (mem clear_pushed) = [5] ++ pushed ∧
    pc_step 2 (ClearStore w) (mem clear_pushed) = Some (Idle, m', Some RVoid) ∧
    contents 2 m' = pushed.
Proof.
  apply (lockfree_clear_removes 2 eq_refl 9 0 2 _ _ 1 [] clear_loaded 8
    [Call 0 (Push 6); Ret 0 (RErr SUCCESS)] clear_pushed clear_start_runs); try done.
  - by apply (step_run (LockFreeQueue 2) 1 ClearLoad (ClearStore 1) (mem clear_start_state)
      (mem clear_start_state) (threads clear_start_state)).
  - apply clear_pushes.
  - intros r. rewrite !elem_of_cons, elem_of_nil. naive_solver.
Defined.
