(* ===== verification/DoubleBufferQueue.v ===== *)
(** [DoubleBufferQueue<T, producer, consumer>]:
    [include/clockUtils/container/DoubleBufferQueue.h].

    Two [std::queue]s, one that is written and one that is read, and a mutex for
    each; a consumer that finds the read queue empty swaps the two. As for the
    lock-free queue, the threads interleave: locking, unlocking and every access
    of a queue or of the pointers are single steps. The queue is free of
    deadlocks, no two threads use one of the two queues at the same time, and all
    calls are linearizable, but for [clear], which is not atomic: it removes
    elements one by one, and never adds or reorders any. What the callers have to
    respect is that [empty] and [size], which take no lock, do not run while
    another thread is inside of a critical section, and with [consumer = false]
    that only one thread takes elements out at a time. *)

From S2P Require Import Prelude Concurrent.

Local Open Scope Z_scope.

Section Queue.
Context {T : Type} (consumer : bool).

(** * Model *)

(** The queues from front to back; the pointers are [true] for [&_queueA]. *)
Record shared : Type := Shared {
  _queueA : list T;
  _queueB : list T;
  _queueRead : bool;
  _queueWrite : bool;
  _readLock : bool;
  _writeLock : bool
}.

Definition at_ (m : shared) (ptr : bool) : list T := if ptr then _queueA m else _queueB m.
Definition set_at (m : shared) (ptr : bool) (q : list T) : shared :=
  Shared (if ptr then q else _queueA m) (if ptr then _queueB m else q)
         (_queueRead m) (_queueWrite m) (_readLock m) (_writeLock m).
Definition set_readLock (m : shared) (b : bool) : shared :=
  Shared (_queueA m) (_queueB m) (_queueRead m) (_queueWrite m) b (_writeLock m).
Definition set_writeLock (m : shared) (b : bool) : shared :=
  Shared (_queueA m) (_queueB m) (_queueRead m) (_queueWrite m) (_readLock m) b.
Definition set_pointers (m : shared) (r w : bool) : shared :=
  Shared (_queueA m) (_queueB m) r w (_readLock m) (_writeLock m).

(** [*_queueRead] and [*_queueWrite] *)
Definition read_queue (m : shared) : list T := at_ m (_queueRead m).
Definition write_queue (m : shared) : list T := at_ m (_queueWrite m).

(** The three operations of a consumer, with the same frame. *)
Inductive take : Type := TakePop | TakeFront | TakePoll.

Inductive pc : Type :=
| Idle
| PushLock (v : T) | PushQueue (v : T) | PushUnlock
| TakeLock (k : take) | TakeTest (k : take)
| SwapLock (k : take) | SwapDo (k : take) | SwapUnlock (k : take)
| TakeTest2 (k : take) | TakeFrontValue (k : take) | TakeRemove (k : take) (value : option T)
| TakeUnlock (r : result T)
| EmptyRead | EmptyWrite
| SizeRead | SizeWrite (n : Z)
| ClearReadLock | ClearRead | ClearReadUnlock | ClearWriteLock | ClearWrite | ClearWriteUnlock.

Definition first_pc (o : op T) : pc :=
  match o with
  | Push v => PushLock v
  | Pop => TakeLock TakePop
  | Front => TakeLock TakeFront
  | Poll => TakeLock TakePoll
  | Empty => EmptyRead
  | Size => SizeRead
  | Clear => ClearReadLock
  end.

Definition step_result : Type := pc * shared * option (result T).
Definition go (p : pc) (m : shared) : option step_result := Some (p, m, None).
Definition return_ (r : result T) (m : shared) : option step_result := Some (Idle, m, Some r).

(** [push]; a thread that waits for a mutex has no step. *)
Definition push_step (p : pc) (m : shared) : option step_result :=
  match p with
  | PushLock v => if _writeLock m then None else go (PushQueue v) (set_writeLock m true)
  | PushQueue v => go PushUnlock (set_at m (_queueWrite m) (write_queue m ++ [v]))
  | PushUnlock => return_ RVoid (set_writeLock m false)
  | _ => None
  end.

(** [swap] *)
Definition swap_step (p : pc) (m : shared) : option step_result :=
  match p with
  | SwapLock k => if _writeLock m then None else go (SwapDo k) (set_writeLock m true)
  | SwapDo k =>
      if _queueRead m then go (SwapUnlock k) (set_pointers m false true)
      else go (SwapUnlock k) (set_pointers m true false)
  | SwapUnlock k => go (TakeTest2 k) (set_writeLock m false)
  | _ => None
  end.

Definition no_element (k : take) : result T :=
  match k with TakePop => RErr NO_ELEMENT | _ => RVal NO_ELEMENT None end.

Definition taken (k : take) (value : option T) : result T :=
  match k with TakePop => RErr SUCCESS | _ => RVal SUCCESS value end.

(** [pop(Bool2Type<consumer>)], [front] and [poll]: with [consumer = false]
    there is no lock. *)
Definition take_step (p : pc) (m : shared) : option step_result :=
  match p with
  | TakeLock k =>
      if consumer then
        if _readLock m then None else go (TakeTest k) (set_readLock m true)
      else go (TakeTest k) m
  | TakeTest k =>
      match read_queue m with [] => go (SwapLock k) m | _ => go (TakeTest2 k) m end
  | TakeTest2 k =>
      match read_queue m with
      | [] => go (TakeUnlock (no_element k)) m
      | _ => match k with TakePop => go (TakeRemove k None) m | _ => go (TakeFrontValue k) m end
      end
  | TakeFrontValue k =>
      match read_queue m with
      | [] => None
      | v :: _ =>
          match k with
          | TakeFront => go (TakeUnlock (taken k (Some v))) m
          | _ => go (TakeRemove k (Some v)) m
          end
      end
  | TakeRemove k value =>
      match read_queue m with
      | [] => None
      | _ :: q => go (TakeUnlock (taken k value)) (set_at m (_queueRead m) q)
      end
  | TakeUnlock r => return_ r (if consumer then set_readLock m false else m)
  | _ => None
  end.

(** [empty]: [&&] does not look at the write queue if the read queue has
    elements. *)
Definition empty_step (p : pc) (m : shared) : option step_result :=
  match p with
  | EmptyRead => match read_queue m with [] => go EmptyWrite m | _ => return_ (RBool false) m end
  | EmptyWrite => return_ (RBool (match write_queue m with [] => true | _ => false end)) m
  | _ => None
  end.

Definition size_step (p : pc) (m : shared) : option step_result :=
  match p with
  | SizeRead => go (SizeWrite (size (read_queue m))) m
  | SizeWrite n => return_ (RSize (u64 (n + size (write_queue m)))) m
  | _ => None
  end.

(** [clear]; the loops remove one element per step. *)
Definition clear_step (p : pc) (m : shared) : option step_result :=
  match p with
  | ClearReadLock => if _readLock m then None else go ClearRead (set_readLock m true)
  | ClearRead =>
      match read_queue m with
      | [] => go ClearReadUnlock m
      | _ :: q => go ClearRead (set_at m (_queueRead m) q)
      end
  | ClearReadUnlock => go ClearWriteLock (set_readLock m false)
  | ClearWriteLock => if _writeLock m then None else go ClearWrite (set_writeLock m true)
  | ClearWrite =>
      match write_queue m with
      | [] => go ClearWriteUnlock m
      | _ :: q => go ClearWrite (set_at m (_queueWrite m) q)
      end
  | ClearWriteUnlock => return_ RVoid (set_writeLock m false)
  | _ => None
  end.

Definition pc_step (p : pc) (m : shared) : option step_result :=
  match p with
  | Idle => None
  | PushLock _ | PushQueue _ | PushUnlock => push_step p m
  | SwapLock _ | SwapDo _ | SwapUnlock _ => swap_step p m
  | TakeLock _ | TakeTest _ | TakeTest2 _ | TakeFrontValue _ | TakeRemove _ _ | TakeUnlock _ =>
      take_step p m
  | EmptyRead | EmptyWrite => empty_step p m
  | SizeRead | SizeWrite _ => size_step p m
  | ClearReadLock | ClearRead | ClearReadUnlock | ClearWriteLock | ClearWrite
  | ClearWriteUnlock => clear_step p m
  end.

Definition DoubleBufferQueue : machine T shared pc := Machine T shared pc Idle first_pc pc_step.

(** The constructor, with [n] threads that use the queue. *)
Definition DoubleBufferQueue_new (n : nat) : state shared pc :=
  St (Shared [] [] true false false false) (replicate n Idle).

(** * Specification: an atomic FIFO queue

    [clear] is the only call that is not atomic: during the call it may remove
    any elements ([removes]); when it returns it has no further effect. *)

Inductive spec : op T → list T → list T → result T → Prop :=
| spec_push v q : spec (Push v) q (q ++ [v]) RVoid
| spec_pop v q : spec Pop (v :: q) q (RErr SUCCESS)
| spec_pop_none : spec Pop [] [] (RErr NO_ELEMENT)
| spec_front v q : spec Front (v :: q) (v :: q) (RVal SUCCESS (Some v))
| spec_front_none : spec Front [] [] (RVal NO_ELEMENT None)
| spec_poll v q : spec Poll (v :: q) q (RVal SUCCESS (Some v))
| spec_poll_none : spec Poll [] [] (RVal NO_ELEMENT None)
| spec_empty q : spec Empty q q (RBool (match q with [] => true | _ => false end))
| spec_size q : spec Size q q (RSize (u64 (size q)))
| spec_clear q : spec Clear q q RVoid.

Inductive removes : op T → list T → list T → Prop :=
| clear_removes q1 v q2 : removes Clear (q1 ++ v :: q2) (q1 ++ q2).

(** * The abstraction and the invariant *)

Definition contents (m : shared) : list T := read_queue m ++ write_queue m.

Definition take_op (k : take) : op T :=
  match k with TakePop => Pop | TakeFront => Front | TakePoll => Poll end.

(** A call that finds the read queue empty after the swap has taken effect. *)
Definition after_swap (m : shared) (k : take) : call T :=
  match read_queue m with [] => ADone (no_element k) | _ => APending (take_op k) None end.

Definition call_status (m : shared) (p : pc) : call T :=
  match p with
  | Idle => AIdle
  | PushLock v | PushQueue v => APending (Push v) None
  | PushUnlock => ADone RVoid
  | TakeLock k | TakeTest k | SwapLock k | SwapDo k | TakeFrontValue k | TakeRemove k _ =>
      APending (take_op k) None
  | SwapUnlock k | TakeTest2 k => after_swap m k
  | TakeUnlock r => ADone r
  | EmptyRead | EmptyWrite => APending Empty None
  | SizeRead | SizeWrite _ => APending Size None
  | _ => APending Clear None
  end.

(** Where a thread uses the read queue, and the critical section of [_writeLock]. *)
Definition in_read (p : pc) : bool :=
  match p with
  | TakeTest _ | SwapLock _ | SwapDo _ | SwapUnlock _ | TakeTest2 _ | TakeFrontValue _
  | TakeRemove _ _ | TakeUnlock _ | ClearRead | ClearReadUnlock => true
  | _ => false
  end.

Definition in_write (p : pc) : bool :=
  match p with
  | PushQueue _ | PushUnlock | SwapDo _ | SwapUnlock _ | ClearWrite | ClearWriteUnlock => true
  | _ => false
  end.

Definition locals_ok (m : shared) (p : pc) : Prop :=
  match p with
  | SwapLock _ | SwapDo _ => read_queue m = []
  | TakeFrontValue k => read_queue m ≠ [] ∧ k ≠ TakePop
  | TakeRemove k None => read_queue m ≠ [] ∧ k = TakePop
  | TakeRemove k (Some v) => head (read_queue m) = Some v ∧ k = TakePoll
  | EmptyWrite => read_queue m = []
  | SizeWrite n => n = size (read_queue m)
  | _ => True
  end.

(** The critical section of [_readLock], which a single consumer does not lock. *)
Definition in_read_lock (p : pc) : bool :=
  match p with ClearRead | ClearReadUnlock => true | _ => consumer && in_read p end.

(** [empty] and [size]. *)
Definition observes (p : pc) : bool :=
  match p with EmptyRead | EmptyWrite | SizeRead | SizeWrite _ => true | _ => false end.
Definition busy (p : pc) : bool := in_read p || in_write p.

(** What the callers have to respect. *)
Definition may_overlap (p q : pc) : bool :=
  negb (negb consumer && in_read p && in_read q || observes p && busy q || observes q && busy p).

(** The two mutexes are named by a bool, [true] for [_readLock]. *)
Definition queue_proof : proof_data T (list T) shared pc bool := {|
  crit l p := if l : bool then in_read_lock p else in_write p;
  flag l m := if l : bool then _readLock m else _writeLock m;
  apart := may_overlap;
  mem_ok n m := _queueWrite m = negb (_queueRead m);
  local_ok := locals_ok;
  frame p m m' := in_read p = false → read_queue m' = read_queue m;
  fits n := True;
  content := contents;
  status := call_status
|}.

(** * The steps of one thread *)

Section Proofs.
Notation good := (good_step DoubleBufferQueue (unseen spec) no_look removes queue_proof).

Lemma queue_stable p m m' q :
  (in_read p = false → read_queue m' = read_queue m) →
  (in_read p = true → in_read q || observes q = false) →
  locals_ok m q → locals_ok m' q ∧ call_status m' q = call_status m q.
Proof.
  intros Hf Hx Hl. destruct (in_read q || observes q) eqn:Eq.
  - assert (Hr : read_queue m' = read_queue m)
      by (apply Hf; destruct (in_read p); [by specialize (Hx eq_refl)|done]).
    destruct q; try done; simpl in *; unfold after_swap; by rewrite Hr.
  - by destruct q.
Qed.

(** Nobody else uses the read queue: the mutex or the callers see to it. *)
Lemma read_alone p q :
  (in_read_lock p = true → in_read_lock q = false) → may_overlap p q = true →
  in_read p = true → in_read q || observes q = false.
Proof.
  unfold may_overlap, busy. intros Hx Ha Hp. rewrite Hp in Ha.
  destruct (observes q) eqn:Eo; [by rewrite !orb_true_r in Ha|]. rewrite orb_false_r.
  destruct (in_read q) eqn:Eq; [|done]. exfalso. destruct consumer eqn:Ec; [|done].
  unfold in_read_lock in Hx. rewrite Ec, Hp, Eq in Hx. simpl in Hx.
  destruct p, q; simpl in *; try done; by specialize (Hx eq_refl).
Qed.

(** Writing to the write queue, and swapping an empty read queue. *)
Lemma set_write_read m q :
  _queueWrite m = negb (_queueRead m) →
  read_queue (set_at m (_queueWrite m) q) = read_queue m ∧
  write_queue (set_at m (_queueWrite m) q) = q.
Proof.
  unfold read_queue, write_queue, at_, set_at. intros E. simpl. rewrite E. by destruct (_queueRead m).
Qed.

Lemma set_read_read m q :
  _queueWrite m = negb (_queueRead m) →
  read_queue (set_at m (_queueRead m) q) = q ∧
  write_queue (set_at m (_queueRead m) q) = write_queue m.
Proof.
  unfold read_queue, write_queue, at_, set_at. intros E. simpl. rewrite E. by destruct (_queueRead m).
Qed.

Ltac flag_case :=
  match goal with |- ∀ l, flag_step _ _ _ _ =>
    intros []; unfold flag_step; simpl; unfold in_read_lock; simpl; destruct consumer eqn:?;
    intuition congruence end.

Lemma dbq_push_good n p m p' m' res :
  mem_ok queue_proof n m → locals_ok m p →
  push_step p m = Some (p', m', res) → good n p m p' m' res.
Proof.
  intros Hm Hl Hs. simpl in Hm. destruct p; try done; cbn [push_step] in Hs;
    unfold go, return_ in Hs.
  - destruct (_writeLock m) eqn:E; simplify_eq/=. split; [done..|flag_case|by left].
  - simplify_eq/=. destruct (set_write_read m (write_queue m ++ [v]) Hm) as [Hr Hw].
    split; [done|done|by intros _|flag_case|right; left]. eexists _, _, _. split_and!; [done..|].
    simpl. unfold contents. rewrite Hr, Hw, app_assoc. constructor.
  - simplify_eq/=. split; [done..|flag_case|]. split; [done|by left].
Qed.

Lemma swap_good n p m p' m' res :
  mem_ok queue_proof n m → locals_ok m p →
  swap_step p m = Some (p', m', res) → good n p m p' m' res.
Proof.
  intros Hm Hl Hs. simpl in Hm. destruct p; try done; cbn [swap_step locals_ok] in *;
    unfold go, return_ in Hs.
  - destruct (_writeLock m) eqn:E; simplify_eq/=. split; [done..|flag_case|by left].
  - assert (Hsw : p' = SwapUnlock k ∧ res = None ∧ _queueWrite m' = negb (_queueRead m') ∧
      read_queue m' = write_queue m ∧ write_queue m' = [] ∧
      _readLock m' = _readLock m ∧ _writeLock m' = _writeLock m).
    { unfold read_queue, write_queue, at_ in *. rewrite Hm.
      destruct (_queueRead m) eqn:E; simplify_eq/=; unfold at_; simpl; by rewrite ?Hl. }
    clear Hs. destruct Hsw as (-> & -> & Hm' & Hr & Hw & Er & Ew).
    split; [done|done|done|intros []; left; simpl; by rewrite ?Er, ?Ew|]. simpl.
    unfold after_swap, contents. rewrite Hl, Hr, Hw, app_nil_r.
    destruct (write_queue m) as [|v q]; [right; left|by left].
    eexists _, _, _. split_and!; [done..|]. destruct k; constructor.
  - simplify_eq/=. split; [done..|flag_case|by left].
Qed.

Lemma take_good n p m p' m' res :
  mem_ok queue_proof n m → locals_ok m p →
  take_step p m = Some (p', m', res) → good n p m p' m' res.
Proof.
  intros Hm Hl Hs. simpl in Hm. destruct p; try done; cbn [take_step locals_ok] in *;
    unfold go, return_ in Hs.
  - destruct consumer eqn:Ec; [destruct (_readLock m) eqn:E|]; simplify_eq/=;
      (split; [done..|flag_case|by left]).
  - destruct (read_queue m) as [|v q] eqn:E; simplify_eq/=.
    + split; [done..|flag_case|by left].
    + split; [done..|flag_case|left]. simpl. unfold after_swap. by rewrite E.
  - destruct (read_queue m) as [|v q] eqn:E; simplify_eq/=.
    + split; [done..|flag_case|left]. simpl. unfold after_swap. by rewrite E.
    + destruct k; simplify_eq/=; (split; [done|simpl; by rewrite ?E|done|flag_case|left]);
        simpl; unfold after_swap; by rewrite E.
  - destruct Hl as [_ Hk]. destruct (read_queue m) as [|v q] eqn:E; [done|].
    destruct k; simplify_eq/=.
    + split; [done..|flag_case|right; left]. eexists _, _, _. split_and!; [done..|]. simpl. unfold unseen.
      unfold contents. rewrite E. constructor.
    + split; [done|simpl; by rewrite E|done|flag_case|by left].
  - destruct (read_queue m) as [|w q] eqn:E; simplify_eq/=.
    destruct (set_read_read m q Hm) as [Hr Hw].
    split; [done|done|done|flag_case|right; left]. eexists _, _, _. split_and!; [done..|]. simpl. unfold unseen.
    unfold contents. rewrite Hr, Hw, E. simpl.
    destruct value as [v|]; destruct Hl as [Hv ->]; simplify_eq/=; constructor.
  - destruct consumer eqn:Ec; simplify_eq/=; (split; [done..|flag_case|]); (split; [done|by left]).
Qed.

(** [empty] and [size]: nobody changes the read queue meanwhile. *)
Lemma dbq_observe_good n p m p' m' res :
  mem_ok queue_proof n m → locals_ok m p →
  empty_step p m = Some (p', m', res) ∨ size_step p m = Some (p', m', res) →
  good n p m p' m' res.
Proof.
  intros Hm Hl Hs. destruct p; try (by destruct Hs); cbn [empty_step size_step locals_ok] in *;
    unfold go, return_ in Hs; destruct Hs as [Hs|Hs]; try done.
  - destruct (read_queue m) as [|v q] eqn:E; simplify_eq/=.
    + split; [done|by simpl|done|flag_case|by left].
    + split; [done..|flag_case|]. split; [done|right]. exists Empty, None. split; [done|]. simpl.
      unfold contents. rewrite E. constructor.
  - simplify_eq/=. split; [done..|flag_case|]. split; [done|right]. exists Empty, None. split; [done|].
    simpl. unfold contents. rewrite Hl. constructor.
  - simplify_eq/=. split; [done|by simpl|done|flag_case|by left].
  - simplify_eq/=. split; [done..|flag_case|]. split; [done|right]. exists Size, None. split; [done|].
    simpl. replace (size (read_queue m') + size (write_queue m')) with (size (contents m'))
      by (unfold contents; rewrite length_app; lia). constructor.
Qed.

Lemma dbq_clear_good n p m p' m' res :
  mem_ok queue_proof n m → locals_ok m p →
  clear_step p m = Some (p', m', res) → good n p m p' m' res.
Proof.
  intros Hm Hl Hs. simpl in Hm. destruct p; try done; cbn [clear_step] in Hs;
    unfold go, return_ in Hs.
  - destruct (_readLock m) eqn:E; simplify_eq/=. split; [done..|flag_case|by left].
  - destruct (read_queue m) as [|v q] eqn:E; simplify_eq/=.
    + split; [done..|flag_case|by left].
    + destruct (set_read_read m q Hm) as [Hr Hw].
      split; [done..|flag_case|right; right; left]. exists Clear, None. split_and!; [done..|]. simpl.
      unfold contents. rewrite Hr, Hw, E. apply (clear_removes []).
  - simplify_eq/=. split; [done..|flag_case|by left].
  - destruct (_writeLock m) eqn:E; simplify_eq/=. split; [done..|flag_case|by left].
  - destruct (write_queue m) as [|v q] eqn:E; simplify_eq/=.
    + split; [done..|flag_case|by left].
    + destruct (set_write_read m q Hm) as [Hr Hw].
      split; [done|done|by intros _|flag_case|right; right; left]. exists Clear, None. split_and!; [done..|].
      simpl. unfold contents. rewrite Hr, Hw, E. apply clear_removes.
  - simplify_eq/=. split; [done..|flag_case|]. split; [done|right]. exists Clear, None.
    split; [done|constructor].
Qed.

Lemma dbq_queue_proof_of : proof_of DoubleBufferQueue (unseen spec) no_look removes queue_proof.
Proof.
  split.
  - intros n p m p' m' res Hm Hl _ Hs. destruct p; try done;
      solve [by apply dbq_push_good|by apply swap_good|by apply take_good|by apply dbq_clear_good
            |apply dbq_observe_good; auto].
  - intros p m m' q Hf Hx Ha. apply (queue_stable p); [done|]. by apply read_alone; [apply (Hx true)|].
  - intros o m. destruct o; (split_and!; [done..|]);
      (intros []; simpl; unfold in_read_lock; simpl; by rewrite ?andb_false_r).
  - intros m. split_and!; [done..|]. intros []; simpl; unfold in_read_lock; simpl; by rewrite ?andb_false_r.
  - done.
  - done.
Qed.

(** Executions of a new queue by callers that keep to the discipline. *)
Definition runs (n k : nat) (t : list (label T)) (s : state shared pc) : Prop :=
  steps DoubleBufferQueue (all_apart may_overlap) n (DoubleBufferQueue_new k) t s.

Lemma dbq_runs_simulates n k t s :
  runs n k t s →
  inv queue_proof n s ∧ asteps (unseen spec) no_look removes (ASt [] (replicate k AIdle)) t (abstraction queue_proof s).
Proof.
  intros Hs.
  by apply (machine_simulates DoubleBufferQueue (unseen spec) no_look removes queue_proof dbq_queue_proof_of n
    (mem (DoubleBufferQueue_new k)) k t s eq_refl); [intros []|..].
Qed.

(** * Properties *)

(** C6: linearizability, for both values of [consumer]. Whatever the interleaving
    of the threads, as long as [empty] and [size] run while no other thread is
    inside of a critical section and, with [consumer = false], one thread at a
    time takes elements out, the calls and returns of every execution are those
    of a FIFO queue, whose content is the read queue followed by the write queue:
    every call but [clear] is atomic, and [clear] does nothing but remove
    elements, one by one and before it returns. *)
Theorem dbq_linearizable n k t s :
  runs n k t s →
  ∃ a, asteps (unseen spec) no_look removes (ASt [] (replicate k AIdle)) t a ∧
       object a = read_queue (mem s) ++ write_queue (mem s).
Proof. intros [_ Ha]%dbq_runs_simulates. by exists (abstraction queue_proof s). Qed.

Lemma holder_steps m p :
  locals_ok m p → (in_write p = true ∨ (in_read p = true ∧ _writeLock m = false)) →
  pc_step p m ≠ None.
Proof.
  intros Hl Hh. destruct p; destruct Hh as [Hh|[Hh Hw]]; try done; simpl in *;
    unfold go, return_; repeat case_match; try done; try congruence; naive_solver.
Qed.

Lemma in_read_lock_read p : in_read_lock p = true → in_read p = true.
Proof. unfold in_read_lock. destruct p; try done; by destruct consumer. Qed.

(** C32: the two mutexes never lead to a deadlock, in any execution in which
    the callers keep apart what the mutexes do not ([may_overlap]): as long as
    some thread is in a call, some thread in a call can make a step. *)
Theorem dbq_deadlock_free n k t s :
  runs n k t s →
  (∃ i p, threads s !! i = Some p ∧ p ≠ Idle) →
  ∃ j q, threads s !! j = Some q ∧ q ≠ Idle ∧ pc_step q (mem s) ≠ None.
Proof.
  intros [[Hm Hf Hl] _]%dbq_runs_simulates (i & p & Hi & Hp).
  pose proof (Hf true) as Hr. pose proof (Hf false) as Hw. simpl in *.
  destruct (_writeLock (mem s)) eqn:Ew.
  { destruct (excludes_holder _ _ Hw) as (j & q & Hj & Hq). exists j, q.
    split_and!; [done|by destruct q|]. apply holder_steps; [by eapply Hl|by left]. }
  destruct (_readLock (mem s)) eqn:Er.
  { destruct (excludes_holder _ _ Hr) as (j & q & Hj & Hq%in_read_lock_read). exists j, q.
    split_and!; [done|by destruct q|]. apply holder_steps; [by eapply Hl|by right]. }
  exists i, p. split_and!; [done..|]. pose proof (Hl i p Hi) as Hlp.
  destruct (in_read p || in_write p) eqn:Eh.
  { apply holder_steps; [done|]. apply orb_true_iff in Eh as [?|?]; [by right|by left]. }
  destruct p; try done; simpl; unfold go, return_; rewrite ?Ew, ?Er;
    by repeat case_match.
Qed.

(** The queue that the next step of a thread uses. *)
Definition uses (p : pc) (m : shared) : option bool :=
  match p with
  | TakeTest _ | TakeTest2 _ | TakeFrontValue _ | TakeRemove _ _ | ClearRead | EmptyRead | SizeRead =>
      Some (_queueRead m)
  | PushQueue _ | ClearWrite | EmptyWrite | SizeWrite _ => Some (_queueWrite m)
  | _ => None
  end.

Lemma uses_where p m x :
  uses p m = Some x →
  (in_read p = true ∧ x = _queueRead m) ∨ (in_write p = true ∧ x = _queueWrite m) ∨
  observes p = true.
Proof. intros H. destruct p; simpl in H; simplify_eq; simpl; auto. Qed.

(** C33: as long as the callers keep [empty] and [size] away from the critical
    sections of other threads and, with [consumer = false], consumers from each
    other, two threads never use the same one of the two
    queues at the same time, unless both only look at it in [empty] or [size],
    and no thread uses a queue while another one swaps the pointers. *)
Theorem dbq_no_data_race n k t s i j p q :
  runs n k t s → all_apart may_overlap (threads s) = true →
  threads s !! i = Some p → threads s !! j = Some q → i ≠ j →
  (∀ x, uses p (mem s) = Some x → uses q (mem s) = Some x → observes p = true ∧ observes q = true) ∧
  (∀ a, p = SwapDo a → uses q (mem s) = None).
Proof.
  intros [[Hm Hf Hl] _]%dbq_runs_simulates Hap Hi Hj Hne. simpl in Hm.
  assert (Ha : may_overlap p q = true) by by apply (all_apart_lookup _ _ i j _ _ Hap).
  assert (Hrr : in_read p = true → in_read q || observes q = false).
  { apply read_alone; [|done]. by apply (excludes_other _ _ _ i j _ _ (Hf true)). }
  assert (Hww : in_write p = true → in_write q = false) by
    by apply (excludes_other _ _ _ i j _ _ (Hf false)).
  assert (Ho : observes p = true → busy q = false).
  { intros E. unfold may_overlap in Ha. rewrite E in Ha. destruct (busy q); [|done].
    by rewrite orb_true_r in Ha. }
  assert (Ho' : busy p = true → observes q = false).
  { intros E. unfold may_overlap in Ha. rewrite E in Ha. destruct (observes q); [|done].
    by rewrite !orb_true_r in Ha. }
  unfold busy in *. split.
  - intros x [[Hp Ex]|[[Hp Ex]|Hp]]%uses_where [[Hq Ex']|[[Hq Ex']|Hq]]%uses_where; rewrite ?Hp, ?Hq in *;
      simpl in *; rewrite ?orb_true_r in *; try done; try (by specialize (Hrr eq_refl));
      try (by specialize (Hww eq_refl)); try (by specialize (Ho eq_refl)); try (by specialize (Ho' eq_refl)).
    + subst x. rewrite Hm in Ex'. by destruct (_queueRead (mem s)).
    + subst x. rewrite Hm in Ex'. by destruct (_queueRead (mem s)).
  - intros a ->. simpl in *. destruct (uses q (mem s)) as [x|] eqn:E; [|done].
    specialize (Hrr eq_refl). specialize (Hww eq_refl). specialize (Ho' eq_refl).
    apply uses_where in E as [[Hq _]|[[Hq _]|Hq]]; rewrite Hq in *; done.
Qed.

(** ** One consumer *)

(** No calls of [empty] and [size], and with [consumer = false] only thread [c]
    takes elements out. *)
Definition allowed (c i : nat) (o : op T) : bool :=
  match o with
  | Push _ => true
  | Empty | Size => false
  | _ => consumer || (i =? c)%nat
  end.
Definition allowed_pc (c i : nat) (p : pc) : bool :=
  match p with
  | Idle | PushLock _ | PushQueue _ | PushUnlock => true
  | EmptyRead | EmptyWrite | SizeRead | SizeWrite _ => false
  | _ => consumer || (i =? c)%nat
  end.

(** These executions respect what the callers have to. *)
Lemma dbq_allowed_runs c n k t s :
  steps DoubleBufferQueue anything n (DoubleBufferQueue_new k) t s → all_allowed (allowed c) t →
  runs n k t s.
Proof.
  intros Hs Ho.
  apply (allowed_legal DoubleBufferQueue (allowed c) (allowed_pc c))
    with (legal := all_apart may_overlap) in Hs as [Hs _]; [done|..|done].
  - done.
  - by intros i [].
  - intros i p m p' m' r Hp H. destruct p; simpl in *; unfold go, return_ in Hp; repeat case_match;
      simplify_eq; try done; simpl; by match goal with E : consumer = _ |- _ => rewrite E end.
  - intros ts Hr. apply all_apart_true. intros i j p q Hne Hi Hj. unfold may_overlap, busy.
    apply Hr in Hi, Hj. unfold allowed_pc in *.
    assert (Hc : (i =? c)%nat && (j =? c)%nat = false).
    { destruct (i =? c)%nat eqn:Ei, (j =? c)%nat eqn:Ej; try done.
      apply Nat.eqb_eq in Ei, Ej. congruence. }
    revert Hi Hj Hc. generalize (i =? c)%nat, (j =? c)%nat. intros x y.
    destruct p, q; simpl; try done; by destruct consumer, x, y.
Qed.

End Proofs.

End Queue.

(** * Uninterrupted calls *)

Lemma push_eq {T} (v : T) q q' : q' = q ++ [v] → spec (Push v) q q' RVoid.
Proof. intros ->. constructor. Qed.

Lemma size_eq {T} (q : list T) n : n = size q → spec Size q q (RSize (u64 n)).
Proof. intros ->. constructor. Qed.

Ltac one_step :=
  rewrite run_alone_S; cbn [thread_step DoubleBufferQueue pc_step clear_step]; unfold go, return_.

(** [clear] removes the elements one by one. *)
Lemma clear_read_loop {T} c fuel (m : shared (T := T)) :
  _queueWrite m = negb (_queueRead m) →
  run_alone (DoubleBufferQueue c) (S (length (read_queue m)) + fuel) ClearRead m =
  run_alone (DoubleBufferQueue c) fuel ClearReadUnlock (set_at m (_queueRead m) []).
Proof.
  intros Hm. remember (read_queue m) as q eqn:E. revert m Hm E.
  induction q as [|v q IH]; intros m Hm E; cbn [length Nat.add]; one_step; rewrite <- E.
  - f_equal. destruct m as [A B R W rl wl]. unfold read_queue, at_, set_at in *.
    simpl in *. by destruct R; subst.
  - destruct (set_read_read m q Hm) as [Hr _]. etransitivity; [apply IH; [done|by rewrite Hr]|].
    f_equal. unfold set_at. simpl. by destruct (_queueRead m).
Qed.

Lemma clear_write_loop {T} c fuel (m : shared (T := T)) :
  _queueWrite m = negb (_queueRead m) →
  run_alone (DoubleBufferQueue c) (S (length (write_queue m)) + fuel) ClearWrite m =
  run_alone (DoubleBufferQueue c) fuel ClearWriteUnlock (set_at m (_queueWrite m) []).
Proof.
  intros Hm. remember (write_queue m) as q eqn:E. revert m Hm E.
  induction q as [|v q IH]; intros m Hm E; cbn [length Nat.add]; one_step; rewrite <- E.
  - f_equal. destruct m as [A B R W rl wl]. unfold write_queue, at_, set_at in *.
    simpl in *. by destruct W; subst.
  - destruct (set_write_read m q Hm) as [_ Hw]. etransitivity; [apply IH; [done|by rewrite Hw]|].
    f_equal. unfold set_at. simpl. by destruct (_queueWrite m).
Qed.

(** An uninterrupted [clear] takes one step for every element and six more. *)
Lemma clear_alone {T} c (m : shared (T := T)) :
  _queueWrite m = negb (_queueRead m) → _readLock m = false → _writeLock m = false →
  ∃ m', run_alone (DoubleBufferQueue c) (length (contents m) + 6) (first_pc Clear) m =
          Some (m', RVoid) ∧
    contents m' = [] ∧
    _queueWrite m' = negb (_queueRead m') ∧ _readLock m' = false ∧ _writeLock m' = false.
Proof.
  intros Hm Hr Hw. unfold contents at 1. rewrite length_app.
  replace (length (read_queue m) + length (write_queue m) + 6)%nat
    with (S (S (length (read_queue m)) + (S (S (S (length (write_queue m)) + 1)))))%nat by lia.
  cbn [first_pc]. one_step. rewrite Hr. set (m1 := set_readLock m true).
  change (read_queue m) with (read_queue m1). rewrite clear_read_loop by done.
  one_step. one_step. set (m2 := set_readLock _ false).
  change (_writeLock m2) with (_writeLock m). rewrite Hw. set (m3 := set_writeLock m2 true).
  assert (Hw3 : write_queue m = write_queue m3).
  { unfold write_queue, at_. simpl. rewrite Hm. by destruct (_queueRead m). }
  rewrite Hw3, clear_write_loop by done. eexists. split; [reflexivity|].
  unfold contents, read_queue, write_queue, at_. simpl. rewrite Hm. by destruct (_queueRead m).
Qed.

Lemma call_alone {T} (consumer : bool) (o : op T) (m : shared) :
  o ≠ Clear →
  _queueWrite m = negb (_queueRead m) → _readLock m = false → _writeLock m = false →
  ∃ m' r, run_alone (DoubleBufferQueue consumer) 9 (first_pc o) m = Some (m', r) ∧
    spec o (contents m) (contents m') r ∧
    _queueWrite m' = negb (_queueRead m') ∧ _readLock m' = false ∧ _writeLock m' = false.
Proof.
  destruct m as [A B R W rl wl]. simpl. intros Hc -> -> ->.
  destruct o; try done; destruct consumer, R, A, B; unfold contents, read_queue, write_queue, at_;
    simpl; eexists _, _; (split_and!; [reflexivity| |done..]); simpl;
    first [apply push_eq; simpl; by rewrite ?app_nil_r, <- ?app_assoc
          |apply size_eq; simpl; rewrite ?length_app; simpl; lia
          |rewrite ?app_nil_r; constructor].
Qed.

(** What a call does that is not interrupted. *)
Definition uninterrupted {T} (o : op T) (q q' : list T) (r : result T) : Prop :=
  match o with Clear => q' = [] ∧ r = RVoid | _ => spec o q q' r end.

(** C36: for both values of [consumer], a call of any operation that is not
    interrupted and finds the mutexes free and the pointers at different queues
    returns within nine steps, and one for every element, leaves the mutexes free and
    the pointers at different queues, and does and returns what a call of the atomic
    queue does, where [clear] removes everything. *)
Theorem dbq_call_returns {T} (consumer : bool) (o : op T) (m : shared) :
  _queueWrite m = negb (_queueRead m) → _readLock m = false → _writeLock m = false →
  ∃ m' r, run_alone (DoubleBufferQueue consumer) (length (contents m) + 9) (first_pc o) m =
      Some (m', r) ∧
    uninterrupted o (contents m) (contents m') r ∧
    _queueWrite m' = negb (_queueRead m') ∧ _readLock m' = false ∧ _writeLock m' = false.
Proof.
  intros Hp Hr Hw. assert (Hd : o = Clear ∨ o ≠ Clear) by (destruct o; auto).
  destruct Hd as [->|Hne].
  - destruct (clear_alone consumer m Hp Hr Hw) as (m' & Hrun & Hc & Hrest).
    exists m', RVoid. split_and!; try apply Hrest; [|done].
    eapply run_alone_more; [exact Hrun|lia].
  - destruct (call_alone consumer o m Hne Hp Hr Hw) as (m' & r & Hrun & Hsp & Hrest).
    exists m', r. split_and!; try apply Hrest.
    + eapply run_alone_more; [exact Hrun|lia].
    + by destruct o.
Qed.

(** * Concrete executions *)

Definition is_idle {T} (p : pc (T := T)) : bool := match p with Idle => true | _ => false end.

Lemma dbq_is_idle_spec {T} c (p : pc (T := T)) : is_idle p = true → p = idle (DoubleBufferQueue c).
Proof. by destruct p. Qed.

Definition empty_race : list (nat * option (op Z)) :=
  turn 0 (Push 1) 3 ++ turn 1 Empty 1 ++ turn 0 Front 8 ++ more 1 1.

Definition empty_race_trace : list (label Z) :=
  [Call 0 (Push 1); Ret 0 RVoid;
   Call 1 Empty; Call 0 Front; Ret 0 (RVal SUCCESS (Some 1)); Ret 1 (RBool true)].

Definition clear_race : list (nat * option (op Z)) :=
  turn 0 (Push 1) 3 ++ turn 0 Clear 3 ++ turn 1 Front 8 ++ more 0 3 ++ turn 0 Poll 6.

Definition clear_race_trace : list (label Z) :=
  [Call 0 (Push 1); Ret 0 RVoid;
   Call 0 Clear; Call 1 Front; Ret 1 (RVal SUCCESS (Some 1)); Ret 0 RVoid;
   Call 0 Poll; Ret 0 (RVal SUCCESS (Some 1))].

Lemma empty_race_run :
  run_sched (DoubleBufferQueue true) anything is_idle empty_race [] (DoubleBufferQueue_new 2) =
  Some (empty_race_trace, St (Shared [] [1] false true false false) [Idle; Idle]).
Proof. vm_compute. reflexivity. Qed.

Lemma clear_race_run :
  run_sched (DoubleBufferQueue true) anything is_idle clear_race [] (DoubleBufferQueue_new 2) =
  Some (clear_race_trace, St (Shared [] [] false true false false) [Idle; Idle]).
Proof. vm_compute. reflexivity. Qed.

(** [empty] and [clear] are not atomic: when the queues are swapped between
    their two halves, [empty] returns true for a queue that has held an element
    during the whole call, and an element pushed before the call of [clear] is
    still there after its return. *)
Theorem dbq_empty_clear_race :
  (∃ s, steps (DoubleBufferQueue true) anything 16 (DoubleBufferQueue_new 2)
    [Call 0 (Push 1); Ret 0 RVoid;
     Call 1 Empty; Call 0 Front; Ret 0 (RVal SUCCESS (Some 1)); Ret 1 (RBool true)] s) ∧
  (∃ s, steps (DoubleBufferQueue true) anything 27 (DoubleBufferQueue_new 2)
    [Call 0 (Push 1); Ret 0 RVoid;
     Call 0 Clear; Call 1 Front; Ret 1 (RVal SUCCESS (Some 1)); Ret 0 RVoid;
     Call 0 Poll; Ret 0 (RVal SUCCESS (Some 1))] s).
Proof.
  split; eexists.
  - exact (run_sched_steps _ _ is_idle 0 empty_race _ _ [] _ _ (dbq_is_idle_spec true) (steps_refl _ _ _) empty_race_run).
  - exact (run_sched_steps _ _ is_idle 0 clear_race _ _ [] _ _ (dbq_is_idle_spec true) (steps_refl _ _ _) clear_race_run).
Qed.

(** A [push] during the swap of a [poll]. *)
Definition overlap : list (nat * option (op Z)) :=
  turn 0 (Push 1) 3 ++ turn 1 Poll 4 ++ turn 0 (Push 2) 0 ++ more 1 1 ++ more 0 2.

Definition overlap_trace : list (label Z) :=
  [Call 0 (Push 1); Ret 0 RVoid; Call 1 Poll; Call 0 (Push 2)].

Definition overlap_state : state shared (pc (T := Z)) :=
  St (Shared [2] [1] false true true true) [PushUnlock; TakeTest2 TakePoll].

Lemma dbq_overlap_run :
  run_sched (DoubleBufferQueue true) (all_apart (may_overlap true)) is_idle overlap [] (DoubleBufferQueue_new 2) =
  Some (overlap_trace, overlap_state).
Proof. vm_compute. reflexivity. Qed.

Lemma dbq_overlap_runs : runs true 13 2 overlap_trace overlap_state.
Proof.
  exact (run_sched_steps _ _ is_idle 0 overlap _ _ [] _ _ (dbq_is_idle_spec true) (steps_refl _ _ _) dbq_overlap_run).
Qed.

Lemma dbq_linearizable_witness :
  runs true 13 2 overlap_trace overlap_state ∧
  ∃ a, asteps (unseen spec) no_look removes (ASt [] [AIdle; AIdle]) overlap_trace a ∧ object a = [1; 2].
Proof.
  split; [apply dbq_overlap_runs|].
  destruct (dbq_linearizable true 13 2 _ _ dbq_overlap_runs) as (a & Ha & Hq). by exists a.
Defined.

Lemma dbq_deadlock_free_witness :
  ∃ j q, threads overlap_state !! j = Some q ∧ q ≠ Idle ∧
         pc_step true q (mem overlap_state) ≠ None.
Proof.
  apply (dbq_deadlock_free true 13 2 _ _ dbq_overlap_runs). by exists 0%nat, PushUnlock.
Defined.

Lemma dbq_call_returns_witness :
  (∃ m' r, run_alone (DoubleBufferQueue false) 11 (first_pc Poll)
      (Shared [] [1; 2] true false false false) = Some (m', r) ∧
    spec Poll [1; 2] (contents m') r) ∧
  ∃ m', run_alone (DoubleBufferQueue true) 12 (first_pc Clear)
      (Shared [1] [2; 3] true false false false) = Some (m', RVoid) ∧ contents m' = [].
Proof.
  split.
  - destruct (dbq_call_returns false Poll (Shared [] [1; 2] true false false false))
      as (m' & r & Hr & Hs & _); [done..|]. by exists m', r.
  - destruct (dbq_call_returns true Clear (Shared [1] [2; 3] true false false false))
      as (m' & r & Hr & [Hc ->] & _); [done..|]. by exists m'.
Defined.

(** A [push] that waits while a [poll] swaps the queues. *)
Definition swapping : list (nat * option (op Z)) :=
  turn 0 (Push 1) 3 ++ turn 1 Poll 3 ++ turn 0 (Push 2) 0.
Definition swapping_state : state shared (pc (T := Z)) :=
  St (Shared [] [1] true false true true) [PushLock 2; SwapDo TakePoll].

Lemma dbq_swapping_runs :
  runs true 9 2 [Call 0 (Push 1); Ret 0 RVoid; Call 1 Poll; Call 0 (Push 2)] swapping_state.
Proof.
  refine (run_sched_steps _ _ is_idle 0 swapping _ _ [] _ _ (dbq_is_idle_spec true) (steps_refl _ _ _) _).
  vm_compute. reflexivity.
Qed.

Lemma dbq_no_data_race_witness : uses (PushLock 2) (mem swapping_state) = None.
Proof.
  exact (proj2 (dbq_no_data_race true 9 2 _ _ 1 0 _ _ dbq_swapping_runs eq_refl eq_refl eq_refl
    (Nat.neq_succ_0 0)) TakePoll eq_refl).
Defined.
