(* ===== verification/ArgParser.v ===== *)
(** The argument parser: [include/clockUtils/argParser/] and
    [libs/argParser/src/].

    The objects live in a store: the parser keeps pointers to the registered
    variables and to the vector of the arguments, as the static members of
    [Parser] do. Following a pointer to an object that has been destroyed is
    undefined and makes the operation [None].

    A variable has type [bool], [char], [std::string], or any other type [T]
    with stream operators; the value that a failed extraction leaves behind,
    an uninitialised local in the source, is a parameter. *)

From stdpp Require Import gmap.
From S2P Require Import Prelude StdMap Streams.

Local Open Scope Z_scope.

(** * Variables *)

(** [Variable<T>], with the members of [BasicVariable]. *)
Record TypedVariable (T : Type) : Type := MkVariable {
  _set : bool;
  _longname : str;
  _shortname : str;
  _description : str;
  _required : bool;
  _multiple : bool;
  _value : T;
  _values : list T;
  _defaultValue : T
}.
Arguments MkVariable {T}.
Arguments _set {T}.
Arguments _longname {T}.
Arguments _shortname {T}.
Arguments _description {T}.
Arguments _required {T}.
Arguments _multiple {T}.
Arguments _value {T}.
Arguments _values {T}.
Arguments _defaultValue {T}.

(** The constructor. *)
Definition TypedVariable_new {T} (longname shortname description : str) (value : T)
    (required multiple : bool) : TypedVariable T :=
  MkVariable false longname shortname description required multiple value [] value.

(** [if (!_set) _value = val; else _values.push_back(val);] *)
Definition store_value {T} (val : T) (v : TypedVariable T) : TypedVariable T :=
  if _set v then
    MkVariable (_set v) (_longname v) (_shortname v) (_description v) (_required v) (_multiple v)
      (_value v) (_values v ++ [val]) (_defaultValue v)
  else
    MkVariable (_set v) (_longname v) (_shortname v) (_description v) (_required v) (_multiple v)
      val (_values v) (_defaultValue v).

(** [_set = true] *)
Definition mark_set {T} (v : TypedVariable T) : TypedVariable T :=
  MkVariable true (_longname v) (_shortname v) (_description v) (_required v) (_multiple v)
    (_value v) (_values v) (_defaultValue v).

Definition resetToDefault {T} (v : TypedVariable T) : TypedVariable T :=
  MkVariable false (_longname v) (_shortname v) (_description v) (_required v) (_multiple v)
    (_defaultValue v) [] (_defaultValue v).

(** [operator=] *)
Definition assign {T} (val : T) (v : TypedVariable T) : TypedVariable T :=
  MkVariable (_set v) (_longname v) (_shortname v) (_description v) (_required v) (_multiple v)
    val (_values v) (_defaultValue v).

Definition count {T} (v : TypedVariable T) : Z := 1 + Z.of_nat (length (_values v)).

(** [at]; [None] is an access behind the end of [_values]. *)
Definition at_ {T} (idx : nat) (v : TypedVariable T) : option T :=
  match idx with O => Some (_value v) | S i => _values v !! i end.

(** [Variable<T>::setValue], [val] being [junk] before the extraction. *)
Definition setValue {T} `{Streamable T} (junk : T) (value : str) (v : TypedVariable T)
    : bool * TypedVariable T :=
  let '(val, s) := extract value junk in (negb (bad_extract s), store_value val v).

(** [Variable<std::string>::setValue] *)
Definition setValue_string (value : str) (v : TypedVariable str) : bool * TypedVariable str :=
  (true, store_value value v).

(** [Variable<char>::setValue] *)
Definition setValue_char (value : str) (v : TypedVariable ascii) : bool * TypedVariable ascii :=
  match value with
  | [c] => (true, store_value c v)
  | _ => (false, v)
  end.

(** [::tolower] on the letters of the classic locale. *)
Definition tolower (c : ascii) : ascii :=
  let n := N_of_ascii c in
  if ((65 <=? n) && (n <=? 90))%N then ascii_of_N (n + 32) else c.

(** [ss >> val] for a [bool]: a [long] that must be zero or one. *)
Definition extract_bool (value : str) (old : bool) : bool * stream_state :=
  match skip_ws value with
  | [] => (old, {| failed := true; ateof := true |})
  | _ =>
      let '(n, s) := extract_int (- 2 ^ 63) (2 ^ 63 - 1) value 0 in
      (negb (n =? 0), {| failed := failed s || negb ((n =? 0) || (n =? 1)); ateof := ateof s |})
  end.

(** [Variable<bool>::setValue] *)
Definition setValue_bool (junk : bool) (value : str) (v : TypedVariable bool) : bool * TypedVariable bool :=
  let result := tolower <$> value in
  if bool_decide (result = lit "true") then (true, store_value true v)
  else if bool_decide (result = lit "false") then (true, store_value false v)
  else
    let '(val, s) := extract_bool value junk in (negb (bad_extract s), store_value val v).

(** * The objects behind [BasicVariable *] *)

Section Parser.
Context {T : Type} `{Streamable T} (junk : T) (junk_bool : bool).

Inductive object : Type :=
| BoolVar (v : TypedVariable bool)
| CharVar (v : TypedVariable ascii)
| StringVar (v : TypedVariable str)
| OtherVar (v : TypedVariable T).

Definition isBool (o : object) : bool := match o with BoolVar _ => true | _ => false end.
Definition getLongname (o : object) : str :=
  match o with
  | BoolVar v => _longname v | CharVar v => _longname v
  | StringVar v => _longname v | OtherVar v => _longname v
  end.
Definition getShortname (o : object) : str :=
  match o with
  | BoolVar v => _shortname v | CharVar v => _shortname v
  | StringVar v => _shortname v | OtherVar v => _shortname v
  end.
Definition isSet (o : object) : bool :=
  match o with
  | BoolVar v => _set v | CharVar v => _set v | StringVar v => _set v | OtherVar v => _set v
  end.
Definition isRequired (o : object) : bool :=
  match o with
  | BoolVar v => _required v | CharVar v => _required v
  | StringVar v => _required v | OtherVar v => _required v
  end.
Definition canHaveMultiple (o : object) : bool :=
  match o with
  | BoolVar v => _multiple v | CharVar v => _multiple v
  | StringVar v => _multiple v | OtherVar v => _multiple v
  end.

(** The virtual methods. *)
Definition object_setValue (value : str) (o : object) : bool * object :=
  match o with
  | BoolVar v => let '(ret, v) := setValue_bool junk_bool value v in (ret, BoolVar v)
  | CharVar v => let '(ret, v) := setValue_char value v in (ret, CharVar v)
  | StringVar v => let '(ret, v) := setValue_string value v in (ret, StringVar v)
  | OtherVar v => let '(ret, v) := setValue junk value v in (ret, OtherVar v)
  end.
Definition object_reset (o : object) : object :=
  match o with
  | BoolVar v => BoolVar (resetToDefault v) | CharVar v => CharVar (resetToDefault v)
  | StringVar v => StringVar (resetToDefault v) | OtherVar v => OtherVar (resetToDefault v)
  end.
Definition object_mark (o : object) : object :=
  match o with
  | BoolVar v => BoolVar (mark_set v) | CharVar v => CharVar (mark_set v)
  | StringVar v => StringVar (mark_set v) | OtherVar v => OtherVar (mark_set v)
  end.

(** * The parser *)

(** The static members of [Parser], the variables and the vectors of the
    [ArgumentList]s that exist. *)
Record world : Type := World {
  variables : gmap nat object;
  lists : gmap nat (list str);
  variableList : list nat;
  error : str;
  arguments : option nat;
  errorOnFlag : bool;
  help : bool;
  helpTexts : list (str * str)
}.

Definition set_error (e : str) (w : world) : world :=
  World (variables w) (lists w) (variableList w) e (arguments w) (errorOnFlag w) (help w) (helpTexts w).
Definition set_arguments (a : option nat) (w : world) : world :=
  World (variables w) (lists w) (variableList w) (error w) a (errorOnFlag w) (help w) (helpTexts w).
Definition set_help (b : bool) (w : world) : world :=
  World (variables w) (lists w) (variableList w) (error w) (arguments w) (errorOnFlag w) b (helpTexts w).
Definition set_object (id : nat) (o : object) (w : world) : world :=
  World (<[id := o]> (variables w)) (lists w) (variableList w) (error w) (arguments w)
    (errorOnFlag w) (help w) (helpTexts w).

(** The program at its start. *)
Definition initial : world := World ∅ ∅ [] [] None true false [].

(** [registerArgumentsVector], [setErrorOnFlag], [wasHelpSet],
    [getLastParserError] *)
Definition registerArgumentsVector : option nat → world → world := set_arguments.
Definition setErrorOnFlag (b : bool) (w : world) : world :=
  World (variables w) (lists w) (variableList w) (error w) (arguments w) b (help w) (helpTexts w).
Definition wasHelpSet (w : world) : bool := help w.
Definition getLastParserError (w : world) : str := error w.

(** [helpTexts.insert(line)]: an existing line stays. *)
Definition addHelpTextLine (line : str * str) (w : world) : world :=
  World (variables w) (lists w) (variableList w) (error w) (arguments w) (errorOnFlag w) (help w)
    (match find (helpTexts w) line.1 with
     | Some _ => helpTexts w
     | None => set (helpTexts w) line.1 line.2
     end).

(** [getHelpText] *)
Fixpoint help_lines (l : list (str * str)) : str :=
  match l with
  | [] => []
  | [(_, t)] => t
  | (_, t) :: l' => t ++ "010"%char :: help_lines l'
  end.
Definition getHelpText (w : world) : str := help_lines (helpTexts w).

(** The constructor of [BasicVariable]: the new object is at [id]. *)
Definition BasicVariable_new (id : nat) (o : object) (w : world) : world :=
  World (<[id := o]> (variables w)) (lists w) (variableList w ++ [id]) (error w) (arguments w)
    (errorOnFlag w) (help w) (helpTexts w).

(** The first variable of the list with this longname, in [~BasicVariable];
    [Some None] if there is none. *)
Fixpoint find_longname (vars : gmap nat object) (longname : str) (ids : list nat)
    : option (option nat) :=
  match ids with
  | [] => Some None
  | id :: ids' =>
      o ← vars !! id;
      if bool_decide (longname = getLongname o) then Some (Some 0%nat)
      else match find_longname vars longname ids' with None => None | Some i => Some (S <$> i) end
  end.

(** [~BasicVariable] of the object at [id]. *)
Definition BasicVariable_delete (id : nat) (w : world) : option world :=
  o ← variables w !! id;
  i ← find_longname (variables w) (getLongname o) (variableList w);
  match i with
  | Some i =>
      Some (World (delete id (variables w)) (lists w) (delete i (variableList w)) (error w)
        (arguments w) (errorOnFlag w) (help w) (erase (helpTexts w) (getLongname o)))
  | None =>
      Some (World (delete id (variables w)) (lists w) (variableList w) (error w) (arguments w)
        (errorOnFlag w) (help w) (helpTexts w))
  end.

(** [ArgumentList()] and [~ArgumentList()] *)
Definition ArgumentList_new (id : nat) (w : world) : world :=
  World (variables w) (<[id := []]> (lists w)) (variableList w) (error w) (Some id)
    (errorOnFlag w) (help w) (helpTexts w).
Definition ArgumentList_delete (id : nat) (w : world) : world :=
  World (variables w) (delete id (lists w)) (variableList w) (error w) None
    (errorOnFlag w) (help w) (helpTexts w).

(** [a.find(b) == 0 && b.length() == a.length()] *)
Fixpoint find_at_start (a b : str) : bool :=
  match b, a with
  | [], _ => true
  | d :: b', c :: a' => (c =? d)%char && find_at_start a' b'
  | _, _ => false
  end.
Definition same_name (name longname : str) : bool :=
  find_at_start name longname && (length longname =? length name)%nat.

(** Whether the variable is meant by the flag [name], which is without its
    first dash. *)
Definition names (name : str) (o : object) : bool :=
  same_name name ("-"%char :: getLongname o) || same_name name (getShortname o).

(** The loop over [variableList] up to the [break]; [Some None] if no variable
    is found. *)
Fixpoint find_variable (vars : gmap nat object) (name : str) (ids : list nat)
    : option (option nat) :=
  match ids with
  | [] => Some None
  | id :: ids' =>
      match vars !! id with
      | None => None
      | Some o => if names name o then Some (Some id) else find_variable vars name ids'
      end
  end.

(** The loop that resets all variables. *)
Fixpoint reset_all (ids : list nat) (w : world) : option world :=
  match ids with
  | [] => Some w
  | id :: ids' =>
      match variables w !! id with
      | None => None
      | Some o => reset_all ids' (set_object id (object_reset o) w)
      end
  end.

(** One round of the [while] loop: return INVALID_USAGE, or go on, having used
    the next string or not. *)
Inductive outcome : Type :=
| Fail (w : world)
| Next (w : world) (parsed : list (str * bool)) (skip : bool).

Definition is_parsed (parsed : list (str * bool)) (longname : str) : bool :=
  match find parsed longname with Some _ => true | None => false end.

(** The [setValue] of a flag with what follows: the check of its result (if
    [check]), the check for a second use, [_set] and [parsed]. *)
Definition use_value (id : nat) (bv : object) (value : str) (check : bool)
    (invalid twice : world → world) (parsed : list (str * bool)) (skip : bool) (w : world)
    : outcome :=
  let '(ok, bv) := object_setValue value bv in
  let w := set_object id bv w in
  if check && negb ok then Fail (set_arguments None (invalid w))
  else if negb (canHaveMultiple bv) && is_parsed parsed (getLongname bv) then
    Fail (set_arguments None (twice w))
  else Next (set_object id (object_mark bv) w) (set parsed (getLongname bv) true) skip.

Definition starts_with_dash (s : str) : bool :=
  match s with c :: _ => (c =? "-")%char | [] => false end.

(** The branch for the variable at [id], [rest] being the strings that follow. *)
Definition handle_variable (id : nat) (bv : object) (name : str) (rest : list str)
    (parsed : list (str * bool)) (w : world) : outcome :=
  let invalid value :=
    set_error (value ++ lit " is not a valid value for variable " ++ name) in
  if isBool bv then
    match rest with
    | value :: _ =>
        if negb (starts_with_dash value)
        then use_value id bv value true (invalid value) (λ w, w) parsed true w
        else use_value id bv (lit "1") false (λ w, w) (λ w, w) parsed false w
    | [] => use_value id bv (lit "1") false (λ w, w) (λ w, w) parsed false w
    end
  else
    match rest with
    | [] =>
        Fail (set_arguments None
          (set_error (name ++ lit " requires a value: -" ++ ("-"%char :: getLongname bv)
                        ++ lit " <value> or -" ++ getShortname bv ++ lit " <value>") w))
    | value :: _ =>
        use_value id bv value true (invalid value)
          (set_error (lit "variable " ++ name ++ lit " doesn't support multiple arguments"))
          parsed true w
    end.

(** [arguments->push_back(arg)] if there is a vector. *)
Definition push_argument (arg : str) (parsed : list (str * bool)) (w : world) : option outcome :=
  match arguments w with
  | None => Some (Fail (set_arguments None w))
  | Some id =>
      match lists w !! id with
      | None => None
      | Some l =>
          Some (Next (World (variables w) (<[id := l ++ [arg]]> (lists w)) (variableList w) (error w)
                        (arguments w) (errorOnFlag w) (help w) (helpTexts w)) parsed false)
      end
  end.

(** [argv[0][0] == '-' && argv[0][1] != '\0'] *)
Definition is_flag (arg : str) : bool :=
  match arg with c :: _ :: _ => (c =? "-")%char | _ => false end.

(** One round of the loop. *)
Definition parse_arg (arg : str) (rest : list str) (parsed : list (str * bool)) (w : world)
    : option outcome :=
  if is_flag arg then
    let name := drop 1 arg in
    match find_variable (variables w) name (variableList w) with
    | None => None
    | Some (Some id) =>
        match variables w !! id with
        | None => None
        | Some bv => Some (handle_variable id bv name rest parsed w)
        end
    | Some None =>
        if bool_decide (name = lit "-help") || bool_decide (name = lit "h") then
          Some (Next (set_help true w) parsed false)
        else if errorOnFlag w then
          Some (Fail (set_arguments None
            (set_error (lit "argument -" ++ name ++ lit " not registered!") w)))
        else push_argument arg parsed w
    end
  else
    match arg with
    | [] => Some (Fail (set_error (lit "parsing empty string not possible!") w))
    | _ => push_argument arg parsed w
    end.

(** The [while] loop: the world, and whether it ended without an error. *)
Fixpoint parse_loop (argv : list str) (parsed : list (str * bool)) (w : world)
    : option (bool * world) :=
  match argv with
  | [] => Some (true, w)
  | arg :: rest =>
      match parse_arg arg rest parsed w with
      | None => None
      | Some (Fail w) => Some (false, w)
      | Some (Next w parsed skip) =>
          match skip, rest with
          | true, _ :: rest' => parse_loop rest' parsed w
          | _, _ => parse_loop rest parsed w
          end
      end
  end.

(** The loop over the required variables; [Some (Some name)] is the first one
    that is not set. *)
Fixpoint missing_required (vars : gmap nat object) (ids : list nat) : option (option str) :=
  match ids with
  | [] => Some None
  | id :: ids' =>
      match vars !! id with
      | None => None
      | Some o =>
          if isRequired o && negb (isSet o) then Some (Some (getLongname o))
          else missing_required vars ids'
      end
  end.

(** [Parser::parseArguments] *)
Definition parseArguments (argv : list str) (w : world) : option (ClockError * world) :=
  match reset_all (variableList w) w with
  | None => None
  | Some w =>
      match parse_loop argv [] (set_help false (set_error [] w)) with
      | None => None
      | Some (false, w) => Some (INVALID_USAGE, w)
      | Some (true, w) =>
          if help w then Some (SUCCESS, set_arguments None w)
          else
            match missing_required (variables w) (variableList w) with
            | None => None
            | Some (Some longname) =>
                Some (INVALID_USAGE,
                  set_error (lit "Variable " ++ longname ++ lit " required, but not set.") w)
            | Some None => Some (SUCCESS, set_arguments None w)
            end
      end
  end.

(** [REGISTER_VARIABLE_INTERNAL]: the help text, then the variable. The strings
    of the macro arguments are [longname], [shortname] and [value_text]. *)
Definition no_shortname : str := ["034"%char; "034"%char].

Definition help_text (longname shortname value_text description : str) (required multiple : bool)
    : str :=
  let text := "009"%char :: lit "--" ++ longname in
  let text := if bool_decide (shortname = no_shortname) then text else text ++ lit ", -" ++ shortname in
  let text := text ++ replicate (16 - length text) " "%char in
  let text := text ++ lit "[Default: " ++ value_text ++ lit "]" in
  let text := text ++ replicate (15 - length value_text) " "%char in
  let text := text ++ description in
  let text := if required then text ++ lit " (required)" else text in
  if multiple then text ++ lit " (multiple)" else text.

Definition register {A} (mk : TypedVariable A → object) (id : nat)
    (longname shortname value_text : str) (value : A) (description : str)
    (required multiple : bool) (w : world) : world :=
  BasicVariable_new id (mk (TypedVariable_new longname shortname description value required multiple))
    (addHelpTextLine
       (longname, help_text longname shortname value_text description required multiple) w).

(** * Lemmas on objects *)

(** What no parsing changes. *)
Definition static (o : object) : str * str * bool * bool * bool :=
  (getLongname o, getShortname o, isRequired o, canHaveMultiple o, isBool o).

(** The number of elements of [_values]. *)
Definition extra (o : object) : nat :=
  match o with
  | BoolVar v => length (_values v) | CharVar v => length (_values v)
  | StringVar v => length (_values v) | OtherVar v => length (_values v)
  end.

Lemma store_value_static {A} (val : A) v :
  _longname (store_value val v) = _longname v ∧ _shortname (store_value val v) = _shortname v ∧
  _required (store_value val v) = _required v ∧ _multiple (store_value val v) = _multiple v ∧
  _set (store_value val v) = _set v ∧
  (_set v = false → _values (store_value val v) = _values v).
Proof. unfold store_value. by destruct (_set v). Qed.

Lemma setValue_static value o ok o' :
  object_setValue value o = (ok, o') →
  static o' = static o ∧ isSet o' = isSet o ∧ (isSet o = false → extra o' = extra o).
Proof.
  unfold static. intros Hs. destruct o as [v|v|v|v]; simpl in Hs.
  - destruct (setValue_bool junk_bool value v) as [r v'] eqn:E. simplify_eq. unfold setValue_bool in E.
    assert (Hv : ∃ b, v' = store_value b v) by (repeat case_match; simplify_eq; by eexists).
    destruct Hv as [b ->]. simpl. destruct (store_value_static b v) as (-> & -> & -> & -> & -> & Hx).
    split_and!; [done..|]. intros. by rewrite Hx.
  - destruct (setValue_char value v) as [r v'] eqn:E. simplify_eq. unfold setValue_char in E.
    assert (Hv : v' = v ∨ ∃ c, v' = store_value c v)
      by (repeat case_match; simplify_eq; [by left|right; by eexists|by left]).
    destruct Hv as [->|[c ->]]; [done|]. simpl.
    destruct (store_value_static c v) as (-> & -> & -> & -> & -> & Hx).
    split_and!; [done..|]. intros. by rewrite Hx.
  - simplify_eq. simpl. destruct (store_value_static value v) as (-> & -> & -> & -> & -> & Hx).
    split_and!; [done..|]. intros. by rewrite Hx.
  - destruct (setValue junk value v) as [r v'] eqn:E. simplify_eq. unfold setValue in E.
    destruct (extract value junk) as [val st]. simplify_eq. simpl.
    destruct (store_value_static val v) as (-> & -> & -> & -> & -> & Hx).
    split_and!; [done..|]. intros. by rewrite Hx.
Qed.

Lemma reset_static o : static (object_reset o) = static o ∧ isSet (object_reset o) = false ∧
  extra (object_reset o) = 0%nat ∧ object_reset (object_reset o) = object_reset o.
Proof. by destruct o. Qed.

Lemma mark_static o : static (object_mark o) = static o ∧ isSet (object_mark o) = true ∧
  extra (object_mark o) = extra o.
Proof. by destruct o. Qed.

(** [find_at_start] and equal lengths are equality. *)
Lemma same_name_eq a b : same_name a b = true ↔ a = b.
Proof.
  unfold same_name. revert b. induction a as [|c a IH]; intros [|d b]; simpl; try done.
  split.
  - intros [[->%Ascii.eqb_eq Hf]%andb_true_iff Hl]%andb_true_iff. f_equal. apply IH.
    by rewrite Hf, Hl.
  - intros [= -> ->]. rewrite Ascii.eqb_refl. simpl. by apply IH.
Qed.

(** * The reset at the start *)

(** [w'] differs from [w] in the values of variables only. *)
Record same_statics (w w' : world) : Prop := {
  ss_list : variableList w' = variableList w;
  ss_flag : errorOnFlag w' = errorOnFlag w;
  ss_help : helpTexts w' = helpTexts w;
  ss_vars id : static <$> variables w' !! id = static <$> variables w !! id
}.

#[local] Instance same_statics_preorder : PreOrder same_statics.
Proof.
  split; [by intros w; split|]. intros w1 w2 w3 [] [].
  split; congruence.
Qed.

Lemma set_object_statics id o o' w :
  variables w !! id = Some o → static o' = static o → same_statics w (set_object id o' w).
Proof.
  intros Hid Hs. split; [done..|]. intros id'. simpl. destruct (decide (id = id')) as [<-|Hne].
  - by rewrite lookup_insert_eq, Hid; simpl; rewrite Hs.
  - by rewrite lookup_insert_ne.
Qed.

Lemma reset_all_vars ids w w' :
  reset_all ids w = Some w' →
  w' = World (variables w') (lists w) (variableList w) (error w) (arguments w) (errorOnFlag w)
         (help w) (helpTexts w) ∧
  ∀ id, variables w' !! id =
        if decide (id ∈ ids) then object_reset <$> variables w !! id else variables w !! id.
Proof.
  revert w. induction ids as [|i ids IH]; simpl; intros w Hr.
  { simplify_eq. split; [by destruct w'|]. intros id. done. }
  destruct (variables w !! i) as [o|] eqn:Ho; [|done].
  destruct (IH _ Hr) as [Hw Hv]. split; [done|]. intros id. rewrite Hv. simpl.
  destruct (decide (i = id)) as [<-|Hne].
  - rewrite lookup_insert_eq, Ho. simpl. rewrite (decide_True (P := i ∈ i :: ids)) by by left.
    destruct (decide (i ∈ ids)); simpl; [|done]. by destruct (reset_static o) as (_ & _ & _ & ->).
  - rewrite lookup_insert_ne by done. destruct (decide (id ∈ ids)) as [Hin|Hin].
    + rewrite decide_True by by right. done.
    + rewrite decide_False; [done|]. by intros [?|?]%elem_of_cons.
Qed.

Lemma reset_all_some ids w :
  (∀ id, id ∈ ids → is_Some (variables w !! id)) → ∃ w', reset_all ids w = Some w'.
Proof.
  revert w. induction ids as [|i ids IH]; simpl; intros w Hids; [by eexists|].
  destruct (Hids i) as [o Ho]; [by left|]. rewrite Ho. apply IH. intros id Hid. simpl.
  destruct (decide (i = id)) as [<-|Hne]; [rewrite lookup_insert_eq; by eexists|].
  rewrite lookup_insert_ne by done. apply Hids. by right.
Qed.

(** * The loop *)

(** Every pointer of the parser leads to an object. *)
Record registered (w : world) : Prop := {
  rg_vars id : id ∈ variableList w → is_Some (variables w !! id);
  rg_args aid : arguments w = Some aid → is_Some (lists w !! aid)
}.

(** Between two rounds: a variable that has been set is in [parsed], and only
    variables with multiple values have more than one. *)
Record loop_ok (parsed : list (str * bool)) (w : world) : Prop := {
  lo_registered : registered w;
  lo_objects id o : id ∈ variableList w → variables w !! id = Some o →
    (isSet o = true → is_parsed parsed (getLongname o) = true) ∧
    (canHaveMultiple o = false → extra o = 0%nat)
}.

Lemma static_longname o o' : static o' = static o → getLongname o' = getLongname o.
Proof. unfold static. congruence. Qed.
Lemma static_multiple o o' : static o' = static o → canHaveMultiple o' = canHaveMultiple o.
Proof. unfold static. congruence. Qed.
Lemma static_required o o' : static o' = static o → isRequired o' = isRequired o.
Proof. unfold static. congruence. Qed.

Lemma is_parsed_set parsed k k' :
  is_parsed (set parsed k true) k' = true ↔ k' = k ∨ is_parsed parsed k' = true.
Proof.
  unfold is_parsed. destruct (key_cases k' k) as [->|Hne].
  - rewrite find_set_eq. naive_solver.
  - rewrite find_set_ne by done. naive_solver.
Qed.

Lemma set_object_registered id o w : registered w → registered (set_object id o w).
Proof.
  intros [Hv Ha]. split; [|done]. intros i Hi. simpl.
  destruct (decide (id = i)) as [<-|Hne]; [rewrite lookup_insert_eq; by eexists|].
  rewrite lookup_insert_ne by done. by apply Hv.
Qed.

(** [use_value] on a variable of the list. *)
Lemma use_value_ok id bv value check invalid twice parsed skip w :
  loop_ok parsed w → variables w !! id = Some bv → id ∈ variableList w →
  (∀ w, same_statics w (invalid w) ∧ (registered w → registered (invalid w))) →
  (∀ w, same_statics w (twice w) ∧ (registered w → registered (twice w))) →
  match use_value id bv value check invalid twice parsed skip w with
  | Fail w' => registered w' ∧ same_statics w w'
  | Next w' parsed' skip' => loop_ok parsed' w' ∧ same_statics w w' ∧ skip' = skip
  end.
Proof.
  intros [Hr Ho] Hid Hin Hinv Htw. unfold use_value.
  destruct (object_setValue value bv) as [ok bv1] eqn:E.
  destruct (setValue_static _ _ _ _ E) as (Hst & Hset & Hex).
  pose proof (set_object_statics id bv bv1 w Hid Hst) as Hs1.
  pose proof (set_object_registered id bv1 w Hr) as Hr1.
  assert (Hnone : ∀ w, same_statics w (set_arguments None w)) by (by split).
  assert (Hnoner : ∀ w, registered w → registered (set_arguments None w)) by (by intros ? []; split).
  destruct (check && negb ok).
  { destruct (Hinv (set_object id bv1 w)) as [Hs2 Hr2]. split; [by apply Hnoner, Hr2|].
    etrans; [exact Hs1|]. etrans; [exact Hs2|apply Hnone]. }
  destruct (negb (canHaveMultiple bv1) && is_parsed parsed (getLongname bv1)) eqn:Em.
  { destruct (Htw (set_object id bv1 w)) as [Hs2 Hr2]. split; [by apply Hnoner, Hr2|].
    etrans; [exact Hs1|]. etrans; [exact Hs2|apply Hnone]. }
  destruct (mark_static bv1) as (Hms & Hmset & Hmex).
  split_and!; [|etrans; [exact Hs1|apply (set_object_statics id bv1); [apply lookup_insert_eq|done]]|done].
  split; [by repeat apply set_object_registered|]. intros i o Hi Hoi. simpl in Hi, Hoi.
  rewrite insert_insert_eq in Hoi. destruct (decide (id = i)) as [<-|Hne].
  - rewrite lookup_insert_eq in Hoi. injection Hoi as <-. split.
    + intros _. apply is_parsed_set. left. by apply static_longname.
    + intros Hmul. rewrite Hmex. rewrite (static_multiple _ _ Hms) in Hmul.
      rewrite Hmul in Em. simpl in Em. destruct (Ho id bv Hin Hid) as [Hp Hx].
      rewrite (static_longname _ _ Hst) in Em. rewrite (static_multiple _ _ Hst) in Hmul.
      destruct (isSet bv) eqn:Eset; [by rewrite Hp in Em|]. rewrite Hex by done. by apply Hx.
  - rewrite lookup_insert_ne in Hoi by done. destruct (Ho i o Hi Hoi) as [Hp Hx].
    split; [|done]. intros Hset'. apply is_parsed_set. right. by apply Hp.
Qed.

Lemma set_error_ok e w : same_statics w (set_error e w) ∧ (registered w → registered (set_error e w)).
Proof. split; [by split|by intros []; split]. Qed.

Lemma same_ok w : same_statics w w ∧ (registered w → registered w).
Proof. done. Qed.

Definition outcome_ok (w : world) (out : outcome) : Prop :=
  match out with
  | Fail w' => registered w' ∧ same_statics w w'
  | Next w' parsed' _ => loop_ok parsed' w' ∧ same_statics w w'
  end.

Lemma handle_variable_ok id bv name rest parsed w :
  loop_ok parsed w → variables w !! id = Some bv → id ∈ variableList w →
  outcome_ok w (handle_variable id bv name rest parsed w).
Proof.
  intros Hl Hid Hin.
  assert (Huse : ∀ value check invalid twice skip,
    (∀ w, same_statics w (invalid w) ∧ (registered w → registered (invalid w))) →
    (∀ w, same_statics w (twice w) ∧ (registered w → registered (twice w))) →
    outcome_ok w (use_value id bv value check invalid twice parsed skip w)).
  { intros value check invalid twice skip Hi Ht.
    pose proof (use_value_ok id bv value check invalid twice parsed skip w Hl Hid Hin Hi Ht) as H1.
    destruct (use_value _ _ _ _ _ _ _ _ _); [done|]. simpl. tauto. }
  unfold handle_variable. destruct (isBool bv).
  - destruct rest as [|value rest]; [apply Huse; apply same_ok|].
    destruct (negb _); apply Huse; try apply same_ok. intros. apply set_error_ok.
  - destruct rest as [|value rest]; [|apply Huse; intros; apply set_error_ok].
    split; [|by split]. destruct (lo_registered _ _ Hl). by split.
Qed.

Lemma push_argument_ok arg parsed w :
  loop_ok parsed w → ∃ out, push_argument arg parsed w = Some out ∧ outcome_ok w out.
Proof.
  intros [Hr Ho]. unfold push_argument. destruct (arguments w) as [aid|] eqn:Ea.
  - destruct (rg_args _ Hr aid Ea) as [l Hl]. rewrite Hl. eexists. split; [done|].
    split; [|by split]. split; [|done]. destruct Hr as [Hv Ha]. split; [done|].
    intros aid' Haid. simpl in *. injection Haid as <-.
    rewrite lookup_insert_eq. by eexists.
  - eexists. split; [done|]. split; [|by split]. destruct Hr. by split.
Qed.

Lemma find_variable_some w name ids :
  (∀ id, id ∈ ids → is_Some (variables w !! id)) →
  find_variable (variables w) name ids = Some None ∨
  ∃ id o, find_variable (variables w) name ids = Some (Some id) ∧ id ∈ ids ∧
          variables w !! id = Some o ∧ names name o = true.
Proof.
  induction ids as [|i ids IH]; intros Hids; simpl; [by left|].
  destruct (Hids i) as [o Ho]; [by left|]. rewrite Ho. destruct (names name o) eqn:En.
  - right. exists i, o. split_and!; [done|by left|done..].
  - destruct IH as [IH|(id & o' & IH & Hin & Ho' & Hn)]; [intros; apply Hids; by right|by left|].
    right. exists id, o'. split_and!; [done|by right|done..].
Qed.

Lemma parse_arg_ok arg rest parsed w :
  loop_ok parsed w → ∃ out, parse_arg arg rest parsed w = Some out ∧ outcome_ok w out.
Proof.
  intros Hl. pose proof (lo_registered _ _ Hl) as Hr. unfold parse_arg.
  destruct (is_flag arg).
  - destruct (find_variable_some w (drop 1 arg) (variableList w) (rg_vars _ Hr))
      as [->|(id & o & -> & Hin & Ho & _)].
    + destruct (_ || _).
      * eexists. split; [done|]. split; [|by split]. destruct Hl as [[] Ho]. by split.
      * destruct (errorOnFlag w); [|by apply push_argument_ok].
        eexists. split; [done|]. split; [|by split]. destruct Hr. by split.
    + rewrite Ho. eexists. split; [done|]. by apply handle_variable_ok.
  - destruct arg; [|by apply push_argument_ok].
    eexists. split; [done|]. split; [|by split]. destruct Hr. by split.
Qed.

Lemma parse_loop_ok n argv parsed w :
  (length argv <= n)%nat → loop_ok parsed w →
  ∃ ok w' parsed', parse_loop argv parsed w = Some (ok, w') ∧ same_statics w w' ∧ registered w' ∧
    (ok = true → loop_ok parsed' w').
Proof.
  revert argv parsed w. induction n as [|n IH]; intros argv parsed w Hn Hl.
  { destruct argv; simpl in Hn; [|lia]. exists true, w, parsed.
    split_and!; [done|done|apply Hl|done]. }
  destruct argv as [|arg rest]; [exists true, w, parsed; split_and!; [done|done|apply Hl|done]|].
  simpl. destruct (parse_arg_ok arg rest parsed w Hl) as (out & -> & Hout).
  destruct out as [w1|w1 parsed1 skip]; simpl in Hout.
  { exists false, w1, parsed. by destruct Hout. }
  destruct Hout as [Hl1 Hs1].
  assert (Hgo : ∀ argv, (length argv <= n)%nat → ∃ ok w' parsed',
    parse_loop argv parsed1 w1 = Some (ok, w') ∧ same_statics w w' ∧ registered w' ∧
    (ok = true → loop_ok parsed' w')).
  { intros argv Ha. destruct (IH argv parsed1 w1 Ha Hl1) as (ok & w' & p' & He & Hs & Hr & Hk).
    exists ok, w', p'. split_and!; [done|by etrans|done..]. }
  simpl in Hn. destruct skip, rest as [|v rest]; simpl in Hn; apply Hgo; simpl; lia.
Qed.
(** * Properties *)

(** The world in which the loop starts. *)
Lemma reset_loop_ok w w1 :
  registered w → reset_all (variableList w) w = Some w1 →
  loop_ok [] (set_help false (set_error [] w1)) ∧
  same_statics w (set_help false (set_error [] w1)).
Proof.
  intros [Hv Ha] Hr. destruct (reset_all_vars _ _ _ Hr) as [E Hw1].
  assert (El : variableList w1 = variableList w) by (by rewrite E).
  split; [split|split; simpl; [by rewrite E..|]].
  - split; simpl.
    + intros id Hid. rewrite El in Hid. rewrite Hw1, decide_True by done.
      destruct (Hv id Hid) as [o ->]. by eexists.
    + rewrite E. simpl. exact Ha.
  - simpl. intros id o Hid Ho. rewrite El in Hid. rewrite Hw1, decide_True in Ho by done.
    destruct (variables w !! id) as [o0|]; [|done]. injection Ho as <-.
    destruct (reset_static o0) as (_ & -> & -> & _). by split.
  - intros id. rewrite Hw1. case_decide; [|done].
    destruct (variables w !! id) as [o|]; [|done]. simpl. f_equal. apply reset_static.
Qed.

Lemma missing_required_some w ids :
  (∀ id, id ∈ ids → is_Some (variables w !! id)) →
  (∃ name, missing_required (variables w) ids = Some (Some name)) ∨
  (missing_required (variables w) ids = Some None ∧
   ∀ id o, id ∈ ids → variables w !! id = Some o → isRequired o = true → isSet o = true).
Proof.
  induction ids as [|i ids IH]; intros Hids; simpl.
  { right. split; [done|]. by intros id o ?%not_elem_of_nil. }
  destruct (Hids i) as [o Ho]; [by left|]. rewrite Ho.
  destruct (isRequired o && negb (isSet o)) eqn:E; [left; by eexists|].
  destruct IH as [IH|[IH Hall]]; [intros; apply Hids; by right|by left|].
  right. split; [done|]. intros id o' [->|Hin]%elem_of_cons Ho' Hreq; [|by eapply Hall].
  simplify_eq. rewrite Hreq in E. by apply negb_false_iff in E.
Qed.

Lemma missing_required_found w ids name :
  missing_required (variables w) ids = Some (Some name) →
  ∃ id o, id ∈ ids ∧ variables w !! id = Some o ∧ isRequired o = true ∧ isSet o = false.
Proof.
  induction ids as [|i ids IH]; simpl; [done|]. destruct (variables w !! i) as [o|] eqn:Ho; [|done].
  destruct (isRequired o && negb (isSet o)) eqn:E; intros Hm.
  - apply andb_true_iff in E as [E1 E2%negb_true_iff]. exists i, o. split_and!; [by left|done..].
  - destruct (IH Hm) as (id & o' & Hin & Hr). exists id, o'. split; [by right|done].
Qed.

Lemma parse_spec argv w :
  registered w →
  ∃ r w', parseArguments argv w = Some (r, w') ∧ registered w' ∧ same_statics w w' ∧
    (r = SUCCESS ∨ r = INVALID_USAGE) ∧
    (r = SUCCESS →
     arguments w' = None ∧
     (∀ id o, id ∈ variableList w' → variables w' !! id = Some o →
       (help w' = false → isRequired o = true → isSet o = true) ∧
       (canHaveMultiple o = false → extra o = 0%nat))).
Proof.
  intros Hr. unfold parseArguments.
  destruct (reset_all_some (variableList w) w (rg_vars _ Hr)) as [w1 Hw1]. rewrite Hw1.
  destruct (reset_loop_ok w w1 Hr Hw1) as [Hl Hs].
  destruct (parse_loop_ok (length argv) argv [] _ (Nat.le_refl _) Hl)
    as (ok & w2 & parsed & -> & Hs2 & Hr2 & Hok).
  assert (Hs' : same_statics w w2) by (by etrans).
  destruct ok; [|exists INVALID_USAGE, w2; split_and!; [done..|by right|done]].
  destruct (Hok eq_refl) as [_ Hobj].
  assert (Hrn : registered (set_arguments None w2)) by (destruct Hr2; by split).
  assert (Hsn : same_statics w (set_arguments None w2)) by (destruct Hs'; by split).
  destruct (help w2) eqn:Eh.
  { exists SUCCESS, (set_arguments None w2). split_and!; [done..|by left|]. intros _.
    split; [done|]. intros id o Hid Ho. simpl in *. rewrite Eh. split; [done|by eapply Hobj]. }
  destruct (missing_required_some w2 (variableList w2) (rg_vars _ Hr2)) as [[name ->]|[-> Hall]].
  - eexists INVALID_USAGE, _. split_and!; [done|destruct Hr2; by split|destruct Hs'; by split|by right|done].
  - exists SUCCESS, (set_arguments None w2). split_and!; [done..|by left|]. intros _.
    split; [done|]. intros id o Hid Ho. simpl in *. split; [by intros _; eapply Hall|by eapply Hobj].
Qed.

(** If every pointer of the parser leads to an object, [parseArguments]
    terminates with SUCCESS or INVALID_USAGE, whatever the strings are, keeps
    the names and the kinds of the variables, and after SUCCESS the argument
    vector is no longer registered, every required variable has been set
    (unless the help was asked for), and a variable that may not have multiple
    values has one. *)
Theorem parse_outcome argv w :
  registered w →
  ∃ r w', parseArguments argv w = Some (r, w') ∧ registered w' ∧ same_statics w w' ∧
    (r = SUCCESS ∨ r = INVALID_USAGE) ∧
    (r = SUCCESS →
     arguments w' = None ∧
     (∀ id o, id ∈ variableList w' → variables w' !! id = Some o →
       (help w' = false → isRequired o = true → isSet o = true) ∧
       (canHaveMultiple o = false → extra o = 0%nat))).
Proof. apply parse_spec. Qed.

(** Worlds with the same registrations: their variables agree once reset. *)
Definition same_registration (w1 w2 : world) : Prop :=
  lists w1 = lists w2 ∧ variableList w1 = variableList w2 ∧ arguments w1 = arguments w2 ∧
  errorOnFlag w1 = errorOnFlag w2 ∧ helpTexts w1 = helpTexts w2 ∧
  ∀ id, if decide (id ∈ variableList w1)
        then object_reset <$> variables w1 !! id = object_reset <$> variables w2 !! id
        else variables w1 !! id = variables w2 !! id.

(** Nothing is left of an earlier parse or assignment: neither the values,
    nor [_set], the error or the help flag influence [parseArguments]. *)
Theorem parse_independent argv w1 w2 :
  registered w1 → registered w2 → same_registration w1 w2 →
  parseArguments argv w1 = parseArguments argv w2.
Proof.
  intros Hr1 Hr2 (El & Ev & Ea & Ef & Eh & Hvars). unfold parseArguments.
  destruct (reset_all_some (variableList w1) w1 (rg_vars _ Hr1)) as [w1' H1].
  destruct (reset_all_some (variableList w2) w2 (rg_vars _ Hr2)) as [w2' H2].
  rewrite H1, H2. destruct (reset_all_vars _ _ _ H1) as [-> Hv1].
  destruct (reset_all_vars _ _ _ H2) as [-> Hv2].
  assert (E : variables w1' = variables w2').
  { apply map_eq. intros id. rewrite Hv1, Hv2, <- Ev. specialize (Hvars id).
    by case_decide. }
  unfold set_help, set_error. simpl. by rewrite E, El, Ev, Ea, Ef, Eh.
Qed.

(** A flag that belongs to no variable and is not the help is an error, if
    [errorOnFlag] is set: the message names it, the variables have their
    defaults, and the argument vector is no longer registered. *)
Theorem parse_unknown_flag name rest w :
  registered w → errorOnFlag w = true → name ≠ [] → name ≠ lit "-help" → name ≠ lit "h" →
  (∀ id o, id ∈ variableList w → variables w !! id = Some o → names name o = false) →
  ∃ w', parseArguments (("-"%char :: name) :: rest) w = Some (INVALID_USAGE, w') ∧
    error w' = lit "argument -" ++ name ++ lit " not registered!" ∧ arguments w' = None ∧
    ∀ id o, id ∈ variableList w → variables w !! id = Some o →
            variables w' !! id = Some (object_reset o).
Proof.
  intros Hr Hf Hne Hn1 Hn2 Hnames. unfold parseArguments.
  destruct (reset_all_some (variableList w) w (rg_vars _ Hr)) as [w1 Hw1]. rewrite Hw1.
  destruct (reset_loop_ok w w1 Hr Hw1) as [Hl Hs].
  destruct (reset_all_vars _ _ _ Hw1) as [E Hv].
  set (w2 := set_help false (set_error [] w1)) in *. cbn [parse_loop]. unfold parse_arg.
  destruct name as [|c name]; [done|]. cbn [is_flag]. rewrite Ascii.eqb_refl. cbn [drop].
  destruct (find_variable_some w2 (c :: name) (variableList w2) (rg_vars _ (lo_registered _ _ Hl)))
    as [->|(id & o & _ & Hin & Ho & Hn)].
  - rewrite !bool_decide_eq_false_2 by done. simpl orb.
    assert (Hf2 : errorOnFlag w2 = true) by (unfold w2; simpl; by rewrite E). rewrite Hf2.
    eexists. split; [done|]. split_and!; [done..|]. intros id o Hid Ho. simpl.
    rewrite Hv, decide_True, Ho by done. done.
  - exfalso. assert (Hin' : id ∈ variableList w) by (rewrite <- (ss_list _ _ Hs); done).
    pose proof (ss_vars _ _ Hs id) as Hst. rewrite Ho in Hst.
    destruct (variables w !! id) as [o0|] eqn:Ho0; [|done]. simpl in Hst.
    injection Hst as Hlong Hshort _ _ _. specialize (Hnames id o0 Hin' Ho0).
    unfold names in Hn, Hnames. by rewrite Hlong, Hshort, Hnames in Hn.
Qed.

(** * Parsing what was written *)

(** An assignment: the variable, its longname and the text of its value. *)
Definition assignment : Type := nat * str * str.

(** [--longname value] for each of them. *)
Definition flags (l : list assignment) : list str :=
  mjoin ((λ a, [lit "--" ++ a.1.2; a.2]) <$> l).

(** No two variables share a longname, and no shortname looks like one. *)
Definition distinct_names (w : world) : Prop :=
  (∀ id id' o o', id ∈ variableList w → id' ∈ variableList w →
     variables w !! id = Some o → variables w !! id' = Some o' →
     getLongname o = getLongname o' → id = id') ∧
  (∀ id o, id ∈ variableList w → variables w !! id = Some o → starts_with_dash (getShortname o) = false).

(** The variable is registered under this name and takes the text. *)
Definition takes (w : world) (a : assignment) : Prop :=
  let '(id, longname, value) := a in
  id ∈ variableList w ∧ ∃ o, variables w !! id = Some o ∧ getLongname o = longname ∧
    (object_setValue value (object_reset o)).1 = true ∧
    (isBool o = true → starts_with_dash value = false).

(** The variable after its assignment. *)
Definition assigned (value : str) (o : object) : object :=
  object_mark (object_setValue value (object_reset o)).2.

Lemma find_longname_variable w longname id o ids :
  distinct_names w → (∀ i, i ∈ ids → i ∈ variableList w) → registered w →
  id ∈ ids → variables w !! id = Some o → getLongname o = longname →
  find_variable (variables w) ("-"%char :: longname) ids = Some (Some id).
Proof.
  intros [Hd1 Hd2] Hsub Hr Hin Ho <-. induction ids as [|i ids IH]; [by apply not_elem_of_nil in Hin|].
  simpl. destruct (rg_vars _ Hr i) as [oi Hoi]; [apply Hsub; by left|]. rewrite Hoi.
  unfold names. destruct (same_name _ ("-"%char :: getLongname oi)) eqn:E1; simpl.
  - apply same_name_eq in E1. injection E1 as E1. do 2 f_equal.
    eapply (Hd1 i id oi o); [apply Hsub; by left|by apply Hsub|done..|].
    done.
  - destruct (same_name _ (getShortname oi)) eqn:E2.
    + apply same_name_eq in E2. pose proof (Hd2 i oi ltac:(apply Hsub; by left) Hoi) as Hd.
      by rewrite <- E2 in Hd.
    + apply elem_of_cons in Hin as [->|Hin]; [|by apply IH; [intros; apply Hsub; by right|]].
      rewrite Hoi in Ho. simplify_eq. by rewrite (proj2 (same_name_eq _ _) eq_refl) in E1.
Qed.

Lemma static_names w w' : same_statics w w' → distinct_names w → distinct_names w'.
Proof.
  intros Hs [Hd1 Hd2].
  assert (Hback : ∀ id o', variables w' !! id = Some o' →
    ∃ o, variables w !! id = Some o ∧ static o' = static o).
  { intros id o' Ho'. pose proof (ss_vars _ _ Hs id) as E. rewrite Ho' in E.
    destruct (variables w !! id) as [o|]; [|done]. simpl in E. exists o. split; [done|]. congruence. }
  split; rewrite (ss_list _ _ Hs).
  - intros id id' o o' Hi Hi' Ho Ho' El.
    destruct (Hback _ _ Ho) as (p & Hp & Ep), (Hback _ _ Ho') as (p' & Hp' & Ep').
    apply (Hd1 id id' p p' Hi Hi' Hp Hp').
    by rewrite <- (static_longname _ _ Ep), <- (static_longname _ _ Ep').
  - intros id o Hi Ho. destruct (Hback _ _ Ho) as (p & Hp & Ep).
    rewrite <- (Hd2 id p Hi Hp). f_equal. unfold static in Ep. congruence.
Qed.

(** One flag with its value. *)
Lemma parse_assignment id longname value rest parsed w o :
  distinct_names w → registered w → id ∈ variableList w → variables w !! id = Some o →
  getLongname o = longname → (object_setValue value o).1 = true →
  (isBool o = true → starts_with_dash value = false) → is_parsed parsed longname = false →
  parse_loop ((lit "--" ++ longname) :: value :: rest) parsed w =
  parse_loop rest (set parsed longname true)
    (set_object id (object_mark (object_setValue value o).2)
       (set_object id (object_setValue value o).2 w)).
Proof.
  intros Hd Hr Hin Ho El Hok Hb Hp. cbn [parse_loop].
  change (lit "--" ++ longname) with ("-"%char :: "-"%char :: longname).
  unfold parse_arg. cbn [is_flag]. rewrite Ascii.eqb_refl. cbn [drop].
  rewrite (find_longname_variable w longname id o (variableList w)), Ho by done.
  unfold handle_variable, use_value.
  destruct (object_setValue value o) as [ok o1] eqn:E. simpl in Hok. subst ok.
  destruct (setValue_static _ _ _ _ E) as (Hst & _). simpl.
  rewrite (static_longname _ _ Hst), El, Hp, andb_false_r.
  destruct (isBool o); [by rewrite Hb|done].
Qed.

Lemma key_elem (a : assignment) l : a ∈ l → a.1.1 ∈ l.*1.*1.
Proof. intros Ha. by do 2 apply list_elem_of_fmap_2. Qed.

Lemma parse_flags l parsed w rest :
  distinct_names w → registered w → NoDup l.*1.*1 →
  (∀ a, a ∈ l → takes w a ∧ is_parsed parsed a.1.2 = false ∧
     ∀ o, variables w !! a.1.1 = Some o → object_reset o = o) →
  ∃ parsed' w', parse_loop (flags l ++ rest) parsed w = parse_loop rest parsed' w' ∧
    same_statics w w' ∧ registered w' ∧
    w' = World (variables w') (lists w) (variableList w) (error w) (arguments w) (errorOnFlag w)
           (help w) (helpTexts w) ∧
    (∀ a o, a ∈ l → variables w !! a.1.1 = Some o → variables w' !! a.1.1 = Some (assigned a.2 o)) ∧
    (∀ id, id ∉ l.*1.*1 → variables w' !! id = variables w !! id).
Proof.
  revert parsed w. induction l as [|[[id longname] value] l IH]; intros parsed w Hd Hr Hnd Hl.
  { exists parsed, w. split_and!; [done..|by destruct w| |done].
    by intros a o ?%not_elem_of_nil. }
  csimpl in Hnd. apply NoDup_cons in Hnd as [Hnin Hnd].
  destruct (Hl (id, longname, value)) as ((Hin & o & Ho & El & Hok & Hb) & Hp & Hres); [by left|].
  simpl in Hp, Hres. specialize (Hres o Ho). rewrite Hres in Hok.
  set (o2 := assigned value o).
  set (w1 := set_object id o2 w).
  assert (Hw1 : set_object id (object_mark (object_setValue value o).2)
                  (set_object id (object_setValue value o).2 w) = w1).
  { unfold w1, o2, assigned, set_object. simpl. by rewrite insert_insert_eq, Hres. }
  assert (Hst : static o2 = static o).
  { unfold o2, assigned. rewrite Hres. destruct (object_setValue value o) as [ok o1] eqn:E.
    simpl. etrans; [apply mark_static|]. by destruct (setValue_static _ _ _ _ E). }
  pose proof (set_object_statics id o o2 w Ho Hst) as Hs1. fold w1 in Hs1.
  pose proof (set_object_registered id o2 w Hr) as Hr1. fold w1 in Hr1.
  destruct (IH (set parsed longname true) w1) as (parsed' & w' & Hpl & Hs' & Hr' & Hw' & Ha & Hu);
    [by eapply static_names|done|done| |].
  { intros [[id' long'] value'] Hin'.
    assert (Hne : id ≠ id').
    { intros <-. apply Hnin. by apply (key_elem (id, long', value')). }
    destruct (Hl (id', long', value')) as ((Hi & o' & Ho' & El' & Hok' & Hb') & Hp' & Hres');
      [by right|]. simpl in *.
    rewrite lookup_insert_ne by done. split_and!; [done|by exists o'| |done].
    destruct (is_parsed (set parsed longname true) long') eqn:E; [|done].
    apply is_parsed_set in E as [->|E]; [|congruence].
    destruct Hne. apply (proj1 Hd id id' o o'); congruence. }
  exists parsed', w'. split_and!; [|by etrans|done|done| |].
  - change (flags ((id, longname, value) :: l) ++ rest)
      with ((lit "--" ++ longname) :: value :: (flags l ++ rest)).
    rewrite (parse_assignment id longname value _ parsed w o), Hw1 by done. exact Hpl.
  - intros a o' [->|Hin']%elem_of_cons Ho'.
    + simpl in *. rewrite Hu by done. simpl. rewrite lookup_insert_eq. simplify_eq. done.
    + apply Ha; [done|]. simpl. rewrite lookup_insert_ne; [done|]. intros ->. apply Hnin.
      by apply key_elem.
  - intros id' Hid'. csimpl in Hid'. apply not_elem_of_cons in Hid' as [Hne Hid'].
    rewrite Hu by done. simpl. by rewrite lookup_insert_ne.
Qed.

(** The strings that are no flags go to the vector in their order. *)
Lemma parse_positionals pos parsed w aid l :
  Forall (λ s, is_flag s = false ∧ s ≠ []) pos →
  arguments w = Some aid → lists w !! aid = Some l →
  parse_loop pos parsed w =
  Some (true, World (variables w) (<[aid := l ++ pos]> (lists w)) (variableList w) (error w)
          (arguments w) (errorOnFlag w) (help w) (helpTexts w)).
Proof.
  intros Hpos. revert w l. induction Hpos as [|s pos [Hs Hne] _ IH]; intros w l Ha Hl.
  { simpl. rewrite app_nil_r, insert_id by done. by destruct w. }
  cbn [parse_loop]. unfold parse_arg, push_argument. rewrite Hs, Ha, Hl.
  destruct s as [|c s]; [done|]. cbn [arguments]. rewrite (IH _ (l ++ [c :: s])); [|done|by simpl; rewrite lookup_insert_eq].
  simpl. by rewrite insert_insert_eq, <- app_assoc.
Qed.

Lemma assigned_set value o : isSet (assigned value o) = true.
Proof. apply mark_static. Qed.

(** After the reset the variables still take their values, and are at their
    defaults. *)
Lemma takes_reset w w1 l :
  registered w → reset_all (variableList w) w = Some w1 → Forall (takes w) l →
  let w2 := set_help false (set_error [] w1) in
  ∀ a, a ∈ l → takes w2 a ∧ is_parsed [] a.1.2 = false ∧
    ∀ o, variables w2 !! a.1.1 = Some o → object_reset o = o.
Proof.
  intros Hr Hw1 Hl w2. destruct (reset_loop_ok w w1 Hr Hw1) as [_ Hs]. fold w2 in Hs.
  destruct (reset_all_vars _ _ _ Hw1) as [_ Hv].
  intros [[id longname] value] Hin. rewrite Forall_forall in Hl.
  destruct (Hl _ Hin) as (Hid & o & Ho & El & Hok & Hb). simpl.
  destruct (reset_static o) as (Hst & _ & _ & Hres).
  split_and!; [change (id ∈ variableList w2); by rewrite (ss_list _ _ Hs)| |done|].
  - exists (object_reset o). rewrite Hv, decide_True, Ho, Hres by done.
    split_and!; [done|by rewrite (static_longname _ _ Hst)|done|].
    intros Hbool. apply Hb. unfold static in Hst. congruence.
  - intros o'. rewrite Hv, decide_True, Ho by done. by intros [= <-].
Qed.

(** C28: let all pointers of the parser lead to live objects, the registered
    variables have distinct longnames and no shortname that begins with a dash, and an
    argument vector be registered. A command line of [--name value] for distinct
    registered variables that take these values (a boolean one only a value that does
    not begin with a dash), all required ones among them, followed by nonempty strings
    that are no flags, is parsed successfully: every named variable is set from its
    text, every other one has its default, and the other strings are appended to the
    argument vector in their order; there is no error text and no help is asked
    for. *)
Theorem parse_written w l pos aid args :
  registered w → distinct_names w → NoDup l.*1.*1 → Forall (takes w) l →
  (∀ id o, id ∈ variableList w → variables w !! id = Some o → isRequired o = true → id ∈ l.*1.*1) →
  Forall (λ s, is_flag s = false ∧ s ≠ []) pos →
  arguments w = Some aid → lists w !! aid = Some args →
  ∃ w', parseArguments (flags l ++ pos) w = Some (SUCCESS, w') ∧
    (∀ a o, a ∈ l → variables w !! a.1.1 = Some o → variables w' !! a.1.1 = Some (assigned a.2 o)) ∧
    (∀ id o, id ∈ variableList w → id ∉ l.*1.*1 → variables w !! id = Some o →
       variables w' !! id = Some (object_reset o)) ∧
    lists w' !! aid = Some (args ++ pos) ∧ error w' = [] ∧ help w' = false.
Proof.
  intros Hr Hd Hnd Hl Hreq Hpos Ha Hargs. unfold parseArguments.
  destruct (reset_all_some (variableList w) w (rg_vars _ Hr)) as [w1 Hw1]. rewrite Hw1.
  destruct (reset_loop_ok w w1 Hr Hw1) as [Hlo Hs].
  destruct (reset_all_vars _ _ _ Hw1) as [E Hv].
  set (w2 := set_help false (set_error [] w1)) in *.
  pose proof (takes_reset w w1 l Hr Hw1 Hl) as Hl2. fold w2 in Hl2.
  destruct (parse_flags l [] w2 pos) as (parsed & w3 & -> & Hs3 & Hr3 & E3 & Ha3 & Hu3);
    [by eapply static_names|by apply Hlo|done|done|].
  rewrite (parse_positionals pos parsed w3 aid args); [|done|rewrite E3; simpl; by rewrite E..].
  cbn [help]. assert (Hh : help w3 = false) by (by rewrite E3). rewrite Hh. cbn [variables variableList].
  assert (Hassigned : ∀ a o, a ∈ l → variables w !! a.1.1 = Some o →
                       variables w3 !! a.1.1 = Some (assigned a.2 o)).
  { intros a o Hin Ho. rewrite (Ha3 a (object_reset o) Hin).
    - unfold assigned. by destruct (reset_static o) as (_ & _ & _ & ->).
    - simpl. rewrite Hv, decide_True, Ho; [done|]. rewrite Forall_forall in Hl.
      pose proof (Hl a Hin) as Ht. destruct a as [[id longname] value]. apply Ht. }
  assert (Hother : ∀ id o, id ∈ variableList w → id ∉ l.*1.*1 → variables w !! id = Some o →
                     variables w3 !! id = Some (object_reset o)).
  { intros id o Hid Hni Ho. rewrite Hu3 by done. simpl. by rewrite Hv, decide_True, Ho. }
  destruct (missing_required_some w3 (variableList w3) (rg_vars _ Hr3)) as [[name Hm]|[-> _]].
  - exfalso. apply (missing_required_found w3) in Hm as (id & o3 & Hid & Ho3 & Hreq3 & Hset3).
    assert (Hid1 : id ∈ variableList w) by (rewrite <- (ss_list _ _ Hs), <- (ss_list _ _ Hs3); done).
    destruct (rg_vars _ Hr id Hid1) as [o Ho].
    destruct (decide (id ∈ l.*1.*1)) as [Hin|Hni].
    + apply list_elem_of_fmap in Hin as ([id' longname] & -> & [[a' value] [Hal Hal2]]%list_elem_of_fmap).
      simpl in Hal. subst a'. pose proof (Hassigned (id', longname, value) o Hal2 Ho) as Has.
      simpl in *. rewrite Ho3 in Has. injection Has as ->. by rewrite assigned_set in Hset3.
    + rewrite (Hother id o Hid1 Hni Ho) in Ho3. injection Ho3 as <-.
      destruct (reset_static o) as (Hst & _). rewrite (static_required _ _ Hst) in Hreq3.
      by destruct Hni; apply (Hreq id o).
  - eexists. split; [done|]. split_and!; [done..| | |]; simpl.
    + by rewrite lookup_insert_eq.
    + by rewrite E3.
    + done.
Qed.

(** * Registering and destroying *)

Lemma find_longname_last vars longname ids id o :
  (∀ i, i ∈ ids → ∃ oi, vars !! i = Some oi ∧ longname ≠ getLongname oi) →
  vars !! id = Some o → getLongname o = longname →
  find_longname vars longname (ids ++ [id]) = Some (Some (length ids)).
Proof.
  intros Hids Ho <-. induction ids as [|i ids IH]; simpl.
  - rewrite Ho. simpl. by rewrite bool_decide_eq_true_2.
  - destruct (Hids i) as (oi & -> & Hne); [by left|]. simpl.
    rewrite bool_decide_eq_false_2 by done. rewrite IH; [done|]. intros j Hj. apply Hids. by right.
Qed.

(** A variable that is registered under a new longname and destroyed leaves
    the parser as it was: the list, the help texts and everything else. *)
Theorem register_delete {A} (mk : TypedVariable A → object) id longname shortname value_text value
    description required multiple w :
  (∀ v, getLongname (mk v) = _longname v) →
  registered w → variables w !! id = None →
  (∀ i o, i ∈ variableList w → variables w !! i = Some o → longname ≠ getLongname o) →
  find (helpTexts w) longname = None →
  BasicVariable_delete id
    (register mk id longname shortname value_text value description required multiple w) = Some w.
Proof.
  intros Hmk Hr Hid Hnew Hhelp. unfold register, BasicVariable_delete, addHelpTextLine. simpl.
  rewrite lookup_insert_eq. simpl. rewrite Hmk. simpl. rewrite Hhelp.
  rewrite (find_longname_last _ longname (variableList w) id
             (mk (TypedVariable_new longname shortname description value required multiple))).
  - simpl. rewrite erase_set, delete_insert_id by done.
    assert (Hd : delete (length (variableList w)) (variableList w ++ [id]) = variableList w)
      by (by rewrite delete_middle, app_nil_r).
    rewrite Hd. by destruct w.
  - intros i Hi. destruct (rg_vars _ Hr i Hi) as [oi Hoi]. exists oi.
    rewrite lookup_insert_ne by congruence. split; [done|by eapply Hnew].
  - apply lookup_insert_eq.
  - by rewrite Hmk.
Qed.
End Parser.

(** * Concrete command lines *)

Notation int_world := (world (T := int32)).
Notation int_object := (object (T := int32)).

(** [REGISTER_VARIABLE_ARGUMENTS(list); REGISTER_VARIABLE_REQUIRED(int32_t,
    num, n, 5, a number); REGISTER_VARIABLE(bool, flag, f, false, a flag)] *)
Definition demo : int_world :=
  register BoolVar 2 (lit "flag") (lit "f") (lit "false") false (lit "a flag") false false
    (register OtherVar 1 (lit "num") (lit "n") (lit "5") (5 : int32) (lit "a number") true false
       (ArgumentList_new 0 initial)).

Definition parse_demo (argv : list string) : option (ClockError * int_world) :=
  parseArguments (0 : int32) false (lit <$> argv) demo.

Definition demo_object (id : nat) : int_object :=
  default (StringVar (TypedVariable_new [] [] [] [] false false)) (variables demo !! id).

Lemma demo_ids id : id ∈ variableList demo → id = 1%nat ∨ id = 2%nat.
Proof. intros [->|[->|[]%not_elem_of_nil]%elem_of_cons]%elem_of_cons; auto. Qed.

Lemma demo_registered : registered demo.
Proof.
  split.
  - intros id [->| ->]%demo_ids; by eexists.
  - intros aid [= <-]. by eexists.
Qed.

Lemma demo_names : distinct_names demo.
Proof.
  split.
  - intros id id' o o' [->| ->]%demo_ids [->| ->]%demo_ids Ho Ho' E; vm_compute in Ho, Ho';
      by simplify_eq.
  - intros id o [->| ->]%demo_ids Ho; vm_compute in Ho; by simplify_eq.
Qed.

(** The help text of the macro, with the layout that the tests expect. *)
Lemma demo_help :
  getHelpText demo =
  "009"%char :: lit "--flag, -f     [Default: false]          a flag" ++
  "010"%char :: "009"%char :: lit "--num, -n      [Default: 5]              a number (required)".
Proof. vm_compute. reflexivity. Qed.

Lemma parse_outcome_witness :
  registered demo ∧ ∃ r w', parse_demo ["--num"] = Some (r, w') ∧ (r = SUCCESS ∨ r = INVALID_USAGE).
Proof.
  split; [apply demo_registered|].
  destruct (parse_outcome (0 : int32) false (lit <$> ["--num"]) demo demo_registered)
    as (r & w' & Hp & _ & _ & Hr & _). by exists r, w'.
Defined.

(** [demo] after [flag = true]. *)
Definition demo_assigned : int_world :=
  set_object 2 (BoolVar (assign true (TypedVariable_new (lit "flag") (lit "f") (lit "a flag") false false false)))
    demo.

Lemma parse_independent_witness :
  parseArguments (0 : int32) false (lit <$> ["-n"; "7"]) demo =
  parseArguments (0 : int32) false (lit <$> ["-n"; "7"]) demo_assigned.
Proof.
  apply parse_independent; [apply demo_registered|by apply set_object_registered, demo_registered|].
  split_and!; [done..|]. intros id. case_decide as Hd.
  - by apply demo_ids in Hd as [->| ->].
  - unfold demo_assigned, set_object. cbn [variables].
    rewrite (lookup_insert_ne _ 2%nat id); [done|].
    intros <-. apply Hd. right. by left.
Defined.

Lemma parse_unknown_flag_witness :
  ∃ w', parse_demo ["-x"; "3"] = Some (INVALID_USAGE, w') ∧
    error w' = lit "argument -x not registered!".
Proof.
  destruct (parse_unknown_flag (0 : int32) false (lit "x") (lit <$> ["3"]) demo demo_registered)
    as (w' & Hp & He & _); [done..| |].
  - intros id o [->| ->]%demo_ids Ho; vm_compute in Ho; by simplify_eq.
  - by exists w'.
Defined.

Lemma parse_written_witness :
  ∃ w' v, parse_demo ["--num"; "-42"; "--flag"; "TRUE"; "a"; "-"] = Some (SUCCESS, w') ∧
    variables w' !! 1%nat = Some (OtherVar v) ∧ _value v = -42 ∧
    lists w' !! 0%nat = Some (lit <$> ["a"; "-"]).
Proof.
  destruct (parse_written (0 : int32) false demo
    [(1%nat, lit "num", lit "-42"); (2%nat, lit "flag", lit "TRUE")] (lit <$> ["a"; "-"]) 0 [])
    as (w' & Hp & Ha & _ & Hl & _); [apply demo_registered|apply demo_names| | | |by repeat constructor|done..|].
  - by apply (bool_decide_eq_true (NoDup [1%nat; 2%nat])).
  - apply Forall_cons. split; [|apply Forall_singleton].
    + split; [by left|]. exists (demo_object 1). split_and!; reflexivity || done.
    + split; [by right; left|]. exists (demo_object 2). split_and!; reflexivity || done.
  - intros id o [->| ->]%demo_ids _ _; [by left|by right; left].
  - pose proof (Ha (1%nat, lit "num", lit "-42") (demo_object 1) ltac:(by left) eq_refl) as H1.
    eexists w', _. split_and!; [exact Hp|exact H1|reflexivity|exact Hl].
Defined.

Lemma register_delete_witness :
  BasicVariable_delete 7
    (register StringVar 7 (lit "name") (lit "m") (lit "x") (lit "x") (lit "a name") false false demo) =
  Some demo.
Proof.
  apply register_delete; [done|apply demo_registered|reflexivity| |reflexivity].
  intros i o [->| ->]%demo_ids Ho; vm_compute in Ho; by simplify_eq.
Defined.

(** A second variable with the longname [num], and its destruction. *)
Definition twice : int_world :=
  register StringVar 7 (lit "num") (lit "m") (lit "x") (lit "x") (lit "a name") false false demo.
Definition dangling : int_world := default demo (BasicVariable_delete 7 twice).

(** A variable that is destroyed removes the first variable with its
    longname from the list: with two of them the list keeps a pointer to the
    destroyed one, and the next parse follows it. *)
Theorem delete_dangling :
  BasicVariable_delete 7 twice = Some dangling ∧
  variableList dangling = [2; 7]%nat ∧ variables dangling !! 7%nat = None ∧
  parseArguments (0 : int32) false [] dangling = None.
Proof. split_and!; vm_compute; reflexivity. Qed.

Definition first_parse : int_world :=
  match parse_demo ["--num"; "1"; "a"] with Some (_, w) => w | None => demo end.

(** Two usage errors have no message: an argument when no vector is
    registered, which is the case for every parse after a first one, and a
    boolean flag that is given twice. *)
Theorem parse_silent_errors :
  parse_demo ["--num"; "1"; "a"] = Some (SUCCESS, first_parse) ∧
  (λ r, (r.1, getLastParserError r.2)) <$>
    parseArguments (0 : int32) false (lit <$> ["--num"; "1"; "a"]) first_parse =
    Some (INVALID_USAGE, []) ∧
  (λ r, (r.1, getLastParserError r.2)) <$> parse_demo ["--num"; "1"; "-f"; "-f"] =
    Some (INVALID_USAGE, []).
Proof. split_and!; vm_compute; reflexivity. Qed.
