(* ===== verification/ArgSpec.v ===== *)
(** What a command line means, apart from how [Parser::parseArguments] works
    through it.

    [scan] splits a command line into items with nothing but the declarations
    of the variables: it knows no values and changes no state. The items then
    act on every variable, on the argument vector and on the help flag on their
    own. The theorem of this file is that [parseArguments] of [ArgParser.v]
    computes exactly that, on all its branches, errors included. *)

From stdpp Require Import gmap.
From S2P Require Import StdMap Streams ArgParser Prelude.

Local Open Scope Z_scope.

Section ArgSpec.
Context {T : Type} `{Streamable T} (junk : T) (junk_bool : bool).
Notation object := (ArgParser.object (T := T)).
Notation world := (ArgParser.world (T := T)).

(** * Declarations *)

Inductive kind : Type := KBool | KChar | KString | KOther.

Definition kind_of (o : object) : kind :=
  match o with BoolVar _ => KBool | CharVar _ => KChar | StringVar _ => KString | OtherVar _ => KOther end.

(** Whether a value is valid for a variable of the kind. *)
Definition accepts (k : kind) (value : str) : bool :=
  match k with
  | KBool =>
      bool_decide (tolower <$> value = lit "true") || bool_decide (tolower <$> value = lit "false")
      || negb (bad_extract (extract_bool value junk_bool).2)
  | KChar => (length value =? 1)%nat
  | KString => true
  | KOther => negb (bad_extract (extract value junk).2)
  end.

Record decl : Type := Decl {
  d_id : nat;
  d_long : str;
  d_short : str;
  d_required : bool;
  d_multiple : bool;
  d_kind : kind
}.

Definition decl_of (id : nat) (o : object) : decl :=
  Decl id (getLongname o) (getShortname o) (isRequired o) (canHaveMultiple o) (kind_of o).

(** The registered variables, in the order of their registration. *)
Definition declarations (vars : gmap nat object) (ids : list nat) : list decl :=
  omap (λ id, decl_of id <$> vars !! id) ids.

(** * The reference *)

Inductive item : Type :=
| Assign (id : nat) (value : str)
| Attempt (id : nat) (value : str)
| HelpFlag
| Extra (arg : str).

(** Why a command line is refused. *)
Inductive cause : Type :=
| UnknownFlag (name : str)
| MissingValue (name long short : str)
| BadValue (name value : str)
| Twice (name : str)
| TwiceBool
| NoVector
| EmptyArgument
| NotSet (long : str).

Definition message (c : cause) : str :=
  match c with
  | UnknownFlag name => lit "argument -" ++ name ++ lit " not registered!"
  | MissingValue name long short =>
      name ++ lit " requires a value: --" ++ long ++ lit " <value> or -" ++ short ++ lit " <value>"
  | BadValue name value => value ++ lit " is not a valid value for variable " ++ name
  | Twice name => lit "variable " ++ name ++ lit " doesn't support multiple arguments"
  | TwiceBool | NoVector => []
  | EmptyArgument => lit "parsing empty string not possible!"
  | NotSet long => lit "Variable " ++ long ++ lit " required, but not set."
  end.

(** The declaration a flag belongs to. *)
Definition meant (name : str) (d : decl) : bool :=
  bool_decide (name = "-"%char :: d_long d) || bool_decide (name = d_short d).

Definition lookup_flag (decls : list decl) (name : str) : option decl :=
  snd <$> list_find (λ d, meant name d = true) decls.

(** The value of a flag: the next string, or the implicit one of a boolean. *)
Definition value_for (k : kind) (rest : list str) : option (str * bool) :=
  match k, rest with
  | KBool, value :: _ => if starts_with_dash value then Some (lit "1", false) else Some (value, true)
  | KBool, [] => Some (lit "1", false)
  | _, value :: _ => Some (value, true)
  | _, [] => None
  end.

Section Scan.
Context (decls : list decl) (has_vector flag_errors : bool).

Definition consp (i : item) (r : list item * option cause) : list item * option cause :=
  (i :: r.1, r.2).

Definition extra_or (arg : str) (r : list item * option cause) : list item * option cause :=
  if has_vector then consp (Extra arg) r else ([], Some NoVector).

Fixpoint scan (argv : list str) (seen : list str) : list item * option cause :=
  match argv with
  | [] => ([], None)
  | arg :: rest =>
      if is_flag arg then
        let name := drop 1 arg in
        match lookup_flag decls name with
        | Some d =>
            match value_for (d_kind d) rest with
            | None => ([], Some (MissingValue name (d_long d) (d_short d)))
            | Some (value, taken) =>
                if negb (accepts (d_kind d) value) then
                  ([Attempt (d_id d) value], Some (BadValue name value))
                else if negb (d_multiple d) && bool_decide (d_long d ∈ seen) then
                  ([Attempt (d_id d) value],
                   Some (match d_kind d with KBool => TwiceBool | _ => Twice name end))
                else
                  consp (Assign (d_id d) value)
                    (match taken, rest with
                     | true, _ :: rest' => scan rest' (d_long d :: seen)
                     | _, _ => scan rest (d_long d :: seen)
                     end)
            end
        | None =>
            if bool_decide (name = lit "-help") || bool_decide (name = lit "h") then
              consp HelpFlag (scan rest seen)
            else if flag_errors then ([], Some (UnknownFlag name))
            else extra_or arg (scan rest seen)
        end
      else if bool_decide (arg = []) then ([], Some EmptyArgument)
      else extra_or arg (scan rest seen)
  end.
End Scan.

(** The values the items give to a variable, and whether they count as set. *)
Definition use_of (id : nat) (i : item) : option (str * bool) :=
  match i with
  | Assign id' value => if decide (id' = id) then Some (value, true) else None
  | Attempt id' value => if decide (id' = id) then Some (value, false) else None
  | _ => None
  end.

Definition take_value (o : object) (u : str * bool) : object :=
  let o := (object_setValue junk junk_bool u.1 o).2 in if u.2 then object_mark o else o.

Definition variable_after (items : list item) (id : nat) (o : object) : object :=
  foldl take_value o (omap (use_of id) items).

Definition extras (items : list item) : list str :=
  omap (λ i, match i with Extra arg => Some arg | _ => None end) items.

Definition help_asked (items : list item) : bool :=
  existsb (λ i, match i with HelpFlag => true | _ => false end) items.

Definition assigns (id : nat) (items : list item) : bool :=
  existsb (λ i, match i with Assign id' _ => bool_decide (id' = id) | _ => false end) items.

(** The first required variable without a value. *)
Definition first_missing (decls : list decl) (items : list item) : option str :=
  (λ r, d_long r.2) <$>
    list_find (λ d, d_required d && negb (assigns (d_id d) items) = true) decls.

(** The meaning of a command line: its items, and why it is refused, if it is. *)
Definition meaning (decls : list decl) (has_vector flag_errors : bool) (argv : list str)
    : list item * option cause :=
  let '(items, c) := scan decls has_vector flag_errors argv [] in
  match c with
  | Some c => (items, Some c)
  | None =>
      (items, if help_asked items then None else NotSet <$> first_missing decls items)
  end.

(** Only these two leave the argument vector registered. *)
Definition keeps_vector (c : cause) : bool :=
  match c with EmptyArgument | NotSet _ => true | _ => false end.

(** * Kinds and validity *)

Lemma setValue_accepts value o : (object_setValue junk junk_bool value o).1 = accepts (kind_of o) value.
Proof.
  destruct o as [v|v|v|v]; simpl; unfold setValue_bool, setValue_char, setValue.
  - destruct (decide (tolower <$> value = lit "true")) as [E|E].
    { by rewrite E. }
    destruct (decide (tolower <$> value = lit "false")) as [E'|E'].
    { by rewrite E'. }
    rewrite !(bool_decide_eq_false_2 _ E), !(bool_decide_eq_false_2 _ E'). simpl.
    by destruct (extract_bool value junk_bool).
  - by destruct value as [|c [|]].
  - done.
  - by destruct (extract value junk).
Qed.

Lemma setValue_kind value o : kind_of (object_setValue junk junk_bool value o).2 = kind_of o.
Proof.
  destruct o as [v|v|v|v]; simpl; [by destruct (setValue_bool _ _ _)
    |by destruct (setValue_char _ _)|done|by destruct (setValue _ _ _)].
Qed.

Lemma setValue_decl id value o :
  decl_of id (object_setValue junk junk_bool value o).2 = decl_of id o.
Proof.
  destruct (object_setValue junk junk_bool value o) as [ok o'] eqn:E.
  destruct (setValue_static _ _ _ _ _ _ E) as (Hs & _).
  pose proof (setValue_kind value o) as Hk. rewrite E in Hk. simpl in *.
  unfold static in Hs. unfold decl_of. rewrite Hk. congruence.
Qed.

Lemma mark_decl id o : decl_of id (object_mark o) = decl_of id o.
Proof. by destruct o. Qed.

Lemma reset_decl id o : decl_of id (object_reset o) = decl_of id o.
Proof. by destruct o. Qed.

(** * Finding the variable of a flag *)

Lemma names_meant name id o : names name o = meant name (decl_of id o).
Proof.
  unfold names, meant. simpl. f_equal; apply eq_true_iff_eq;
    by rewrite same_name_eq, bool_decide_eq_true.
Qed.

Lemma declarations_cons vars id ids o :
  vars !! id = Some o → declarations vars (id :: ids) = decl_of id o :: declarations vars ids.
Proof. intros Ho. unfold declarations. simpl. by rewrite Ho. Qed.

Lemma find_variable_lookup vars name ids :
  (∀ id, id ∈ ids → is_Some (vars !! id)) →
  match lookup_flag (declarations vars ids) name with
  | None => find_variable vars name ids = Some None
  | Some d => ∃ o, find_variable vars name ids = Some (Some (d_id d)) ∧ d_id d ∈ ids ∧
                   vars !! d_id d = Some o ∧ d = decl_of (d_id d) o
  end.
Proof.
  unfold lookup_flag. induction ids as [|i ids IH]; intros Hids; [done|].
  destruct (Hids i) as [o Ho]; [by left|]. rewrite (declarations_cons _ _ _ o Ho). simpl.
  rewrite Ho, (names_meant name i o). destruct (meant name (decl_of i o)) eqn:E; simpl.
  - exists o. split_and!; [done|by left|done|done].
  - specialize (IH ltac:(intros; apply Hids; by right)).
    destruct (list_find _ _) as [[n d]|]; simpl in *; [|done].
    destruct IH as (o' & Hf & Hin & Hv & Hd). exists o'. split_and!; [done|by right|done|done].
Qed.

(** A change of values leaves the declarations. *)
Lemma declarations_ext vars vars' ids :
  (∀ id, decl_of id <$> vars' !! id = decl_of id <$> vars !! id) →
  declarations vars' ids = declarations vars ids.
Proof. intros E. unfold declarations. induction ids as [|i ids IH]; csimpl; [done|]. by rewrite E, IH. Qed.

(** * The effect of items on the world *)

Definition errors_of (c : option cause) : str := from_option message [] c.

Record after (w : world) (items : list item) (c : option cause) (w' : world) : Prop := {
  af_variables id : variables w' !! id = variable_after items id <$> variables w !! id;
  af_lists : lists w' = match arguments w with
                        | Some aid => alter (λ l, l ++ extras items) aid (lists w)
                        | None => lists w
                        end;
  af_list : variableList w' = variableList w;
  af_error : error w' = errors_of c;
  af_arguments : arguments w' =
    match c with Some c => if keeps_vector c then arguments w else None | None => arguments w end;
  af_flag : errorOnFlag w' = errorOnFlag w;
  af_help : help w' = help w || help_asked items;
  af_texts : helpTexts w' = helpTexts w
}.

Lemma variable_after_cons i items id o :
  variable_after (i :: items) id o = variable_after items id (variable_after [i] id o).
Proof. unfold variable_after. simpl. by destruct (use_of id i). Qed.

Lemma after_nil w : error w = [] → after w [] None w.
Proof.
  intros He. split; try done.
  - intros id. by destruct (variables w !! id).
  - destruct (arguments w); [|done]. symmetry. apply map_eq. intros i.
    destruct (decide (n = i)) as [->|]; [rewrite lookup_alter_eq|by rewrite lookup_alter_ne].
    destruct (lists w !! i); simpl; by rewrite ?app_nil_r.
  - simpl. by rewrite orb_false_r.
Qed.

Lemma after_trans w i w1 items c w' :
  after w [i] None w1 → after w1 items c w' → after w (i :: items) c w'.
Proof.
  intros [] []. cbn in af_arguments0. split; try congruence.
  - intros id. rewrite af_variables1, af_variables0. destruct (variables w !! id); [|done].
    apply (f_equal Some), eq_sym, variable_after_cons.
  - rewrite af_lists1, af_arguments0, af_lists0. destruct (arguments w) as [aid|]; [|done].
    apply map_eq. intros j. destruct (decide (aid = j)) as [<-|Hne]; [|by rewrite !lookup_alter_ne].
    rewrite !lookup_alter_eq. destruct (lists w !! aid) as [l|]; [|done]. simpl.
    rewrite <- app_assoc. by destruct i.
  - by rewrite af_arguments1, af_arguments0.
  - rewrite af_help1, af_help0, <- orb_assoc. f_equal. unfold help_asked. simpl.
    by rewrite orb_false_r.
Qed.

Lemma variable_after_decl items id id' o :
  decl_of id' (variable_after items id o) = decl_of id' o.
Proof.
  unfold variable_after. generalize (omap (use_of id) items). intros l. revert o.
  induction l as [|u l IH]; intros o; [done|].
  simpl. rewrite IH. unfold take_value. destruct u.2; by rewrite ?mark_decl, setValue_decl.
Qed.

Lemma after_decls w items c w' :
  after w items c w' →
  declarations (variables w') (variableList w') = declarations (variables w) (variableList w).
Proof.
  intros []. rewrite af_list0. apply declarations_ext. intros id. rewrite af_variables0.
  destruct (variables w !! id) as [o|]; [|done]. simpl.
  by rewrite variable_after_decl.
Qed.

(** One round of the loop on a variable. *)
Definition twice_cause (k : kind) (name : str) : cause :=
  match k with KBool => TwiceBool | _ => Twice name end.

Definition set_twice (id : nat) (value : str) (o : object) (w : world) : world :=
  set_object id (object_mark (object_setValue junk junk_bool value o).2)
    (set_object id (object_setValue junk junk_bool value o).2 w).

Definition refused (c : cause) (w : world) : world :=
  let w := set_error (message c) w in if keeps_vector c then w else set_arguments None w.

Lemma set_error_same (w : world) : error w = [] → set_error [] w = w.
Proof. intros <-. by destruct w. Qed.

Lemma handle_variable_value id (o : object) name rest parsed (seen : list str) w :
  let d := decl_of id o in
  error w = [] → (∀ long, is_parsed parsed long = bool_decide (long ∈ seen)) →
  handle_variable junk junk_bool id o name rest parsed w =
  match value_for (d_kind d) rest with
  | None => Fail (refused (MissingValue name (d_long d) (d_short d)) w)
  | Some (value, taken) =>
      let w' := set_object id (object_setValue junk junk_bool value o).2 w in
      if negb (accepts (d_kind d) value) then Fail (refused (BadValue name value) w')
      else if negb (d_multiple d) && bool_decide (d_long d ∈ seen) then
        Fail (refused (twice_cause (d_kind d) name) w')
      else Next (set_twice id value o w) (set parsed (d_long d) true) taken
  end.
Proof.
  intros d He Hseen.
  assert (Huse : ∀ value check invalid twice skip,
    (check = false → accepts (kind_of o) value = true) →
    use_value junk junk_bool id o value check invalid twice parsed skip w =
    let w' := set_object id (object_setValue junk junk_bool value o).2 w in
    if negb (accepts (kind_of o) value) then Fail (set_arguments None (invalid w'))
    else if negb (d_multiple d) && bool_decide (d_long d ∈ seen) then
      Fail (set_arguments None (twice w'))
    else Next (set_twice id value o w) (set parsed (d_long d) true) skip).
  { intros value check invalid twice skip Hc. unfold use_value, set_twice.
    pose proof (setValue_accepts value o) as Ha. pose proof (setValue_decl id value o) as Hd.
    destruct (object_setValue junk junk_bool value o) as [ok o1]. simpl in *. subst ok.
    apply (f_equal d_long) in Hd as Hl. apply (f_equal d_multiple) in Hd as Hm. simpl in Hl, Hm.
    rewrite Hl, Hm, Hseen. destruct check; simpl; [done|]. by rewrite Hc. }
  assert (Hs : ∀ v, set_error [] (set_object id v w) = set_object id v w)
    by (intros v; by apply set_error_same).
  unfold handle_variable, d, refused. cbn [decl_of d_kind keeps_vector].
  destruct o as [v|v|v|v]; cbn [isBool kind_of value_for]; destruct rest as [|value rest];
    try destruct (starts_with_dash value); cbn [negb twice_cause keeps_vector message];
    rewrite ?Huse by done; rewrite ?Hs; reflexivity.
Qed.

(** * The effect of one round *)

Lemma alter_nil aid (l : gmap nat (list str)) : alter (λ l, l ++ []) aid l = l.
Proof.
  apply map_eq. intros i. destruct (decide (aid = i)) as [<-|]; [|by rewrite lookup_alter_ne].
  rewrite lookup_alter_eq. destruct (l !! aid); simpl; by rewrite ?app_nil_r.
Qed.

Lemma after_refused w items c :
  after w items None (set_error [] w) → after w items (Some c) (refused c w).
Proof.
  intros []. split; try done; unfold refused; by destruct (keeps_vector c).
Qed.

Lemma after_object i id o o' (w : world) :
  error w = [] → variables w !! id = Some o → extras [i] = [] → help_asked [i] = false →
  variable_after [i] id o = o' → (∀ id', id' ≠ id → use_of id' i = None) →
  after w [i] None (set_object id o' w).
Proof.
  intros He Ho Hx Hh Ho' Hne. split; try done.
  - intros id'. simpl. destruct (decide (id = id')) as [<-|Hd].
    + rewrite lookup_insert_eq, Ho. by rewrite <- Ho'.
    + rewrite lookup_insert_ne by done. destruct (variables w !! id'); [|done]. simpl.
      unfold variable_after. simpl. by rewrite Hne.
  - rewrite Hx. destruct (arguments w); [|done]. by rewrite alter_nil.
  - by rewrite Hh, orb_false_r.
Qed.

Lemma after_assign id value o (w : world) :
  error w = [] → variables w !! id = Some o →
  after w [Assign id value] None (set_twice id value o w).
Proof.
  intros He Ho. unfold set_twice.
  replace (set_object id (object_mark _) _)
    with (set_object id (object_mark (object_setValue junk junk_bool value o).2) w)
    by (unfold set_object; simpl; by rewrite insert_insert_eq).
  apply (after_object _ id o); [done..| |].
  - unfold variable_after. simpl. by rewrite decide_True.
  - intros id' Hne. simpl. by rewrite decide_False.
Qed.

Lemma after_attempt id value o c (w : world) :
  error w = [] → variables w !! id = Some o →
  after w [Attempt id value] (Some c)
    (refused c (set_object id (object_setValue junk junk_bool value o).2 w)).
Proof.
  intros He Ho.
  assert (Ha : after w [Attempt id value] None
                 (set_object id (object_setValue junk junk_bool value o).2 w)).
  { apply (after_object _ id o); [done..| |].
    - unfold variable_after. simpl. by rewrite decide_True.
    - intros id' Hne. simpl. by rewrite decide_False. }
  destruct Ha. split; try done; unfold refused; by destruct (keeps_vector c).
Qed.

Lemma after_nothing c (w : world) : error w = [] → after w [] (Some c) (refused c w).
Proof. intros He. apply after_refused. rewrite set_error_same by done. by apply after_nil. Qed.

Lemma after_help (w : world) : error w = [] → after w [HelpFlag] None (set_help true w).
Proof.
  intros He. split; try done.
  - intros id. simpl. by destruct (variables w !! id).
  - simpl. destruct (arguments w); [|done]. by rewrite alter_nil.
  - simpl. by rewrite orb_true_r.
Qed.

Lemma after_extra arg aid l (w : world) :
  error w = [] → arguments w = Some aid → lists w !! aid = Some l →
  after w [Extra arg] None
    (World (variables w) (<[aid := l ++ [arg]]> (lists w)) (variableList w) (error w)
       (arguments w) (errorOnFlag w) (help w) (helpTexts w)).
Proof.
  intros He Ha Hl. split; try done.
  - intros id. simpl. by destruct (variables w !! id).
  - simpl. rewrite Ha. apply map_eq. intros i.
    destruct (decide (aid = i)) as [<-|]; [|by rewrite lookup_insert_ne, lookup_alter_ne].
    by rewrite lookup_insert_eq, lookup_alter_eq, Hl.
  - simpl. by rewrite orb_false_r.
Qed.

(** * The loop *)

Notation scan_of w := (scan (declarations (variables w) (variableList w))
                         (bool_decide (is_Some (arguments w))) (errorOnFlag w)).

(** What a run of the loop computes. *)
Definition loop_does (w : world) (r : list item * option cause) (run : option (bool * world)) : Prop :=
  ∃ w', run = Some (bool_decide (r.2 = None), w') ∧ after w r.1 r.2 w'.

Lemma loop_does_cons w i w1 r run :
  after w [i] None w1 → loop_does w1 r run → loop_does w (consp i r) run.
Proof. intros Ha (w' & Hr & Ha'). exists w'. split; [done|]. by eapply after_trans. Qed.

Lemma loop_does_refused w items c w' :
  after w items (Some c) w' → loop_does w (items, Some c) (Some (false, w')).
Proof. intros Ha. by exists w'. Qed.

Lemma after_registered w items w' : after w items None w' → registered w → registered w'.
Proof.
  intros [] [Hv Ha]. cbn in af_arguments0. split.
  - intros id Hid. rewrite af_list0 in Hid. rewrite af_variables0.
    destruct (Hv id Hid) as [o ->]. by eexists.
  - intros aid Haid. rewrite af_arguments0 in Haid. rewrite af_lists0, Haid, lookup_alter_eq.
    destruct (Ha aid Haid) as [l ->]. by eexists.
Qed.

Lemma after_scan w items w' : after w items None w' → scan_of w' = scan_of w.
Proof. intros Ha. rewrite (after_decls _ _ _ _ Ha). destruct Ha. cbn in af_arguments0.
  by rewrite af_arguments0, af_flag0. Qed.

Lemma parse_loop_scan n argv parsed seen w :
  (length argv <= n)%nat → registered w → error w = [] →
  (∀ long, is_parsed parsed long = bool_decide (long ∈ seen)) →
  loop_does w (scan_of w argv seen) (parse_loop junk junk_bool argv parsed w).
Proof.
  revert argv parsed seen w. induction n as [|n IH]; intros argv parsed seen w Hn Hr He Hseen.
  { destruct argv; simpl in Hn; [|lia]. exists w. split; [done|by apply after_nil]. }
  destruct argv as [|arg rest]; [exists w; split; [done|by apply after_nil]|].
  assert (Hgo : ∀ i w1 argv parsed' seen', after w [i] None w1 → (length argv <= n)%nat →
    (∀ long, is_parsed parsed' long = bool_decide (long ∈ seen')) →
    loop_does w (consp i (scan_of w argv seen')) (parse_loop junk junk_bool argv parsed' w1)).
  { intros i w1 argv parsed' seen' Ha Hl Hp. eapply loop_does_cons; [done|].
    rewrite <- (after_scan _ _ _ Ha). apply IH; [done|by eapply after_registered|by destruct Ha|done]. }
  assert (Hpush : (length rest <= n)%nat →
    loop_does w (extra_or (bool_decide (is_Some (arguments w))) arg (scan_of w rest seen))
      match push_argument arg parsed w with
      | None => None
      | Some (Fail w) => Some (false, w)
      | Some (Next w parsed skip) =>
          match skip, rest with
          | true, _ :: rest' => parse_loop junk junk_bool rest' parsed w
          | _, _ => parse_loop junk junk_bool rest parsed w
          end
      end).
  { intros Hl. remember (scan_of w rest seen) as r eqn:Er. unfold push_argument, extra_or.
    destruct (arguments w) as [aid|] eqn:Ea.
    - destruct (rg_args _ Hr aid Ea) as [l Hl']. rewrite Hl', bool_decide_eq_true_2 by by eexists.
      rewrite Er. apply Hgo; [|done..]. rewrite <- Ea. by apply after_extra.
    - rewrite bool_decide_eq_false_2 by by intros [? ?].
      apply loop_does_refused. rewrite <- (set_error_same w He) at 2.
      apply (after_nothing NoVector w He). }
  simpl in Hn. cbn [parse_loop scan]. unfold parse_arg.
  destruct (is_flag arg).
  - pose proof (find_variable_lookup (variables w) (drop 1 arg) (variableList w) (rg_vars _ Hr)) as Hf.
    destruct (lookup_flag _ _) as [d|].
    + destruct Hf as (o & -> & Hin & Ho & Hd). rewrite Ho.
      rewrite (handle_variable_value (d_id d) o _ rest parsed seen w He Hseen), <- Hd.
      destruct (value_for (d_kind d) rest) as [[value taken]|].
      * destruct (negb (accepts _ _)); [by apply loop_does_refused, after_attempt|].
        destruct (_ && _); [by apply loop_does_refused, after_attempt|].
        assert (Hp : ∀ long, is_parsed (set parsed (d_long d) true) long =
                             bool_decide (long ∈ d_long d :: seen)).
        { intros long. apply eq_true_iff_eq. rewrite is_parsed_set, bool_decide_eq_true, elem_of_cons.
          by rewrite Hseen, bool_decide_eq_true. }
        destruct taken, rest as [|v rest]; simpl in Hn; apply Hgo; try done; try (simpl; lia);
          by apply after_assign.
      * by apply loop_does_refused, after_nothing.
    + rewrite Hf. destruct (_ || _).
      * apply Hgo; [by apply after_help|lia|done].
      * destruct (errorOnFlag w); [by apply loop_does_refused, after_nothing|]. apply Hpush. lia.
  - destruct arg as [|c arg]; [by apply loop_does_refused, (after_nothing EmptyArgument)|].
    rewrite bool_decide_eq_false_2 by done. apply Hpush. lia.
Qed.

(** * The required variables *)

Lemma isSet_after items id o : isSet (variable_after items id o) = isSet o || assigns id items.
Proof.
  revert o. induction items as [|i items IH]; intros o; [by rewrite orb_false_r|].
  rewrite variable_after_cons, IH. unfold variable_after, assigns.
  assert (Hs : ∀ v, isSet (object_setValue junk junk_bool v o).2 = isSet o).
  { intros v. destruct (object_setValue junk junk_bool v o) as [ok o'] eqn:E.
    by destruct (setValue_static _ _ _ _ _ _ E) as (_ & Hset & _). }
  destruct i as [id' v|id' v| |arg]; simpl; try done; case_decide as Hd;
    unfold take_value; simpl; rewrite ?Hs; try done.
  - destruct (mark_static (object_setValue junk junk_bool v o).2) as (_ & -> & _).
    by rewrite bool_decide_eq_true_2, orb_true_r.
  - by rewrite bool_decide_eq_false_2.
Qed.

Lemma missing_first vars ids items :
  (∀ id, id ∈ ids → ∃ o, vars !! id = Some o ∧ isSet o = assigns id items) →
  missing_required vars ids = Some (first_missing (declarations vars ids) items).
Proof.
  induction ids as [|i ids IH]; intros Hids; [done|].
  destruct (Hids i) as (o & Ho & Hs); [by left|].
  rewrite (declarations_cons _ _ _ o Ho). unfold first_missing. simpl. rewrite Ho, Hs.
  destruct (isRequired o && negb (assigns i items)) eqn:E.
  - by rewrite decide_True.
  - rewrite decide_False by done. rewrite IH by (intros; apply Hids; by right).
    unfold first_missing. by destruct (list_find _ _) as [[]|].
Qed.

(** Items are about declared variables only. *)
Lemma lookup_flag_in decls name d : lookup_flag decls name = Some d → d ∈ decls.
Proof.
  unfold lookup_flag. destruct (list_find _ _) as [[i d']|] eqn:E; [|done].
  intros [= <-]. apply list_find_Some in E as (Hi & _). by eapply list_elem_of_lookup_2.
Qed.

Lemma scan_ids decls has_vector flag_errors id : (∀ d, d ∈ decls → d_id d ≠ id) →
  ∀ n argv seen, (length argv <= n)%nat →
  omap (use_of id) (scan decls has_vector flag_errors argv seen).1 = [].
Proof.
  intros Hid. induction n as [|n IH]; intros [|arg rest] seen Hn; simpl in Hn; try done; [lia|].
  assert (Hx : omap (use_of id)
    (extra_or has_vector arg (scan decls has_vector flag_errors rest seen)).1 = []).
  { unfold extra_or. destruct has_vector; [|done]. simpl. apply IH. lia. }
  cbn [scan]. destruct (is_flag arg).
  - destruct (lookup_flag _ _) as [d|] eqn:E.
    + apply lookup_flag_in, Hid in E. destruct (value_for _ _) as [[value taken]|]; [|done].
      destruct (negb _); [simpl; by rewrite decide_False|].
      destruct (_ && _); [simpl; by rewrite decide_False|].
      simpl. rewrite decide_False by done.
      destruct taken, rest; simpl in Hn; apply IH; simpl; lia.
    + destruct (_ || _); [simpl; apply IH; lia|]. by destruct flag_errors.
  - by destruct (bool_decide _).
Qed.

Lemma meaning_items decls has_vector flag_errors argv :
  (meaning decls has_vector flag_errors argv).1 = (scan decls has_vector flag_errors argv []).1.
Proof. unfold meaning. by destruct (scan _ _ _ _ _) as [items []]. Qed.

(** * The theorem *)

(** What [parseArguments] leaves behind. *)
Record parsed_as (w : world) (items : list item) (c : option cause) (w' : world) : Prop := {
  pa_variables id :
    variables w' !! id =
    (λ o, if decide (id ∈ variableList w) then variable_after items id (object_reset o) else o)
      <$> variables w !! id;
  pa_lists : lists w' = match arguments w with
                        | Some aid => alter (λ l, l ++ extras items) aid (lists w)
                        | None => lists w
                        end;
  pa_list : variableList w' = variableList w;
  pa_error : error w' = errors_of c;
  pa_arguments : arguments w' =
    match c with Some c => if keeps_vector c then arguments w else None | None => None end;
  pa_flag : errorOnFlag w' = errorOnFlag w;
  pa_help : help w' = help_asked items;
  pa_texts : helpTexts w' = helpTexts w
}.

Definition meaning_of (w : world) (argv : list str) : list item * option cause :=
  meaning (declarations (variables w) (variableList w)) (bool_decide (is_Some (arguments w)))
    (errorOnFlag w) argv.

Lemma declarations_in vars ids d : d ∈ declarations vars ids → d_id d ∈ ids.
Proof.
  unfold declarations. intros (id & Hin & Hd)%list_elem_of_omap.
  destruct (vars !! id); simplify_eq/=. done.
Qed.

Lemma parse_as w argv :
  registered w →
  let '(items, c) := meaning_of w argv in
  ∃ w', parseArguments junk junk_bool argv w =
          Some (if c then INVALID_USAGE else SUCCESS, w') ∧ parsed_as w items c w'.
Proof.
  intros Hr. unfold parseArguments.
  destruct (reset_all_some (variableList w) w (rg_vars _ Hr)) as [w1 Hw1]. rewrite Hw1.
  destruct (reset_loop_ok w w1 Hr Hw1) as [Hl Hs].
  destruct (reset_all_vars _ _ _ Hw1) as [E Hv].
  set (w2 := set_help false (set_error [] w1)) in *.
  assert (Hd : scan_of w2 = scan_of w).
  { unfold w2. simpl. rewrite E. simpl. f_equal. apply declarations_ext. intros id. rewrite Hv.
    case_decide; [|done]. destruct (variables w !! id); [|done]. simpl. by rewrite reset_decl. }
  pose proof (parse_loop_scan (length argv) argv [] [] w2 (Nat.le_refl _)
    (lo_registered _ _ Hl) eq_refl (λ _, eq_refl)) as Hrun.
  rewrite Hd in Hrun. destruct Hrun as (w3 & -> & Ha).
  assert (Hvars : ∀ id, variables w3 !! id =
    (λ o, if decide (id ∈ variableList w)
          then variable_after (scan_of w argv []).1 id (object_reset o) else o) <$> variables w !! id).
  { intros id. rewrite (af_variables _ _ _ _ Ha). simpl. rewrite Hv. case_decide as Hin.
    - by destruct (variables w !! id).
    - destruct (variables w !! id) as [o|]; [|done]. simpl. f_equal. unfold variable_after.
      rewrite (scan_ids _ _ _ id) with (n := length argv); [done| |done].
      intros d Hdin <-. by apply declarations_in in Hdin. }
  unfold meaning_of, meaning. destruct (scan_of w argv []) as [items c0] eqn:Escan. simpl in *.
  assert (Hlists : lists w3 = match arguments w with
                      | Some aid => alter (λ l, l ++ extras items) aid (lists w)
                      | None => lists w
                      end).
  { rewrite (af_lists _ _ _ _ Ha). unfold w2. simpl. by rewrite E. }
  set (left_behind c := World (variables w3) (lists w3) (variableList w) (errors_of c)
    (match c with Some c => if keeps_vector c then arguments w else None | None => None end)
    (errorOnFlag w) (help_asked items) (helpTexts w)).
  assert (Hpa : ∀ c, parsed_as w items c (left_behind c)) by (intros c; by split).
  assert (H3 : w3 = World (variables w3) (lists w3) (variableList w) (errors_of c0)
    (match c0 with Some c => if keeps_vector c then arguments w else None | None => arguments w end)
    (errorOnFlag w) (help_asked items) (helpTexts w)).
  { destruct Ha. unfold w2 in *. rewrite E in *. simpl in *. destruct w3. simpl in *. congruence. }
  destruct c0 as [c|].
  - exists w3. split; [done|]. rewrite H3. apply Hpa.
  - assert (Hh : help w3 = help_asked items) by (by rewrite H3).
    assert (Hids : variableList w3 = variableList w) by (by rewrite H3).
    assert (Hn : set_arguments None w3 = left_behind None) by (by rewrite H3).
    simpl. rewrite Hh, Hids. destruct (help_asked items).
    { eexists. split; [done|]. rewrite Hn. apply Hpa. }
    rewrite (missing_first _ _ items).
    + rewrite (declarations_ext (variables w)).
      * destruct (first_missing _ items) as [long|]; simpl; eexists; (split; [done|]).
        -- rewrite H3. apply (Hpa (Some (NotSet long))).
        -- rewrite Hn. apply Hpa.
      * intros id. rewrite Hvars. destruct (variables w !! id); [|done]. simpl.
        case_decide; [|done]. by rewrite variable_after_decl, reset_decl.
    + intros id Hin. rewrite Hvars. destruct (rg_vars _ Hr id Hin) as [o ->]. simpl.
      rewrite decide_True by done. eexists. split; [done|].
      rewrite isSet_after. by destruct (reset_static o) as (_ & -> & _).
Qed.

(** C3: [parseArguments] computes the reference. Whatever the command line is, it
    ends with SUCCESS exactly when the reference gives no cause for a refusal;
    the error is the message of the cause; every variable starts from its
    default and takes, in their order, the values of the items that are about
    it; the extra strings are appended to the argument vector; the help flag
    tells whether an item asked for help; and the vector stays registered
    only after an empty string or a missing required variable. *)
Theorem parse_reference w argv :
  registered w →
  let '(items, c) := meaning_of w argv in
  ∃ w', parseArguments junk junk_bool argv w =
          Some (if c then INVALID_USAGE else SUCCESS, w') ∧ parsed_as w items c w'.
Proof. apply parse_as. Qed.
End ArgSpec.

(** * Evaluation *)

(** One number too many: the first value stays, the second was stored before
    the check. *)
Lemma parse_reference_witness :
  meaning_of (0 : int32) false demo (lit <$> ["-f"; "-n"; "1"; "x"; "--num"; "2"; "y"]) =
    ([Assign 2 (lit "1"); Assign 1 (lit "1"); Extra (lit "x"); Attempt 1 (lit "2")],
     Some (Twice (lit "-num"))) ∧
  ∃ w', parse_demo ["-f"; "-n"; "1"; "x"; "--num"; "2"; "y"] = Some (INVALID_USAGE, w') ∧
    error w' = lit "variable -num doesn't support multiple arguments" ∧
    lists w' !! 0%nat = Some [lit "x"] ∧ arguments w' = None.
Proof.
  assert (Hm : meaning_of (0 : int32) false demo (lit <$> ["-f"; "-n"; "1"; "x"; "--num"; "2"; "y"]) =
    ([Assign 2 (lit "1"); Assign 1 (lit "1"); Extra (lit "x"); Attempt 1 (lit "2")],
     Some (Twice (lit "-num")))) by (vm_compute; reflexivity).
  split; [exact Hm|].
  pose proof (parse_reference (0 : int32) false demo
    (lit <$> ["-f"; "-n"; "1"; "x"; "--num"; "2"; "y"]) demo_registered) as H.
  rewrite Hm in H. destruct H as (w' & Hp & []). exists w'.
  split_and!; [exact Hp|rewrite pa_error0; vm_compute; reflexivity|
    rewrite pa_lists0; vm_compute; reflexivity|exact pa_arguments0].
Defined.
