(* ===== verification/ArgAccess.v ===== *)
(** What a program uses of the argument parser: the macros of
    [argParser/ArgumentParser.h], the reading of a variable
    ([Variable<T>] in [argParser/BasicVariable.h]) and of the arguments
    ([argParser/ArgumentList.h]), and the text of the help. *)

From stdpp Require Import gmap.
From S2P Require Import StdMap Streams ArgParser ArgSpec Prelude.

Local Open Scope Z_scope.

(** * [ArgumentList]

    The member functions are those of the wrapped vector; [None] is an access
    out of range where the source has no check. *)

Definition ArgumentList_size (l : list str) : Z := size l.
Definition ArgumentList_empty (l : list str) : bool := match l with [] => true | _ => false end.

(** [operator[]] *)
Definition ArgumentList_get (l : list str) (n : nat) : option str := l !! n.

(** [at], which throws [std::out_of_range] instead. *)
Inductive access : Type := Value (s : str) | OutOfRange.
Definition ArgumentList_at (l : list str) (n : nat) : access :=
  match l !! n with Some s => Value s | None => OutOfRange end.

Definition ArgumentList_front (l : list str) : option str := head l.
Definition ArgumentList_back (l : list str) : option str := last l.

(** The elements from [begin()] to [end()], and from [rbegin()] to [rend()]. *)
Definition forward (l : list str) : list str := l.
Definition backward (l : list str) : list str := reverse l.

(** * [Variable<T>] *)

Section Variables.
Context {A : Type} `{EqDecision A}.

(** [operator==] and [operator!=] with a [T] on the left and on the right. *)
Definition eq_left (first : A) (second : TypedVariable A) : bool :=
  bool_decide (first = _value second).
Definition eq_right (first : TypedVariable A) (second : A) : bool :=
  bool_decide (_value first = second).
Definition ne_left (first : A) (second : TypedVariable A) : bool :=
  bool_decide (first ≠ _value second).
Definition ne_right (first : TypedVariable A) (second : A) : bool :=
  bool_decide (_value first ≠ second).

(** The conversion to [T]. *)
Definition operator_T (v : TypedVariable A) : A := _value v.

(** [operator<<], with the stream operator of [T]. *)
Definition print `{Streamable A} (v : TypedVariable A) : str := insert_text (_value v).
End Variables.

(** [operator=] returns a reference to the value. *)
Definition operator_assign {A} (val : A) (v : TypedVariable A) : A * TypedVariable A :=
  let v := assign val v in (_value v, v).

(** * The macros *)

Section Macros.
Context {T : Type} `{Streamable T} (junk : T) (junk_bool : bool).
Notation object := (ArgParser.object (T := T)).
Notation world := (ArgParser.world (T := T)).

Definition PARSE_ARGUMENTS (buffer : list str) (w : world) : option (ClockError * world) :=
  parseArguments junk junk_bool buffer w.

(** [parseArguments(++argv, --argc)]: the first string is skipped. *)
Definition PARSE_COMMANDLINE (argv : list str) (w : world) : option (ClockError * world) :=
  parseArguments junk junk_bool (tail argv) w.

Definition GETLASTPARSERERROR (w : world) : str := getLastParserError w.
Definition HELPSET (w : world) : bool := wasHelpSet w.
Definition GETHELPTEXT (w : world) : str := getHelpText w.

Section Register.
Context {A : Type} (mk : TypedVariable A → object) (id : nat) (longname shortname value_text : str)
  (value : A) (description : str).

Definition REGISTER_VARIABLE : world → world :=
  register mk id longname shortname value_text value description false false.
Definition REGISTER_VARIABLE_REQUIRED : world → world :=
  register mk id longname shortname value_text value description true false.
Definition REGISTER_VARIABLE_MULTIPLE : world → world :=
  register mk id longname shortname value_text value description false true.
Definition REGISTER_VARIABLE_MULTIPLE_REQUIRED : world → world :=
  register mk id longname shortname value_text value description true true.
End Register.

Definition REGISTER_VARIABLE_ARGUMENTS (id : nat) : world → world := ArgumentList_new id.

(** * The values of a variable *)

Definition all_values {A} (v : TypedVariable A) : list A := _value v :: _values v.

Lemma count_all {A} (v : TypedVariable A) : count v = size (all_values v).
Proof. unfold count, all_values. simpl. lia. Qed.

Lemma at_all {A} (v : TypedVariable A) i : at_ i v = all_values v !! i.
Proof. by destruct i. Qed.

(** The values a command line gives to a variable. *)
Definition assigned_values (items : list item) (id : nat) : list str :=
  omap (λ i, match i with Assign id' value => if decide (id' = id) then Some value else None | _ => None end)
    items.

(** What the default is replaced by. *)
Definition values_or {A} (d : A) (l : list A) : list A := match l with [] => [d] | _ => l end.

(** A constructor of objects whose [setValue] stores [f] of the string. *)
Definition stores {A} (mk : TypedVariable A → object) (f : str → A) : Prop :=
  (∀ value v, (object_setValue junk junk_bool value (mk v)).2 = mk (store_value (f value) v)) ∧
  (∀ v, object_mark (mk v) = mk (mark_set v)) ∧
  (∀ v, object_reset (mk v) = mk (resetToDefault v)).

Lemma stores_string : stores StringVar (λ s, s).
Proof. done. Qed.

Lemma stores_other : stores OtherVar (λ s, (extract s junk).1).
Proof.
  split_and!; [|done..]. intros value v. simpl. unfold setValue. by destruct (extract value junk).
Qed.

Lemma assigned_values_cons i items id :
  assigned_values (i :: items) id = assigned_values [i] id ++ assigned_values items id.
Proof. unfold assigned_values. csimpl. destruct i; [case_decide|..]; done. Qed.

Section Values.
Context {A : Type} (mk : TypedVariable A → object) (f : str → A) (Hmk : stores mk f).

Lemma take_assign v value : take_value junk junk_bool (mk v) (value, true) = mk (mark_set (store_value (f value) v)).
Proof. destruct Hmk as (Hs & Hm & _). unfold take_value. simpl. by rewrite Hs, Hm. Qed.

Lemma one_item i id v :
  (∀ value, i ≠ Attempt id value) →
  variable_after junk junk_bool [i] id (mk v) =
  mk (match assigned_values [i] id with [value] => mark_set (store_value (f value) v) | _ => v end).
Proof.
  intros Hatt. unfold variable_after, assigned_values. destruct i as [id' value|id' value| |arg]; csimpl; try done.
  - case_decide; csimpl; [apply take_assign|done].
  - rewrite decide_False; [done|]. intros ->. by apply (Hatt value).
Qed.

Lemma values_set items id : ∀ v,
  _set v = true → (∀ value, Attempt id value ∉ items) →
  ∃ v', variable_after junk junk_bool items id (mk v) = mk v' ∧
        all_values v' = all_values v ++ (f <$> assigned_values items id).
Proof.
  induction items as [|i items IH]; intros v Hv Hatt; [exists v; by rewrite app_nil_r|].
  rewrite variable_after_cons, one_item, assigned_values_cons
    by (intros value ->; by apply (Hatt value); left).
  assert (Ha : ∀ value, Attempt id value ∉ items) by (intros value Hin; by apply (Hatt value); right).
  unfold assigned_values at 1 3. csimpl. destruct i as [id' value| | |]; try by apply IH.
  case_decide; [|by apply IH]. csimpl.
  destruct (IH (mark_set (store_value (f value) v)) eq_refl Ha) as (v' & -> & Hall).
  exists v'. split; [done|]. rewrite Hall. unfold all_values, store_value. rewrite Hv. simpl.
  by rewrite <- app_assoc.
Qed.

Lemma values_after items id v :
  (∀ value, Attempt id value ∉ items) →
  ∃ v', variable_after junk junk_bool items id (object_reset (mk v)) = mk v' ∧
        all_values v' = values_or (_defaultValue v) (f <$> assigned_values items id).
Proof.
  destruct Hmk as (_ & _ & ->). 
  induction items as [|i items IH]; intros Hatt; [by exists (resetToDefault v)|].
  rewrite variable_after_cons, one_item, assigned_values_cons
    by (intros value ->; by apply (Hatt value); left).
  assert (Ha : ∀ value, Attempt id value ∉ items) by (intros value Hin; by apply (Hatt value); right).
  unfold assigned_values at 1 3. csimpl. destruct i as [id' value| | |]; try by apply IH.
  case_decide; [|by apply IH]. csimpl.
  destruct (values_set items id (mark_set (store_value (f value) (resetToDefault v))) eq_refl Ha)
    as (v' & -> & Hall).
  exists v'. split; [done|]. by rewrite Hall.
Qed.
End Values.

(** A command line that is not refused has no attempts. *)
Lemma scan_attempts decls has_vector flag_errors :
  ∀ n argv seen, (length argv <= n)%nat →
  (scan junk junk_bool decls has_vector flag_errors argv seen).2 = None →
  ∀ id value, Attempt id value ∉ (scan junk junk_bool decls has_vector flag_errors argv seen).1.
Proof.
  assert (Hc : ∀ i r, (∀ id value, i ≠ Attempt id value) → ∀ (id : nat) (value : str),
    Attempt id value ∉ r.1 → Attempt id value ∉ (consp i r).1).
  { intros i r Hi id value Hr [Hin|Hin]%elem_of_cons; [by apply (Hi id value)|done]. }
  induction n as [|n IH]; intros [|arg rest] seen Hn; simpl in Hn; try lia;
    try (intros _ id value; apply not_elem_of_nil).
  assert (Hx : (extra_or has_vector arg (scan junk junk_bool decls has_vector flag_errors rest seen)).2 = None →
    ∀ id value, Attempt id value ∉
      (extra_or has_vector arg (scan junk junk_bool decls has_vector flag_errors rest seen)).1).
  { unfold extra_or. destruct has_vector; [|done]. intros Hr id value. apply Hc; [done|].
    apply IH; [lia|done]. }
  cbn [scan]. destruct (is_flag arg).
  - destruct (lookup_flag _ _) as [d|].
    + destruct (value_for _ _) as [[v taken]|]; [|done].
      destruct (negb _); [done|]. destruct (_ && _); [done|].
      intros Hr id value. apply Hc; [done|].
      destruct taken, rest; simpl in Hn; apply IH; try done; simpl; lia.
    + destruct (_ || _).
      * intros Hr id value. apply Hc; [done|]. apply IH; [lia|done].
      * by destruct flag_errors.
  - by destruct (bool_decide _).
Qed.

(** C27: what a program reads after a successful parse. A variable of type
    [std::string] has the strings it was given as its values, in their order,
    and its default if there were none; [count] is their number and [at] gives
    each of them. The values of a variable of a streamable type are what the
    extraction makes of these strings. *)
Theorem parse_values w argv items :
  registered w → meaning_of junk junk_bool w argv = (items, None) →
  ∃ w', PARSE_ARGUMENTS argv w = Some (SUCCESS, w') ∧
    (∀ id v, id ∈ variableList w → variables w !! id = Some (StringVar v) →
       let values := values_or (_defaultValue v) (assigned_values items id) in
       ∃ v', variables w' !! id = Some (StringVar v') ∧ count v' = size values ∧
             ∀ i, at_ i v' = values !! i) ∧
    (∀ id v, id ∈ variableList w → variables w !! id = Some (OtherVar v) →
       let values := values_or (_defaultValue v)
                       ((λ s, (extract s junk).1) <$> assigned_values items id) in
       ∃ v', variables w' !! id = Some (OtherVar v') ∧ count v' = size values ∧
             ∀ i, at_ i v' = values !! i).
Proof.
  intros Hr Hm. pose proof (parse_as junk junk_bool w argv Hr) as Hp. rewrite Hm in Hp.
  destruct Hp as (w' & Hp & Hpa). exists w'. split; [exact Hp|].
  assert (Hatt : ∀ id value, Attempt id value ∉ items).
  { unfold meaning_of, meaning in Hm.
    destruct (scan _ _ _ _ _ argv []) as [items' [c|]] eqn:E; [done|]. injection Hm as -> _.
    pose proof (scan_attempts _ _ _ (length argv) argv [] (Nat.le_refl _) (f_equal snd E)) as Ha.
    by rewrite E in Ha. }
  assert (Hvals : ∀ A (mk : TypedVariable A → object) f id v, stores mk f →
    id ∈ variableList w → variables w !! id = Some (mk v) →
    let values := values_or (_defaultValue v) (f <$> assigned_values items id) in
    ∃ v', variables w' !! id = Some (mk v') ∧ count v' = size values ∧ ∀ i, at_ i v' = values !! i).
  { intros A mk f id v Hmk Hid Hv. destruct (values_after mk f Hmk items id v (Hatt id)) as (v' & E & Hall).
    exists v'. rewrite (pa_variables _ _ _ _ _ _ Hpa), Hv. simpl. rewrite decide_True, E by done.
    split_and!; [done|by rewrite count_all, Hall|]. intros i. by rewrite at_all, Hall. }
  split; intros id v Hid Hv.
  - rewrite <- (list_fmap_id (assigned_values items id)). by apply (Hvals _ StringVar).
  - by apply (Hvals _ OtherVar _ _ _ stores_other).
Qed.

(** * The help text *)

Definition addHelpTextLines (l : list (str * str)) (w : world) : world :=
  foldl (λ w line, addHelpTextLine line w) w l.

Lemma addHelpTextLines_spec l (w : world) :
  NoDup l.*1 → (∀ k, k ∈ l.*1 → StdMap.find (helpTexts w) k = None) → StdMap.sorted (helpTexts w) →
  StdMap.sorted (helpTexts (addHelpTextLines l w)) ∧
  helpTexts (addHelpTextLines l w) ≡ₚ l ++ helpTexts w.
Proof.
  revert w. induction l as [|[k t] l IH]; intros w Hnd Hnew Hs; [done|].
  csimpl in Hnd. apply NoDup_cons in Hnd as [Hk Hnd]. unfold addHelpTextLines in *. cbn [foldl].
  assert (E : helpTexts (addHelpTextLine (k, t) w) = StdMap.set (helpTexts w) k t).
  { unfold addHelpTextLine. simpl. by rewrite (Hnew k) by (csimpl; by left). }
  destruct (IH (addHelpTextLine (k, t) w)) as [Hs' Hp]; rewrite ?E.
  - done.
  - intros k' Hk'. rewrite find_set_ne; [apply Hnew; csimpl; by right|]. by intros ->.
  - by apply sorted_set.
  - split; [done|]. rewrite Hp, E, set_perm by (apply Hnew; csimpl; by left).
    symmetry. apply Permutation_middle.
Qed.

(** The help text has the line of every registered variable, ordered by the
    names of the variables, whatever the order of their registration was. *)
Theorem help_text_sorted (w : world) l l' :
  helpTexts w = [] → NoDup l.*1 → l' ≡ₚ l →
  getHelpText (addHelpTextLines l' w) = getHelpText (addHelpTextLines l w) ∧
  ∃ m, StdMap.sorted m ∧ m ≡ₚ l ∧ getHelpText (addHelpTextLines l w) = help_lines m.
Proof.
  intros He Hnd Hp.
  assert (Hs : StdMap.sorted (helpTexts w)) by (rewrite He; constructor).
  destruct (addHelpTextLines_spec l w) as [H1 H2]; [done|by rewrite He|done|].
  destruct (addHelpTextLines_spec l' w) as [H3 H4]; [by rewrite Hp|by rewrite He|done|].
  rewrite He, app_nil_r in H2, H4. unfold getHelpText. split.
  - f_equal. apply sorted_perm_eq; [done..|]. by rewrite H4, Hp, H2.
  - by exists (helpTexts (addHelpTextLines l w)).
Qed.

(** The flags column of a help line. *)
Definition flags_text (longname shortname : str) : str :=
  let text := "009"%char :: lit "--" ++ longname in
  if bool_decide (shortname = no_shortname) then text else text ++ lit ", -" ++ shortname.

(** The columns of the help: if the flags fit in 16 characters and the text
    of the default in 15, the description starts at column 42. *)
Theorem help_text_columns longname shortname value_text description required multiple :
  (length (flags_text longname shortname) <= 16)%nat → (length value_text <= 15)%nat →
  let line := help_text longname shortname value_text description required multiple in
  take (length (flags_text longname shortname)) line = flags_text longname shortname ∧
  take (10 + length value_text) (drop 16 line) = lit "[Default: " ++ value_text ∧
  drop 42 line = description ++ (if required then lit " (required)" else [])
                   ++ (if multiple then lit " (multiple)" else []).
Proof.
  intros Hf Hv line.
  set (pad1 := replicate (16 - length (flags_text longname shortname)) " "%char).
  set (pad2 := replicate (15 - length value_text) " "%char).
  set (suffix := (if required then lit " (required)" else [])
                   ++ (if multiple then lit " (multiple)" else [])).
  assert (E : line = (flags_text longname shortname ++ pad1)
    ++ (lit "[Default: " ++ value_text) ++ (lit "]" ++ pad2) ++ description ++ suffix).
  { unfold line, help_text, suffix. fold (flags_text longname shortname). fold pad1 pad2.
    destruct required, multiple; rewrite ?app_nil_r; by rewrite <- !app_assoc. }
  assert (H1 : length (flags_text longname shortname ++ pad1) = 16%nat)
    by (unfold pad1; rewrite length_app, length_replicate; lia).
  assert (H2 : length (lit "[Default: " ++ value_text) = (10 + length value_text)%nat)
    by (by rewrite length_app).
  assert (H3 : length (lit "]" ++ pad2) = (16 - length value_text)%nat)
    by (unfold pad2; rewrite length_app, length_replicate; simpl; lia).
  rewrite E. split_and!.
  - rewrite <- app_assoc. by rewrite take_app_length.
  - rewrite drop_app_length' by lia. rewrite take_app_length' by lia. reflexivity.
  - replace 42%nat with (16 + (10 + length value_text + (16 - length value_text)))%nat by lia.
    rewrite <- H2, <- H3, <- !drop_drop.
    by rewrite (drop_app_length' _ _ 16), !drop_app_length by lia.
Qed.
End Macros.

(** * Evaluation *)

(** [REGISTER_VARIABLE_MULTIPLE(std::string, name, n, "me", names)]. *)
Definition names_demo : int_world :=
  REGISTER_VARIABLE_MULTIPLE StringVar 3 (lit "name") (lit "N") (lit "me") (lit "me") (lit "names")
    demo.

Lemma names_demo_registered : registered names_demo.
Proof.
  split.
  - intros id [->|[->|[->|[]%not_elem_of_nil]%elem_of_cons]%elem_of_cons]%elem_of_cons; by eexists.
  - intros aid [= <-]. by eexists.
Qed.

Lemma parse_values_witness :
  let argv := lit <$> ["-N"; "a"; "-n"; "7"; "--name"; "b"] in
  ∃ w' v, PARSE_ARGUMENTS (0 : int32) false argv names_demo = Some (SUCCESS, w') ∧
    variables w' !! 3%nat = Some (StringVar v) ∧ count v = 2 ∧ at_ 1 v = Some (lit "b").
Proof.
  intros argv.
  destruct (parse_values (0 : int32) false names_demo argv
    [Assign 3 (lit "a"); Assign 1 (lit "7"); Assign 3 (lit "b")])
    as (w' & Hp & Hs & _); [apply names_demo_registered|vm_compute; reflexivity|].
  edestruct (Hs 3%nat) as (v & Hv & Hc & Hat); [by do 2 right; left|vm_compute; reflexivity|].
  exists w', v. split_and!; [exact Hp|exact Hv|exact Hc|exact (Hat 1%nat)].
Defined.

Lemma help_text_sorted_witness :
  getHelpText (addHelpTextLines [(lit "b", lit "2"); (lit "a", lit "1")] (initial (T := int32))) =
  getHelpText (addHelpTextLines [(lit "a", lit "1"); (lit "b", lit "2")] (initial (T := int32))).
Proof.
  apply help_text_sorted; [done| |apply perm_swap].
  by apply (bool_decide_eq_true (NoDup [lit "a"; lit "b"])).
Defined.

Lemma help_text_columns_witness :
  drop 42 (help_text (lit "flag") (lit "f") (lit "false") (lit "a flag") true false) =
  lit "a flag (required)".
Proof.
  destruct (help_text_columns (lit "flag") (lit "f") (lit "false") (lit "a flag") true false)
    as (_ & _ & E); [simpl; lia..|exact E].
Defined.

(** Access out of range is caught by [at] only. *)
Lemma ArgumentList_bounds (l : list str) n :
  (ArgumentList_at l n = OutOfRange ↔ ArgumentList_size l <= Z.of_nat n) ∧
  (ArgumentList_get l n = None ↔ ArgumentList_size l <= Z.of_nat n) ∧
  (ArgumentList_front l = None ↔ ArgumentList_empty l = true) ∧
  (ArgumentList_back l = None ↔ ArgumentList_empty l = true).
Proof.
  assert (Hl : l !! n = None ↔ ArgumentList_size l <= Z.of_nat n)
    by (rewrite lookup_ge_None; unfold ArgumentList_size; lia).
  unfold ArgumentList_at, ArgumentList_get. split_and!; [|done| |].
  - rewrite <- Hl. by destruct (l !! n).
  - by destruct l.
  - unfold ArgumentList_back. rewrite last_None. by destruct l.
Qed.
