(* ===== verification/SocketErrors.v ===== *)
(** [getLastError] of the sockets: [libs/sockets/src/linux/] and
    [libs/sockets/src/windows/].

    The error numbers of the operating system are their names; the [if] chains
    are the lists of their comparisons, searched from the top. *)

From S2P Require Import Prelude.

(** * Linux *)

(** The values of [errno] that the code names, [EWOULDBLOCK] being [EAGAIN]. *)
Inductive errno : Type :=
| EADDRINUSE | EINTR | EBADF | EACCES | EFAULT | EINVAL | EWOULDBLOCK | EINPROGRESS | EALREADY
| ENOTSOCK | EDESTADDRREQ | EADDRNOTAVAIL | ENETDOWN | ENETUNREACH | ECONNRESET | EISCONN
| ENOTCONN | ESHUTDOWN | ETIMEDOUT | ECONNREFUSED | EHOSTDOWN | EHOSTUNREACH | ECONNABORTED
| EPIPE | EOTHER (n : nat).

#[export] Instance errno_eq_dec : EqDecision errno.
Proof. solve_decision. Defined.

(** The first comparison that holds. *)
Fixpoint first_match {E} `{EqDecision E} (chain : list (E * ClockError)) (e : E) : ClockError :=
  match chain with
  | [] => UNKNOWN
  | (e', r) :: chain' => if decide (e = e') then r else first_match chain' e
  end.

(** [TcpSocket::getLastError] *)
Definition tcp_errors : list (errno * ClockError) :=
  [(EADDRINUSE, ADDRESS_INUSE); (EINTR, NOT_READY); (EBADF, INVALID_USAGE);
   (EACCES, INVALID_USAGE); (EFAULT, INVALID_USAGE); (EINVAL, INVALID_USAGE);
   (EWOULDBLOCK, IN_PROGRESS); (EINPROGRESS, IN_PROGRESS); (EALREADY, NOT_READY);
   (ENOTSOCK, INVALID_USAGE); (EDESTADDRREQ, INVALID_IP); (EADDRNOTAVAIL, INVALID_PORT);
   (ENETDOWN, CONNECTION_FAILED); (ENETUNREACH, CONNECTION_FAILED); (ENETUNREACH, NOT_READY);
   (ECONNRESET, NOT_READY); (EISCONN, INVALID_USAGE); (ENOTCONN, INVALID_USAGE);
   (ESHUTDOWN, INVALID_USAGE); (ETIMEDOUT, TIMEOUT); (ECONNREFUSED, CONNECTION_FAILED);
   (EHOSTDOWN, CONNECTION_FAILED); (EHOSTUNREACH, CONNECTION_FAILED);
   (ECONNABORTED, NOT_CONNECTED); (EPIPE, NOT_CONNECTED)].
Definition tcp_getLastError : errno → ClockError := first_match tcp_errors.

(** [UdpSocket::getLastError] *)
Definition udp_errors : list (errno * ClockError) :=
  [(EADDRINUSE, ADDRESS_INUSE); (EINTR, NOT_READY); (EBADF, INVALID_USAGE);
   (EACCES, INVALID_USAGE); (EFAULT, INVALID_USAGE); (EINVAL, INVALID_USAGE);
   (EWOULDBLOCK, IN_PROGRESS); (EINPROGRESS, IN_PROGRESS); (EALREADY, NOT_READY);
   (ENOTSOCK, INVALID_USAGE); (EDESTADDRREQ, INVALID_IP); (EADDRNOTAVAIL, INVALID_PORT);
   (ENETDOWN, CONNECTION_FAILED); (ENETUNREACH, CONNECTION_FAILED); (ENETUNREACH, NOT_READY);
   (ECONNRESET, NOT_READY); (EISCONN, INVALID_USAGE); (ENOTCONN, INVALID_USAGE);
   (ESHUTDOWN, INVALID_USAGE); (ETIMEDOUT, TIMEOUT); (ECONNREFUSED, CONNECTION_FAILED);
   (EHOSTDOWN, CONNECTION_FAILED); (EHOSTUNREACH, CONNECTION_FAILED);
   (ECONNABORTED, NOT_CONNECTED); (EPIPE, NOT_CONNECTED)].
Definition udp_getLastError : errno → ClockError := first_match udp_errors.

(** * Windows *)

Inductive wsa_error : Type :=
| WSAEADDRINUSE | WSA_INVALID_PARAMETER | WSA_INVALID_HANDLE | WSA_OPERATION_ABORTED | WSAEINTR
| WSAEBADF | WSAEACCES | WSAEFAULT | WSAEINVAL | WSAEWOULDBLOCK | WSAEINPROGRESS | WSAEALREADY
| WSAENOTSOCK | WSAEDESTADDRREQ | WSAEADDRNOTAVAIL | WSAENETDOWN | WSAENETUNREACH
| WSAECONNRESET | WSAEISCONN | WSAENOTCONN | WSAESHUTDOWN | WSAETIMEDOUT | WSAECONNREFUSED
| WSAEHOSTDOWN | WSAEHOSTUNREACH | WSASYSNOTREADY | WSAECONNABORTED | WSAOTHER (n : nat).

#[export] Instance wsa_error_eq_dec : EqDecision wsa_error.
Proof. solve_decision. Defined.

(** [TcpSocket::getLastError] *)
Definition tcp_wsa_errors : list (wsa_error * ClockError) :=
  [(WSAEADDRINUSE, ADDRESS_INUSE); (WSA_INVALID_PARAMETER, INVALID_USAGE);
   (WSA_INVALID_HANDLE, INVALID_USAGE); (WSA_OPERATION_ABORTED, NOT_READY);
   (WSAEINTR, NOT_READY); (WSAEBADF, INVALID_USAGE); (WSAEACCES, INVALID_USAGE);
   (WSAEFAULT, INVALID_USAGE); (WSAEINVAL, INVALID_USAGE); (WSAEWOULDBLOCK, IN_PROGRESS);
   (WSAEINPROGRESS, IN_PROGRESS); (WSAEALREADY, NOT_READY); (WSAENOTSOCK, INVALID_USAGE);
   (WSAEDESTADDRREQ, INVALID_IP); (WSAEADDRNOTAVAIL, INVALID_PORT);
   (WSAENETDOWN, CONNECTION_FAILED); (WSAENETUNREACH, CONNECTION_FAILED);
   (WSAENETUNREACH, NOT_READY); (WSAECONNRESET, NOT_READY); (WSAEISCONN, INVALID_USAGE);
   (WSAENOTCONN, INVALID_USAGE); (WSAESHUTDOWN, INVALID_USAGE); (WSAETIMEDOUT, TIMEOUT);
   (WSAECONNREFUSED, CONNECTION_FAILED); (WSAEHOSTDOWN, CONNECTION_FAILED);
   (WSAEHOSTUNREACH, CONNECTION_FAILED); (WSASYSNOTREADY, NOT_READY);
   (WSAECONNABORTED, NOT_CONNECTED)].
Definition tcp_wsa_getLastError : wsa_error → ClockError := first_match tcp_wsa_errors.

(** [UdpSocket::getLastError] *)
Definition udp_wsa_errors : list (wsa_error * ClockError) :=
  [(WSAEADDRINUSE, ADDRESS_INUSE); (WSA_INVALID_PARAMETER, INVALID_USAGE);
   (WSA_INVALID_HANDLE, INVALID_USAGE); (WSA_OPERATION_ABORTED, NOT_READY);
   (WSAEINTR, NOT_READY); (WSAEBADF, INVALID_USAGE); (WSAEACCES, INVALID_USAGE);
   (WSAEFAULT, INVALID_USAGE); (WSAEINVAL, INVALID_USAGE); (WSAEWOULDBLOCK, IN_PROGRESS);
   (WSAEINPROGRESS, IN_PROGRESS); (WSAEALREADY, NOT_READY); (WSAENOTSOCK, INVALID_USAGE);
   (WSAEDESTADDRREQ, INVALID_IP); (WSAEADDRNOTAVAIL, INVALID_PORT);
   (WSAENETDOWN, CONNECTION_FAILED); (WSAENETUNREACH, CONNECTION_FAILED);
   (WSAENETUNREACH, NOT_READY); (WSAECONNRESET, NOT_READY); (WSAEISCONN, INVALID_USAGE);
   (WSAENOTCONN, INVALID_USAGE); (WSAESHUTDOWN, INVALID_USAGE); (WSAETIMEDOUT, TIMEOUT);
   (WSAECONNREFUSED, CONNECTION_FAILED); (WSAEHOSTDOWN, CONNECTION_FAILED);
   (WSAEHOSTUNREACH, CONNECTION_FAILED); (WSASYSNOTREADY, NOT_READY);
   (WSAECONNABORTED, NOT_CONNECTED)].
Definition udp_wsa_getLastError : wsa_error → ClockError := first_match udp_wsa_errors.

(** * Properties *)

Lemma first_match_in {E} `{EqDecision E} chain (e : E) r :
  first_match chain e = r → r ≠ UNKNOWN → (e, r) ∈ chain.
Proof.
  induction chain as [|[e' r'] chain IH]; simpl; [by intros <-|].
  case_decide as He; intros <- Hr; [subst; by left|right; by apply IH].
Qed.

(** The errors that [read] retries on Linux. *)
Lemma tcp_in_progress e : tcp_getLastError e = IN_PROGRESS ↔ e = EWOULDBLOCK ∨ e = EINPROGRESS.
Proof. split; [|by intros [->| ->]]. destruct e; vm_compute; intros; auto; done. Qed.

Lemma udp_in_progress e : udp_getLastError e = IN_PROGRESS ↔ e = EWOULDBLOCK ∨ e = EINPROGRESS.
Proof. split; [|by intros [->| ->]]. destruct e; vm_compute; intros; auto; done. Qed.

(** On both platforms and for both sockets, [getLastError] never reports
    SUCCESS, reports IN_PROGRESS (on which the reads try again and [connect]
    waits) only for a call that would block or is in progress, and UNKNOWN only
    for errors without a branch. *)
Theorem getLastError_classes :
  (∀ e, tcp_getLastError e = udp_getLastError e ∧ tcp_getLastError e ≠ SUCCESS ∧
     (tcp_getLastError e = IN_PROGRESS ↔ e = EWOULDBLOCK ∨ e = EINPROGRESS) ∧
     (tcp_getLastError e = UNKNOWN ↔ ∃ n, e = EOTHER n)) ∧
  (∀ e, tcp_wsa_getLastError e = udp_wsa_getLastError e ∧ tcp_wsa_getLastError e ≠ SUCCESS ∧
     (tcp_wsa_getLastError e = IN_PROGRESS ↔ e = WSAEWOULDBLOCK ∨ e = WSAEINPROGRESS) ∧
     (tcp_wsa_getLastError e = UNKNOWN ↔ ∃ n, e = WSAOTHER n)).
Proof.
  split; intros e; destruct e; vm_compute; split_and!; try done; naive_solver.
Qed.

(** The second branch for an unreachable network is dead: the value it
    returns, NOT_READY, is never returned for it. *)
Theorem unreachable_branch_dead :
  (ENETUNREACH, NOT_READY) ∈ tcp_errors ∧ tcp_getLastError ENETUNREACH = CONNECTION_FAILED ∧
  (WSAENETUNREACH, NOT_READY) ∈ tcp_wsa_errors ∧
  tcp_wsa_getLastError WSAENETUNREACH = CONNECTION_FAILED.
Proof. split_and!; try reflexivity; apply (bool_decide_eq_true (_ ∈ _)); vm_compute; reflexivity. Qed.
