(* ===== verification/Packet.v ===== *)
(** The packet format of the sockets, common to
    [libs/sockets/src/TcpSocket.cpp] and [libs/sockets/src/UdpSocket.cpp].

    A packet is the byte '|', the length in four bytes, the payload and
    another '|'. [frame] is what [writePacket] writes, [take_chunk] what
    [receivePacket] does with a chunk of data that has arrived: it cuts the
    frames out of the stream again, however the stream is split into chunks. *)

From S2P Require Import Prelude.

Local Open Scope Z_scope.

(** * Model *)

(** The outcome of an operation that reads from the network: undefined behaviour,
    a call that still waits, or a result. *)
Inductive reading (A : Type) : Type := Undefined | Waiting | Returned (a : A).
Arguments Undefined {A}.
Arguments Waiting {A}.
Arguments Returned {A}.

(** The character '|'. *)
Definition bar : Z := 124.

(** The buffer that [writePacket] fills. *)
Definition frame (str : bytes) : bytes :=
  let length := size str in
  [bar; length / 256 / 256 / 256 mod 256; length / 256 / 256 mod 256; length / 256 mod 256;
   length mod 256] ++ str ++ [bar].

(** [uint32_t(result[1] * 256 * 256 * 256 + ...)], computed as an [int];
    [None] is an overflow of the [int]. *)
Definition packet_length (result : bytes) : option Z :=
  let byte i := nth i result 0 in
  let n := byte 1%nat * 256 * 256 * 256 + byte 2%nat * 256 * 256 + byte 3%nat * 256 + byte 4%nat in
  if n <? 2 ^ 31 then Some (u32 n) else None.

(** What [receivePacket] makes of the data so far: an error, another round with
    the new [length] and [result], or a packet with the data behind it. *)
Inductive chunk_result : Type :=
| NoPacket
| Incomplete (length : Z) (result : bytes)
| Packet (buffer rest : bytes).

(** [if (result.size() == 0)]: the data with the chunk [s], [None] if the
    first byte is not '|'. *)
Definition append_chunk (s result : bytes) : option bytes :=
  match result with
  | [] => if nth 0 s 0 =? bar then Some s else None
  | _ => Some (result ++ s)
  end.

(** One round of the loop of [receivePacket] with a nonempty chunk [s] (or, if
    data was left, an empty one); [None] is undefined behaviour. *)
Definition take_chunk (s : bytes) (length : Z) (result : bytes) : option chunk_result :=
  match append_chunk s result with
  | None => Some NoPacket
  | Some result =>
      match (if (length =? 0) && (5 <=? size result) then packet_length result else Some length) with
      | None => None
      | Some length =>
          if u32 (length + 6) <=? size result then
            if length + 5 <=? size result then
              Some (Packet (take (Z.to_nat length) (drop 5 result))
                      (if u32 (length + 6) <? size result then drop (Z.to_nat length + 6) result
                       else []))
            else None
          else Some (Incomplete length result)
      end
  end.

(** * Cutting a frame out of a stream *)

Lemma length_frame p : length (frame p) = (length p + 6)%nat.
Proof. unfold frame. rewrite !length_app. simpl. lia. Qed.

(** Four digits in base 256. *)
Lemma base256 n :
  0 <= n < 2 ^ 32 →
  n / 256 / 256 / 256 mod 256 * 256 * 256 * 256 + n / 256 / 256 mod 256 * 256 * 256
    + n / 256 mod 256 * 256 + n mod 256 = n.
Proof.
  intros Hn. change (2 ^ 32) with (256 * 256 * 256 * 256) in Hn.
  Z.to_euclidean_division_equations. lia.
Qed.

(** Any five bytes of the stream give the length. *)
Lemma packet_length_frame result more p rest :
  result ++ more = frame p ++ rest → size p < 2 ^ 31 → (5 <= length result)%nat →
  packet_length result = Some (size p).
Proof.
  intros E Hp Hl. unfold frame in E.
  do 5 (destruct result as [|? result]; [simpl in Hl; lia|]).
  injection E as -> -> -> -> -> _. unfold packet_length. cbn [nth].
  rewrite base256 by lia. rewrite (proj2 (Z.ltb_lt _ _)) by lia. by rewrite u32_small by lia.
Qed.

Lemma append_chunk_frame s result more p rest :
  result ++ s ++ more = frame p ++ rest → result ++ s ≠ [] →
  append_chunk s result = Some (result ++ s).
Proof.
  intros E Hne. destruct result as [|b result]; [|done]. simpl in *.
  destruct s as [|b s]; [done|]. by injection E as -> _.
Qed.

Section Cut.
Context (p rest : bytes).
Context (Hp : size p < 2 ^ 31).

(** What [length] can be: not yet computed, or right. *)
Definition length_ok (len : Z) : Prop := len = 0 ∨ len = size p.

(** A prefix of the stream that does not hold the whole frame gives another
    round, a longer one the payload and the data behind the frame. *)
Lemma take_chunk_frame s len result more :
  result ++ s ++ more = frame p ++ rest → result ++ s ≠ [] → length_ok len →
  (size (result ++ s) < size p + 6 ∧
     ∃ len', length_ok len' ∧ take_chunk s len result = Some (Incomplete len' (result ++ s))) ∨
  ∃ left, left ++ more = rest ∧ take_chunk s len result = Some (Packet p left).
Proof.
  intros E Hne Hlen. unfold take_chunk. rewrite (append_chunk_frame _ _ _ _ _ E Hne).
  rewrite app_assoc in E. set (all := result ++ s) in *.
  assert (HL : ∃ len', (if (len =? 0) && (5 <=? size all) then packet_length all else Some len)
                       = Some len' ∧ length_ok len' ∧ (size all < 5 ∨ len' = size p)).
  { destruct (len =? 0) eqn:E0; cbn [andb]; bool_to_prop.
    - destruct (5 <=? size all) eqn:E5; bool_to_prop.
      + rewrite (packet_length_frame all more p rest) by (done || lia).
        exists (size p). split_and!; [done|by right|by right].
      + exists len. split_and!; [done..|left; lia].
    - exists len. destruct Hlen; [done|]. split_and!; [done|by right|by right]. }
  destruct HL as (len' & -> & Hlen' & Hcase).
  assert (0 <= len' < 2 ^ 31) by (destruct Hlen'; lia). rewrite u32_small by lia.
  destruct (len' + 6 <=? size all) eqn:Efull; bool_to_prop.
  - right. destruct Hcase as [? | ->]; [lia|].
    rewrite (proj2 (Z.leb_le _ _)) by lia.
    assert (Hall : all = frame p ++ drop (length p + 6) all).
    { rewrite <- (take_drop (length p + 6) all) at 1. f_equal.
      apply (f_equal (take (length p + 6))) in E. rewrite take_app_le in E by lia.
      by rewrite E, take_app_length' by by rewrite length_frame. }
    exists (drop (length p + 6) all). split.
    + rewrite Hall, <- app_assoc in E. by apply app_inv_head in E.
    + rewrite Nat2Z.id. do 2 f_equal.
      * rewrite Hall. unfold frame. simpl. rewrite <- app_assoc. apply take_app_length.
      * destruct (_ <? _) eqn:Elt; bool_to_prop; [done|]. rewrite drop_ge; [done|lia].
  - left. split; [destruct Hcase as [? | ->]; lia|]. by exists len'.
Qed.
End Cut.
