(* ===== verification/TcpSocket.v ===== *)
(** Sending and receiving with [TcpSocket]: [libs/sockets/src/TcpSocket.cpp] and
    [include/clockUtils/sockets/TcpSocket.h].

    What the operating system answers to [send] and [recv] is an argument of
    the operations: the calls of [recv] take their results from a script. An
    operation whose [recv] has no answer yet is [Waiting].

    TCP hands on a stream of bytes in pieces of any size. The packets written
    into the stream are received one by one, whatever the pieces are. *)

From S2P Require Import StdMap Streams SocketErrors Packet Prelude.

Local Open Scope Z_scope.

(** * Model *)

Inductive SocketStatus : Type := INACTIVE | LISTENING | CONNECTED.

#[export] Instance SocketStatus_eq_dec : EqDecision SocketStatus.
Proof. solve_decision. Defined.

(** The descriptor ([None] is [INVALID_SOCKET]), the status and the data that
    arrived behind the last packet. *)
Record TcpSocket : Type := Tcp {
  _sock : option Z;
  _status : SocketStatus;
  _buffer : bytes
}.

Definition set_buffer (b : bytes) (this : TcpSocket) : TcpSocket :=
  {| _sock := _sock this; _status := _status this; _buffer := b |}.

(** ** Sending *)

(** The answer to [send]: the number of bytes taken, or [-1] and [errno]. *)
Inductive send_result : Type := Sent (rc : Z) | SendFailed (e : errno).

(** [write]: the error, and the bytes that [send] took. *)
Definition write (str : bytes) (answer : send_result) (this : TcpSocket) : ClockError * bytes :=
  if decide (_status this = CONNECTED) then
    match answer with
    | SendFailed e => (tcp_getLastError e, [])
    | Sent rc => (if rc =? 0 then NOT_CONNECTED else SUCCESS, take (Z.to_nat rc) str)
    end
  else (NOT_READY, []).

(** [writePacket(const void *, size_t)] *)
Definition writePacket (str : bytes) (answer : send_result) (this : TcpSocket) : ClockError * bytes :=
  if decide (_status this = CONNECTED) then write (frame str) answer this else (NOT_READY, []).

(** [writePacket(const std::vector<uint8_t> &)]; [None] is [vec[0]] of an empty
    vector. *)
Definition writePacket_vector (vec : bytes) (answer : send_result) (this : TcpSocket)
    : option (ClockError * bytes) :=
  if decide (_status this = CONNECTED) then
    match vec with [] => None | _ => Some (writePacket vec answer this) end
  else Some (NOT_READY, []).

(** ** Receiving *)

(** The answer to [recv]: the bytes, none of them being the end of the
    stream, or [-1] and [errno]. *)
Inductive recv_result : Type := Received (chunk : bytes) | RecvFailed (e : errno).

(** The loop of [read]; [buffer] has its first 260 bytes. *)
Fixpoint read_loop (buffer : bytes) (net : list recv_result)
    : reading (ClockError * bytes * list recv_result) :=
  match net with
  | [] => Waiting
  | RecvFailed e :: net' =>
      let error := tcp_getLastError e in
      if decide (error = IN_PROGRESS) then read_loop buffer net'
      else Returned (error, buffer, net')
  | Received [] :: net' => Returned (NOT_CONNECTED, buffer, net')
  | Received chunk :: net' =>
      let buffer := chunk ++ drop (length chunk) buffer in
      Returned (SUCCESS, take (length chunk) buffer, net')
  end.

(** [read<Container>] *)
Definition read (buffer : bytes) (this : TcpSocket) (net : list recv_result)
    : reading (ClockError * bytes * list recv_result) :=
  if decide (_status this = CONNECTED) then
    read_loop (take 260 buffer ++ replicate (260 - length buffer) 0) net
  else Returned (NOT_READY, buffer, net).

(** The loop of [receivePacket]; every round but the first takes an answer from
    the script, so that [length net + 2] rounds are enough. *)
Fixpoint receive_loop (fuel : nat) (buffer : bytes) (skipFirstRead : bool) (length : Z)
    (result : bytes) (this : TcpSocket) (net : list recv_result)
    : reading (ClockError * bytes * TcpSocket * list recv_result) :=
  match fuel with
  | O => Waiting
  | S fuel' =>
      match (if skipFirstRead then Returned (SUCCESS, [], net) else read [] this net) with
      | Undefined => Undefined
      | Waiting => Waiting
      | Returned (error, s, net) =>
          if decide (error = SUCCESS) then
            if negb skipFirstRead && (size s =? 0) then
              receive_loop fuel' buffer false length result this net
            else
              match take_chunk s length result with
              | None => Undefined
              | Some NoPacket => Returned (UNKNOWN, buffer, this, net)
              | Some (Incomplete length result) =>
                  receive_loop fuel' buffer false length result this net
              | Some (Packet packet rest) =>
                  Returned (SUCCESS, packet, set_buffer rest this, net)
              end
          else Returned (error, buffer, this, net)
      end
  end.

(** [receivePacket(std::string &)] *)
Definition receivePacket (buffer : bytes) (this : TcpSocket) (net : list recv_result)
    : reading (ClockError * bytes * TcpSocket * list recv_result) :=
  if decide (_status this = CONNECTED) then
    receive_loop (length net + 2) buffer (negb (size (_buffer this) =? 0)) 0 (_buffer this) this net
  else Returned (NOT_READY, buffer, this, net).

(** [receivePacket(std::vector<uint8_t> &)] *)
Definition receivePacket_vector (buffer : bytes) (this : TcpSocket) (net : list recv_result)
    : reading (ClockError * bytes * TcpSocket * list recv_result) :=
  if decide (_status this = CONNECTED) then
    match receivePacket [] this net with
    | Returned (error, s, this, net) =>
        Returned (error, if decide (error = SUCCESS) then s else buffer, this, net)
    | Undefined => Undefined
    | Waiting => Waiting
    end
  else Returned (NOT_READY, buffer, this, net).

(** The thread of [receiveCallback], as long as nobody closes the socket: the
    calls of the callback. Each round but the last takes a packet, so that a
    bound on the packets is a bound on the rounds. *)
Fixpoint callback_loop (fuel : nat) (this : TcpSocket) (net : list recv_result)
    : list (bytes * ClockError) * reading (TcpSocket * list recv_result) :=
  match fuel with
  | O => ([], Waiting)
  | S fuel' =>
      match _sock this with
      | None => ([], Returned (this, net))
      | Some _ =>
          match receivePacket_vector [] this net with
          | Undefined => ([], Undefined)
          | Waiting => ([], Waiting)
          | Returned (err, buffer, this, net) =>
              if decide (err = SUCCESS) then
                let '(calls, out) := callback_loop fuel' this net in
                ((buffer, err) :: calls, out)
              else ([(buffer, err)], Returned (this, net))
          end
      end
  end.

(** ** Stream operators *)

(** The [char]s of a [std::string] as bytes, and back. *)
Definition to_bytes (s : str) : bytes := (λ c, Z.of_N (N_of_ascii c)) <$> s.
Definition of_bytes (b : bytes) : str := (λ x, ascii_of_N (Z.to_N x)) <$> b.

(** [operator<<] and [operator>>] for a streamable type; [a] is the old value,
    which is left alone by an empty buffer. *)
Definition put {T} `{Streamable T} (a : T) (answer : send_result) (this : TcpSocket)
    : ClockError * bytes := writePacket (to_bytes (insert_text a)) answer this.
Definition take_value {T} `{Streamable T} (a : T) (this : TcpSocket) (net : list recv_result)
    : reading (T * TcpSocket * list recv_result) :=
  match receivePacket [] this net with
  | Undefined => Undefined
  | Waiting => Waiting
  | Returned (_, buffer, this, net) => Returned ((extract (of_bytes buffer) a).1, this, net)
  end.

(** Writing a list of packets, with an answer for each; the bytes of all. *)
Fixpoint write_all (ps : list bytes) (answers : list send_result) (this : TcpSocket)
    : list ClockError * bytes :=
  match ps, answers with
  | p :: ps', a :: answers' =>
      let '(error, sent) := writePacket p a this in
      let '(errors, sent') := write_all ps' answers' this in
      (error :: errors, sent ++ sent')
  | _, _ => ([], [])
  end.

(** Receiving [n] packets, up to the first error. *)
Fixpoint receive_all (n : nat) (this : TcpSocket) (net : list recv_result)
    : reading (list bytes * TcpSocket * list recv_result) :=
  match n with
  | O => Returned ([], this, net)
  | S n' =>
      match receivePacket [] this net with
      | Returned (SUCCESS, p, this, net) =>
          match receive_all n' this net with
          | Returned (ps, this, net) => Returned (p :: ps, this, net)
          | out => out
          end
      | Returned (_, _, this, net) => Returned ([], this, net)
      | Undefined => Undefined
      | Waiting => Waiting
      end
  end.

(** * Receiving a packet *)

(** The bytes that a script delivers. *)
Definition arriving (r : recv_result) : bytes :=
  match r with Received chunk => chunk | RecvFailed _ => [] end.
Definition data (net : list recv_result) : bytes := mjoin (arriving <$> net).

(** No answer ends the stream: data, or an error on which [read] tries again. *)
Definition ready (r : recv_result) : Prop :=
  match r with
  | Received chunk => chunk ≠ []
  | RecvFailed e => tcp_getLastError e = IN_PROGRESS
  end.

(** The answers that make [read] fail, and its error. *)
Definition failure (r : recv_result) : ClockError :=
  match r with Received _ => NOT_CONNECTED | RecvFailed e => tcp_getLastError e end.
Definition fails (r : recv_result) : Prop := arriving r = [] ∧ failure r ≠ IN_PROGRESS.

Lemma fails_error r : fails r → failure r ≠ SUCCESS.
Proof.
  destruct r as [|e]; [done|]. intros _. simpl. by destruct e.
Qed.

Lemma data_cons r net : data (r :: net) = arriving r ++ data net.
Proof. done. Qed.

Lemma data_app net net' : data (net ++ net') = data net ++ data net'.
Proof. unfold data. by rewrite fmap_app, join_app. Qed.

Lemma read_loop_ready net : ∀ buffer tail,
  Forall ready net →
  (data net = [] ∧ read_loop buffer (net ++ tail) = read_loop buffer tail) ∨
  ∃ chunk net', chunk ≠ [] ∧ data net = chunk ++ data net' ∧ Forall ready net' ∧
    (length net' < length net)%nat ∧
    read_loop buffer (net ++ tail) = Returned (SUCCESS, chunk, net' ++ tail).
Proof.
  induction net as [|[chunk|e] net IH]; intros buffer tail Hr; [by left|..];
    apply Forall_cons in Hr as [Hr Hrs]; simpl in Hr.
  - right. exists chunk, net. destruct chunk as [|b chunk]; [done|].
    split_and!; [done..|simpl; lia|]. simpl. by rewrite take_app_length.
  - simpl. rewrite Hr. destruct (decide (IN_PROGRESS = IN_PROGRESS)) as [_|]; [|done].
    destruct (IH buffer tail Hrs) as [H|(chunk & net' & ? & ? & ? & ? & ?)]; [by left|].
    right. exists chunk, net'. split_and!; [done..|lia|done].
Qed.

Section Receive.
Context (this : TcpSocket) (Hthis : _status this = CONNECTED).
Context (p rest : bytes) (Hp : size p < 2 ^ 31) (buffer : bytes).

Lemma read_connected b net :
  read b this net = read_loop (take 260 b ++ replicate (260 - length b) 0) net.
Proof. unfold read. by rewrite decide_True. Qed.

(** The rounds that read [net]: either one of them finds the packet, or the data
    of [net] ends before the packet does and the loop goes on with [tail]. *)
Lemma receive_loop_stream fuel : ∀ k len result net tail more,
  (length net + k < fuel)%nat → Forall ready net → length_ok p len →
  result ++ data net ++ more = frame p ++ rest → size result < size p + 6 →
  (∃ after net', after ++ data net' ++ more = rest ∧ Forall ready net' ∧
     receive_loop fuel buffer false len result this (net ++ tail) =
       Returned (SUCCESS, p, set_buffer after this, net' ++ tail)) ∨
  (size (result ++ data net) < size p + 6 ∧
   ∃ fuel' len' result', (k < fuel')%nat ∧
     receive_loop fuel buffer false len result this (net ++ tail) =
       receive_loop fuel' buffer false len' result' this tail).
Proof.
  induction fuel as [|fuel IH]; intros k len result net tail more Hf Hr Hlen E Hsz; [lia|].
  cbn [receive_loop]. rewrite !read_connected.
  destruct (read_loop_ready net (take 260 [] ++ replicate (260 - length (@nil Z)) 0) tail Hr)
    as [[Hd ->]|(chunk & net' & Hne & Hd & Hr' & Hlt & ->)].
  { right. rewrite Hd, app_nil_r. split; [done|].
    exists (S fuel), len, result. split; [lia|]. cbn [receive_loop]. by rewrite read_connected. }
  rewrite decide_True by done. rewrite Hd in *.
  assert (Hz : size chunk =? 0 = false) by (destruct chunk; [done|by apply Z.eqb_neq]).
  rewrite Hz. cbn [negb andb].
  destruct (take_chunk_frame p rest Hp chunk len result (data net' ++ more))
    as [(Hs & len' & Hlen' & ->)|(after & El & ->)]; [by rewrite <- E, <- app_assoc| |done|..].
  { intros [_ ?]%app_nil. done. }
  - destruct (IH k len' (result ++ chunk) net' tail more)
      as [Hdone|(Hs' & Hgo)]; [lia|done|done|by rewrite <- E, <- !app_assoc|done|by left|].
    right. split; [by rewrite app_assoc|done].
  - left. by exists after, net'.
Qed.

Lemma receivePacket_stream net tail more :
  Forall ready net → _buffer this ++ data net ++ more = frame p ++ rest →
  (∃ after net', after ++ data net' ++ more = rest ∧ Forall ready net' ∧
     receivePacket buffer this (net ++ tail) =
       Returned (SUCCESS, p, set_buffer after this, net' ++ tail)) ∨
  (size (_buffer this ++ data net) < size p + 6 ∧
   ∃ fuel len result, (length tail < fuel)%nat ∧
     receivePacket buffer this (net ++ tail) = receive_loop fuel buffer false len result this tail).
Proof.
  intros Hr E. unfold receivePacket. rewrite decide_True by done. rewrite length_app.
  destruct (size (_buffer this) =? 0) eqn:Eb; bool_to_prop; cbn [negb].
  { apply receive_loop_stream; [lia|done|by left|done|lia]. }
  replace (length net + length tail + 2)%nat with (S (length net + length tail + 1)) by lia.
  cbn [receive_loop]. rewrite decide_True by done. cbn [negb andb].
  destruct (take_chunk_frame p rest Hp [] 0 (_buffer this) (data net ++ more))
    as [(Hs & len' & Hlen' & ->)|(after & El & ->)]; rewrite ?app_nil_r in *; [done| |by left|..].
  { intros H. by rewrite H in Eb. }
  - apply receive_loop_stream; [lia|done..].
  - left. by exists after, net.
Qed.
End Receive.

(** * Streams of packets *)

Section Stream.
Context (this : TcpSocket) (Hthis : _status this = CONNECTED).

(** The data of [net] holds the packet. *)
Lemma receivePacket_frame p rest buffer net tail :
  size p < 2 ^ 31 → Forall ready net → _buffer this ++ data net = frame p ++ rest →
  ∃ after net', after ++ data net' = rest ∧ Forall ready net' ∧
    receivePacket buffer this (net ++ tail) =
      Returned (SUCCESS, p, set_buffer after this, net' ++ tail).
Proof.
  intros Hp Hr E.
  destruct (receivePacket_stream this Hthis p rest Hp buffer net tail [])
    as [(after & net' & Ha & H)|(Hs & _)]; rewrite ?app_nil_r in *; [done..|eauto|].
  rewrite E, length_app, length_frame in Hs. lia.
Qed.

(** The data of [net] ends inside of the packet, then [tail] decides. *)
Lemma receivePacket_partial p more buffer net tail :
  size p < 2 ^ 31 → Forall ready net → _buffer this ++ data net ++ more = frame p →
  more ≠ [] →
  ∃ fuel len result,
    receivePacket buffer this (net ++ tail) =
      receive_loop (S fuel) buffer false len result this tail.
Proof.
  intros Hp Hr E Hm. rewrite <- (app_nil_r (frame p)) in E.
  destruct (receivePacket_stream this Hthis p [] Hp buffer net tail more Hr E)
    as [(after & net' & [_ [_ ?]%app_nil]%app_nil & _)|(_ & fuel & len & result & Hf & H)]; [done|].
  destruct fuel as [|fuel]; [lia|]. eauto.
Qed.

Lemma receivePacket_fails p more buffer net r tail :
  size p < 2 ^ 31 → Forall ready net → _buffer this ++ data net ++ more = frame p →
  more ≠ [] → fails r →
  receivePacket buffer this (net ++ r :: tail) = Returned (failure r, buffer, this, tail).
Proof.
  intros Hp Hr E Hm Hf.
  destruct (receivePacket_partial p more buffer net (r :: tail) Hp Hr E Hm) as (fuel & len & result & ->).
  cbn [receive_loop]. rewrite read_connected by done. pose proof (fails_error r Hf).
  destruct r as [chunk|e], Hf as [Ha Hf]; simpl in *; [by subst chunk|].
  by rewrite decide_False, decide_False by done.
Qed.

End Stream.

Lemma set_buffer_same this : set_buffer (_buffer this) this = this.
Proof. by destruct this. Qed.

Lemma receive_all_frames ps : ∀ this net rest,
  _status this = CONNECTED → Forall (λ p, size p < 2 ^ 31) ps → Forall ready net →
  _buffer this ++ data net = mjoin (frame <$> ps) ++ rest →
  ∃ after net', after ++ data net' = rest ∧
    receive_all (length ps) this net = Returned (ps, set_buffer after this, net').
Proof.
  induction ps as [|p ps IH]; intros this net rest Hc Hps Hr E.
  { exists (_buffer this), net. split; [done|]. by rewrite set_buffer_same. }
  apply Forall_cons in Hps as [Hp Hps]. csimpl in E. rewrite <- app_assoc in E.
  destruct (receivePacket_frame this Hc p _ [] net [] Hp Hr E) as (b & net1 & Eb & Hr1 & H).
  rewrite !app_nil_r in H.
  destruct (IH (set_buffer b this) net1 rest) as (after & net' & Ea & Hall); [done..|].
  exists after, net'. split; [done|]. simpl. by rewrite H, Hall.
Qed.

(** The answer of a [send] that takes the whole packet. *)
Definition sent_completely (p : bytes) : send_result := Sent (size p + 6).

Lemma writePacket_sent p this :
  _status this = CONNECTED → writePacket p (sent_completely p) this = (SUCCESS, frame p).
Proof.
  intros Hc. unfold writePacket, write, sent_completely. rewrite !decide_True by done.
  rewrite (proj2 (Z.eqb_neq _ _)) by lia. rewrite take_ge; [done|]. rewrite length_frame. lia.
Qed.

Lemma write_all_sent ps this :
  _status this = CONNECTED →
  write_all ps (sent_completely <$> ps) this = (replicate (length ps) SUCCESS, mjoin (frame <$> ps)).
Proof.
  intros Hc. induction ps as [|p ps IH]; [done|].
  cbn [fmap list_fmap write_all]. by rewrite writePacket_sent, IH.
Qed.

(** C7: packets written on one side are received on the other side, unchanged
    and in order, however the network cuts and delays the stream: if every
    [send] takes its whole packet and [recv] hands over the bytes that were
    sent (behind what the receiver still had), in pieces of any size and with
    any number of calls that would have blocked, then [receivePacket] returns
    exactly the payloads, and no byte is left. *)
Theorem tcp_packets ps sender receiver net :
  _status sender = CONNECTED → _status receiver = CONNECTED →
  Forall (λ p, size p < 2 ^ 31) ps → Forall ready net →
  _buffer receiver ++ data net = (write_all ps (sent_completely <$> ps) sender).2 →
  (write_all ps (sent_completely <$> ps) sender).1 = replicate (length ps) SUCCESS ∧
  ∃ net', data net' = [] ∧
    receive_all (length ps) receiver net = Returned (ps, set_buffer [] receiver, net').
Proof.
  intros Hs Hc Hps Hr E. rewrite write_all_sent in * by done. split; [done|]. cbn [snd] in E.
  rewrite <- (app_nil_r (mjoin _)) in E.
  destruct (receive_all_frames ps receiver net [] Hc Hps Hr E)
    as (after & net' & [-> ?]%app_nil & Hx). eauto.
Qed.

(** C34: if the connection ends or fails inside of a packet, [receivePacket]
    returns that error, never a part of the packet, and leaves the socket as it
    was; if there is no answer yet, it waits. The data that this call has read
    is gone. *)
Theorem receive_inside_packet this p more buffer net :
  _status this = CONNECTED → size p < 2 ^ 31 → Forall ready net →
  _buffer this ++ data net ++ more = frame p → more ≠ [] →
  receivePacket buffer this net = Waiting ∧
  ∀ r tail, fails r →
    receivePacket buffer this (net ++ r :: tail) = Returned (failure r, buffer, this, tail).
Proof.
  intros Hc Hp Hr E Hm. split.
  - destruct (receivePacket_partial this Hc p more buffer net [] Hp Hr E Hm)
      as (fuel & len & result & H). rewrite app_nil_r in H. rewrite H. cbn [receive_loop].
    by rewrite read_connected.
  - intros r tail Hf. by apply (receivePacket_fails this Hc p more).
Qed.

Lemma callback_frames ps : ∀ this fd net r tail fuel,
  _status this = CONNECTED → _sock this = Some fd → Forall (λ p, size p < 2 ^ 31) ps →
  Forall ready net → _buffer this ++ data net = mjoin (frame <$> ps) → fails r →
  (length ps < fuel)%nat →
  callback_loop fuel this (net ++ r :: tail) =
    (((λ p, (p, SUCCESS)) <$> ps) ++ [([], failure r)], Returned (set_buffer [] this, tail)).
Proof.
  induction ps as [|p ps IH]; intros this fd net r tail fuel Hc Hfd Hps Hr E Hf Hfuel;
    destruct fuel as [|fuel]; try (simpl in Hfuel; lia); cbn [callback_loop]; rewrite Hfd;
    unfold receivePacket_vector; rewrite decide_True by done.
  - apply app_nil in E as [Eb Ed].
    rewrite (receivePacket_fails this Hc [] (frame []) [] net r tail) by
      (done || by rewrite Eb, Ed).
    rewrite !decide_False by by apply fails_error. rewrite <- Eb. by rewrite set_buffer_same.
  - apply Forall_cons in Hps as [Hp Hps]. csimpl in E.
    destruct (receivePacket_frame this Hc p (mjoin (frame <$> ps)) [] net (r :: tail) Hp Hr)
      as (b & net1 & Eb & Hr1 & ->); [by rewrite E|].
    rewrite !decide_True by done. simpl in Hfuel.
    by rewrite (IH (set_buffer b this) fd net1 r tail fuel) by (done || lia).
Qed.

(** C40: if the buffer of a connected socket and what it receives, in any pieces
    and with any number of retries, make up packets below 2 GiB, and the next answer
    is the end of the stream or an error, the thread of [receiveCallback] calls the
    callback once with SUCCESS for every packet, in order, then once with the
    error that ends the connection, and stops with an empty buffer. *)
Theorem callback_delivers ps this fd net r tail :
  _status this = CONNECTED → _sock this = Some fd → Forall (λ p, size p < 2 ^ 31) ps →
  Forall ready net → _buffer this ++ data net = mjoin (frame <$> ps) → fails r →
  callback_loop (length ps + 1) this (net ++ r :: tail) =
    (((λ p, (p, SUCCESS)) <$> ps) ++ [([], failure r)], Returned (set_buffer [] this, tail)).
Proof. intros. apply (callback_frames ps this fd); [done..|lia]. Qed.

(** * Values *)

Lemma of_to_bytes s : of_bytes (to_bytes s) = s.
Proof.
  unfold of_bytes, to_bytes. rewrite <- list_fmap_compose. rewrite <- (list_fmap_id s) at 2.
  apply list_fmap_ext. intros i c _. simpl. by rewrite N2Z.id, ascii_N_embedding.
Qed.

Lemma length_to_bytes s : length (to_bytes s) = length s.
Proof. apply length_fmap. Qed.

(** A value sent with [<<] is received with [>>] as the same value, for
    every type whose stream operators are inverse to each other, and the bytes
    behind it stay for the next call. *)
Theorem tcp_value_roundtrip {T} `{StreamableSpec T} (x old : T) sender receiver net rest :
  _status sender = CONNECTED → _status receiver = CONNECTED → stream_ok x →
  size (insert_text x) < 2 ^ 31 → Forall ready net →
  _buffer receiver ++ data net =
    (put x (sent_completely (to_bytes (insert_text x))) sender).2 ++ rest →
  ∃ after net', after ++ data net' = rest ∧
    take_value old receiver net = Returned (x, set_buffer after receiver, net').
Proof.
  intros Hs Hc Hx Hsz Hr E. unfold put in E. rewrite writePacket_sent in E by done. cbn [snd] in E.
  destruct (receivePacket_frame receiver Hc (to_bytes (insert_text x)) rest [] net [])
    as (after & net' & Ha & _ & Hrec); [by rewrite length_to_bytes|done..|].
  rewrite !app_nil_r in Hrec. exists after, net'. split; [done|].
  unfold take_value. rewrite Hrec, of_to_bytes, (extract_insert x old Hx). done.
Qed.

(** * Errors *)

(** A socket that is not connected sends nothing, takes nothing from the
    network, keeps its state and reports NOT_READY. *)
Theorem not_connected_refuses this :
  _status this ≠ CONNECTED →
  (∀ str answer, write str answer this = (NOT_READY, [])) ∧
  (∀ str answer, writePacket str answer this = (NOT_READY, [])) ∧
  (∀ vec answer, writePacket_vector vec answer this = Some (NOT_READY, [])) ∧
  (∀ buffer net, read buffer this net = Returned (NOT_READY, buffer, net)) ∧
  (∀ buffer net, receivePacket buffer this net = Returned (NOT_READY, buffer, this, net)) ∧
  (∀ buffer net, receivePacket_vector buffer this net = Returned (NOT_READY, buffer, this, net)).
Proof.
  intros Hc.
  unfold write, writePacket, writePacket_vector, read, receivePacket, receivePacket_vector.
  split_and!; intros; by rewrite decide_False.
Qed.

(** * Examples *)

Definition peer : TcpSocket := {| _sock := Some 3; _status := CONNECTED; _buffer := [] |}.

(** Two packets in three pieces, with calls that would have blocked. *)
Definition demo_packets : list bytes := [[65; 66]; []].
Definition demo_net : list recv_result :=
  [Received [124; 0]; RecvFailed EWOULDBLOCK; Received [0; 0; 2; 65; 66; 124; 124; 0; 0];
   Received [0; 0; 124]].

Lemma demo_ready : Forall ready demo_net.
Proof. repeat constructor; discriminate. Qed.

Lemma demo_short : Forall (λ p : bytes, size p < 2 ^ 31) demo_packets.
Proof. repeat constructor. Qed.

Lemma tcp_packets_witness :
  ∃ net', data net' = [] ∧
    receive_all 2 peer demo_net = Returned (demo_packets, set_buffer [] peer, net').
Proof.
  apply (tcp_packets demo_packets peer peer demo_net); try reflexivity.
  - apply demo_short.
  - apply demo_ready.
Defined.

Lemma receive_inside_packet_witness :
  receivePacket [] peer ([Received [124; 0]] ++ Received [] :: []) =
    Returned (NOT_CONNECTED, [], peer, []).
Proof.
  apply (receive_inside_packet peer [65] [0; 0; 1; 65; 124] [] [Received [124; 0]]);
    try reflexivity; try discriminate.
  - repeat constructor. discriminate.
  - split; [reflexivity|discriminate].
Defined.

Lemma callback_delivers_witness :
  callback_loop 3 peer (demo_net ++ Received [] :: []) =
    ([([65; 66], SUCCESS); ([], SUCCESS); ([], NOT_CONNECTED)], Returned (peer, [])).
Proof.
  apply (callback_delivers demo_packets peer 3 demo_net); try reflexivity.
  - apply demo_short.
  - apply demo_ready.
  - split; [reflexivity|discriminate].
Defined.

Definition value_net : list recv_result := [Received [124; 0; 0; 0; 2; 52]; Received [50; 124; 7]].

Lemma tcp_value_roundtrip_witness :
  ∃ after net', after ++ data net' = [7] ∧
    take_value (T := int32) 0 peer value_net = Returned (42, set_buffer after peer, net').
Proof.
  apply (tcp_value_roundtrip (T := int32) 42 0 peer peer value_net [7]); try reflexivity.
  - vm_compute. intuition discriminate.
  - repeat constructor; discriminate.
Defined.

Lemma not_connected_refuses_witness :
  write [1] (Sent 1) {| _sock := None; _status := INACTIVE; _buffer := [] |} = (NOT_READY, []).
Proof. apply not_connected_refuses. discriminate. Defined.

(** After an error inside of a packet the stream is out of step: a [recv]
    that is interrupted by a signal makes [receivePacket] drop the beginning of
    the packet, and the next call, which reads the rest of it, fails with
    UNKNOWN although the connection is intact. *)
Theorem receive_error_desyncs :
  let net := [Received [124; 0; 0; 0; 2; 65]; RecvFailed EINTR; Received [66; 124]] in
  data net = frame [65; 66] ∧
  receivePacket [] peer net = Returned (NOT_READY, [], peer, [Received [66; 124]]) ∧
  receivePacket [] peer [Received [66; 124]] = Returned (UNKNOWN, [], peer, []).
Proof. split_and!; reflexivity. Qed.

(** [write] reports SUCCESS when [send] took only a part of the data: half
    of a packet is sent, and the next packet of the sender is received as its
    second half. *)
Theorem partial_write_desyncs :
  writePacket [65; 66] (Sent 6) peer = (SUCCESS, [124; 0; 0; 0; 2; 65]) ∧
  writePacket [67] (sent_completely [67]) peer = (SUCCESS, frame [67]) ∧
  receivePacket [] peer [Received [124; 0; 0; 0; 2; 65]; Received (frame [67])] =
    Returned (SUCCESS, [65; 124], set_buffer [0; 0; 1; 67; 124] peer, []).
Proof. split_and!; reflexivity. Qed.
