(* ===== verification/TcpConnection.v ===== *)
(** The life of a [TcpSocket]: [listen], [listenFunc], [connect], [close],
    [closeSocket] and [receiveCallback] of [libs/sockets/src/TcpSocket.cpp],
    with [resolveHostname] of [libs/sockets/src/Commons.cpp].

    A connection is the socket, its threads and the descriptors that its calls
    of [socket] have opened. The answers of the system calls are arguments. The
    listen thread makes one step per call of [accept], interleaved with the
    operations of the owner.

    Whatever the system calls answer and however the steps interleave, the socket
    loses none of its own descriptors, those that [socket] returned, and closes none
    twice; a failed [listen] or [connect] leaves no trace. A descriptor that [accept]
    returned goes to the accept callback, unless the destructor has set
    [_terminate]: then it is dropped and stays open ([accept_leaks]). *)

From stdpp Require Import gmap.
From S2P Require Import StdMap SocketErrors Packet TcpSocket Transition Prelude.

Local Open Scope Z_scope.

(** * Model *)

(** The listen thread: in its loop, or at its end but not yet joined. *)
Inductive listen_thread : Type := Running (acceptMultiple : bool) | Finished.

(** [fds] has the open descriptors among those that the socket's calls of [socket]
    (or, for an accepted one, its constructor) got, with their status flags; [stray]
    tells whether a descriptor that is not in [fds] has been closed. Not in [fds] are
    the descriptors that [accept] returned: [accepted] are those that became sockets
    of their own, [leaked] those that were dropped without being closed. [calls] are
    the calls of the accept callback. *)
Record conn : Type := Conn {
  socket : TcpSocket;
  fds : gmap Z Z;
  stray : bool;
  listenThread : option listen_thread;
  callbackThread : bool;
  terminate : bool;
  accepted : list Z;
  leaked : list Z;
  calls : list (option Z * ClockError)
}.

(** The constructors. *)
Definition TcpSocket_new : conn :=
  Conn {| _sock := None; _status := INACTIVE; _buffer := [] |} ∅ false None false false [] [] [].
Definition TcpSocket_accepted (fd flags : Z) : conn :=
  Conn {| _sock := Some fd; _status := CONNECTED; _buffer := [] |} {[fd := flags]} false None
    false false [] [] [].

Definition set_socket (s : TcpSocket) (c : conn) : conn :=
  Conn s (fds c) (stray c) (listenThread c) (callbackThread c) (terminate c) (accepted c) (leaked c)
    (calls c).
Definition set_status (st : SocketStatus) (c : conn) : conn :=
  set_socket {| _sock := _sock (socket c); _status := st; _buffer := _buffer (socket c) |} c.
Definition set_sock (fd : option Z) (c : conn) : conn :=
  set_socket {| _sock := fd; _status := _status (socket c); _buffer := _buffer (socket c) |} c.
Definition set_listenThread (t : option listen_thread) (c : conn) : conn :=
  Conn (socket c) (fds c) (stray c) t (callbackThread c) (terminate c) (accepted c) (leaked c)
    (calls c).
Definition set_callbackThread (b : bool) (c : conn) : conn :=
  Conn (socket c) (fds c) (stray c) (listenThread c) b (terminate c) (accepted c) (leaked c)
    (calls c).
Definition set_terminate (c : conn) : conn :=
  Conn (socket c) (fds c) (stray c) (listenThread c) (callbackThread c) true (accepted c) (leaked c)
    (calls c).
Definition call_back (sock : option Z) (error : ClockError) (c : conn) : conn :=
  Conn (socket c) (fds c) (stray c) (listenThread c) (callbackThread c) (terminate c)
    (accepted c ++ option_list sock) (leaked c) (calls c ++ [(sock, error)]).
Definition leak (fd : Z) (c : conn) : conn :=
  Conn (socket c) (fds c) (stray c) (listenThread c) (callbackThread c) (terminate c)
    (accepted c) (leaked c ++ [fd]) (calls c).

(** [_sock = socket(...)] with a new descriptor, [fcntl(_sock, F_SETFL, flags)]
    and [::close(fd)]. *)
Definition set_fds (m : gmap Z Z) (str : bool) (c : conn) : conn :=
  Conn (socket c) m str (listenThread c) (callbackThread c) (terminate c) (accepted c) (leaked c)
    (calls c).
Definition open_fd (fd flags : Z) (c : conn) : conn :=
  set_sock (Some fd) (set_fds (<[fd := flags]> (fds c)) (stray c) c).
Definition set_flags (flags : Z) (c : conn) : conn :=
  match _sock (socket c) with
  | Some fd => set_fds (<[fd := flags]> (fds c)) (stray c) c
  | None => c
  end.
Definition close_fd (fd : Z) (c : conn) : conn :=
  set_fds (delete fd (fds c)) (stray c || negb (bool_decide (is_Some (fds c !! fd)))) c.

(** [closeSocket] *)
Definition closeSocket (c : conn) : conn :=
  match _sock (socket c) with
  | Some fd => set_sock None (close_fd fd c)
  | None => c
  end.

(** ** Listening *)

(** The answers to [socket] (a descriptor and its flags, or [errno]),
    [setsockopt], [bind] and [listen] ([Some e] is [-1] with [errno]). *)
Record listen_answers : Type := {
  l_socket : Z * Z + errno;
  l_setsockopt : option errno;
  l_bind : option errno;
  l_listen : option errno
}.

Definition listen (listenPort maxParallelConnections : Z) (acceptMultiple : bool)
    (a : listen_answers) (c : conn) : ClockError * conn :=
  if listenPort =? 0 then (INVALID_PORT, c)
  else if maxParallelConnections <? 0 then (INVALID_ARGUMENT, c)
  else if negb (bool_decide (_status (socket c) = INACTIVE)) then (INVALID_USAGE, c)
  else
    match l_socket a with
    | inr e => (tcp_getLastError e, set_sock None c)
    | inl (fd, flags) =>
        let c := open_fd fd flags c in
        match l_setsockopt a with
        | Some e => (tcp_getLastError e, closeSocket c)
        | None =>
            match l_bind a with
            | Some e => (tcp_getLastError e, closeSocket c)
            | None =>
                match l_listen a with
                | Some e => (tcp_getLastError e, closeSocket c)
                | None =>
                    (SUCCESS,
                     set_listenThread (Some (Running acceptMultiple)) (set_status LISTENING c))
                end
            end
        end
    end.

(** One round of the loop of [listenFunc], with the answer to [accept]. *)
Definition listenFunc_round (acceptMultiple : bool) (answer : Z + errno) (c : conn) : conn :=
  match answer with
  | inr e =>
      let c := if terminate c then c
               else closeSocket (call_back None (tcp_getLastError e) c) in
      set_listenThread (Some Finished) c
  | inl clientSock =>
      if terminate c then set_listenThread (Some Finished) (leak clientSock c)
      else
        let c := call_back (Some clientSock) SUCCESS c in
        if acceptMultiple then c
        else set_listenThread (Some Finished) (closeSocket c)
  end.

(** ** Connecting *)

(** The answers to [socket], [fcntl] (reading and setting the flags),
    [::connect], [select] (whether it is positive), [getsockopt] (the pending
    error) and the [fcntl] that resets the flags. *)
Record connect_answers : Type := {
  c_socket : Z * Z + errno;
  c_getfl : Z + errno;
  c_setfl : option errno;
  c_connect : option errno;
  c_select : bool;
  c_valopt : Z;
  c_reset : option errno
}.

Definition NO_IP : Z := 0xFFFFFFFF.
Definition INADDR_ANY : Z := 0.
Definition O_NONBLOCK : Z := 0x800.

(** [::connect] with the wait for its completion: the error to return, if any. *)
Definition connect_wait (a : connect_answers) : option ClockError :=
  match c_connect a with
  | None => None
  | Some e =>
      let error := tcp_getLastError e in
      if bool_decide (error = IN_PROGRESS) then
        if c_select a then
          if negb (c_valopt a =? 0) then Some CONNECTION_FAILED else None
        else Some TIMEOUT
      else Some error
  end.

(** [connect]. The second [fcntl] stores its result, zero, in [arg]: the flags
    are reset to zero at the end. *)
Definition connect (remoteIP remotePort : Z) (a : connect_answers) (c : conn) : ClockError * conn :=
  if remotePort =? 0 then (INVALID_PORT, c)
  else if remoteIP =? NO_IP then (INVALID_IP, c)
  else if (remoteIP =? NO_IP) || (remoteIP =? INADDR_ANY) then (INVALID_IP, c)
  else if negb (bool_decide (_status (socket c) = INACTIVE)) then (INVALID_USAGE, c)
  else
    match c_socket a with
    | inr e => (tcp_getLastError e, set_sock None c)
    | inl (fd, flags) =>
        let c := open_fd fd flags c in
        match c_getfl a with
        | inr e => (tcp_getLastError e, closeSocket c)
        | inl arg =>
            match c_setfl a with
            | Some e => (tcp_getLastError e, closeSocket c)
            | None =>
                let c := set_flags (Z.lor arg O_NONBLOCK) c in
                match connect_wait a with
                | Some error => (error, closeSocket c)
                | None =>
                    let c := match c_reset a with
                             | None => set_flags (Z.land 0 (Z.lnot O_NONBLOCK)) c
                             | Some _ => c
                             end in
                    (SUCCESS, set_status CONNECTED c)
                end
            end
        end
    end.

(** [resolveHostname]; the argument is the list that [getaddrinfo] returns, or
    [None] for an error. *)
Definition resolveHostname (servinfo : option (list Z)) : Z :=
  match servinfo with
  | None => NO_IP
  | Some l => foldl (λ _ addr, addr) NO_IP l
  end.

(** [connectToIP] and [connectToHostname]; [ip] is the result of [convertIP]. *)
Definition connectToIP (ip remotePort : Z) (a : connect_answers) (c : conn) : ClockError * conn :=
  if ip =? NO_IP then (INVALID_IP, c) else connect ip remotePort a c.
Definition connectToHostname (servinfo : option (list Z)) (remotePort : Z) (a : connect_answers)
    (c : conn) : ClockError * conn :=
  let ip := resolveHostname servinfo in
  if ip =? NO_IP then (INVALID_IP, c) else connect ip remotePort a c.

(** ** Callback and close *)

(** [receiveCallback], once the old callback thread has been joined. *)
Definition receiveCallback (c : conn) : ClockError * conn :=
  if negb (bool_decide (_status (socket c) = CONNECTED)) then (NOT_READY, c)
  else (SUCCESS, set_callbackThread true c).

(** The [join] of the listen thread: its [accept] fails with [e], the descriptor
    having been closed. *)
Definition join_listenThread (e : errno) (c : conn) : conn :=
  match listenThread c with
  | None => c
  | Some (Running multiple) =>
      set_listenThread None (listenFunc_round multiple (inr e) c)
  | Some Finished => set_listenThread None c
  end.

(** [close]; [self] tells whether the callback thread calls it, in which case
    its [join] throws and the thread stays. *)
Definition close (self : bool) (e : errno) (c : conn) : conn :=
  if bool_decide (_status (socket c) = INACTIVE) then c
  else
    let c := match _sock (socket c) with
             | Some fd => set_sock None (close_fd fd c)
             | None => c
             end in
    let c := join_listenThread e c in
    let c := if self then c else set_callbackThread false c in
    set_status INACTIVE c.

(** The destructor. *)
Definition TcpSocket_delete (e : errno) (c : conn) : conn := close false e (set_terminate c).

(** ** Interleavings *)

(** A new descriptor is not open yet. *)
Definition fresh (r : Z * Z + errno) (c : conn) : Prop :=
  match r with inl (fd, _) => fds c !! fd = None | inr _ => True end.

(** The steps, with the descriptors that [accept] returns in them. *)
Inductive conn_step : list Z → conn → conn → Prop :=
| step_listen port n multiple a c :
    fresh (l_socket a) c → conn_step [] c (listen port n multiple a c).2
| step_accept multiple answer c :
    listenThread c = Some (Running multiple) →
    conn_step (match answer with inl fd => [fd] | inr _ => [] end) c
              (listenFunc_round multiple answer c)
| step_connect ip port a c :
    fresh (c_socket a) c → conn_step [] c (connect ip port a c).2
| step_receiveCallback c : conn_step [] c (receiveCallback c).2
| step_close self e c : conn_step [] c (close self e c)
| step_terminate c : conn_step [] c (set_terminate c).

(** Executions, with all the descriptors that [accept] has returned, in order. *)
Inductive conn_run (c0 : conn) : list Z → conn → Prop :=
| run_start : conn_run c0 [] c0
| run_step clients new c c' :
    conn_run c0 clients c → conn_step new c c' → conn_run c0 (clients ++ new) c'.

(** The descriptors that the socket should have. *)
Definition own_fds (c : conn) : gset Z :=
  match _sock (socket c) with Some fd => {[fd]} | None => ∅ end.

Record conn_ok (c : conn) : Prop := {
  ok_fds : dom (fds c) = own_fds c;
  ok_stray : stray c = false;
  ok_inactive : _status (socket c) = INACTIVE → _sock (socket c) = None ∧ listenThread c = None;
  ok_connected : _status (socket c) = CONNECTED → is_Some (_sock (socket c)) ∧ listenThread c = None;
  ok_listening : _status (socket c) = LISTENING → is_Some (listenThread c);
  ok_running multiple : listenThread c = Some (Running multiple) → is_Some (_sock (socket c))
}.

(** What becomes of the descriptors that [accept] returned: the first ones were
    each given to one call of the callback, with SUCCESS, in the same order; the
    others, which came after [_terminate] was set, were dropped. *)
Record clients_ok (clients : list Z) (c : conn) : Prop := {
  cl_clients : clients = accepted c ++ leaked c;
  cl_calls : accepted c = omap fst (calls c);
  cl_success sock error : (sock, error) ∈ calls c → error = SUCCESS ↔ is_Some sock;
  cl_leaked : leaked c ≠ [] → terminate c = true
}.

(** * Opening and closing *)

Lemma dom_singleton_closed (m : gmap Z Z) fd : dom m = {[fd]} → delete fd m = ∅.
Proof. intros Hd. apply dom_empty_inv_L. rewrite dom_delete_L, Hd. set_solver. Qed.

(** Closing the own descriptor. *)
Lemma close_own c fd :
  conn_ok c → _sock (socket c) = Some fd →
  fds (close_fd fd c) = ∅ ∧ stray (close_fd fd c) = false.
Proof.
  intros [Hf Hs _ _ _ _] Hfd. unfold own_fds in Hf. rewrite Hfd in Hf. simpl.
  split; [by apply dom_singleton_closed|]. rewrite Hs. simpl. apply negb_false_iff, bool_decide_eq_true.
  apply elem_of_dom. rewrite Hf. set_solver.
Qed.

Lemma inactive_empty c : conn_ok c → _status (socket c) = INACTIVE → fds c = ∅ ∧ _sock (socket c) = None.
Proof.
  intros [Hf _ Hi _ _ _] Hst. destruct (Hi Hst) as [Hn _]. unfold own_fds in Hf. rewrite Hn in Hf.
  split; [by apply dom_empty_inv_L|done].
Qed.

(** Opening a new descriptor and closing it again leaves no trace. *)
Lemma open_close fd flags c :
  fds c !! fd = None → _sock (socket c) = None → closeSocket (open_fd fd flags c) = c.
Proof.
  intros Hf Hs. destruct c as [[sock st b] m str lt cb te ac le ca]. simpl in *. subst sock.
  unfold closeSocket, close_fd, set_sock, set_socket, set_fds. simpl.
  rewrite delete_insert_id by done. rewrite bool_decide_eq_true_2 by (rewrite lookup_insert_eq; eauto).
  simpl. by rewrite orb_false_r.
Qed.

Lemma open_set_flags fd flags flags' c :
  set_flags flags' (open_fd fd flags c) = open_fd fd flags' c.
Proof.
  destruct c as [[sock st b] m str lt cb te ac le ca].
  unfold set_flags, open_fd, set_sock, set_socket, set_fds. simpl. by rewrite insert_insert_eq.
Qed.

Lemma same_sock c : _sock (socket c) = None → set_sock None c = c.
Proof. destruct c as [[sock st b] m str lt cb te ac le ca]. simpl. by intros ->. Qed.

Lemma getLastError_not_success e : tcp_getLastError e ≠ SUCCESS.
Proof. by destruct e. Qed.

(** What a call that failed before it had a descriptor, or closed it again,
    leaves behind. *)
Ltac no_trace :=
  match goal with
  | |- context [closeSocket (set_flags _ (open_fd _ _ _))] => rewrite open_set_flags; no_trace
  | |- context [closeSocket (open_fd _ _ _)] => rewrite open_close by assumption
  | |- context [set_sock None _] => rewrite same_sock by assumption
  end.

Lemma connect_wait_error a error : connect_wait a = Some error → error ≠ SUCCESS.
Proof.
  unfold connect_wait. destruct (c_connect a) as [e|]; [|done].
  case_bool_decide; [destruct (c_select a); [destruct (_ =? 0)|]; by intros [= <-]|].
  intros [= <-]. apply getLastError_not_success.
Qed.

(** [connect] and [listen] either fail and change nothing, or succeed. *)
Lemma connect_cases ip port a c :
  conn_ok c → fresh (c_socket a) c →
  ((connect ip port a c).1 ≠ SUCCESS ∧ (connect ip port a c).2 = c) ∨
  (_status (socket c) = INACTIVE ∧ port ≠ 0 ∧ ip ≠ NO_IP ∧ ip ≠ INADDR_ANY ∧
   ∃ fd flags flags', c_socket a = inl (fd, flags) ∧ (c_reset a = None → flags' = 0) ∧
     connect ip port a c = (SUCCESS, set_status CONNECTED (open_fd fd flags' c))).
Proof.
  intros Hok Hfr. unfold connect.
  destruct (port =? 0) eqn:Ep; bool_to_prop; [by left|].
  destruct (ip =? NO_IP) eqn:En; bool_to_prop; [by left|]. cbn [orb].
  destruct (ip =? INADDR_ANY) eqn:Ea; bool_to_prop; [by left|].
  case_bool_decide as Hst; cbn [negb]; [|by left].
  destruct (inactive_empty c Hok Hst) as [_ Hsock].
  destruct (c_socket a) as [[fd flags]|e]; simpl in Hfr;
    [|left; cbn [fst snd]; no_trace; split; [apply getLastError_not_success|done]].
  destruct (c_getfl a) as [arg|e];
    [|left; cbn [fst snd]; no_trace; split; [apply getLastError_not_success|done]].
  destruct (c_setfl a) as [e|];
    [left; cbn [fst snd]; no_trace; split; [apply getLastError_not_success|done]|].
  destruct (connect_wait a) as [error|] eqn:Ew.
  { left. cbn [fst snd]. no_trace. split; [by eapply connect_wait_error|done]. }
  right. split_and!; [done..|]. exists fd, flags.
  destruct (c_reset a) as [e|]; rewrite !open_set_flags.
  - by exists (Z.lor arg O_NONBLOCK).
  - by exists 0.
Qed.

Lemma listen_cases port n multiple a c :
  conn_ok c → fresh (l_socket a) c →
  ((listen port n multiple a c).1 ≠ SUCCESS ∧ (listen port n multiple a c).2 = c) ∨
  (_status (socket c) = INACTIVE ∧ port ≠ 0 ∧ 0 <= n ∧
   ∃ fd flags, l_socket a = inl (fd, flags) ∧
     listen port n multiple a c =
       (SUCCESS, set_listenThread (Some (Running multiple)) (set_status LISTENING (open_fd fd flags c)))).
Proof.
  intros Hok Hfr. unfold listen.
  destruct (port =? 0) eqn:Ep; bool_to_prop; [by left|].
  destruct (n <? 0) eqn:En; bool_to_prop; [by left|].
  case_bool_decide as Hst; cbn [negb]; [|by left].
  destruct (inactive_empty c Hok Hst) as [_ Hsock].
  destruct (l_socket a) as [[fd flags]|e]; simpl in Hfr;
    [|left; cbn [fst snd]; no_trace; split; [apply getLastError_not_success|done]].
  destruct (l_setsockopt a), (l_bind a), (l_listen a);
    try (left; cbn [fst snd]; no_trace; split; [apply getLastError_not_success|done]).
  right. split_and!; [done..|]. by exists fd, flags.
Qed.

(** * The invariant *)

Lemma conn_new_ok : conn_ok TcpSocket_new.
Proof. by split. Qed.

Lemma accepted_ok fd flags : conn_ok (TcpSocket_accepted fd flags).
Proof. split; try done. unfold own_fds. simpl. by rewrite dom_singleton_L. Qed.

Lemma opened_dom c fd flags :
  conn_ok c → _status (socket c) = INACTIVE → dom (fds (open_fd fd flags c)) = {[fd]}.
Proof.
  intros Hok Hst. destruct (inactive_empty c Hok Hst) as [He _]. simpl.
  rewrite He, dom_insert_L. set_solver.
Qed.

Lemma listen_ok port n multiple a c :
  conn_ok c → fresh (l_socket a) c → conn_ok (listen port n multiple a c).2.
Proof.
  intros Hok Hfr. destruct (listen_cases port n multiple a c Hok Hfr)
    as [[_ ->]|(Hst & _ & _ & fd & flags & _ & ->)]; [done|].
  split; try done; [exact (opened_dom c fd flags Hok Hst)|apply Hok].
Qed.

Lemma connect_ok ip port a c :
  conn_ok c → fresh (c_socket a) c → conn_ok (connect ip port a c).2.
Proof.
  intros Hok Hfr. destruct (connect_cases ip port a c Hok Hfr)
    as [[_ ->]|(Hst & _ & _ & _ & fd & flags & flags' & _ & _ & ->)]; [done|].
  destruct (ok_inactive c Hok Hst) as [_ Hlt].
  split; try done; [exact (opened_dom c fd flags' Hok Hst)|apply Hok].
Qed.

(** Closing the descriptor of a listening socket whose thread ends. *)
Lemma closeSocket_finished c :
  conn_ok c → _status (socket c) = LISTENING →
  conn_ok (set_listenThread (Some Finished) (closeSocket c)).
Proof.
  intros Hok Hst. unfold closeSocket. destruct (_sock (socket c)) as [fd|] eqn:Hfd.
  - destruct (close_own c fd Hok Hfd) as [He Hs].
    split; simpl in *; try done; try congruence. by rewrite He.
  - destruct Hok as [Hf Hs _ _ _ _]. split; simpl; try done; try congruence.
Qed.

Lemma running_listening c multiple :
  conn_ok c → listenThread c = Some (Running multiple) → _status (socket c) = LISTENING.
Proof.
  intros [_ _ Hi Hc _ _] Ht. destruct (_status (socket c)); [|done|].
  - destruct (Hi eq_refl) as [_ Hn]. congruence.
  - destruct (Hc eq_refl) as [_ Hn]. congruence.
Qed.

Lemma call_back_ok sock error c : conn_ok c → conn_ok (call_back sock error c).
Proof. by intros []; split. Qed.

Lemma accept_ok multiple answer c :
  conn_ok c → listenThread c = Some (Running multiple) →
  conn_ok (listenFunc_round multiple answer c).
Proof.
  intros Hok Ht. pose proof (running_listening c multiple Hok Ht) as Hst.
  assert (Hend : conn_ok (set_listenThread (Some Finished) c)).
  { destruct Hok. split; simpl in *; try done; congruence. }
  unfold listenFunc_round. destruct answer as [clientSock|e], (terminate c) eqn:Et.
  - by destruct Hend.
  - destruct multiple; [by apply call_back_ok|].
    by apply closeSocket_finished; [apply call_back_ok|].
  - done.
  - by apply closeSocket_finished; [apply call_back_ok|].
Qed.

(** Joining the listen thread changes nothing but the thread and the callbacks
    when the descriptor is closed. *)
Lemma join_keeps e c :
  _sock (socket c) = None →
  fds (join_listenThread e c) = fds c ∧ stray (join_listenThread e c) = stray c ∧
  socket (join_listenThread e c) = socket c ∧ listenThread (join_listenThread e c) = None.
Proof.
  intros Hs. unfold join_listenThread, listenFunc_round, closeSocket.
  destruct (listenThread c) as [[multiple|]|] eqn:Ht; [|done..].
  destruct (terminate c); [done|]. simpl. by rewrite Hs.
Qed.

(** What is left of a socket that has been closed. *)
Record closed (c : conn) : Prop := {
  closed_fds : fds c = ∅;
  closed_stray : stray c = false;
  closed_sock : _sock (socket c) = None;
  closed_status : _status (socket c) = INACTIVE;
  closed_listen : listenThread c = None
}.

Lemma closed_ok c : closed c → conn_ok c.
Proof. intros [Hf Hs Hn Hst Ht]. split; unfold own_fds; rewrite ?Hf, ?Hn, ?Hst, ?Ht; done. Qed.

Lemma close_closed self e c : conn_ok c → closed (close self e c).
Proof.
  intros Hok. unfold close. case_bool_decide as Hst.
  { destruct (inactive_empty c Hok Hst) as [Hf Hs]. destruct (ok_inactive c Hok Hst).
    split; [done|apply Hok|done..]. }
  set (c1 := match _sock (socket c) with Some fd => _ | None => c end).
  assert (H1 : fds c1 = ∅ ∧ stray c1 = false ∧ _sock (socket c1) = None).
  { unfold c1. destruct (_sock (socket c)) as [fd|] eqn:Hfd.
    - destruct (close_own c fd Hok Hfd) as [He Hs]. by rewrite <- Hs, <- He.
    - destruct Hok as [Hf Hs _ _ _ _]. unfold own_fds in Hf. rewrite Hfd in Hf.
      split; [by apply dom_empty_inv_L|done]. }
  clearbody c1. destruct H1 as (Hf & Hs & Hn).
  destruct (join_keeps e c1 Hn) as (Ef & Es & Eso & El).
  destruct self; split; simpl; congruence.
Qed.

Lemma conn_step_ok clients c c' : conn_step clients c c' → conn_ok c → conn_ok c'.
Proof.
  intros [] Hok.
  - by apply listen_ok.
  - by apply accept_ok.
  - by apply connect_ok.
  - unfold receiveCallback. case_bool_decide; [|done]. by destruct Hok.
  - by apply closed_ok, close_closed.
  - by destruct Hok.
Qed.

(** ** The accepted clients *)

(** What [clients_ok] speaks of. *)
Definition client_state (c : conn) : list Z * list Z * list (option Z * ClockError) * bool :=
  (accepted c, leaked c, calls c, terminate c).

Lemma clients_same clients c c' :
  client_state c' = client_state c → clients_ok clients c → clients_ok clients c'.
Proof. intros E [H1 H2 H3 H4]. injection E as Ea El Ec Et.
  split; rewrite ?Ea, ?El, ?Ec, ?Et; done.
Qed.

Lemma closeSocket_clients c : client_state (closeSocket c) = client_state c.
Proof. unfold closeSocket. by destruct (_sock (socket c)). Qed.

Lemma call_back_clients clients sock error c :
  terminate c = false → (error = SUCCESS ↔ is_Some sock) →
  clients_ok clients c → clients_ok (clients ++ option_list sock) (call_back sock error c).
Proof.
  intros Ht Hs [Hc Ha Hsu Hl]. assert (Hn : leaked c = []).
  { destruct (leaked c); [done|]. by rewrite Hl in Ht. }
  rewrite Hn, app_nil_r in Hc. split; simpl.
  - by rewrite Hc, Hn, app_nil_r.
  - rewrite Ha, omap_app. by destruct sock.
  - intros s e [?|[= -> ->]%list_elem_of_singleton]%elem_of_app; [by apply Hsu|done].
  - by rewrite Hn.
Qed.

Lemma leak_clients clients fd c :
  terminate c = true → clients_ok clients c → clients_ok (clients ++ [fd]) (leak fd c).
Proof. intros Ht [-> Ha Hs Hl]. split; simpl; [by rewrite app_assoc|done..]. Qed.

Lemma accept_clients clients multiple answer c :
  clients_ok clients c →
  clients_ok (clients ++ match answer with inl fd => [fd] | inr _ => [] end)
             (listenFunc_round multiple answer c).
Proof.
  intros Hc. unfold listenFunc_round.
  destruct answer as [fd|e], (terminate c) eqn:Et.
  - by apply (clients_same _ (leak fd c)), leak_clients.
  - assert (H : clients_ok (clients ++ [fd]) (call_back (Some fd) SUCCESS c))
      by (apply (call_back_clients clients (Some fd)); [done|by split; eauto|done]).
    destruct multiple; [done|]. eapply clients_same, H.
    exact (closeSocket_clients (call_back (Some fd) SUCCESS c)).
  - rewrite app_nil_r. by eapply clients_same, Hc.
  - eapply clients_same; [exact (closeSocket_clients (call_back None (tcp_getLastError e) c))|].
    apply (call_back_clients clients None); [done| |done].
    pose proof (getLastError_not_success e). split; [done|by intros []].
Qed.

Lemma close_clients clients self e c : clients_ok clients c → clients_ok clients (close self e c).
Proof.
  intros Hc. unfold close. case_bool_decide; [done|].
  set (c1 := match _sock (socket c) with Some fd => _ | None => c end).
  assert (H1 : clients_ok clients c1).
  { eapply clients_same, Hc. unfold c1. by destruct (_sock (socket c)). }
  clearbody c1. assert (H2 : clients_ok clients (join_listenThread e c1)).
  { unfold join_listenThread. destruct (listenThread c1) as [[multiple|]|]; [|by eapply clients_same, H1|done].
    apply (accept_clients _ multiple (inr e)) in H1. rewrite app_nil_r in H1.
    by eapply clients_same, H1. }
  eapply clients_same, H2. by destruct self.
Qed.

Lemma step_clients clients new c c' :
  conn_ok c → conn_step new c c' → clients_ok clients c → clients_ok (clients ++ new) c'.
Proof.
  intros Hok Hstep Hc. revert Hok Hc.
  destruct Hstep as [port n multiple a c1 Hf|multiple answer c1 Ht|ip port a c1 Hf|c1|self e c1|c1];
    intros Hok Hc;
    [|by apply accept_clients|..]; rewrite app_nil_r.
  - destruct (listen_cases port n multiple a c1 Hok Hf) as [[_ ->]|(_ & _ & _ & fd & flags & _ & ->)];
      [done|by eapply clients_same, Hc].
  - destruct (connect_cases ip port a c1 Hok Hf)
      as [[_ ->]|(_ & _ & _ & _ & fd & flags & flags' & _ & _ & ->)]; [done|by eapply clients_same, Hc].
  - unfold receiveCallback. case_bool_decide; [by eapply clients_same, Hc|done].
  - by apply close_clients.
  - by destruct Hc.
Qed.

(** * Properties *)

(** C16: whatever calls the owner makes, whatever the system answers and however
    the listen thread's steps come in between, in every execution of a new or an
    accepted socket: of the descriptors that its calls of [socket] returned (and the
    one that an accepted socket begins with), the open ones are exactly [_sock], and it
    never closes one that is not open; a connected socket has one, an inactive one has
    none, and a listen thread in its loop always has its socket. The descriptors that
    [accept] returned are, in order, those given to the callback, each to exactly
    one call with SUCCESS, followed by those that are dropped without being closed, of
    which there is none as long as [_terminate] is not set; all other calls of the
    callback report an error and have no socket. *)
Theorem conn_invariant c0 clients c :
  c0 = TcpSocket_new ∨ (∃ fd flags, c0 = TcpSocket_accepted fd flags) →
  conn_run c0 clients c → conn_ok c ∧ clients_ok clients c.
Proof.
  intros H0 Hrun. induction Hrun as [|clients new c c' _ [Hok Hcl] Hstep].
  - destruct H0 as [->|(fd & flags & ->)]; (split; [apply conn_new_ok || apply accepted_ok|]);
      (split; [done..| |done]); intros ? ? []%not_elem_of_nil.
  - split; [by eapply conn_step_ok|by eapply step_clients].
Qed.

(** C35: [connect] either fails and changes nothing (no descriptor stays open, the
    status stays the same) or succeeds: then the socket was inactive, the address
    is valid, and the socket is connected with the new descriptor, which blocks
    again if the last [fcntl] works. *)
Theorem connect_atomic ip port a c :
  conn_ok c → fresh (c_socket a) c →
  ((connect ip port a c).1 ≠ SUCCESS ∧ (connect ip port a c).2 = c) ∨
  ((connect ip port a c).1 = SUCCESS ∧ _status (socket c) = INACTIVE ∧
   port ≠ 0 ∧ ip ≠ NO_IP ∧ ip ≠ INADDR_ANY ∧
   ∃ fd flags, let c' := (connect ip port a c).2 in
     _status (socket c') = CONNECTED ∧ _sock (socket c') = Some fd ∧ fds c' = {[fd := flags]} ∧
     (c_reset a = None → Z.land flags O_NONBLOCK = 0)).
Proof.
  intros Hok Hfr. destruct (connect_cases ip port a c Hok Hfr)
    as [?|(Hst & Hp & Hn & Ha & fd & flags & flags' & _ & Hr & ->)]; [by left|].
  right. split_and!; [done..|]. exists fd, flags'. destruct (inactive_empty c Hok Hst) as [He _].
  simpl. split_and!; [done..|by rewrite He|by intros ->%Hr].
Qed.

(** Likewise, [listen] either fails and changes nothing, or the socket was
    inactive and is now listening, with a descriptor and a thread. *)
Theorem listen_atomic port n multiple a c :
  conn_ok c → fresh (l_socket a) c →
  ((listen port n multiple a c).1 ≠ SUCCESS ∧ (listen port n multiple a c).2 = c) ∨
  ((listen port n multiple a c).1 = SUCCESS ∧ _status (socket c) = INACTIVE ∧ port ≠ 0 ∧ 0 <= n ∧
   ∃ fd flags, let c' := (listen port n multiple a c).2 in
     _status (socket c') = LISTENING ∧ _sock (socket c') = Some fd ∧ fds c' = {[fd := flags]} ∧
     listenThread c' = Some (Running multiple)).
Proof.
  intros Hok Hfr. destruct (listen_cases port n multiple a c Hok Hfr)
    as [?|(Hst & Hp & Hn & fd & flags & _ & ->)]; [by left|].
  right. split_and!; [done..|]. exists fd, flags. destruct (inactive_empty c Hok Hst) as [He _].
  simpl. by rewrite He.
Qed.

(** System calls that all succeed. *)
Definition listen_success (fd flags : Z) : listen_answers :=
  {| l_socket := inl (fd, flags); l_setsockopt := None; l_bind := None; l_listen := None |}.
Definition connect_success (fd flags : Z) : connect_answers :=
  {| c_socket := inl (fd, flags); c_getfl := inl flags; c_setfl := None; c_connect := None;
     c_select := true; c_valopt := 0; c_reset := None |}.

(** [close] brings a socket from every state back to the inactive one, without
    an open descriptor or a listen thread, and the socket can be used again:
    [listen] and [connect] with valid arguments succeed if the system calls do. *)
Theorem close_resets self e c :
  conn_ok c → closed (close self e c) ∧
  (∀ port n multiple fd flags, port ≠ 0 → 0 <= n →
     (listen port n multiple (listen_success fd flags) (close self e c)).1 = SUCCESS) ∧
  (∀ ip port fd flags, port ≠ 0 → ip ≠ NO_IP → ip ≠ INADDR_ANY →
     (connect ip port (connect_success fd flags) (close self e c)).1 = SUCCESS).
Proof.
  intros Hok. pose proof (close_closed self e c Hok) as Hc. split; [done|].
  generalize dependent (close self e c). intros c' Hc.
  assert (Hst : bool_decide (_status (socket c') = INACTIVE) = true).
  { apply bool_decide_eq_true, (closed_status _ Hc). }
  split.
  - intros port n multiple fd flags Hp Hn. unfold listen. rewrite Hst.
    by rewrite (proj2 (Z.eqb_neq _ _) Hp), (proj2 (Z.ltb_ge _ _) Hn).
  - intros ip port fd flags Hp Hn Ha. unfold connect. rewrite Hst.
    by rewrite (proj2 (Z.eqb_neq _ _) Hp), (proj2 (Z.eqb_neq _ _) Hn), (proj2 (Z.eqb_neq _ _) Ha).
Qed.

(** When the listen thread has ended (after an error of [accept], or after the
    first client if only one is wanted), the socket stays in the status LISTENING
    without a descriptor: every further [listen], [connect] and packet is
    refused until the owner calls [close]. *)
Theorem listener_ends multiple answer c :
  conn_ok c → listenThread c = Some (Running multiple) → terminate c = false →
  (∀ fd, answer = inl fd → multiple = false) →
  let c' := listenFunc_round multiple answer c in
  _status (socket c') = LISTENING ∧ _sock (socket c') = None ∧ fds c' = ∅ ∧
  (∀ port n m a, port ≠ 0 → 0 <= n → listen port n m a c' = (INVALID_USAGE, c')) ∧
  (∀ ip port a, port ≠ 0 → ip ≠ NO_IP → ip ≠ INADDR_ANY → connect ip port a c' = (INVALID_USAGE, c')) ∧
  (∀ p a, writePacket p a (socket c') = (NOT_READY, [])).
Proof.
  intros Hok Ht Hterm Hm c'. pose proof (running_listening c multiple Hok Ht) as Hst.
  destruct (ok_running c Hok multiple Ht) as [fd Hfd].
  assert (H : _status (socket c') = LISTENING ∧ _sock (socket c') = None ∧ fds c' = ∅).
  { unfold c', listenFunc_round. rewrite Hterm. destruct (close_own c fd Hok Hfd) as [He _].
    destruct answer as [client|e]; [rewrite (Hm client eq_refl)|];
      unfold closeSocket; simpl; rewrite Hfd; simpl; by rewrite Hst. }
  clearbody c'. destruct H as (Hst' & Hn & He). split_and!; [done..| | |].
  - intros port n m a Hp Hge. unfold listen. rewrite Hst'.
    by rewrite (proj2 (Z.eqb_neq _ _) Hp), (proj2 (Z.ltb_ge _ _) Hge).
  - intros ip port a Hp Hi Ha. unfold connect. rewrite Hst'.
    by rewrite (proj2 (Z.eqb_neq _ _) Hp), (proj2 (Z.eqb_neq _ _) Hi), (proj2 (Z.eqb_neq _ _) Ha).
  - intros p a. unfold writePacket. by rewrite Hst'.
Qed.

(** * Examples *)

Definition listening (multiple : bool) : conn :=
  (listen 12345 10 multiple (listen_success 3 2) TcpSocket_new).2.
Definition connected : conn := (connect 0x0100007F 12345 (connect_success 3 2) TcpSocket_new).2.

Lemma listening_ok multiple : conn_ok (listening multiple).
Proof. apply listen_ok; [apply conn_new_ok|done]. Qed.

(** A listening socket accepts a client, is destroyed, and drops another one. *)
Lemma conn_invariant_witness :
  let c := close false EINVAL
    (listenFunc_round true (inl 5) (set_terminate (listenFunc_round true (inl 4) (listening true)))) in
  conn_ok c ∧ clients_ok [4; 5] c ∧ calls c = [(Some 4, SUCCESS)] ∧ leaked c = [5].
Proof.
  intros c. assert (H : conn_run TcpSocket_new [4; 5] c).
  { change [4; 5] with (((([] ++ []) ++ [4]) ++ []) ++ [5]) at 1. rewrite <- (app_nil_r (_ ++ [5])).
    eapply run_step; [|apply step_close].
    eapply run_step; [|apply (step_accept true (inl 5)); reflexivity].
    eapply run_step; [|apply step_terminate].
    eapply run_step; [|apply (step_accept true (inl 4)); reflexivity].
    eapply run_step; [apply run_start|]. apply (step_listen 12345 10 true (listen_success 3 2)).
    reflexivity. }
  destruct (conn_invariant TcpSocket_new [4; 5] c (or_introl eq_refl) H) as [H1 H2].
  split_and!; [exact H1|exact H2|by vm_compute..].
Defined.

Lemma connect_atomic_witness :
  conn_ok TcpSocket_new ∧
  (connect 0x0100007F 12345 (connect_success 3 2) TcpSocket_new).1 = SUCCESS.
Proof.
  split; [apply conn_new_ok|].
  destruct (connect_atomic 0x0100007F 12345 (connect_success 3 2) TcpSocket_new conn_new_ok eq_refl)
    as [_|[H _]]; [reflexivity|exact H].
Defined.

Lemma listen_atomic_witness :
  conn_ok TcpSocket_new ∧ (listen 12345 10 true (listen_success 3 2) TcpSocket_new).1 = SUCCESS.
Proof.
  split; [apply conn_new_ok|].
  destruct (listen_atomic 12345 10 true (listen_success 3 2) TcpSocket_new conn_new_ok eq_refl)
    as [_|[H _]]; [reflexivity|exact H].
Defined.

Lemma close_resets_witness : closed (close false EINVAL (listening true)).
Proof. apply (close_resets false EINVAL (listening true) (listening_ok true)). Defined.

Lemma listener_ends_witness :
  _status (socket (listenFunc_round false (inl 4) (listening false))) = LISTENING.
Proof.
  apply (listener_ends false (inl 4) (listening false)); try reflexivity.
  apply listening_ok.
Defined.

(** The destructor does not delete the callback thread of a socket that was
    closed from its own callback: [close] returns at once for an inactive
    socket. *)
Theorem callback_thread_leaks :
  let c := close true EINVAL (receiveCallback connected).2 in
  callbackThread c = true ∧ _status (socket c) = INACTIVE ∧
  callbackThread (TcpSocket_delete EINVAL c) = true.
Proof. by vm_compute. Qed.

(** A client that is accepted while the destructor waits is dropped without
    closing its descriptor. *)
Theorem accept_leaks :
  let c := listenFunc_round true (inl 4) (set_terminate (listening true)) in
  leaked c = [4] ∧ accepted c = [] ∧ calls c = [].
Proof. by vm_compute. Qed.

(** [close] keeps the data that was left in [_buffer]: after a new [connect],
    the first packet that is received is one of the old connection. *)
Theorem reconnect_keeps_buffer :
  let old := set_socket (set_buffer (frame [88]) (socket connected)) connected in
  let new := (connect 0x0100007F 12345 (connect_success 4 2) (close false EINVAL old)).2 in
  _status (socket new) = CONNECTED ∧ _sock (socket new) = Some 4 ∧
  receivePacket [] (socket new) [Received (frame [65])] =
    Returned (SUCCESS, [88], set_buffer [] (socket new), [Received (frame [65])]).
Proof. by vm_compute. Qed.
