(* ===== verification/UdpSocket.v ===== *)
(** [UdpSocket]: [libs/sockets/src/UdpSocket.cpp],
    [libs/sockets/src/linux/UdpSocket.cpp] and
    [include/clockUtils/sockets/UdpSocket.h].

    [write] cuts its data into datagrams; [receivePacket] collects the datagrams
    of each peer in a buffer of its own until a packet is complete. The answers
    of the system calls are arguments, a datagram coming with its sender.

    If the network keeps the order of the datagrams of each peer and loses
    none, then the packets of each peer arrive in order, whatever the
    interleaving; packets that fill their last datagram are the exception. *)

From stdpp Require Import gmap.
From S2P Require Import StdMap SocketErrors Packet Prelude.

Local Open Scope Z_scope.

(** * Model *)

Definition MAX_PACKET_SIZE : nat := Z.to_nat (32 * 1024).

(** The name of a peer: the text of its address, and its port. *)
Notation peer := (str * Z)%type.

(** [open] has the descriptors that are open. *)
Record UdpSocket : Type := Udp {
  _sock : option Z;
  _buffer : list (peer * bytes);
  _callbackThread : bool;
  open : gset Z
}.

Definition UdpSocket_new : UdpSocket := Udp None [] false ∅.

Definition set_buffer (m : list (peer * bytes)) (this : UdpSocket) : UdpSocket :=
  Udp (_sock this) m (_callbackThread this) (open this).

(** [close]; [self] tells whether the callback thread calls it: then [join]
    throws an exception that nobody catches, and the result is [None]. *)
Definition close (self : bool) (this : UdpSocket) : option UdpSocket :=
  let this := match _sock this with
              | Some fd => Udp None (_buffer this) (_callbackThread this) (open this ∖ {[fd]})
              | None => this
              end in
  if _callbackThread this then
    if self then None else Some (Udp (_sock this) (_buffer this) false (open this))
  else Some this.

(** [bind], with the answers to [socket] and to [::bind]. *)
Definition bind (self : bool) (a_socket : Z + errno) (a_bind : option errno) (this : UdpSocket)
    : option (ClockError * UdpSocket) :=
  match _sock this with
  | Some _ => Some (INVALID_USAGE, this)
  | None =>
      match a_socket with
      | inr e => this ← close self this; Some (udp_getLastError e, this)
      | inl fd =>
          let this := Udp (Some fd) (_buffer this) (_callbackThread this) (open this ∪ {[fd]}) in
          match a_bind with
          | Some e => this ← close self this; Some (udp_getLastError e, this)
          | None => Some (SUCCESS, this)
          end
      end
  end.

(** ** Sending *)

(** The loop of [write] from round [i] on, [n] rounds being left: the datagrams
    that [sendto] took. The answers are its errors. *)
Fixpoint write_loop (str : bytes) (n i : nat) (answers : nat → option errno)
    : ClockError * list bytes :=
  match n with
  | O => (SUCCESS, [])
  | S n' =>
      let sendLength := if (i <? length str / MAX_PACKET_SIZE)%nat then MAX_PACKET_SIZE
                        else (length str - i * MAX_PACKET_SIZE)%nat in
      match answers i with
      | Some e => (udp_getLastError e, [])
      | None =>
          let '(error, sent) := write_loop str n' (S i) answers in
          (error, take sendLength (drop (i * MAX_PACKET_SIZE) str) :: sent)
      end
  end.

Definition write (str : bytes) (answers : nat → option errno) (this : UdpSocket)
    : ClockError * list bytes :=
  match _sock this with
  | None => (NOT_READY, [])
  | Some _ => write_loop str (length str / MAX_PACKET_SIZE + 1) 0 answers
  end.

Definition writePacket (str : bytes) (answers : nat → option errno) (this : UdpSocket)
    : ClockError * list bytes :=
  match _sock this with
  | None => (NOT_READY, [])
  | Some _ => write (frame str) answers this
  end.

(** ** Receiving *)

Section Receive.
(** [inet_ntoa], the text of an address. *)
Context (inet_ntoa : Z → str).

(** The answer to [recvfrom]: a datagram of a peer, or [-1] and [errno]. *)
Inductive recv_result : Type :=
| Datagram (addr port : Z) (payload : bytes)
| RecvFailed (e : errno).

(** [read]: the error, the data and the peer, which after a failure has the
    cleared address; [recvfrom] cuts off what does not fit. *)
Fixpoint read_loop (net : list recv_result)
    : reading (ClockError * bytes * peer * list recv_result) :=
  match net with
  | [] => Waiting
  | RecvFailed e :: net' =>
      let error := udp_getLastError e in
      if decide (error = IN_PROGRESS) then read_loop net'
      else Returned (error, replicate (MAX_PACKET_SIZE + 4) 0, (inet_ntoa 0, 0), net')
  | Datagram addr port payload :: net' =>
      let s := take MAX_PACKET_SIZE payload in
      match s with
      | [] => Returned (NOT_CONNECTED, replicate (MAX_PACKET_SIZE + 4) 0, (inet_ntoa addr, port), net')
      | _ => Returned (SUCCESS, s, (inet_ntoa addr, port), net')
      end
  end.

(** [read] into a new vector. *)
Definition read (ipport : peer) (this : UdpSocket) (net : list recv_result)
    : reading (ClockError * bytes * peer * list recv_result) :=
  match _sock this with
  | None => Returned (NOT_READY, [], ipport, net)
  | Some _ => read_loop net
  end.

(** The loop of [receivePacket]; every round takes an answer, so that
    [length net + 1] rounds are enough. *)
Fixpoint receive_loop (fuel : nat) (buffer : bytes) (ipport : peer) (this : UdpSocket)
    (net : list recv_result)
    : reading (ClockError * bytes * peer * UdpSocket * list recv_result) :=
  match fuel with
  | O => Waiting
  | S fuel' =>
      match read ipport this net with
      | Undefined => Undefined
      | Waiting => Waiting
      | Returned (error, s, ipport, net) =>
          if decide (error = SUCCESS) then
            if size s =? 0 then receive_loop fuel' buffer ipport this net
            else
              let m := touch (_buffer this) ipport [] in
              match take_chunk s 0 (get m ipport []) with
              | None => Undefined
              | Some NoPacket => Returned (UNKNOWN, buffer, ipport, set_buffer m this, net)
              | Some (Incomplete _ result) =>
                  receive_loop fuel' buffer ipport (set_buffer (set m ipport result) this) net
              | Some (Packet packet rest) =>
                  Returned (SUCCESS, packet, ipport, set_buffer (set m ipport rest) this, net)
              end
          else Returned (error, buffer, ipport, this, net)
      end
  end.

(** [receivePacket(std::string &, ...)] *)
Definition receivePacket (buffer : bytes) (ipport : peer) (this : UdpSocket)
    (net : list recv_result)
    : reading (ClockError * bytes * peer * UdpSocket * list recv_result) :=
  match _sock this with
  | None => Returned (NOT_READY, buffer, ipport, this, net)
  | Some _ => receive_loop (length net + 1) buffer ipport this net
  end.

(** [receivePacket(std::vector<uint8_t> &, ...)] *)
Definition receivePacket_vector (buffer : bytes) (ipport : peer) (this : UdpSocket)
    (net : list recv_result)
    : reading (ClockError * bytes * peer * UdpSocket * list recv_result) :=
  match _sock this with
  | None => Returned (NOT_READY, buffer, ipport, this, net)
  | Some _ =>
      match receivePacket [] ipport this net with
      | Returned (error, s, ipport, this, net) =>
          Returned (error, if decide (error = SUCCESS) then s else buffer, ipport, this, net)
      | Undefined => Undefined
      | Waiting => Waiting
      end
  end.

(** Receiving [n] packets with their peers, up to the first error. *)
Fixpoint receive_all (n : nat) (this : UdpSocket) (net : list recv_result)
    : reading (list (peer * bytes) * UdpSocket * list recv_result) :=
  match n with
  | O => Returned ([], this, net)
  | S n' =>
      match receivePacket [] ([], 0) this net with
      | Returned (SUCCESS, p, ipport, this, net) =>
          match receive_all n' this net with
          | Returned (ps, this, net) => Returned ((ipport, p) :: ps, this, net)
          | out => out
          end
      | Returned (_, _, _, this, net) => Returned ([], this, net)
      | Undefined => Undefined
      | Waiting => Waiting
      end
  end.
End Receive.

(** [receiveCallback], once the old callback thread has been joined. *)
Definition receiveCallback (this : UdpSocket) : ClockError * UdpSocket :=
  (SUCCESS, Udp (_sock this) (_buffer this) true (open this)).

(** * Cutting into datagrams *)

Lemma MAX_pos : (0 < MAX_PACKET_SIZE)%nat.
Proof. unfold MAX_PACKET_SIZE. lia. Qed.

Lemma MAX_value : Z.of_nat MAX_PACKET_SIZE = 32 * 1024.
Proof. unfold MAX_PACKET_SIZE. lia. Qed.

#[local] Opaque MAX_PACKET_SIZE.

(** The pieces of a string: all but the last one are full, and the last one is
    not. *)
Inductive cut : bytes → list bytes → Prop :=
| cut_last s : (length s < MAX_PACKET_SIZE)%nat → cut s [s]
| cut_more d s ds : length d = MAX_PACKET_SIZE → cut s ds → cut (d ++ s) (d :: ds).

Lemma cut_join s ds : cut s ds → mjoin ds = s.
Proof. induction 1 as [s|d s ds _ _ IH]; csimpl; [apply app_nil_r|by rewrite IH]. Qed.

Lemma cut_sizes s ds : cut s ds → Forall (λ d, (length d <= MAX_PACKET_SIZE)%nat) ds.
Proof. induction 1; repeat constructor; [lia|lia|done]. Qed.

Lemma cut_length s ds : cut s ds → length ds = (length s / MAX_PACKET_SIZE + 1)%nat.
Proof.
  pose proof MAX_pos. induction 1 as [s Hs|d s ds Hd _ IH]; simpl.
  - by rewrite Nat.div_small.
  - rewrite IH, length_app, Hd.
    replace (MAX_PACKET_SIZE + length s)%nat with (length s + 1 * MAX_PACKET_SIZE)%nat by lia.
    rewrite Nat.div_add by lia. lia.
Qed.

(** Rounds that all succeed cut what is left of the string. *)
Lemma write_loop_cut str n : ∀ i,
  (i * MAX_PACKET_SIZE <= length str)%nat →
  n = (length (drop (i * MAX_PACKET_SIZE) str) / MAX_PACKET_SIZE + 1)%nat →
  ∃ ds, write_loop str n i (λ _, None) = (SUCCESS, ds) ∧ cut (drop (i * MAX_PACKET_SIZE) str) ds.
Proof.
  pose proof MAX_pos as HM. induction n as [|n IH]; intros i Hi Hn; [lia|]. cbn [write_loop].
  set (s := drop (i * MAX_PACKET_SIZE) str) in *.
  assert (Hl : length str = (length s + i * MAX_PACKET_SIZE)%nat) by (unfold s; rewrite length_drop; lia).
  assert (Hq : (length str / MAX_PACKET_SIZE = length s / MAX_PACKET_SIZE + i)%nat).
  { rewrite Hl. by apply Nat.div_add; lia. }
  rewrite Hq. destruct (Nat.lt_ge_cases (length s) MAX_PACKET_SIZE) as [Hlt|Hge].
  - rewrite Nat.div_small in * by done. replace n with 0%nat by lia. cbn [write_loop].
    rewrite (proj2 (Nat.ltb_ge _ _)) by lia. exists [s]. split; [|by constructor].
    rewrite take_ge; [done|]. lia.
  - assert (Hs1 : drop (S i * MAX_PACKET_SIZE) str = drop MAX_PACKET_SIZE s).
    { unfold s. rewrite drop_drop. f_equal. lia. }
    assert (Hd : (length s / MAX_PACKET_SIZE = length (drop MAX_PACKET_SIZE s) / MAX_PACKET_SIZE + 1)%nat).
    { rewrite length_drop. rewrite <- Nat.div_add by lia. f_equal. lia. }
    rewrite (proj2 (Nat.ltb_lt _ _)) by lia.
    destruct (IH (S i)) as (ds & -> & Hc); [lia|rewrite Hs1; lia|].
    eexists. split; [done|]. rewrite Hs1 in Hc.
    rewrite <- (take_drop MAX_PACKET_SIZE s) at 1. constructor; [|done].
    apply length_take_le. lia.
Qed.

Lemma write_cut str this fd :
  _sock this = Some fd →
  ∃ ds, write str (λ _, None) this = (SUCCESS, ds) ∧ cut str ds.
Proof.
  intros Hs. unfold write. rewrite Hs.
  destruct (write_loop_cut str (length str / MAX_PACKET_SIZE + 1) 0) as (ds & ? & ?); [lia|done|].
  by exists ds.
Qed.

(** The first round that fails ends the loop. *)
Lemma write_loop_fails str n : ∀ i answers k e ds,
  write_loop str n i (λ _, None) = (SUCCESS, ds) → (i <= k < i + n)%nat →
  answers k = Some e → (∀ j, (i <= j < k)%nat → answers j = None) →
  write_loop str n i answers = (udp_getLastError e, take (k - i) ds).
Proof.
  induction n as [|n IH]; intros i answers k e ds Hw Hk He Hn; [lia|].
  cbn [write_loop] in *. destruct (decide (k = i)) as [->|Hne].
  { rewrite He. by rewrite Nat.sub_diag. }
  rewrite Hn by lia. destruct (write_loop str n (S i) (λ _, None)) as [error sent] eqn:E.
  injection Hw as -> <-.
  rewrite (IH (S i) answers k e sent E) by (done || lia || (intros; apply Hn; lia)).
  by replace (k - i)%nat with (S (k - S i)) by lia.
Qed.

(** * Collecting the datagrams of the peers *)

(** With the buffer [b], the datagrams [ds] make up the packets [ps]: every
    datagram belongs to one packet, and nothing is left. *)
Inductive feeds : bytes → list bytes → list bytes → Prop :=
| feeds_nil : feeds [] [] []
| feeds_more b d more ds p ps :
    d ≠ [] → (length d <= MAX_PACKET_SIZE)%nat → b ++ d ++ more = frame p → more ≠ [] →
    feeds (b ++ d) ds (p :: ps) → feeds b (d :: ds) (p :: ps)
| feeds_last b d ds p ps :
    d ≠ [] → (length d <= MAX_PACKET_SIZE)%nat → b ++ d = frame p →
    feeds [] ds ps → feeds b (d :: ds) (p :: ps).

(** A packet that does not fill its last datagram and whose length fits. *)
Definition packet_ok (p : bytes) : Prop :=
  size p < 2 ^ 31 ∧ ((length p + 6) mod MAX_PACKET_SIZE ≠ 0)%nat.

Lemma cut_feeds s ds : cut s ds → ∀ b p ds' ps,
  (length s mod MAX_PACKET_SIZE ≠ 0)%nat → b ++ s = frame p → feeds [] ds' ps →
  feeds b (ds ++ ds') (p :: ps).
Proof.
  pose proof MAX_pos as HM.
  induction 1 as [s Hs|d s ds Hd Hc IH]; intros b p ds' ps Hm E Hf; simpl.
  - apply feeds_last; [|lia|done|done]. intros ->. simpl in Hm. by rewrite Nat.Div0.mod_0_l in Hm.
  - rewrite length_app, Hd in Hm.
    replace (MAX_PACKET_SIZE + length s)%nat with (length s + 1 * MAX_PACKET_SIZE)%nat in Hm by lia.
    rewrite Nat.Div0.mod_add in Hm.
    apply feeds_more with s; [|lia|done| |].
    + intros ->. simpl in Hd. lia.
    + intros ->. simpl in Hm. by rewrite Nat.Div0.mod_0_l in Hm.
    + apply IH; [done|by rewrite <- app_assoc|done].
Qed.

(** What [writePacket] sends makes up its packets. *)
Lemma written_feeds ps this fd :
  _sock this = Some fd → Forall packet_ok ps →
  feeds [] (mjoin ((λ p, (writePacket p (λ _, None) this).2) <$> ps)) ps.
Proof.
  intros Hs. induction 1 as [|p ps [_ Hp] _ IH]; csimpl; [constructor|].
  unfold writePacket at 1. rewrite Hs.
  destruct (write_cut (frame p) this fd Hs) as (ds & -> & Hc). cbn [snd].
  apply (cut_feeds _ _ Hc); [by rewrite length_frame|done|done].
Qed.

Section Collect.
Context (inet_ntoa : Z → str).

(** The datagrams of a peer, and its packets. *)
Definition of_peer (k : peer) (r : recv_result) : option bytes :=
  match r with
  | Datagram addr port payload => if decide (k = (inet_ntoa addr, port)) then Some payload else None
  | RecvFailed _ => None
  end.
Definition datagrams_of (k : peer) (net : list recv_result) : list bytes := omap (of_peer k) net.
Definition packets_of (k : peer) (out : list (peer * bytes)) : list bytes :=
  omap (λ q, if decide (k = q.1) then Some q.2 else None) out.

(** Answers on which [read] does not fail. *)
Definition ready (r : recv_result) : Prop :=
  match r with
  | Datagram _ _ payload => payload ≠ []
  | RecvFailed e => udp_getLastError e = IN_PROGRESS
  end.

Definition buffered (this : UdpSocket) (k : peer) : bytes := get (_buffer this) k [].

(** Every peer's datagrams, in [net] and then [more], make up the packets that [ps]
    has for it. *)
Definition all_feed (this : UdpSocket) (net : list recv_result) (more ps : peer → list bytes) : Prop :=
  ∀ k, feeds (buffered this k) (datagrams_of k net ++ more k) (ps k).

Lemma datagrams_same addr port payload net :
  datagrams_of (inet_ntoa addr, port) (Datagram addr port payload :: net) =
  payload :: datagrams_of (inet_ntoa addr, port) net.
Proof. unfold datagrams_of. csimpl. by rewrite decide_True. Qed.

Lemma datagrams_other k addr port payload net :
  k ≠ (inet_ntoa addr, port) →
  datagrams_of k (Datagram addr port payload :: net) = datagrams_of k net.
Proof. intros Hk. unfold datagrams_of. csimpl. by rewrite decide_False. Qed.

(** The state after a datagram of the peer [k]. *)
Lemma buffered_touch_set this k k' r :
  buffered (set_buffer (set (touch (_buffer this) k []) k r) this) k' =
  if decide (k' = k) then r else buffered this k'.
Proof.
  unfold buffered. simpl. case_decide as Hk; [subst; by rewrite get_set_eq|].
  by rewrite get_set_ne, get_touch.
Qed.

Lemma buffered_touch this k k' :
  get (touch (_buffer this) k []) k' [] = buffered this k'.
Proof. apply get_touch. Qed.

(** A round that reads the datagram [d]. *)
Section Round.
Context (fd : Z) (this : UdpSocket) (Hs : _sock this = Some fd).
Context (addr port : Z) (d : bytes) (Hd : d ≠ []) (Hl : (length d <= MAX_PACKET_SIZE)%nat).
Notation k := (inet_ntoa addr, port).
Context (p : bytes) (Hp : size p < 2 ^ 31).

Lemma read_datagram ipport net :
  read inet_ntoa ipport this (Datagram addr port d :: net) = Returned (SUCCESS, d, k, net).
Proof. unfold read. rewrite Hs. simpl. rewrite take_ge by done. by destruct d. Qed.

Lemma datagram_size : size d =? 0 = false.
Proof. destruct d; [done|by apply Z.eqb_neq]. Qed.

Lemma round_more more fuel buffer ipport net :
  buffered this k ++ d ++ more = frame p → more ≠ [] →
  receive_loop inet_ntoa (S fuel) buffer ipport this (Datagram addr port d :: net) =
  receive_loop inet_ntoa fuel buffer k
    (set_buffer (set (touch (_buffer this) k []) k (buffered this k ++ d)) this) net.
Proof.
  intros E Hm. cbn [receive_loop]. rewrite read_datagram, decide_True, datagram_size by done.
  rewrite buffered_touch. rewrite <- (app_nil_r (frame p)) in E.
  destruct (take_chunk_frame p [] Hp d 0 (buffered this k) more)
    as [(_ & len' & _ & ->)|(after & [_ ?]%app_nil & _)]; [done| |by left|done..].
  by intros [_ ?]%app_nil.
Qed.

Lemma round_last fuel buffer ipport net :
  buffered this k ++ d = frame p →
  receive_loop inet_ntoa (S fuel) buffer ipport this (Datagram addr port d :: net) =
  Returned (SUCCESS, p, k, set_buffer (set (touch (_buffer this) k []) k []) this, net).
Proof.
  intros E. cbn [receive_loop]. rewrite read_datagram, decide_True, datagram_size by done.
  rewrite buffered_touch.
  destruct (take_chunk_frame p [] Hp d 0 (buffered this k) [])
    as [(Hsz & _)|(after & [-> _]%app_nil & ->)]; [by rewrite !app_nil_r| |by left| |done].
  - by intros [_ ?]%app_nil.
  - rewrite E, length_frame in Hsz. lia.
Qed.
End Round.

(** The loop goes on until some peer's packet is complete; without one it reads
    all of [net] and waits, and only peers with more datagrams have packets left. *)
Lemma receive_loop_feeds fd net : ∀ fuel buffer ipport this more ps,
  (length net < fuel)%nat → _sock this = Some fd → Forall ready net →
  (∀ k, Forall (λ p, size p < 2 ^ 31) (ps k)) → all_feed this net more ps →
  ((∀ k, more k = [] → ps k = [] ∧ datagrams_of k net = []) ∧
   receive_loop inet_ntoa fuel buffer ipport this net = Waiting) ∨
  ∃ k p l this' net', ps k = p :: l ∧ (length net' < length net)%nat ∧
    _sock this' = Some fd ∧ Forall ready net' ∧
    all_feed this' net' more (λ j, if decide (j = k) then l else ps j) ∧
    receive_loop inet_ntoa fuel buffer ipport this net = Returned (SUCCESS, p, k, this', net').
Proof.
  induction net as [|[addr port payload|e] net IH];
    intros fuel buffer ipport this more ps Hf Hs Hr Hps Hfd;
    (destruct fuel as [|fuel]; [simpl in Hf; lia|]); simpl in Hf.
  - left. split; [|cbn [receive_loop]; unfold read; by rewrite Hs].
    intros k Hk. specialize (Hfd k). rewrite Hk in Hfd. by inversion Hfd.
  - apply Forall_cons in Hr as [Hne Hr]. simpl in Hne.
    pose proof (Hfd (inet_ntoa addr, port)) as Hk. rewrite datagrams_same in Hk.
    set (k := (inet_ntoa addr, port)) in *.
    assert (Hother : ∀ r j, j ≠ k →
      feeds (buffered (set_buffer (set (touch (_buffer this) k []) k r) this) j)
        (datagrams_of j net ++ more j) (ps j)).
    { intros r j Hj. rewrite buffered_touch_set, decide_False by done.
      rewrite <- (datagrams_other j addr port payload net Hj). apply Hfd. }
    remember ((payload :: datagrams_of k net) ++ more k) as ds eqn:Hds.
    remember (ps k) as psk eqn:Hpsk. remember (buffered this k) as b0 eqn:Hb0.
    destruct Hk as [|b d rest ds p l Hd Hl E Hm Hk|b d ds p l Hd Hl E Hk]; [done|..];
      injection Hds as -> ->; subst b;
      assert (Hp : size p < 2 ^ 31) by (specialize (Hps k); rewrite <- Hpsk in Hps; by inversion Hps).
    + rewrite (round_more fd this Hs addr port payload Hd Hl p Hp rest) by done.
      destruct (IH fuel buffer k (set_buffer (set (touch (_buffer this) k []) k (buffered this k ++ payload)) this) more ps)
        as [[Hno Hw]|(k' & p' & l' & this' & net' & Hps' & Hlt & Hrest)]; [lia|done|done|done| | |].
      * intros j. destruct (decide (j = k)) as [->|Hj]; [|by apply Hother].
        rewrite buffered_touch_set, decide_True by done. by rewrite <- Hpsk.
      * left. split; [|done]. intros j Hj. destruct (decide (j = k)) as [->|Hjk].
        { destruct (Hno k Hj). congruence. }
        unfold k in Hjk. rewrite datagrams_other by done. by apply Hno.
      * right. exists k', p', l', this', net'. split_and!; [done|simpl; lia|apply Hrest..].
    + right. rewrite (round_last fd this Hs addr port payload Hd Hl p Hp) by done.
      exists k, p, l, (set_buffer (set (touch (_buffer this) k []) k []) this), net.
      split_and!; [done|simpl; lia|done|done| |done].
      intros j. destruct (decide (j = k)) as [->|Hj]; [|by apply Hother].
      by rewrite buffered_touch_set, decide_True.
  - apply Forall_cons in Hr as [He Hr]. simpl in He.
    assert (Hgo : receive_loop inet_ntoa (S fuel) buffer ipport this (RecvFailed e :: net) =
      receive_loop inet_ntoa (S fuel) buffer ipport this net).
    { cbn [receive_loop]. unfold read. rewrite Hs. simpl. by rewrite He, decide_True. }
    rewrite Hgo.
    destruct (IH (S fuel) buffer ipport this more ps)
      as [Hno|(k & p & l & this' & net' & Hpsk & Hlt & Hrest)]; [lia|done..|by left|].
    right. exists k, p, l, this', net'. split_and!; [done|simpl; lia|apply Hrest..].
Qed.

Lemma packets_of_cons k k' p out :
  packets_of k ((k', p) :: out) = if decide (k = k') then p :: packets_of k out else packets_of k out.
Proof. unfold packets_of. csimpl. by case_decide. Qed.

Lemma receive_all_feeds fd n : ∀ net this ps,
  (length net < n)%nat → _sock this = Some fd → Forall ready net →
  (∀ k, Forall (λ p, size p < 2 ^ 31) (ps k)) → all_feed this net (λ _, []) ps →
  ∃ out this' net',
    receive_all inet_ntoa (length out) this net = Returned (out, this', net') ∧
    ∀ k, packets_of k out = ps k ∧ datagrams_of k net' = [].
Proof.
  induction n as [|n IH]; intros net this ps Hn Hs Hr Hps Hfd; [lia|].
  destruct (receive_loop_feeds fd net (length net + 1) [] ([], 0) this (λ _, []) ps)
    as [[Hno _]|(k & p & l & this1 & net1 & Hk & Hlt & Hs1 & Hr1 & Hfd1 & Hgo)]; [lia|done..| |].
  { exists [], this, net. split; [done|]. intros k. by destruct (Hno k eq_refl) as [-> ->]. }
  destruct (IH net1 this1 (λ j, if decide (j = k) then l else ps j))
    as (out & this' & net' & Hall & Hout); [lia|done|done| |done|].
  { intros j. case_decide; [|done]. specialize (Hps k). rewrite Hk in Hps. by inversion Hps. }
  exists ((k, p) :: out), this', net'. split.
  - simpl. unfold receivePacket. by rewrite Hs, Hgo, Hall.
  - intros j. destruct (Hout j) as [Ho Hd]. rewrite packets_of_cons, Ho. split; [|done].
    case_decide as Hj; [by subst|done].
Qed.

(** * Properties *)

(** C8: any number of peers send packets with [writePacket], and the network
    delivers the datagrams of each peer in order and without loss, but mixes
    those of different peers as it likes, with calls that would have blocked in
    between. Then [receivePacket] returns, for each peer, exactly its packets in
    order, and no datagram is left. No packet may fill its last datagram. *)
Theorem udp_packets sender receiver fd fd' sent net :
  _sock sender = Some fd → _sock receiver = Some fd' →
  (∀ k, buffered receiver k = [] ∧ Forall packet_ok (sent k)) →
  Forall ready net →
  (∀ k, datagrams_of k net = mjoin ((λ p, (writePacket p (λ _, None) sender).2) <$> sent k)) →
  ∃ out receiver' net',
    receive_all inet_ntoa (length out) receiver net = Returned (out, receiver', net') ∧
    ∀ k, packets_of k out = sent k ∧ datagrams_of k net' = [].
Proof.
  intros Hs Hs' Hsent Hr Hnet.
  apply (receive_all_feeds fd' (S (length net)) net receiver sent); [lia|done|done| |].
  - intros k. destruct (Hsent k) as [_ Hk]. eapply Forall_impl; [exact Hk|]. by intros p [].
  - intros k. destruct (Hsent k) as [-> Hk]. rewrite Hnet, app_nil_r. by apply (written_feeds _ _ fd).
Qed.

(** A packet that fills its last datagram is followed by an empty one; the
    packet itself arrives, but the call that reads the empty datagram reports
    NOT_CONNECTED. *)
Theorem udp_full_packet_error sender receiver fd fd' p addr port tail :
  _sock sender = Some fd → _sock receiver = Some fd' →
  (length p + 6 = MAX_PACKET_SIZE)%nat → buffered receiver (inet_ntoa addr, port) = [] →
  (writePacket p (λ _, None) sender).2 = [frame p; []] ∧
  ∃ receiver', _sock receiver' = Some fd' ∧
    receivePacket inet_ntoa [] ([], 0) receiver
      (Datagram addr port (frame p) :: Datagram addr port [] :: tail) =
      Returned (SUCCESS, p, (inet_ntoa addr, port), receiver', Datagram addr port [] :: tail) ∧
    receivePacket inet_ntoa [] ([], 0) receiver' (Datagram addr port [] :: tail) =
      Returned (NOT_CONNECTED, [], (inet_ntoa addr, port), receiver', tail).
Proof.
  intros Hs Hs' Hp Hb.
  assert (Hsz : size p < 2 ^ 31) by (pose proof MAX_value; lia).
  assert (Hlen : length (frame p) = MAX_PACKET_SIZE) by by rewrite length_frame.
  split.
  - unfold writePacket. rewrite Hs. destruct (write_cut (frame p) sender fd Hs) as (ds & -> & Hc).
    cbn [snd]. pose proof MAX_pos.
    assert (Hd : length ds = 2%nat).
    { rewrite (cut_length _ _ Hc), Hlen, Nat.div_same by lia. done. }
    inversion Hc as [s Hlt|d s ds' Hd' Hc' E]; subst; [lia|].
    apply (f_equal length) in E as E'. rewrite length_app in E'.
    destruct s as [|b s]; [|cbn [length] in E'; lia]. rewrite app_nil_r in *.
    inversion Hc' as [|d' s' ds'' Hd'' _ E'']; [by subst|].
    apply app_nil in E'' as [-> _]. simpl in Hd''. lia.
  - eexists. split; [|split].
    2:{ unfold receivePacket. rewrite Hs'. simpl length. cbn [Nat.add].
        apply (round_last fd' receiver Hs' addr port (frame p) ltac:(done) ltac:(lia) p Hsz).
        by rewrite Hb. }
    + done.
    + unfold receivePacket, read. simpl. rewrite Hs'. simpl. unfold read. simpl.
      by rewrite Hs', take_nil.
Qed.
End Collect.

(** [write] cuts its data into datagrams that are not too long and whose
    concatenation is the data, one more than there are full ones; if the
    [sendto] of a round fails, its error is returned and only the datagrams
    before it have been sent. *)
Theorem udp_write_cuts str this fd :
  _sock this = Some fd →
  ∃ ds, write str (λ _, None) this = (SUCCESS, ds) ∧ mjoin ds = str ∧
    Forall (λ d, (length d <= MAX_PACKET_SIZE)%nat) ds ∧
    length ds = (length str / MAX_PACKET_SIZE + 1)%nat ∧
    ∀ answers i e, (i < length ds)%nat → answers i = Some e → (∀ j, (j < i)%nat → answers j = None) →
      write str answers this = (udp_getLastError e, take i ds).
Proof.
  intros Hs. destruct (write_cut str this fd Hs) as (ds & Hw & Hc). exists ds.
  split_and!; [done|exact (cut_join _ _ Hc)|exact (cut_sizes _ _ Hc)|exact (cut_length _ _ Hc)|].
  intros answers i e Hi He Hn. unfold write in *. rewrite Hs in *.
  rewrite (cut_length _ _ Hc) in Hi.
  rewrite (write_loop_fails str _ 0 answers i e ds) by (done || lia || (intros; apply Hn; lia)).
  by rewrite Nat.sub_0_r.
Qed.

(** * Binding and closing *)

(** The socket owns exactly the descriptors that are open. *)
Definition udp_ok (this : UdpSocket) : Prop :=
  open this = match _sock this with Some fd => {[fd]} | None => ∅ end.

Lemma close_some self this this' :
  udp_ok this → close self this = Some this' → _sock this' = None ∧ open this' = ∅.
Proof.
  destruct this as [[fd|] m cb op]; unfold udp_ok, close; cbn; intros ->;
    destruct cb, self; cbn; intros [= <-]; cbn; (split; [done|]); try done; set_solver.
Qed.

Lemma close_none self this : close self this = None ↔ self = true ∧ _callbackThread this = true.
Proof. destruct this as [[fd|] m [|] op], self; unfold close; cbn; naive_solver. Qed.

Lemma opened_ok this fd :
  udp_ok this → _sock this = None →
  udp_ok (Udp (Some fd) (_buffer this) (_callbackThread this) (open this ∪ {[fd]})).
Proof. unfold udp_ok. intros -> ->. cbn. set_solver. Qed.

(** A socket always owns exactly its open descriptors: [bind] either fails and
    leaves no descriptor behind, the socket staying as it was, or succeeds on a
    socket that had none; [close] closes the descriptor, and it fails, with an
    exception, exactly when the callback thread calls it. *)
Theorem udp_bind_close self a_socket a_bind this :
  udp_ok this →
  (∀ error this', bind self a_socket a_bind this = Some (error, this') →
     udp_ok this' ∧
     (error ≠ SUCCESS → _sock this' = _sock this ∧ open this' = open this) ∧
     (error = SUCCESS → _sock this = None ∧ a_bind = None ∧
        ∃ fd, a_socket = inl fd ∧ _sock this' = Some fd)) ∧
  (∀ this', close self this = Some this' → udp_ok this' ∧ _sock this' = None) ∧
  (close self this = None ↔ self = true ∧ _callbackThread this = true).
Proof.
  intros Hok. split_and!; [| |apply close_none].
  - intros error this'. unfold bind. destruct (_sock this) as [fd|] eqn:Hs; [by intros [= <- <-]|].
    assert (Hfail : ∀ e s, udp_ok s → (s' ← close self s; Some (udp_getLastError e, s')) = Some (error, this') →
      error ≠ SUCCESS ∧ _sock this' = None ∧ open this' = ∅).
    { intros e s Hok' H. destruct (close self s) as [s'|] eqn:Hc; [|done]. injection H as <- <-.
      split; [by destruct e|]. by apply (close_some self s). }
    assert (He : open this = ∅) by (unfold udp_ok in Hok; by rewrite Hs in Hok).
    destruct a_socket as [fd|e]; [destruct a_bind as [e|]|].
    + intros H. apply Hfail in H as (? & Hn & Ho); [|by apply opened_ok].
      unfold udp_ok. by rewrite Hn, Ho, He.
    + intros [= <- <-]. split_and!; [by apply opened_ok|done|]. intros _. split_and!; [done..|eauto].
    + intros H. apply Hfail in H as (? & Hn & Ho); [|done]. unfold udp_ok. by rewrite Hn, Ho, He.
  - intros this' H. destruct (close_some self this this' Hok H) as [Hn Ho]. split; [|done].
    unfold udp_ok. by rewrite Hn, Ho.
Qed.

(** * Examples *)

Definition demo_ntoa (addr : Z) : str := if addr =? 1 then lit "10.0.0.1" else lit "10.0.0.2".
Definition udp_peer (fd : Z) : UdpSocket := Udp (Some fd) [] false {[fd]}.
Definition peer_a : peer := (lit "10.0.0.1", 1000).
Definition peer_b : peer := (lit "10.0.0.2", 2000).

(** Two peers, one of them with two packets. *)
Definition demo_sent (k : peer) : list bytes :=
  if decide (k = peer_a) then [[65]; []] else if decide (k = peer_b) then [[66; 67]] else [].
Definition demo_net : list recv_result :=
  [Datagram 1 1000 (frame [65]); RecvFailed EWOULDBLOCK; Datagram 2 2000 (frame [66; 67]);
   Datagram 1 1000 (frame [])].

Lemma demo_written p :
  p ∈ [[65]; []; [66; 67]] → (writePacket p (λ _, None) (udp_peer 3)).2 = [frame p].
Proof.
  intros H. repeat (apply elem_of_cons in H as [->|H]; [vm_compute; reflexivity|]).
  by apply not_elem_of_nil in H.
Qed.

Lemma demo_packet_ok p : p ∈ [[65]; []; [66; 67]] → packet_ok p.
Proof.
  assert (Hsmall : ∀ n, (0 < n < 100)%nat → (n mod MAX_PACKET_SIZE ≠ 0)%nat).
  { intros n Hn. pose proof MAX_value. rewrite Nat.mod_small; lia. }
  intros H. repeat (apply elem_of_cons in H as [->|H]; [split; [done|apply Hsmall; simpl; lia]|]).
  by apply not_elem_of_nil in H.
Qed.

Lemma demo_datagrams k :
  datagrams_of demo_ntoa k demo_net =
  mjoin ((λ p, (writePacket p (λ _, None) (udp_peer 3)).2) <$> demo_sent k).
Proof.
  unfold datagrams_of, demo_sent, demo_net, of_peer. csimpl.
  change (demo_ntoa 1, 1000) with peer_a. change (demo_ntoa 2, 2000) with peer_b.
  assert (peer_a ≠ peer_b) by done.
  repeat case_decide; subst; csimpl; try done; rewrite ?demo_written by (vm_compute; set_solver); done.
Qed.

Lemma demo_sent_ok k : buffered (udp_peer 4) k = [] ∧ Forall packet_ok (demo_sent k).
Proof.
  split; [done|]. unfold demo_sent. repeat case_decide; repeat constructor; apply demo_packet_ok; set_solver.
Qed.

Lemma udp_packets_witness :
  ∃ out receiver' net',
    receive_all demo_ntoa (length out) (udp_peer 4) demo_net = Returned (out, receiver', net') ∧
    ∀ k, packets_of k out = demo_sent k ∧ datagrams_of demo_ntoa k net' = [].
Proof.
  apply (udp_packets demo_ntoa (udp_peer 3) (udp_peer 4) 3 4); [done|done|exact demo_sent_ok| |].
  - repeat constructor; discriminate.
  - exact demo_datagrams.
Defined.

Lemma udp_full_packet_error_witness :
  (writePacket (replicate (MAX_PACKET_SIZE - 6) 0) (λ _, None) (udp_peer 3)).2 =
    [frame (replicate (MAX_PACKET_SIZE - 6) 0); []].
Proof.
  apply (udp_full_packet_error demo_ntoa (udp_peer 3) (udp_peer 4) 3 4 _ 1 1000 []); [done|done| |done].
  rewrite length_replicate. pose proof MAX_value. lia.
Defined.

Lemma udp_write_cuts_witness : ∃ ds, write [1; 2] (λ _, None) (udp_peer 3) = (SUCCESS, ds) ∧ mjoin ds = [1; 2].
Proof.
  destruct (udp_write_cuts [1; 2] (udp_peer 3) 3 eq_refl) as (ds & H1 & H2 & _). exists ds. split; assumption.
Defined.

Lemma udp_bind_close_witness :
  udp_ok UdpSocket_new ∧ ∀ this', close false UdpSocket_new = Some this' → udp_ok this'.
Proof.
  split; [reflexivity|]. intros this' H.
  apply (udp_bind_close false (inl 3) None UdpSocket_new eq_refl), H.
Defined.

(** A second packet in the same datagram is not delivered until its peer sends
    something more: [receivePacket] waits although its buffer holds the whole
    packet. *)
Theorem udp_leftover_waits :
  let net := [Datagram 1 1000 (frame [65] ++ frame [66])] in
  ∃ this, receivePacket demo_ntoa [] ([], 0) (udp_peer 4) net = Returned (SUCCESS, [65], peer_a, this, []) ∧
    buffered this peer_a = frame [66] ∧ receivePacket demo_ntoa [] ([], 0) this [] = Waiting.
Proof.
  exists (Udp (Some 4) [(peer_a, frame [66])] false {[4]}). split_and!; vm_compute; reflexivity.
Qed.
