(* ===== verification/AsyncWriter.v ===== *)
(** The worker thread of the sockets, [work] in
    [libs/sockets/src/TcpSocket.cpp] and [libs/sockets/src/UdpSocket.cpp], with
    the asynchronous writes and the destructors.

    Threads interleave at the accesses to the shared members. The sections under
    the lock of a queue are single steps; [_condMutex] is explicit, because
    waiting on [_condVar] releases it. [T] is what the queues hold; the two
    sockets differ in when they pop a written element ([pop_first]) and in
    whether the destructor sets [_terminate] under the lock ([locked]). *)

From stdpp Require Import relations.
From S2P Require Import Transition Prelude.

Section Writer.
Context {T : Type} (pop_first locked : bool).

(** * Model *)

(** Where the worker is in [work]. *)
Inductive worker_pc : Type :=
| WLock                  (* before locking [_condMutex] *)
| WTerminate             (* [if (_terminate)] *)
| WPacketSize            (* [_writePacketAsyncQueue.size() != 0] *)
| WPlainSize             (* [_writeAsyncQueue.size() != 0] *)
| WWait                  (* in [_condVar.wait(ul)], asleep *)
| WWoken                 (* awake, about to lock [_condMutex] again *)
| WUnlock                (* the end of the scope of [ul] *)
| WPacket                (* the condition of the first inner loop *)
| WPacketWrite (x : T)   (* [writePacket], without a lock *)
| WPacketPop
| WPlain                 (* the condition of the second inner loop *)
| WPlainWrite (x : T)
| WPlainPop
| WDone.

(** A thread in [writePacketAsync] or [writeAsync]: it has pushed its element and
    has yet to lock [_condMutex] and notify, or it is outside. *)
Inductive producer_pc : Type := PIdle | PNotify.

(** The thread that runs the destructor: it has not started, it has set
    [_terminate], it has notified the worker and joins it. *)
Inductive destructor_pc : Type := DNone | DSet | DJoin.

(** [pushed] and [wrote] record what has been pushed into the queues and handed
    to [writePacket] and [write]. *)
Record writer : Type := Writer {
  _writePacketAsyncQueue : list T;
  _writeAsyncQueue : list T;
  _condMutex : bool;
  _terminate : bool;
  finish : bool;
  worker : worker_pc;
  producers : list producer_pc;
  destructor : destructor_pc;
  pushed_packets : list T;
  pushed_plain : list T;
  wrote_packets : list T;
  wrote_plain : list T
}.

(** A new socket and the threads that use it. *)
Definition Writer_new (n : nat) : writer :=
  Writer [] [] false false false WLock (replicate n PIdle) DNone [] [] [] [].

Definition set_worker (m fin : bool) (p : worker_pc) (s : writer) : writer :=
  Writer (_writePacketAsyncQueue s) (_writeAsyncQueue s) m (_terminate s) fin p (producers s)
    (destructor s) (pushed_packets s) (pushed_plain s) (wrote_packets s) (wrote_plain s).
Definition go (p : worker_pc) (s : writer) : writer := set_worker (_condMutex s) (finish s) p s.
Definition set_packets (q : list T) (s : writer) : writer :=
  Writer q (_writeAsyncQueue s) (_condMutex s) (_terminate s) (finish s) (worker s) (producers s)
    (destructor s) (pushed_packets s) (pushed_plain s) (wrote_packets s) (wrote_plain s).
Definition set_plain (q : list T) (s : writer) : writer :=
  Writer (_writePacketAsyncQueue s) q (_condMutex s) (_terminate s) (finish s) (worker s)
    (producers s) (destructor s) (pushed_packets s) (pushed_plain s) (wrote_packets s)
    (wrote_plain s).
Definition log_packet (x : T) (s : writer) : writer :=
  Writer (_writePacketAsyncQueue s) (_writeAsyncQueue s) (_condMutex s) (_terminate s) (finish s)
    (worker s) (producers s) (destructor s) (pushed_packets s) (pushed_plain s)
    (wrote_packets s ++ [x]) (wrote_plain s).
Definition log_plain (x : T) (s : writer) : writer :=
  Writer (_writePacketAsyncQueue s) (_writeAsyncQueue s) (_condMutex s) (_terminate s) (finish s)
    (worker s) (producers s) (destructor s) (pushed_packets s) (pushed_plain s)
    (wrote_packets s) (wrote_plain s ++ [x]).

(** A step of the worker; [None] if it is blocked or has ended. *)
Definition worker_step (s : writer) : option writer :=
  match worker s with
  | WLock => if _condMutex s then None else Some (set_worker true (finish s) WTerminate s)
  | WTerminate =>
      if _terminate s then Some (set_worker (_condMutex s) true WUnlock s)
      else Some (go WPacketSize s)
  | WPacketSize =>
      match _writePacketAsyncQueue s with
      | [] => Some (go WPlainSize s)
      | _ => Some (go WUnlock s)
      end
  | WPlainSize =>
      match _writeAsyncQueue s with
      | [] => Some (set_worker false (finish s) WWait s)
      | _ => Some (go WUnlock s)
      end
  | WWait => None
  | WWoken => if _condMutex s then None else Some (set_worker true (finish s) WUnlock s)
  | WUnlock => Some (set_worker false (finish s) WPacket s)
  | WPacket =>
      match _writePacketAsyncQueue s with
      | [] => Some (go WPlain s)
      | x :: q => Some (go (WPacketWrite x) (if pop_first then set_packets q s else s))
      end
  | WPacketWrite x => Some (go (if pop_first then WPacket else WPacketPop) (log_packet x s))
  | WPacketPop => Some (go WPacket (set_packets (tail (_writePacketAsyncQueue s)) s))
  | WPlain =>
      match _writeAsyncQueue s with
      | [] => Some (go (if finish s then WDone else WLock) s)
      | x :: q => Some (go (WPlainWrite x) (if pop_first then set_plain q s else s))
      end
  | WPlainWrite x => Some (go (if pop_first then WPlain else WPlainPop) (log_plain x s))
  | WPlainPop => Some (go WPlain (set_plain (tail (_writeAsyncQueue s)) s))
  | WDone => None
  end.

(** [writePacketAsync] and [writeAsync]: the push, then the notification. *)
Definition push_packet (i : nat) (x : T) (s : writer) : writer :=
  Writer (_writePacketAsyncQueue s ++ [x]) (_writeAsyncQueue s) (_condMutex s) (_terminate s)
    (finish s) (worker s) (<[i := PNotify]> (producers s)) (destructor s)
    (pushed_packets s ++ [x]) (pushed_plain s) (wrote_packets s) (wrote_plain s).
Definition push_plain (i : nat) (x : T) (s : writer) : writer :=
  Writer (_writePacketAsyncQueue s) (_writeAsyncQueue s ++ [x]) (_condMutex s) (_terminate s)
    (finish s) (worker s) (<[i := PNotify]> (producers s)) (destructor s)
    (pushed_packets s) (pushed_plain s ++ [x]) (wrote_packets s) (wrote_plain s).

(** [_condVar.notify_all()], under [_condMutex]. *)
Definition notify_all (s : writer) : writer :=
  match worker s with WWait => go WWoken s | _ => s end.
Definition notify (i : nat) (s : writer) : writer :=
  let s := notify_all s in
  Writer (_writePacketAsyncQueue s) (_writeAsyncQueue s) (_condMutex s) (_terminate s) (finish s)
    (worker s) (<[i := PIdle]> (producers s)) (destructor s) (pushed_packets s) (pushed_plain s)
    (wrote_packets s) (wrote_plain s).

(** The destructor. *)
Definition set_destructor (t : bool) (d : destructor_pc) (s : writer) : writer :=
  Writer (_writePacketAsyncQueue s) (_writeAsyncQueue s) (_condMutex s) t (finish s)
    (worker s) (producers s) d (pushed_packets s) (pushed_plain s) (wrote_packets s)
    (wrote_plain s).

(** The steps of the threads. Nobody may call a method of an object that is being
    destroyed, so no push starts after the destructor has. A waiting thread may
    wake up without a notification. *)
Inductive step : writer → writer → Prop :=
| step_worker s s' : worker_step s = Some s' → step s s'
| step_push_packet i x s :
    destructor s = DNone → producers s !! i = Some PIdle → step s (push_packet i x s)
| step_push_plain i x s :
    destructor s = DNone → producers s !! i = Some PIdle → step s (push_plain i x s)
| step_notify i s :
    producers s !! i = Some PNotify → _condMutex s = false → step s (notify i s)
| step_spurious s : worker s = WWait → step s (go WWoken s)
| step_destroy_locked s :
    locked = true → destructor s = DNone → _condMutex s = false →
    step s (set_destructor true DJoin (notify_all s))
| step_destroy s :
    locked = false → destructor s = DNone → step s (set_destructor true DSet s)
| step_destroy_notify s :
    destructor s = DSet → _condMutex s = false →
    step s (set_destructor (_terminate s) DJoin (notify_all s)).

(** * The invariant *)

(** Whether the worker holds [_condMutex]. *)
Definition holds (p : worker_pc) : bool :=
  match p with WTerminate | WPacketSize | WPlainSize | WUnlock => true | _ => false end.

(** Pushed but not yet written. *)
Definition pending_packets (s : writer) : list T :=
  match worker s with
  | WPacketWrite x => if pop_first then x :: _writePacketAsyncQueue s else _writePacketAsyncQueue s
  | WPacketPop => tail (_writePacketAsyncQueue s)
  | _ => _writePacketAsyncQueue s
  end.
Definition pending_plain (s : writer) : list T :=
  match worker s with
  | WPlainWrite x => if pop_first then x :: _writeAsyncQueue s else _writeAsyncQueue s
  | WPlainPop => tail (_writeAsyncQueue s)
  | _ => _writeAsyncQueue s
  end.

(** What the local variables and the position of the worker say. *)
Definition worker_ok (s : writer) : Prop :=
  match worker s with
  | WPacketWrite x => pop_first = false → head (_writePacketAsyncQueue s) = Some x
  | WPacketPop => pop_first = false ∧ _writePacketAsyncQueue s ≠ []
  | WPlainWrite x => pop_first = false → head (_writeAsyncQueue s) = Some x
  | WPlainPop => pop_first = false ∧ _writeAsyncQueue s ≠ []
  | _ => True
  end.

(** What a worker that has seen [_terminate] has emptied. *)
Definition finish_ok (s : writer) : Prop :=
  match worker s with
  | WPlain | WPlainWrite _ | WPlainPop => finish s = true → _writePacketAsyncQueue s = []
  | WDone => finish s = true ∧ _writePacketAsyncQueue s = [] ∧ _writeAsyncQueue s = []
  | WUnlock | WPacket | WPacketWrite _ | WPacketPop => True
  | _ => finish s = false
  end.

(** Somebody is about to notify. *)
Definition notifier (s : writer) : Prop := PNotify ∈ producers s.

(** What the worker may miss while it checks and waits. *)
Definition wait_ok (s : writer) : Prop :=
  match worker s with
  | WPacketSize => _terminate s = true → destructor s = DSet
  | WPlainSize =>
      (_writePacketAsyncQueue s ≠ [] → notifier s) ∧ (_terminate s = true → destructor s = DSet)
  | WWait =>
      (_writePacketAsyncQueue s ≠ [] ∨ _writeAsyncQueue s ≠ [] → notifier s) ∧
      (_terminate s = true → destructor s = DSet)
  | _ => True
  end.

Record writer_ok (s : writer) : Prop := {
  ok_packets : pushed_packets s = wrote_packets s ++ pending_packets s;
  ok_plain : pushed_plain s = wrote_plain s ++ pending_plain s;
  ok_mutex : _condMutex s = holds (worker s);
  ok_terminate : _terminate s = true ↔ destructor s ≠ DNone;
  ok_finish : finish s = true → _terminate s = true;
  ok_worker : worker_ok s;
  ok_drained : finish_ok s;
  ok_wait : wait_ok s
}.

Lemma new_writer_ok n : writer_ok (Writer_new n).
Proof. by split. Qed.

(** The element being written is the head of the queue. *)
Ltac queue_head H :=
  specialize (H eq_refl);
  match type of H with
  | context [match ?q with _ => _ end] => destruct q; [discriminate H|injection H as <-]
  end.

Lemma worker_step_ok s s' : worker_step s = Some s' → writer_ok s → writer_ok s'.
Proof.
  destruct s as [pq wq m t fin w ps d pp pw wp ww].
  intros Hstep [H1 H2 H3 H4 H5 H6 H7 H8]. cbv -[app elem_of] in *.
  destruct w, pop_first eqn:Hpf.
  all: repeat match type of Hstep with
    | context [match ?x with _ => _ end] => destruct x eqn:?
    | None = Some _ => discriminate
    | Some _ = Some _ => injection Hstep as <-
    end.
  all: split; cbv -[app elem_of]; rewrite ?Hpf.
  all: try done.
  all: try (intuition congruence).
  all: rewrite <- ?app_assoc; try done; queue_head H6; try split; done.
Qed.

Lemma notify_all_ok s :
  writer_ok s → _condMutex s = false →
  writer_ok (notify_all s) ∧ worker (notify_all s) ≠ WWait ∧ holds (worker (notify_all s)) = false.
Proof.
  destruct s as [pq wq m t fin w ps d pp pw wp ww].
  intros [H1 H2 H3 H4 H5 H6 H7 H8] Hm. cbv -[app elem_of] in *.
  destruct w; try congruence; (split; [split|]); cbv -[app elem_of]; done.
Qed.

(** Without a worker that checks or waits, the producers and the destructor do not
    matter. *)
Lemma change_others s ps t d :
  writer_ok s → worker s ≠ WWait → holds (worker s) = false → (t = true ↔ d ≠ DNone) →
  (_terminate s = true → t = true) →
  writer_ok (Writer (_writePacketAsyncQueue s) (_writeAsyncQueue s) (_condMutex s) t (finish s)
    (worker s) ps d (pushed_packets s) (pushed_plain s) (wrote_packets s) (wrote_plain s)).
Proof.
  destruct s as [pq wq m t' fin w ps' d' pp pw wp ww].
  intros [H1 H2 H3 H4 H5 H6 H7 H8] Hw Hh Ht Htt. cbv -[app elem_of] in *.
  split; cbv -[app elem_of]; try done; [by intros ?%H5%Htt|]. by destruct w.
Qed.

(** A worker that has ended stays so. *)
Lemma step_done s s' : step s s' → worker s = WDone → worker s' = WDone.
Proof.
  assert (Hn : ∀ s, worker s = WDone → worker (notify_all s) = WDone).
  { intros s1 H. unfold notify_all. by rewrite H. }
  intros [s1 s1' Hw|i x s1 Hd Hi|i x s1 Hd Hi|i s1 Hi Hm|s1 Hw|s1 Hl Hd Hm|s1 Hl Hd|s1 Hd Hm] Hdone;
    simpl; auto; [|congruence].
  unfold worker_step in Hw. by rewrite Hdone in Hw.
Qed.

(** Before the destructor starts nobody has asked the worker to finish. *)
Lemma not_destroyed s : writer_ok s → destructor s = DNone → _terminate s = false ∧ finish s = false.
Proof.
  intros Hok Hd. assert (Ht : _terminate s = false).
  { destruct (_terminate s) eqn:E; [|done]. by apply (ok_terminate _ Hok) in E. }
  split; [done|]. destruct (finish s) eqn:E; [|done]. apply (ok_finish _ Hok) in E. congruence.
Qed.

Lemma tail_snoc (q : list T) x : q ≠ [] → tail (q ++ [x]) = tail q ++ [x].
Proof. by destruct q. Qed.

Lemma push_notifies i s : producers s !! i = Some PIdle → PNotify ∈ <[i := PNotify]> (producers s).
Proof. intros Hi. apply list_elem_of_insert, lookup_lt_is_Some. eauto. Qed.

Lemma push_packet_ok i x s :
  writer_ok s → destructor s = DNone → producers s !! i = Some PIdle → writer_ok (push_packet i x s).
Proof.
  intros Hok Hd Hi. destruct (not_destroyed s Hok Hd) as [Ht Hf].
  pose proof (push_notifies i s Hi) as Hn. destruct Hok as [H1 H2 H3 H4 H5 H6 H7 H8].
  split; try done; unfold pending_packets, worker_ok, finish_ok, wait_ok, notifier in *; cbn.
  - rewrite H1, <- app_assoc. f_equal.
    destruct (worker s); try done; [by destruct pop_first|]. destruct H6. by rewrite tail_snoc.
  - destruct (worker s) as [| | | | | | | |y| | | | |]; try done.
    + intros Hp. specialize (H6 Hp). by destruct (_writePacketAsyncQueue s).
    + split; [apply H6|]. by intros [_ ?]%app_nil.
  - destruct (worker s); try done; try congruence. destruct H7. congruence.
  - destruct (worker s); try done; rewrite Ht; done.
Qed.

Lemma push_plain_ok i x s :
  writer_ok s → destructor s = DNone → producers s !! i = Some PIdle → writer_ok (push_plain i x s).
Proof.
  intros Hok Hd Hi. destruct (not_destroyed s Hok Hd) as [Ht Hf].
  pose proof (push_notifies i s Hi) as Hn. destruct Hok as [H1 H2 H3 H4 H5 H6 H7 H8].
  split; try done; unfold pending_plain, worker_ok, finish_ok, wait_ok, notifier in *; cbn.
  - rewrite H2, <- app_assoc. f_equal.
    destruct (worker s); try done; [by destruct pop_first|]. destruct H6. by rewrite tail_snoc.
  - destruct (worker s) as [| | | | | | | | | | |y| |]; try done.
    + intros Hp. specialize (H6 Hp). by destruct (_writeAsyncQueue s).
    + split; [apply H6|]. by intros [_ ?]%app_nil.
  - destruct (worker s); try done; try congruence. destruct H7. congruence.
  - destruct (worker s); try done; rewrite Ht; done.
Qed.

Lemma writer_step_ok s s' : step s s' → writer_ok s → writer_ok s'.
Proof.
  intros [s1 s1' Hw|i x s1 Hd Hi|i x s1 Hd Hi|i s1 Hi Hm|s1 Hw|s1 Hl Hd Hm|s1 Hl Hd|s1 Hd Hm] Hok.
  - by eapply worker_step_ok.
  - by apply push_packet_ok.
  - by apply push_plain_ok.
  - destruct (notify_all_ok s1 Hok Hm) as (Hok' & Hw & Hh).
    apply (change_others (notify_all s1)); try done. apply Hok'.
  - destruct s1 as [pq wq m t fin w ps d pp pw wp ww], Hok as [H1 H2 H3 H4 H5 H6 H7 H8].
    cbn in *. subst w. by split.
  - destruct (notify_all_ok s1 Hok Hm) as (Hok' & Hw & Hh).
    by apply (change_others (notify_all s1)).
  - destruct (not_destroyed s1 Hok Hd) as [Ht Hf]. destruct Hok as [H1 H2 H3 H4 H5 H6 H7 H8].
    split; try done. unfold wait_ok, notifier in *. cbn. destruct (worker s1); try done; by split; [apply H8|].
  - destruct (notify_all_ok s1 Hok Hm) as (Hok' & Hw & Hh).
    assert (Ht : _terminate s1 = true) by (apply (ok_terminate _ Hok); congruence).
    rewrite Ht. by apply (change_others (notify_all s1)).
Qed.

Lemma reachable_ok n s : rtc step (Writer_new n) s → writer_ok s.
Proof. apply (rtc_invariant _ _ writer_step_ok), new_writer_ok. Qed.

(** * Progress of the worker *)

(** The steps that the worker has left if the other threads do nothing: the
    elements in the queues count 64 each, and the positions are numbered
    backwards from the end. While the worker checks the queues and there is
    something in them, another round of the two inner loops is ahead. *)
Definition items (s : writer) : nat :=
  length (_writePacketAsyncQueue s) + length (_writeAsyncQueue s).
Definition ahead (s : writer) (empty more : nat) : nat :=
  match items s with O => empty | _ => more end.
Definition plain_ahead (s : writer) : nat :=
  if finish s then 8 else match _writePacketAsyncQueue s with [] => 36 | _ => 64 end.
Definition packet_ahead (s : writer) : nat := if finish s then 12 else 40.
Definition position (s : writer) : nat :=
  match worker s with
  | WWoken => 48
  | WUnlock => if finish s then 16 else 44
  | WPacket => packet_ahead s
  | WPacketWrite _ => if pop_first then packet_ahead s + 8 else packet_ahead s - 1
  | WPacketPop => packet_ahead s - 2
  | WPlain => plain_ahead s
  | WPlainWrite _ => if pop_first then plain_ahead s + 8 else plain_ahead s - 1
  | WPlainPop => plain_ahead s - 2
  | WLock => ahead s 32 60
  | WTerminate => ahead s 28 56
  | WPacketSize => ahead s 24 52
  | WPlainSize => ahead s 20 48
  | WWait | WDone => 0
  end.
Definition steps_left (s : writer) : nat := 64 * items s + position s.

Lemma worker_step_decreases s s' :
  worker_ok s → worker_step s = Some s' → (steps_left s' < steps_left s)%nat.
Proof.
  destruct s as [pq wq m t fin w ps d pp pw wp ww]. intros Hok Hstep.
  unfold worker_ok, worker_step in *. cbn in *.
  unfold steps_left, items, position, ahead, items, plain_ahead, packet_ahead.
  destruct w, pop_first eqn:Hpf; cbn -[Nat.mul] in *; try done.
  all: repeat match type of Hstep with
    | context [match ?x with _ => _ end] => destruct x eqn:?
    | None = Some _ => discriminate
    | Some _ = Some _ => injection Hstep as <-
    end; cbn -[Nat.mul]; rewrite ?Hpf.
  all: try (destruct pq, wq, fin; cbn -[Nat.mul] in *; try lia; naive_solver).
Qed.

(** A step of the worker while the other threads do nothing. *)
Definition worker_steps : relation writer := rtc (λ s s', worker_step s = Some s').

(** The parts that the worker does not touch. *)
Definition same_others (s s' : writer) : Prop :=
  producers s' = producers s ∧ destructor s' = destructor s ∧
  pushed_packets s' = pushed_packets s ∧ pushed_plain s' = pushed_plain s.

Lemma worker_step_others s s' : worker_step s = Some s' → same_others s s'.
Proof.
  unfold worker_step, same_others. intros H.
  repeat match type of H with
  | context [match ?x with _ => _ end] => destruct x
  end; try discriminate; by injection H as <-.
Qed.

Lemma worker_blocked s :
  writer_ok s → worker_step s = None → worker s = WWait ∨ worker s = WDone.
Proof.
  intros Hok H. pose proof (ok_mutex _ Hok) as Hm. unfold worker_step in H.
  destruct (worker s); auto; repeat match type of H with
  | context [match ?x with _ => _ end] => destruct x
  end; discriminate.
Qed.

Lemma worker_runs n : ∀ s, (steps_left s < n)%nat → writer_ok s →
  ∃ s', worker_steps s s' ∧ writer_ok s' ∧ same_others s s' ∧ (worker s' = WWait ∨ worker s' = WDone).
Proof.
  induction n as [|n IH]; intros s Hn Hok; [lia|].
  destruct (worker_step s) as [s1|] eqn:Hs.
  - destruct (IH s1) as (s' & Hr & Hok' & Ho & Hw).
    { pose proof (worker_step_decreases s s1 (ok_worker _ Hok) Hs). lia. }
    { by eapply worker_step_ok. }
    exists s'. pose proof (worker_step_others s s1 Hs). unfold same_others in *.
    split_and!; [by eapply rtc_l|done|naive_solver congruence..|done].
  - exists s. unfold same_others. split_and!; [apply rtc_refl|done..|by apply worker_blocked].
Qed.

(** A worker that cannot go on has emptied the queues, unless it is about to be
    notified. *)
Lemma worker_idle s :
  writer_ok s → worker s = WWait ∨ worker s = WDone → ¬ notifier s → destructor s ≠ DSet →
  _writePacketAsyncQueue s = [] ∧ _writeAsyncQueue s = [].
Proof.
  intros [_ _ _ _ _ _ H7 H8] Hw Hn Hd. unfold finish_ok, wait_ok, notifier in *.
  destruct Hw as [Hw|Hw]; rewrite Hw in *; [|tauto]. destruct H8 as [H8 _].
  destruct (_writePacketAsyncQueue s), (_writeAsyncQueue s); try done; exfalso; apply Hn, H8;
    (by left) || (by right).
Qed.

(** * Properties *)

(** C25: in every state of every interleaving, the data handed to [writePacket] and
    to [write] so far is what has been pushed into the two queues, in the order
    of the pushes, but for the elements that are still in the queue or being
    written: nothing is lost, doubled or reordered. *)
Theorem async_fifo n s :
  rtc step (Writer_new n) s →
  pushed_packets s = wrote_packets s ++ pending_packets s ∧
  pushed_plain s = wrote_plain s ++ pending_plain s.
Proof. intros Hs. pose proof (reachable_ok n s Hs) as Hok. split; apply Hok. Qed.

(** C26: no wake-up is lost: whenever the worker sleeps although there is something
    in a queue, a thread that has pushed is about to notify it, and whenever it
    sleeps although [_terminate] is set, the destructor is about to. *)
Theorem async_no_lost_wakeup n s :
  rtc step (Writer_new n) s → worker s = WWait →
  (_writePacketAsyncQueue s ≠ [] ∨ _writeAsyncQueue s ≠ [] → notifier s) ∧
  (_terminate s = true → destructor s = DSet).
Proof.
  intros Hs Hw. pose proof (ok_wait _ (reachable_ok n s Hs)) as H. unfold wait_ok in H.
  by rewrite Hw in H.
Qed.

(** C19: from every reachable state in which no notification is outstanding, the
    worker by itself writes everything that has been pushed, in a bounded number
    of steps, and then sleeps; after the destructor has started it ends instead,
    so that the destructor's [join] returns and no pending write is lost. *)
Theorem async_drains n s :
  rtc step (Writer_new n) s → ¬ notifier s → destructor s ≠ DSet →
  ∃ s', worker_steps s s' ∧ _writePacketAsyncQueue s' = [] ∧ _writeAsyncQueue s' = [] ∧
    wrote_packets s' = pushed_packets s ∧ wrote_plain s' = pushed_plain s ∧
    worker s' = match destructor s with DNone => WWait | _ => WDone end.
Proof.
  intros Hs Hn Hd. pose proof (reachable_ok n s Hs) as Hok.
  destruct (worker_runs (S (steps_left s)) s) as (s' & Hr & Hok' & (Hp & Hd' & Hpp & Hpw) & Hw); [lia|done|].
  exists s'. rewrite <- Hd' in Hd |- *. unfold notifier in Hn. rewrite <- Hp in Hn.
  destruct (worker_idle s' Hok' Hw Hn Hd) as [Eq1 Eq2].
  destruct Hok' as [H1 H2 _ H4 H5 _ H7 H8].
  unfold pending_packets, pending_plain, finish_ok, wait_ok in *. rewrite <- Hpp, <- Hpw.
  rewrite Eq1, Eq2 in *.
  destruct Hw as [Hw|Hw]; rewrite Hw in *; rewrite app_nil_r in *; split_and!; try done.
  - destruct H8 as [_ H8], H4 as [_ H4]. destruct (destructor s'); [done|done|].
    discriminate H8. by apply H4.
  - destruct H7 as [Hf _]. apply H5, H4 in Hf. by destruct (destructor s').
Qed.
End Writer.

(** * The two sockets *)

(** [TcpSocket] pops before it writes, and its destructor sets [_terminate] under
    the lock; [UdpSocket] does neither. *)
Definition tcp_step {T} : relation (writer (T := T)) := step true true.
Definition udp_step {T} : relation (writer (T := T)) := step false false.

(** * The writer as a part of a system *)

Lemma notify_all_same {T} (w : writer (T := T)) :
  wrote_packets (notify_all w) = wrote_packets w ∧ pushed_plain (notify_all w) = pushed_plain w ∧
  pushed_packets (notify_all w) = pushed_packets w.
Proof. unfold notify_all. by destruct (worker w). Qed.

(** What the worker writes. *)
Definition writes {T} (w : writer (T := T)) : list T :=
  match worker w with WPacketWrite x => [x] | _ => [] end.

Lemma worker_step_writes {T} pop_first (w w' : writer (T := T)) :
  worker_step pop_first w = Some w' → wrote_packets w' = wrote_packets w ++ writes w.
Proof.
  destruct w as [pq wq m t fin p ps d pp pw wp ww]. unfold worker_step, writes. cbn.
  intros H. destruct p, pop_first; repeat match type of H with
    | context [match ?x with _ => _ end] => destruct x
    end; try discriminate; injection H as <-; cbn; by rewrite ?app_nil_r.
Qed.

(** A step takes what it writes from what is pending. *)
Lemma worker_step_pending {T} pop_first (w w' : writer (T := T)) :
  writer_ok pop_first w → worker_step pop_first w = Some w' →
  pending_packets pop_first w = writes w ++ pending_packets pop_first w'.
Proof.
  intros Hok Hw. pose proof (ok_packets _ _ Hok) as H1.
  pose proof (ok_packets _ _ (worker_step_ok pop_first _ _ Hw Hok)) as H2.
  destruct (worker_step_others _ _ _ Hw) as (_ & _ & Hpp & _).
  rewrite Hpp, (worker_step_writes _ _ _ Hw), H1, <- app_assoc in H2. by apply app_inv_head in H2.
Qed.

(** What is being written has been pushed. *)
Lemma writes_pushed {T} pop_first (w : writer (T := T)) x :
  writer_ok pop_first w → x ∈ writes w → x ∈ pushed_packets w.
Proof.
  intros Hok Hx. rewrite (ok_packets _ _ Hok). apply elem_of_app. right.
  pose proof (ok_worker _ _ Hok) as Hh. unfold writes, pending_packets, worker_ok in *.
  destruct (worker w); try by apply elem_of_nil in Hx.
  apply list_elem_of_singleton in Hx as ->. destruct pop_first; [by left|].
  specialize (Hh eq_refl). destruct (_writePacketAsyncQueue w); simplify_eq/=. by left.
Qed.

(** Nothing is pending when the worker cannot go on and nobody is about to notify
    it. *)
Lemma nothing_pending {T} pop_first (w : writer (T := T)) :
  writer_ok pop_first w → worker_step pop_first w = None → ¬ notifier w → destructor w ≠ DSet →
  pending_packets pop_first w = [].
Proof.
  intros Hok Hw Hn Hd. apply worker_blocked in Hw; [|done].
  destruct (worker_idle pop_first w Hok Hw Hn Hd) as [Hq _].
  unfold pending_packets. by destruct Hw as [-> | ->].
Qed.

(** Nobody has called [writeAsync]. *)
Lemma no_plain_write {T} pop_first (w : writer (T := T)) x :
  writer_ok pop_first w → pushed_plain w = [] → worker w ≠ WPlainWrite x.
Proof.
  intros Hok Hp Hw. pose proof (ok_plain _ _ Hok) as E.
  pose proof (ok_worker _ _ Hok) as Hx. unfold pending_plain, worker_ok in *.
  rewrite Hp, Hw in *. destruct pop_first.
  - by apply eq_sym, app_nil in E as [_ ?].
  - apply eq_sym, app_nil in E as [_ E]. specialize (Hx eq_refl). by rewrite E in Hx.
Qed.

(** * Evaluation *)

(** A thread has pushed, and has not notified yet; then it has. *)
Definition demo_pushed : writer := push_packet 0 7 (Writer_new 1).
Definition demo_notified : writer := notify 0 demo_pushed.

(** The worker is asleep. *)
Definition run_worker (pop_first : bool) (n : nat) (s : writer (T := nat)) : writer :=
  Nat.iter n (λ s, default s (worker_step pop_first s)) s.
Definition demo_asleep : writer := run_worker true 4 (Writer_new 1).
Definition demo_missed : writer := push_packet 0 7 demo_asleep.

Lemma demo_notified_reachable b1 b2 : rtc (step b1 b2) (Writer_new 1) demo_notified.
Proof.
  apply rtc_l with demo_pushed; [by apply step_push_packet|].
  apply rtc_once. by apply step_notify.
Qed.

Lemma demo_missed_reachable : rtc tcp_step (Writer_new 1) demo_missed.
Proof.
  apply rtc_l with (run_worker true 1 (Writer_new 1)); [by apply step_worker|].
  apply rtc_l with (run_worker true 2 (Writer_new 1)); [by apply step_worker|].
  apply rtc_l with (run_worker true 3 (Writer_new 1)); [by apply step_worker|].
  apply rtc_l with demo_asleep; [by apply step_worker|].
  apply rtc_once. by apply step_push_packet.
Qed.

Lemma async_fifo_witness :
  rtc tcp_step (Writer_new 1) demo_notified ∧ pushed_packets demo_notified = [7] ∧
  pushed_packets demo_notified = wrote_packets demo_notified ++ pending_packets true demo_notified.
Proof.
  split; [apply demo_notified_reachable|]. split; [reflexivity|].
  apply (async_fifo true true 1 demo_notified), demo_notified_reachable.
Defined.

Lemma async_no_lost_wakeup_witness : worker demo_missed = WWait ∧ notifier demo_missed.
Proof.
  split; [reflexivity|].
  apply (async_no_lost_wakeup true true 1 demo_missed demo_missed_reachable eq_refl).
  left. discriminate.
Defined.

Lemma async_drains_witness :
  ∃ s', worker_steps false demo_notified s' ∧ wrote_packets s' = [7] ∧ worker s' = WWait.
Proof.
  destruct (async_drains false false 1 demo_notified) as (s' & H1 & _ & _ & H2 & _ & H3).
  - apply demo_notified_reachable.
  - intros H. apply list_elem_of_singleton in H. discriminate H.
  - discriminate.
  - exists s'. split; [exact H1|]. split; [exact H2|exact H3].
Defined.
