(* ===== verification/TcpClose.v ===== *)
(** [close] of a [TcpSocket] whose data is received by the thread of
    [receiveCallback]: [libs/sockets/src/TcpSocket.cpp] and [read] of
    [include/clockUtils/sockets/TcpSocket.h].

    One thread calls [close], the other one goes around its loop; both use
    [_sock] and the descriptor behind it, and each of their accesses is a step of
    its own. The operating system delivers the data of the peer, ends the
    connection or lets [recv] fail, and other parts of the process may open
    descriptors.

    A connected socket has no listen thread to join, and the worker thread, which
    shares [_condMutex] with [close], is left out. The callback returns, after it
    has called [close] or not. *)

From stdpp Require Import gmap relations.
From S2P Require Import SocketErrors Packet TcpSocket.
From S2P Require TcpConnection.
From S2P Require Import Transition Prelude.

Local Open Scope Z_scope.

(** * Model *)

(** What a descriptor of the process refers to. *)
Inductive file : Type := Connection | Other.

(** The thread of [receiveCallback]: at the test of its loop, in [receivePacket]
    between two calls of [recv], with the descriptor that the next call gets,
    inside of the call, in the callback, and behind the loop. *)
Inductive thread_pc : Type :=
| AtTest
| Receiving
| AtCall (sock : option Z)
| InRecv (f : file)
| Calling (buffer : bytes) (err : ClockError)
| Ended.

(** [close]: not called, and before each of its steps. *)
Inductive close_pc : Type :=
| NotCalled | AtShutdown | AtClose | AtInvalidate | AtJoin | AtStatus | Closed.

(** The socket; the two threads; the descriptors of the process; of the
    connection the data that has arrived, the data that is under way, and whether
    its end has been reached or nothing more is accepted; the answers to the call
    of [receivePacket] that is running; the calls of the callback that are over. *)
Record state : Type := State {
  this : TcpSocket;
  closer : close_pc;
  thread : thread_pc;
  fds : gmap Z file;
  arrived : bytes;
  coming : bytes;
  shut : bool;
  asked : list recv_result;
  calls : list (bytes * ClockError)
}.

Definition set_this (t : TcpSocket) (s : state) : state :=
  State t (closer s) (thread s) (fds s) (arrived s) (coming s) (shut s) (asked s) (calls s).
Definition set_closer (p : close_pc) (s : state) : state :=
  State (this s) p (thread s) (fds s) (arrived s) (coming s) (shut s) (asked s) (calls s).
Definition set_thread (p : thread_pc) (s : state) : state :=
  State (this s) (closer s) p (fds s) (arrived s) (coming s) (shut s) (asked s) (calls s).
Definition set_open (m : gmap Z file) (s : state) : state :=
  State (this s) (closer s) (thread s) m (arrived s) (coming s) (shut s) (asked s) (calls s).
Definition set_shut (s : state) : state :=
  State (this s) (closer s) (thread s) (fds s) (arrived s) (coming s) true (asked s) (calls s).
Definition set_asked (l : list recv_result) (s : state) : state :=
  State (this s) (closer s) (thread s) (fds s) (arrived s) (coming s) (shut s) l (calls s).

Definition write_sock (o : option Z) (t : TcpSocket) : TcpSocket := Tcp o (_status t) (_buffer t).
Definition write_status (st : SocketStatus) (t : TcpSocket) : TcpSocket := Tcp (_sock t) st (_buffer t).

(** A connected socket whose callback thread starts, with the data of the peer
    still under way. *)
Definition State_new (t : TcpSocket) (m : gmap Z file) (under_way : bytes) : state :=
  State t NotCalled AtTest m [] under_way false [] [].

Section Steps.
(** Whether the callback calls [close], or another thread does. *)
Context (self : bool).

(** Whether [close] can be called: by the callback only while it runs. *)
Definition can_close (s : state) : bool :=
  match thread s with Calling _ _ => true | _ => negb self end.

(** The next step of [close]; [None] is a call that waits, or none. The callback
    cannot join its own thread: [join] throws, and [close] goes on. *)
Definition close_step (s : state) : option state :=
  match closer s with
  | NotCalled =>
      if can_close s then
        Some (set_closer (if decide (_status (this s) = INACTIVE) then Closed else AtShutdown) s)
      else None
  | AtShutdown => Some (set_closer AtClose (set_shut s))
  | AtClose =>
      match _sock (this s) with
      | Some fd => Some (set_closer AtInvalidate (set_open (delete fd (fds s)) s))
      | None => Some (set_closer AtJoin s)
      end
  | AtInvalidate => Some (set_closer AtJoin (set_this (write_sock None (this s)) s))
  | AtJoin =>
      if self then Some (set_closer AtStatus s)
      else match thread s with Ended => Some (set_closer AtStatus s) | _ => None end
  | AtStatus => Some (set_closer Closed (set_this (write_status INACTIVE (this s)) s))
  | Closed => None
  end.

(** Whether the callback may return: not inside of its own call of [close]. *)
Definition may_return (s : state) : bool :=
  match closer s with NotCalled | Closed => true | _ => negb self end.

(** The next step of the callback thread, but for the answer to [recv]; the
    descriptor that [recv] gets is looked up when it is called. *)
Definition thread_step (s : state) : option state :=
  match thread s with
  | AtTest =>
      Some (set_thread (match _sock (this s) with Some _ => Receiving | None => Ended end) s)
  | Receiving =>
      match receivePacket_vector [] (this s) (asked s) with
      | Undefined => None
      | Waiting => Some (set_thread (AtCall (_sock (this s))) s)
      | Returned (err, buffer, t, net) =>
          Some (set_thread (Calling buffer err) (set_asked net (set_this t s)))
      end
  | AtCall sock =>
      match sock ≫= λ fd, fds s !! fd with
      | Some f => Some (set_thread (InRecv f) s)
      | None => Some (set_thread Receiving (set_asked (asked s ++ [RecvFailed EBADF]) s))
      end
  | InRecv _ => None
  | Calling buffer err =>
      if may_return s then
        Some (State (this s) (closer s) (if decide (err = SUCCESS) then AtTest else Ended) (fds s)
                (arrived s) (coming s) (shut s) (asked s) (calls s ++ [(buffer, err)]))
      else None
  | Ended => None
  end.

(** The answer [r] to [recv]. *)
Definition answer (r : recv_result) (rest : bytes) (s : state) : state :=
  State (this s) (closer s) Receiving (fds s) rest (coming s) (shut s) (asked s ++ [r]) (calls s).

(** Data arrives. *)
Definition arrive (chunk rest : bytes) (s : state) : state :=
  State (this s) (closer s) (thread s) (fds s) (arrived s ++ chunk) rest (shut s) (asked s) (calls s).

(** The steps that belong to the connection. A blocked [recv] keeps the
    connection, whatever happens to the descriptor: it gets data that has arrived,
    the end, or an error; it would block only if there is nothing and more may
    come. *)
Inductive step : state → state → Prop :=
| step_close s s' : close_step s = Some s' → step s s'
| step_thread s s' : thread_step s = Some s' → step s s'
| step_data chunk rest s :
    thread s = InRecv Connection → arrived s = chunk ++ rest → chunk ≠ [] →
    (length chunk <= 256)%nat → step s (answer (Received chunk) rest s)
| step_again e s :
    thread s = InRecv Connection → arrived s = [] → shut s = false →
    tcp_getLastError e = IN_PROGRESS → step s (answer (RecvFailed e) [] s)
| step_end s :
    thread s = InRecv Connection → shut s = true → step s (answer (Received []) (arrived s) s)
| step_error e s :
    thread s = InRecv Connection → tcp_getLastError e ≠ IN_PROGRESS →
    step s (answer (RecvFailed e) (arrived s) s)
| step_arrive chunk rest s :
    coming s = chunk ++ rest → chunk ≠ [] → shut s = false → step s (arrive chunk rest s)
| step_hang_up s : shut s = false → step s (set_shut s).

(** The steps when other parts of the process open descriptors, too, and data
    arrives there. *)
Inductive shared_step : state → state → Prop :=
| shared_own s s' : step s s' → shared_step s s'
| shared_open fd s : fds s !! fd = None → shared_step s (set_open (<[fd := Other]> (fds s)) s)
| shared_answer r s : thread s = InRecv Other → shared_step s (answer r (arrived s) s).
End Steps.

(** * The invariant *)

(** The packets that the callback has got. *)
Definition delivered (s : state) : list bytes := (filter (λ c, c.2 = SUCCESS) (calls s)).*1.
Definition ok (p : bytes) : bytes * ClockError := (p, SUCCESS).

(** The packets [rest] are what is left of the stream. *)
Definition left_over (rest : list bytes) (s : state) : Prop :=
  _buffer (this s) ++ data (asked s) ++ arrived s ++ coming s = mjoin (frame <$> rest).

(** The answers of [recv] so far are only a part of a packet. *)
Definition partial (b : bytes) (l : list recv_result) : Prop :=
  Forall ready l ∧ ∃ p more, size p < 2 ^ 31 ∧ b ++ data l ++ more = frame p ∧ more ≠ [].

(** The call of [receivePacket] finds no packet, or has failed. *)
Definition failed (b : bytes) (l : list recv_result) : Prop :=
  ∃ l' r, l = l' ++ [r] ∧ partial b l' ∧ fails r.

Lemma partial_waits t l :
  _status t = CONNECTED → partial (_buffer t) l → receivePacket_vector [] t l = Waiting.
Proof.
  intros Hc (Hr & p & more & Hp & E & Hm). unfold receivePacket_vector. rewrite decide_True by done.
  destruct (receivePacket_partial t Hc p more [] l [] Hp Hr E Hm) as (fuel & len & result & H).
  rewrite app_nil_r in H. rewrite H. cbn [receive_loop]. by rewrite read_connected.
Qed.

Lemma failed_returns t l :
  _status t = CONNECTED → failed (_buffer t) l →
  ∃ e, e ≠ SUCCESS ∧ receivePacket_vector [] t l = Returned (e, [], t, []).
Proof.
  intros Hc (l' & r & -> & (Hr & p & more & Hp & E & Hm) & Hf). exists (failure r).
  pose proof (fails_error r Hf) as He. split; [done|].
  unfold receivePacket_vector. rewrite decide_True by done.
  rewrite (receivePacket_fails t Hc p more [] l' r [] Hp Hr E Hm Hf). by rewrite decide_False.
Qed.

(** With a part of the stream a call waits, or takes the first packet. *)
Lemma receive_or_wait t l more rest :
  _status t = CONNECTED → Forall ready l → Forall (λ p, size p < 2 ^ 31) rest →
  _buffer t ++ data l ++ more = mjoin (frame <$> rest) →
  partial (_buffer t) l ∨
  ∃ p rest' after net, rest = p :: rest' ∧ after ++ data net ++ more = mjoin (frame <$> rest') ∧
    Forall ready net ∧ receivePacket_vector [] t l = Returned (SUCCESS, p, set_buffer after t, net).
Proof.
  intros Hc Hr Hsz E. destruct rest as [|p rest].
  { left. apply app_nil in E as [Eb [Ed _]%app_nil]. split; [done|].
    exists [], (frame []). by rewrite Eb, Ed. }
  apply Forall_cons in Hsz as [Hp _].
  change (mjoin (frame <$> p :: rest)) with (frame p ++ mjoin (frame <$> rest)) in E.
  destruct (decide (length (_buffer t ++ data l) < length (frame p))%nat) as [Hlt|Hge].
  - left. split; [done|]. exists p, (drop (length (_buffer t ++ data l)) (frame p)).
    assert (Et : _buffer t ++ data l = take (length (_buffer t ++ data l)) (frame p)).
    { rewrite <- (take_app_le (frame p) (mjoin (frame <$> rest)) (length (_buffer t ++ data l)))
        by (apply Nat.lt_le_incl, Hlt).
      rewrite <- E, app_assoc. by rewrite take_app_length. }
    split_and!; [done| |].
    + rewrite app_assoc. rewrite Et at 1. apply take_drop.
    + intros H. apply (f_equal length) in H. rewrite length_drop in H. cbn [length] in H.
      apply Nat.sub_0_le in H. by apply Nat.lt_nge in Hlt.
  - right.
    destruct (receivePacket_stream t Hc p (mjoin (frame <$> rest)) Hp [] l [] more Hr E)
      as [(after & net & Ea & Hn & H)|(Hs & _)]; [|rewrite length_frame in Hge; lia].
    rewrite !app_nil_r in H. exists p, rest, after, net. split_and!; [done..|].
    unfold receivePacket_vector. rewrite decide_True by done. rewrite H. by rewrite decide_True.
Qed.

Section Invariant.
Context (self : bool) (fd : Z) (m : gmap Z file) (ps : list bytes).

(** What [close] has done when it is at a step. *)
Definition sock_at (c : close_pc) : option Z :=
  match c with AtJoin | AtStatus | Closed => None | _ => Some fd end.
Definition status_at (c : close_pc) : SocketStatus :=
  match c with Closed => INACTIVE | _ => CONNECTED end.
Definition fds_at (c : close_pc) : gmap Z file :=
  match c with NotCalled | AtShutdown | AtClose => m | _ => delete fd m end.
Definition before_shutdown (c : close_pc) : bool :=
  match c with NotCalled | AtShutdown => true | _ => false end.

(** Where the callback thread can be meanwhile. *)
Definition position (c : close_pc) (t : thread_pc) : Prop :=
  let calling := match t with Calling _ _ => True | _ => False end in
  match c with
  | NotCalled => True
  | AtStatus => if self then calling else t = Ended
  | Closed => if self then calling ∨ t = AtTest ∨ t = Ended else t = Ended
  | _ => self = true → calling
  end.

(** The callback thread, when the callback has still to get the packets [rest]. *)
Definition thread_ok (rest : list bytes) (s : state) : Prop :=
  match thread s with
  | AtTest => left_over rest s ∧ Forall ready (asked s)
  | Receiving =>
      left_over rest s ∧ (Forall ready (asked s) ∨ failed (_buffer (this s)) (asked s))
  | AtCall sock =>
      left_over rest s ∧ partial (_buffer (this s)) (asked s) ∧ (sock = Some fd ∨ sock = None)
  | InRecv f => left_over rest s ∧ partial (_buffer (this s)) (asked s) ∧ f = Connection
  | Calling buffer err =>
      if decide (err = SUCCESS) then
        ∃ rest', rest = buffer :: rest' ∧ left_over rest' s ∧ Forall ready (asked s)
      else buffer = []
  | Ended => True
  end.

(** The calls of the callback: packets, then perhaps an error, the last one. *)
Definition errors_ok (s : state) (errs : list (bytes * ClockError)) : Prop :=
  calls s = (ok <$> delivered s) ++ errs ∧
  (errs = [] ∨ thread s = Ended ∧ ∃ e, e ≠ SUCCESS ∧ errs = [([], e)]) ∧
  (thread s = Ended → errs = [] → _sock (this s) = None).

Record state_ok (s : state) : Prop := {
  so_sock : _sock (this s) = sock_at (closer s);
  so_status : _status (this s) = status_at (closer s);
  so_fds : fds s = fds_at (closer s);
  so_shut : shut s = false → before_shutdown (closer s) = true;
  so_position : position (closer s) (thread s);
  so_thread : ∃ rest, ps = delivered s ++ rest ∧ thread_ok rest s;
  so_calls : ∃ errs, errors_ok s errs
}.

Context (Hfd : m !! fd = Some Connection) (Hps : Forall (λ p, size p < 2 ^ 31) ps).

Lemma State_new_ok t under_way :
  _sock t = Some fd → _status t = CONNECTED → _buffer t ++ under_way = mjoin (frame <$> ps) →
  state_ok (State_new t m under_way).
Proof.
  intros Hs Hc E. split; try done.
  - by exists ps.
  - exists []. split_and!; [done|by left|done].
Qed.

(** While a call of [recv] is prepared or running, the socket is connected. *)
Lemma receiving_connected s :
  state_ok s → match thread s with Receiving | AtCall _ | InRecv _ => True | _ => False end →
  _status (this s) = CONNECTED.
Proof.
  intros [_ -> _ _ Hp _ _] Ht. unfold position in Hp.
  destruct (closer s), (thread s), self; try done; by destruct Hp as [|[|]].
Qed.

(** A step of [close] changes nothing that the callback thread has. *)
Lemma change_closer c t f b s :
  state_ok s → _buffer t = _buffer (this s) →
  _sock t = sock_at c → _status t = status_at c → f = fds_at c →
  (b = false → before_shutdown c = true) → position c (thread s) →
  (thread s = Ended → _sock (this s) = None → _sock t = None) →
  state_ok (State t c (thread s) f (arrived s) (coming s) b (asked s) (calls s)).
Proof.
  intros [] Eb Hs Hc Hf Hb Hp Hn. split; try done.
  - destruct so_thread0 as (rest & E & H). exists rest. split; [done|].
    unfold thread_ok, left_over in *. simpl. by rewrite Eb.
  - destruct so_calls0 as (errs & H1 & H2 & H3). exists errs. split_and!; [done..|auto].
Qed.

Lemma close_step_ok s s' : close_step self s = Some s' → state_ok s → state_ok s'.
Proof.
  intros Hstep Hok. pose proof Hok as [Hs Hc Hf Hb Hp _ _]. unfold close_step in Hstep.
  destruct (closer s) eqn:Ec; simpl in *.
  - destruct (can_close self s) eqn:Ecan; [|done]. rewrite Hc in Hstep.
    rewrite decide_False in Hstep by done. injection Hstep as <-.
    apply (change_closer AtShutdown (this s) (fds s) (shut s) s); rewrite ?Ec in *; try done.
    intros ->. unfold can_close in Ecan. simpl. by destruct (thread s).
  - injection Hstep as <-. by apply (change_closer AtClose (this s) (fds s) true s).
  - rewrite Hs in Hstep. injection Hstep as <-.
    apply (change_closer AtInvalidate (this s) _ (shut s) s); try done. by rewrite Hf.
  - injection Hstep as <-. by apply (change_closer AtJoin (write_sock None (this s)) (fds s) (shut s) s).
  - assert (s' = set_closer AtStatus s ∧ position AtStatus (thread s)) as [-> Hp'].
    { simpl. destruct self; [injection Hstep as <-; split; [done|by apply Hp]|].
      by destruct (thread s); simplify_eq. }
    by apply (change_closer AtStatus (this s) (fds s) (shut s) s).
  - injection Hstep as <-.
    apply (change_closer Closed (write_status INACTIVE (this s)) (fds s) (shut s) s); try done.
    simpl in *. destruct self; [by left|done].
  - done.
Qed.

(** Outside of the callback, the callback thread may go anywhere. *)
Lemma position_moves c t p :
  position c t → t ≠ Ended → match t with Calling _ _ => self = false | _ => True end →
  (c = Closed → p = AtTest ∨ p = Ended) → position c p.
Proof.
  unfold position. intros Hp He Ht Hc.
  destruct c, self, t; try done; try (destruct (Hc eq_refl); auto); try (by specialize (Hp eq_refl)).
Qed.

(** A step of the callback thread or of the connection. *)
Lemma change_thread t p arr com b l s :
  state_ok s → _sock t = _sock (this s) → _status t = _status (this s) →
  (b = false → shut s = false) → position (closer s) p → thread s ≠ Ended ∨ p = thread s →
  (p = Ended → thread s ≠ Ended → _sock t = None) →
  (∀ rest, ps = delivered s ++ rest → thread_ok rest s →
     thread_ok rest (State t (closer s) p (fds s) arr com b l (calls s))) →
  state_ok (State t (closer s) p (fds s) arr com b l (calls s)).
Proof.
  intros [] Es Ec Hb Hp Ht He Hk. split; simpl; try done; [congruence..|auto| |].
  - destruct so_thread0 as (rest & E & H). exists rest. auto.
  - destruct so_calls0 as (errs & H1 & H2 & H3). exists errs. split_and!; [done|..]; simpl.
    + destruct H2 as [|[]]; [by left|]. destruct Ht as [|Ht]; [done|]. right. by rewrite Ht.
    + intros Hend Herr. destruct Ht as [Hne|Ht]; [by apply He|]. rewrite Es. apply H3; congruence.
Qed.

(** An answer to [recv]: data, a reason to call again, or the end. *)
Lemma answer_ok r rest s :
  state_ok s → match thread s with AtCall _ | InRecv _ => True | _ => False end →
  ready r ∨ fails r → arrived s = arriving r ++ rest → state_ok (answer r rest s).
Proof.
  intros Hok Ht Hr Earr.
  assert (Hc : _status (this s) = CONNECTED) by
    (apply (receiving_connected s); [done|by destruct (thread s)]).
  apply change_thread; try done.
  - apply (position_moves _ (thread s)); [apply Hok|by destruct (thread s)..|].
    intros E. pose proof (so_status s Hok) as Hst. rewrite E in Hst. simpl in Hst. congruence.
  - left. by destruct (thread s).
  - intros p E Hth.
    assert (left_over p s ∧ partial (_buffer (this s)) (asked s)) as [Hl Hpart]
      by (unfold thread_ok in Hth; destruct (thread s); try done; by destruct Hth as (? & ? & _)).
    split.
    + unfold left_over in *. simpl. rewrite data_app, <- Hl, Earr, <- !app_assoc. do 2 f_equal.
      unfold data. simpl. by rewrite app_nil_r.
    + simpl. destruct Hr as [Hr|Hr]; [left|right; by exists (asked s), r].
      apply Forall_app. split; [apply Hpart|by apply Forall_singleton].
Qed.

(** An error of [recv] is answered with another call, or ends the call. *)
Lemma error_ready e : ready (RecvFailed e) ∨ fails (RecvFailed e).
Proof.
  simpl. destruct (decide (tcp_getLastError e = IN_PROGRESS)); [by left|by right].
Qed.

Lemma delivered_snoc s s' buffer err :
  calls s' = calls s ++ [(buffer, err)] →
  delivered s' = delivered s ++ (if decide (err = SUCCESS) then [buffer] else []).
Proof.
  intros E. unfold delivered. rewrite E, filter_app, fmap_app, filter_cons. f_equal. simpl.
  by destruct (decide (err = SUCCESS)).
Qed.

(** The callback returns. *)
Lemma callback_return_ok buffer err s :
  state_ok s → thread s = Calling buffer err → may_return self s = true →
  state_ok (State (this s) (closer s) (if decide (err = SUCCESS) then AtTest else Ended) (fds s)
              (arrived s) (coming s) (shut s) (asked s) (calls s ++ [(buffer, err)])).
Proof.
  intros [] Ht Hm. set (s' := State _ _ _ _ _ _ _ _ _).
  pose proof (delivered_snoc s s' buffer err eq_refl) as Hd.
  destruct so_thread0 as (rest & E & Hth). destruct so_calls0 as (errs & Hc & Herr & _).
  destruct Herr as [-> | [? _]]; [|congruence]. rewrite app_nil_r in Hc.
  unfold thread_ok in Hth. rewrite Ht in Hth, so_position0. split; try done.
  - unfold position, may_return in *. simpl.
    destruct (closer s), self, (decide (err = SUCCESS)); simpl in *; try done; auto.
  - destruct (decide (err = SUCCESS)) as [He|He].
    + destruct Hth as (rest' & -> & Hl & Hr). exists rest'. rewrite Hd, <- app_assoc.
      split; [done|]. by split.
    + exists rest. rewrite Hd, app_nil_r. by split.
  - destruct (decide (err = SUCCESS)) as [He|He].
    + exists []. split_and!; [|by left|]; simpl.
      * rewrite Hd, fmap_app, app_nil_r, Hc at 1. by subst err.
      * done.
    + exists [(buffer, err)]. split_and!; simpl; [by rewrite Hd, app_nil_r, <- Hc| |done].
      right. split; [done|]. exists err. by subst buffer.
Qed.

Lemma connected_open s : state_ok s → _status (this s) = CONNECTED → closer s ≠ Closed.
Proof. intros [_ Hst _ _ _ _ _] H E. rewrite Hst, E in H. done. Qed.

(** The callback thread goes on outside of the callback. *)
Lemma move_ok t p l s :
  state_ok s → thread s ≠ Ended → match thread s with Calling _ _ => False | _ => True end →
  (closer s = Closed → p = AtTest ∨ p = Ended) →
  _sock t = _sock (this s) → _status t = _status (this s) → (p = Ended → _sock t = None) →
  (∀ rest, ps = delivered s ++ rest → thread_ok rest s →
     thread_ok rest (set_thread p (set_asked l (set_this t s)))) →
  state_ok (set_thread p (set_asked l (set_this t s))).
Proof.
  intros Hok He Hcall Hp E1 E2 Hend Hk.
  apply (change_thread t p (arrived s) (coming s) (shut s) l s); try done; [|by left|auto].
  apply (position_moves _ (thread s)); [apply Hok|done|by destruct (thread s)|done].
Qed.

(** [receivePacket] between two calls of [recv]: it waits, has a packet, or has
    failed. *)
Lemma receive_step_ok s s' :
  thread s = Receiving → thread_step self s = Some s' → state_ok s → state_ok s'.
Proof.
  intros Et Hstep Hok. pose proof (receiving_connected s Hok) as Hc. rewrite Et in Hc.
  specialize (Hc I). pose proof (connected_open s Hok Hc) as Hopen.
  destruct (so_thread s Hok) as (rest & E & Hth).
  assert (Hrest : ∀ rest', ps = delivered s ++ rest' → rest' = rest).
  { intros rest' E'. rewrite E in E'. by apply app_inv_head in E'. }
  unfold thread_ok in Hth. unfold thread_step in Hstep. rewrite Et in *. destruct Hth as [Hl Ha].
  assert (Hwait : partial (_buffer (this s)) (asked s) → state_ok s').
  { intros Hpart. rewrite (partial_waits _ _ Hc Hpart) in Hstep. injection Hstep as <-.
    apply (move_ok (this s) (AtCall (_sock (this s))) (asked s) s); rewrite ?Et; try done.
    intros ? ->%Hrest _. split_and!; [done..|]. simpl. rewrite (so_sock s Hok).
    destruct (closer s); auto. }
  destruct Ha as [Hr|Hfail].
  - destruct (receive_or_wait (this s) (asked s) (arrived s ++ coming s) rest Hc Hr)
      as [Hpart|(p & rest' & after & net & -> & Hl' & Hn & H)]; [|done|by apply Hwait|].
    { rewrite E in Hps. by apply Forall_app in Hps as [_ ?]. }
    rewrite H in Hstep. injection Hstep as <-. apply move_ok; rewrite ?Et; try done.
    intros ? ->%Hrest _. by exists rest'.
  - destruct (failed_returns _ _ Hc Hfail) as (e & He & H). rewrite H in Hstep.
    injection Hstep as <-. apply move_ok; rewrite ?Et; try done. intros ? _ _.
    unfold thread_ok. simpl. by rewrite decide_False.
Qed.

Lemma thread_step_ok s s' : thread_step self s = Some s' → state_ok s → state_ok s'.
Proof.
  intros Hstep Hok. pose proof (receiving_connected s Hok) as Hc.
  destruct (thread s) as [| |sock|f|buffer err|] eqn:Et;
    try (unfold thread_step in Hstep; rewrite Et in Hstep; done).
  - unfold thread_step in Hstep. rewrite Et in Hstep. injection Hstep as <-.
    apply (move_ok (this s) _ (asked s) s); rewrite ?Et; try done.
    + intros E. rewrite (so_sock s Hok), E. by right.
    + by destruct (_sock (this s)).
    + intros rest E. unfold thread_ok. rewrite Et. intros [Hl Hr]. simpl.
      destruct (_sock (this s)); [|done]. split; [done|by left].
  - by apply (receive_step_ok s).
  - unfold thread_step in Hstep. rewrite Et in Hstep. specialize (Hc I).
    pose proof (connected_open s Hok Hc) as Hopen.
    destruct (sock ≫= λ n, fds s !! n) as [f|] eqn:El; injection Hstep as <-.
    + apply (move_ok (this s) (InRecv f) (asked s) s); rewrite ?Et; try done.
      intros rest E. unfold thread_ok. rewrite Et. intros (Hl & Hpart & [-> | ->]); [|done].
      split_and!; [done..|]. simpl in El. rewrite (so_fds s Hok) in El. unfold fds_at in El.
      destruct (closer s); rewrite ?lookup_delete_eq in El; congruence.
    + apply (answer_ok (RecvFailed EBADF) (arrived s) s); [done|by rewrite Et|apply error_ready|done].
  - unfold thread_step in Hstep. rewrite Et in Hstep. destruct (may_return self s) eqn:Em; [|done].
    injection Hstep as <-. by apply callback_return_ok.
Qed.

Lemma step_ok s s' : step self s s' → state_ok s → state_ok s'.
Proof.
  intros Hstep Hok.
  destruct Hstep as [s s' H|s s' H|chunk rest s Ht Ea Hne Hl|e s Ht Ea Hsh He|s Ht Hsh|e s Ht He
    |chunk rest s Ec Hne Hsh|s Hsh].
  - by apply (close_step_ok s).
  - by apply (thread_step_ok s).
  - apply answer_ok; [done|by rewrite Ht|by left|done].
  - apply answer_ok; [done|by rewrite Ht|by left|done].
  - apply answer_ok; [done|by rewrite Ht|by right|done].
  - apply answer_ok; [done|by rewrite Ht|apply error_ready|done].
  - apply (change_thread (this s)); try done; [apply Hok|by right|].
    intros r E H. unfold thread_ok, left_over in *. simpl in *.
    by rewrite <- (app_assoc (arrived s)), <- Ec.
  - apply (change_thread (this s)); try done; [apply Hok|by right].
Qed.

End Invariant.

(** * Progress *)

(** Whether the last answer of [recv] ends the call. *)
Definition answered_badly (s : state) : bool :=
  match last (asked s) with
  | Some (Received []) => true
  | Some (RecvFailed e) => bool_decide (tcp_getLastError e ≠ IN_PROGRESS)
  | _ => false
  end.

(** What is left to do when nothing more arrives: the steps of [close], bytes to
    take off the connection, bytes to cut into packets, and the way to the end of
    the loop. *)
Definition close_left (s : state) : nat :=
  match closer s with
  | NotCalled => 6 | AtShutdown => 5 | AtClose => 4 | AtInvalidate => 3 | AtJoin => 2 | AtStatus => 1
  | Closed => 0
  end.
Definition thread_left (s : state) : nat :=
  match thread s with
  | AtTest => 12
  | Receiving => if answered_badly s then 2 else 11
  | AtCall _ => 10
  | InRecv _ => 9
  | Calling _ err => if decide (err = SUCCESS) then 13 else 1
  | Ended => 0
  end.
Definition bytes_left (s : state) : nat :=
  length (_buffer (this s)) + length (data (asked s)) + length (arrived s).
Definition work_left (s : state) : nat :=
  8 * bytes_left s + 8 * length (arrived s) + thread_left s + close_left s.

Section Progress.
Context (self : bool) (fd : Z) (m : gmap Z file) (ps : list bytes).
Context (Hfd : m !! fd = Some Connection) (Hps : Forall (λ p, size p < 2 ^ 31) ps).

(** A state behind the call of [shutdown], in which nothing more arrives. *)
Definition quiet (s : state) : Prop :=
  state_ok self fd m ps s ∧ before_shutdown (closer s) = false.

Lemma quiet_shut s : quiet s → shut s = true.
Proof. intros [Hok Hb]. destruct (shut s) eqn:E; [done|]. by rewrite (so_shut _ _ _ _ s Hok E) in Hb. Qed.

Lemma close_step_less s s' :
  close_step self s = Some s' →
  (work_left s' < work_left s)%nat ∧
  (before_shutdown (closer s) = false → before_shutdown (closer s') = false).
Proof.
  unfold close_step, work_left, bytes_left, close_left, thread_left, answered_badly.
  intros H. destruct (closer s); try done.
  - destruct (can_close self s); [|done]. injection H as <-. simpl. split; [|done].
    destruct (decide _); lia.
  - injection H as <-. simpl. split; [lia|done].
  - destruct (_sock (this s)); injection H as <-; simpl; (split; [lia|done]).
  - injection H as <-. simpl. split; [lia|done].
  - assert (s' = set_closer AtStatus s) as -> by (destruct self, (thread s); congruence).
    simpl. split; [lia|done].
  - injection H as <-. simpl. split; [lia|done].
Qed.

Lemma answer_less r rest s :
  (arrived s = arriving r ++ rest)%list →
  match thread s with AtCall _ | InRecv _ => True | _ => False end →
  arriving r ≠ [] ∨ fails r → (work_left (answer r rest s) < work_left s)%nat.
Proof.
  intros E Ht Hr. unfold work_left, bytes_left, close_left. simpl. rewrite E, data_app, !length_app.
  assert (Hd : length (data [r]) = length (arriving r)) by (unfold data; simpl; by rewrite app_nil_r).
  assert (Hlt : (9 <= thread_left s)%nat) by (unfold thread_left; destruct (thread s); done || lia).
  assert (Hans : (thread_left (answer r rest s) <= 11)%nat ∧
    (arriving r = [] → thread_left (answer r rest s) = 2%nat)).
  { unfold thread_left, answered_badly. simpl. rewrite last_snoc. split; [repeat case_match; lia|].
    intros Ha. destruct Hr as [|[_ Hf]]; [done|]. destruct r as [chunk|e]; simpl in *.
    - by subst chunk.
    - by rewrite bool_decide_true. }
  destruct (arriving r) eqn:Ea; simpl in *; [|lia]. destruct Hans as [_ Hans]. rewrite Hans by done. lia.
Qed.

Lemma ready_not_bad s : Forall ready (asked s) → answered_badly s = false.
Proof.
  intros Hr. unfold answered_badly. destruct (last (asked s)) as [r|] eqn:E; [|done].
  apply last_Some_elem_of in E. apply (proj1 (Forall_forall _ _) Hr) in E.
  destruct r as [[|]|e]; [done|done|]. apply bool_decide_false. intros Hne. by apply Hne.
Qed.

Lemma failed_bad s b : failed b (asked s) → answered_badly s = true.
Proof.
  intros (l & r & E & _ & Ha & Hf). unfold answered_badly. rewrite E, last_snoc.
  destruct r as [chunk|e]; simpl in *; [by subst chunk|]. by apply bool_decide_true.
Qed.

(** [receivePacket] has a next step, and each one is progress. *)
Lemma receive_progress s :
  state_ok self fd m ps s → thread s = Receiving →
  ∃ s', thread_step self s = Some s' ∧ (work_left s' < work_left s)%nat ∧ closer s' = closer s.
Proof.
  intros Hok Et. pose proof (receiving_connected self fd m ps s Hok) as Hc. rewrite Et in Hc.
  specialize (Hc I). destruct (so_thread _ _ _ _ s Hok) as (rest & E & Hth).
  unfold thread_ok in Hth. unfold thread_step. rewrite Et in *. destruct Hth as [Hl Ha].
  unfold work_left, thread_left. rewrite Et. destruct Ha as [Hr|Hfail].
  - rewrite (ready_not_bad s Hr).
    destruct (receive_or_wait (this s) (asked s) (arrived s ++ coming s) rest Hc Hr)
      as [Hpart|(p & rest' & after & net & -> & Hl' & Hn & H)].
    + rewrite E in Hps. by apply Forall_app in Hps as [_ ?].
    + done.
    + rewrite (partial_waits _ _ Hc Hpart). eexists. split_and!; [done| |done].
      unfold bytes_left, close_left. simpl. lia.
    + rewrite H. eexists. split_and!; [done| |done].
      unfold left_over in Hl.
      change (mjoin (frame <$> p :: rest')) with (frame p ++ mjoin (frame <$> rest')) in Hl.
      rewrite <- Hl' in Hl. apply (f_equal length) in Hl. rewrite !length_app, length_frame in Hl.
      unfold bytes_left, close_left. simpl. lia.
  - rewrite (failed_bad s _ Hfail). destruct (failed_returns _ _ Hc Hfail) as (e & He & H). rewrite H.
    eexists. split_and!; [done| |done]. unfold bytes_left, close_left. simpl.
    rewrite decide_False by done. lia.
Qed.

Lemma thread_step_less s s' :
  state_ok self fd m ps s → thread_step self s = Some s' →
  (work_left s' < work_left s)%nat ∧ closer s' = closer s.
Proof.
  intros Hok Hstep. destruct (thread s) as [| |sock|f|buffer err|] eqn:Et;
    [|destruct (receive_progress s Hok Et) as (s1 & E & H); by simplify_eq|..];
    unfold thread_step in Hstep; rewrite Et in Hstep; try done.
  - injection Hstep as <-. split; [|done]. unfold work_left, thread_left, bytes_left, close_left.
    rewrite Et. simpl. destruct (_sock (this s)); simpl; [case_match|]; lia.
  - destruct (sock ≫= _); injection Hstep as <-; (split; [|done]).
    + unfold work_left, thread_left, bytes_left, close_left. rewrite Et. simpl. lia.
    + apply (answer_less (RecvFailed EBADF)); [done|by rewrite Et|by right].
  - destruct (may_return self s); [|done]. injection Hstep as <-. split; [|done].
    unfold work_left, thread_left, bytes_left, close_left. rewrite Et. simpl.
    destruct (decide _); lia.
Qed.

Lemma step_less s s' :
  quiet s → step self s s' →
  (work_left s' < work_left s)%nat ∧ before_shutdown (closer s') = false.
Proof.
  intros Hq Hstep. pose proof (quiet_shut s Hq) as Hsh. destruct Hq as [Hok Hb].
  destruct Hstep as [s s' H|s s' H|chunk rest s Ht Ea Hne Hl|e s Ht Ea Hn He|s Ht _|e s Ht He
    |chunk rest s Ec Hne Hn|s Hn]; try congruence.
  - destruct (close_step_less s s' H). auto.
  - destruct (thread_step_less s s' Hok H) as [? ->]. auto.
  - split; [|done]. apply answer_less; [done|by rewrite Ht|by left].
  - split; [|done]. apply answer_less; [done|by rewrite Ht|by right].
  - split; [|done]. apply answer_less; [done|by rewrite Ht|by right].
Qed.

Lemma quiet_kept s s' : step self s s' → quiet s → quiet s'.
Proof.
  intros Hstep Hq. split; [|by apply (step_less s)].
  apply (step_ok self fd m ps Hfd Hps s); [done|apply Hq].
Qed.

(** Nobody waits forever. *)
Lemma stuck_over s :
  quiet s → (∀ s', ¬ step self s s') →
  thread s = Ended ∧ closer s = Closed.
Proof.
  intros Hq Hno. pose proof (quiet_shut s Hq) as Hsh. destruct Hq as [Hok Hb].
  assert (Hnt : thread_step self s = None).
  { destruct (thread_step self s) eqn:E; [|done]. by destruct (Hno _ (step_thread self _ _ E)). }
  assert (Hnc : close_step self s = None).
  { destruct (close_step self s) eqn:E; [|done]. by destruct (Hno _ (step_close self _ _ E)). }
  assert (Ht : thread s = Ended).
  { destruct (thread s) as [| |sock|f|buffer err|] eqn:Et; try done; exfalso.
    - unfold thread_step in Hnt. by rewrite Et in Hnt.
    - destruct (receive_progress s Hok Et) as (s' & E & _). congruence.
    - unfold thread_step in Hnt. rewrite Et in Hnt. by destruct (sock ≫= _).
    - destruct (so_thread _ _ _ _ s Hok) as (rest & _ & Hth). unfold thread_ok in Hth.
      rewrite Et in Hth. destruct Hth as (_ & _ & ->). by destruct (Hno _ (step_end self s Et Hsh)).
    - unfold thread_step, may_return, close_step in *. rewrite Et in *.
      destruct (closer s), self; try done. by destruct (_sock (this s)). }
  split; [done|]. unfold close_step, can_close in Hnc. rewrite Ht in Hnc.
  destruct (closer s); try done; [by destruct (_sock (this s))|by destruct self].
Qed.
End Progress.

(** * Properties *)

Section Properties.
Context (self : bool) (t : TcpSocket) (fd : Z) (m : gmap Z file).
Context (ps : list bytes) (under_way : bytes).

(** The socket is connected, [fd] is its descriptor, and the peer sends the
    packets [ps]. *)
Record receiving_from : Prop := {
  rf_sock : _sock t = Some fd;
  rf_status : _status t = CONNECTED;
  rf_open : m !! fd = Some Connection;
  rf_sizes : Forall (λ p, size p < 2 ^ 31) ps;
  rf_stream : _buffer t ++ under_way = mjoin (frame <$> ps)
}.

Lemma closing_reachable_ok s :
  receiving_from → rtc (step self) (State_new t m under_way) s → state_ok self fd m ps s.
Proof.
  intros []. apply (rtc_invariant _ _ (step_ok self fd m ps rf_open0 rf_sizes0)).
  by apply State_new_ok.
Qed.

(** C17: a socket can be closed while its callback thread receives, by the
    callback or by another thread. Whatever the interleaving and whatever [recv]
    answers, the callback gets the first packets of the peer, each of them whole,
    once and in order, and at most one error, which is the last call; [recv] reads
    from no other file of the process (if nobody opens one meanwhile). The thread
    does not end without an error before [close] has reset [_sock]. When [close]
    has returned, the socket is as the sequential [TcpConnection.close] leaves it,
    its descriptor is closed and no other one, and the thread has ended, unless
    the callback has called [close]. *)
Theorem callback_until_close s :
  receiving_from → rtc (step self) (State_new t m under_way) s →
  (∃ qs rest errs, ps = qs ++ rest ∧ calls s = (ok <$> qs) ++ errs ∧
     (errs = [] ∨ thread s = Ended ∧ ∃ e, e ≠ SUCCESS ∧ errs = [([], e)]) ∧
     (thread s = Ended → errs = [] → _sock (this s) = None)) ∧
  thread s ≠ InRecv Other ∧
  (closer s = Closed →
     (∀ c e, TcpConnection.conn_ok c → TcpConnection.socket c = t →
        this s = set_buffer (_buffer (this s)) (TcpConnection.socket (TcpConnection.close self e c))) ∧
     fds s = delete fd m ∧ (self = false → thread s = Ended)).
Proof.
  intros Hrf Hr. destruct (closing_reachable_ok s Hrf Hr) as [Hs Hc Hf _ Hp (rest & E & Hth) (errs & H)].
  split_and!.
  - by exists (delivered s), rest, errs.
  - intros Et. unfold thread_ok in Hth. rewrite Et in Hth. by destruct Hth as (_ & _ & ?).
  - intros Ec. rewrite Ec in *. split_and!; [|done|by intros ->].
    intros c e Hok _. destruct (TcpConnection.close_closed self e c Hok) as [_ _ Hn Hst _].
    destruct (this s) as [o st b]. unfold set_buffer. simpl in *. by rewrite Hn, Hst, Hs, Hc.
Qed.

(** C18: [close] and the callback thread do not wait for each other for ever. Once
    [close] has called [shutdown], every run of the two threads ends within
    [work_left] steps, whatever [recv] answers, and where it cannot go on, the
    thread has ended and [close] has returned. *)
Theorem close_returns s :
  receiving_from → rtc (step self) (State_new t m under_way) s →
  before_shutdown (closer s) = false →
  (∀ k s', nsteps (step self) k s s' → (k <= work_left s)%nat) ∧
  (∀ s', rtc (step self) s s' → (∀ s'', ¬ step self s' s'') →
     thread s' = Ended ∧ closer s' = Closed).
Proof.
  intros Hrf Hr Hsh. assert (Hq : quiet self fd m ps s) by (split; [by apply closing_reachable_ok|done]).
  destruct Hrf. pose proof (quiet_kept self fd m ps rf_open0 rf_sizes0) as Hk. split.
  - intros k s' Hn. apply (nsteps_bounded _ _ Hk work_left k s s'); [|done..].
    intros x y Hx Hxy. by apply (step_less self fd m ps rf_sizes0).
  - intros s' Hr' Hno. apply (stuck_over self fd m ps rf_sizes0); [|done].
    by apply (rtc_invariant _ _ Hk s).
Qed.
End Properties.

Ltac thread_goes := eapply rtc_l; [apply shared_own, step_thread; vm_compute; reflexivity|].
Ltac close_goes := eapply rtc_l; [apply shared_own, step_close; vm_compute; reflexivity|].
Ltac other_goes H := eapply rtc_l; [apply H; vm_compute; reflexivity|].

(** [close] gives the descriptor back before it resets [_sock], and the callback
    thread may be about to call [recv] with it. If another part of the process
    opens a file meanwhile, it gets the same number: [recv] then waits for the
    data of that file, and [close] waits for [recv]; and what arrives there goes to
    the callback as a packet of the peer. *)
Theorem close_reads_other_file :
  let start := State_new peer {[3 := Connection]} [] in
  ∃ s, rtc (shared_step false) start s ∧
    closer s = AtJoin ∧ thread s = InRecv Other ∧ (∀ s', ¬ step false s s') ∧
    ∃ s', rtc (shared_step false) s s' ∧ calls s' = [([7], SUCCESS)].
Proof.
  eexists. split_and!.
  - do 2 thread_goes. do 3 close_goes. other_goes (shared_open false 3). thread_goes.
    close_goes. apply rtc_refl.
  - done.
  - done.
  - intros s' Hstep. by inversion Hstep; simplify_eq.
  - eexists. split.
    + other_goes (shared_answer false (Received (frame [7]))). do 2 thread_goes. apply rtc_refl.
    + reflexivity.
Qed.

(** * Examples *)

(** One packet is under way when another thread calls [close]. *)
Lemma demo_receiving : receiving_from peer 3 {[3 := Connection]} [[65]] (frame [65]).
Proof. split; try done. by repeat constructor. Qed.

Definition demo_closing : state :=
  State peer AtClose AtTest {[3 := Connection]} [] (frame [65]) true [] [].

Lemma closing_reachable :
  rtc (step false) (State_new peer {[3 := Connection]} (frame [65])) demo_closing.
Proof. do 2 (eapply rtc_l; [by apply step_close|]). apply rtc_refl. Qed.

Lemma callback_until_close_witness :
  ∃ qs rest errs, [[65]] = qs ++ rest ∧ calls demo_closing = (ok <$> qs) ++ errs.
Proof.
  destruct (callback_until_close false peer 3 {[3 := Connection]} [[65]] (frame [65]) demo_closing
    demo_receiving closing_reachable) as [(qs & rest & errs & H1 & H2 & _) _].
  exists qs, rest, errs. split; [exact H1|exact H2].
Defined.

Definition closing_end : state :=
  State (Tcp None INACTIVE []) Closed Ended (delete 3 {[3 := Connection]}) [] (frame [65]) true [] [].

Lemma closing_ends : nsteps (step false) 5 demo_closing closing_end.
Proof.
  do 2 (eapply nsteps_l; [by apply step_close|]).
  eapply nsteps_l; [by apply step_thread|].
  do 2 (eapply nsteps_l; [by apply step_close|]). apply nsteps_O.
Qed.

Lemma closing_stuck s : ¬ step false closing_end s.
Proof. intros Hstep. by inversion Hstep; simplify_eq. Qed.

Lemma close_returns_witness :
  (5 <= work_left demo_closing)%nat ∧ thread closing_end = Ended ∧ closer closing_end = Closed.
Proof.
  destruct (close_returns false peer 3 {[3 := Connection]} [[65]] (frame [65]) demo_closing
    demo_receiving closing_reachable eq_refl) as [H1 H2].
  split; [exact (H1 5%nat _ closing_ends)|].
  exact (H2 _ (rtc_nsteps_2 _ _ _ closing_ends) closing_stuck).
Defined.
