(* ===== verification/TcpSystem.v ===== *)
(** Two connected [TcpSocket]s: threads call [writePacketAsync] on one of them,
    its worker thread writes into the connection, and a thread calls
    [receivePacket] on the other one, until the first one is destroyed.

    The parts are those of [AsyncWriter.v] (the queues, the worker and the
    destructor), [TcpConnection.v] (the descriptor and [close]) and [TcpSocket.v]
    (the packets in the stream); the connection between them is a stream of
    bytes. All threads interleave. What the whole promises is a channel: packets
    come out as they were put in, in the same order, and the end of the stream
    comes behind the last one. *)

From stdpp Require Import gmap relations.
From S2P Require Import StdMap SocketErrors Packet TcpSocket.
From S2P Require TcpConnection.
From S2P Require Import AsyncWriter Transition Prelude.

Local Open Scope Z_scope.

(** * Specification *)

(** What a call of [receivePacket] returns: a packet, or the end of the stream. *)
Definition ok (p : bytes) : ClockError * bytes := (SUCCESS, p).
Definition ended : ClockError * bytes := (NOT_CONNECTED, []).

(** A first-in first-out channel of packets, with what was taken out of it. Only
    an open channel accepts packets; a closed one gives out what it still has and
    then tells that it has ended. *)
Record channel : Type := Channel {
  queued : list bytes;
  taken : list (ClockError * bytes);
  is_open : bool
}.

Inductive channel_step : channel → channel → Prop :=
| channel_put p q t : channel_step (Channel q t true) (Channel (q ++ [p]) t true)
| channel_take p q t b : channel_step (Channel (p :: q) t b) (Channel q (t ++ [ok p]) b)
| channel_close q t : channel_step (Channel q t true) (Channel q t false)
| channel_end t : channel_step (Channel [] t false) (Channel [] (t ++ [ended]) false).

(** * Model *)

(** [asked] has the answers of [recv] to the call of [receivePacket] that is
    running, [results] what the finished calls returned. *)
Record system : Type := System {
  sender : TcpConnection.conn;
  writing : writer (T := bytes);
  wire : bytes;
  receiver : TcpSocket;
  asked : list recv_result;
  results : list (ClockError * bytes)
}.

Definition System_new (producers : nat) (sender : TcpConnection.conn) (receiver : TcpSocket) : system :=
  System sender (Writer_new producers) [] receiver [] [].

Definition set_writing (w : writer (T := bytes)) (s : system) : system :=
  System (sender s) w (wire s) (receiver s) (asked s) (results s).
Definition set_sender (c : TcpConnection.conn) (s : system) : system :=
  System c (writing s) (wire s) (receiver s) (asked s) (results s).

(** What the step of the worker puts on the wire: [send] blocks until the
    connection has taken everything. *)
Definition sends (s : system) : bytes :=
  match worker (writing s) with
  | WPacketWrite x => (writePacket x (sent_completely x) (TcpConnection.socket (sender s))).2
  | WPlainWrite x => (write x (Sent (size x)) (TcpConnection.socket (sender s))).2
  | _ => []
  end.

Definition work (w : writer (T := bytes)) (s : system) : system :=
  System (sender s) w (wire s ++ sends s) (receiver s) (asked s) (results s).

(** The destructor of the sender: it sets [_terminate], notifies the worker and
    joins it; then it calls [close]. *)
Definition destroy (s : system) : system :=
  set_sender (TcpConnection.set_terminate (sender s))
    (set_writing (set_destructor true DJoin (notify_all (writing s))) s).
Definition destroy_close (e : errno) (s : system) : system :=
  set_sender (TcpConnection.close false e (sender s)) s.

(** [recv] takes [chunk] off the wire, or would have blocked, or finds the end of
    the stream. *)
Definition take_chunk_off (chunk rest : bytes) (s : system) : system :=
  System (sender s) (writing s) rest (receiver s) (asked s ++ [Received chunk]) (results s).
Definition ask_again (e : errno) (s : system) : system :=
  System (sender s) (writing s) (wire s) (receiver s) (asked s ++ [RecvFailed e]) (results s).
Definition end_stream (s : system) : system :=
  System (sender s) (writing s) (wire s) (receiver s) (asked s ++ [Received []]) (results s).

(** [receivePacket] returns; what it has not used is there for the next call. *)
Definition return_packet (error : ClockError) (p : bytes) (this : TcpSocket)
    (net : list recv_result) (s : system) : system :=
  System (sender s) (writing s) (wire s) this net (results s ++ [(error, p)]).

(** Whether [receivePacket] is blocked in a call of [recv], whether the sender has
    closed its end of the connection. *)
Definition in_recv (s : system) : Prop := receivePacket [] (receiver s) (asked s) = Waiting.
Definition hung_up (s : system) : Prop := _sock (TcpConnection.socket (sender s)) = None.

(** The packets a thread may send: not empty and below 2 GiB. *)
Definition sendable (p : bytes) : Prop := p ≠ [] ∧ size p < 2 ^ 31.

Inductive sys_step : system → system → Prop :=
| sys_worker s w : worker_step true (writing s) = Some w → sys_step s (work w s)
| sys_push i p s :
    destructor (writing s) = DNone → producers (writing s) !! i = Some PIdle → sendable p →
    sys_step s (set_writing (push_packet i p (writing s)) s)
| sys_notify i s :
    producers (writing s) !! i = Some PNotify → _condMutex (writing s) = false →
    sys_step s (set_writing (notify i (writing s)) s)
| sys_spurious s :
    worker (writing s) = WWait → sys_step s (set_writing (go WWoken (writing s)) s)
| sys_destroy s :
    destructor (writing s) = DNone → _condMutex (writing s) = false → sys_step s (destroy s)
| sys_close e s :
    destructor (writing s) = DJoin → worker (writing s) = WDone →
    _status (TcpConnection.socket (sender s)) = CONNECTED → sys_step s (destroy_close e s)
| sys_recv chunk rest s :
    in_recv s → wire s = chunk ++ rest → chunk ≠ [] → (length chunk <= 256)%nat →
    sys_step s (take_chunk_off chunk rest s)
| sys_again e s :
    in_recv s → tcp_getLastError e = IN_PROGRESS → sys_step s (ask_again e s)
| sys_end s : in_recv s → wire s = [] → hung_up s → sys_step s (end_stream s)
| sys_return error p this net s :
    receivePacket [] (receiver s) (asked s) = Returned (error, p, this, net) →
    sys_step s (return_packet error p this net s).

(** A connection: the end that sends and the end that receives. *)
Record established (a : TcpConnection.conn) (b : TcpSocket) : Prop := {
  est_ok : TcpConnection.conn_ok a;
  est_sender : _status (TcpConnection.socket a) = CONNECTED;
  est_receiver : _status b = CONNECTED;
  est_buffer : _buffer b = []
}.

(** [connect] and [accept] make one, in both directions. *)
Lemma connect_establishes ip port a fd flags :
  TcpConnection.fresh (TcpConnection.c_socket a) TcpConnection.TcpSocket_new →
  let client := TcpConnection.connect ip port a TcpConnection.TcpSocket_new in
  let server := TcpConnection.TcpSocket_accepted fd flags in
  client.1 = SUCCESS →
  established client.2 (TcpConnection.socket server) ∧
  established server (TcpConnection.socket client.2).
Proof.
  intros Hf client server Hs. pose proof TcpConnection.conn_new_ok as Hn.
  pose proof (TcpConnection.connect_ok ip port a _ Hn Hf) as Hok. fold client in Hok.
  destruct (TcpConnection.connect_cases ip port a _ Hn Hf)
    as [[? _]|(_ & _ & _ & _ & n & fl & fl' & _ & _ & E)]; [done|].
  fold client in E. pose proof (TcpConnection.accepted_ok fd flags) as Hacc.
  rewrite E in *. by split; split.
Qed.

(** * The invariant *)

Section Invariant.
Context (a : TcpConnection.conn).

(** The sender through its life; [a] is what it was in the beginning. *)
Inductive life : destructor_pc → worker_pc (T := bytes) → TcpConnection.conn → Prop :=
| life_alive w : life DNone w a
| life_joining w : life DJoin w (TcpConnection.set_terminate a)
| life_deleted e : life DJoin WDone (TcpConnection.TcpSocket_delete e a).

(** The packets that the finished calls returned. *)
Definition received (s : system) : list bytes := (filter (λ r, r.1 = SUCCESS) (results s)).*2.

(** Everything that has been sent has been received. *)
Record over (s : system) : Prop := {
  over_hung_up : hung_up s;
  over_wire : wire s = [];
  over_received : wrote_packets (writing s) = received s
}.

(** The packets written and not yet returned are what is in the buffer of the
    receiver, in the call that is running and on the wire. *)
Record sys_ok (s : system) : Prop := {
  so_writer : writer_ok true (writing s);
  so_plain : pushed_plain (writing s) = [];
  so_life : life (destructor (writing s)) (worker (writing s)) (sender s);
  so_receiver : _status (receiver s) = CONNECTED;
  so_sizes : Forall (λ p, size p < 2 ^ 31) (pushed_packets (writing s));
  so_asked : Forall ready (asked s) ∨
    ∃ l, asked s = l ++ [Received []] ∧ Forall ready l ∧ over s;
  so_stream : ∃ rest : list bytes,
    wrote_packets (writing s) = received s ++ rest ∧
    _buffer (receiver s) ++ data (asked s) ++ wire s = mjoin (frame <$> rest);
  so_results : ∃ k, results s = (ok <$> received s) ++ replicate k ended ∧ (k ≠ 0%nat → over s)
}.
Context (connected : _status (TcpConnection.socket a) = CONNECTED) (a_ok : TcpConnection.conn_ok a).

Lemma life_cases d w c :
  life d w c →
  (_status (TcpConnection.socket c) = CONNECTED ∧ is_Some (_sock (TcpConnection.socket c)) ∧
   d ≠ DSet ∧ c = match d with DNone => a | _ => TcpConnection.set_terminate a end) ∨
  (TcpConnection.closed c ∧ d = DJoin ∧ w = WDone ∧ ∃ e, c = TcpConnection.TcpSocket_delete e a).
Proof.
  destruct (TcpConnection.ok_connected a a_ok connected) as [Hs _].
  intros []; [by left..|right]. split_and!; [|done..|by exists e].
  apply TcpConnection.close_closed. by destruct a_ok.
Qed.

Lemma life_move d w w' c : w ≠ WDone → life d w c → life d w' c.
Proof. intros Hw Hl. destruct Hl; [apply life_alive|apply life_joining|done]. Qed.

Lemma System_new_ok n b : _status b = CONNECTED → _buffer b = [] → sys_ok (System_new n a b).
Proof.
  intros Hb He. split; try done; [apply life_alive|by left|..].
  - exists []. split; [done|]. simpl. by rewrite He.
  - exists 0%nat. by split.
Qed.

Lemma hung_up_done s :
  sys_ok s → hung_up s → destructor (writing s) = DJoin ∧ worker (writing s) = WDone.
Proof.
  intros [] Hu. unfold hung_up in Hu.
  destruct (life_cases _ _ _ so_life0) as [(_ & [fd Hs] & _)|(_ & -> & -> & _)]; [congruence|done].
Qed.

(** Only an open connection is written to. *)
Lemma sends_frames s : sys_ok s → sends s = mjoin (frame <$> writes (writing s)).
Proof.
  intros []. unfold sends, writes. destruct (worker (writing s)) eqn:E; try done.
  - destruct (life_cases _ _ _ so_life0) as [(Hst & _)|(_ & _ & ? & _)]; [|congruence].
    rewrite writePacket_sent by done. simpl. by rewrite app_nil_r.
  - by destruct (no_plain_write true _ x so_writer0 so_plain0).
Qed.

(** A step of the sender that writes nothing. *)
Lemma change_sender w c s :
  sys_ok s → writer_ok true w → wrote_packets w = wrote_packets (writing s) →
  pushed_plain w = [] → Forall (λ p, size p < 2 ^ 31) (pushed_packets w) →
  life (destructor w) (worker w) c →
  (_sock (TcpConnection.socket (sender s)) = None → _sock (TcpConnection.socket c) = None) →
  sys_ok (set_sender c (set_writing w s)).
Proof.
  intros [] Hok Hw Hp Hsz Hl Hu.
  assert (Hover : over s → over (set_sender c (set_writing w s))).
  { intros [H1 H2 H3]. split; [by apply Hu|done|]. simpl. by rewrite Hw. }
  split; try done; simpl; rewrite ?Hw; try done.
  - destruct so_asked0 as [|(l & ? & ? & ?)]; [by left|right]. exists l. auto.
  - destruct so_results0 as (k & ? & ?). exists k. auto.
Qed.

Lemma work_ok w s : sys_ok s → worker_step true (writing s) = Some w → sys_ok (work w s).
Proof.
  intros Hok Hstep. pose proof (sends_frames s Hok) as Hsends.
  assert (Hnot : ¬ over s).
  { intros [Hu _ _]. apply (hung_up_done s Hok) in Hu as [_ Hd].
    unfold worker_step in Hstep. by rewrite Hd in Hstep. }
  destruct (worker_step_others _ _ _ Hstep) as (_ & Hd & Hpp & Hpl).
  pose proof (worker_step_writes _ _ _ Hstep) as Hw. destruct Hok.
  split; simpl; try done; [by eapply worker_step_ok|congruence| |by rewrite Hpp|..].
  - rewrite Hd. apply life_move with (worker (writing s)); [|done].
    intros Hx. unfold worker_step in Hstep. by rewrite Hx in Hstep.
  - destruct so_asked0 as [|(? & ? & ? & ?)]; [by left|done].
  - destruct so_stream0 as (rest & Er & Es). exists (rest ++ writes (writing s)).
    change (received (work w s)) with (received s). rewrite Hw, Er, <- app_assoc. split; [done|].
    by rewrite fmap_app, join_app, <- Es, <- !app_assoc, Hsends.
  - destruct so_results0 as (k & ? & Hk). exists k. split; [done|]. by intros ?%Hk.
Qed.

(** While [receivePacket] is blocked with nothing on the wire, no packet is under
    way. *)
Lemma waiting_empty s :
  sys_ok s → in_recv s → wire s = [] →
  wrote_packets (writing s) = received s ∧ Forall ready (asked s) ∧
  _buffer (receiver s) ++ data (asked s) = [].
Proof.
  intros Hok Hin Hwire. destruct Hok. destruct so_stream0 as (rest & Er & Es).
  rewrite Hwire, app_nil_r in Es.
  assert (Hl : ∀ l, (asked s = l ∨ asked s = l ++ [Received []]) → Forall ready l → rest = []).
  { intros l Hl Hr. destruct rest as [|p rest]; [done|]. exfalso.
    rewrite (ok_packets _ _ so_writer0), Er in so_sizes0. rewrite <- app_assoc in so_sizes0.
    apply Forall_app in so_sizes0 as [_ [Hp _]%Forall_cons].
    assert (Ed : data (asked s) = data l).
    { destruct Hl as [-> | ->]; [done|]. rewrite data_app. by apply app_nil_r. }
    csimpl in Es. rewrite Ed in Es.
    destruct (receivePacket_frame (receiver s) so_receiver0 p _ [] l
      (drop (length l) (asked s)) Hp Hr Es) as (? & ? & _ & _ & H).
    assert (Ea : l ++ drop (length l) (asked s) = asked s).
    { destruct Hl as [-> | ->]; [by rewrite drop_all, app_nil_r|by rewrite drop_app_length]. }
    rewrite Ea in H. unfold in_recv in Hin. by rewrite Hin in H. }
  destruct so_asked0 as [Hr|(l & El & Hr & _)].
  - specialize (Hl _ (or_introl eq_refl) Hr) as ->. by rewrite app_nil_r in Er.
  - specialize (Hl _ (or_intror El) Hr) as ->. exfalso.
    rewrite El, data_app in Es. apply app_nil in Es as [Eb [Ed _]%app_nil].
    unfold in_recv in Hin. rewrite El in Hin.
    rewrite (receivePacket_fails (receiver s) so_receiver0 [] (frame []) [] l (Received []) [])
      in Hin; try done. by rewrite Eb, Ed.
Qed.

Lemma life_notify d w c : life d (worker w) c → life d (worker (notify_all w)) c.
Proof.
  unfold notify_all. destruct (worker w) eqn:E; rewrite ?E; try done. by apply life_move.
Qed.

(** A call of [receivePacket] between two steps: it waits, or it returns a packet,
    or it has found the end of the stream. *)
Inductive receiving (s : system) : Prop :=
| receiving_waits : in_recv s → Forall ready (asked s) → receiving s
| receiving_packet p rest after net' :
    wrote_packets (writing s) = received s ++ p :: rest →
    after ++ data net' ++ wire s = mjoin (frame <$> rest) →
    Forall ready (asked s) → Forall ready net' →
    receivePacket [] (receiver s) (asked s) =
      Returned (SUCCESS, p, set_buffer after (receiver s), net') → receiving s
| receiving_end l :
    asked s = l ++ [Received []] → over s → _buffer (receiver s) = [] →
    receivePacket [] (receiver s) (asked s) = Returned (NOT_CONNECTED, [], receiver s, []) →
    receiving s.

Lemma receive_cases s : sys_ok s → receiving s.
Proof.
  intros []. destruct so_stream0 as (rest & Er & Es).
  destruct so_asked0 as [Hr|(l & El & Hl & Hover)].
  2:{ pose proof Hover as [_ Hw Hrec]. rewrite Hrec in Er. apply app_same in Er as ->.
      rewrite El, Hw, data_app in Es. apply app_nil in Es as [Eb [[Ed _]%app_nil _]%app_nil].
      apply (receiving_end s l); [done..|]. rewrite El.
      rewrite (receivePacket_fails (receiver s) so_receiver0 [] (frame []) [] l (Received []) []);
        [done|done|done|by rewrite Eb, Ed|done..]. }
  assert (Hempty : ∀ fuel len result, (0 < fuel)%nat →
    receive_loop fuel [] false len result (receiver s) [] = Waiting).
  { intros [|fuel] len result Hf; [lia|]. cbn [receive_loop]. by rewrite read_connected. }
  destruct rest as [|p rest].
  - apply receiving_waits; [|done]. apply app_nil in Es as [Eb [Ed _]%app_nil]. unfold in_recv.
    destruct (receivePacket_partial (receiver s) so_receiver0 [] (frame []) [] (asked s) [])
      as (fuel & len & result & H); [done|done|by rewrite Eb, Ed|done|].
    rewrite app_nil_r in H. rewrite H. apply Hempty. lia.
  - assert (Hp : size p < 2 ^ 31).
    { rewrite (ok_packets _ _ so_writer0), Er in so_sizes0.
      rewrite <- app_assoc in so_sizes0. by apply Forall_app in so_sizes0 as [_ [? _]%Forall_cons]. }
    destruct (receivePacket_stream (receiver s) so_receiver0 p (mjoin (frame <$> rest)) Hp []
      (asked s) [] (wire s) Hr Es) as [(after & net' & Ea & Hr' & H)|(_ & fuel & len & result & Hf & H)];
      rewrite ?app_nil_r in H.
    + by apply (receiving_packet s p rest after net').
    + apply receiving_waits; [|done]. unfold in_recv. rewrite H. by apply Hempty.
Qed.

(** One more answer of [recv] for the call that is blocked. *)
Lemma recv_ok r rest s :
  sys_ok s → in_recv s → ready r → wire s = arriving r ++ rest →
  sys_ok (System (sender s) (writing s) rest (receiver s) (asked s ++ [r]) (results s)).
Proof.
  intros Hok Hin Hr Ewire.
  assert (Hasked : Forall ready (asked s)).
  { destruct (receive_cases s Hok) as [|? ? ? ? ? ? ? ? H|? ? ? ? H]; [done|unfold in_recv in Hin; congruence..]. }
  destruct Hok. split; simpl; try done.
  - left. apply Forall_app. split; [done|]. by apply Forall_singleton.
  - destruct so_stream0 as (q & Er & Es). exists q. split; [done|].
    rewrite data_app, <- Es, Ewire, <- app_assoc. do 2 f_equal. unfold data. simpl. by rewrite app_nil_r.
  - destruct so_results0 as (k & ? & Hk). exists k. split; [done|].
    intros [H1 H2 H3]%Hk. split; [done| |done]. simpl. rewrite H2 in Ewire.
    by apply eq_sym, app_nil in Ewire as [_ ?].
Qed.

Lemma received_snoc r s this net :
  received (return_packet r.1 r.2 this net s) =
  received s ++ (if decide (r.1 = SUCCESS) then [r.2] else []).
Proof.
  unfold received. simpl. rewrite filter_app, fmap_app. f_equal. destruct r as [e p]. simpl.
  rewrite filter_cons. simpl. by destruct (decide (e = SUCCESS)).
Qed.

Lemma return_ok error p this net s :
  sys_ok s → receivePacket [] (receiver s) (asked s) = Returned (error, p, this, net) →
  sys_ok (return_packet error p this net s).
Proof.
  intros Hok Hret. pose proof (received_snoc (error, p) s this net) as Hsnoc. simpl in Hsnoc.
  destruct (receive_cases s Hok) as [Hin _|p' rest after net' Er Es _ Hr H|l El Hover Eb H];
    [by rewrite Hin in Hret|rewrite H in Hret; injection Hret as <- <- <- <-; destruct Hok..];
    rewrite (decide_True _ _ eq_refl) in Hsnoc || rewrite decide_False in Hsnoc by done.
  - split; try done; [by left|..].
    + exists rest. by rewrite Hsnoc, <- app_assoc.
    + destruct so_results0 as (k & E & Hk). exists 0%nat. split; [|done].
      destruct k as [|k].
      * simpl in *. rewrite app_nil_r in *. by rewrite Hsnoc, fmap_app, E at 1.
      * exfalso. destruct (Hk ltac:(done)) as [_ _ Hw]. rewrite Hw in Er.
        by apply app_same in Er.
  - rewrite app_nil_r in Hsnoc. pose proof Hover as [Hu Hw Hrec].
    assert (Hover' : over (return_packet NOT_CONNECTED [] (receiver s) [] s)).
    { split; [done|done|]. by rewrite Hsnoc. }
    split; try done; [by left|..].
    + exists []. rewrite Hsnoc, app_nil_r. split; [done|]. simpl. by rewrite Eb, Hw.
    + destruct so_results0 as (k & E & _). exists (S k). split; [|done].
      rewrite Hsnoc. simpl. rewrite E at 1. rewrite <- app_assoc. f_equal.
      by rewrite <- replicate_S_end.
Qed.

(** The steps of the threads that use the sender. *)
Lemma writer_ok_step (w w' : writer (T := bytes)) : writer_ok true w → tcp_step w w' → writer_ok true w'.
Proof. intros Hok Hstep. exact (writer_step_ok true true w w' Hstep Hok). Qed.

Lemma notified_ok s w c :
  sys_ok s → writer_ok true w → wrote_packets w = wrote_packets (notify_all (writing s)) →
  pushed_plain w = pushed_plain (notify_all (writing s)) →
  pushed_packets w = pushed_packets (notify_all (writing s)) →
  life (destructor w) (worker w) c →
  (_sock (TcpConnection.socket (sender s)) = None → _sock (TcpConnection.socket c) = None) →
  sys_ok (set_sender c (set_writing w s)).
Proof.
  destruct (notify_all_same (writing s)) as (-> & -> & ->). intros Hok Hw E1 E2 E3 Hl Hc.
  apply change_sender; rewrite ?E2, ?E3; try done; apply Hok.
Qed.

Lemma sys_step_ok s s' : sys_step s s' → sys_ok s → sys_ok s'.
Proof.
  intros Hstep Hok. pose proof (so_writer s Hok) as Hwr. pose proof (so_life s Hok) as Hlife.
  destruct Hstep as [s w Hw|i p s Hd Hi Hp|i s Hi Hm|s Hw|s Hd Hm|e s Hd Hw Hst
    |chunk rest s Hin Ewire Hne Hl|e s Hin He|s Hin Hwire Hu|error p this net s Hret].
  - by apply work_ok.
  - pose proof (writer_ok_step _ _ Hwr (step_push_packet true true i p _ Hd Hi)) as Hok'.
    apply (change_sender _ (sender s)); try done; try apply Hok.
    simpl. apply Forall_app. split; [apply Hok|]. by apply Forall_singleton, Hp.
  - pose proof (writer_ok_step _ _ Hwr (step_notify true true i _ Hi Hm)) as Hok'.
    apply (notified_ok s (notify i (writing s)) (sender s)); try done.
    simpl. replace (destructor _) with (destructor (writing s)); [by apply life_notify|].
    unfold notify_all. by destruct (worker _).
  - pose proof (writer_ok_step _ _ Hwr (step_spurious true true _ Hw)) as Hok'.
    apply (change_sender _ (sender s)); try done; try apply Hok.
    simpl. apply life_move with (worker (writing s)); [by rewrite Hw|done].
  - pose proof (writer_ok_step _ _ Hwr (step_destroy_locked true true _ eq_refl Hd Hm)) as Hok'.
    apply (notified_ok s _ (TcpConnection.set_terminate (sender s))); try done.
    destruct (life_cases _ _ _ Hlife) as [(_ & _ & _ & Ha)|(_ & ? & _)]; [|congruence].
    rewrite Ha, Hd. apply life_joining.
  - apply (change_sender (writing s)); try done; try apply Hok.
    + destruct (life_cases _ _ _ Hlife) as [(_ & _ & _ & Ha)|([] & _)]; [|congruence].
      rewrite Ha, Hd, Hw. apply life_deleted.
    + intros Hn. destruct (life_cases _ _ _ Hlife) as [(_ & [fd Hs] & _)|([] & _)]; congruence.
  - by apply recv_ok.
  - by apply recv_ok.
  - destruct (waiting_empty s Hok Hin Hwire) as (Hrec & Hr & Eb). destruct Hok.
    assert (Hover : over s) by done.
    split; try done; [right; by exists (asked s)|..].
    + destruct so_stream0 as (rest & Er & Es). exists rest. split; [done|].
      simpl. rewrite data_app, <- Es. unfold data at 2. simpl. by rewrite app_nil_r.
    + destruct so_results0 as (k & ? & _). by exists k.
  - by apply return_ok.
Qed.

Lemma sys_reachable_ok n b s :
  _status b = CONNECTED → _buffer b = [] → rtc sys_step (System_new n a b) s → sys_ok s.
Proof. intros Hb He. by apply (rtc_invariant _ _ sys_step_ok), System_new_ok. Qed.

(** * Refinement *)

(** The channel a system implements: the packets pushed and not yet returned. *)
Definition channel_of (s : system) : channel :=
  Channel (drop (length (received s)) (pushed_packets (writing s))) (results s)
    (match destructor (writing s) with DNone => true | _ => false end).

(** The packets returned are the first ones pushed. *)
Lemma received_prefix s : sys_ok s → pushed_packets (writing s) = received s ++ queued (channel_of s).
Proof.
  intros []. destruct so_stream0 as (rest & Er & _). simpl.
  by rewrite (ok_packets _ _ so_writer0), Er, <- app_assoc, drop_app_length.
Qed.

(** Behind the end of the stream there is nothing. *)
Lemma over_empty s :
  sys_ok s → over s → received s = pushed_packets (writing s) ∧ destructor (writing s) = DJoin.
Proof.
  intros Hok [Hu Hw Hrec]. destruct (hung_up_done s Hok Hu) as [Hd Hdone]. split; [|done].
  destruct (so_writer s Hok) as [Hp _ _ _ _ _ Hf _]. rewrite Hp, Hrec.
  unfold pending_packets, finish_ok in *. rewrite Hdone in *. destruct Hf as (_ & -> & _).
  by rewrite app_nil_r.
Qed.

Lemma return_simulates error p this net s :
  sys_ok s → receivePacket [] (receiver s) (asked s) = Returned (error, p, this, net) →
  channel_step (channel_of s) (channel_of (return_packet error p this net s)).
Proof.
  intros Hok Hret. pose proof (received_prefix _ (return_ok error p this net s Hok Hret)) as Hpre'.
  pose proof (received_prefix s Hok) as Hpre.
  pose proof (received_snoc (error, p) s this net) as Hsnoc. simpl in Hsnoc.
  unfold channel_of in *. rewrite Hsnoc in *. simpl in *.
  destruct (receive_cases s Hok) as [Hin _|p' rest after net' _ _ _ _ H|l _ Hover _ H];
    [by rewrite Hin in Hret|rewrite H in Hret; injection Hret as <- <- <- <-..].
  - rewrite Hpre, <- app_assoc in Hpre' at 1. apply app_inv_head in Hpre'. simpl in Hpre'.
    rewrite Hpre'. constructor.
  - destruct (over_empty s Hok Hover) as [-> ->]. rewrite app_nil_r, drop_all. constructor.
Qed.

Lemma sys_step_simulates s s' :
  sys_ok s → sys_step s s' →
  channel_of s' = channel_of s ∨ channel_step (channel_of s) (channel_of s').
Proof.
  intros Hok Hstep. pose proof (received_prefix s Hok) as Hpre.
  destruct Hstep as [s w Hw|i p s Hd Hi Hp|i s Hi Hm|s Hw|s Hd Hm|e s Hd Hw Hst
    |chunk rest s Hin Ewire Hne Hl|e s Hin He|s Hin Hwire Hu|error p this net s Hret]; try by left.
  - left. unfold channel_of. simpl. by destruct (worker_step_others _ _ _ Hw) as (_ & -> & -> & _).
  - right. unfold channel_of in *. simpl in *. rewrite Hd. change (received (set_writing _ s)) with (received s).
    rewrite drop_app_le by (rewrite Hpre, length_app; lia). constructor.
  - left. unfold channel_of. simpl. destruct (notify_all_same (writing s)) as (_ & _ & ->).
    unfold notify_all. by destruct (worker (writing s)).
  - right. unfold channel_of. simpl. destruct (notify_all_same (writing s)) as (_ & _ & ->).
    rewrite Hd. constructor.
  - right. by apply return_simulates.
Qed.

(** * Progress *)

(** The steps of the worker, the end of the destructor and the steps of the
    receiver, which is told once that the stream has ended. *)
Inductive drain_step : system → system → Prop :=
| drain_worker s w : worker_step true (writing s) = Some w → drain_step s (work w s)
| drain_close e s :
    destructor (writing s) = DJoin → worker (writing s) = WDone →
    _status (TcpConnection.socket (sender s)) = CONNECTED → drain_step s (destroy_close e s)
| drain_recv chunk rest s :
    in_recv s → wire s = chunk ++ rest → chunk ≠ [] → (length chunk <= 256)%nat →
    drain_step s (take_chunk_off chunk rest s)
| drain_end s :
    in_recv s → wire s = [] → hung_up s → last (results s) ≠ Some ended →
    drain_step s (end_stream s)
| drain_return error p this net s :
    receivePacket [] (receiver s) (asked s) = Returned (error, p, this, net) →
    drain_step s (return_packet error p this net s).

Lemma drain_sys s s' : drain_step s s' → sys_step s s'.
Proof.
  intros []; [by apply sys_worker|by apply sys_close|by apply sys_recv|by apply sys_end|by apply sys_return].
Qed.

(** What is left to do: steps of the worker, each of which may put a frame on the
    wire, bytes on the wire, packets to return, the call of [close], and the end of
    the stream, which is found and then returned. *)
Definition unwritten (s : system) : nat :=
  length (mjoin (frame <$> pending_packets true (writing s))).
Definition unreturned (s : system) : nat :=
  length (pushed_packets (writing s)) - length (received s).
Definition unclosed (s : system) : nat :=
  if decide (_status (TcpConnection.socket (sender s)) = CONNECTED) then 1 else 0.
Definition unended (s : system) : nat :=
  match last (asked s) with
  | Some (Received []) => 1
  | _ => if decide (last (results s) = Some ended) then 0 else 2
  end.
Definition work_left (s : system) : nat :=
  steps_left true (writing s) + (unwritten s + length (wire s)) + unreturned s + unclosed s + unended s.

Lemma ready_not_end l r : Forall ready l → last l = Some r → r ≠ Received [].
Proof.
  intros Hl Hr ->. apply last_Some_elem_of in Hr. by apply (proj1 (Forall_forall _ _) Hl _ Hr).
Qed.

(** A call that goes on has not found the end of the stream. *)
Lemma unended_ready s :
  Forall ready (asked s) →
  unended s = if decide (last (results s) = Some ended) then 0%nat else 2%nat.
Proof.
  intros Hr. unfold unended. destruct (last (asked s)) as [[[|]|]|] eqn:E; try done.
  by destruct (ready_not_end _ _ Hr E).
Qed.

Lemma in_recv_ready s : sys_ok s → in_recv s → Forall ready (asked s).
Proof.
  intros Hok Hin. unfold in_recv in Hin.
  destruct (receive_cases s Hok) as [|? ? ? ? ? ? ? ? H|? ? ? ? H]; [done|congruence..].
Qed.

Lemma return_decreases error p this net s :
  sys_ok s → receivePacket [] (receiver s) (asked s) = Returned (error, p, this, net) →
  (unreturned (return_packet error p this net s) + unended (return_packet error p this net s) <
   unreturned s + unended s)%nat.
Proof.
  intros Hok Hret. pose proof (received_prefix _ (return_ok error p this net s Hok Hret)) as Hpre'.
  pose proof (received_snoc (error, p) s this net) as Hsnoc. simpl in Hsnoc.
  unfold unreturned. rewrite Hsnoc, length_app in *.
  destruct (receive_cases s Hok) as [Hin _|p' rest after net' Er _ Hr Hr' H|l El Hover _ H];
    [by rewrite Hin in Hret|rewrite H in Hret; injection Hret as <- <- <- <-..].
  - rewrite !unended_ready by done. simpl in Hpre'. simpl. rewrite last_snoc.
    rewrite (decide_False (P := last (results s) = Some ended)).
    + rewrite decide_False by done. rewrite Hpre', !length_app. simpl. lia.
    + intros Hl. destruct (so_results s Hok) as ([|k] & E & Hk).
      * rewrite app_nil_r in E. rewrite E, fmap_last in Hl. by destruct (last (received s)).
      * destruct (Hk ltac:(done)) as [_ _ Hw]. rewrite Hw in Er. by apply app_same in Er.
  - unfold unended at 2. rewrite El, last_snoc. rewrite unended_ready by done. simpl.
    rewrite last_snoc, decide_True by done. lia.
Qed.

Lemma drain_decreases s s' : sys_ok s → drain_step s s' → (work_left s' < work_left s)%nat.
Proof.
  intros Hok Hstep. destruct Hstep as [s w Hw|e s Hd Hw Hst|chunk rest s Hin Ewire Hne Hl|s Hin Hwire Hu Hlast
    |error p this net s Hret]; unfold work_left.
  - unfold unwritten, unreturned, unclosed, unended. simpl.
    change (received (work w s)) with (received s).
    pose proof (worker_step_decreases true _ _ (ok_worker _ _ (so_writer _ Hok)) Hw) as Hlt.
    destruct (worker_step_others _ _ _ Hw) as (_ & _ & Hpp & _). rewrite Hpp.
    rewrite (worker_step_pending _ _ _ (so_writer _ Hok) Hw), fmap_app, join_app, !length_app.
    rewrite (sends_frames s Hok). lia.
  - unfold unclosed. rewrite (decide_True (P := _status (TcpConnection.socket (sender s)) = _)) by done.
    destruct (life_cases _ _ _ (so_life _ Hok)) as [(_ & _ & _ & Ha)|([] & _)]; [|congruence].
    rewrite decide_False.
    + unfold unwritten, unreturned, unended. simpl.
      change (received (destroy_close e s)) with (received s). lia.
    + simpl. rewrite (TcpConnection.closed_status); [done|]. rewrite Ha, Hd.
      apply TcpConnection.close_closed. by destruct a_ok.
  - pose proof (in_recv_ready s Hok Hin) as Hr.
    rewrite !unended_ready; [|done|simpl; apply Forall_app; split; [done|by apply Forall_singleton]].
    unfold unwritten, unreturned, unclosed. simpl. rewrite Ewire, length_app.
    change (received (take_chunk_off chunk rest s)) with (received s). destruct chunk; [done|]. simpl. lia.
  - pose proof (in_recv_ready s Hok Hin) as Hr. rewrite (unended_ready s Hr), decide_False by done.
    unfold unended, unwritten, unreturned, unclosed. simpl. rewrite last_snoc.
    change (received (end_stream s)) with (received s). lia.
  - pose proof (return_decreases error p this net s Hok Hret).
    unfold unwritten, unclosed. simpl. lia.
Qed.

(** When nothing of this is possible any more, everything has arrived, and a
    destructor that has been started has ended. *)
Lemma drained s :
  sys_ok s → ¬ notifier (writing s) → (∀ s', ¬ drain_step s s') →
  ∃ k, results s = (ok <$> pushed_packets (writing s)) ++ replicate k ended ∧
    match destructor (writing s) with
    | DNone => k = 0%nat ∧ sender s = a
    | _ => k ≠ 0%nat ∧ ∃ e, sender s = TcpConnection.TcpSocket_delete e a
    end.
Proof.
  intros Hok Hn Hstuck.
  assert (Hin : in_recv s).
  { destruct (receive_cases s Hok) as [|? ? ? ? ? ? ? ? H|? ? ? ? H]; [done|..];
      exfalso; eapply Hstuck; by eapply drain_return. }
  assert (Hwire : wire s = []).
  { destruct (wire s) as [|b w] eqn:E; [done|]. exfalso. eapply Hstuck.
    apply (drain_recv [b] w); [done..|simpl; lia]. }
  assert (Hw : worker_step true (writing s) = None).
  { destruct (worker_step true (writing s)) eqn:E; [|done]. exfalso. eapply Hstuck.
    by apply drain_worker. }
  pose proof (so_writer s Hok) as Hwr.
  pose proof (life_cases _ _ _ (so_life s Hok)) as Hlife.
  assert (HdS : destructor (writing s) ≠ DSet).
  { destruct Hlife as [(_ & _ & ? & _)|(_ & -> & _)]; done. }
  pose proof (nothing_pending true _ Hwr Hw Hn HdS) as Hpend. apply worker_blocked in Hw; [|done].
  destruct (waiting_empty s Hok Hin Hwire) as (Hrec & _).
  assert (Epp : pushed_packets (writing s) = received s).
  { by rewrite (ok_packets _ _ Hwr), Hrec, Hpend, app_nil_r. }
  destruct (so_results s Hok) as (k & Ek & Hk). exists k. rewrite Epp. split; [done|].
  destruct (destructor (writing s)) eqn:Hd; [|done|].
  - destruct Hlife as [(_ & [fd Hs] & _ & Ha)|(_ & ? & _)]; [|done]. split; [|done].
    destruct k as [|k]; [done|]. destruct (Hk ltac:(done)) as [Hu _ _]. unfold hung_up in Hu. congruence.
  - destruct Hlife as [(Hst & _)|(Hc & _ & _ & Ha)].
    + exfalso. destruct Hw as [Hw|Hw].
      * pose proof (ok_wait _ _ Hwr) as Hwait. unfold wait_ok in Hwait. rewrite Hw in Hwait.
        destruct Hwait as [_ Ht]. rewrite Hd in Ht. apply HdS, Ht, (ok_terminate _ _ Hwr). congruence.
      * by eapply (Hstuck _), (drain_close EINVAL).
    + split; [|done]. intros ->. apply (Hstuck (end_stream s)), drain_end; try done.
      * apply Hc.
      * rewrite Ek, app_nil_r, fmap_last. by destruct (last (received s)).
Qed.

(** The steps of the worker, the destructor and the receiver leave the producers
    alone. *)
Lemma drain_others s s' :
  drain_step s s' → notifier (writing s') = notifier (writing s) ∧
  destructor (writing s') = destructor (writing s) ∧
  pushed_packets (writing s') = pushed_packets (writing s).
Proof.
  intros []; simpl; try done. destruct (worker_step_others _ _ _ H) as (Hp & Hd & Hpp & _).
  unfold notifier. by rewrite Hp.
Qed.

Lemma drain_keeps l d s s' :
  drain_step s s' →
  sys_ok s ∧ ¬ notifier (writing s) ∧ destructor (writing s) = d ∧ pushed_packets (writing s) = l →
  sys_ok s' ∧ ¬ notifier (writing s') ∧ destructor (writing s') = d ∧ pushed_packets (writing s') = l.
Proof.
  intros Hstep (Hok & Hn & <- & <-). destruct (drain_others s s' Hstep) as (-> & -> & ->).
  split_and!; [by apply (sys_step_ok _ _ (drain_sys _ _ Hstep))|done..].
Qed.

End Invariant.

(** * Properties *)

(** C1: a connection whose sender may be destroyed at any moment refines a
    first-in first-out channel that may be closed. Whatever the threads do and
    however the connection cuts the stream, every step of the system is a step of
    the channel or changes nothing of it; no call of [receivePacket] is undefined
    or fails before the end, the packets returned so far are the first ones that
    were pushed, in the same order, and the end is told only when all of them
    have been returned. *)
Theorem tcp_refines_channel n a b s :
  established a b → rtc sys_step (System_new n a b) s →
  rtc channel_step (Channel [] [] true) (channel_of s) ∧
  (∀ s', sys_step s s' → channel_of s' = channel_of s ∨ channel_step (channel_of s) (channel_of s')) ∧
  (∃ k, results s = (ok <$> received s) ++ replicate k ended ∧
    (k ≠ 0%nat → received s = pushed_packets (writing s) ∧ destructor (writing s) ≠ DNone)) ∧
  pushed_packets (writing s) = received s ++ queued (channel_of s) ∧
  receivePacket [] (receiver s) (asked s) ≠ Undefined.
Proof.
  intros [Ha Hc Hb He] Hs. pose proof (sys_reachable_ok a Hc Ha n b s Hb He Hs) as Hok. split_and!.
  - apply (rtc_simulates _ _ (sys_step_ok a Hc Ha) _ channel_of (System_new n a b));
      [by apply (sys_step_simulates a Hc Ha)|by apply System_new_ok|done].
  - intros s' Hstep. by apply (sys_step_simulates a Hc Ha).
  - destruct (so_results a s Hok) as (k & E & Hk). exists k. split; [done|]. intros H%Hk.
    destruct (over_empty a Hc Ha s Hok H) as [? Hd]. split; [done|]. by rewrite Hd.
  - by apply (received_prefix a).
  - by destruct (receive_cases a s Hok) as [H _|? ? ? ? _ _ _ _ H|? _ _ _ H]; rewrite H.
Qed.

(** C5: everything arrives, and the destructor loses nothing. Once the producers
    have notified, every run of the worker, the destructor, the connection and the
    receiver ends after a bounded number of steps, and wherever it ends the
    receiver has been given exactly the packets that were pushed, each with
    SUCCESS. If the destructor was started, it has ended: the sender is closed
    and has no open descriptor, and the receiver has been told, behind the last
    packet, that the connection has ended. *)
Theorem tcp_delivers n a b s :
  established a b → rtc sys_step (System_new n a b) s → ¬ notifier (writing s) →
  (∀ k s', nsteps drain_step k s s' → (k <= work_left s)%nat) ∧
  (∀ s', rtc drain_step s s' → (∀ s'', ¬ drain_step s' s'') →
     ∃ k, results s' = (ok <$> pushed_packets (writing s)) ++ replicate k ended ∧
       match destructor (writing s) with
       | DNone => k = 0%nat ∧ sender s' = a
       | _ => k ≠ 0%nat ∧ TcpConnection.closed (sender s') ∧
              ∃ e, sender s' = TcpConnection.TcpSocket_delete e a
       end).
Proof.
  intros [Ha Hc Hb He] Hs Hn. pose proof (sys_reachable_ok a Hc Ha n b s Hb He Hs) as Hok.
  split.
  { intros k s'. apply (nsteps_bounded _ _
      (drain_keeps a Hc Ha (pushed_packets (writing s)) (destructor (writing s)))); [|done].
    intros x y [Hx _]. by apply (drain_decreases a). }
  intros s' Hr Hstuck.
  destruct (rtc_invariant _ _
    (drain_keeps a Hc Ha (pushed_packets (writing s)) (destructor (writing s))) s s')
    as (Hok' & Hn' & <- & <-); [done..|].
  destruct (drained a Hc Ha s' Hok' Hn' Hstuck) as (k & E & H). exists k. split; [done|].
  destruct (destructor (writing s')); [done|..]; destruct H as [Hk [e ->]];
    (split_and!; [done|by apply TcpConnection.close_closed; destruct Ha|by exists e]).
Qed.

(** * Evaluation *)

(** A client connects and a server accepts. *)
Definition demo_client : TcpConnection.conn := TcpConnection.connected.
Definition demo_server : TcpSocket := TcpConnection.socket (TcpConnection.TcpSocket_accepted 4 2).
Definition demo_start : system := System_new 1 demo_client demo_server.

(** One producer pushes the packet [A] and notifies, then the destructor starts;
    the worker writes the packet. *)
Definition demo_pushed : system := set_writing (push_packet 0 [65] (writing demo_start)) demo_start.
Definition demo_notified : system := set_writing (notify 0 (writing demo_pushed)) demo_pushed.
Definition demo_destroyed : system := destroy demo_notified.

Definition run_work (n : nat) (s : system) : system :=
  Nat.iter n (λ s, match worker_step true (writing s) with Some w => work w s | None => s end) s.

(** The client hangs up; the server receives the packet, then the end. *)
Definition demo_written : system := run_work 12 demo_destroyed.
Definition demo_closed : system := destroy_close EINVAL demo_written.
Definition demo_arrived : system := take_chunk_off (frame [65]) [] demo_closed.
Definition demo_received : system := return_packet SUCCESS [65] demo_server [] demo_arrived.
Definition demo_ended : system := end_stream demo_received.
Definition demo_done : system := return_packet NOT_CONNECTED [] demo_server [] demo_ended.

Lemma demo_established : established demo_client demo_server.
Proof.
  exact (proj1 (connect_establishes 0x0100007F 12345 (TcpConnection.connect_success 3 2) 4 2
    eq_refl eq_refl)).
Qed.

Lemma demo_reachable : rtc sys_step demo_start demo_destroyed.
Proof.
  apply rtc_l with demo_pushed; [by apply (sys_push 0 [65] demo_start)|].
  apply rtc_l with demo_notified; [by apply (sys_notify 0 demo_pushed)|].
  apply rtc_once. by apply (sys_destroy demo_notified).
Qed.

Lemma run_work_drains n s : rtc drain_step s (run_work n s).
Proof.
  induction n as [|n IH]; [done|]. etrans; [exact IH|]. simpl.
  destruct (worker_step true (writing (run_work n s))) as [w|] eqn:E; [|done].
  apply rtc_once. by apply drain_worker.
Qed.

Lemma demo_close : drain_step demo_written demo_closed.
Proof. apply drain_close; vm_compute; reflexivity. Qed.

Lemma demo_recv : drain_step demo_closed demo_arrived.
Proof.
  refine (drain_recv (frame [65]) [] demo_closed _ _ _ _);
    [vm_compute; reflexivity|vm_compute; reflexivity|done|simpl; lia].
Qed.

Lemma demo_return : drain_step demo_arrived demo_received.
Proof. refine (drain_return SUCCESS [65] demo_server [] demo_arrived _). vm_compute. reflexivity. Qed.

Lemma demo_end : drain_step demo_received demo_ended.
Proof. apply drain_end; vm_compute; done. Qed.

Lemma demo_return_end : drain_step demo_ended demo_done.
Proof.
  refine (drain_return NOT_CONNECTED [] demo_server [] demo_ended _). vm_compute. reflexivity.
Qed.

Lemma demo_drains : rtc drain_step demo_destroyed demo_done.
Proof.
  transitivity demo_written; [exact (run_work_drains 12 demo_destroyed)|].
  exact (rtc_l _ _ _ _ demo_close (rtc_l _ _ _ _ demo_recv (rtc_l _ _ _ _ demo_return
    (rtc_l _ _ _ _ demo_end (rtc_once _ _ demo_return_end))))).
Qed.

Lemma demo_stuck s : ¬ drain_step demo_done s.
Proof.
  intros H. inversion H as [s' w Hw|e s' Hd Hw Hst|chunk rest s' Hin Hwire Hne|s' Hin Hwire Hu Hl
    |error p this net s' Hr]; subst.
  - vm_compute in Hw. discriminate.
  - vm_compute in Hst. discriminate.
  - change (wire demo_done) with (@nil Z) in Hwire. by destruct chunk.
  - by apply Hl.
  - vm_compute in Hr. discriminate.
Qed.

Lemma tcp_refines_channel_witness :
  rtc channel_step (Channel [] [] true) (Channel [] [ok [65]; ended] false).
Proof.
  apply (tcp_refines_channel 1 demo_client demo_server demo_done); [apply demo_established|].
  transitivity demo_destroyed; [exact demo_reachable|].
  apply (rtc_subrel drain_step sys_step); [apply drain_sys|apply demo_drains].
Defined.

Lemma tcp_delivers_witness :
  results demo_done = [ok [65]; ended] ∧ TcpConnection.closed (sender demo_done).
Proof.
  destruct (tcp_delivers 1 demo_client demo_server demo_destroyed demo_established demo_reachable)
    as [_ H].
  - intros Hn. apply list_elem_of_singleton in Hn. discriminate Hn.
  - destruct (H demo_done demo_drains demo_stuck) as (k & _ & _ & Hc & _).
    split; [reflexivity|exact Hc].
Defined.
