(* ===== verification/TcpApi.v ===== *)
(** The rest of the interface of [TcpSocket]: the overloads for strings and
    vectors, the asynchronous writes as their callers see them, the stream
    operators for enumerations and the queries of addresses, in
    [include/clockUtils/sockets/TcpSocket.h] and [libs/sockets/src/TcpSocket.cpp].

    The calls of the operating system that the queries make are arguments.
    [None] is undefined behaviour. *)

From stdpp Require Import relations.
From S2P Require Import StdMap Streams SocketErrors Packet TcpSocket AsyncWriter Prelude.

Local Open Scope Z_scope.

(** * Overloads *)

(** [writePacket(const std::string &)] and [write(const std::string &)] *)
Definition writePacket_string (s : str) : send_result → TcpSocket → ClockError * bytes :=
  writePacket (to_bytes s).
Definition write_string (s : str) : send_result → TcpSocket → ClockError * bytes :=
  write (to_bytes s).

(** [write(const std::vector<uint8_t> &)]; [&str[0]] is undefined for an empty
    vector. *)
Definition write_vector (vec : bytes) (answer : send_result) (this : TcpSocket)
    : option (ClockError * bytes) :=
  if decide (_status this = CONNECTED) then
    match vec with [] => None | _ => Some (write vec answer this) end
  else Some (NOT_READY, []).

(** [operator<<] and [operator>>] for [std::string] *)
Definition put_string (s : str) (answer : send_result) (this : TcpSocket) : ClockError * bytes :=
  writePacket_string s answer this.
Definition take_string (s : str) (this : TcpSocket) (net : list recv_result)
    : reading (str * TcpSocket * list recv_result) :=
  match receivePacket (to_bytes s) this net with
  | Undefined => Undefined
  | Waiting => Waiting
  | Returned (_, buffer, this, net) => Returned (of_bytes buffer, this, net)
  end.

(** The loop that copies [length] bytes from [str] into a vector of zeros. *)
Fixpoint copy_loop (str : bytes) (n i : nat) (vec : bytes) : bytes :=
  match n with
  | O => vec
  | S n' => copy_loop str n' (S i) (<[i := nth i str 0]> vec)
  end.
Definition copied (str : bytes) : bytes := copy_loop str (length str) 0 (replicate (length str) 0).

(** The asynchronous writes up to the notification, called by the thread [i]. *)
Section Async.
Context (i : nat) (this : TcpSocket).
Notation writer := (AsyncWriter.writer (T := bytes)).

Definition writePacketAsync_vector (vec : bytes) (w : writer) : ClockError * writer :=
  if decide (_status this = CONNECTED) then (SUCCESS, push_packet i vec w) else (NOT_READY, w).
Definition writePacketAsync (str : bytes) (w : writer) : ClockError * writer :=
  if decide (_status this = CONNECTED) then (SUCCESS, push_packet i (copied str) w)
  else (NOT_READY, w).
Definition writePacketAsync_string (s : str) (w : writer) : ClockError * writer :=
  writePacketAsync_vector (to_bytes s) w.

Definition writeAsync_vector (vec : bytes) (w : writer) : ClockError * writer :=
  if decide (_status this = CONNECTED) then (SUCCESS, push_plain i vec w) else (NOT_READY, w).
Definition writeAsync (str : bytes) (w : writer) : ClockError * writer :=
  if decide (_status this = CONNECTED) then (SUCCESS, push_plain i (copied str) w)
  else (NOT_READY, w).
Definition writeAsync_string (s : str) (w : writer) : ClockError * writer :=
  writeAsync_vector (to_bytes s) w.
End Async.

(** ** Enumerations *)

(** [ss << uint32_t(a)] and [ss >> e] for a [uint32_t]: a leading minus negates
    within the 32 bits. *)
Definition extract_uint (s : str) (old : Z) : Z * stream_state :=
  match skip_ws s with
  | [] => (old, {| failed := true; ateof := true |})
  | c :: s' =>
      let neg := (c =? "-")%char in
      let '(d, r) := span_digits (if (neg || (c =? "+")%char)%bool then s' else c :: s') in
      let eof := match r with [] => true | _ => false end in
      match d with
      | [] => (0, {| failed := true; ateof := eof |})
      | _ =>
          if digits_value d >? 2 ^ 32 - 1 then (2 ^ 32 - 1, {| failed := true; ateof := eof |})
          else (if neg then u32 (- digits_value d) else digits_value d,
                {| failed := false; ateof := eof |})
      end
  end.

(** The conversion of a [uint32_t] to an enumeration whose values are those of an
    [int]. *)
Definition to_enum (e : Z) : Z := if e <? 2 ^ 31 then e else e - 2 ^ 32.

(** [operator<<] and [operator>>] for an enumeration; [junk] is the local that
    the extraction does not set if the packet is empty. *)
Definition put_enum (a : Z) (answer : send_result) (this : TcpSocket) : ClockError * bytes :=
  writePacket_string (print_int (u32 a)) answer this.
Definition take_enum (junk : Z) (this : TcpSocket) (net : list recv_result)
    : reading (Z * TcpSocket * list recv_result) :=
  match receivePacket [] this net with
  | Undefined => Undefined
  | Waiting => Waiting
  | Returned (_, buffer, this, net) =>
      Returned (to_enum (extract_uint (of_bytes buffer) junk).1, this, net)
  end.

(** * Addresses *)

(** [htons] and [ntohs] of a little-endian machine. *)
Definition htons (x : Z) : Z := u16 (Z.lor (Z.shiftl x 8) (Z.shiftr x 8)).
Definition ntohs : Z → Z := htons.

Section Addresses.
Context (inet_ntoa : Z → str) (inet_addr : str → Z).

(** [convertIP] *)
Definition convertIP (ip : str) : Z := inet_addr ip.
Definition convertIP_string (ip : Z) : str := inet_ntoa ip.

(** What [getpeername] and [getsockname] store, address and port as they are sent;
    [None] is a failure, which leaves the structure uninitialised. *)
Section Names.
Context (getpeername getsockname : Z → option (Z * Z)).

Definition getRemoteIP (this : TcpSocket) : option str :=
  if decide (_status this = INACTIVE) then Some []
  else fd ← _sock this; name ← getpeername fd; Some (inet_ntoa name.1).
Definition getRemotePort (this : TcpSocket) : option Z :=
  if decide (_status this = INACTIVE) then Some 0
  else fd ← _sock this; name ← getpeername fd; Some (u16 (ntohs name.2)).
Definition getPublicIP (this : TcpSocket) : option str :=
  if decide (_status this = INACTIVE) then Some []
  else fd ← _sock this; name ← getsockname fd; Some (inet_ntoa name.1).
Definition getLocalPort (this : TcpSocket) : option Z :=
  if decide (_status this = INACTIVE) then Some 0
  else fd ← _sock this; name ← getsockname fd; Some (u16 (ntohs name.2)).
End Names.

(** [gethostbyname(gethostname())]: the name and the addresses of the host, or
    [None] for a null pointer, which is followed without a check. *)
Definition enumerateLocalIPs (localHost : option (str * list Z)) : option (list (str * str)) :=
  match localHost with
  | None => None
  | Some (h_name, h_addr_list) => Some ((λ a, (h_name, inet_ntoa a)) <$> h_addr_list)
  end.
Definition getLocalIP (localHost : option (str * list Z)) : option str :=
  match localHost with
  | Some (_, a :: _) => Some (inet_ntoa a)
  | _ => None
  end.
End Addresses.

(** * Lemmas *)

Lemma copy_loop_spec str n : ∀ i vec,
  length vec = length str → (i + n = length str)%nat →
  copy_loop str n i vec = take i vec ++ drop i str.
Proof.
  induction n as [|n IH]; intros i vec Hl Hi; cbn [copy_loop].
  - rewrite take_ge, drop_ge by lia. by rewrite app_nil_r.
  - rewrite IH by (rewrite ?length_insert; lia).
    destruct (lookup_lt_is_Some_2 str i) as [b Hb]; [lia|].
    rewrite (nth_lookup_Some _ _ _ _ Hb).
    rewrite (take_S_r _ _ b) by (apply list_lookup_insert_eq; lia).
    rewrite take_insert_ge by lia. rewrite <- app_assoc. f_equal. simpl.
    by rewrite (drop_S str b i Hb).
Qed.

Lemma copied_id str : copied str = str.
Proof. unfold copied. by rewrite copy_loop_spec by (rewrite ?length_replicate; lia). Qed.

Lemma length_dec_digits fuel n : (length (dec_digits fuel n) <= fuel)%nat.
Proof.
  revert n. induction fuel as [|fuel IH]; intros n; cbn [dec_digits]; [done|].
  destruct (n <? 10); [simpl; lia|]. rewrite length_app. simpl. specialize (IH (n / 10)). lia.
Qed.

(** Reading back an unsigned number. *)
Lemma extract_uint_print z old :
  0 <= z < 2 ^ 32 → extract_uint (print_int z) old = (z, {| failed := false; ateof := true |}).
Proof.
  intros Hz. unfold print_int. rewrite (proj2 (Z.ltb_ge _ _)) by lia.
  destruct (dec_digits_spec 20 z) as (H1 & H2 & d & s & Hd & H3); [lia|lia|].
  destruct (digit_char_spec d Hd) as (_ & _ & Hsp & Hm & Hp). unfold extract_uint.
  rewrite H3 in *. cbn [skip_ws]. rewrite Hsp, Hm, Hp. cbn [orb].
  rewrite span_digits_all, H2 by done. by replace (z >? 2 ^ 32 - 1) with false by lia.
Qed.

Lemma to_enum_u32 a : - 2 ^ 31 <= a < 2 ^ 31 → to_enum (u32 a) = a.
Proof.
  intros Ha. unfold to_enum. destruct (decide (0 <= a)) as [|Hneg].
  - rewrite u32_small by lia. by rewrite (proj2 (Z.ltb_lt _ _)) by lia.
  - assert (E : u32 a = a + 2 ^ 32).
    { unfold u32. rewrite <- (Z.mod_add a 1) by lia. apply Z.mod_small. lia. }
    rewrite E, (proj2 (Z.ltb_ge _ _)) by lia. lia.
Qed.

(** Swapping the bytes of a port. *)
Lemma htons_value x : 0 <= x < 2 ^ 16 → htons x = x mod 2 ^ 8 * 2 ^ 8 + x / 2 ^ 8.
Proof.
  intros Hx. unfold htons, u16.
  assert (E : Z.lor (Z.shiftl x 8) (Z.shiftr x 8) = x * 2 ^ 8 + x / 2 ^ 8).
  { rewrite Z.shiftl_mul_pow2, Z.shiftr_div_pow2 by lia. symmetry.
    apply Z.add_nocarry_lor. apply Z.bits_inj'. intros n Hn.
    rewrite Z.land_spec, Z.bits_0. destruct (decide (n < 8)) as [Hn8|Hn8].
    - by rewrite Z.mul_pow2_bits_low by lia.
    - rewrite <- (Z.mod_small (x / 2 ^ 8) (2 ^ 8)) by (Z.div_mod_to_equations; lia).
      by rewrite Z.mod_pow2_bits_high, andb_false_r by lia. }
  rewrite E. Z.div_mod_to_equations. lia.
Qed.

Lemma htons_range x : 0 <= x < 2 ^ 16 → 0 <= htons x < 2 ^ 16.
Proof. intros Hx. rewrite htons_value by done. Z.div_mod_to_equations. lia. Qed.

Lemma ntohs_htons x : 0 <= x < 2 ^ 16 → ntohs (htons x) = x.
Proof.
  intros Hx. unfold ntohs. rewrite htons_value by by apply htons_range.
  rewrite htons_value by done. Z.div_mod_to_equations. lia.
Qed.

(** * Properties *)

(** An enumerator that [operator<<] has sent is received as the same
    enumerator by [operator>>], for every value an [int] has, negative ones
    included; the bytes behind it stay for the next call. *)
Theorem enum_roundtrip a junk sender receiver net rest :
  _status sender = CONNECTED → _status receiver = CONNECTED → - 2 ^ 31 <= a < 2 ^ 31 →
  Forall ready net →
  _buffer receiver ++ data net =
    (put_enum a (sent_completely (to_bytes (print_int (u32 a)))) sender).2 ++ rest →
  ∃ after net', after ++ data net' = rest ∧
    take_enum junk receiver net = Returned (a, set_buffer after receiver, net').
Proof.
  intros Hs Hc Ha Hr E. unfold put_enum, writePacket_string in E.
  rewrite writePacket_sent in E by done. cbn [snd] in E.
  pose proof (u32_range a) as Hu.
  assert (Hl : size (print_int (u32 a)) < 2 ^ 31).
  { unfold print_int. rewrite (proj2 (Z.ltb_ge _ _)) by lia.
    pose proof (length_dec_digits 20 (u32 a)). lia. }
  destruct (receivePacket_frame receiver Hc (to_bytes (print_int (u32 a))) rest [] net [])
    as (after & net' & Hafter & _ & Hrec); [by rewrite length_to_bytes|done..|].
  rewrite !app_nil_r in Hrec. exists after, net'. split; [done|].
  unfold take_enum. rewrite Hrec, of_to_bytes, extract_uint_print by done. simpl.
  by rewrite to_enum_u32.
Qed.

(** The three overloads of an asynchronous write put the same bytes into the
    queue, and do nothing but report NOT_READY on a socket that is not connected;
    what the worker later takes out of the queue of packets and hands to
    [writePacket] is what the synchronous overload would have sent. *)
Theorem async_overloads i this str w :
  let s := of_bytes str in
  Forall is_u8 str →
  writePacketAsync i this str w = writePacketAsync_vector i this str w ∧
  writePacketAsync_string i this s w = writePacketAsync_vector i this str w ∧
  writeAsync i this str w = writeAsync_vector i this str w ∧
  writeAsync_string i this s w = writeAsync_vector i this str w ∧
  (_status this ≠ CONNECTED →
     writePacketAsync i this str w = (NOT_READY, w) ∧ writeAsync i this str w = (NOT_READY, w)) ∧
  (_status this = CONNECTED → ∃ w1 w2,
     writePacketAsync i this str w = (SUCCESS, w1) ∧ writeAsync i this str w = (SUCCESS, w2) ∧
     (_writePacketAsyncQueue w1 = _writePacketAsyncQueue w ++ [str]) ∧
     (_writeAsyncQueue w2 = _writeAsyncQueue w ++ [str]) ∧
     ∀ answer, writePacket_string s answer this = writePacket str answer this).
Proof.
  intros s Hb.
  assert (Hs : to_bytes s = str).
  { unfold s, to_bytes, of_bytes. rewrite <- list_fmap_compose. rewrite <- (list_fmap_id str) at 2.
    apply list_fmap_ext. intros j x Hx. simpl.
    pose proof (Forall_lookup_1 _ _ _ _ Hb Hx) as Hx8. unfold is_u8 in Hx8.
    rewrite N_ascii_embedding by lia. lia. }
  unfold writePacketAsync, writePacketAsync_string, writePacketAsync_vector, writeAsync,
    writeAsync_string, writeAsync_vector, writePacket_string. rewrite Hs, copied_id.
  split_and!; [done..|by intros Hn; rewrite !decide_False|].
  intros Hc. rewrite !decide_True by done. by eexists _, _.
Qed.

(** The addresses of the two ends of a connection agree: if the operating
    system tells each end the name of the other one, ports being stored in
    network order, then [getRemotePort] and [getRemoteIP] on one side are
    [getLocalPort] and [getPublicIP] on the other, and the port is the one given
    to [listen] or [connect]. *)
Theorem addresses_agree inet_ntoa getpeername getsockname a b fd fd' ip port :
  _status a = CONNECTED → _sock a = Some fd → _status b = CONNECTED → _sock b = Some fd' →
  getpeername fd = getsockname fd' → getsockname fd' = Some (ip, htons port) → 0 <= port < 2 ^ 16 →
  getRemotePort getpeername a = Some port ∧ getLocalPort getsockname b = Some port ∧
  getRemoteIP inet_ntoa getpeername a = getPublicIP inet_ntoa getsockname b ∧
  getPublicIP inet_ntoa getsockname b = Some (inet_ntoa ip).
Proof.
  intros Ha Hfd Hb Hfd' E En Hp. rewrite En in E.
  unfold getRemotePort, getLocalPort, getRemoteIP, getPublicIP.
  rewrite Ha, Hb, Hfd, Hfd'. rewrite !decide_False by done. simpl. rewrite E, En. simpl.
  rewrite ntohs_htons by done. unfold u16. rewrite Z.mod_small by lia. done.
Qed.

(** The queries on a socket that listens ask for the name of a peer it does not
    have, and return what was in the uninitialised structure. *)
Theorem listening_has_no_peer inet_ntoa getpeername this fd :
  _status this = LISTENING → _sock this = Some fd → getpeername fd = None →
  getRemoteIP inet_ntoa getpeername this = None ∧ getRemotePort getpeername this = None.
Proof.
  intros Hs Hfd Hn. unfold getRemoteIP, getRemotePort. rewrite Hs, Hfd.
  rewrite !decide_False by done. simpl. by rewrite Hn.
Qed.

(** * Evaluation *)

Lemma enum_roundtrip_witness :
  ∃ after net', after ++ data net' = [7] ∧
    take_enum 0 peer [Received [124; 0; 0; 0; 10; 52; 50; 57; 52; 57; 54];
                      Received [55; 50; 57; 53; 124; 7]] =
      Returned (-1, set_buffer after peer, net').
Proof.
  apply (enum_roundtrip (-1) 0 peer peer _ [7]); try reflexivity.
  - lia.
  - repeat constructor; discriminate.
Defined.

Lemma async_overloads_witness :
  writePacketAsync 0 peer [65; 255] (Writer_new 1) =
  writePacketAsync_string 0 peer (of_bytes [65; 255]) (Writer_new 1).
Proof.
  destruct (async_overloads 0 peer [65; 255] (Writer_new 1)) as (E1 & E2 & _).
  - repeat constructor; unfold is_u8; lia.
  - rewrite E1, E2. reflexivity.
Defined.

Lemma addresses_agree_witness :
  getRemotePort (λ _, Some (1, htons 12345)) peer = Some 12345.
Proof.
  apply (addresses_agree (λ _, []) (λ _, Some (1, htons 12345)) (λ _, Some (1, htons 12345)) peer peer 3 3 1);
    try reflexivity. lia.
Defined.

Lemma listening_has_no_peer_witness :
  getRemotePort (λ _, None) {| _sock := Some 3; _status := LISTENING; _buffer := [] |} = None.
Proof. by apply (listening_has_no_peer (λ _, []) _ _ 3). Defined.
