(* ===== verification/UdpApi.v ===== *)
(** The rest of the interface of [UdpSocket]: where the datagrams go, the
    overloads with addresses and host names, the asynchronous writes as their
    callers see them and the thread of [receiveCallback], in
    [include/clockUtils/sockets/UdpSocket.h] and [libs/sockets/src/UdpSocket.cpp].

    A packet that fits into one datagram does not depend on any other: if
    datagrams are lost, repeated or reordered, so are the packets, but none is
    changed. A packet of several datagrams has no such protection. *)

From stdpp Require Import gmap relations.
From S2P Require Import StdMap SocketErrors Packet UdpSocket Prelude.
From S2P Require TcpSocket TcpConnection TcpApi AsyncWriter.

Local Open Scope Z_scope.

#[local] Opaque MAX_PACKET_SIZE.

(** * Overloads *)

(** What [sendto] was called with: the address, the port and the data. *)
Notation sendto_call := (Z * Z * bytes)%type.

Definition addressed (ip port : Z) (r : ClockError * list bytes) : ClockError * list sendto_call :=
  (r.1, (λ d, (ip, port, d)) <$> r.2).

Definition write_to (ip port : Z) (str : bytes) (answers : nat → option errno) (this : UdpSocket)
    : ClockError * list sendto_call := addressed ip port (write str answers this).
Definition writePacket_to (ip port : Z) (str : bytes) (answers : nat → option errno)
    (this : UdpSocket) : ClockError * list sendto_call :=
  addressed ip port (writePacket str answers this).

(** The overloads for vectors; [&vec[0]] is undefined for an empty vector. *)
Definition writePacket_vector (ip port : Z) (vec : bytes) (answers : nat → option errno)
    (this : UdpSocket) : option (ClockError * list sendto_call) :=
  match vec with [] => None | _ => Some (writePacket_to ip port vec answers this) end.
Definition write_vector (ip port : Z) (vec : bytes) (answers : nat → option errno)
    (this : UdpSocket) : option (ClockError * list sendto_call) :=
  match vec with [] => None | _ => Some (write_to ip port vec answers this) end.

(** The overloads for strings. *)
Definition writePacket_string (ip port : Z) (s : str) : (nat → option errno) → UdpSocket →
    ClockError * list sendto_call := writePacket_to ip port (TcpSocket.to_bytes s).
Definition write_string (ip port : Z) (s : str) : (nat → option errno) → UdpSocket →
    ClockError * list sendto_call := write_to ip port (TcpSocket.to_bytes s).

(** The overloads for the text of an address and for a host name, whose
    addresses are [servinfo]. *)
Section Names.
Context (inet_addr : str → Z).

Definition writePacketToIP (ip : str) : Z → bytes → (nat → option errno) → UdpSocket →
    ClockError * list sendto_call := writePacket_to (TcpApi.convertIP inet_addr ip).
Definition writeToIP (ip : str) : Z → bytes → (nat → option errno) → UdpSocket →
    ClockError * list sendto_call := write_to (TcpApi.convertIP inet_addr ip).
Definition writePacketToHostname (servinfo : option (list Z)) : Z → bytes →
    (nat → option errno) → UdpSocket → ClockError * list sendto_call :=
  writePacket_to (TcpConnection.resolveHostname servinfo).
Definition writeToHostname (servinfo : option (list Z)) : Z → bytes → (nat → option errno) →
    UdpSocket → ClockError * list sendto_call :=
  write_to (TcpConnection.resolveHostname servinfo).

(** ** Asynchronous writes *)

(** The queues hold [std::make_tuple(vec, ip, port)]. *)
Notation message := (bytes * Z * Z)%type.
Notation writer := (AsyncWriter.writer (T := message)).

Definition writePacketAsync_vector (i : nat) (ip port : Z) (vec : bytes) (this : UdpSocket)
    (w : writer) : ClockError * writer :=
  match _sock this with
  | None => (NOT_READY, w)
  | Some _ => (SUCCESS, AsyncWriter.push_packet i (vec, ip, port) w)
  end.
Definition writePacketAsync (i : nat) (ip port : Z) (str : bytes) (this : UdpSocket)
    (w : writer) : ClockError * writer :=
  match _sock this with
  | None => (NOT_READY, w)
  | Some _ => (SUCCESS, AsyncWriter.push_packet i (TcpApi.copied str, ip, port) w)
  end.
Definition writePacketAsync_string (i : nat) (ip port : Z) (s : str) : UdpSocket → writer →
    ClockError * writer := writePacketAsync_vector i ip port (TcpSocket.to_bytes s).

Definition writeAsync_vector (i : nat) (ip port : Z) (vec : bytes) (this : UdpSocket)
    (w : writer) : ClockError * writer :=
  match _sock this with
  | None => (NOT_READY, w)
  | Some _ => (SUCCESS, AsyncWriter.push_plain i (vec, ip, port) w)
  end.
Definition writeAsync (i : nat) (ip port : Z) (str : bytes) (this : UdpSocket)
    (w : writer) : ClockError * writer :=
  match _sock this with
  | None => (NOT_READY, w)
  | Some _ => (SUCCESS, AsyncWriter.push_plain i (TcpApi.copied str, ip, port) w)
  end.
Definition writeAsync_string (i : nat) (ip port : Z) (s : str) : UdpSocket → writer →
    ClockError * writer := writeAsync_vector i ip port (TcpSocket.to_bytes s).

Definition writePacketToIPAsync (i : nat) (ip : str) : Z → bytes → UdpSocket → writer →
    ClockError * writer := writePacketAsync_vector i (TcpApi.convertIP inet_addr ip).
Definition writeToIPAsync (i : nat) (ip : str) : Z → bytes → UdpSocket → writer →
    ClockError * writer := writeAsync_vector i (TcpApi.convertIP inet_addr ip).
Definition writePacketToHostnameAsync (i : nat) (servinfo : option (list Z)) : Z → bytes →
    UdpSocket → writer → ClockError * writer :=
  writePacketAsync_vector i (TcpConnection.resolveHostname servinfo).
Definition writeToHostnameAsync (i : nat) (servinfo : option (list Z)) : Z → bytes →
    UdpSocket → writer → ClockError * writer :=
  writeAsync_vector i (TcpConnection.resolveHostname servinfo).
End Names.

(** What the worker does with a message it has taken out of a queue; [&Message[0]]
    is undefined for an empty one. *)
Definition worker_writePacket (m : bytes * Z * Z) (answers : nat → option errno)
    (this : UdpSocket) : option (ClockError * list sendto_call) :=
  match m.1.1 with [] => None | _ => Some (writePacket_to m.1.2 m.2 m.1.1 answers this) end.
Definition worker_write (m : bytes * Z * Z) (answers : nat → option errno)
    (this : UdpSocket) : option (ClockError * list sendto_call) :=
  match m.1.1 with [] => None | _ => Some (write_to m.1.2 m.2 m.1.1 answers this) end.

Lemma worker_writePacket_some m answers this :
  m.1.1 ≠ [] → worker_writePacket m answers this = Some (writePacket_to m.1.2 m.2 m.1.1 answers this).
Proof. unfold worker_writePacket. by destruct m.1.1. Qed.

(** * The callback thread *)

Section Callback.
Context (inet_ntoa : Z → str).

(** The thread of [receiveCallback], as long as nobody closes the socket: the
    calls of the callback. *)
Fixpoint callback_loop (fuel : nat) (this : UdpSocket) (net : list recv_result)
    : list (bytes * peer * ClockError) * reading (UdpSocket * list recv_result) :=
  match fuel with
  | O => ([], Waiting)
  | S fuel' =>
      match _sock this with
      | None => ([], Returned (this, net))
      | Some _ =>
          match receivePacket_vector inet_ntoa [] ([], 0) this net with
          | Undefined => ([], Undefined)
          | Waiting => ([], Waiting)
          | Returned (err, buffer, ipport, this, net) =>
              if decide (err = SUCCESS) then
                let '(calls, out) := callback_loop fuel' this net in
                ((buffer, ipport, err) :: calls, out)
              else ([(buffer, ipport, err)], Returned (this, net))
          end
      end
  end.

(** An answer of [recvfrom] that is a whole packet of at most one datagram, or
    would have blocked. *)
Definition whole (r : recv_result) : Prop :=
  match r with
  | Datagram _ _ d => ∃ p, d = frame p ∧ (length d <= MAX_PACKET_SIZE)%nat
  | RecvFailed e => udp_getLastError e = IN_PROGRESS
  end.

Definition payload (d : bytes) : bytes := take (length d - 6) (drop 5 d).
Definition packets_in (net : list recv_result) : list (bytes * peer) :=
  omap (λ r, match r with
             | Datagram addr port d => Some (payload d, (inet_ntoa addr, port))
             | RecvFailed _ => None
             end) net.

(** An error that ends the loop. *)
Definition fatal (e : errno) : Prop := udp_getLastError e ≠ IN_PROGRESS.

Lemma payload_frame p : payload (frame p) = p.
Proof.
  unfold payload. rewrite length_frame. replace (length p + 6 - 6)%nat with (length p) by lia.
  unfold frame. simpl. apply take_app_length.
Qed.

Lemma receive_loop_again e fuel buffer ipport this fd net :
  _sock this = Some fd → udp_getLastError e = IN_PROGRESS →
  receive_loop inet_ntoa (S fuel) buffer ipport this (RecvFailed e :: net) =
  receive_loop inet_ntoa (S fuel) buffer ipport this net.
Proof.
  intros Hs He. cbn [receive_loop]. unfold read. rewrite Hs. simpl. by rewrite He, decide_True.
Qed.

(** Every packet is taken by a call of its own. *)
Lemma receive_whole net : ∀ fuel this fd tail,
  _sock this = Some fd → (∀ k, buffered this k = []) → Forall whole net →
  (packets_in net = [] ∧
   receive_loop inet_ntoa (S fuel) [] ([], 0) this (net ++ tail) =
     receive_loop inet_ntoa (S fuel) [] ([], 0) this tail) ∨
  ∃ p k this' net', packets_in net = (p, k) :: packets_in net' ∧ Forall whole net' ∧
    _sock this' = Some fd ∧ (∀ k, buffered this' k = []) ∧
    receive_loop inet_ntoa (S fuel) [] ([], 0) this (net ++ tail) =
      Returned (SUCCESS, p, k, this', net' ++ tail).
Proof.
  induction net as [|[addr port d|e] net IH]; intros fuel this fd tail Hs Hb Hw; [by left|..];
    apply Forall_cons in Hw as [Hw Hws].
  - right. destruct Hw as (p & -> & Hl).
    exists p, (inet_ntoa addr, port),
      (set_buffer (set (touch (_buffer this) (inet_ntoa addr, port) []) (inet_ntoa addr, port) []) this), net.
    split_and!.
    + unfold packets_in. csimpl. by rewrite payload_frame.
    + done.
    + done.
    + intros k. rewrite buffered_touch_set. by case_decide.
    + simpl app. apply (round_last inet_ntoa fd this Hs addr port (frame p)); [done|done| |by rewrite Hb].
      rewrite length_frame in Hl. pose proof MAX_value. lia.
  - simpl in Hw. simpl app. rewrite (receive_loop_again e fuel [] ([], 0) this fd) by done.
    destruct (IH fuel this fd tail Hs Hb Hws) as [[Hn ->]|(p & k & this' & net' & H)];
      [by left|right; by exists p, k, this', net'].
Qed.

Lemma callback_whole fuel : ∀ net this fd e tail,
  (length (packets_in net) < fuel)%nat → _sock this = Some fd → (∀ k, buffered this k = []) →
  Forall whole net → fatal e →
  ∃ this', (∀ k, buffered this' k = []) ∧ _sock this' = Some fd ∧
    callback_loop fuel this (net ++ RecvFailed e :: tail) =
      (((λ q, (q.1, q.2, SUCCESS)) <$> packets_in net) ++ [([], (inet_ntoa 0, 0), udp_getLastError e)],
       Returned (this', tail)).
Proof.
  induction fuel as [|fuel IH]; intros net this fd e tail Hf Hs Hb Hw He; [lia|].
  cbn [callback_loop]. rewrite Hs. unfold receivePacket_vector, receivePacket. rewrite Hs.
  rewrite Nat.add_1_r.
  destruct (receive_whole net (length (net ++ RecvFailed e :: tail)) this fd (RecvFailed e :: tail) Hs Hb Hw)
    as [[Hn ->]|(p & k & this' & net' & Hp & Hw' & Hs' & Hb' & ->)].
  - cbn [receive_loop]. unfold read. rewrite Hs. simpl. unfold fatal in He.
    rewrite (decide_False (P := udp_getLastError e = IN_PROGRESS)) by done.
    assert (Hne : udp_getLastError e ≠ SUCCESS) by by destruct e.
    rewrite !decide_False by done. exists this. by rewrite Hn.
  - rewrite !decide_True by done. rewrite Hp in *. simpl in Hf.
    destruct (IH net' this' fd e tail) as (this'' & Hb'' & Hs'' & ->); [lia|done..|].
    by exists this''.
Qed.

(** Packets of one datagram each are received independently of each other:
    whatever datagrams arrive, in whatever order, however often each of them and
    from whatever peers, [receiveCallback] calls the callback exactly once for
    every datagram that arrives, in the order of arrival, with the packet and the
    peer; then once with the error that ends the loop. No buffer keeps
    anything. *)
Theorem udp_datagram_packets this fd net e tail :
  _sock this = Some fd → (∀ k, buffered this k = []) → Forall whole net → fatal e →
  ∃ this', (∀ k, buffered this' k = []) ∧ _sock this' = Some fd ∧
    callback_loop (length (packets_in net) + 1) this (net ++ RecvFailed e :: tail) =
      (((λ q, (q.1, q.2, SUCCESS)) <$> packets_in net) ++ [([], (inet_ntoa 0, 0), udp_getLastError e)],
       Returned (this', tail)).
Proof. intros Hs Hb Hw He. apply callback_whole; [lia|done..]. Qed.
End Callback.

(** The asynchronous overloads queue the data with its destination, and do
    nothing but report NOT_READY on a socket that is not bound; the worker does
    with a message of the queue what the synchronous overload for vectors would have
    done: it sends the same datagrams, and is undefined for an empty message. *)
Theorem udp_async_messages i ip port str this w :
  writePacketAsync i ip port str this w = writePacketAsync_vector i ip port str this w ∧
  writeAsync i ip port str this w = writeAsync_vector i ip port str this w ∧
  (_sock this = None →
     writePacketAsync i ip port str this w = (NOT_READY, w) ∧
     writeAsync i ip port str this w = (NOT_READY, w)) ∧
  (∀ fd, _sock this = Some fd → ∃ w1 w2,
     writePacketAsync i ip port str this w = (SUCCESS, w1) ∧
     writeAsync i ip port str this w = (SUCCESS, w2) ∧
     AsyncWriter._writePacketAsyncQueue w1 = AsyncWriter._writePacketAsyncQueue w ++ [(str, ip, port)] ∧
     AsyncWriter._writeAsyncQueue w2 = AsyncWriter._writeAsyncQueue w ++ [(str, ip, port)] ∧
     ∀ answers,
       worker_writePacket (str, ip, port) answers this = writePacket_vector ip port str answers this ∧
       worker_write (str, ip, port) answers this = write_vector ip port str answers this).
Proof.
  unfold writePacketAsync, writePacketAsync_vector, writeAsync, writeAsync_vector.
  rewrite TcpApi.copied_id. split_and!; [done..|by intros ->|].
  intros fd ->. by eexists _, _.
Qed.

(** [writePacketToIP] does not check its address: with a text that is no
    address it reports SUCCESS and sends to 255.255.255.255. *)
Theorem udp_invalid_ip_broadcasts inet_addr ip port fd op :
  inet_addr ip = TcpConnection.NO_IP →
  writePacketToIP inet_addr ip port [65] (λ _, None) (Udp (Some fd) [] false op) =
    (SUCCESS, [(TcpConnection.NO_IP, port, frame [65])]).
Proof.
  intros Hip. unfold writePacketToIP, TcpApi.convertIP, writePacket_to. rewrite Hip.
  vm_compute. reflexivity.
Qed.

(** * Evaluation *)

(** The second packet of the peer overtakes the first and is repeated. *)
Lemma udp_datagram_packets_witness :
  ∃ this', callback_loop demo_ntoa 4 (udp_peer 4)
    ([Datagram 1 1000 (frame [66]); RecvFailed EWOULDBLOCK; Datagram 1 1000 (frame [65]);
      Datagram 1 1000 (frame [66])] ++ RecvFailed EBADF :: []) =
    ([([66], peer_a, SUCCESS); ([65], peer_a, SUCCESS); ([66], peer_a, SUCCESS);
      ([], (demo_ntoa 0, 0), INVALID_USAGE)], Returned (this', [])).
Proof.
  destruct (udp_datagram_packets demo_ntoa (udp_peer 4) 4
    [Datagram 1 1000 (frame [66]); RecvFailed EWOULDBLOCK; Datagram 1 1000 (frame [65]);
     Datagram 1 1000 (frame [66])] EBADF []) as (this' & _ & _ & H).
  - reflexivity.
  - reflexivity.
  - pose proof MAX_value. repeat constructor;
      (eexists; split; [reflexivity|simpl; lia]).
  - discriminate.
  - exists this'. exact H.
Defined.

Lemma udp_invalid_ip_broadcasts_witness :
  writePacketToIP (λ _, TcpConnection.NO_IP) (lit "nowhere") 80 [65] (λ _, None) (Udp (Some 3) [] false ∅) =
    (SUCCESS, [(TcpConnection.NO_IP, 80, frame [65])]).
Proof. by apply udp_invalid_ip_broadcasts. Defined.

(** * Lost datagrams *)

(** What arrives if the second datagram of [p] is lost and [q] follows. *)
Definition mixed (p q : bytes) : bytes :=
  take (MAX_PACKET_SIZE - 5) p ++ take (length q + 5) (frame q).

Definition header (n : Z) : bytes :=
  [bar; n / 256 / 256 / 256 mod 256; n / 256 / 256 mod 256; n / 256 mod 256; n mod 256].

Lemma frame_header p : frame p = header (size p) ++ p ++ [bar].
Proof. reflexivity. Qed.

Lemma length_mixed p q :
  (length p = MAX_PACKET_SIZE + length q)%nat → length (mixed p q) = length p.
Proof.
  pose proof MAX_value. intros Hl. unfold mixed. rewrite length_app, !length_take, length_frame. lia.
Qed.

Lemma mixed_frame p q :
  (length p = MAX_PACKET_SIZE + length q)%nat →
  take MAX_PACKET_SIZE (frame p) ++ frame q = frame (mixed p q).
Proof.
  intros Hl. pose proof MAX_value as HM.
  assert (Hq : frame q = take (length q + 5) (frame q) ++ [bar]).
  { rewrite frame_header, app_assoc. rewrite take_app_length'; [done|].
    rewrite length_app. simpl. lia. }
  assert (Hp : take MAX_PACKET_SIZE (frame p) = header (size p) ++ take (MAX_PACKET_SIZE - 5) p).
  { rewrite frame_header, take_app_ge by (simpl; lia). f_equal. simpl length.
    by rewrite take_app_le by lia. }
  rewrite (frame_header (mixed p q)), length_mixed, Hp by done. unfold mixed.
  by rewrite <- !app_assoc, <- Hq.
Qed.

(** What [writePacket] sends for a packet of one and of two datagrams. *)
Lemma sent_one q this fd :
  _sock this = Some fd → (length q + 6 < MAX_PACKET_SIZE)%nat →
  (writePacket q (λ _, None) this).2 = [frame q].
Proof.
  intros Hs Hq. unfold writePacket. rewrite Hs.
  destruct (write_cut (frame q) this fd Hs) as (ds & -> & Hc).
  simpl. inversion Hc as [s Hlt|d s ds' Hd' Hc' E]; subst; [done|].
  apply (f_equal length) in E. rewrite length_app, length_frame in E. lia.
Qed.

Lemma sent_two p this fd :
  _sock this = Some fd → (MAX_PACKET_SIZE <= length p + 6 < 2 * MAX_PACKET_SIZE)%nat →
  (writePacket p (λ _, None) this).2 =
    [take MAX_PACKET_SIZE (frame p); drop MAX_PACKET_SIZE (frame p)].
Proof.
  intros Hs Hp. unfold writePacket. rewrite Hs.
  destruct (write_cut (frame p) this fd Hs) as (ds & -> & Hc). cbn [snd].
  remember (frame p) as f eqn:Ef. assert (Hf : length f = (length p + 6)%nat) by (by rewrite Ef, length_frame).
  clear Ef. inversion Hc as [s Hlt|d s ds' Hd' Hc' E]; subst; [lia|].
  rewrite length_app in Hf.
  inversion Hc' as [s' Hlt|d' s' ds'' Hd'' Hc'' E']; subst; [|rewrite length_app in Hf; lia].
  by rewrite take_app_length', drop_app_length' by done.
Qed.

Lemma not_nil_by_length (l : bytes) : (0 < length l)%nat → l ≠ [].
Proof. by destruct l; [simpl; lia|]. Qed.

(** Two datagrams that together are a packet. *)
Lemma receive_two inet_ntoa x d d' (this : UdpSocket) fd addr port :
  _sock this = Some fd → buffered this (inet_ntoa addr, port) = [] → size x < 2 ^ 31 →
  d ≠ [] → (length d <= MAX_PACKET_SIZE)%nat → d' ≠ [] → (length d' <= MAX_PACKET_SIZE)%nat →
  d ++ d' = frame x →
  ∃ this', receivePacket inet_ntoa [] ([], 0) this [Datagram addr port d; Datagram addr port d'] =
    Returned (SUCCESS, x, (inet_ntoa addr, port), this', []).
Proof.
  intros Hs Hb Hx Hd Hld Hd' Hld' E. unfold receivePacket. rewrite Hs.
  change (length [Datagram addr port d; Datagram addr port d'] + 1)%nat with 3%nat.
  assert (E1 : buffered this (inet_ntoa addr, port) ++ d ++ d' = frame x) by (by rewrite Hb).
  rewrite (round_more inet_ntoa fd this Hs addr port d Hd Hld x Hx d' 2 [] ([], 0) _ E1 Hd').
  eexists. apply (round_last inet_ntoa fd (set_buffer _ this) Hs addr port d' Hd' Hld' x Hx).
  by rewrite buffered_touch_set, decide_True, <- app_assoc.
Qed.

(** Packets of several datagrams are not protected against losses: if the
    second datagram of such a packet is lost, the next packet of the same peer is
    taken for the rest of it; [receivePacket] reports SUCCESS and returns bytes
    that nobody has sent as a packet. *)
Theorem udp_lost_datagram_corrupts inet_ntoa p q this fd addr port :
  _sock this = Some fd → buffered this (inet_ntoa addr, port) = [] →
  (length p = MAX_PACKET_SIZE + length q)%nat → (length q + 6 < MAX_PACKET_SIZE)%nat →
  (writePacket p (λ _, None) this).2 =
    [take MAX_PACKET_SIZE (frame p); drop MAX_PACKET_SIZE (frame p)] ∧
  (writePacket q (λ _, None) this).2 = [frame q] ∧
  ∃ this', receivePacket inet_ntoa [] ([], 0) this
      [Datagram addr port (take MAX_PACKET_SIZE (frame p)); Datagram addr port (frame q)] =
    Returned (SUCCESS, mixed p q, (inet_ntoa addr, port), this', []).
Proof.
  intros Hs Hb Hl Hq. pose proof MAX_value. split_and!.
  - apply (sent_two p this fd Hs). lia.
  - by apply (sent_one q this fd Hs).
  - apply (receive_two inet_ntoa (mixed p q) _ _ this fd); [done|done| | | | | |by apply mixed_frame].
    + rewrite length_mixed by done. lia.
    + apply not_nil_by_length. rewrite length_take, length_frame. lia.
    + rewrite length_take. lia.
    + done.
    + rewrite length_frame. lia.
Qed.

Lemma udp_lost_datagram_corrupts_witness :
  let p := replicate (MAX_PACKET_SIZE + 1) 0 in
  ∃ this', receivePacket demo_ntoa [] ([], 0) (udp_peer 4)
      [Datagram 1 1000 (take MAX_PACKET_SIZE (frame p)); Datagram 1 1000 (frame [7])] =
    Returned (SUCCESS, mixed p [7], peer_a, this', []).
Proof.
  intros p. apply (udp_lost_datagram_corrupts demo_ntoa p [7] (udp_peer 4) 4 1 1000); [reflexivity|reflexivity| |].
  - unfold p. by rewrite length_replicate.
  - pose proof MAX_value. simpl. lia.
Defined.
