(* ===== verification/UdpSystem.v ===== *)
(** Several [UdpSocket]s that send packets to one that receives them, over a
    network that loses, repeats and reorders datagrams.

    The parts are those of [AsyncWriter.v] (the queues and the worker of every
    sender), [UdpApi.v] (the asynchronous writes) and [UdpSocket.v] (the
    datagrams and the receiver); the network is the bag of the datagrams under
    way. All threads interleave. What the whole promises for packets of one
    datagram is an unreliable channel: packets may be lost, repeated and
    reordered, but none is invented, damaged or given to the wrong peer. If the
    network neither loses nor repeats anything, every packet arrives once. *)

From stdpp Require Import gmap relations.
From S2P Require Import StdMap SocketErrors Packet UdpSocket UdpApi AsyncWriter Transition Prelude.

Local Open Scope Z_scope.

#[local] Opaque MAX_PACKET_SIZE.

(** * Specification *)

(** What is received: a packet and the name of its sender. *)
Notation delivery := (bytes * peer)%type.

(** An unreliable channel, with what was taken out of it. Nothing leaves [sent],
    so that it may be taken again, or never. *)
Record channel : Type := Channel { sent_to : list delivery; taken : list delivery }.

Inductive channel_step : channel → channel → Prop :=
| channel_put m q q' t : q' ≡ₚ m :: q → channel_step (Channel q t) (Channel q' t)
| channel_take m q t : m ∈ q → channel_step (Channel q t) (Channel q (t ++ [m])).

(** * Model *)

Notation address := (Z * Z)%type.
Notation message := (bytes * Z * Z)%type.

(** A sender: the address its datagrams come from, its socket and its writer. *)
Record node : Type := Node {
  from : address;
  socket : UdpSocket;
  writing : writer (T := message)
}.

(** A datagram under way: where from, and what [sendto] was called with. *)
Notation datagram := (address * (address * bytes))%type.

Section System.
(** [inet_ntoa], and the address of the receiver. *)
Context (inet_ntoa : Z → str) (here : address).

(** [asked] has the answers of [recvfrom] to the call of [receivePacket] that is
    running, [results] what the finished calls returned. *)
Record system : Type := System {
  nodes : list node;
  net : list datagram;
  receiver : UdpSocket;
  asked : list recv_result;
  results : list (ClockError * bytes * peer)
}.

(** Sockets with their addresses, and the number of threads that use them. *)
Definition System_new (peers : list (address * UdpSocket * nat)) (receiver : UdpSocket) : system :=
  System ((λ x, Node x.1.1 x.1.2 (Writer_new x.2)) <$> peers) [] receiver [] [].

Definition set_node (j : nat) (n : node) (s : system) : system :=
  System (<[j := n]> (nodes s)) (net s) (receiver s) (asked s) (results s).
Definition set_net (l : list datagram) (s : system) : system :=
  System (nodes s) l (receiver s) (asked s) (results s).
Definition set_writing (w : writer (T := message)) (n : node) : node := Node (from n) (socket n) w.
Definition replace_socket (this : UdpSocket) (n : node) : node := Node (from n) this (writing n).

(** The datagrams of a write. Nothing is known of the undefined write of an empty
    message; no thread of the systems sends one. *)
Definition sent_calls (r : option (ClockError * list sendto_call)) : list sendto_call :=
  match r with Some r => r.2 | None => [] end.

(** What the step of the worker sends, with the answers of [sendto]. *)
Definition sends (answers : nat → option errno) (n : node) : list datagram :=
  match worker (writing n) with
  | WPacketWrite m => (λ c, (from n, c)) <$> sent_calls (worker_writePacket m answers (socket n))
  | WPlainWrite m => (λ c, (from n, c)) <$> sent_calls (worker_write m answers (socket n))
  | _ => []
  end.

Definition work (j : nat) (n : node) (w : writer (T := message)) (answers : nat → option errno)
    (s : system) : system :=
  System (<[j := set_writing w n]> (nodes s)) (net s ++ sends answers n) (receiver s) (asked s)
    (results s).

(** [recvfrom] takes a datagram, or would have blocked. *)
Definition take_datagram (addr port : Z) (d : bytes) (rest : list datagram) (s : system) : system :=
  System (nodes s) rest (receiver s) (asked s ++ [Datagram addr port d]) (results s).
Definition ask_again (e : errno) (s : system) : system :=
  System (nodes s) (net s) (receiver s) (asked s ++ [RecvFailed e]) (results s).

(** [receivePacket] returns. *)
Definition return_packet (error : ClockError) (p : bytes) (k : peer) (this : UdpSocket)
    (rest : list recv_result) (s : system) : system :=
  System (nodes s) (net s) this rest (results s ++ [(error, p, k)]).

Definition receiving (s : system)
    : reading (ClockError * bytes * peer * UdpSocket * list recv_result) :=
  receivePacket inet_ntoa [] ([], 0) (receiver s) (asked s).

(** The packets a thread may send: not empty, and below the size of a datagram. *)
Definition small (p : bytes) : Prop := p ≠ [] ∧ (length p + 6 < MAX_PACKET_SIZE)%nat.

(** The steps of a writer other than those of the worker and of a push. *)
Inductive quiet (w : writer (T := message)) : writer (T := message) → Prop :=
| quiet_notify i :
    producers w !! i = Some PNotify → _condMutex w = false → quiet w (notify i w)
| quiet_spurious : worker w = WWait → quiet w (go WWoken w)
| quiet_destroy : destructor w = DNone → quiet w (set_destructor true DSet w)
| quiet_destroy_notify :
    destructor w = DSet → _condMutex w = false →
    quiet w (set_destructor (_terminate w) DJoin (notify_all w)).

(** With a [reliable] network no datagram is lost or repeated, [sendto] does not
    fail and a socket that sends is closed at the end of its destructor only; the
    order is always lost. *)
Inductive sys_step (reliable : bool) : system → system → Prop :=
| u_worker j n w answers s :
    nodes s !! j = Some n → worker_step false (writing n) = Some w →
    (reliable = true → ∀ i, answers i = None) → sys_step reliable s (work j n w answers s)
| u_push j n i ip port p w s :
    nodes s !! j = Some n → destructor (writing n) = DNone →
    producers (writing n) !! i = Some PIdle → small p →
    writePacketAsync i ip port p (socket n) (writing n) = (SUCCESS, w) →
    sys_step reliable s (set_node j (set_writing w n) s)
| u_quiet j n w s :
    nodes s !! j = Some n → quiet (writing n) w →
    sys_step reliable s (set_node j (set_writing w n) s)
| u_close j n this s :
    (reliable = true → worker (writing n) = WDone) → nodes s !! j = Some n →
    close false (socket n) = Some this → sys_step reliable s (set_node j (replace_socket this n) s)
| u_lose l1 d l2 s :
    reliable = false → net s = l1 ++ d :: l2 → sys_step reliable s (set_net (l1 ++ l2) s)
| u_repeat d s :
    reliable = false → d ∈ net s → sys_step reliable s (set_net (d :: net s) s)
| u_recv l1 addr port d l2 s :
    receiving s = Waiting → net s = l1 ++ ((addr, port), (here, d)) :: l2 →
    sys_step reliable s (take_datagram addr port d (l1 ++ l2) s)
| u_again e s :
    receiving s = Waiting → udp_getLastError e = IN_PROGRESS →
    sys_step reliable s (ask_again e s)
| u_return error p k this rest s :
    receiving s = Returned (error, p, k, this, rest) →
    sys_step reliable s (return_packet error p k this rest s).

(** * What is on its way *)

(** What the receiver gets from a message, and from a datagram. *)
Definition expected (from : address) (m : message) : option delivery :=
  if decide ((m.1.2, m.2) = here) then Some (m.1.1, (inet_ntoa from.1, from.2)) else None.
Definition arrives (d : datagram) : option delivery :=
  if decide (d.2.1 = here) then Some (payload d.2.2, (inet_ntoa d.1.1, d.1.2)) else None.

Definition pushed_by (n : node) : list delivery :=
  omap (expected (from n)) (pushed_packets (writing n)).
Definition wrote_by (n : node) : list delivery :=
  omap (expected (from n)) (wrote_packets (writing n)).
Definition pending_by (n : node) : list delivery :=
  omap (expected (from n)) (pending_packets false (writing n)).

Definition pushed (s : system) : list delivery := mjoin (pushed_by <$> nodes s).
Definition wrote (s : system) : list delivery := mjoin (wrote_by <$> nodes s).
Definition pending (s : system) : list delivery := mjoin (pending_by <$> nodes s).

(** What the finished calls returned, the running one has got and the network
    carries. *)
Definition returned (s : system) : list delivery := (λ r, (r.1.2, r.2)) <$> results s.
Definition in_call (s : system) : list delivery := packets_in inet_ntoa (asked s).
Definition carried (s : system) : list delivery := omap arrives (net s).
Definition delivered (s : system) : list delivery := returned s ++ in_call s ++ carried s.

(** The books of the network: all that was written, or nothing else. *)
Definition accounts (reliable : bool) (got written : list delivery) : Prop :=
  if reliable then got ≡ₚ written else got ⊆ written.
#[local] Arguments accounts : simpl never.

Lemma accounts_perm b g g' w w' : g ≡ₚ g' → w ≡ₚ w' → accounts b g w → accounts b g' w'.
Proof. unfold accounts. intros Hg Hw. destruct b; by rewrite Hg, Hw. Qed.

Lemma accounts_app b g x w y : accounts b g w → accounts b x y → accounts b (g ++ x) (w ++ y).
Proof. unfold accounts. destruct b; [by intros -> ->|]. set_solver. Qed.

Lemma accounts_refl b g : accounts b g g.
Proof. by destruct b. Qed.

Lemma accounts_subset b g w : accounts b g w → g ⊆ w.
Proof. destruct b; [|done]. intros H x. by rewrite H. Qed.

(** Changing one node. *)
Lemma join_insert (f : node → list delivery) l j n n' x :
  l !! j = Some n → f n' = f n ++ x → mjoin (f <$> <[j := n']> l) ≡ₚ mjoin (f <$> l) ++ x.
Proof.
  intros Hj E. revert j Hj. induction l as [|n0 l IH]; intros [|j] Hj; simplify_eq/=.
  - rewrite E. solve_Permutation.
  - rewrite (IH j Hj). by rewrite app_assoc.
Qed.

Lemma join_same {A} (f : node → list A) l j n n' :
  l !! j = Some n → f n' = f n → mjoin (f <$> <[j := n']> l) = mjoin (f <$> l).
Proof.
  intros Hj E. rewrite list_fmap_insert, list_insert_id; [done|].
  by rewrite list_lookup_fmap, Hj, E.
Qed.

(** * The invariant *)

Record node_ok (reliable : bool) (n : node) : Prop := {
  no_writer : writer_ok false (writing n);
  no_plain : pushed_plain (writing n) = [];
  no_small : Forall (λ m : message, small m.1.1) (pushed_packets (writing n));
  no_bound : reliable = true → worker (writing n) ≠ WDone → is_Some (_sock (socket n))
}.

Record sys_ok (reliable : bool) (s : system) : Prop := {
  so_nodes : Forall (node_ok reliable) (nodes s);
  so_net : Forall (λ d : datagram, whole (Datagram d.1.1 d.1.2 d.2.2)) (net s);
  so_asked : Forall whole (asked s);
  so_bound : is_Some (_sock (receiver s));
  so_buffers : ∀ k, buffered (receiver s) k = [];
  so_account : accounts reliable (delivered s) (wrote s);
  so_results : Forall (λ r, r.1.1 = SUCCESS) (results s)
}.

(** What the worker has written is what was pushed, but for what is pending. *)
Lemma pushed_split b s : Forall (node_ok b) (nodes s) → pushed s ≡ₚ wrote s ++ pending s.
Proof.
  unfold pushed, wrote, pending. induction 1 as [|n l Hn _ IH]; csimpl; [done|].
  rewrite IH. unfold pushed_by at 1. rewrite (ok_packets _ _ (no_writer _ _ Hn)), omap_app.
  fold (wrote_by n) (pending_by n). solve_Permutation.
Qed.

Lemma written_pushed b s : sys_ok b s → delivered s ⊆ pushed s.
Proof.
  intros Hok. rewrite (pushed_split b s) by apply Hok.
  pose proof (accounts_subset _ _ _ (so_account _ _ Hok)). set_solver.
Qed.

(** What a small packet becomes: one datagram, or none. *)
Lemma small_sends p ip port answers this :
  small p →
  sent_calls (worker_writePacket (p, ip, port) answers this) = [] ∨
  sent_calls (worker_writePacket (p, ip, port) answers this) = [(ip, port, frame p)].
Proof.
  intros [Hne Hp]. rewrite worker_writePacket_some by done.
  unfold sent_calls, writePacket_to, addressed, writePacket, write. cbn [fst snd].
  destruct (_sock this); [|by left].
  rewrite Nat.div_small by (rewrite length_frame; lia). cbn [write_loop Nat.add].
  destruct (answers 0%nat); [by left|right].
  rewrite Nat.div_small by (rewrite length_frame; lia). cbn [Nat.ltb Nat.leb fst snd].
  rewrite Nat.mul_0_l, Nat.sub_0_r, drop_0. by rewrite take_ge.
Qed.

Lemma small_sends_reliable p ip port answers this :
  small p → is_Some (_sock this) → (∀ i, answers i = None) →
  sent_calls (worker_writePacket (p, ip, port) answers this) = [(ip, port, frame p)].
Proof.
  intros Hp [fd Hs] Ha. destruct (small_sends p ip port answers this Hp) as [E|E]; [|done].
  destruct Hp as [Hne Hp]. revert E. rewrite worker_writePacket_some by done.
  unfold sent_calls, writePacket_to, addressed, writePacket, write. cbn [fst snd]. rewrite Hs.
  rewrite Nat.div_small by (rewrite length_frame; lia). cbn [write_loop Nat.add]. by rewrite Ha.
Qed.

Lemma arrives_frame from ip port p :
  arrives (from, (ip, port, frame p)) = expected from (p, ip, port).
Proof. unfold arrives, expected. simpl. by rewrite payload_frame. Qed.

(** The datagrams of a step of the worker, against what it writes. *)
Lemma sends_account b n w answers :
  node_ok b n → worker_step false (writing n) = Some w → (b = true → ∀ i, answers i = None) →
  accounts b (omap arrives (sends answers n)) (omap (expected (from n)) (writes (writing n))) ∧
  Forall (λ d : datagram, whole (Datagram d.1.1 d.1.2 d.2.2)) (sends answers n).
Proof.
  intros [Hw Hpl Hs Hb] Hstep Ha. unfold sends, writes.
  destruct (worker (writing n)) as [| | | | | | | |[[p ip] port]| | |m| |] eqn:E;
    try (split; [apply accounts_refl|done]).
  - assert (Hp : small p).
    { apply (proj1 (Forall_forall _ _) Hs (p, ip, port)), (writes_pushed false); [done|].
      unfold writes. rewrite E. by left. }
    assert (Hwh : ∀ addr, whole (Datagram addr.1 addr.2 (frame p))).
    { intros addr. exists p. split; [done|]. rewrite length_frame. destruct Hp. lia. }
    destruct b.
    + rewrite small_sends_reliable by auto. csimpl. rewrite arrives_frame.
      split; [apply accounts_refl|]. by apply Forall_singleton, Hwh.
    + destruct (small_sends p ip port answers (socket n) Hp) as [-> | ->]; csimpl.
      * split; [intros x Hx; by apply elem_of_nil in Hx|done].
      * rewrite arrives_frame. split; [apply accounts_refl|]. by apply Forall_singleton, Hwh.
  - by destruct (no_plain_write false _ m Hw Hpl).
Qed.

Lemma udp_System_new_ok b peers this :
  Forall (λ x : address * UdpSocket * nat, is_Some (_sock x.1.2)) peers →
  is_Some (_sock this) → (∀ k, buffered this k = []) → sys_ok b (System_new peers this).
Proof.
  intros Hp Hs Hb. split; try done.
  - simpl. apply Forall_fmap. eapply Forall_impl; [exact Hp|]. intros x Hx.
    split; [apply new_writer_ok|done|done|done].
  - assert (E : wrote (System_new peers this) = []) by (unfold wrote; clear; by induction peers).
    rewrite E. apply accounts_refl.
Qed.

(** The steps of a node that write nothing. *)
Lemma set_node_ok b j n n' s :
  sys_ok b s → nodes s !! j = Some n → node_ok b n' → wrote_by n' = wrote_by n →
  sys_ok b (set_node j n' s).
Proof.
  intros [] Hj Hn Hw. split; try done.
  - by apply Forall_insert.
  - unfold wrote. simpl. by rewrite (join_same wrote_by (nodes s) j n n').
Qed.

Lemma quiet_step w w' :
  quiet w w' → udp_step w w' ∧ wrote_packets w' = wrote_packets w ∧
  pushed_packets w' = pushed_packets w ∧ pushed_plain w' = pushed_plain w.
Proof.
  destruct (notify_all_same w) as (Hw & Hpl & Hp).
  intros [i Hi Hm|Hw'|Hd|Hd Hm]; (split; [|split_and!; done]).
  - by apply step_notify.
  - by apply step_spurious.
  - by apply step_destroy.
  - by apply step_destroy_notify.
Qed.

(** An asynchronous write that succeeds is a push. *)
Lemma push_async i ip port p this (w w' : writer (T := message)) :
  writePacketAsync i ip port p this w = (SUCCESS, w') → w' = push_packet i (p, ip, port) w.
Proof.
  unfold writePacketAsync. rewrite TcpApi.copied_id. destruct (_sock this); [|done]. by intros [= <-].
Qed.

Lemma node_step_ok b n w :
  node_ok b n → udp_step (writing n) w → pushed_plain w = [] →
  Forall (λ m : message, small m.1.1) (pushed_packets w) → node_ok b (set_writing w n).
Proof. 
  intros [] Hs Hpl Hsm. split; [by eapply writer_step_ok|done..|].
  intros Hb Hd. apply no_bound0; [done|]. intros Hdone. by apply Hd, (step_done _ _ _ _ Hs).
Qed.

(** A call of [receivePacket] between two steps. *)
Lemma udp_receive_cases b s :
  sys_ok b s →
  (receiving s = Waiting ∧ in_call s = []) ∨
  ∃ p k this rest, receiving s = Returned (SUCCESS, p, k, this, rest) ∧
    in_call s = (p, k) :: packets_in inet_ntoa rest ∧ Forall whole rest ∧
    is_Some (_sock this) ∧ ∀ k, buffered this k = [].
Proof.
  intros []. destruct so_bound0 as [fd Hfd]. unfold receiving, receivePacket. rewrite Hfd, Nat.add_1_r.
  destruct (receive_whole inet_ntoa (asked s) (length (asked s)) (receiver s) fd [])
    as [[Hn H]|(p & k & this & rest & Hp & Hr & Ht & Hb & H)]; [done..|left|right];
    rewrite app_nil_r in H; rewrite H.
  - split; [|done]. cbn [receive_loop]. unfold read. by rewrite Hfd.
  - exists p, k, this, rest. by rewrite app_nil_r.
Qed.

Lemma udp_work_ok b j n w answers s :
  sys_ok b s → nodes s !! j = Some n → worker_step false (writing n) = Some w →
  (b = true → ∀ i, answers i = None) → sys_ok b (work j n w answers s).
Proof.
  intros [] Hj Hw Ha. pose proof (Forall_lookup_1 _ _ _ _ so_nodes0 Hj) as Hn.
  destruct (worker_step_others _ _ _ Hw) as (_ & _ & Hpp & Hpl).
  destruct (sends_account b n w answers Hn Hw Ha) as [Hacc Hnet].
  split; try done; simpl.
  - apply Forall_insert; [done|]. apply node_step_ok; [done|by apply step_worker|..].
    + rewrite Hpl. apply Hn.
    + rewrite Hpp. apply Hn.
  - by apply Forall_app.
  - eapply accounts_perm; [| |apply (accounts_app _ _ _ _ _ so_account0 Hacc)].
    + unfold delivered, returned, in_call, carried. simpl. rewrite omap_app. by rewrite !app_assoc.
    + symmetry. apply (join_insert wrote_by (nodes s) j n); [done|].
      unfold wrote_by, set_writing. simpl. by rewrite (worker_step_writes _ _ _ Hw), omap_app.
Qed.

(** The steps of the network. *)
Lemma net_ok b s l :
  sys_ok b s → Forall (λ d : datagram, whole (Datagram d.1.1 d.1.2 d.2.2)) l →
  accounts b (delivered (set_net l s)) (wrote s) → sys_ok b (set_net l s).
Proof. intros [] Hl Ha. by split. Qed.

Lemma carried_take addr port d l1 l2 s :
  net s = l1 ++ ((addr, port), (here, d)) :: l2 →
  delivered (take_datagram addr port d (l1 ++ l2) s) ≡ₚ delivered s.
Proof.
  intros E. assert (Ha : arrives ((addr, port), (here, d)) = Some (payload d, (inet_ntoa addr, port))).
  { unfold arrives. simpl. by rewrite decide_True. }
  unfold delivered, returned, in_call, carried, packets_in. cbn [net asked results take_datagram].
  rewrite E, !omap_app. csimpl. rewrite Ha. solve_Permutation.
Qed.

Lemma udp_sys_step_ok b s s' : sys_step b s s' → sys_ok b s → sys_ok b s'.
Proof.
  intros Hstep Hok. destruct Hstep as [j n w answers s Hj Hw Ha|j n i ip port p w s Hj Hd Hi Hp Hw
    |j n w s Hj Hq|j n this s Hdone Hj Hc|l1 d l2 s -> E|d s -> Hd|l1 addr port d l2 s Hin E
    |e s Hin He|error p k this rest s Hret].
  - by apply udp_work_ok.
  - apply push_async in Hw as ->. pose proof (Forall_lookup_1 _ _ _ _ (so_nodes _ _ Hok) Hj) as Hn.
    eapply set_node_ok; [done..| |done]. apply node_step_ok; [done|by apply step_push_packet|apply Hn|].
    simpl. apply Forall_app. split; [apply Hn|]. by apply Forall_singleton.
  - pose proof (Forall_lookup_1 _ _ _ _ (so_nodes _ _ Hok) Hj) as Hn.
    destruct (quiet_step _ _ Hq) as (Hs & Hwr & Hpp & Hpl).
    eapply set_node_ok; [done..| |].
    + apply node_step_ok; [done|done|rewrite Hpl; apply Hn|rewrite Hpp; apply Hn].
    + unfold wrote_by. simpl. by rewrite Hwr.
  - pose proof (Forall_lookup_1 _ _ _ _ (so_nodes _ _ Hok) Hj) as Hn.
    eapply set_node_ok; [done..| |done]. destruct Hn. split; try done.
    intros Hb Hnd. by destruct (Hnd (Hdone Hb)).
  - apply net_ok; [done|..]; pose proof (so_net _ _ Hok) as Hn; rewrite E in Hn.
    + apply Forall_app in Hn as [H1 [_ H2]%Forall_cons]. by apply Forall_app.
    + pose proof (so_account _ _ Hok) as Hacc. unfold delivered, carried, accounts in *.
      cbn [net set_net]. rewrite E in Hacc. rewrite !omap_app in *. csimpl in Hacc.
      change (returned (set_net _ s)) with (returned s). change (in_call (set_net _ s)) with (in_call s).
      destruct (arrives d); set_solver.
  - apply net_ok; [done|..].
    + apply Forall_cons. split; [|apply Hok].
      pose proof (so_net _ _ Hok) as Hn. rewrite Forall_forall in Hn. by apply Hn.
    + pose proof (so_account _ _ Hok) as Hacc. unfold delivered, carried, accounts in *.
      cbn [net set_net]. csimpl. change (returned (set_net _ s)) with (returned s).
      change (in_call (set_net _ s)) with (in_call s). destruct (arrives d) as [x|] eqn:Ed; [|done].
      assert (Hx : x ∈ omap arrives (net s)) by (apply list_elem_of_omap; eauto). set_solver.
  - pose proof (carried_take _ _ _ _ _ _ E) as Hperm. destruct Hok. rewrite E in so_net0.
    apply Forall_app in so_net0 as [H1 [Hd H2]%Forall_cons].
    split; try done; simpl.
    + by apply Forall_app.
    + apply Forall_app. split; [done|]. by apply Forall_singleton.
    + by eapply accounts_perm; [symmetry| |].
  - destruct Hok. split; try done; simpl.
    + apply Forall_app. split; [done|]. by apply Forall_singleton.
    + eapply accounts_perm; [|reflexivity|done].
      unfold delivered, in_call, packets_in, returned, carried. simpl. rewrite omap_app. csimpl.
      by rewrite app_nil_r.
  - destruct (udp_receive_cases b s Hok) as [[Hw _]|(p' & k' & t & r & Hr & Hc & Hwh & Ht & Hb)];
      [by rewrite Hw in Hret|]. rewrite Hr in Hret. injection Hret as <- <- <- <- <-.
    destruct Hok. split; try done; simpl.
    + eapply accounts_perm; [|reflexivity|done]. unfold delivered, returned, carried. simpl.
      rewrite Hc, fmap_app, <- app_assoc. done.
    + apply Forall_app. split; [done|]. by apply Forall_singleton.
Qed.

Lemma udp_sys_reachable_ok b s0 s : sys_ok b s0 → rtc (sys_step b) s0 s → sys_ok b s.
Proof. apply (rtc_invariant _ _ (udp_sys_step_ok b)). Qed.

(** * Refinement *)

(** The channel a system implements. *)
Definition channel_of (s : system) : channel := Channel (pushed s) (returned s).

Lemma udp_sys_step_simulates b s s' :
  sys_ok b s → sys_step b s s' →
  channel_of s' = channel_of s ∨ channel_step (channel_of s) (channel_of s').
Proof.
  intros Hok Hstep. pose proof (udp_sys_step_ok b s s' Hstep Hok) as Hok'.
  destruct Hstep as [j n w answers s Hj Hw Ha|j n i ip port p w s Hj Hd Hi Hp Hw
    |j n w s Hj Hq|j n this s Hb Hj Hc|l1 d l2 s Hb E|d s Hb Hd|l1 addr port d l2 s Hin E
    |e s Hin He|error p k this rest s Hret]; try by left.
  - left. unfold channel_of, pushed. simpl. f_equal. apply (join_same pushed_by _ j n); [done|].
    unfold pushed_by. simpl. by destruct (worker_step_others _ _ _ Hw) as (_ & _ & -> & _).
  - apply push_async in Hw as ->.
    assert (Ep : pushed_by (set_writing (push_packet i (p, ip, port) (writing n)) n) =
      pushed_by n ++ omap (expected (from n)) [(p, ip, port)]) by (apply omap_app).
    pose proof (join_insert pushed_by (nodes s) j n _ _ Hj Ep) as Hperm. csimpl in Hperm.
    destruct (expected (from n) (p, ip, port)) as [m|] eqn:Em.
    + right. apply (channel_put m). unfold pushed. simpl. rewrite Hperm. solve_Permutation.
    + left. unfold channel_of, pushed. simpl. f_equal. apply (join_same pushed_by _ j n); [done|].
      rewrite Ep. csimpl. rewrite Em. apply app_nil_r.
  - left. unfold channel_of, pushed. simpl. f_equal. apply (join_same pushed_by _ j n); [done|].
    unfold pushed_by. simpl. by destruct (quiet_step _ _ Hq) as (_ & _ & -> & _).
  - left. unfold channel_of, pushed. simpl. f_equal. by apply (join_same pushed_by _ j n).
  - right. unfold channel_of, returned. simpl. rewrite fmap_app. apply channel_take.
    change (pushed s) with (pushed (return_packet error p k this rest s)).
    apply (written_pushed _ _ Hok'). unfold delivered, returned. simpl. rewrite fmap_app. set_solver.
Qed.

(** * Progress over a reliable network *)

(** The steps of the workers, of the network and of the receiver. *)
Inductive drain_step : system → system → Prop :=
| drain_worker j n w s :
    nodes s !! j = Some n → worker_step false (writing n) = Some w →
    drain_step s (work j n w (λ _, None) s)
| drain_recv l1 addr port d l2 s :
    receiving s = Waiting → net s = l1 ++ ((addr, port), (here, d)) :: l2 →
    drain_step s (take_datagram addr port d (l1 ++ l2) s)
| drain_return error p k this rest s :
    receiving s = Returned (error, p, k, this, rest) →
    drain_step s (return_packet error p k this rest s).

Lemma udp_drain_sys s s' : drain_step s s' → sys_step true s s'.
Proof.
  intros []; [by apply u_worker|by apply u_recv|by apply u_return].
Qed.

(** What is left to do: steps of the workers, and packets to take and return. *)
Definition work_left (s : system) : nat :=
  sum_list_with (λ n, steps_left false (writing n)) (nodes s) +
  (2 * (length (pushed s) - length (results s)) - length (in_call s)).

Lemma sum_insert (f : node → nat) l j n n' :
  l !! j = Some n → (sum_list_with f (<[j := n']> l) + f n = sum_list_with f l + f n')%nat.
Proof.
  revert j. induction l as [|n0 l IH]; intros [|j] Hj; simplify_eq/=; [lia|]. specialize (IH j Hj). lia.
Qed.

(** Nothing is returned or taken that was not pushed. *)
Lemma enough_pushed s :
  sys_ok true s → (length (results s) + length (in_call s) + length (carried s) <= length (pushed s))%nat.
Proof.
  intros Hok. pose proof (Permutation_length (so_account _ _ Hok)) as H.
  rewrite (Permutation_length (pushed_split true s (so_nodes _ _ Hok))), length_app, <- H.
  unfold delivered, returned. rewrite !length_app, length_fmap. lia.
Qed.

Lemma udp_drain_decreases s s' : sys_ok true s → drain_step s s' → (work_left s' < work_left s)%nat.
Proof.
  intros Hok Hstep. pose proof (udp_sys_step_ok true s s' (udp_drain_sys s s' Hstep) Hok) as Hok'.
  pose proof (enough_pushed s Hok) as He. pose proof (enough_pushed s' Hok') as He'.
  destruct Hstep as [j n w s Hj Hw|l1 addr port d l2 s Hin E|error p k this rest s Hret];
    unfold work_left.
  - assert (Ep : pushed (work j n w (λ _, None) s) = pushed s).
    { unfold pushed. simpl. apply (join_same pushed_by _ j n); [done|]. unfold pushed_by. simpl.
      by destruct (worker_step_others _ _ _ Hw) as (_ & _ & -> & _). }
    rewrite Ep. cbn [nodes results work]. change (in_call (work _ _ _ _ s)) with (in_call s).
    pose proof (sum_insert (λ n, steps_left false (writing n)) _ _ _ (set_writing w n) Hj) as Hsum.
    pose proof (Forall_lookup_1 _ _ _ _ (so_nodes _ _ Hok) Hj) as Hn.
    pose proof (worker_step_decreases false _ _ (ok_worker _ _ (no_writer _ _ Hn)) Hw) as Hlt.
    cbn [set_writing writing] in Hsum. lia.
  - cbn [nodes results take_datagram] in *. change (pushed (take_datagram _ _ _ _ s)) with (pushed s) in *.
    assert (Ec : length (in_call (take_datagram addr port d (l1 ++ l2) s)) = S (length (in_call s))).
    { unfold in_call, packets_in. cbn [asked take_datagram]. rewrite omap_app, length_app. simpl. lia. }
    lia.
  - destruct (udp_receive_cases true s Hok) as [[Hw _]|(p' & k' & t & r & Hr & Hc & _)];
      [by rewrite Hw in Hret|]. rewrite Hr in Hret. injection Hret as <- <- <- <- <-.
    cbn [nodes results return_packet] in *.
    change (pushed (return_packet _ _ _ _ _ s)) with (pushed s) in *.
    change (in_call (return_packet _ _ _ _ r s)) with (packets_in inet_ntoa r) in *.
    rewrite Hc in *. rewrite length_app in *. simpl in *. lia.
Qed.

(** The writers have notified their workers, and nobody has stopped half-way in
    a destructor. *)
Definition settled (s : system) : Prop :=
  Forall (λ n, ¬ notifier (writing n) ∧ destructor (writing n) ≠ DSet) (nodes s).

Lemma drain_settled s s' : drain_step s s' → settled s → settled s' ∧ pushed s' = pushed s.
Proof.
  intros [j n w s1 Hj Hw|l1 addr port d l2 s1 Hin E|error p k this rest s1 Hret] Hs; try done.
  destruct (worker_step_others _ _ _ Hw) as (Hp & Hd & Hpp & _). split.
  - apply Forall_insert; [done|]. pose proof (Forall_lookup_1 _ _ _ _ Hs Hj) as Hn.
    unfold notifier in *. cbn [set_writing writing]. by rewrite Hp, Hd.
  - unfold pushed. simpl. apply (join_same pushed_by _ j n); [done|]. unfold pushed_by. simpl.
    by rewrite Hpp.
Qed.

Lemma udp_drain_keeps l s s' :
  drain_step s s' → sys_ok true s ∧ settled s ∧ pushed s = l →
  sys_ok true s' ∧ settled s' ∧ pushed s' = l.
Proof.
  intros Hstep (Hok & Hset & <-). destruct (drain_settled s s' Hstep Hset) as [Hset' Ep].
  split_and!; [by apply (udp_sys_step_ok true _ _ (udp_drain_sys _ _ Hstep))|done|done].
Qed.

(** When nothing of this is possible any more, everything has arrived. *)
Lemma udp_drained s :
  sys_ok true s → settled s → (∀ s', ¬ drain_step s s') → returned s ≡ₚ pushed s.
Proof.
  intros Hok Hset Hstuck.
  assert (Hin : receiving s = Waiting ∧ in_call s = []).
  { destruct (udp_receive_cases true s Hok) as [|(p & k & this & rest & H & _)]; [done|].
    exfalso. eapply Hstuck. by apply drain_return. }
  destruct Hin as [Hin Hcall].
  assert (Hnet : carried s = []).
  { unfold carried. destruct (omap arrives (net s)) as [|x l] eqn:E; [done|]. exfalso.
    assert (Hx : x ∈ omap arrives (net s)) by (rewrite E; by left).
    apply list_elem_of_omap in Hx as ([[addr port] [dst d]] & Hd & Ha).
    unfold arrives in Ha. simpl in Ha. case_decide as Hdst; [|done]. subst dst.
    apply list_elem_of_split in Hd as (l1 & l2 & El). eapply Hstuck. by eapply drain_recv. }
  assert (Hpend : pending s = []).
  { unfold pending. assert (Hall : Forall (λ n, pending_by n = []) (nodes s)).
    { apply Forall_lookup. intros j n Hj. pose proof (Forall_lookup_1 _ _ _ _ (so_nodes _ _ Hok) Hj) as Hn.
      destruct (Forall_lookup_1 _ _ _ _ Hset Hj) as [Hno Hd].
      assert (Hb : worker_step false (writing n) = None).
      { destruct (worker_step false (writing n)) eqn:E; [|done]. exfalso. eapply Hstuck.
        by eapply drain_worker. }
      unfold pending_by. by rewrite (nothing_pending false _ (no_writer _ _ Hn) Hb Hno Hd). }
    clear -Hall. induction Hall as [|n l Hn _ IH]; csimpl; [done|]. by rewrite Hn, IH. }
  rewrite (pushed_split true s), Hpend, app_nil_r by apply Hok.
  rewrite <- (so_account _ _ Hok). unfold delivered. by rewrite Hcall, Hnet, !app_nil_r.
Qed.

(** * Properties *)

(** Bound sockets, and a receiver that has nothing in its buffers. *)
Definition ready (peers : list (address * UdpSocket * nat)) (this : UdpSocket) : Prop :=
  Forall (λ x, is_Some (_sock x.1.2)) peers ∧ is_Some (_sock this) ∧ ∀ k, buffered this k = [].

(** C9: any number of sockets that send packets of one datagram to one receiver
    refine an unreliable channel, whatever the threads do and whatever the network
    loses, repeats and reorders: every step of the system is a step of the channel
    or changes nothing of it. What is returned has been pushed, by the peer that is
    reported and for this receiver, with the same bytes; no call of
    [receivePacket] fails or is undefined. *)
Theorem udp_refines_channel peers this s :
  ready peers this → rtc (sys_step false) (System_new peers this) s →
  rtc channel_step (Channel [] []) (channel_of s) ∧
  (∀ s', sys_step false s s' →
     channel_of s' = channel_of s ∨ channel_step (channel_of s) (channel_of s')) ∧
  taken (channel_of s) ⊆ sent_to (channel_of s) ∧
  Forall (λ r, r.1.1 = SUCCESS) (results s) ∧ receiving s ≠ Undefined.
Proof.
  intros (Hp & Hs & Hb) Hr. pose proof (udp_System_new_ok false peers this Hp Hs Hb) as Hok0.
  pose proof (udp_sys_reachable_ok false _ _ Hok0 Hr) as Hok. split_and!.
  - assert (E : Channel [] [] = channel_of (System_new peers this)).
    { unfold channel_of, pushed. simpl. f_equal. clear. by induction peers. }
    rewrite E. apply (rtc_simulates _ _ (udp_sys_step_ok false) _ channel_of (System_new peers this));
      [by apply (udp_sys_step_simulates false)|done..].
  - intros s' Hstep. by apply (udp_sys_step_simulates false).
  - pose proof (written_pushed false s Hok) as H. unfold delivered in H. simpl. set_solver.
  - apply Hok.
  - destruct (udp_receive_cases false s Hok) as [[-> _]|(p & k & t & r & -> & _)]; done.
Qed.

(** C10: over a network that loses and repeats nothing, but reorders as it likes,
    everything arrives once. When the producers have notified, every run of the
    workers, the network and the receiver ends after a bounded number of steps,
    and wherever it ends the results are, up to their order, the packets that were
    pushed for this receiver, each with the name of its sender. *)
Theorem udp_delivers peers this s :
  ready peers this → rtc (sys_step true) (System_new peers this) s → settled s →
  (∀ k s', nsteps drain_step k s s' → (k <= work_left s)%nat) ∧
  (∀ s', rtc drain_step s s' → (∀ s'', ¬ drain_step s' s'') → returned s' ≡ₚ pushed s).
Proof.
  intros (Hp & Hs & Hb) Hr Hset.
  pose proof (udp_sys_reachable_ok true _ _ (udp_System_new_ok true peers this Hp Hs Hb) Hr) as Hok.
  split.
  - intros k s'. apply (nsteps_bounded _ _ (udp_drain_keeps (pushed s))); [|done].
    intros x y [Hx _]. by apply udp_drain_decreases.
  - intros s' Hd Hstuck.
    destruct (rtc_invariant _ _ (udp_drain_keeps (pushed s)) s s') as (Hok' & Hset' & <-); [done..|].
    by apply udp_drained.
Qed.

End System.

(** * Evaluation *)

(** A thread at 10.0.0.1 sends the packet [A] to the receiver. *)
Definition demo_here : address := (2, 2000).
Definition demo_peers : list (address * UdpSocket * nat) := [((1, 1000), udp_peer 3, 1%nat)].
Definition demo_new : system := System_new demo_peers (udp_peer 4).

Definition demo_node (w : writer (T := message)) : node := Node (1, 1000) (udp_peer 3) w.
Definition demo_pushed : writer (T := message) := push_packet 0 ([65], 2, 2000) (Writer_new 1).
Definition demo_sent : system :=
  set_node 0 (demo_node (notify 0 demo_pushed)) (set_node 0 (demo_node demo_pushed) demo_new).

(** The worker runs; [receivePacket] returns if it can. *)
Definition work_once (s : system) : system :=
  match nodes s !! 0%nat with
  | Some n =>
      match worker_step false (writing n) with
      | Some w => work 0 n w (λ _, None) s
      | None => s
      end
  | None => s
  end.
Definition return_once (s : system) : system :=
  match receiving demo_ntoa s with
  | Returned (error, p, k, this, rest) => return_packet error p k this rest s
  | _ => s
  end.

Definition demo_written : system := Nat.iter 13 work_once demo_sent.
Definition demo_datagram : datagram := ((1, 1000), (demo_here, frame [65])).
Definition receive_once (rest : list datagram) (s : system) : system :=
  return_once (take_datagram 1 1000 (frame [65]) rest s).
Definition demo_done : system := receive_once [] demo_written.

(** The network repeats the datagram. *)
Definition demo_repeated : system := set_net (demo_datagram :: net demo_written) demo_written.
Definition demo_twice : system := receive_once [] (receive_once [demo_datagram] demo_repeated).

Lemma udp_demo_ready : ready demo_peers (udp_peer 4).
Proof. split_and!; [by repeat constructor|done|done]. Qed.

Lemma udp_demo_sent_reachable b : rtc (sys_step demo_ntoa demo_here b) demo_new demo_sent.
Proof.
  apply rtc_l with (set_node 0 (demo_node demo_pushed) demo_new).
  - apply (u_push _ _ _ 0 (demo_node (Writer_new 1)) 0 2 2000 [65]); try done.
    split; [done|]. pose proof MAX_value. simpl. lia.
  - apply rtc_once. apply (u_quiet _ _ _ 0 (demo_node demo_pushed)); [done|]. by apply quiet_notify.
Qed.

Lemma work_once_drains s : rtc (drain_step demo_ntoa demo_here) s (work_once s).
Proof.
  unfold work_once. destruct (nodes s !! 0%nat) as [n|] eqn:En; [|done].
  destruct (worker_step false (writing n)) as [w|] eqn:Ew; [|done].
  apply rtc_once. by apply drain_worker.
Qed.

Lemma work_drains n s : rtc (drain_step demo_ntoa demo_here) s (Nat.iter n work_once s).
Proof. induction n as [|n IH]; [done|]. etrans; [exact IH|]. apply work_once_drains. Qed.

Lemma return_once_drains s : rtc (drain_step demo_ntoa demo_here) s (return_once s).
Proof.
  unfold return_once. destruct (receiving demo_ntoa s) as [| |[[[[e p] k] this] rest]] eqn:E;
    [done|done|]. apply rtc_once. by apply drain_return.
Qed.

Lemma receive_once_drains rest s :
  receiving demo_ntoa s = Waiting → net s = demo_datagram :: rest →
  rtc (drain_step demo_ntoa demo_here) s (receive_once rest s).
Proof.
  intros Hw Hn. eapply rtc_l; [|apply return_once_drains].
  by apply (drain_recv _ _ [] 1 1000 (frame [65]) rest).
Qed.

Lemma drain_rtc b s s' :
  (∀ s s', drain_step demo_ntoa demo_here s s' → sys_step demo_ntoa demo_here b s s') →
  rtc (drain_step demo_ntoa demo_here) s s' → rtc (sys_step demo_ntoa demo_here b) s s'.
Proof. intros H. by apply rtc_subrel. Qed.

Lemma drain_lossy s s' :
  drain_step demo_ntoa demo_here s s' → sys_step demo_ntoa demo_here false s s'.
Proof. intros []; [by apply u_worker|by apply u_recv|by apply u_return]. Qed.

Lemma demo_written_net : net demo_written = [demo_datagram].
Proof. vm_compute. reflexivity. Qed.

Lemma demo_written_drains : rtc (drain_step demo_ntoa demo_here) demo_sent demo_written.
Proof. exact (work_drains 13 demo_sent). Qed.

Lemma demo_repeated_step : sys_step demo_ntoa demo_here false demo_written demo_repeated.
Proof. apply u_repeat; [done|]. rewrite demo_written_net. by left. Qed.

Lemma demo_twice_drains : rtc (drain_step demo_ntoa demo_here) demo_repeated demo_twice.
Proof.
  transitivity (receive_once [demo_datagram] demo_repeated).
  - apply receive_once_drains; vm_compute; reflexivity.
  - exact (receive_once_drains [] (receive_once [demo_datagram] demo_repeated)
      ltac:(vm_compute; reflexivity) ltac:(vm_compute; reflexivity)).
Qed.

Lemma demo_twice_reachable : rtc (sys_step demo_ntoa demo_here false) demo_new demo_twice.
Proof.
  transitivity demo_sent; [exact (udp_demo_sent_reachable false)|].
  transitivity demo_written; [exact (drain_rtc false _ _ drain_lossy demo_written_drains)|].
  exact (rtc_l _ _ _ _ demo_repeated_step (drain_rtc false _ _ drain_lossy demo_twice_drains)).
Qed.

Lemma udp_demo_drains : rtc (drain_step demo_ntoa demo_here) demo_sent demo_done.
Proof.
  transitivity demo_written; [exact demo_written_drains|].
  exact (receive_once_drains [] demo_written
      ltac:(vm_compute; reflexivity) ltac:(vm_compute; reflexivity)).
Qed.

Lemma udp_demo_stuck s : ¬ drain_step demo_ntoa demo_here demo_done s.
Proof.
  assert (Hn : nodes demo_done = nodes demo_written) by (vm_compute; reflexivity).
  assert (Hw : worker_step false (writing (default (demo_node (Writer_new 1)) (nodes demo_done !! 0%nat))) = None)
    by (vm_compute; reflexivity).
  assert (Hl : length (nodes demo_done) = 1%nat) by (vm_compute; reflexivity).
  assert (He : net demo_done = []) by (vm_compute; reflexivity).
  assert (Hr : receiving demo_ntoa demo_done = Waiting) by (vm_compute; reflexivity).
  intros H. inversion H as [j n w s' Hj Hs|l1 addr port d l2 s' Hin E|error p k this rest s' Hret];
    subst.
  - pose proof (lookup_lt_Some _ _ _ Hj) as Hlt. rewrite Hl in Hlt.
    replace j with 0%nat in Hj by lia. rewrite Hj in Hw. simpl in Hw. congruence.
  - rewrite He in E. by destruct l1.
  - congruence.
Qed.

Lemma udp_refines_channel_witness :
  rtc channel_step (Channel [] []) (channel_of demo_ntoa demo_here demo_twice) ∧
  returned demo_twice = [([65], peer_a); ([65], peer_a)] ∧
  pushed demo_ntoa demo_here demo_twice = [([65], peer_a)].
Proof.
  split; [|split; vm_compute; reflexivity].
  apply (udp_refines_channel demo_ntoa demo_here demo_peers (udp_peer 4) demo_twice).
  - apply udp_demo_ready.
  - apply demo_twice_reachable.
Defined.

Lemma udp_delivers_witness : returned demo_done ≡ₚ pushed demo_ntoa demo_here demo_sent.
Proof.
  destruct (udp_delivers demo_ntoa demo_here demo_peers (udp_peer 4) demo_sent) as [_ H].
  - apply udp_demo_ready.
  - apply udp_demo_sent_reachable.
  - repeat constructor; [|discriminate]. intros Hn. apply list_elem_of_singleton in Hn. discriminate Hn.
  - apply (H demo_done udp_demo_drains udp_demo_stuck).
Defined.
