(* ===== verification/UdpStream.v ===== *)
(** Several [UdpSocket]s that send packets of any size to one that receives them,
    over a network that keeps the order of each sender's datagrams and loses none.

    The system is that of [UdpSystem.v]; only the network is another one. The
    datagrams of a packet arrive one by one, mixed with those of other senders,
    and [receivePacket] puts them together in the buffer of their sender. What the
    whole promises is a bundle of first-in first-out streams, one for each sender. *)

From stdpp Require Import gmap relations.
From S2P Require Import StdMap SocketErrors Packet UdpSocket UdpApi AsyncWriter UdpSystem Transition Prelude.

Local Open Scope Z_scope.

#[local] Opaque MAX_PACKET_SIZE.

(** * Specification *)

(** The packets of a peer among those that were taken. *)
Definition taken_from (k : peer) (t : list delivery) : list bytes :=
  omap (λ m : delivery, if decide (m.2 = k) then Some m.1 else None) t.

(** A stream for each peer, with what was taken out of all of them. *)
Record streams : Type := Streams { sent : list (peer * list bytes); taken : list delivery }.

Inductive streams_step : streams → streams → Prop :=
| streams_put j k l p q t :
    q !! j = Some (k, l) → streams_step (Streams q t) (Streams (<[j := (k, l ++ [p])]> q) t)
| streams_take k l p rest q t :
    (k, l) ∈ q → l = taken_from k t ++ p :: rest →
    streams_step (Streams q t) (Streams q (t ++ [(p, k)])).

Lemma taken_from_app k t t' : taken_from k (t ++ t') = taken_from k t ++ taken_from k t'.
Proof. apply omap_app. Qed.

(** * Model *)

Section Streams.
(** [inet_ntoa], and the address of the receiver. *)
Context (inet_ntoa : Z → str) (here : address).

(** The packets a thread may send: not empty, below 2 GiB, and such that they do not
    fill their last datagram. *)
Definition sendable (p : bytes) : Prop := p ≠ [] ∧ packet_ok p.

(** The steps of the system; a datagram is taken when none of its sender is before
    it. A socket that sends is closed at
    the end of its destructor. *)
Inductive stream_step : system → system → Prop :=
| t_worker j n w s :
    nodes s !! j = Some n → worker_step false (writing n) = Some w →
    stream_step s (work j n w (λ _, None) s)
| t_push j n i ip port p w s :
    nodes s !! j = Some n → destructor (writing n) = DNone →
    producers (writing n) !! i = Some PIdle → sendable p →
    writePacketAsync i ip port p (socket n) (writing n) = (SUCCESS, w) →
    stream_step s (set_node j (set_writing w n) s)
| t_quiet j n w s :
    nodes s !! j = Some n → quiet (writing n) w → stream_step s (set_node j (set_writing w n) s)
| t_close j n this s :
    nodes s !! j = Some n → worker (writing n) = WDone → close false (socket n) = Some this →
    stream_step s (set_node j (replace_socket this n) s)
| t_recv l1 source d l2 s :
    receiving inet_ntoa s = Waiting → net s = l1 ++ (source, (here, d)) :: l2 →
    Forall (λ x : datagram, (x.1, x.2.1) ≠ (source, here)) l1 →
    stream_step s (take_datagram source.1 source.2 d (l1 ++ l2) s)
| t_again e s :
    receiving inet_ntoa s = Waiting → udp_getLastError e = IN_PROGRESS →
    stream_step s (ask_again e s)
| t_return error p k this rest s :
    receiving inet_ntoa s = Returned (error, p, k, this, rest) →
    stream_step s (return_packet error p k this rest s).

(** * What is on its way *)

(** The name of a sender, and what concerns one name. *)
Definition name_of (a : address) : peer := (inet_ntoa a.1, a.2).
Definition name (n : node) : peer := name_of (from n).
#[local] Arguments name : simpl never.

Definition by_peer (g : node → list bytes) (l : list node) (k : peer) : list bytes :=
  mjoin ((λ n, if decide (name n = k) then g n else []) <$> l).

Definition pushed_packets_by (n : node) : list bytes := (pushed_by inet_ntoa here n).*1.
Definition wrote_packets_by (n : node) : list bytes := (wrote_by inet_ntoa here n).*1.
Definition pending_packets_by (n : node) : list bytes := (pending_by inet_ntoa here n).*1.

Definition pushed_as (s : system) : peer → list bytes := by_peer pushed_packets_by (nodes s).
Definition wrote_as (s : system) : peer → list bytes := by_peer wrote_packets_by (nodes s).
Definition got (s : system) (k : peer) : list bytes := taken_from k (returned s).

Definition arriving_as (k : peer) (d : datagram) : option bytes :=
  if decide (d.2.1 = here ∧ name_of d.1 = k) then Some d.2.2 else None.
Definition under_way (s : system) (k : peer) : list bytes := omap (arriving_as k) (net s).

Lemma by_peer_none g l k : k ∉ name <$> l → by_peer g l k = [].
Proof.
  unfold by_peer. induction l as [|n l IH]; csimpl; [done|].
  intros [Hn Hl]%not_elem_of_cons. rewrite decide_False by done. by apply IH.
Qed.

Lemma by_peer_cons g n l k :
  by_peer g (n :: l) k = (if decide (name n = k) then g n else []) ++ by_peer g l k.
Proof. done. Qed.

(** The names being different, a node adds to the end of its own stream. *)
Lemma by_peer_insert g l j n n' x k :
  NoDup (name <$> l) → l !! j = Some n → name n' = name n → g n' = g n ++ x →
  by_peer g (<[j := n']> l) k = by_peer g l k ++ (if decide (name n = k) then x else []).
Proof.
  intros Hnd. revert j. induction l as [|n0 l IH]; intros j Hj Hname Hg; [done|].
  apply NoDup_cons in Hnd as [Hn0 Hnd]. destruct j as [|j]; simpl in *; [injection Hj as ->|].
  - rewrite !by_peer_cons, Hname, Hg. case_decide as Hk; [|by rewrite app_nil_r].
    rewrite by_peer_none by (by rewrite <- Hk). by rewrite !app_nil_r.
  - rewrite !by_peer_cons, (IH Hnd j) by done. by rewrite app_assoc.
Qed.

Lemma by_peer_app g g1 g2 l k :
  NoDup (name <$> l) → Forall (λ n, g n = g1 n ++ g2 n) l →
  by_peer g l k = by_peer g1 l k ++ by_peer g2 l k.
Proof.
  intros Hnd Hg. induction Hg as [|n l Hn _ IH]; [done|].
  apply NoDup_cons in Hnd as [Hnl Hnd]. rewrite !by_peer_cons. case_decide as Hk; [|by apply IH].
  rewrite !(by_peer_none _ l) by (by rewrite <- Hk). by rewrite !app_nil_r.
Qed.

(** * The invariant *)

Record node_fine (n : node) : Prop := {
  nf_writer : writer_ok false (writing n);
  nf_plain : pushed_plain (writing n) = [];
  nf_packets : Forall (λ m : message, sendable m.1.1) (pushed_packets (writing n));
  nf_bound : worker (writing n) ≠ WDone → is_Some (_sock (socket n))
}.

(** Of every name, what was written and not yet returned is what the datagrams make
    up that are in the buffer of the receiver, in the call that is running and under
    way. *)
Definition flows (s : system) (rest : peer → list bytes) : Prop :=
  ∀ k, wrote_as s k = got s k ++ rest k ∧
    feeds (buffered (receiver s) k) (datagrams_of inet_ntoa k (asked s) ++ under_way s k) (rest k).

Record stream_ok (s : system) : Prop := {
  to_nodes : Forall node_fine (nodes s);
  to_names : NoDup (name <$> nodes s);
  to_net : Forall (λ d : datagram, d.1 ∈ from <$> nodes s) (net s);
  to_asked : Forall UdpSocket.ready (asked s);
  to_bound : is_Some (_sock (receiver s));
  to_flows : ∃ rest, flows s rest;
  to_results : Forall (λ r, r.1.1 = SUCCESS) (results s)
}.

Lemma feeds_app b ds ps ds' ps' : feeds b ds ps → feeds [] ds' ps' → feeds b (ds ++ ds') (ps ++ ps').
Proof. intros H H'. induction H; simpl; [done|by eapply feeds_more; eauto|by eapply feeds_last; eauto]. Qed.

Lemma feeds_nonempty b ds ps : feeds b ds ps → Forall (λ d, d ≠ []) ds.
Proof. induction 1; by constructor. Qed.

(** What a step of a node leaves alone. *)
Lemma fmap_same_node {A} (f : node → A) (l : list node) (j : nat) n n' :
  l !! j = Some n → f n' = f n → f <$> <[j := n']> l = f <$> l.
Proof.
  intros Hj Hf. rewrite list_fmap_insert, list_insert_id; [done|]. by rewrite list_lookup_fmap, Hj, Hf.
Qed.

(** The node that has a name. *)
Lemma same_name s a a' :
  NoDup (name <$> nodes s) → a ∈ from <$> nodes s → a' ∈ from <$> nodes s →
  name_of a = name_of a' → a = a'.
Proof.
  intros Hnd (n & -> & Hn)%list_elem_of_fmap (n' & -> & Hn')%list_elem_of_fmap Hname.
  apply list_elem_of_lookup in Hn as [i Hi], Hn' as [j Hj].
  assert (i = j) as ->.
  { apply (NoDup_lookup _ i j (name n) Hnd); rewrite list_lookup_fmap, ?Hi, ?Hj; [done|].
    simpl. unfold name. by rewrite Hname. }
  congruence.
Qed.

Lemma split_written n :
  node_fine n → pushed_packets_by n = wrote_packets_by n ++ pending_packets_by n.
Proof.
  intros Hn. unfold pushed_packets_by, wrote_packets_by, pending_packets_by, pushed_by.
  rewrite (ok_packets _ _ (nf_writer _ Hn)), omap_app. by apply fmap_app.
Qed.

Lemma pushed_written s k :
  stream_ok s → pushed_as s k = wrote_as s k ++ by_peer pending_packets_by (nodes s) k.
Proof.
  intros Hok. apply by_peer_app; [apply Hok|]. eapply Forall_impl; [apply Hok|]. apply split_written.
Qed.

(** Packets of such a size fit. *)
Lemma wrote_sizes s k : Forall node_fine (nodes s) → Forall (λ p, size p < 2 ^ 31) (wrote_as s k).
Proof.
  unfold wrote_as. induction 1 as [|n l Hn _ IH]; [constructor|].
  rewrite by_peer_cons. apply Forall_app. split; [|done]. case_decide; [|constructor].
  pose proof (nf_packets _ Hn) as Hp. rewrite (ok_packets _ _ (nf_writer _ Hn)) in Hp.
  apply Forall_app in Hp as [Hp _]. unfold wrote_packets_by, wrote_by.
  apply Forall_fmap, Forall_forall. intros [p k'] (m & Hm & He)%list_elem_of_omap.
  unfold expected in He. simpl.
  pose proof (proj1 (Forall_forall _ _) Hp _ Hm) as [_ [Hsz _]].
  case_decide; simplify_eq. done.
Qed.

(** ** The worker *)

Lemma arriving_datagrams k a dst ds :
  omap (arriving_as k) ((λ c, (a, (dst, c))) <$> ds) =
  if decide (dst = here ∧ name_of a = k) then ds else [].
Proof.
  induction ds as [|d ds IH]; csimpl; [by case_decide|].
  rewrite IH. unfold arriving_as. simpl. by case_decide.
Qed.

Lemma writes_sendable n : node_fine n → ∀ m, m ∈ writes (writing n) → sendable m.1.1.
Proof.
  intros Hn m Hm. apply (proj1 (Forall_forall _ _) (nf_packets _ Hn)).
  by apply (writes_pushed false); [apply Hn|].
Qed.

Lemma sends_datagrams n :
  node_fine n →
  sends (λ _, None) n =
    mjoin ((λ m : message, (λ c, (from n, ((m.1.2, m.2), c))) <$>
              (writePacket m.1.1 (λ _, None) (socket n)).2) <$> writes (writing n)).
Proof.
  intros Hn. pose proof (writes_sendable n Hn) as Hw. unfold sends, writes in *.
  destruct (worker (writing n)) as [| | | | | | | |m| | |m| |] eqn:E; try done.
  - csimpl. rewrite app_nil_r, worker_writePacket_some by by destruct (Hw m ltac:(by left)).
    unfold sent_calls, writePacket_to, addressed. simpl. by rewrite <- list_fmap_compose.
  - by destruct (no_plain_write false _ m (nf_writer _ Hn) (nf_plain _ Hn)).
Qed.

(** A worker that writes has a socket. *)
Lemma writes_cases n :
  node_fine n →
  writes (writing n) = [] ∨ ∃ m fd, writes (writing n) = [m] ∧ _sock (socket n) = Some fd.
Proof.
  intros Hn. pose proof (nf_bound _ Hn) as Hb. unfold writes.
  destruct (worker (writing n)); try by left. right. destruct (Hb ltac:(done)) as [fd Hfd]. eauto.
Qed.

Lemma sends_feed n k :
  node_fine n →
  feeds [] (omap (arriving_as k) (sends (λ _, None) n))
    (if decide (name n = k) then (omap (expected inet_ntoa here (from n)) (writes (writing n))).*1 else []).
Proof.
  intros Hn. rewrite sends_datagrams by done.
  pose proof (writes_sendable n Hn) as Hw.
  destruct (writes_cases n Hn) as [-> | ([[p ip] port] & fd & E & Hfd)];
    [csimpl; case_decide; constructor|]. rewrite E in *. csimpl.
  rewrite app_nil_r, arriving_datagrams. destruct (Hw (p, ip, port) ltac:(by left)) as [_ Hp]. simpl in Hp.
  unfold expected, name. simpl.
  destruct (decide ((ip, port) = here ∧ name_of (from n) = k)) as [[H1 H2]|Hno].
  - rewrite !decide_True by done. csimpl.
    pose proof (written_feeds [p] (socket n) fd Hfd ltac:(by apply Forall_singleton)) as Hf.
    csimpl in Hf. by rewrite app_nil_r in Hf.
  - case_decide; [|constructor]. rewrite decide_False by tauto. constructor.
Qed.

Lemma stream_work_ok j n w s :
  stream_ok s → nodes s !! j = Some n → worker_step false (writing n) = Some w →
  stream_ok (work j n w (λ _, None) s).
Proof.
  intros [] Hj Hw. pose proof (Forall_lookup_1 _ _ _ _ to_nodes0 Hj) as Hn.
  destruct (worker_step_others _ _ _ Hw) as (_ & _ & Hpp & Hpl).
  split; try done; simpl.
  - apply Forall_insert; [done|]. destruct Hn. split; simpl; rewrite ?Hpl, ?Hpp; try done;
      [by eapply worker_step_ok|]. intros _. apply nf_bound0. intros Hd.
    unfold worker_step in Hw. by rewrite Hd in Hw.
  - by rewrite (fmap_same_node name (nodes s) j n).
  - rewrite (fmap_same_node from (nodes s) j n) by done. apply Forall_app. split; [done|]. rewrite sends_datagrams by done.
    apply Forall_forall. intros d. rewrite list_elem_of_join. intros (l & Hd & (m & -> & _)%list_elem_of_fmap).
    apply list_elem_of_fmap in Hd as (c & -> & _). simpl.
    apply list_elem_of_fmap. exists n. split; [done|]. by eapply list_elem_of_lookup_2.
  - destruct to_flows0 as [rest Hr].
    exists (λ k, rest k ++ (if decide (name n = k)
      then (omap (expected inet_ntoa here (from n)) (writes (writing n))).*1 else [])).
    intros k. destruct (Hr k) as [Hg Hf]. split.
    + unfold wrote_as. simpl. rewrite (by_peer_insert wrote_packets_by (nodes s) j n (set_writing w n)
        (omap (expected inet_ntoa here (from n)) (writes (writing n))).*1); try done.
      * fold (wrote_as s k). rewrite Hg, <- app_assoc. done.
      * unfold wrote_packets_by, wrote_by. simpl.
        by rewrite (worker_step_writes _ _ _ Hw), omap_app, fmap_app.
    + unfold under_way. simpl. rewrite omap_app, app_assoc. apply feeds_app; [done|]. by apply sends_feed.
Qed.

(** ** The other steps *)

Lemma stream_set_node_ok j n w s :
  stream_ok s → nodes s !! j = Some n → udp_step (writing n) w →
  wrote_packets w = wrote_packets (writing n) → pushed_plain w = [] →
  Forall (λ m : message, sendable m.1.1) (pushed_packets w) →
  stream_ok (set_node j (set_writing w n) s).
Proof.
  intros [] Hj Hstep Hw Hpl Hp. pose proof (Forall_lookup_1 _ _ _ _ to_nodes0 Hj) as Hn.
  split; try done; simpl.
  - apply Forall_insert; [done|]. destruct Hn. split; try done; [by eapply writer_step_ok|].
    intros Hd. apply nf_bound0. intros Hdone. by apply Hd, (step_done _ _ _ _ Hstep).
  - by rewrite (fmap_same_node name (nodes s) j n).
  - by rewrite (fmap_same_node from (nodes s) j n).
  - destruct to_flows0 as [rest Hr]. exists rest. intros k. destruct (Hr k) as [Hg Hf]. split; [|done].
    unfold wrote_as. simpl.
    rewrite (by_peer_insert wrote_packets_by (nodes s) j n (set_writing w n) []); try done.
    + by case_decide; rewrite app_nil_r.
    + unfold wrote_packets_by, wrote_by. simpl. by rewrite Hw, app_nil_r.
Qed.

Lemma stream_close_ok j n this s :
  stream_ok s → nodes s !! j = Some n → worker (writing n) = WDone →
  stream_ok (set_node j (replace_socket this n) s).
Proof.
  intros [] Hj Hd. pose proof (Forall_lookup_1 _ _ _ _ to_nodes0 Hj) as Hn.
  split; try done; simpl.
  - apply Forall_insert; [done|]. destruct Hn. by split.
  - by rewrite (fmap_same_node name (nodes s) j n).
  - by rewrite (fmap_same_node from (nodes s) j n).
  - destruct to_flows0 as [rest Hr]. exists rest. intros k. destruct (Hr k) as [Hg Hf]. split; [|done].
    unfold wrote_as, by_peer. simpl. by rewrite (fmap_same_node _ (nodes s) j n).
Qed.

(** A call of [receivePacket] between two steps: it waits, and what is left to
    return has datagrams under way, or it returns the next packet of some peer. *)
Inductive stream_receiving (s : system) (rest : peer → list bytes) : Prop :=
| receiving_waits :
    receiving inet_ntoa s = Waiting → (∀ k, under_way s k = [] → rest k = []) →
    stream_receiving s rest
| receiving_packet p k l this net' :
    receiving inet_ntoa s = Returned (SUCCESS, p, k, this, net') → rest k = p :: l →
    (length net' < length (asked s))%nat → is_Some (_sock this) → Forall UdpSocket.ready net' →
    flows (return_packet SUCCESS p k this net' s) (λ j, if decide (j = k) then l else rest j) →
    stream_receiving s rest.

Lemma stream_receive_cases s rest : stream_ok s → flows s rest → stream_receiving s rest.
Proof.
  intros Hok Hr. destruct (to_bound _ Hok) as [fd Hfd].
  assert (Hsz : ∀ k, Forall (λ p, size p < 2 ^ 31) (rest k)).
  { intros k. pose proof (wrote_sizes s k (to_nodes _ Hok)) as H. destruct (Hr k) as [E _].
    rewrite E in H. by apply Forall_app in H as [_ ?]. }
  destruct (receive_loop_feeds inet_ntoa fd (asked s) (length (asked s) + 1) [] ([], 0) (receiver s)
    (under_way s) rest) as [[Hno Hw]|(k & p & l & this & net' & Hk & Hlt & Hs & Hrd & Hfd' & Hgo)];
    [lia|done|apply Hok|done|intros k; apply Hr|..].
  - apply receiving_waits; [unfold receiving, receivePacket; by rewrite Hfd|].
    intros k Hk. by destruct (Hno k Hk).
  - apply (receiving_packet s rest p k l this net'); try done.
    + unfold receiving, receivePacket. by rewrite Hfd.
    + intros j. split; [|apply Hfd'].
      unfold got, returned. simpl. rewrite fmap_app, taken_from_app.
      change (wrote_as (return_packet _ _ _ _ _ s) j) with (wrote_as s j).
      destruct (Hr j) as [-> _]. unfold got, returned. rewrite <- app_assoc. f_equal.
      unfold taken_from. csimpl. destruct (decide (j = k)) as [->|Hj].
      * by rewrite decide_True.
      * by rewrite decide_False.
Qed.

(** The datagrams of a sender are under way in their order. *)
Lemma under_way_take s l1 source d l2 k :
  stream_ok s → net s = l1 ++ (source, (here, d)) :: l2 →
  Forall (λ x : datagram, (x.1, x.2.1) ≠ (source, here)) l1 →
  under_way s k = (if decide (name_of source = k) then [d] else []) ++
                  under_way (take_datagram source.1 source.2 d (l1 ++ l2) s) k.
Proof.
  intros Hok E Hl1. unfold under_way. simpl. rewrite E, !omap_app. csimpl.
  unfold arriving_as at 2. simpl.
  destruct (decide (name_of source = k)) as [<-|Hk]; [|by rewrite decide_False by naive_solver].
  rewrite decide_True by done.
  assert (H1 : omap (arriving_as (name_of source)) l1 = []).
  { apply elem_of_nil_inv. intros y ([a [dst c]] & Hx & Hy)%list_elem_of_omap.
    unfold arriving_as in Hy. simpl in Hy. case_decide as Hc; [|done]. destruct Hc as [-> Hname].
    apply (proj1 (Forall_forall _ _) Hl1 _ Hx). simpl. f_equal.
    pose proof (to_net _ Hok) as Hnet. rewrite E in Hnet.
    apply Forall_app in Hnet as [Ha [Hs _]%Forall_cons].
    apply (same_name s); [apply Hok| |done|done].
    apply (proj1 (Forall_forall _ _) Ha _ Hx). }
  by rewrite H1.
Qed.

Lemma stream_step_ok s s' : stream_step s s' → stream_ok s → stream_ok s'.
Proof.
  intros Hstep Hok. destruct Hstep as [j n w s Hj Hw|j n i ip port p w s Hj Hd Hi Hp Hw
    |j n w s Hj Hq|j n this s Hj Hd Hc|l1 [addr port] d l2 s Hin E Hl1|e s Hin He|error p k this net' s Hret].
  - by apply stream_work_ok.
  - apply push_async in Hw as ->. pose proof (Forall_lookup_1 _ _ _ _ (to_nodes _ Hok) Hj) as Hn.
    apply stream_set_node_ok; try done; [by apply step_push_packet|apply Hn|].
    simpl. apply Forall_app. split; [apply Hn|]. by apply Forall_singleton.
  - pose proof (Forall_lookup_1 _ _ _ _ (to_nodes _ Hok) Hj) as Hn.
    destruct (quiet_step _ _ Hq) as (Hs & Hwr & Hpp & Hpl).
    apply stream_set_node_ok; rewrite ?Hpl, ?Hpp; try done; apply Hn.
  - by apply stream_close_ok.
  - pose proof (λ k, under_way_take s l1 (addr, port) d l2 k Hok E Hl1) as Hu. destruct Hok. simpl in *.
    destruct to_flows0 as [rest Hr].
    assert (Hd : d ≠ []).
    { destruct (Hr (name_of (addr, port))) as [_ Hf%feeds_nonempty]. rewrite Hu, decide_True in Hf by done.
      by apply Forall_app in Hf as [_ [? _]%Forall_cons]. }
    rewrite E in to_net0. apply Forall_app in to_net0 as [H1 [_ H2]%Forall_cons].
    split; try done; simpl; [by apply Forall_app| |].
    + apply Forall_app. split; [done|]. by apply Forall_singleton.
    + exists rest. intros k. destruct (Hr k) as [Hg Hf]. split; [done|]. rewrite Hu in Hf. simpl.
      unfold datagrams_of in *. rewrite omap_app, <- app_assoc. csimpl.
      unfold name_of in Hf. simpl in Hf.
      destruct (decide ((inet_ntoa addr, port) = k)) as [->|Hk]; [by rewrite decide_True|].
      by rewrite decide_False by naive_solver.
  - destruct Hok. split; try done; simpl.
    + apply Forall_app. split; [done|]. by apply Forall_singleton.
    + destruct to_flows0 as [rest Hr]. exists rest. intros k. destruct (Hr k) as [Hg Hf]. split; [done|].
      simpl. unfold datagrams_of in *. rewrite omap_app. csimpl. by rewrite app_nil_r.
  - destruct (to_flows _ Hok) as [rest Hr].
    destruct (stream_receive_cases s rest Hok Hr) as [Hw _|p' k' l this' n' Hgo Hk Hlt Hs Hrd Hf];
      [by rewrite Hw in Hret|]. rewrite Hgo in Hret. injection Hret as <- <- <- <- <-.
    destruct Hok. split; try done; simpl; [by eexists|].
    apply Forall_app. split; [done|]. by apply Forall_singleton.
Qed.

(** * Refinement *)

Definition streams_of (s : system) : streams :=
  Streams ((λ n, (name n, pushed_packets_by n)) <$> nodes s) (returned s).

Lemma by_peer_at g l n : NoDup (name <$> l) → n ∈ l → by_peer g l (name n) = g n.
Proof.
  intros Hnd Hn. induction Hn as [n l|n n0 l Hn IH]; apply NoDup_cons in Hnd as [H0 Hnd];
    rewrite by_peer_cons.
  - by rewrite decide_True, by_peer_none, app_nil_r.
  - rewrite decide_False, IH; [done|done|]. intros E. apply H0. rewrite E. by apply list_elem_of_fmap_2.
Qed.

(** What is returned is at the beginning of the stream of its peer. *)
Lemma got_prefix s k : stream_ok s → ∃ l, pushed_as s k = got s k ++ l.
Proof.
  intros Hok. destruct (to_flows _ Hok) as [rest Hr]. destruct (Hr k) as [Hg _].
  eexists. by rewrite (pushed_written s k Hok), Hg, <- app_assoc.
Qed.

Lemma stream_return_simulates error p k this net' s :
  stream_ok s → receiving inet_ntoa s = Returned (error, p, k, this, net') →
  streams_step (streams_of s) (streams_of (return_packet error p k this net' s)).
Proof.
  intros Hok Hret. destruct (to_flows _ Hok) as [rest Hr].
  destruct (stream_receive_cases s rest Hok Hr) as [Hw _|p' k' l this' n' Hgo Hk Hlt Hs Hrd Hf];
    [by rewrite Hw in Hret|]. rewrite Hgo in Hret. injection Hret as <- <- <- <- <-.
  unfold streams_of, returned. simpl. rewrite fmap_app.
  destruct (Hr k') as [Hg _]. pose proof (pushed_written s k' Hok) as Hpush.
  rewrite Hg, Hk, <- app_assoc in Hpush. simpl in Hpush.
  destruct (decide (k' ∈ name <$> nodes s)) as [Hin|Hout].
  - apply list_elem_of_fmap in Hin as (n & -> & Hn).
    unfold pushed_as in Hpush. rewrite (by_peer_at _ _ _ (to_names _ Hok) Hn) in Hpush.
    eapply streams_take; [|exact Hpush]. by apply (list_elem_of_fmap_2 (λ n, (name n, pushed_packets_by n))).
  - unfold pushed_as in Hpush. rewrite by_peer_none in Hpush by done. by destruct (got s k').
Qed.

Lemma streams_set_node j n n' s :
  nodes s !! j = Some n → from n' = from n →
  pushed_packets (writing n') = pushed_packets (writing n) →
  (λ n, (name n, pushed_packets_by n)) <$> <[j := n']> (nodes s) =
  (λ n, (name n, pushed_packets_by n)) <$> nodes s.
Proof.
  intros Hj Hf Hp. apply (fmap_same_node _ _ j n); [done|].
  unfold name, pushed_packets_by, pushed_by. by rewrite Hf, Hp.
Qed.

Lemma stream_step_simulates s s' :
  stream_ok s → stream_step s s' →
  streams_of s' = streams_of s ∨ streams_step (streams_of s) (streams_of s').
Proof.
  intros Hok Hstep. destruct Hstep as [j n w s Hj Hw|j n i ip port p w s Hj Hd Hi Hp Hw
    |j n w s Hj Hq|j n this s Hj Hd Hc|l1 source d l2 s Hin E Hl1|e s Hin He
    |error p k this net' s Hret]; try by left.
  - left. unfold streams_of. simpl. rewrite (streams_set_node j n); [done..|]. simpl.
    by destruct (worker_step_others _ _ _ Hw) as (_ & _ & -> & _).
  - apply push_async in Hw as ->. unfold streams_of. cbn [nodes set_node]. rewrite list_fmap_insert.
    assert (Hl : ((λ n, (name n, pushed_packets_by n)) <$> nodes s) !! j = Some (name n, pushed_packets_by n))
      by (by rewrite list_lookup_fmap, Hj).
    set (n' := set_writing _ n).
    assert (Ep : pushed_packets_by n' =
      pushed_packets_by n ++ (omap (expected inet_ntoa here (from n)) [(p, ip, port)]).*1).
    { unfold pushed_packets_by, pushed_by, n'. simpl. by rewrite omap_app, fmap_app. }
    change (name n') with (name n). change (returned (set_node j n' s)) with (returned s). rewrite Ep.
    csimpl. unfold expected. simpl. case_decide; csimpl.
    + right. by apply streams_put.
    + left. rewrite app_nil_r. by rewrite list_insert_id.
  - left. unfold streams_of. simpl. rewrite (streams_set_node j n); [done..|]. simpl.
    by destruct (quiet_step _ _ Hq) as (_ & _ & -> & _).
  - left. unfold streams_of. simpl. by rewrite (streams_set_node j n).
  - right. by apply stream_return_simulates.
Qed.

(** * Progress *)

(** The steps of the workers, the ends of the destructors and the steps of the
    receiver. *)
Inductive stream_drain : system → system → Prop :=
| stream_drain_worker j n w s :
    nodes s !! j = Some n → worker_step false (writing n) = Some w →
    stream_drain s (work j n w (λ _, None) s)
| stream_drain_close j n fd this s :
    nodes s !! j = Some n → worker (writing n) = WDone → _sock (socket n) = Some fd →
    close false (socket n) = Some this → stream_drain s (set_node j (replace_socket this n) s)
| stream_drain_recv l1 source d l2 s :
    receiving inet_ntoa s = Waiting → net s = l1 ++ (source, (here, d)) :: l2 →
    Forall (λ x : datagram, (x.1, x.2.1) ≠ (source, here)) l1 →
    stream_drain s (take_datagram source.1 source.2 d (l1 ++ l2) s)
| stream_drain_return error p k this rest s :
    receiving inet_ntoa s = Returned (error, p, k, this, rest) →
    stream_drain s (return_packet error p k this rest s).

Lemma stream_drain_step s s' : stream_drain s s' → stream_step s s'.
Proof. intros []; [by apply t_worker|by apply t_close|by apply t_recv|by apply t_return]. Qed.

(** What is left to do: steps of the workers, each of which may send the datagrams
    of a packet, sockets to close, datagrams to take, and answers to use. *)
Definition datagrams (l : list message) : nat :=
  sum_list_with (λ m : message, (length (frame m.1.1) / MAX_PACKET_SIZE + 1)%nat) l.
Definition node_left (n : node) : nat :=
  steps_left false (writing n) + 2 * datagrams (pending_packets false (writing n)) +
  match _sock (socket n) with Some _ => 1 | None => 0 end.
Definition stream_left (s : system) : nat :=
  sum_list_with node_left (nodes s) + 2 * length (net s) + length (asked s).

Lemma closed_socket this this' : close false this = Some this' → _sock this' = None.
Proof.
  unfold close. destruct (_sock this) eqn:E; simpl; case_match; intros [= <-]; done.
Qed.

Lemma length_sends n : node_fine n → length (sends (λ _, None) n) = datagrams (writes (writing n)).
Proof.
  intros Hn. rewrite sends_datagrams by done.
  destruct (writes_cases n Hn) as [-> | (m & fd & -> & Hfd)]; [done|].
  unfold datagrams. csimpl. rewrite app_nil_r, length_fmap, Nat.add_0_r.
  unfold writePacket. rewrite Hfd. destruct (write_cut (frame m.1.1) (socket n) fd Hfd) as (ds & -> & Hc).
  apply (cut_length _ _ Hc).
Qed.

Lemma stream_drain_decreases s s' : stream_ok s → stream_drain s s' → (stream_left s' < stream_left s)%nat.
Proof.
  intros Hok Hstep. unfold stream_left.
  destruct Hstep as [j n w s Hj Hw|j n fd this s Hj Hd Hs Hc|l1 source d l2 s Hin E Hl1
    |error p k this net' s Hret]; simpl.
  - pose proof (Forall_lookup_1 _ _ _ _ (to_nodes _ Hok) Hj) as Hn.
    rewrite length_app, (length_sends n Hn).
    pose proof (sum_insert node_left _ _ _ (set_writing w n) Hj) as Hsum.
    pose proof (worker_step_decreases false _ _ (ok_worker _ _ (nf_writer _ Hn)) Hw) as Hlt.
    unfold node_left at 2 4 in Hsum. simpl in Hsum.
    rewrite (worker_step_pending _ _ _ (nf_writer _ Hn) Hw) in Hsum. unfold datagrams in *. rewrite sum_list_with_app in Hsum. lia.
  - pose proof (sum_insert node_left _ _ _ (replace_socket this n) Hj) as Hsum.
    unfold node_left at 2 4 in Hsum. simpl in Hsum. rewrite Hs, (closed_socket _ _ Hc) in Hsum. lia.
  - rewrite E, !length_app. simpl. lia.
  - destruct (to_flows _ Hok) as [rest Hr].
    destruct (stream_receive_cases s rest Hok Hr) as [Hw _|p' k' l this' n' Hgo Hk Hlt _ _ _];
      [by rewrite Hw in Hret|]. rewrite Hgo in Hret. injection Hret as <- <- <- <- <-. lia.
Qed.

Lemma stream_drain_settled s s' :
  stream_drain s s' → settled s → settled s' ∧ ∀ k, pushed_as s' k = pushed_as s k.
Proof.
  assert (Hset : ∀ j n n' x, nodes x !! j = Some n → from n' = from n →
    producers (writing n') = producers (writing n) → destructor (writing n') = destructor (writing n) →
    pushed_packets (writing n') = pushed_packets (writing n) → settled x →
    settled (set_node j n' x) ∧ ∀ k, pushed_as (set_node j n' x) k = pushed_as x k).
  { intros j n n' x Hj Hf Hp Hd Hpp Hs. split.
    - apply Forall_insert; [done|]. pose proof (Forall_lookup_1 _ _ _ _ Hs Hj) as Hn.
      unfold notifier in *. by rewrite Hp, Hd.
    - intros k. unfold pushed_as, by_peer. simpl. f_equal. apply (fmap_same_node _ _ j n); [done|].
      unfold name, pushed_packets_by, pushed_by. by rewrite Hf, Hpp. }
  intros [j n w s1 Hj Hw|j n fd this s1 Hj Hd Hs1 Hc|l1 source d l2 s1 Hin E|error p k this rest s1 Hret] Hs;
    try done.
  - destruct (worker_step_others _ _ _ Hw) as (Hp & Hd & Hpp & _).
    by apply (Hset j n (set_writing w n) s1).
  - by apply (Hset j n (replace_socket this n) s1).
Qed.

Lemma stream_drain_keeps s0 s s' :
  stream_drain s s' → stream_ok s ∧ settled s ∧ (∀ k, pushed_as s k = pushed_as s0 k) →
  stream_ok s' ∧ settled s' ∧ (∀ k, pushed_as s' k = pushed_as s0 k).
Proof.
  intros Hstep (Hok & Hset & Hp). destruct (stream_drain_settled s s' Hstep Hset) as [Hset' Ep].
  split_and!; [by apply (stream_step_ok _ _ (stream_drain_step _ _ Hstep))|done|].
  intros k. by rewrite Ep.
Qed.

(** The first datagram for the receiver can be taken. *)
Lemma under_way_first (l : list datagram) k :
  omap (arriving_as k) l ≠ [] →
  ∃ l1 source d l2, l = l1 ++ (source, (here, d)) :: l2 ∧ Forall (λ x : datagram, x.2.1 ≠ here) l1.
Proof.
  induction l as [|[a [dst c]] l IH]; [done|]. intros Hl. destruct (decide (dst = here)) as [->|Hd].
  - exists [], a, c, l. by split; [|constructor].
  - destruct IH as (l1 & source & d & l2 & -> & H1).
    + revert Hl. csimpl. unfold arriving_as at 1. simpl. by rewrite decide_False by naive_solver.
    + exists ((a, (dst, c)) :: l1), source, d, l2. split; [done|]. by constructor.
Qed.

(** A worker that cannot go on although its destructor has started has ended. *)
Lemma destroyed_done n :
  node_fine n → worker_step false (writing n) = None → destructor (writing n) = DJoin →
  worker (writing n) = WDone.
Proof.
  intros Hn Hw Hd. apply worker_blocked in Hw as [Hw|Hw]; [|apply Hw|apply Hn]. exfalso.
  pose proof (ok_wait _ _ (nf_writer _ Hn)) as Hwait. unfold wait_ok in Hwait. rewrite Hw in Hwait.
  destruct Hwait as [_ Ht]. rewrite Hd in Ht. discriminate Ht.
  apply (ok_terminate _ _ (nf_writer _ Hn)). congruence.
Qed.

Lemma stream_closed s :
  stream_ok s → (∀ s', ¬ stream_drain s s') →
  Forall (λ n, destructor (writing n) = DJoin → _sock (socket n) = None) (nodes s).
Proof.
  intros Hok Hstuck. apply Forall_lookup. intros j n Hj Hd.
  pose proof (Forall_lookup_1 _ _ _ _ (to_nodes _ Hok) Hj) as Hn.
  destruct (_sock (socket n)) as [fd|] eqn:Hs; [|done]. exfalso.
  assert (Hw : worker_step false (writing n) = None).
  { destruct (worker_step false (writing n)) eqn:E; [|done]. exfalso. eapply Hstuck.
    by eapply stream_drain_worker. }
  pose proof (destroyed_done n Hn Hw Hd) as Hdone.
  destruct (close false (socket n)) as [this|] eqn:Hc.
  - eapply Hstuck. by eapply stream_drain_close.
  - revert Hc. unfold close. by case_match.
Qed.

(** When nothing of this is possible any more, everything has arrived. *)
Lemma stream_drained s :
  stream_ok s → settled s → (∀ s', ¬ stream_drain s s') → ∀ k, got s k = pushed_as s k.
Proof.
  intros Hok Hset Hstuck k. destruct (to_flows _ Hok) as [rest Hr].
  destruct (stream_receive_cases s rest Hok Hr) as [Hin Hno|p k' l this n' Hgo _ _ _ _ _];
    [|exfalso; eapply Hstuck; by apply stream_drain_return].
  assert (Hnet : under_way s k = []).
  { unfold under_way. destruct (decide (omap (arriving_as k) (net s) = [])) as [|Hne]; [done|exfalso].
    destruct (under_way_first _ _ Hne) as (l1 & source & d & l2 & E & H1).
    eapply Hstuck. eapply stream_drain_recv; [done|exact E|]. eapply Forall_impl; [exact H1|].
    intros x Hx. naive_solver. }
  rewrite (pushed_written s k Hok). destruct (Hr k) as [-> _]. rewrite (Hno k Hnet), app_nil_r.
  assert (Hpend : by_peer pending_packets_by (nodes s) k = []).
  { unfold by_peer. assert (Hall : Forall (λ n, pending_packets_by n = []) (nodes s)).
    { apply Forall_lookup. intros j n Hj. pose proof (Forall_lookup_1 _ _ _ _ (to_nodes _ Hok) Hj) as Hn.
      destruct (Forall_lookup_1 _ _ _ _ Hset Hj) as [Hnn Hd].
      assert (Hb : worker_step false (writing n) = None).
      { destruct (worker_step false (writing n)) eqn:E; [|done]. exfalso. eapply Hstuck.
        by eapply stream_drain_worker. }
      unfold pending_packets_by, pending_by. by rewrite (nothing_pending false _ (nf_writer _ Hn) Hb Hnn Hd). }
    clear -Hall. induction Hall as [|n l Hn _ IH]; csimpl; [done|]. rewrite Hn, IH. by case_decide. }
  by rewrite Hpend, app_nil_r.
Qed.

(** * Properties *)

(** Bound sockets with different names, and a receiver that has nothing in its
    buffers. *)
Definition distinct (peers : list (address * UdpSocket * nat)) : Prop :=
  NoDup ((λ x, name_of x.1.1) <$> peers).

Lemma System_new_stream_ok peers this :
  ready peers this → distinct peers → stream_ok (System_new peers this).
Proof.
  intros (Hp & Hs & Hb) Hnd. split; try done; simpl.
  - apply Forall_fmap. eapply Forall_impl; [exact Hp|]. intros x Hx.
    split; [apply new_writer_ok|done|done|done].
  - by rewrite <- list_fmap_compose.
  - exists (λ _, []). intros k. split.
    + unfold wrote_as. simpl. clear. induction peers as [|x l IH]; [done|].
      csimpl. rewrite by_peer_cons, IH. by case_decide.
    + simpl. rewrite Hb. constructor.
Qed.

(** C11: any number of sockets that send packets to one receiver refine a bundle of
    first-in first-out streams, one for each sender, if the network keeps the
    order of each sender's datagrams and loses none. Packets may be of any size below
    2 GiB, but not empty and not such that they fill the last datagram ([sendable]),
    and the datagrams of different senders
    mix in every way: every step of the system is a step of the bundle or changes
    nothing of it, what was returned with the name of a sender is the beginning of
    what that sender has pushed, and no call of [receivePacket] fails or is
    undefined. *)
Theorem udp_refines_streams peers this s :
  ready peers this → distinct peers → rtc stream_step (System_new peers this) s →
  rtc streams_step (Streams ((λ x, (name_of x.1.1, [])) <$> peers) []) (streams_of s) ∧
  (∀ s', stream_step s s' →
     streams_of s' = streams_of s ∨ streams_step (streams_of s) (streams_of s')) ∧
  (∀ k, taken_from k (returned s) `prefix_of` pushed_as s k) ∧
  Forall (λ r, r.1.1 = SUCCESS) (results s) ∧ receiving inet_ntoa s ≠ Undefined.
Proof.
  intros Hp Hnd Hr. pose proof (System_new_stream_ok peers this Hp Hnd) as Hok0.
  pose proof (rtc_invariant _ _ stream_step_ok _ _ Hok0 Hr) as Hok. split_and!.
  - assert (E : Streams ((λ x, (name_of x.1.1, [])) <$> peers) [] = streams_of (System_new peers this)).
    { unfold streams_of. simpl. f_equal. by rewrite <- list_fmap_compose. }
    rewrite E. apply (rtc_simulates _ _ stream_step_ok _ streams_of (System_new peers this));
      [by apply stream_step_simulates|done..].
  - intros s' Hstep. by apply stream_step_simulates.
  - intros k. by apply got_prefix.
  - apply Hok.
  - destruct (to_flows _ Hok) as [rest Hf].
    by destruct (stream_receive_cases s rest Hok Hf) as [H _|? ? ? ? ? H]; rewrite H.
Qed.

(** C12: over a network that keeps the order of each sender's datagrams and
    loses none, all packets that may be sent ([sendable]: not empty, below 2 GiB, and
    not filling their last datagram) arrive, in order. When the producers have
    notified, every run of the workers, the network and the receiver ends after a
    bounded number of steps, and wherever it ends the packets returned with the
    name of a sender are exactly those that it has pushed for this receiver, in
    the same order: nothing is lost by destructors that were started before, and
    these have ended and closed their sockets. *)
Theorem udp_streams_deliver peers this s :
  ready peers this → distinct peers → rtc stream_step (System_new peers this) s → settled s →
  (∀ k s', nsteps stream_drain k s s' → (k <= stream_left s)%nat) ∧
  (∀ s', rtc stream_drain s s' → (∀ s'', ¬ stream_drain s' s'') →
     (∀ k, taken_from k (returned s') = pushed_as s k) ∧
     Forall (λ n, destructor (writing n) = DJoin → _sock (socket n) = None) (nodes s')).
Proof.
  intros Hp Hnd Hr Hset.
  pose proof (rtc_invariant _ _ stream_step_ok _ _ (System_new_stream_ok peers this Hp Hnd) Hr) as Hok.
  split.
  - intros k s'. apply (nsteps_bounded _ _ (stream_drain_keeps s)); [|done].
    intros x y [Hx _]. by apply stream_drain_decreases.
  - intros s' Hd Hstuck.
    destruct (rtc_invariant _ _ (stream_drain_keeps s) s s') as (Hok' & Hset' & Hpush); [done..|].
    split; [|by apply stream_closed]. intros k. rewrite <- Hpush. by apply stream_drained.
Qed.
End Streams.

(** * Evaluation *)

(** The system of the other file, with its one packet. *)
Lemma demo_distinct : distinct demo_ntoa demo_peers.
Proof. apply NoDup_singleton. Qed.

Lemma stream_demo_packet_ok : sendable [65].
Proof. pose proof MAX_value. split; [done|]. split; [simpl; lia|]. rewrite Nat.mod_small; simpl; lia. Qed.

Lemma stream_demo_sent : rtc (stream_step demo_ntoa demo_here) demo_new demo_sent.
Proof.
  apply rtc_l with (set_node 0 (demo_node demo_pushed) demo_new).
  - apply (t_push _ _ 0 (demo_node (Writer_new 1)) 0 2 2000 [65] _ demo_new);
      [reflexivity..|exact stream_demo_packet_ok|reflexivity].
  - apply rtc_once. apply (t_quiet _ _ 0 (demo_node demo_pushed)); [done|]. by apply quiet_notify.
Qed.

Lemma stream_work_once s : rtc (stream_drain demo_ntoa demo_here) s (work_once s).
Proof.
  unfold work_once. destruct (nodes s !! 0%nat) as [n|] eqn:En; [|done].
  destruct (worker_step false (writing n)) as [w|] eqn:Ew; [|done].
  apply rtc_once. by apply stream_drain_worker.
Qed.

Lemma stream_work_drains n s : rtc (stream_drain demo_ntoa demo_here) s (Nat.iter n work_once s).
Proof. induction n as [|n IH]; [done|]. etrans; [exact IH|]. apply stream_work_once. Qed.

Lemma stream_return_once s : rtc (stream_drain demo_ntoa demo_here) s (return_once s).
Proof.
  unfold return_once. destruct (receiving demo_ntoa s) as [| |[[[[e p] k] this] rest]] eqn:E;
    [done|done|]. apply rtc_once. by apply stream_drain_return.
Qed.

Lemma stream_receive_once s :
  receiving demo_ntoa s = Waiting → net s = [demo_datagram] →
  rtc (stream_drain demo_ntoa demo_here) s (receive_once [] s).
Proof.
  intros Hw Hn. eapply rtc_l; [|apply stream_return_once].
  by apply (stream_drain_recv _ _ [] (1, 1000) (frame [65]) []).
Qed.

Lemma stream_demo_drains : rtc (stream_drain demo_ntoa demo_here) demo_sent demo_done.
Proof.
  transitivity demo_written; [exact (stream_work_drains 13 demo_sent)|].
  exact (stream_receive_once demo_written ltac:(vm_compute; reflexivity) demo_written_net).
Qed.

Lemma stream_demo_stuck s : ¬ stream_drain demo_ntoa demo_here demo_done s.
Proof.
  intros Hs. inversion Hs as [j n w s1 Hj Hw|j n fd this s1 Hj Hd Hfd Hc|l1 [addr port] d l2 s1 Hin E _
    |error p k this rest s1 Hret]; subst.
  - by eapply (udp_demo_stuck _), drain_worker.
  - assert (Hl : length (nodes demo_done) = 1%nat) by (vm_compute; reflexivity).
    assert (Hwait : (worker ∘ writing) <$> nodes demo_done !! 0%nat = Some WWait) by (vm_compute; reflexivity).
    pose proof (lookup_lt_Some _ _ _ Hj) as Hlt. rewrite Hl in Hlt.
    replace j with 0%nat in Hj by lia. rewrite Hj in Hwait. simpl in Hwait. congruence.
  - by eapply (udp_demo_stuck _), drain_recv.
  - by eapply (udp_demo_stuck _), drain_return.
Qed.

Lemma udp_refines_streams_witness :
  rtc streams_step (Streams [(peer_a, [])] []) (Streams [(peer_a, [[65]])] [([65], peer_a)]).
Proof.
  apply (udp_refines_streams demo_ntoa demo_here demo_peers (udp_peer 4) demo_done).
  - apply udp_demo_ready.
  - apply demo_distinct.
  - transitivity demo_sent; [exact stream_demo_sent|].
    apply (rtc_subrel (stream_drain demo_ntoa demo_here)); [apply stream_drain_step|exact stream_demo_drains].
Defined.

Lemma udp_streams_deliver_witness :
  taken_from peer_a (returned demo_done) = pushed_as demo_ntoa demo_here demo_sent peer_a.
Proof.
  destruct (udp_streams_deliver demo_ntoa demo_here demo_peers (udp_peer 4) demo_sent) as [_ H].
  - apply udp_demo_ready.
  - apply demo_distinct.
  - apply stream_demo_sent.
  - repeat constructor; [|discriminate]. intros Hn. apply list_elem_of_singleton in Hn. discriminate Hn.
  - apply (H demo_done stream_demo_drains stream_demo_stuck).
Defined.
